(* ===== verification/_CoqProject ===== *)
-Q . S2P
Prelude.v
Machine.v
Str.v
Decimal.v
BTreeMap.v
HashMap.v
Types.v
Store.v
Engine.v
History.v
EngineSpec.v
Suite.v
Replication.v
Hash.v
Crc.v
Codec.v
Disk.v
Wal.v
WalLog.v
WalSpec.v
Durability.v
Damage.v
EngineWal.v
EngineTests.v
WalTests.v
WalSuite.v
Bench.v
F64.v
Rounding.v
Abuse.v
Sketch.v
Hll.v
Velocity.v
LimiterTests.v
Estimate.v
VelocityTests.v
Proptests.v
Pow.v
CryptoTests.v
Http.v
Gateway.v
GatewayTests.v
GatewaySpec.v
Retry.v
Router.v
RouterTests.v
Async.v
Concurrent.v
Contention.v
GatewayWal.v
HttpSpec.v
Fuzz.v
Server.v
ServerTests.v
Config.v
Restart.v
ServerWal.v
Uring.v
Fast.v
FastWal.v
FastTests.v
Service.v
Sim.v
SimSpec.v
SimShadow.v
SimTests.v
