(* ===== verification/Prelude.v ===== *)
(** * Onced: a verification development

    Onced is an idempotency gateway.  A client attaches an idempotency key to a
    request; the gateway lets exactly one attempt reach the backend, records its
    outcome durably and answers every retry with that outcome.  The sources are
    the crates under [src/crates].

    ** The program and its parts

    - [onced-core] holds the engine and its storage.  [Engine<S>] ([engine.rs])
      decides for a key whether to run, replay, report in progress or report a
      mismatch, and fences off workers whose lease ran out.  It keeps its records
      in a [Store] ([store.rs]): a map in memory, a write-ahead log ([wal.rs])
      whose records are framed, checksummed and hash-chained ([hash.rs]), or a
      synchronous replication of several stores ([replication.rs]).  The abuse
      layer is a sliding-window limiter with rule sets ([abuse.rs]), a Count-Min
      sketch, a HyperLogLog, a limiter of distinct targets and proof-of-work
      challenges ([sketch.rs], [hll.rs], [velocity.rs], [pow.rs]).
    - [onced-gateway] parses and writes HTTP ([http.rs]), runs a request through
      the abuse stage and the two phases of the engine ([gateway.rs]), spreads
      keys over shards ([router.rs]), and serves sockets ([server.rs],
      [main.rs]).
    - [onced-fast] and [onced-uring] are other transports over the same router.
    - [onced-sim] is a fault-injecting simulator with oracles for the claims;
      [onced-bench] and [fuzz] hold benchmarks and fuzz targets.

    ** The files

    Foundations: [Prelude] (this file: tactics, hint databases, results and
    general lemmas), [Machine] (fixed-width integers and byte encodings), [Str]
    (UTF-8 strings), [Decimal] (integers in text), [BTreeMap], [HashMap], [F64]
    (IEEE binary64 from the Standard Library's [SpecFloat]), [Rounding] (the
    relative error of its operations), [Disk] (files with synced and unsynced
    operations, directory entries, and what a crash keeps of them).

    Components, each with the definitions of its source and its theorems:
    - [Types], [Store], [Engine], [Replication], [Hash], [Abuse], [Sketch],
      [Hll], [Velocity], [Pow]: the files of [onced-core/src] of those names
      ([Types] is [lib.rs]); [Crc], [Codec] and [Wal]: [wal.rs];
    - [Http], [Gateway], [Router], [Server], [Config]: [http.rs], [gateway.rs],
      [router.rs], [server.rs] and [main.rs] of [onced-gateway/src];
    - [Fast]: [onced-fast/src]; [Uring]: [onced-uring/src]; [Sim]:
      [onced-sim/src].

    Theories over them: [History] (histories of an engine with crashes),
    [EngineSpec] (availability, pruning, refinement of a map in memory),
    [WalLog], [WalSpec], [Durability] (the log as a sequence of payloads, the
    representation invariant, crashes at every point), [EngineWal], [GatewayWal],
    [ServerWal] (concrete instances at which the theorems are applied),
    [GatewaySpec] (histories of request phases), [HttpSpec] (round trips),
    [Concurrent] (requests in flight as interleaved tasks), [Async] (the
    asynchronous driver is the synchronous one), [Restart] (the whole gateway
    over a power loss), [Damage] (one changed byte of a record or a log), [Retry]
    (what follows a failed attempt), [FastWal] (the proxy at concrete values),
    [Estimate] (bounds on the rounded estimates of a HyperLogLog), [SimSpec] (the
    simulator's assertions), [SimShadow] (a machine without a log that takes the
    simulator's decisions, on which campaigns are computed).

    The processes: [Service] has the running binaries of [onced-gateway] and
    [onced-fast]: accept loop, a task per connection, the background sweep, and
    the two [main]s over any transport that decodes requests and encodes
    responses (the class [Transport]).

    Programs over them: the repository's own tests, benchmarks and fuzz targets,
    as clients whose verdict is a value.  [Suite] has their vocabulary
    (assertions, loops, scripts of engine calls); [EngineTests], [WalTests] with
    its proofs in [WalSuite], [LimiterTests], [VelocityTests], [Proptests],
    [CryptoTests], [GatewayTests], [RouterTests], [Contention], [ServerTests],
    [FastTests] and [SimTests] the tests of the crates' files; [Bench] the benchmark programs, [Fuzz] the fuzz targets.

    Names are those of the sources; where two types have a method of one name
    the type comes first ([WalStore_put]).  A method on [&mut self] returns its
    result with the new state.  [?] and [Result] are [result], a panic is a value
    of its own ([None], or an error constructor named for it).

    ** The interfaces

    The class [Store] is the trait; [StoreLaws] says that a store is observed
    through the finite map it represents, [DurableLaws] what a crash and a reopen
    do to that map, [PutCrashLaws] what a crash inside a write does.  The theorems of [History], [EngineSpec], [GatewaySpec] and
    [Router] are proved for every store with these laws.  The memory store has
    the first, the log ([WalSpec]; a crash with nothing buffered and the log's
    directory entry on the device) and a replicated store over durable ones
    ([Replication]) have both.  [Upstream] and [Handle] are the traits of those names;
    [Network], [Sockets], [Axum], [Reqwest] and [TestClient] stand for sockets and
    libraries; [Transport] is what a running service needs of its front end;
    [HashOrder] for the unspecified iteration order of a hash map.

    ** What is proved

    - Exactly once: for every interleaving of operations, prune sweeps, flushes
      and crashes, a committed outcome is the only one of its key until it
      expires, a key has one runner at a time while its lease lasts, stale workers
      never commit, a replay is the outcome of a run of the same request
      ([History]); the same for a gateway ([GatewaySpec]), for
      all shards of a router ([Router]), for any number of concurrent requests
      ([Concurrent]: at most one reaches the backend within a lease), over connections ([Server]), through a
      power loss and a new start of the binary ([Restart]), and for the
      asynchronous transports ([Async], [Fast]), and for the running binaries with
      all their connections and sweeps ([Service]).  A failed attempt blocks its key
      for its lease and no longer ([Retry]).
    - Storage transparency: an engine over any lawful store answers every
      sequence of operations as one over a map in memory ([EngineSpec]); any
      replica can take over, also after a crash in the middle of a replicated
      write ([Replication]).
    - Durability: once the directory entry of the log is on the device, an
      acknowledged write survives every crash, a batch is recovered up to a prefix
      and compaction is atomic under crashes; torn tails are cut, damage inside is refused with its offset, and the chain root
      commits to the log up to SHA-256 collisions ([Durability]); what a single
      damaged byte can do to a record and to a log is settled exactly ([Damage]).
    - Encodings: records, requests and responses are parsed back as written,
      decoding arbitrary bytes is safe, damage is detected ([Codec], [Crc],
      [HttpSpec], [Decimal], [Config]).
    - Abuse: the verdict of the sliding window against the exact weighted count,
      memory bounds of the limiters, the one-sided error of
      the sketch, set semantics of the HyperLogLog, both verdicts of the velocity
      limiter for any hasher ([VelocityTests]), the acceptance condition of a
      proof of work.
    - The simulator: for every seed and both durability modes no assertion fires
      ([SimSpec]); its two test campaigns pass at their seeds and exercise every
      event they count ([SimTests]).
    - The tests: each passes, and where a test samples a larger claim, the claim
      is proved.  The engine's tests pass over every lawful store
      ([EngineTests]), the randomized test of the log for every seed and length
      ([WalSuite]), the property tests for all their inputs ([Proptests]), the
      router's tests for every hash ([RouterTests]) and its contention test for
      every number of threads and every schedule ([Contention]), the fuzz targets
      on every input ([Fuzz]), the end-to-end tests of the asynchronous transport
      for all libraries that behave as documented ([FastTests]); the benchmarks do the work they report ([Bench]).
    - Limits of the program that the model shows: a zero-filled tail makes a log
      unreadable, a damaged length field cuts a log short without an error
      ([Damage]), a rename or a creation of the log that is not synced loses
      acknowledged writes, fences start over after a restart ([Durability],
      [EngineWal]), nodes that an interrupted write left different stay so
      ([Replication]), a head that
      arrives in pieces is cut short by the io_uring transport ([Uring]).

    ** Modelling choices

    - Integers have the widths of the sources and wrap as in a release build
      ([usize] has 64 bits).  Every [+=] that can overflow is written with its
      wrap-around; [wrap] keeps the low bits, which is the remainder
      ([wrap_mod]).
    - Crashes: the operations on a file reach the device in order, so a crash
      keeps a prefix of the unsynced ones, of a write any prefix of its bytes;
      a rename is atomic and may be undone until the directory is synced, which
      fails on platforms that cannot ([dir_sync_ok]); so may the creation of the
      log, which [open] does not sync at all.  [linked] says that nothing of this
      is outstanding.
    - Fuel is only used where the bound is evident, and is shown to be enough by
      the theorems that use it: the replay of a log and the header loops take one
      more than the length of their input (each iteration consumes a byte;
      [Fuzz] relates the header loop to the loop without a bound), the
      decimal digits of a 64-bit number are at most 20, the zero padding of a
      hash at most 64.  [simulation_never_panics] bounds a run by 43,200 steps
      because the clock of the simulator then stays below the time-to-live, as
      the oracles assume; the campaign runs 2,000.
    - A lock is held for one phase at a time, so a history of phases in any order
      is a concurrent execution.
    - Parameters: the hash of [DefaultHasher], the natural logarithm, the order of
      a hash map, the backend, sockets, the environment and the files.

    ** Not modelled

    Socket options, timeouts and the clock (times are arguments; when a sweep runs
    is up to the schedule); printing; the io_uring runtime with its accept loop,
    and the internals of axum and reqwest.  Of the tests: those whose verdict
    rests on values of [DefaultHasher] (the accuracy of the HyperLogLog at 5,000
    and 50,000 keys and of the sketch's heavy hitter, and the two statistical
    property tests; the test that flags a fan-out of 200 cards is proved for
    hashers that spread them over more than twenty registers), and the three
    proof-of-work tests that search a nonce and assert that SHA-256 rejects it
    elsewhere, which need long scans of hashes in the kernel.
    Memory does not run out: an allocation that is not refused for its size
    succeeds.  A reply that panics its parser is a panic of the handler in
    [Server]; among interleaved tasks ([Concurrent], [Service]) it is a task that
    is not advanced after its backend call. *)

From Stdlib Require Export ZArith Lia Bool.
From Stdlib Require Export Strings.Byte Strings.String Strings.Ascii.
From Stdlib Require Export List.
From stdpp Require Export base tactics list gmap strings numbers fin_maps.

#[global] Open Scope Z_scope.
#[global] Open Scope list_scope.

(** ** Hint databases

    [onced] holds the resolution lemmas of the components, [onced_rw] the
    equations that are always used from left to right. *)

Create HintDb onced discriminated.
Create Rewrite HintDb onced_rw.

(** ** Tactics *)

(** Case on every boolean comparison of integers that a goal or a hypothesis
    branches on, keeping the arithmetic fact instead of the boolean. *)
Ltac case_cmp :=
  repeat match goal with
  | H : context [if ?b then _ else _] |- _ =>
      lazymatch b with
      | Z.leb ?x ?y => destruct (Z.leb_spec x y)
      | Z.ltb ?x ?y => destruct (Z.ltb_spec x y)
      | Z.eqb ?x ?y => destruct (Z.eqb_spec x y)
      end
  | |- context [if ?b then _ else _] =>
      lazymatch b with
      | Z.leb ?x ?y => destruct (Z.leb_spec x y)
      | Z.ltb ?x ?y => destruct (Z.ltb_spec x y)
      | Z.eqb ?x ?y => destruct (Z.eqb_spec x y)
      end
  end.

(** Split the matches of the goal or of a hypothesis, with the equations. *)
Ltac split_matches :=
  repeat match goal with
  | H : context [match ?x with _ => _ end] |- _ =>
      lazymatch x with context [match _ with _ => _ end] => fail | _ => destruct x eqn:? end
  | |- context [match ?x with _ => _ end] =>
      lazymatch x with context [match _ with _ => _ end] => fail | _ => destruct x eqn:? end
  end.

(** Decide a decidable side condition by evaluation. *)
Ltac by_eval := apply (bool_decide_unpack _); vm_compute; exact I.

(** The usual end of an arithmetic side goal. *)
Ltac arith := simpl in *; first [ lia | nia ].

(** ** Results *)

(** Rust's [Result]. *)
Inductive result (A E : Type) :=
| Ok (a : A)
| Err (e : E).
Arguments Ok {A E} a.
Arguments Err {A E} e.

#[export] Instance result_eq_dec {A E} `{EqDecision A} `{EqDecision E} : EqDecision (result A E).
Proof. solve_decision. Defined.

(** ** Generic lemmas on lists *)

Section list_lemmas.
Context {A : Type}.
Implicit Types l : list A.

(** Updating an element in place. *)
Lemma alter_insert (f : A -> A) (i : nat) l x : l !! i = Some x -> alter f i l = <[i := f x]> l.
Proof.
  intros Hx. apply list_eq. intros j. destruct (decide (j = i)) as [->|Hne].
  - rewrite list_lookup_alter_eq, Hx, list_lookup_insert_eq by (by eapply lookup_lt_Some). done.
  - by rewrite list_lookup_alter_ne, list_lookup_insert_ne.
Qed.

Lemma take_app_exact l l' : take (length l) (l ++ l') = l.
Proof. by rewrite take_app_length. Qed.

Lemma drop_app_exact l l' : drop (length l) (l ++ l') = l'.
Proof. by rewrite drop_app_length. Qed.

(** A prefix of a concatenation ends in the first part or goes beyond it. *)
Lemma prefix_app_inv (p l1 l2 : list A) :
  p `prefix_of` l1 ++ l2 ->
  (p `prefix_of` l1 /\ p <> l1) \/ (exists p', p = l1 ++ p' /\ p' `prefix_of` l2).
Proof.
  revert p; induction l1 as [|x l1 IH]; intros p Hp; simpl in *.
  - right; eauto.
  - destruct p as [|y p].
    + left; split; [apply prefix_nil | discriminate].
    + pose proof (prefix_cons_inv_1 _ _ _ _ Hp) as ->.
      apply prefix_cons_inv_2 in Hp.
      destruct (IH p Hp) as [[Hpre Hne]|(p' & -> & Hp')].
      * left; split; [by apply prefix_cons | congruence].
      * right; eauto.
Qed.

Lemma prefix_take_exists (p l : list A) : p `prefix_of` l -> p = take (length p) l.
Proof. intros [k ->]. by rewrite take_app_length. Qed.

Lemma app_inj_len (a b c d : list A) :
  length a = length c -> a ++ b = c ++ d -> a = c /\ b = d.
Proof. intros Hl Heq. by apply app_inj_1 in Heq. Qed.

Lemma length_take_all n l : (length l <= n)%nat -> take n l = l.
Proof. intros. by apply take_ge. Qed.

End list_lemmas.

#[export] Hint Rewrite @take_app_exact @drop_app_exact : onced_rw.
