(* ===== verification/Machine.v ===== *)
(** * Machine integers and bytes

    The fixed-width integers of the Rust sources ([u8], [u16], [u32], [u64] and
    the 64-bit [usize]) as [Z] with the wrap-around written out, the operations
    the sources use on them, and the little- and big-endian byte encodings.
    A [u8] that is data in a buffer is a [byte]. *)

From S2P Require Import Prelude.

(** ** Fixed-width integers *)

(** [z] is a value of a [w]-bit unsigned type. *)
Definition in_uint (w z : Z) : Prop := 0 <= z < 2 ^ w.

#[export] Instance in_uint_dec w z : Decision (in_uint w z).
Proof. unfold in_uint; apply _. Defined.

Definition uint_max (w : Z) : Z := 2 ^ w - 1.
(** The low [w] bits: the value modulo [2 ^ w] ([wrap_mod]). *)
Definition wrap (w z : Z) : Z := Z.land z (Z.ones w).
Definition wrapping_add (w a b : Z) : Z := wrap w (a + b).
Definition wrapping_mul (w a b : Z) : Z := wrap w (a * b).
Definition wrapping_neg (w a : Z) : Z := wrap w (- a).
Definition saturating_add (w a b : Z) : Z := Z.min (a + b) (uint_max w).
Definition saturating_sub (a b : Z) : Z := Z.max 0 (a - b).
Definition bit_not (w a : Z) : Z := uint_max w - a.
Definition shl (w a n : Z) : Z := wrap w (Z.shiftl a n).
Definition rotate_right (w a n : Z) : Z := Z.lor (Z.shiftr a n) (shl w a (w - n)).
(** The number of leading zero bits of a [w]-bit value. *)
Definition leading_zeros (w a : Z) : Z := if a =? 0 then w else w - 1 - Z.log2 a.

Lemma wrap_mod w z : 0 <= w -> wrap w z = z mod 2 ^ w.
Proof. apply Z.land_ones. Qed.

Lemma wrap_range w z : 0 <= w -> in_uint w (wrap w z).
Proof. intros. unfold in_uint. rewrite wrap_mod by done. apply Z.mod_pos_bound. lia. Qed.

Lemma wrap_small w z : in_uint w z -> wrap w z = z.
Proof.
  intros Hz. assert (0 <= w) by (destruct (decide (0 <= w)); [done|]; unfold in_uint in Hz; rewrite Z.pow_neg_r in Hz; lia).
  rewrite wrap_mod by done. by apply Z.mod_small.
Qed.

Lemma wrapping_add_small w a b : 0 <= a + b < 2 ^ w -> wrapping_add w a b = a + b.
Proof. intros. by apply wrap_small. Qed.

Lemma saturating_add_range w a b : 0 <= w -> 0 <= a -> 0 <= b -> in_uint w (saturating_add w a b).
Proof. intros. unfold in_uint, saturating_add, uint_max. pose proof (Z.pow_pos_nonneg 2 w). lia. Qed.

Lemma saturating_add_mono_l w a a' b : a <= a' -> saturating_add w a b <= saturating_add w a' b.
Proof. unfold saturating_add. lia. Qed.

Lemma in_uint_mono w w' z : 0 <= w <= w' -> in_uint w z -> in_uint w' z.
Proof. unfold in_uint. intros ? [? ?]. pose proof (Z.pow_le_mono_r 2 w w'). lia. Qed.

Lemma leading_zeros_range w a : 0 < w -> in_uint w a -> 0 <= leading_zeros w a <= w.
Proof.
  unfold in_uint, leading_zeros. intros Hw Ha. case_cmp; [lia|].
  pose proof (Z.log2_nonneg a). assert (Z.log2 a < w) by (apply Z.log2_lt_pow2; lia). lia.
Qed.

(** A value with at least [n] leading zeros is below [2 ^ (w - n)]. *)
Lemma leading_zeros_ge w a n :
  in_uint w a -> 0 <= n <= w -> (n <= leading_zeros w a <-> a < 2 ^ (w - n)).
Proof.
  unfold in_uint, leading_zeros. intros Ha Hn. case_cmp.
  - subst. pose proof (Z.pow_pos_nonneg 2 (w - n)). lia.
  - destruct (decide (w - n = 0)) as [E|E].
    { rewrite E. pose proof (Z.log2_nonneg a). change (2 ^ 0) with 1. lia. }
    rewrite (Z.log2_lt_pow2 a (w - n)) by lia. lia.
Qed.

Lemma land_in_uint w a b : 0 <= w -> in_uint w a -> 0 <= b -> in_uint w (Z.land a b).
Proof.
  unfold in_uint. intros Hw [Ha Ha'] Hb. split; [apply Z.land_nonneg; lia|].
  destruct (decide (Z.land a b = 0)) as [->|Hne]; [lia|].
  assert (0 <= Z.land a b) by (apply Z.land_nonneg; lia).
  destruct (decide (a = 0)) as [->|]; [by rewrite Z.land_0_l in Hne|].
  apply Z.log2_lt_pow2; [lia|].
  eapply Z.le_lt_trans; [apply Z.log2_land; lia|].
  assert (Z.log2 a < w) by (apply Z.log2_lt_pow2; lia). lia.
Qed.

Lemma lxor_in_uint w a b : 0 <= w -> in_uint w a -> in_uint w b -> in_uint w (Z.lxor a b).
Proof.
  unfold in_uint. intros Hw [Ha Ha'] [Hb Hb'].
  assert (0 <= Z.lxor a b) by (apply Z.lxor_nonneg; lia). split; [lia|].
  destruct (decide (Z.lxor a b = 0)) as [->|Hne]; [lia|].
  apply Z.log2_lt_pow2; [lia|].
  eapply Z.le_lt_trans; [apply Z.log2_lxor; lia|].
  destruct (decide (w = 0)) as [->|].
  { change (2 ^ 0) with 1 in *. assert (a = 0) as -> by lia. assert (b = 0) as -> by lia.
    by rewrite Z.lxor_0_l in Hne. }
  apply Z.max_lub_lt;
    [destruct (decide (a = 0)) as [->|] | destruct (decide (b = 0)) as [->|]];
    simpl; try lia; apply Z.log2_lt_pow2; lia.
Qed.

Lemma lor_in_uint w a b : 0 <= w -> in_uint w a -> in_uint w b -> in_uint w (Z.lor a b).
Proof.
  unfold in_uint. intros Hw [Ha Ha'] [Hb Hb'].
  assert (0 <= Z.lor a b) by (apply Z.lor_nonneg; lia). split; [lia|].
  destruct (decide (Z.lor a b = 0)) as [->|Hne]; [lia|].
  apply Z.log2_lt_pow2; [lia|]. rewrite Z.log2_lor by lia.
  destruct (decide (w = 0)) as [->|].
  { change (2 ^ 0) with 1 in *. assert (a = 0) as -> by lia. assert (b = 0) as -> by lia.
    by rewrite Z.lor_0_l in Hne. }
  apply Z.max_lub_lt;
    [destruct (decide (a = 0)) as [->|] | destruct (decide (b = 0)) as [->|]];
    simpl; try lia; apply Z.log2_lt_pow2; lia.
Qed.

Lemma shiftr_in_uint w a n : 0 <= n -> in_uint w a -> in_uint w (Z.shiftr a n).
Proof.
  unfold in_uint. intros Hn [Ha Ha']. rewrite Z.shiftr_div_pow2 by lia.
  pose proof (Z.pow_pos_nonneg 2 n). split; [apply Z.div_pos; lia|].
  apply Z.div_lt_upper_bound; nia.
Qed.

Lemma rotate_right_in_uint w a n :
  0 <= w -> 0 <= n -> in_uint w a -> in_uint w (rotate_right w a n).
Proof.
  intros. unfold rotate_right, shl.
  apply lor_in_uint; [lia | by apply shiftr_in_uint | by apply wrap_range].
Qed.

Lemma bit_not_in_uint w a : in_uint w a -> in_uint w (bit_not w a).
Proof. unfold in_uint, bit_not, uint_max. lia. Qed.

#[export] Hint Resolve wrap_range land_in_uint lxor_in_uint lor_in_uint shiftr_in_uint
  rotate_right_in_uint bit_not_in_uint saturating_add_range : onced.

(** ** Bytes *)

#[export] Instance byte_eq_decision : EqDecision byte := Byte.byte_eq_dec.

#[export] Instance byte_inhabited : Inhabited byte := populate x00.

Definition u8_to_Z (b : byte) : Z := Z.of_N (Byte.to_N b).

Definition u8_of_Z (z : Z) : byte :=
  match Byte.of_N (Z.to_N (wrap 8 z)) with Some b => b | None => x00 end.

Lemma u8_to_Z_range b : in_uint 8 (u8_to_Z b).
Proof.
  unfold in_uint, u8_to_Z. pose proof (Byte.to_N_bounded b). change (2 ^ 8) with 256. lia.
Qed.

Lemma u8_to_Z_of_Z z : u8_to_Z (u8_of_Z z) = wrap 8 z.
Proof.
  pose proof (wrap_range 8 z ltac:(lia)) as Hr. unfold in_uint in Hr. change (2 ^ 8) with 256 in Hr.
  unfold u8_to_Z, u8_of_Z. destruct (Byte.of_N _) as [b|] eqn:E.
  - apply Byte.to_of_N in E. lia.
  - apply Byte.of_N_None_iff in E. lia.
Qed.

Lemma u8_of_Z_to_Z b : u8_of_Z (u8_to_Z b) = b.
Proof.
  unfold u8_of_Z. rewrite wrap_small by apply u8_to_Z_range.
  unfold u8_to_Z. by rewrite N2Z.id, Byte.of_to_N.
Qed.

#[export] Instance u8_to_Z_inj : Inj (=) (=) u8_to_Z.
Proof. intros a b E. by rewrite <- (u8_of_Z_to_Z a), <- (u8_of_Z_to_Z b), E. Qed.

#[export] Instance byte_countable : Countable byte :=
  inj_countable Byte.to_N Byte.of_N Byte.of_to_N.

(** ** Finite checks by evaluation *)

Definition below_list (n : nat) : list Z := map Z.of_nat (seq 0 n).

Lemma below_check (P : Z -> bool) n :
  forallb P (below_list n) = true -> forall z, 0 <= z < Z.of_nat n -> P z = true.
Proof.
  rewrite forallb_forall. intros H z Hz. apply H. apply List.in_map_iff. exists (Z.to_nat z).
  split; [lia|]. apply List.in_seq. lia.
Qed.

Lemma byte_check (P : byte -> bool) :
  forallb (fun z => P (u8_of_Z z)) (below_list 256) = true -> forall b, P b = true.
Proof.
  intros H b. rewrite <- (u8_of_Z_to_Z b).
  apply (below_check (fun z => P (u8_of_Z z)) 256 H). apply u8_to_Z_range.
Qed.

(** ** Byte encodings of integers: [to_le_bytes], [from_le_bytes], [to_be_bytes] *)

Fixpoint to_le_bytes (n : nat) (z : Z) : list byte :=
  match n with
  | O => []
  | S n => u8_of_Z z :: to_le_bytes n (z / 256)
  end.

Fixpoint from_le_bytes (l : list byte) : Z :=
  match l with
  | [] => 0
  | b :: l => u8_to_Z b + 256 * from_le_bytes l
  end.

Definition to_be_bytes (n : nat) (z : Z) : list byte := reverse (to_le_bytes n z).
Definition from_be_bytes (l : list byte) : Z := from_le_bytes (reverse l).

Lemma length_to_le_bytes n z : length (to_le_bytes n z) = n.
Proof. revert z; induction n; simpl; auto. Qed.

Lemma length_to_be_bytes n z : length (to_be_bytes n z) = n.
Proof. unfold to_be_bytes. by rewrite length_reverse, length_to_le_bytes. Qed.

Lemma from_to_le_bytes n z :
  in_uint (8 * Z.of_nat n) z -> from_le_bytes (to_le_bytes n z) = z.
Proof.
  revert z; induction n as [|n IH]; intros z Hz; unfold in_uint in *; simpl.
  - change (2 ^ (8 * Z.of_nat 0)) with 1 in Hz. lia.
  - rewrite u8_to_Z_of_Z. rewrite wrap_mod by done. change (2 ^ 8) with 256.
    rewrite IH; [pose proof (Z.div_mod z 256); lia|].
    replace (8 * Z.of_nat (S n)) with (8 + 8 * Z.of_nat n) in Hz by lia.
    rewrite Z.pow_add_r in Hz by lia. change (2 ^ 8) with 256 in Hz.
    split; [apply Z.div_pos; lia | apply Z.div_lt_upper_bound; lia].
Qed.

Lemma from_le_bytes_range l : in_uint (8 * Z.of_nat (length l)) (from_le_bytes l).
Proof.
  unfold in_uint. induction l as [|b l IH]; [simpl; lia|].
  rewrite length_cons. replace (8 * Z.of_nat (S (length l))) with (8 + 8 * Z.of_nat (length l)) by lia.
  rewrite Z.pow_add_r by lia. cbn [from_le_bytes]. change (2 ^ 8) with 256.
  pose proof (u8_to_Z_range b) as Hb. unfold in_uint in Hb. change (2 ^ 8) with 256 in Hb. lia.
Qed.

Lemma to_from_le_bytes l : to_le_bytes (length l) (from_le_bytes l) = l.
Proof.
  induction l as [|b l IH]; [done|]. simpl.
  pose proof (u8_to_Z_range b) as Hb. unfold in_uint in Hb. change (2 ^ 8) with 256 in Hb.
  f_equal.
  - rewrite <- (u8_of_Z_to_Z b) at 2. apply (inj u8_to_Z). rewrite !u8_to_Z_of_Z.
    rewrite !wrap_mod by done. change (2 ^ 8) with 256.
    rewrite (Z.mul_comm 256), Z_mod_plus_full. done.
  - rewrite (Z.mul_comm 256), Z_div_plus_full by lia.
    rewrite (Z.div_small (u8_to_Z b)) by lia. exact IH.
Qed.

Lemma from_le_bytes_inj l l' :
  length l = length l' -> from_le_bytes l = from_le_bytes l' -> l = l'.
Proof. intros Hl E. by rewrite <- (to_from_le_bytes l), <- (to_from_le_bytes l'), Hl, E. Qed.

Lemma to_le_bytes_inj n a b :
  in_uint (8 * Z.of_nat n) a -> in_uint (8 * Z.of_nat n) b ->
  to_le_bytes n a = to_le_bytes n b -> a = b.
Proof. intros Ha Hb E. by rewrite <- (from_to_le_bytes n a), <- (from_to_le_bytes n b), E. Qed.

Lemma from_to_be_bytes n z :
  in_uint (8 * Z.of_nat n) z -> from_be_bytes (to_be_bytes n z) = z.
Proof. unfold from_be_bytes, to_be_bytes. rewrite reverse_involutive. apply from_to_le_bytes. Qed.

Lemma from_be_bytes_range l : in_uint (8 * Z.of_nat (length l)) (from_be_bytes l).
Proof. unfold from_be_bytes. rewrite <- length_reverse. apply from_le_bytes_range. Qed.

Lemma to_be_bytes_inj n a b :
  in_uint (8 * Z.of_nat n) a -> in_uint (8 * Z.of_nat n) b ->
  to_be_bytes n a = to_be_bytes n b -> a = b.
Proof.
  intros Ha Hb E. by rewrite <- (from_to_be_bytes n a), <- (from_to_be_bytes n b), E.
Qed.

#[export] Hint Resolve u8_to_Z_range from_le_bytes_range : onced.
#[export] Hint Rewrite length_to_le_bytes length_to_be_bytes u8_to_Z_of_Z u8_of_Z_to_Z : onced_rw.
