(* ===== verification/Str.v ===== *)
(** * Rust strings

    A Rust [String] or [str] is its sequence of bytes, here the Rocq [string]
    whose characters are those bytes, together with the invariant that the
    bytes are well-formed UTF-8 ([is_str]).  [utf8_valid] is the table of
    well-formed byte sequences that [String::from_utf8] checks (no overlong
    forms, no surrogates, nothing above U+10FFFF). *)

From S2P Require Import Prelude Machine.

Definition str_bytes (s : string) : list byte := list_byte_of_string s.
Definition str_of_bytes (l : list byte) : string := string_of_list_byte l.

(** [b] lies between [lo] and [hi]. *)
Definition byte_in (lo hi : Z) (b : byte) : bool := (lo <=? u8_to_Z b) && (u8_to_Z b <=? hi).

Definition utf8_cont (b : byte) : bool := byte_in 128 191 b.

(** The second byte that a three-byte sequence led by [b0] allows. *)
Definition utf8_second3 (b0 b1 : byte) : bool :=
  if byte_in 224 224 b0 then byte_in 160 191 b1
  else if byte_in 237 237 b0 then byte_in 128 159 b1
  else byte_in 225 239 b0 && utf8_cont b1.

(** The second byte that a four-byte sequence led by [b0] allows. *)
Definition utf8_second4 (b0 b1 : byte) : bool :=
  if byte_in 240 240 b0 then byte_in 144 191 b1
  else if byte_in 244 244 b0 then byte_in 128 143 b1
  else byte_in 241 243 b0 && utf8_cont b1.

Fixpoint utf8_valid (l : list byte) : bool :=
  match l with
  | [] => true
  | b0 :: l1 =>
      if byte_in 0 127 b0 then utf8_valid l1
      else match l1 with
      | [] => false
      | b1 :: l2 =>
          if byte_in 194 223 b0 then utf8_cont b1 && utf8_valid l2
          else match l2 with
          | [] => false
          | b2 :: l3 =>
              if byte_in 224 239 b0 then utf8_second3 b0 b1 && utf8_cont b2 && utf8_valid l3
              else match l3 with
              | [] => false
              | b3 :: l4 =>
                  utf8_second4 b0 b1 && utf8_cont b2 && utf8_cont b3 && utf8_valid l4
              end
          end
      end
  end.

(** [String::from_utf8]. *)
Definition from_utf8 (l : list byte) : option string :=
  if utf8_valid l then Some (str_of_bytes l) else None.

(** The invariant every Rust string carries. *)
Definition is_str (s : string) : Prop := utf8_valid (str_bytes s) = true.

#[export] Instance is_str_dec s : Decision (is_str s).
Proof. unfold is_str; apply _. Defined.

Lemma str_of_bytes_of_str s : str_of_bytes (str_bytes s) = s.
Proof. apply string_of_list_byte_of_string. Qed.

Lemma str_bytes_of_bytes l : str_bytes (str_of_bytes l) = l.
Proof. apply list_byte_of_string_of_list_byte. Qed.

#[export] Instance str_bytes_inj : Inj (=) (=) str_bytes.
Proof. intros a b E. by rewrite <- (str_of_bytes_of_str a), <- (str_of_bytes_of_str b), E. Qed.

Lemma from_utf8_str_bytes s : is_str s -> from_utf8 (str_bytes s) = Some s.
Proof. unfold is_str, from_utf8. intros ->. by rewrite str_of_bytes_of_str. Qed.

Lemma from_utf8_Some l s : from_utf8 l = Some s -> is_str s /\ str_bytes s = l.
Proof.
  unfold from_utf8, is_str. intros H. destruct (utf8_valid l) eqn:E; simplify_eq.
  by rewrite str_bytes_of_bytes.
Qed.

Lemma str_bytes_cons a s : str_bytes (String a s) = byte_of_ascii a :: str_bytes s.
Proof. done. Qed.

Lemma str_bytes_app s t : str_bytes (s +:+ t) = str_bytes s ++ str_bytes t.
Proof. induction s as [|a s IH]; [done|]. change (String a s +:+ t) with (String a (s +:+ t)).
  by rewrite !str_bytes_cons, IH. Qed.

(** Text in the ASCII range is well-formed. *)
Lemma utf8_valid_ascii l : Forall (fun b => byte_in 0 127 b = true) l -> utf8_valid l = true.
Proof. induction 1 as [|b l Hb _ IH]; [done|]. cbn [utf8_valid]. by rewrite Hb. Qed.

#[export] Hint Resolve from_utf8_str_bytes : onced.
#[export] Hint Rewrite str_of_bytes_of_str str_bytes_of_bytes : onced_rw.
