(* ===== verification/Decimal.v ===== *)
(** * Decimal integers in text

    [str::parse] and [Display] of the unsigned integers of the Rust library, on
    the bytes of strings, and their round trip. *)

From S2P Require Import Prelude Machine Str.

Definition digit (b : byte) : option Z :=
  if byte_in 48 57 b then Some (u8_to_Z b - 48) else None.

Fixpoint parse_digits (l : list byte) (acc : Z) (max : Z) : option Z :=
  match l with
  | [] => Some acc
  | b :: l => d ← digit b;
              if acc * 10 + d <=? max then parse_digits l (acc * 10 + d) max else None
  end.

(** [str::parse] to an unsigned type with the given greatest value: an optional
    plus sign, then at least one digit, without overflow. *)
Definition parse_uint (max : Z) (s : list byte) : option Z :=
  match s with
  | [] => None
  | b :: l => if bool_decide (b = x2b) then
                match l with [] => None | _ => parse_digits l 0 max end
              else parse_digits s 0 max
  end.

Definition parse_usize (s : string) : option Z := parse_uint (uint_max 64) (str_bytes s).
Definition parse_u16 (s : list byte) : option Z := parse_uint (uint_max 16) s.

(** [Display] of an unsigned integer. *)
Fixpoint dec_digits (fuel : nat) (z : Z) (acc : list byte) : list byte :=
  match fuel with
  | O => acc
  | S fuel => let acc := u8_of_Z (48 + z mod 10) :: acc in
              if z / 10 =? 0 then acc else dec_digits fuel (z / 10) acc
  end.

(** Twenty digits are enough for 64 bits. *)
Definition display_uint (z : Z) : list byte := dec_digits 20 z [].

(** ** The round trip *)

Definition is_digit (b : byte) : bool := byte_in 48 57 b.

Lemma digit_of_Z d : 0 <= d < 10 -> digit (u8_of_Z (48 + d)) = Some d.
Proof.
  intros Hd. unfold digit, byte_in. rewrite u8_to_Z_of_Z, wrap_small by (split; [lia | simpl; lia]).
  replace ((48 <=? 48 + d) && (48 + d <=? 57)) with true by (symmetry; apply andb_true_iff; lia).
  f_equal. lia.
Qed.

Lemma parse_dec_digits fuel z acc max :
  0 <= z <= max -> z < 10 ^ Z.of_nat fuel ->
  parse_digits (dec_digits fuel z acc) 0 max = parse_digits acc z max.
Proof.
  revert z acc; induction fuel as [|fuel IH]; intros z acc Hz Hf.
  { simpl in Hf. by replace z with 0 by lia. }
  cbn [dec_digits]. pose proof (Z.mod_pos_bound z 10 ltac:(lia)) as Hm.
  pose proof (Z_div_mod_eq_full z 10) as Hdm.
  assert (forall a, a * 10 + z mod 10 = z ->
    parse_digits (u8_of_Z (48 + z mod 10) :: acc) a max = parse_digits acc z max) as Hstep.
  { intros a Ha. cbn [parse_digits]. rewrite digit_of_Z by done. cbn [mbind option_bind]. rewrite Ha.
    by replace (z <=? max) with true by lia. }
  destruct (Z.eqb_spec (z / 10) 0) as [E|E]; [apply Hstep; lia|].
  rewrite IH; [apply Hstep; lia | nia | ].
  rewrite Nat2Z.inj_succ, Z.pow_succ_r in Hf by lia. apply Z.div_lt_upper_bound; lia.
Qed.

Lemma dec_digits_digits fuel z acc :
  0 <= z -> Forall (fun b => is_digit b = true) acc -> Forall (fun b => is_digit b = true) (dec_digits fuel z acc).
Proof.
  revert z acc; induction fuel as [|fuel IH]; intros z acc Hz Hacc; [done|]. cbn [dec_digits].
  pose proof (Z.mod_pos_bound z 10 ltac:(lia)) as Hm.
  assert (Forall (fun b => is_digit b = true) (u8_of_Z (48 + z mod 10) :: acc)) as Hacc'.
  { constructor; [|done]. pose proof (digit_of_Z (z mod 10) Hm) as Hd. unfold digit in Hd.
    unfold is_digit. by destruct (byte_in 48 57 _). }
  destruct (z / 10 =? 0); [done|]. apply IH; [apply Z.div_pos; lia | done].
Qed.

Lemma dec_digits_nonempty fuel z acc : acc <> [] -> dec_digits fuel z acc <> [].
Proof.
  revert z acc; induction fuel as [|fuel IH]; intros z acc Hacc; [done|]. cbn [dec_digits].
  destruct (z / 10 =? 0); [done | by apply IH].
Qed.

Lemma display_uint_digits z : 0 <= z -> Forall (fun b => is_digit b = true) (display_uint z).
Proof. intros Hz. by apply dec_digits_digits. Qed.

Lemma dec_digits_S_nonempty fuel z : dec_digits (S fuel) z [] <> [].
Proof. cbn [dec_digits]. destruct (z / 10 =? 0); [done | by apply dec_digits_nonempty]. Qed.

Lemma display_uint_nonempty z : display_uint z <> [].
Proof. apply dec_digits_S_nonempty. Qed.

(** Printing then parsing an unsigned integer of at most 64 bits. *)
Lemma parse_display_uint max z :
  0 <= z <= max -> max < 10 ^ 20 -> parse_uint max (display_uint z) = Some z.
Proof.
  intros Hz Hmax. pose proof (display_uint_digits z ltac:(lia)) as Hd.
  pose proof (parse_dec_digits 20 z [] max Hz ltac:(simpl; lia)) as Hp. fold (display_uint z) in Hp.
  pose proof (display_uint_nonempty z). unfold parse_uint. destruct (display_uint z) as [|b l]; [done|].
  apply Forall_cons in Hd as [Hb _]. rewrite bool_decide_false; [by rewrite Hp|]. by intros ->.
Qed.

Lemma display_uint_inj a b : in_uint 64 a -> in_uint 64 b -> display_uint a = display_uint b -> a = b.
Proof.
  intros Ha Hb E. unfold in_uint in *.
  pose proof (parse_display_uint (uint_max 64) a ltac:(unfold uint_max; lia) eq_refl) as Ea.
  pose proof (parse_display_uint (uint_max 64) b ltac:(unfold uint_max; lia) eq_refl) as Eb.
  rewrite E in Ea. congruence.
Qed.

Lemma parse_digits_nonneg l acc max n : 0 <= acc -> parse_digits l acc max = Some n -> 0 <= n.
Proof.
  revert acc; induction l as [|b l IH]; intros acc Ha; cbn [parse_digits]; [by intros; simplify_eq|].
  intros (d & Hd & E)%bind_Some. revert E. case_cmp; [|done]. apply IH.
  unfold digit, byte_in in Hd. case_match; simplify_eq. lia.
Qed.

Lemma parse_uint_nonneg max s n : parse_uint max s = Some n -> 0 <= n.
Proof.
  unfold parse_uint. destruct s as [|b l]; [done|]. case_bool_decide; [destruct l; [done|]|]; by apply parse_digits_nonneg.
Qed.
