(* ===== verification/BTreeMap.v ===== *)
(** * [std::collections::BTreeMap] with string keys

    An ordered map as the list of its entries in strictly increasing key order,
    which is the order in which the sources iterate over it.  Keys are compared
    byte by byte, as Rust compares [str].  Two maps are equal exactly when
    their lists are. *)

From S2P Require Import Prelude.
From Stdlib Require Import Structures.OrdersEx.

Definition str_ltb (a b : string) : bool :=
  match String.compare a b with Lt => true | _ => false end.

Definition str_lt (a b : string) : Prop := str_ltb a b = true.

Section btree.
Context {V : Type}.
Implicit Types m : list (string * V).

Fixpoint bt_insert (k : string) (v : V) m : list (string * V) :=
  match m with
  | [] => [(k, v)]
  | (k', v') :: m' =>
      match String.compare k k' with
      | Lt => (k, v) :: m
      | Eq => (k, v) :: m'
      | Gt => (k', v') :: bt_insert k v m'
      end
  end.

Fixpoint bt_get (k : string) m : option V :=
  match m with
  | [] => None
  | (k', v') :: m' => if String.eqb k k' then Some v' else bt_get k m'
  end.

(** [iter().collect::<BTreeMap<_, _>>()]: insert the entries one by one, so a
    later duplicate of a key wins. *)
Definition bt_from_list (l : list (string * V)) : list (string * V) :=
  fold_left (fun m kv => bt_insert kv.1 kv.2 m) l [].

(** The representation invariant: strictly increasing keys. *)
Fixpoint bt_sorted m : bool :=
  match m with
  | [] => true
  | (k, _) :: m' =>
      match m' with
      | [] => true
      | (k', _) :: _ => str_ltb k k' && bt_sorted m'
      end
  end.

(** [k] is below every key of [m]. *)
Definition bt_lb (k : string) m : Prop := Forall (fun kv => str_lt k kv.1) m.

End btree.

Lemma str_compare_refl a : String.compare a a = Eq.
Proof.
  pose proof (String.compare_antisym a a) as H. by destruct (String.compare a a).
Qed.

Lemma str_lt_trans a b c : str_lt a b -> str_lt b c -> str_lt a c.
Proof.
  unfold str_lt, str_ltb. intros Hab Hbc.
  pose proof (String_as_OT.compare_spec a b) as Sab.
  pose proof (String_as_OT.compare_spec b c) as Sbc.
  pose proof (String_as_OT.compare_spec a c) as Sac.
  change String_as_OT.compare with String.compare in *.
  destruct (String.compare a b); try discriminate.
  destruct (String.compare b c); try discriminate.
  inversion Sab; inversion Sbc; subst.
  assert (String_as_OT.lt a c) as Hac by (etransitivity; eassumption).
  destruct (String.compare a c) eqn:E; [|done|].
  - apply String.compare_eq_iff in E; subst. destruct (irreflexivity String_as_OT.lt _ Hac).
  - inversion Sac; subst. exfalso.
    assert (String_as_OT.lt a a) as Haa by (etransitivity; eassumption).
    destruct (irreflexivity String_as_OT.lt _ Haa).
Qed.

Lemma str_lt_irrefl a : ~ str_lt a a.
Proof. unfold str_lt, str_ltb. by rewrite str_compare_refl. Qed.

Lemma str_compare_gt a b : String.compare a b = Gt -> str_lt b a.
Proof. unfold str_lt, str_ltb. intros H. rewrite String.compare_antisym, H. done. Qed.

Section btree_lemmas.
Context {V : Type}.
Implicit Types m : list (string * V).

Lemma bt_sorted_cons k v m : bt_sorted ((k, v) :: m) = true <-> bt_lb k m /\ bt_sorted m = true.
Proof.
  unfold bt_lb. revert k v; induction m as [|[k' v'] m IH]; intros k v.
  - split; [intros _; split; [constructor | done] | done].
  - change (bt_sorted ((k, v) :: (k', v') :: m)) with (str_ltb k k' && bt_sorted ((k', v') :: m)).
    rewrite andb_true_iff. split.
    + intros [Hlt Hs]. split; [|done]. constructor; [done|].
      apply IH in Hs as [Hlb _]. eapply Forall_impl; [exact Hlb|].
      intros [k2 v2] ?; simpl in *. by eapply str_lt_trans.
    + intros [Hlb Hs]. split; [|done]. by inversion Hlb.
Qed.

Lemma bt_insert_lb k k' v m : str_lt k k' -> bt_lb k m -> bt_lb k (bt_insert k' v m).
Proof.
  unfold bt_lb. induction m as [|[k2 v2] m IH]; intros Hlt Hlb; simpl.
  - by constructor.
  - inversion Hlb; subst. destruct (String.compare k' k2); constructor; auto.
Qed.

Lemma bt_insert_sorted k v m : bt_sorted m = true -> bt_sorted (bt_insert k v m) = true.
Proof.
  induction m as [|[k' v'] m IH]; intros Hs; [done|]. cbn [bt_insert].
  pose proof Hs as Hs'. apply bt_sorted_cons in Hs' as [Hlb Hs'].
  destruct (String.compare k k') eqn:E.
  - apply String.compare_eq_iff in E; subst. apply bt_sorted_cons; done.
  - apply bt_sorted_cons; split; [|done].
    assert (str_lt k k') by (unfold str_lt, str_ltb; by rewrite E).
    constructor; [done|]. eapply Forall_impl; [exact Hlb|]. intros [k2 v2] ?; by eapply str_lt_trans.
  - apply bt_sorted_cons; split; [|by apply IH].
    apply bt_insert_lb; [by apply str_compare_gt | done].
Qed.

Lemma bt_get_insert k k' v m :
  bt_sorted m = true ->
  bt_get k (bt_insert k' v m) = if String.eqb k k' then Some v else bt_get k m.
Proof.
  induction m as [|[k2 v2] m IH]; intros Hs; [done|]. cbn [bt_insert].
  apply bt_sorted_cons in Hs as [Hlb Hs].
  destruct (String.compare k' k2) eqn:E; cbn [bt_get]; [| done |].
  - apply String.compare_eq_iff in E; subst. by destruct (String.eqb k k2).
  - rewrite IH by done. destruct (String.eqb_spec k k2), (String.eqb_spec k k'); subst; try done.
    by rewrite str_compare_refl in E.
Qed.

Lemma bt_from_list_sorted (l : list (string * V)) : bt_sorted (bt_from_list l) = true.
Proof.
  unfold bt_from_list. assert (H : bt_sorted (@nil (string * V)) = true) by done. revert H.
  generalize (@nil (string * V)). induction l as [|[k v] l IH]; intros m Hm; simpl; [done|].
  apply IH, bt_insert_sorted, Hm.
Qed.

(** Appending an entry whose key is above all others. *)
Lemma bt_insert_snoc k v m :
  Forall (fun kv => str_lt kv.1 k) m -> bt_insert k v m = m ++ [(k, v)].
Proof.
  induction 1 as [|[k' v'] m Hlt _ IH]; [done|]. cbn [bt_insert]. simpl in Hlt.
  unfold str_lt, str_ltb in Hlt. rewrite String.compare_antisym.
  destruct (String.compare k' k); try discriminate. simpl. by rewrite IH.
Qed.

Lemma bt_fold_insert_app m1 m2 :
  bt_sorted (m1 ++ m2) = true ->
  fold_left (fun m kv => bt_insert kv.1 kv.2 m) m2 m1 = m1 ++ m2.
Proof.
  revert m1; induction m2 as [|[k v] m2 IH]; intros m1 Hs; simpl.
  - by rewrite app_nil_r.
  - rewrite bt_insert_snoc.
    + rewrite IH; by rewrite <- app_assoc.
    + clear IH. induction m1 as [|[k1 v1] m1 IH1]; [constructor|].
      rewrite <- app_comm_cons in Hs. apply bt_sorted_cons in Hs as [Hlb Hs].
      constructor; [|by apply IH1]. unfold bt_lb in Hlb. rewrite Forall_app in Hlb.
      destruct Hlb as [_ Hlb]. by inversion Hlb.
Qed.

(** Rebuilding a map from its own entries gives it back. *)
Lemma bt_from_list_id m : bt_sorted m = true -> bt_from_list m = m.
Proof. intros Hs. unfold bt_from_list. by rewrite bt_fold_insert_app. Qed.

Lemma bt_insert_perm k v m : k ∉ m.*1 -> bt_insert k v m ≡ₚ (k, v) :: m.
Proof.
  induction m as [|[k' v'] m IH]; intros Hk; [done|]. cbn [bt_insert]. rewrite fmap_cons, not_elem_of_cons in Hk.
  destruct Hk as [Hne Hk]. destruct (String.compare k k') eqn:E; [|done|].
  - apply String.compare_eq_iff in E. done.
  - rewrite IH by done. apply Permutation_swap.
Qed.

(** Collecting entries with distinct keys only orders them. *)
Lemma bt_from_list_perm (l : list (string * V)) : NoDup l.*1 -> bt_from_list l ≡ₚ l.
Proof.
  unfold bt_from_list. induction l as [|[k v] l IH] using rev_ind; intros Hnd; [done|].
  rewrite fmap_app in Hnd. apply NoDup_app in Hnd as (Hl & Hd & _).
  rewrite fold_left_app. cbn [fold_left fst snd]. rewrite bt_insert_perm.
  - rewrite IH by done. apply Permutation_cons_append.
  - intros Hin. rewrite (IH Hl) in Hin. apply (Hd k Hin). simpl. apply list_elem_of_singleton. done.
Qed.

End btree_lemmas.

#[export] Hint Resolve bt_insert_sorted bt_from_list_sorted : onced.
