(* ===== verification/HashMap.v ===== *)
(** * [std::collections::HashMap]

    A hash map is a [gmap].  Its iteration order is unspecified, so whatever
    depends on it ([iter], [keys().next()]) goes through the class [HashOrder]:
    some enumeration of the entries, each exactly once.  [default_order] shows
    that the class is inhabited. *)

From S2P Require Import Prelude.

Class HashOrder (K : Type) `{Countable K} := {
  hm_iter : forall {V : Type}, gmap K V -> list (K * V);
  hm_iter_perm : forall {V : Type} (m : gmap K V), hm_iter m ≡ₚ map_to_list m;
}.

Definition default_order (K : Type) `{Countable K} : HashOrder K :=
  {| hm_iter V m := map_to_list m; hm_iter_perm V m := Permutation_refl _ |}.

Section hash_map.
Context `{Countable K} `{!HashOrder K}.
Context {V : Type}.
Implicit Types m : gmap K V.

(** [keys().next()]: the first key in iteration order, if any. *)
Definition hm_first_key m : option K :=
  match hm_iter m with
  | [] => None
  | (k, _) :: _ => Some k
  end.

Lemma hm_iter_nodup m : NoDup (hm_iter m).*1.
Proof. rewrite hm_iter_perm. apply NoDup_fst_map_to_list. Qed.

Lemma hm_iter_list_to_map m : list_to_map (hm_iter m) = m.
Proof.
  rewrite <- (list_to_map_to_list m) at 2. apply list_to_map_proper.
  - apply hm_iter_nodup.
  - apply hm_iter_perm.
Qed.

Lemma elem_of_hm_iter m k v : (k, v) ∈ hm_iter m <-> m !! k = Some v.
Proof. rewrite hm_iter_perm. apply elem_of_map_to_list. Qed.

Lemma length_hm_iter m : length (hm_iter m) = size m.
Proof. rewrite hm_iter_perm. by rewrite length_map_to_list. Qed.

Lemma hm_first_key_Some m k : hm_first_key m = Some k -> is_Some (m !! k).
Proof.
  unfold hm_first_key. destruct (hm_iter m) as [|[k' v] l] eqn:E; intros Hk; simplify_eq.
  exists v. apply elem_of_hm_iter. rewrite E. left.
Qed.

Lemma hm_first_key_None m : hm_first_key m = None -> m = ∅.
Proof.
  unfold hm_first_key. destruct (hm_iter m) as [|[k' v] l] eqn:E; intros Hk; simplify_eq.
  rewrite <- (hm_iter_list_to_map m), E. done.
Qed.

(** Make room before a key is inserted into a map that may hold [cap] entries:
    if the map is full and does not hold the key, drop the first entry. *)
Definition hm_make_room (cap : Z) m (k : K) : gmap K V :=
  if (cap <=? Z.of_nat (size m)) && bool_decide (m !! k = None) then
    match hm_first_key m with
    | Some victim => delete victim m
    | None => m
    end
  else m.

Lemma hm_make_room_size cap m k v :
  0 < cap -> Z.of_nat (size m) <= cap -> Z.of_nat (size (<[k := v]> (hm_make_room cap m k))) <= cap.
Proof.
  intros Hcap Hm. unfold hm_make_room.
  destruct (Z.leb_spec cap (Z.of_nat (size m))) as [Hc|Hc]; simpl.
  - case_bool_decide as Hk; simpl.
    + destruct (hm_first_key m) as [victim|] eqn:Hv.
      * pose proof (hm_first_key_Some _ _ Hv) as [x Hin].
        rewrite map_size_insert_None by (rewrite lookup_delete_None; by right).
        rewrite map_size_delete, Hin. lia.
      * apply hm_first_key_None in Hv. rewrite Hv, map_size_empty in Hc. lia.
    + rewrite map_size_insert_Some by (destruct (m !! k); [eauto | done]). lia.
  - destruct (m !! k) as [x|] eqn:E.
    + rewrite map_size_insert_Some by (by rewrite E). lia.
    + rewrite map_size_insert_None by done. lia.
Qed.

Lemma hm_make_room_subseteq cap m k : hm_make_room cap m k ⊆ m.
Proof.
  unfold hm_make_room. destruct (_ && _); [|done]. destruct (hm_first_key m); [|done]. apply delete_subseteq.
Qed.

(** Inserting the entries of an enumeration in order rebuilds the map. *)
Lemma fold_insert_list (l : list (K * V)) m :
  fold_left (fun (acc : gmap K V) kv => <[kv.1 := kv.2]> acc) l m
  = list_to_map (reverse l) ∪ m.
Proof.
  revert m; induction l as [|[k v] l IH]; intros m; cbn [fold_left].
  - symmetry. apply (left_id_L ∅ (∪)).
  - rewrite IH, reverse_cons, list_to_map_app. simpl.
    rewrite <- map_union_assoc. by rewrite <- insert_union_l, map_empty_union.
Qed.

Lemma fold_insert_hm_iter m :
  fold_left (fun (acc : gmap K V) kv => <[kv.1 := kv.2]> acc) (hm_iter m) ∅ = m.
Proof.
  rewrite fold_insert_list, map_union_empty.
  rewrite <- (hm_iter_list_to_map m) at 2. symmetry. apply list_to_map_proper.
  - apply hm_iter_nodup.
  - symmetry. apply reverse_Permutation.
Qed.

End hash_map.
