(* ===== verification/Types.v ===== *)
(** * The vocabulary of the engine ([onced-core/src/lib.rs])

    The persisted data: keys, request fingerprints, fences, cached outcomes and
    the two states of a key, with the ranges that their Rust types impose as
    well-formedness predicates. *)

From S2P Require Import Prelude Machine Str BTreeMap.

(** A client-supplied idempotency key. *)
Record IdempotencyKey := MkKey { key_str : string }.

(** A 32-byte fingerprint of the request that started a key. *)
Record RequestFingerprint := MkFingerprint { fp_bytes : list byte }.

(** A fencing token. *)
Record Fence := MkFence { fence_no : Z }.

(** The outcome of the first successful execution; [headers] is a [BTreeMap]. *)
Record CachedOutcome := MkOutcome {
  status : Z;
  headers : list (string * string);
  body : list byte;
}.

(** The persisted state of one key. *)
Inductive KeyState :=
| InProgress (fence : Fence) (fingerprint : RequestFingerprint) (lease_expires_at_ms : Z)
| Completed (fingerprint : RequestFingerprint) (outcome : CachedOutcome) (completed_at_ms : Z).

#[export] Instance IdempotencyKey_eq_dec : EqDecision IdempotencyKey.
Proof. solve_decision. Defined.

#[export] Instance IdempotencyKey_countable : Countable IdempotencyKey :=
  inj_countable' key_str MkKey (fun '(MkKey s) => eq_refl).

#[export] Instance RequestFingerprint_eq_dec : EqDecision RequestFingerprint.
Proof. solve_decision. Defined.

#[export] Instance Fence_eq_dec : EqDecision Fence.
Proof. solve_decision. Defined.

#[export] Instance CachedOutcome_eq_dec : EqDecision CachedOutcome.
Proof. solve_decision. Defined.

#[export] Instance KeyState_eq_dec : EqDecision KeyState.
Proof. solve_decision. Defined.

(** ** Well-formedness: what the Rust types guarantee *)

Definition wf_key (k : IdempotencyKey) : Prop := is_str (key_str k).

Definition wf_fingerprint (fp : RequestFingerprint) : Prop := length (fp_bytes fp) = 32%nat.

Definition wf_headers (h : list (string * string)) : Prop :=
  bt_sorted h = true /\ Forall (fun kv => is_str kv.1 /\ is_str kv.2) h.

Definition wf_outcome (o : CachedOutcome) : Prop :=
  in_uint 16 (status o) /\ wf_headers (headers o).

Definition wf_state (s : KeyState) : Prop :=
  match s with
  | InProgress f fp lease => in_uint 64 (fence_no f) /\ wf_fingerprint fp /\ in_uint 64 lease
  | Completed fp o at_ms => wf_fingerprint fp /\ wf_outcome o /\ in_uint 64 at_ms
  end.

#[export] Instance wf_key_dec k : Decision (wf_key k).
Proof. unfold wf_key; apply _. Defined.
#[export] Instance wf_state_dec s : Decision (wf_state s).
Proof. destruct s; unfold wf_state, wf_outcome, wf_headers, wf_fingerprint; apply _. Defined.

(** The fence of an in-progress state. *)
Definition in_progress_fence (s : KeyState) : option Z :=
  match s with
  | InProgress f _ _ => Some (fence_no f)
  | Completed _ _ _ => None
  end.

Definition state_fingerprint (s : KeyState) : RequestFingerprint :=
  match s with
  | InProgress _ fp _ => fp
  | Completed fp _ _ => fp
  end.

(** The states form a one-directional graph: what may follow a state of a key
    while it is not recycled. *)
Inductive key_advance : KeyState -> KeyState -> Prop :=
| adv_takeover f f' fp l l' : fence_no f < fence_no f' ->
    key_advance (InProgress f fp l) (InProgress f' fp l')
| adv_complete f fp l o t : key_advance (InProgress f fp l) (Completed fp o t).
