(* ===== verification/Store.v ===== *)
(** * Storage for key records ([onced-core/src/store.rs])

    The [Store] trait as a class of operations, the in-memory implementation,
    and two classes of laws that clients reason with: [StoreLaws] (a store is
    observed through the finite map it represents, its [view]) and
    [DurableLaws] (what a store promises about a crash). *)

From S2P Require Import Prelude Machine Types.

(** The trait.  [compact]'s predicate is an [FnMut] in Rust; every caller
    passes one that does not change its state. *)
Class Store (S : Type) := {
  get : S -> IdempotencyKey -> option KeyState;
  put : S -> IdempotencyKey -> KeyState -> S;
  max_in_progress_fence : S -> Z;
  flush : S -> S;
  compact : S -> (IdempotencyKey -> KeyState -> bool) -> S;
}.

(** The provided methods of the trait. *)
Definition default_max_in_progress_fence {S : Type} (s : S) : Z := 0.
Definition default_flush {S : Type} (s : S) : S := s.
Definition default_compact {S : Type} (s : S) (keep : IdempotencyKey -> KeyState -> bool) : S := s.

(** [HashMap::retain]. *)
Definition retain (keep : IdempotencyKey -> KeyState -> bool)
    (m : gmap IdempotencyKey KeyState) : gmap IdempotencyKey KeyState :=
  filter (fun kv => keep kv.1 kv.2 = true) m.

(** ** [MemoryStore] *)

Record MemoryStore := MkMemoryStore { keys : gmap IdempotencyKey KeyState }.

Definition MemoryStore_new : MemoryStore := MkMemoryStore ∅.

Definition MemoryStore_get (s : MemoryStore) (key : IdempotencyKey) : option KeyState :=
  keys s !! key.

Definition MemoryStore_put (s : MemoryStore) (key : IdempotencyKey) (state : KeyState)
  : MemoryStore := MkMemoryStore (<[key := state]> (keys s)).

Definition MemoryStore_compact (s : MemoryStore) (keep : IdempotencyKey -> KeyState -> bool)
  : MemoryStore := MkMemoryStore (retain keep (keys s)).

#[export] Instance MemoryStore_Store : Store MemoryStore := {
  get := MemoryStore_get;
  put := MemoryStore_put;
  max_in_progress_fence := default_max_in_progress_fence;
  flush := default_flush;
  compact := MemoryStore_compact;
}.

(** ** What a store promises to the engine *)

Class StoreLaws (S : Type) `{Store S} := {
  view : S -> gmap IdempotencyKey KeyState;
  (** The representation invariant of the store. *)
  store_ok : S -> Prop;
  (** The records that the store can represent. *)
  admits : IdempotencyKey -> KeyState -> Prop;
  get_view s k : store_ok s -> get s k = view s !! k;
  put_ok s k st : store_ok s -> admits k st -> store_ok (put s k st);
  put_view s k st : store_ok s -> view (put s k st) = <[k := st]> (view s);
  flush_ok s : store_ok s -> store_ok (flush s);
  flush_view s : store_ok s -> view (flush s) = view s;
  compact_ok s keep : store_ok s -> store_ok (compact s keep);
  compact_view s keep : store_ok s -> view (compact s keep) = retain keep (view s);
  admitted s k st : store_ok s -> view s !! k = Some st -> admits k st;
}.

#[export] Hint Resolve put_ok flush_ok compact_ok : onced.

#[export, refine] Instance MemoryStore_laws : StoreLaws MemoryStore := {
  view := keys;
  store_ok _ := True;
  admits _ _ := True;
}.
Proof. all: done. Defined.

(** The greatest fence of the in-progress records of a map, 0 if there is none:
    [values().filter_map(..).max().unwrap_or(0)].  Fences are unsigned. *)
Definition max_fence (m : gmap IdempotencyKey KeyState) : Z :=
  foldr Z.max 0 (omap in_progress_fence (map_to_list m).*2).

(** What a store promises about a crash: [recover s s'] holds when [s'] is a
    store that reopening may give after the process holding [s] died, and such
    a store represents the same records, with the fence counter's seed above
    every recovered in-progress fence. *)
Class DurableLaws (S : Type) `{StoreLaws S} := {
  recover : S -> S -> Prop;
  recover_ok s s' : store_ok s -> recover s s' -> store_ok s';
  recover_view s s' : store_ok s -> recover s s' -> view s' = view s;
  recover_fence s s' : store_ok s -> recover s s' -> max_in_progress_fence s' = max_fence (view s');
}.

(** What a store promises about a crash inside [put]: [recover_put s k st s'] holds
    when [s'] is a store that reopening may give after the process died somewhere
    in [put s k st]; the write is then there as a whole or not at all. *)
Class PutCrashLaws (S : Type) `{DurableLaws S} := {
  recover_put : S -> IdempotencyKey -> KeyState -> S -> Prop;
  recover_put_ok s k st s' : store_ok s -> admits k st -> recover_put s k st s' -> store_ok s';
  recover_put_view s k st s' : store_ok s -> admits k st -> recover_put s k st s' ->
    view s' = view s \/ view s' = <[k := st]> (view s);
  recover_put_fence s k st s' : store_ok s -> admits k st -> recover_put s k st s' ->
    max_in_progress_fence s' = max_fence (view s');
}.

Lemma foldr_max_ge (l : list Z) x : x ∈ l -> x <= foldr Z.max 0 l.
Proof. induction 1; simpl; lia. Qed.

Lemma foldr_max_le (l : list Z) b : 0 <= b -> Forall (fun x => x <= b) l -> foldr Z.max 0 l <= b.
Proof. intros Hb. induction 1; simpl; lia. Qed.

Lemma foldr_max_nonneg (l : list Z) : 0 <= foldr Z.max 0 l.
Proof. induction l; simpl; lia. Qed.

Lemma max_fence_ge (m : gmap IdempotencyKey KeyState) k f fp l :
  m !! k = Some (InProgress f fp l) -> fence_no f <= max_fence m.
Proof.
  intros Hk. apply foldr_max_ge, list_elem_of_omap.
  exists (InProgress f fp l). split; [|done].
  apply list_elem_of_fmap. exists (k, InProgress f fp l). split; [done|].
  by apply elem_of_map_to_list.
Qed.

Lemma max_fence_le (m : gmap IdempotencyKey KeyState) b :
  0 <= b ->
  (forall k f fp l, m !! k = Some (InProgress f fp l) -> fence_no f <= b) ->
  max_fence m <= b.
Proof.
  intros Hb Hm. apply foldr_max_le; [done|]. apply Forall_forall. intros x Hx.
  apply list_elem_of_omap in Hx as (st & Hst & Hx).
  apply list_elem_of_fmap in Hst as ([k st'] & -> & Hst).
  apply elem_of_map_to_list in Hst. destruct st'; simplify_eq/=. eauto.
Qed.

Lemma max_fence_nonneg (m : gmap IdempotencyKey KeyState) : 0 <= max_fence m.
Proof. apply foldr_max_nonneg. Qed.

Lemma retain_lookup keep (m : gmap IdempotencyKey KeyState) k :
  retain keep m !! k =
  match m !! k with Some st => if keep k st then Some st else None | None => None end.
Proof.
  unfold retain. destruct (m !! k) as [st|] eqn:E.
  - destruct (keep k st) eqn:Hk.
    + by apply map_lookup_filter_Some.
    + apply map_lookup_filter_None. right. intros st' ?; simplify_eq/=. congruence.
  - apply map_lookup_filter_None. by left.
Qed.
