(* ===== verification/Engine.v ===== *)
(** * The idempotency engine ([onced-core/src/engine.rs])

    One [Definition] per method of [Engine<S>], over any [Store].  The methods
    take [&mut self], so each returns its result with the engine afterwards.
    Fence arithmetic wraps at 64 bits, as the release profile compiles it. *)

From S2P Require Import Prelude Machine Types Store.

Record Engine (S : Type) := MkEngine {
  store : S;
  lease_ms : Z;
  ttl_ms : Z;
  next_fence : Z;
}.
Arguments MkEngine {S} _ _ _ _.
Arguments store {S} _.
Arguments lease_ms {S} _.
Arguments ttl_ms {S} _.
Arguments next_fence {S} _.

Definition DEFAULT_TTL_MS : Z := 24 * 60 * 60 * 1000.

(** Proof that the holder may complete a key. *)
Record RunToken := MkRunToken { token_key : IdempotencyKey; token_fence : Fence }.

(** The decision [begin] returns. *)
Inductive Begin :=
| Begin_Run (token : RunToken)
| Begin_Replay (outcome : CachedOutcome)
| Begin_InProgress
| Begin_Mismatch.

(** Why [complete] was refused. *)
Inductive CompleteError := StaleFence | AlreadyCompleted | Unknown.

(** The local enum of [begin]: the decision taken while only reading. *)
Inductive Action :=
| Action_Start
| Action_Replay (outcome : CachedOutcome)
| Action_InProgress
| Action_Mismatch.

#[export] Instance RunToken_eq_dec : EqDecision RunToken.
Proof. solve_decision. Defined.
#[export] Instance Begin_eq_dec : EqDecision Begin.
Proof. solve_decision. Defined.
#[export] Instance CompleteError_eq_dec : EqDecision CompleteError.
Proof. solve_decision. Defined.

(** The instant from which a key completed at [completed_at_ms] is expired. *)
Definition expiry (completed_at_ms ttl_ms : Z) : Z := saturating_add 64 completed_at_ms ttl_ms.

(** What [begin] decides from the record it reads. *)
Definition begin_action (ttl_ms : Z) (stored : option KeyState)
    (fingerprint : RequestFingerprint) (now_ms : Z) : Action :=
  match stored with
  | None => Action_Start
  | Some (Completed stored outcome completed_at_ms) =>
      if expiry completed_at_ms ttl_ms <=? now_ms then Action_Start
      else if decide (stored = fingerprint) then Action_Replay outcome
      else Action_Mismatch
  | Some (InProgress _ stored lease_expires_at_ms) =>
      if decide (stored = fingerprint)
      then if lease_expires_at_ms <=? now_ms then Action_Start else Action_InProgress
      else Action_Mismatch
  end.

(** The predicate [prune_expired] hands to [compact]. *)
Definition prune_keep (ttl_ms now_ms : Z) (key : IdempotencyKey) (state : KeyState) : bool :=
  match state with
  | Completed _ _ completed_at_ms => now_ms <? expiry completed_at_ms ttl_ms
  | InProgress _ _ _ => true
  end.

Section engine.
Context {S : Type} `{Store S}.
Implicit Types e : Engine S.

Definition set_store e (s : S) : Engine S :=
  MkEngine s (lease_ms e) (ttl_ms e) (next_fence e).

Definition with_ttl (store : S) (lease_ms ttl_ms : Z) : Engine S :=
  MkEngine store lease_ms ttl_ms (wrapping_add 64 (max_in_progress_fence store) 1).

Definition new (store : S) (lease_ms : Z) : Engine S := with_ttl store lease_ms DEFAULT_TTL_MS.

Definition flush e : Engine S := set_store e (Store.flush (store e)).

Definition prune_expired e (now_ms : Z) : Engine S :=
  set_store e (compact (store e) (prune_keep (ttl_ms e) now_ms)).

Definition mint_fence e : Fence * Engine S :=
  (MkFence (next_fence e),
   MkEngine (store e) (lease_ms e) (ttl_ms e) (wrapping_add 64 (next_fence e) 1)).

Definition start e (key : IdempotencyKey) (fingerprint : RequestFingerprint) (now_ms : Z)
  : Begin * Engine S :=
  let (fence, e1) := mint_fence e in
  let s := put (store e1) key
             (InProgress fence fingerprint (saturating_add 64 now_ms (lease_ms e1))) in
  (Begin_Run (MkRunToken key fence), set_store e1 s).

Definition begin e (key : IdempotencyKey) (fingerprint : RequestFingerprint) (now_ms : Z)
  : Begin * Engine S :=
  match begin_action (ttl_ms e) (get (store e) key) fingerprint now_ms with
  | Action_Start => start e key fingerprint now_ms
  | Action_Replay outcome => (Begin_Replay outcome, e)
  | Action_InProgress => (Begin_InProgress, e)
  | Action_Mismatch => (Begin_Mismatch, e)
  end.

Definition complete e (token : RunToken) (outcome : CachedOutcome) (now_ms : Z)
  : result unit CompleteError * Engine S :=
  match get (store e) (token_key token) with
  | Some (InProgress fence fingerprint _) =>
      if decide (fence = token_fence token) then
        (Ok tt, set_store e (put (store e) (token_key token)
                               (Completed fingerprint outcome now_ms)))
      else (Err StaleFence, e)
  | Some (Completed _ _ _) => (Err AlreadyCompleted, e)
  | None => (Err Unknown, e)
  end.

End engine.

(** ** The methods through the view of the store *)

Section engine_lemmas.
Context {S : Type} `{StoreLaws S}.
Implicit Types e : Engine S.

(** The records an engine holds. *)
Definition records e : gmap IdempotencyKey KeyState := view (store e).
Definition engine_ok e : Prop := store_ok (store e).

(** A request the store can record whatever fence and lease it is given. *)
Definition admits_request (k : IdempotencyKey) (fp : RequestFingerprint) : Prop :=
  forall f l, in_uint 64 (fence_no f) -> in_uint 64 l -> admits k (InProgress f fp l).

(** An outcome the store can record for a key it holds in progress. *)
Definition admits_outcome (k : IdempotencyKey) (o : CachedOutcome) (t : Z) : Prop :=
  forall f fp l, admits k (InProgress f fp l) -> admits k (Completed fp o t).

(** The fields that stay in the ranges of their types. *)
Definition engine_ranges e : Prop :=
  in_uint 64 (next_fence e) /\ in_uint 64 (lease_ms e) /\ in_uint 64 (ttl_ms e).

(** A run: the record [begin] leaves when it starts or takes over a key. *)
Definition started e (k : IdempotencyKey) (fp : RequestFingerprint) (now : Z) : KeyState :=
  InProgress (MkFence (next_fence e)) fp (saturating_add 64 now (lease_ms e)).

Lemma start_eq e k fp now :
  start e k fp now =
  (Begin_Run (MkRunToken k (MkFence (next_fence e))),
   MkEngine (put (store e) k (started e k fp now)) (lease_ms e) (ttl_ms e)
     (wrapping_add 64 (next_fence e) 1)).
Proof. done. Qed.

Lemma start_records e k fp now :
  engine_ok e -> records (start e k fp now).2 = <[k := started e k fp now]> (records e).
Proof. intros He. unfold records. rewrite start_eq. by apply put_view. Qed.

(** [begin] either starts the key or leaves the engine as it is. *)
Lemma begin_cases e k fp now :
  engine_ok e ->
  (begin_action (ttl_ms e) (records e !! k) fp now = Action_Start /\
   begin e k fp now = start e k fp now) \/
  ((begin e k fp now).2 = e /\ forall tok, (begin e k fp now).1 <> Begin_Run tok).
Proof.
  intros He. unfold begin. rewrite get_view by done. fold (records e).
  destruct (begin_action _ _ _ _); [by left | right; by split ..].
Qed.

Lemma complete_cases e tok o now :
  engine_ok e ->
  (exists fp l,
      records e !! token_key tok = Some (InProgress (token_fence tok) fp l) /\
      complete e tok o now =
        (Ok tt, set_store e (put (store e) (token_key tok) (Completed fp o now)))) \/
  ((complete e tok o now).2 = e /\ (complete e tok o now).1 <> Ok tt).
Proof.
  intros He. unfold complete. rewrite get_view by done. fold (records e).
  destruct (records e !! token_key tok) as [[f fp l|fp o' t]|] eqn:E.
  - destruct (decide (f = token_fence tok)) as [->|]; [left; eauto | right; done].
  - by right.
  - by right.
Qed.

Lemma begin_ok e k fp now :
  engine_ok e -> engine_ranges e -> in_uint 64 now -> admits_request k fp ->
  engine_ok (begin e k fp now).2.
Proof.
  intros He (Hf & Hl & _) Hn Hadm.
  destruct (begin_cases e k fp now He) as [[_ ->]|[-> _]]; [|done].
  rewrite start_eq. unfold engine_ok; simpl. apply put_ok; [done|]. apply Hadm; [done|].
  apply saturating_add_range; unfold in_uint in *; lia.
Qed.

Lemma complete_ok e tok o now :
  engine_ok e -> admits_outcome (token_key tok) o now -> engine_ok (complete e tok o now).2.
Proof.
  intros He Hadm. destruct (complete_cases e tok o now He) as [(fp & l & Hk & ->)|[-> _]]; [|done].
  unfold engine_ok; simpl. apply put_ok; [done|]. eapply Hadm, admitted; eauto.
Qed.

Lemma prune_expired_ok e now : engine_ok e -> engine_ok (prune_expired e now).
Proof. intros. by apply compact_ok. Qed.

Lemma engine_flush_ok e : engine_ok e -> engine_ok (flush e).
Proof. intros. by apply flush_ok. Qed.

Lemma flush_records e : engine_ok e -> records (flush e) = records e.
Proof. intros. by apply flush_view. Qed.

Lemma prune_records e now :
  engine_ok e -> records (prune_expired e now) = retain (prune_keep (ttl_ms e) now) (records e).
Proof. intros. by apply compact_view. Qed.

Lemma begin_ranges e k fp now : engine_ranges e -> engine_ranges (begin e k fp now).2.
Proof.
  unfold begin. intros (? & ? & ?). destruct (begin_action _ _ _ _); try (by split_and!).
  rewrite start_eq. split_and!; simpl; [apply wrap_range; lia | done | done].
Qed.

Lemma complete_frame e tok o now :
  let e' := (complete e tok o now).2 in
  next_fence e' = next_fence e /\ lease_ms e' = lease_ms e /\ ttl_ms e' = ttl_ms e.
Proof. unfold complete. by split_matches. Qed.

Lemma begin_frame e k fp now :
  let e' := (begin e k fp now).2 in lease_ms e' = lease_ms e /\ ttl_ms e' = ttl_ms e.
Proof. unfold begin. by destruct (begin_action _ _ _ _). Qed.

(** The token of a run carries the requested key and the engine's next fence. *)
Lemma begin_run_inv e k fp now tok :
  engine_ok e ->
  (begin e k fp now).1 = Begin_Run tok ->
  tok = MkRunToken k (MkFence (next_fence e)) /\ begin e k fp now = start e k fp now /\
  begin_action (ttl_ms e) (records e !! k) fp now = Action_Start.
Proof.
  intros He Hr. destruct (begin_cases e k fp now He) as [[Ha Hs]|[_ Hn]]; [|by destruct (Hn tok)].
  rewrite Hs, start_eq in Hr. simplify_eq/=. done.
Qed.

Lemma complete_ok_inv e tok o now :
  engine_ok e ->
  (complete e tok o now).1 = Ok tt ->
  exists fp l, records e !! token_key tok = Some (InProgress (token_fence tok) fp l) /\
    records (complete e tok o now).2 = <[token_key tok := Completed fp o now]> (records e).
Proof.
  intros He Hr. destruct (complete_cases e tok o now He) as [(fp & l & Hk & Hc)|[_ Hn]]; [|done].
  exists fp, l. split; [done|]. rewrite Hc. unfold records; simpl. by apply put_view.
Qed.

(** ** Per-key frame: an operation only touches the key it names *)

Lemma begin_other e k fp now k' :
  engine_ok e -> k' <> k -> records (begin e k fp now).2 !! k' = records e !! k'.
Proof.
  intros He Hne. destruct (begin_cases e k fp now He) as [[_ ->]|[-> _]]; [|done].
  rewrite start_records by done. by rewrite lookup_insert_ne.
Qed.

Lemma complete_other e tok o now k' :
  engine_ok e -> k' <> token_key tok ->
  records (complete e tok o now).2 !! k' = records e !! k'.
Proof.
  intros He Hne. destruct (complete_cases e tok o now He) as [(fp & l & _ & ->)|[-> _]]; [|done].
  unfold records; simpl. rewrite put_view by done. by rewrite lookup_insert_ne.
Qed.

End engine_lemmas.

#[export] Hint Resolve begin_ok complete_ok prune_expired_ok engine_flush_ok begin_ranges : onced.
