(* ===== verification/History.v ===== *)
(** * Histories of an engine: exactly-once, fencing and provenance

    A history is a sequence of engine operations on one shard, in any order and
    at any injected times, interleaved with flushes, prune sweeps and crashes
    (the process dies and a new engine is built by [with_ttl] over the reopened
    store).  The statements are about every history over every store that
    satisfies [StoreLaws] and [DurableLaws]. *)

From stdpp Require Import sorting.
From S2P Require Import Prelude Machine Types Store Engine.

(** An operation with its result. *)
Inductive Event :=
| EvBegin (k : IdempotencyKey) (fp : RequestFingerprint) (now : Z) (r : Begin)
| EvComplete (tok : RunToken) (o : CachedOutcome) (now : Z) (r : result unit CompleteError)
| EvFlush
| EvPrune (now : Z)
| EvCrash.

(** The injected time of an event that reads the clock. *)
Definition event_time (ev : Event) : option Z :=
  match ev with
  | EvBegin _ _ now _ | EvComplete _ _ now _ | EvPrune now => Some now
  | EvFlush | EvCrash => None
  end.

(** The time that the event reads, if any, satisfies [P]. *)
Definition timed (P : Z -> Prop) (ev : Event) : Prop :=
  match event_time ev with Some now => P now | None => True end.

(** The event reads no time at or after [t]. *)
Definition before (t : Z) : Event -> Prop := timed (fun now => now < t).

(** The event reads no time before [t]. *)
Definition not_before (t : Z) : Event -> Prop := timed (fun now => t <= now).

(** A request that is told to run [k]. *)
Definition runs (k : IdempotencyKey) (ev : Event) : Prop :=
  match ev with
  | EvBegin k' _ _ (Begin_Run _) => k' = k
  | _ => False
  end.

(** A successful completion of [k]. *)
Definition commits (k : IdempotencyKey) (ev : Event) : Prop :=
  match ev with
  | EvComplete tok _ _ (Ok _) => token_key tok = k
  | _ => False
  end.

(** What a request bearing [k] may be told once [o] is its outcome. *)
Definition answers_only (k : IdempotencyKey) (fp : RequestFingerprint) (o : CachedOutcome)
    (ev : Event) : Prop :=
  match ev with
  | EvBegin k' fp' _ r =>
      k' = k -> (fp' = fp /\ r = Begin_Replay o) \/ (fp' <> fp /\ r = Begin_Mismatch)
  | _ => True
  end.

Section steps.
Context {S : Type} `{DurableLaws S}.
Implicit Types e : Engine S.

(** One step of a history. *)
Inductive estep : Engine S -> Event -> Engine S -> Prop :=
| step_begin e k fp now :
    in_uint 64 now -> admits_request k fp ->
    estep e (EvBegin k fp now (begin e k fp now).1) (begin e k fp now).2
| step_complete e tok o now :
    in_uint 64 now -> admits_outcome (token_key tok) o now ->
    estep e (EvComplete tok o now (complete e tok o now).1) (complete e tok o now).2
| step_flush e : estep e EvFlush (flush e)
| step_prune e now : estep e (EvPrune now) (prune_expired e now)
| step_crash e s' : recover (store e) s' ->
    estep e EvCrash (with_ttl s' (lease_ms e) (ttl_ms e)).

(** A history: the events in order. *)
Inductive esteps : Engine S -> list Event -> Engine S -> Prop :=
| esteps_nil e : esteps e [] e
| esteps_snoc e tr e1 ev e2 : esteps e tr e1 -> estep e1 ev e2 -> esteps e (tr ++ [ev]) e2.

(** ** Invariants *)

(** Every in-progress record carries a fence the counter has passed. *)
Definition fences_below e : Prop :=
  forall k f fp l, records e !! k = Some (InProgress f fp l) -> 0 <= fence_no f < next_fence e.

Definition engine_inv e : Prop := engine_ok e /\ engine_ranges e.

Lemma estep_inv e ev e' : engine_inv e -> estep e ev e' -> engine_inv e'.
Proof.
  intros [Ho Hr] Hs. destruct Hs as [e k fp now Hn Ha|e tok o now Hn Ha|e|e now|e s' Hrec].
  - split; auto with onced.
  - split; [auto with onced|]. destruct Hr as (? & ? & ?).
    destruct (complete_frame e tok o now) as (Ef & El & Et).
    unfold engine_ranges. by rewrite Ef, El, Et.
  - split; [by apply engine_flush_ok | done].
  - split; [by apply prune_expired_ok | done].
  - split; [by eapply recover_ok|]. destruct Hr as (? & ? & ?).
    split_and!; simpl; [apply wrap_range; lia | done | done].
Qed.

Lemma estep_ttl e ev e' : estep e ev e' -> ttl_ms e' = ttl_ms e.
Proof.
  destruct 1; simpl; try done; [by apply begin_frame | by apply complete_frame].
Qed.

Lemma estep_lease e ev e' : estep e ev e' -> lease_ms e' = lease_ms e.
Proof.
  destruct 1; simpl; try done; [by apply begin_frame | by apply complete_frame].
Qed.

Lemma esteps_inv e tr e' : engine_inv e -> esteps e tr e' -> engine_inv e'.
Proof. intros He. induction 1; eauto using estep_inv. Qed.

Lemma esteps_ttl e tr e' : esteps e tr e' -> ttl_ms e' = ttl_ms e.
Proof. induction 1 as [|???? ? _ IH Hs]; [done|]. by rewrite (estep_ttl _ _ _ Hs). Qed.

Lemma esteps_lease e tr e' : esteps e tr e' -> lease_ms e' = lease_ms e.
Proof. induction 1 as [|???? ? _ IH Hs]; [done|]. by rewrite (estep_lease _ _ _ Hs). Qed.

Lemma esteps_trans e tr1 e1 tr2 e2 :
  esteps e tr1 e1 -> esteps e1 tr2 e2 -> esteps e (tr1 ++ tr2) e2.
Proof.
  intros Hs1 Hs2. induction Hs2 as [|e1 tr e3 ev e4 _ IH Hs]; [by rewrite app_nil_r|].
  rewrite app_assoc. econstructor; eauto.
Qed.

Lemma estep_begin_inv e k fp now r e' :
  estep e (EvBegin k fp now r) e' ->
  r = (begin e k fp now).1 /\ e' = (begin e k fp now).2.
Proof. by inversion 1. Qed.

Lemma estep_complete_inv e tok o now r e' :
  estep e (EvComplete tok o now r) e' ->
  r = (complete e tok o now).1 /\ e' = (complete e tok o now).2.
Proof. by inversion 1. Qed.

Lemma esteps_one e ev e' : estep e ev e' -> esteps e [ev] e'.
Proof. intros Hs. apply (esteps_snoc e [] e ev e'); [constructor | done]. Qed.

Lemma crash_records e s' :
  engine_ok e -> recover (store e) s' ->
  records (with_ttl s' (lease_ms e) (ttl_ms e)) = records e.
Proof. intros He Hr. by apply recover_view. Qed.

(** The fence counter never falls to or below a live fence, unless it wraps. *)
Lemma estep_fences e ev e' :
  engine_inv e -> fences_below e -> next_fence e + 1 < 2 ^ 64 -> estep e ev e' ->
  fences_below e' /\ next_fence e' <= next_fence e + 1.
Proof.
  intros [Ho (Hr & _)] Hf Hlt Hs. unfold in_uint in Hr.
  destruct Hs as [e k fp now Hn Ha|e tok o now Hn Ha|e|e now|e s' Hrec].
  - destruct (begin_cases e k fp now Ho) as [[_ ->]|[-> _]]; [|split; [done|lia]].
    rewrite start_eq; simpl. rewrite wrapping_add_small by lia. split; [|lia].
    intros k' f fp' l Hk. simpl.
    change (records (start e k fp now).2 !! k' = Some (InProgress f fp' l)) in Hk.
    rewrite start_records in Hk by done.
    apply lookup_insert_Some in Hk as [[<- E]|[_ Hk]];
      [unfold started in E; simplify_eq; simpl; lia | apply Hf in Hk; lia].
  - destruct (complete_frame e tok o now) as (-> & _). split; [|lia].
    intros k f fp l Hk. destruct (complete_cases e tok o now Ho) as [(fp' & l' & Hk' & E)|[E _]];
      rewrite E in Hk |- *; [|by eapply Hf].
    unfold records in Hk; simpl in Hk. rewrite put_view in Hk by done.
    apply lookup_insert_Some in Hk as [[_ Hk]|[_ Hk]]; [done | by eapply Hf].
  - split; [|simpl; lia]. intros k f fp l. rewrite flush_records by done. apply Hf.
  - split; [|simpl; lia]. intros k f fp l. rewrite prune_records, retain_lookup by done.
    intros Hk. destruct (records e !! k) eqn:E; [|done]. split_matches; simplify_eq. by eapply Hf.
  - assert (max_fence (records e) <= next_fence e - 1 \/ max_fence (records e) = 0) as Hm.
    { destruct (decide (next_fence e = 0)) as [E0|]; [right | left].
      - pose proof (max_fence_nonneg (records e)).
        assert (max_fence (records e) <= 0); [|lia]. apply max_fence_le; [lia|].
        intros k f fp l Hk. apply Hf in Hk. lia.
      - apply max_fence_le; [lia|]. intros k f fp l Hk. apply Hf in Hk. lia. }
    unfold with_ttl, fences_below; simpl. rewrite (recover_fence _ _ Ho Hrec).
    rewrite (recover_view _ _ Ho Hrec). fold (records e).
    pose proof (max_fence_nonneg (records e)).
    rewrite wrapping_add_small by lia. split; [|lia].
    intros k f fp l Hk. change (records e !! k = Some (InProgress f fp l)) in Hk || idtac.
    unfold records in Hk; simpl in Hk. rewrite (recover_view _ _ Ho Hrec) in Hk.
    pose proof (max_fence_ge _ _ _ _ _ Hk). pose proof (Hf _ _ _ _ Hk). fold (records e) in *. lia.
Qed.

Lemma esteps_fences e tr e' :
  engine_inv e -> fences_below e -> next_fence e + Z.of_nat (length tr) < 2 ^ 64 ->
  esteps e tr e' ->
  fences_below e' /\ next_fence e' <= next_fence e + Z.of_nat (length tr).
Proof.
  intros He Hf Hlt Hs. induction Hs as [|e tr e1 ev e2 Hs IH Hs1]; [split; [done | simpl; lia]|].
  rewrite length_app in *. simpl in *. destruct IH as [Hf1 Hn1]; [done | done | lia|].
  destruct (estep_fences e1 ev e2) as [Hf2 Hn2]; [by eapply esteps_inv | done | lia | done |].
  split; [done | lia].
Qed.

(** ** A completed key until it expires *)

Lemma expired_action ttl fp' fp o t now :
  begin_action ttl (Some (Completed fp o t)) fp' now =
  if expiry t ttl <=? now then Action_Start
  else if decide (fp = fp') then Action_Replay o else Action_Mismatch.
Proof. done. Qed.

Lemma begin_completed e k fp o t fp' now :
  engine_ok e -> records e !! k = Some (Completed fp o t) -> now < expiry t (ttl_ms e) ->
  begin e k fp' now = (if decide (fp = fp') then Begin_Replay o else Begin_Mismatch, e).
Proof.
  intros Ho Hk Hlt. unfold begin. rewrite get_view by done. fold (records e).
  rewrite Hk, expired_action. case_cmp; [lia|]. by case_decide.
Qed.

Lemma completed_step e ev e' k fp o t :
  engine_ok e -> records e !! k = Some (Completed fp o t) ->
  before (expiry t (ttl_ms e)) ev -> estep e ev e' ->
  records e' !! k = Some (Completed fp o t) /\ ~ commits k ev /\ answers_only k fp o ev.
Proof.
  intros Ho Hk Hb Hs. destruct Hs as [e k' fp' now Hn Ha|e tok o' now Hn Ha|e|e now|e s' Hrec].
  - simpl. unfold before, timed in Hb; simpl in Hb. destruct (decide (k' = k)) as [->|Hne].
    + rewrite (begin_completed e k fp o t fp' now) by done. simpl.
      split_and!; [done | tauto |]. intros _. case_decide; naive_solver.
    + rewrite begin_other by done. split_and!; [done | tauto | done].
  - destruct (complete_cases e tok o' now Ho) as [(fp' & l & Hk' & E)|[E En]].
    + assert (token_key tok <> k) as Hne by congruence. rewrite E.
      split_and!; [|done|done]. unfold records; simpl. rewrite put_view by done.
      by rewrite lookup_insert_ne.
    + rewrite E. split_and!; [done | | done]. simpl.
      destruct ((complete e tok o' now).1) as [[]|]; [congruence | tauto].
  - rewrite flush_records by done. split_and!; [done | tauto | done].
  - unfold before, timed in Hb; simpl in Hb. split_and!; [|tauto|done].
    rewrite prune_records, retain_lookup, Hk by done. simpl. case_cmp; [done | lia].
  - rewrite crash_records by done. split_and!; [done | tauto | done].
Qed.

Lemma completed_steps e tr e' k fp o t :
  engine_inv e -> records e !! k = Some (Completed fp o t) ->
  esteps e tr e' -> Forall (before (expiry t (ttl_ms e))) tr ->
  records e' !! k = Some (Completed fp o t) /\
  Forall (fun ev => ~ commits k ev /\ answers_only k fp o ev) tr.
Proof.
  intros He Hk Hs Hb. induction Hs as [|e tr e1 ev e2 Hs IH Hs1]; [done|].
  rewrite Forall_app, Forall_singleton in Hb. destruct Hb as [Hb Hev].
  destruct IH as [Hk1 Htr]; [done..|].
  destruct (completed_step e1 ev e2 k fp o t) as (Hk2 & Hc & Ha); [|done| |done|].
  - by eapply esteps_inv.
  - by rewrite (esteps_ttl _ _ _ Hs).
  - split; [done|]. rewrite Forall_app, Forall_singleton. done.
Qed.

(** ** A key that was taken over, while no completion of it expires *)

(** The state of a key after the token with fence [n] was minted for it: in
    progress under that fence or a later one, or completed at [t0] or later. *)
Definition superseded (k : IdempotencyKey) (n t0 : Z) e : Prop :=
  match records e !! k with
  | Some (InProgress f _ _) => n <= fence_no f
  | Some (Completed _ _ t) => t0 <= t
  | None => False
  end.

(** [ev] is a successful completion of [k] under a fence below [n]. *)
Definition stale_commit (k : IdempotencyKey) (n : Z) (ev : Event) : Prop :=
  commits k ev /\ match ev with EvComplete tok _ _ _ => fence_no (token_fence tok) < n | _ => False end.

Lemma window_not_expired e t0 t now :
  t0 <= t -> now < t0 + ttl_ms e -> t0 + ttl_ms e < 2 ^ 64 -> now < expiry t (ttl_ms e).
Proof. unfold expiry, saturating_add, uint_max. lia. Qed.

Lemma superseded_step k n t0 e ev e' :
  engine_inv e -> fences_below e -> t0 + ttl_ms e < 2 ^ 64 ->
  superseded k n t0 e -> estep e ev e' ->
  not_before t0 ev -> before (t0 + ttl_ms e) ev ->
  superseded k n t0 e' /\ ~ stale_commit k n ev.
Proof.
  intros [Ho Hr] Hf Hw Hsup Hs Hnb Hb. unfold superseded in *.
  destruct Hs as [e k' fp' now Hn Ha|e tok o' now Hn Ha|e|e now|e s' Hrec];
    unfold before, not_before, timed, stale_commit in *; simpl in *.
  - split; [|tauto]. destruct (decide (k' = k)) as [->|Hne]; [|by rewrite begin_other].
    destruct (begin_cases e k fp' now Ho) as [[Hact ->]|[-> _]]; [|done].
    rewrite start_records, lookup_insert_eq by done. simpl.
    destruct (records e !! k) as [[f fp l|fp o t]|] eqn:Hk; [|..|done].
    + apply Hf in Hk. lia.
    + rewrite expired_action in Hact. pose proof (window_not_expired e t0 t now). case_cmp; [lia|].
      by case_decide.
  - destruct (complete_cases e tok o' now Ho) as [(fp' & l & Hk' & E)|[E En]].
    + rewrite E; simpl. unfold records; simpl. rewrite put_view by done. fold (records e).
      destruct (decide (token_key tok = k)) as [<-|Hne].
      * rewrite lookup_insert_eq. rewrite Hk' in Hsup. split; [done | lia].
      * rewrite lookup_insert_ne by done. split; [done | tauto].
    + rewrite E. split; [done|]. intros [Hc _].
      destruct ((complete e tok o' now).1) as [[]|]; [congruence | done].
  - rewrite flush_records by done. split; [done | tauto].
  - rewrite prune_records, retain_lookup by done. split; [|tauto].
    destruct (records e !! k) as [[f fp l|fp o t]|] eqn:Hk; simpl; [done| |done].
    pose proof (window_not_expired e t0 t now). case_cmp; [done | lia].
  - rewrite crash_records by done. split; [done | tauto].
Qed.

Lemma superseded_steps k n t0 e tr e' :
  engine_inv e -> fences_below e -> t0 + ttl_ms e < 2 ^ 64 ->
  next_fence e + Z.of_nat (length tr) < 2 ^ 64 ->
  superseded k n t0 e -> esteps e tr e' ->
  Forall (not_before t0) tr -> Forall (before (t0 + ttl_ms e)) tr ->
  superseded k n t0 e' /\ Forall (fun ev => ~ stale_commit k n ev) tr.
Proof.
  intros He Hf Hw Hlt Hsup Hs Hnb Hb.
  induction Hs as [|e tr e1 ev e2 Hs IH Hs1]; [done|].
  rewrite length_app in Hlt; simpl in Hlt.
  rewrite Forall_app, Forall_singleton in Hb, Hnb. destruct Hb as [Hb Hbe], Hnb as [Hnb Hnbe].
  destruct IH as [Hsup1 Htr]; [done| done|done|lia|done..|].
  destruct (esteps_fences e tr e1) as [Hf1 _]; [done|done|lia|done|].
  destruct (superseded_step k n t0 e1 ev e2) as [Hsup2 Hns]; rewrite ?(esteps_ttl _ _ _ Hs); try done.
  - by eapply esteps_inv.
  - split; [done|]. by rewrite Forall_app, Forall_singleton.
Qed.

(** ** A key while its lease runs *)

(** The state of a key that was started at [t0] with a lease until [l0]: in
    progress with at least that lease, or completed since. *)
Definition held (k : IdempotencyKey) (t0 l0 : Z) e : Prop :=
  match records e !! k with
  | Some (InProgress _ _ l) => l0 <= l
  | Some (Completed _ _ t) => t0 <= t
  | None => False
  end.

(** The times at which the holder is alone: from [t0] until the lease ends, or
    an outcome of this time would expire. *)
Definition in_lease (t0 l0 ttl now : Z) : Prop := t0 <= now < Z.min l0 (t0 + ttl).

Lemma begin_held e k t0 l0 fp now :
  engine_ok e -> t0 + ttl_ms e < 2 ^ 64 -> held k t0 l0 e -> in_lease t0 l0 (ttl_ms e) now ->
  (begin e k fp now).2 = e /\ (forall tok, (begin e k fp now).1 <> Begin_Run tok).
Proof.
  intros Ho Hw Hh Hn. unfold held, in_lease in *.
  destruct (begin_cases e k fp now Ho) as [[Hact _]|[-> Hno]]; [exfalso | by split].
  destruct (records e !! k) as [[f fp' l|fp' o t]|] eqn:Hk; [| |done].
  - simpl in Hact. case_decide; [case_cmp; [lia | done] | done].
  - rewrite expired_action in Hact. pose proof (window_not_expired e t0 t now). case_cmp; [lia|]. by case_decide.
Qed.

Lemma held_step k t0 l0 e ev e' :
  engine_inv e -> t0 + ttl_ms e < 2 ^ 64 -> held k t0 l0 e -> estep e ev e' ->
  timed (in_lease t0 l0 (ttl_ms e)) ev -> held k t0 l0 e' /\ ~ runs k ev.
Proof.
  intros [Ho Hr] Hw Hh Hs Ht.
  destruct Hs as [e k' fp' now Hn Ha|e tok o' now Hn Ha|e|e now|e s' Hrec]; unfold timed in Ht; simpl in Ht.
  - destruct (decide (k' = k)) as [->|Hne].
    + destruct (begin_held e k t0 l0 fp' now Ho Hw Hh Ht) as [-> Hno]. split; [done|]. simpl.
      destruct ((begin e k fp' now).1); [by destruct (Hno token) | tauto..].
    + split; [unfold held in *; by rewrite begin_other|]. simpl. destruct ((begin e k' fp' now).1); tauto.
  - split; [|tauto]. destruct (complete_cases e tok o' now Ho) as [(fp' & l & Hk' & E)|[E _]]; rewrite E; [|done].
    unfold held, records in *; simpl. rewrite put_view by done. destruct (decide (token_key tok = k)) as [<-|Hne].
    + rewrite lookup_insert_eq. unfold in_lease in Ht. lia.
    + by rewrite lookup_insert_ne.
  - split; [unfold held in *; by rewrite flush_records | tauto].
  - split; [|tauto]. unfold held in *. rewrite prune_records, retain_lookup by done.
    destruct (records e !! k) as [[f fp l|fp o t]|] eqn:Hk; simpl; [done| |done].
    unfold in_lease in Ht. pose proof (window_not_expired e t0 t now). case_cmp; [done | lia].
  - split; [unfold held in *; by rewrite crash_records | tauto].
Qed.

Lemma held_steps k t0 l0 e tr e' :
  engine_inv e -> t0 + ttl_ms e < 2 ^ 64 -> held k t0 l0 e -> esteps e tr e' ->
  Forall (timed (in_lease t0 l0 (ttl_ms e))) tr ->
  held k t0 l0 e' /\ Forall (fun ev => ~ runs k ev) tr.
Proof.
  intros He Hw Hh Hs Ht. induction Hs as [|e tr e1 ev e2 Hs IH Hs1]; [done|].
  rewrite Forall_app, Forall_singleton in Ht. destruct Ht as [Ht Hte]. destruct IH as [Hh1 Htr]; [done..|].
  destruct (held_step k t0 l0 e1 ev e2) as [Hh2 Hno]; rewrite ?(esteps_ttl _ _ _ Hs); try done.
  - by eapply esteps_inv.
  - split; [done|]. by rewrite Forall_app, Forall_singleton.
Qed.

(** A run holds its key, from its own time on or counted from any earlier one. *)
Lemma run_held e k fp now tok t0 :
  engine_ok e -> (begin e k fp now).1 = Begin_Run tok -> t0 <= now ->
  held k t0 (saturating_add 64 t0 (lease_ms e)) (begin e k fp now).2.
Proof.
  intros Ho Hr Ht. destruct (begin_run_inv e k fp now tok Ho Hr) as (-> & E & _).
  unfold held. rewrite E, start_records, lookup_insert_eq by done. simpl. unfold saturating_add. lia.
Qed.

(** ** Where a record comes from *)

(** The record [st] of [k] is what the events of [tr] put there. *)
Definition explained (tr : list Event) (k : IdempotencyKey) (st : KeyState) : Prop :=
  match st with
  | InProgress f fp _ => exists now, EvBegin k fp now (Begin_Run (MkRunToken k f)) ∈ tr
  | Completed fp o t => exists f now,
      EvBegin k fp now (Begin_Run (MkRunToken k f)) ∈ tr /\
      EvComplete (MkRunToken k f) o t (Ok tt) ∈ tr
  end.

Lemma explained_app tr tr' k st : explained tr k st -> explained (tr ++ tr') k st.
Proof.
  destruct st as [f fp l|fp o t]; simpl.
  - intros (now & Hin). exists now. set_solver.
  - intros (f & now & Hin & Hin'). exists f, now. set_solver.
Qed.

Lemma records_explained_step tr e ev e' :
  engine_inv e -> (forall k st, records e !! k = Some st -> explained tr k st) ->
  estep e ev e' -> forall k st, records e' !! k = Some st -> explained (tr ++ [ev]) k st.
Proof.
  intros [Ho _] Hx Hs k st Hk.
  destruct Hs as [e k' fp' now Hn Ha|e tok o' now Hn Ha|e|e now|e s' Hrec].
  - destruct (begin_cases e k' fp' now Ho) as [[_ E]|[E _]]; rewrite E in Hk; rewrite ?E;
      [|by eapply explained_app, Hx].
    rewrite start_records in Hk by done.
    apply lookup_insert_Some in Hk as [[<- <-]|[_ Hk]]; [|by eapply explained_app, Hx].
    exists now. rewrite start_eq; simpl. set_solver.
  - destruct (complete_cases e tok o' now Ho) as [(fp' & l & Hk' & E)|[E _]]; rewrite E in Hk; rewrite ?E;
      [|by eapply explained_app, Hx].
    unfold records in Hk; simpl in Hk. rewrite put_view in Hk by done.
    apply lookup_insert_Some in Hk as [[<- <-]|[_ Hk]]; [|by eapply explained_app, Hx].
    destruct (Hx _ _ Hk') as [now' Hin]. exists (token_fence tok), now'.
    destruct tok as [k f]; simpl in *. set_solver.
  - rewrite flush_records in Hk by done. by eapply explained_app, Hx.
  - rewrite prune_records, retain_lookup in Hk by done.
    destruct (records e !! k) eqn:E; [|done]. split_matches; simplify_eq.
    by eapply explained_app, Hx.
  - rewrite crash_records in Hk by done. by eapply explained_app, Hx.
Qed.

Lemma records_explained e tr e' :
  engine_inv e -> records e = ∅ -> esteps e tr e' ->
  forall k st, records e' !! k = Some st -> explained tr k st.
Proof.
  intros He Hemp Hs. induction Hs as [|e tr e1 ev e2 Hs IH Hs1].
  - intros k st. by rewrite Hemp, lookup_empty.
  - eapply records_explained_step; [by eapply esteps_inv | by apply IH | done].
Qed.

End steps.

(** ** The properties *)

Section properties.
Context {S : Type} `{DurableLaws S}.
Implicit Types e : Engine S.

(** C1: exactly-once effect.  Once a completion of a key has succeeded at time
    [t], then in whatever follows while the clock has not reached the expiry of
    that outcome (other workers, lease takeovers, prune sweeps, crashes and
    restarts in any order) the key is never completed again, every request that
    bears it is answered by the committed outcome (same fingerprint) or by
    [Mismatch] (another fingerprint), and the record itself is unchanged. *)
Theorem exactly_once_effect e tok o t e1 tr e2 :
  engine_inv e ->
  estep e (EvComplete tok o t (Ok tt)) e1 ->
  esteps e1 tr e2 ->
  Forall (before (expiry t (ttl_ms e))) tr ->
  exists fp,
    records e2 !! token_key tok = Some (Completed fp o t) /\
    Forall (fun ev => ~ commits (token_key tok) ev /\ answers_only (token_key tok) fp o ev) tr.
Proof.
  intros He Hs Htr Hb. pose proof (estep_inv _ _ _ He Hs) as He1.
  pose proof (estep_ttl _ _ _ Hs) as Ht. destruct He as [Ho _].
  apply estep_complete_inv in Hs as [Hr ->].
  destruct (complete_ok_inv e tok o t Ho ltac:(congruence)) as (fp & l & _ & Hrec).
  exists fp. eapply completed_steps; [done| |done|by rewrite Ht].
  rewrite Hrec. apply lookup_insert_eq.
Qed.

(** C10: fencing.  When a request starts or takes over key [k] and is given a
    token, no token of [k] with a lower fence commits afterwards, across further
    takeovers, prune sweeps and crashes, as long as the injected clock stays in
    one window of TTL length and the fence counter does not reach 2^64. *)
Theorem stale_token_never_commits e k fp now tok e1 tr e2 t0 :
  engine_inv e -> fences_below e ->
  estep e (EvBegin k fp now (Begin_Run tok)) e1 ->
  esteps e1 tr e2 ->
  next_fence e + 1 + Z.of_nat (length tr) < 2 ^ 64 ->
  t0 + ttl_ms e < 2 ^ 64 ->
  Forall (not_before t0) tr -> Forall (before (t0 + ttl_ms e)) tr ->
  Forall (fun ev => ~ stale_commit k (fence_no (token_fence tok)) ev) tr.
Proof.
  intros He Hf Hs Htr Hlt Hw Hnb Hb. pose proof (estep_inv _ _ _ He Hs) as He1.
  pose proof (estep_ttl _ _ _ Hs) as Ht.
  destruct (estep_fences e _ e1 He Hf ltac:(lia) Hs) as [Hf1 Hn1].
  rewrite <- Ht in *. destruct He as [Ho _].
  apply estep_begin_inv in Hs as [Hr ->].
  destruct (begin_run_inv e k fp now tok Ho ltac:(congruence)) as (-> & E & _).
  eapply superseded_steps; [exact He1 | done | done | lia | | done..].
  unfold superseded. rewrite E, start_records, lookup_insert_eq by done. simpl. lia.
Qed.

(** One runner at a time.  When a request is told to run a key at [now], no
    other request with that key is told to run (whatever its fingerprint) until
    the lease of the first ends, through completions, stale workers, prune
    sweeps, crashes and restarts in any order, as long as the clock does not go
    back before [now] and stays within one time-to-live. *)
Theorem single_runner e k fp now tok e1 tr e2 :
  engine_inv e -> estep e (EvBegin k fp now (Begin_Run tok)) e1 -> esteps e1 tr e2 ->
  now + ttl_ms e < 2 ^ 64 ->
  Forall (timed (in_lease now (saturating_add 64 now (lease_ms e)) (ttl_ms e))) tr ->
  Forall (fun ev => ~ runs k ev) tr.
Proof.
  intros He Hs Htr Hw Ht. pose proof (estep_inv _ _ _ He Hs) as He1. pose proof (estep_ttl _ _ _ Hs) as Httl.
  rewrite <- Httl in *. apply estep_begin_inv in Hs as [Hr ->].
  eapply held_steps; [exact He1 | done | | done | done]. eapply run_held; [apply He | by rewrite <- Hr | lia].
Qed.

(** C11: provenance of replays (mismatch safety).  In every history that starts
    from an engine without records, an outcome is replayed to a request only if
    an earlier request with the same key and the same fingerprint was told to
    run, and the token it was given committed exactly that outcome, which has
    not expired. *)
Theorem replay_provenance e tr e1 k fp now o e2 :
  engine_inv e -> records e = ∅ ->
  esteps e tr e1 ->
  estep e1 (EvBegin k fp now (Begin_Replay o)) e2 ->
  exists f t0 t,
    EvBegin k fp t0 (Begin_Run (MkRunToken k f)) ∈ tr /\
    EvComplete (MkRunToken k f) o t (Ok tt) ∈ tr /\
    now < expiry t (ttl_ms e).
Proof.
  intros He Hemp Htr Hs. pose proof (esteps_inv _ _ _ He Htr) as [Ho1 _].
  apply estep_begin_inv in Hs as [Hr ->]. unfold begin in Hr.
  rewrite get_view in Hr by done. fold (records e1) in Hr.
  destruct (records e1 !! k) as [[f fp' l|fp' o' t]|] eqn:Hk; simpl in Hr.
  - case_decide; case_cmp; done.
  - case_cmp; [done|]. case_decide; [|done]. simplify_eq/=.
    destruct (records_explained e tr e1 He Hemp Htr _ _ Hk) as (f & t0 & Hb & Hc).
    rewrite (esteps_ttl _ _ _ Htr) in *. eauto 10.
  - done.
Qed.

(** The fences of the tokens handed out in a history, in order. *)
Definition minted (tr : list Event) : list Z :=
  omap (fun ev => match ev with
                  | EvBegin _ _ _ (Begin_Run tok) => Some (fence_no (token_fence tok))
                  | _ => None
                  end) tr.

Lemma minted_step e ev e1 :
  engine_ok e -> ev <> EvCrash -> next_fence e + 1 < 2 ^ 64 -> 0 <= next_fence e ->
  estep e ev e1 ->
  (minted [ev] = [] /\ next_fence e1 = next_fence e) \/
  (minted [ev] = [next_fence e] /\ next_fence e1 = next_fence e + 1).
Proof.
  intros Ho Hc Hlt Hge Hs. destruct Hs as [e k' fp' now Hn Ha|e tok o' now Hn Ha|e|e now|e s' Hrec].
  - destruct (begin_cases e k' fp' now Ho) as [[_ E]|[E En]]; rewrite ?E.
    + right. rewrite start_eq; simpl. split; [done|]. apply wrapping_add_small. lia.
    + left. split; [|done]. unfold minted; simpl.
      destruct ((begin e k' fp' now).1) as [tok| | |]; [by destruct (En tok) | done..].
  - left. split; [done|]. apply complete_frame.
  - by left.
  - by left.
  - done.
Qed.

(** Within one process lifetime (no crash) the fences handed out are
    strictly increasing, so no two tokens share one: the counter starts at the
    engine's [next_fence] and each run is given a fence above all earlier ones,
    while the counter stays below 2^64. *)
Theorem fences_strictly_increase e tr e1 :
  engine_inv e -> esteps e tr e1 -> EvCrash ∉ tr ->
  next_fence e + Z.of_nat (length tr) < 2 ^ 64 ->
  StronglySorted Z.lt (minted tr) /\
  Forall (fun f => next_fence e <= f < next_fence e1) (minted tr) /\
  next_fence e <= next_fence e1 <= next_fence e + Z.of_nat (length tr).
Proof.
  intros He Hs Hc Hlt. induction Hs as [e|e tr e1 ev e2 Hs IH Hs1].
  { split_and!; [constructor | constructor | lia | simpl; lia]. }
  rewrite length_app in *; simpl in *. destruct IH as (Hsort & Hall & Hn); [done|set_solver|lia|].
  pose proof (esteps_inv _ _ _ He Hs) as [Ho1 (Hr1 & _)]. unfold in_uint in Hr1.
  assert (minted (tr ++ [ev]) = minted tr ++ minted [ev]) as -> by apply omap_app.
  assert (ev <> EvCrash) as Hev by (intros E; apply Hc, elem_of_app; right; rewrite E; left).
  destruct (minted_step e1 ev e2) as [[-> En]|[-> En]]; [done | done | lia | lia | done |..].
  - rewrite app_nil_r, En. split_and!; [done | done | lia | lia].
  - split_and!; [| |lia|lia].
    + apply StronglySorted_app. split_and!; [|done|by repeat constructor].
      intros x y Hx ->%list_elem_of_singleton. rewrite Forall_forall in Hall.
      apply Hall in Hx. lia.
    + apply Forall_app. split; [|repeat constructor; lia].
      eapply Forall_impl; [exact Hall|]. simpl. lia.
Qed.

End properties.
