(* ===== verification/EngineSpec.v ===== *)
(** * What the engine promises on a single shard

    Availability (when a request may run, and what a run leads to), the
    harmlessness of the prune sweep, and storage transparency: an engine over
    any lawful store answers every sequence of operations exactly as the
    reference engine over a plain map. *)

From S2P Require Import Prelude Machine Types Store Engine.

(** The operations of a shard as data, for sequences of them. *)
Inductive Op :=
| OpBegin (k : IdempotencyKey) (fp : RequestFingerprint) (now : Z)
| OpComplete (tok : RunToken) (o : CachedOutcome) (now : Z)
| OpFlush
| OpPrune (now : Z).

Inductive Reply :=
| ReplyBegin (r : Begin)
| ReplyComplete (r : result unit CompleteError)
| ReplyUnit.

Section runs.
Context {S : Type} `{Store S}.

Definition run_op (e : Engine S) (op : Op) : Reply * Engine S :=
  match op with
  | OpBegin k fp now => let (r, e') := begin e k fp now in (ReplyBegin r, e')
  | OpComplete tok o now => let (r, e') := complete e tok o now in (ReplyComplete r, e')
  | OpFlush => (ReplyUnit, flush e)
  | OpPrune now => (ReplyUnit, prune_expired e now)
  end.

Fixpoint run_ops (e : Engine S) (ops : list Op) : list Reply * Engine S :=
  match ops with
  | [] => ([], e)
  | op :: ops =>
      let (r, e1) := run_op e op in
      let (rs, e2) := run_ops e1 ops in (r :: rs, e2)
  end.

End runs.

Section spec.
Context {S : Type} `{StoreLaws S}.
Implicit Types e : Engine S.

(** A key that nobody holds for a request with fingerprint [fp]: no record, an
    expired outcome, or an expired lease of the same request. *)
Definition available e (k : IdempotencyKey) (fp : RequestFingerprint) (now : Z) : Prop :=
  match records e !! k with
  | None => True
  | Some (Completed _ _ t) => expiry t (ttl_ms e) <= now
  | Some (InProgress _ fp' lease) => fp' = fp /\ lease <= now
  end.

Lemma available_action e k fp now :
  available e k fp now <-> begin_action (ttl_ms e) (records e !! k) fp now = Action_Start.
Proof.
  unfold available, begin_action. destruct (records e !! k) as [[f fp' l|fp' o t]|].
  - case_decide; case_cmp; (split; [intros [? ?] | intros ?]); (done || lia).
  - case_cmp; [tauto|]. case_decide; split; (lia || done).
  - done.
Qed.

Lemma begin_available e k fp now :
  engine_ok e -> available e k fp now -> begin e k fp now = start e k fp now.
Proof.
  intros Ho Ha. unfold begin. rewrite get_view by done. fold (records e).
  apply available_action in Ha. by rewrite Ha.
Qed.

(** Completing with the token of a run whose record is still there succeeds. *)
Lemma complete_current e k f fp l o now :
  engine_ok e -> records e !! k = Some (InProgress f fp l) ->
  complete e (MkRunToken k f) o now =
  (Ok tt, set_store e (put (store e) k (Completed fp o now))).
Proof.
  intros Ho Hk. unfold complete; simpl. rewrite get_view by done. fold (records e).
  rewrite Hk. by case_decide.
Qed.

(** An available key is run, and the token of the run commits. *)
Lemma run_commit e k fp now o t :
  engine_ok e -> engine_ranges e -> in_uint 64 now -> admits_request k fp -> admits_outcome k o t ->
  available e k fp now ->
  exists tok e1 e2, begin e k fp now = (Begin_Run tok, e1) /\ complete e1 tok o t = (Ok tt, e2) /\
    engine_ok e2 /\ records e2 !! k = Some (Completed fp o t) /\ ttl_ms e2 = ttl_ms e.
Proof.
  intros Ho Hr Hn Hadm Hout Ha. pose proof (begin_ok e k fp now Ho Hr Hn Hadm) as Ho1.
  pose proof (start_records e k fp now Ho) as Hrec.
  rewrite (begin_available e k fp now Ho Ha), start_eq in *. cbn [fst snd] in *. set (e1 := MkEngine _ _ _ _) in *.
  pose proof (complete_ok e1 (MkRunToken k (MkFence (next_fence e))) o t Ho1 Hout) as Ho2.
  assert (records e1 !! k = Some (started e k fp now)) as Hk by (rewrite Hrec; apply lookup_insert_eq).
  pose proof (complete_current e1 k _ fp _ o t Ho1 Hk) as Ec. rewrite Ec in Ho2. do 3 eexists.
  split_and!; [done | exact Ec | exact Ho2 | | done].
  unfold records; simpl. rewrite put_view by done. apply lookup_insert_eq.
Qed.

(** A request is told to run exactly when its key is available (never seen,
    expired, or held by a dead lease of the same request); the token it is given
    commits, and from then until the outcome expires every retry of the same
    request is answered with that outcome and changes nothing. *)
Theorem run_complete_replay e k fp now o t now' :
  engine_ok e -> engine_ranges e -> in_uint 64 now -> admits_request k fp ->
  (available e k fp now <-> exists tok, (begin e k fp now).1 = Begin_Run tok) /\
  (available e k fp now -> now' < expiry t (ttl_ms e) -> admits_outcome k o t ->
   exists tok e1 e2,
     begin e k fp now = (Begin_Run tok, e1) /\
     complete e1 tok o t = (Ok tt, e2) /\
     begin e2 k fp now' = (Begin_Replay o, e2)).
Proof.
  intros Ho Hr Hn Hadm. split.
  - split.
    + intros Ha. rewrite (begin_available e k fp now Ho Ha). by eexists.
    + intros [tok Htok]. apply available_action. by eapply begin_run_inv.
  - intros Ha Hlt Hout. destruct (run_commit e k fp now o t) as (tok & e1 & e2 & Eb & Ec & Ho2 & Hk & Ht); [done..|].
    exists tok, e1, e2. split_and!; [done..|]. unfold begin. rewrite get_view by done. fold (records e2).
    rewrite Hk. simpl. rewrite Ht. case_cmp; [lia|]. by case_decide.
Qed.

(** The prune sweep is invisible to requests.  A request at or after the
    time of the sweep gets the same decision with and without it, and leaves the
    same record under its key; in-progress records survive every sweep. *)
Theorem prune_transparent e k fp now now' :
  engine_ok e -> now <= now' ->
  (begin (prune_expired e now) k fp now').1 = (begin e k fp now').1 /\
  (available e k fp now' ->
   records (begin (prune_expired e now) k fp now').2 !! k = records (begin e k fp now').2 !! k) /\
  (forall k' f fp' l, records e !! k' = Some (InProgress f fp' l) ->
     records (prune_expired e now) !! k' = Some (InProgress f fp' l)).
Proof.
  intros Ho Hle. pose proof (prune_expired_ok e now Ho) as Ho'.
  assert (begin_action (ttl_ms e) (records (prune_expired e now) !! k) fp now' =
          begin_action (ttl_ms e) (records e !! k) fp now') as Hact.
  { rewrite prune_records, retain_lookup by done.
    destruct (records e !! k) as [[f fp' l|fp' o t]|]; [done| |done].
    simpl. case_cmp; simpl; case_cmp; (done || lia). }
  split_and!.
  - unfold begin. rewrite !get_view by done. fold (records e) (records (prune_expired e now)).
    change (ttl_ms (prune_expired e now)) with (ttl_ms e). rewrite Hact. clear Hact. by destruct (begin_action _ _ _ _).
  - intros Ha. rewrite (begin_available e k fp now' Ho Ha).
    rewrite (begin_available (prune_expired e now) k fp now' Ho').
    + rewrite !start_records by done. by rewrite !lookup_insert_eq.
    + apply available_action. change (ttl_ms (prune_expired e now)) with (ttl_ms e). rewrite Hact. by apply available_action.
  - intros k' f fp' l Hk. by rewrite prune_records, retain_lookup, Hk.
Qed.

(** ** Storage transparency *)

(** The operation hands the store only records it can represent. *)
Definition op_admissible (op : Op) : Prop :=
  match op with
  | OpBegin k fp now => in_uint 64 now /\ admits_request k fp
  | OpComplete tok o now => admits_outcome (token_key tok) o now
  | OpFlush | OpPrune _ => True
  end.

(** The engine and the reference engine over a plain map hold the same records
    and the same counters. *)
Definition simulates e (m : Engine MemoryStore) : Prop :=
  engine_ok e /\ engine_ranges e /\ records e = keys (store m) /\
  next_fence e = next_fence m /\ lease_ms e = lease_ms m /\ ttl_ms e = ttl_ms m.

Lemma simulates_op e m op :
  simulates e m -> op_admissible op ->
  (run_op e op).1 = (run_op m op).1 /\ simulates (run_op e op).2 (run_op m op).2.
Proof.
  intros (Ho & Hr & Hrec & Hf & Hl & Ht) Hadm. destruct op as [k fp now|tok o now| |now]; simpl in *.
  - destruct Hadm as [Hn Hadm]. pose proof (begin_ok e k fp now Ho Hr Hn Hadm) as Ho'.
    pose proof (begin_ranges e k fp now Hr) as Hr'. unfold simulates.
    destruct (begin_cases e k fp now Ho) as [[Ha E]|[E En]].
    + assert (begin m k fp now = start m k fp now) as Em.
      { unfold begin at 1. simpl. unfold MemoryStore_get. by rewrite <- Hrec, <- Ht, Ha. }
      pose proof (start_records e k fp now Ho) as Hsr. rewrite E in *.
      rewrite Em. rewrite start_eq in *; simpl in *. unfold start, mint_fence; simpl.
      split; [by rewrite Hf|]. split_and!; simpl; try done; [| by rewrite Hf].
      rewrite Hsr, Hrec. unfold started, MemoryStore_put; simpl. by rewrite Hf, Hl.
    + revert Ho' Hr' E En. unfold begin; simpl. unfold MemoryStore_get.
      rewrite get_view by done. fold (records e). rewrite <- Hrec, <- Ht.
      destruct (begin_action _ _ _ _); simpl; intros; [by destruct (En (MkRunToken k (MkFence (next_fence e))))|..];
        (split; [done | by split_and!]).
  - pose proof (complete_ok e tok o now Ho Hadm) as Ho'. unfold simulates.
    destruct (complete_frame e tok o now) as (Ef & El & Et).
    revert Ho' Ef El Et. unfold complete; simpl. unfold MemoryStore_get.
    rewrite get_view by done. fold (records e). rewrite <- Hrec.
    destruct (records e !! token_key tok) as [[f fp l|fp o' t]|]; [case_decide|..]; simpl;
      intros; split_and!; try done.
    unfold records; simpl. rewrite put_view by done. by fold (records e); rewrite Hrec.
  - split; [done|]. split_and!; try done; [by apply engine_flush_ok | by rewrite flush_records].
  - split; [done|]. split_and!; try done; [by apply prune_expired_ok|].
    rewrite prune_records by done. by rewrite Hrec, Ht.
Qed.

Lemma run_ops_simulates e m ops :
  simulates e m -> Forall op_admissible ops ->
  (run_ops e ops).1 = (run_ops m ops).1 /\ simulates (run_ops e ops).2 (run_ops m ops).2.
Proof.
  intros Hsim Hadm. revert e m Hsim. induction Hadm as [|op ops Hop _ IH]; intros e m Hsim; [done|].
  destruct (simulates_op e m op Hsim Hop) as [Hr Hsim1]. simpl.
  destruct (run_op e op) as [r e1], (run_op m op) as [r' m1]; simpl in *; subst.
  destruct (IH e1 m1 Hsim1) as [Hrs Hsim2].
  destruct (run_ops e1 ops) as [rs e2], (run_ops m1 ops) as [rs' m2]; simpl in *. by subst.
Qed.

(** C13: storage transparency.  An engine over any store that keeps its laws (the
    write-ahead log, a replicated store) answers every sequence of operations
    exactly as the engine over the in-memory map, and ends with the same
    records, fences and configuration. *)
Theorem engine_refines_memory e m ops :
  simulates e m -> Forall op_admissible ops ->
  (run_ops e ops).1 = (run_ops m ops).1 /\ simulates (run_ops e ops).2 (run_ops m ops).2.
Proof. apply run_ops_simulates. Qed.

End spec.

(** Two engines over lawful stores that hold the same records and counters
    answer alike. *)
Lemma run_ops_agree {S S' : Type} `{StoreLaws S} `{StoreLaws S'} (e : Engine S) (e' : Engine S') ops :
  engine_ok e -> engine_ok e' -> engine_ranges e -> records e = records e' ->
  next_fence e = next_fence e' -> lease_ms e = lease_ms e' -> ttl_ms e = ttl_ms e' ->
  Forall (op_admissible (S := S)) ops -> Forall (op_admissible (S := S')) ops ->
  (run_ops e ops).1 = (run_ops e' ops).1 /\ records (run_ops e ops).2 = records (run_ops e' ops).2.
Proof.
  intros Ho Ho' Hr Hrec Hf Hl Ht Ha Ha'.
  set (m := MkEngine (MkMemoryStore (records e)) (lease_ms e) (ttl_ms e) (next_fence e)).
  destruct (run_ops_simulates e m ops) as [-> (_ & _ & -> & _)]; [by split_and! | done|].
  destruct (run_ops_simulates e' m ops) as [-> (_ & _ & -> & _)]; [|done|done].
  split_and!; try done. unfold engine_ranges in *. by rewrite <- Hf, <- Hl, <- Ht.
Qed.
