(* ===== verification/Suite.v ===== *)
(** * Client programs

    The unit tests of the repository are programs that call an engine or a
    store and panic when an answer is not the expected one.  A test of the
    engine is a [Script]: a tree of calls with a continuation for the reply.
    Its verdict depends on the store only through the records the store
    represents, so a script that passes over the in-memory map passes over
    every lawful store ([script_transfers]). *)

From S2P Require Import Prelude Machine Str Decimal Types Store Engine EngineSpec.

(** ** Assertions *)

(** [assert!], in a test body of type [option unit]: [None] is a panic. *)
Definition ensure (b : bool) : option unit := if b then Some tt else None.

(** [Result::ok], for [expect] and [unwrap] on a result. *)
Definition unwrap {A E} (r : result A E) : option A :=
  match r with Ok a => Some a | Err _ => None end.

(** [for x in l { body(x) }] where the body keeps no state. *)
Fixpoint for_all {A} (l : list A) (body : A -> option unit) : option unit :=
  match l with
  | [] => Some tt
  | x :: l => body x;; for_all l body
  end.

(** [for x in l { st = body(st, x) }]. *)
Fixpoint for_each {A B} (l : list A) (st : B) (body : B -> A -> option B) : option B :=
  match l with
  | [] => Some st
  | x :: l => st' ← body st x; for_each l st' body
  end.

(** The range [a..b]. *)
Definition range (a b : Z) : list Z := map (fun i => a + Z.of_nat i) (seq 0 (Z.to_nat (b - a))).

(** [format!("{prefix}{i}")]. *)
Definition numbered (prefix : string) (i : Z) : string :=
  String.append prefix (str_of_bytes (display_uint i)).

(** One step of the 64-bit xorshift generator that the tests use. *)
Definition xorshift64 (x : Z) : Z :=
  let x := Z.lxor x (shl 64 x 13) in
  let x := Z.lxor x (Z.shiftr x 7) in
  Z.lxor x (shl 64 x 17).

Lemma xorshift64_range x : in_uint 64 x -> in_uint 64 (xorshift64 x).
Proof. intros Hx. cbv zeta delta [xorshift64 shl].
  repeat first [apply lxor_in_uint | apply shiftr_in_uint | apply wrap_range]; (done || lia).
Qed.

Lemma numbered_bytes p i : str_bytes (numbered p i) = str_bytes p ++ display_uint i.
Proof. unfold numbered. change (String.append p ?s) with (p +:+ s). by rewrite str_bytes_app, str_bytes_of_bytes. Qed.

Lemma numbered_inj p i j : in_uint 64 i -> in_uint 64 j -> numbered p i = numbered p j -> i = j.
Proof.
  intros Hi Hj E%(f_equal str_bytes). rewrite !numbered_bytes in E. apply app_inv_head in E.
  by apply display_uint_inj.
Qed.

(** A name of plain characters with a number is a string. *)
Lemma numbered_is_str p i :
  Forall (fun b => byte_in 0 127 b = true) (str_bytes p) -> 0 <= i -> is_str (numbered p i).
Proof.
  intros Hp Hi. unfold is_str. rewrite numbered_bytes. apply utf8_valid_ascii, Forall_app. split; [done|].
  eapply Forall_impl; [by apply display_uint_digits|]. intros b. unfold is_digit, byte_in. lia.
Qed.

Lemma dec_digits_length fuel z acc : (length (dec_digits fuel z acc) <= fuel + length acc)%nat.
Proof.
  revert z acc; induction fuel as [|fuel IH]; intros z acc; [done|]. cbn [dec_digits].
  destruct (z / 10 =? 0); [simpl; lia|]. etrans; [apply IH|]. simpl. lia.
Qed.

Lemma numbered_length p i : (length (str_bytes (numbered p i)) <= length (str_bytes p) + 20)%nat.
Proof. rewrite numbered_bytes, length_app. pose proof (dec_digits_length 20 i []) as H.
  change (length (@nil byte)) with 0%nat in H. unfold display_uint. lia.
Qed.

Lemma for_all_Some {A} (l : list A) body :
  Forall (fun x => body x = Some tt) l -> for_all l body = Some tt.
Proof. induction 1 as [|x l Hx _ IH]; simpl; [done|]. by rewrite Hx. Qed.

Lemma for_each_inv {A B} (P : B -> Prop) (l : list A) st body :
  P st -> (forall st x, x ∈ l -> P st -> exists st', body st x = Some st' /\ P st') ->
  exists st', for_each l st body = Some st' /\ P st'.
Proof.
  revert st; induction l as [|x l IH]; intros st Hst Hstep; simpl; [eauto|].
  destruct (Hstep st x) as (st' & -> & Hst'); [left | done|]. simpl. apply IH; [done|].
  intros st2 y Hy. apply Hstep. by right.
Qed.

(** One step of a test body, as equations: unlike reduction they leave the rest
    of the body alone. *)
Lemma bind_some {A B} (x : A) (f : A -> option B) : mbind f (Some x) = f x.
Proof. done. Qed.

Lemma unwrap_ok {A E} (x : A) : unwrap (E := E) (Ok x) = Some x.
Proof. done. Qed.

Lemma ensure_bind {B} (b : bool) (f : unit -> option B) : b = true -> mbind f (ensure b) = f tt.
Proof. by intros ->. Qed.

Lemma assert_ne (P : Prop) `{!Decision P} : ~ P -> negb (bool_decide P) = true.
Proof. intros HP. by rewrite bool_decide_false. Qed.

Lemma ensure_true (b : bool) : b = true -> ensure b = Some tt.
Proof. by intros ->. Qed.

Lemma elem_of_range a b i : i ∈ range a b <-> a <= i < b.
Proof.
  unfold range. rewrite list_elem_of_fmap. setoid_rewrite elem_of_seq. split.
  - intros (n & -> & ?). lia.
  - intros ?. exists (Z.to_nat (i - a)). lia.
Qed.

Lemma range_snoc a b : a <= b -> range a (b + 1) = range a b ++ [b].
Proof.
  intros Hab. unfold range. replace (Z.to_nat (b + 1 - a)) with (S (Z.to_nat (b - a))) by lia.
  rewrite seq_S, map_app. simpl. do 2 f_equal. lia.
Qed.

Lemma for_each_snoc {A B} (l : list A) x (st : B) body :
  for_each (l ++ [x]) st body = (st' ← for_each l st body; body st' x).
Proof.
  revert st; induction l as [|y l IH]; intros st; simpl; [by destruct (body st x)|].
  destruct (body st y) as [st'|]; [apply IH | done].
Qed.

(** A loop over a range, with an invariant that follows the counter. *)
Lemma for_each_range {B} (P : Z -> B -> Prop) st n body :
  0 <= n -> P 0 st -> (forall st i, 0 <= i < n -> P i st -> exists st', body st i = Some st' /\ P (i + 1) st') ->
  exists st', for_each (range 0 n) st body = Some st' /\ P n st'.
Proof.
  intros Hn H0. revert n Hn. apply (natlike_ind (fun n => (forall st i, 0 <= i < n -> _ -> _) -> _)); [eauto|].
  intros n Hn IH Hstep. destruct IH as (st1 & E1 & H1); [intros ???; apply Hstep; lia|].
  destruct (Hstep st1 n) as (st2 & E2 & H2); [lia | done|]. exists st2.
  unfold Z.succ. by rewrite range_snoc, for_each_snoc, E1 by done.
Qed.

(** ** Scripts *)

(** A program that calls an engine and returns a value, or panics. *)
Inductive Script (A : Type) :=
| Call (op : Op) (cont : Reply -> Script A)
| Return (a : A)
| Panic.
Arguments Call {A} op cont.
Arguments Return {A} a.
Arguments Panic {A}.

Declare Scope script_scope.
Delimit Scope script_scope with script.
Bind Scope script_scope with Script.

(** Call, bind the answer, go on. *)
Notation "'let*' x := m 'in' t" := (m (fun x => t))
  (at level 10, x binder, t at level 200, only parsing) : script_scope.

Section calls.
Context {A : Type}.
#[local] Open Scope script_scope.

Definition call_begin (k : IdempotencyKey) (fp : RequestFingerprint) (now : Z)
    (cont : Begin -> Script A) : Script A :=
  Call (OpBegin k fp now) (fun r => match r with ReplyBegin b => cont b | _ => Panic end).

Definition call_complete (tok : RunToken) (o : CachedOutcome) (now : Z)
    (cont : result unit CompleteError -> Script A) : Script A :=
  Call (OpComplete tok o now) (fun r => match r with ReplyComplete c => cont c | _ => Panic end).

Definition call_flush (t : Script A) : Script A := Call OpFlush (fun _ => t).

Definition call_prune (now : Z) (t : Script A) : Script A := Call (OpPrune now) (fun _ => t).

Definition assert_then (b : bool) (t : Script A) : Script A := if b then t else Panic.

(** [begin] that must answer [Run]. *)
Definition expect_run (k : IdempotencyKey) (fp : RequestFingerprint) (now : Z)
    (cont : RunToken -> Script A) : Script A :=
  let* b := call_begin k fp now in
  match b with Begin_Run token => cont token | _ => Panic end.

(** [begin] that must answer [Replay]. *)
Definition expect_replay (k : IdempotencyKey) (fp : RequestFingerprint) (now : Z)
    (cont : CachedOutcome -> Script A) : Script A :=
  let* b := call_begin k fp now in
  match b with Begin_Replay o => cont o | _ => Panic end.

(** [complete] that must succeed. *)
Definition complete_unwrap (token : RunToken) (o : CachedOutcome) (now : Z) (t : Script A) : Script A :=
  let* r := call_complete token o now in
  match r with Ok _ => t | Err _ => Panic end.

End calls.

Section scripts.
Context {S A : Type} `{Store S}.

(** What the script returns ([None] if it panicked), and the engine then. *)
Fixpoint run_script (e : Engine S) (t : Script A) : option A * Engine S :=
  match t with
  | Call op cont => let (r, e') := run_op e op in run_script e' (cont r)
  | Return a => (Some a, e)
  | Panic => (None, e)
  end.

(** A property of the store that every operation on it keeps. *)
Context (Q : S -> Prop).
Hypothesis Q_put : forall s k st, Q s -> Q (put s k st).
Hypothesis Q_flush : forall s, Q s -> Q (Store.flush s).
Hypothesis Q_compact : forall s keep, Q s -> Q (compact s keep).

Lemma run_op_keeps (e : Engine S) op : Q (store e) -> Q (store (run_op e op).2).
Proof.
  intros HQ. destruct op as [k fp now|tok o now| |now]; simpl; auto.
  - unfold begin. destruct (begin_action _ _ _ _); simpl; auto.
  - unfold complete. split_matches; simpl; auto.
Qed.

Lemma run_script_keeps t : forall (e : Engine S), Q (store e) -> Q (store (run_script e t).2).
Proof.
  induction t as [op cont IH| |]; intros e HQ; [|done..]. cbn [run_script].
  pose proof (run_op_keeps e op HQ). destruct (run_op e op) as [r e']. by apply IH.
Qed.

End scripts.

Section transfer.
Context {S A : Type} `{StoreLaws S}.

(** Every operation of the run on the reference engine hands the store only
    records it can represent. *)
Fixpoint script_admissible (m : Engine MemoryStore) (t : Script A) : Prop :=
  match t with
  | Call op cont =>
      op_admissible (S := S) op /\ script_admissible (run_op m op).2 (cont (run_op m op).1)
  | Return _ | Panic => True
  end.

(** The verdict of a script is that of the in-memory store. *)
Lemma script_transfers t : forall (e : Engine S) m,
  simulates e m -> script_admissible m t ->
  (run_script e t).1 = (run_script m t).1 /\ simulates (run_script e t).2 (run_script m t).2.
Proof.
  induction t as [op cont IH| |]; intros e m Hsim; [|done..]. intros [Hop Hadm].
  destruct (simulates_op e m op Hsim Hop) as [Hr Hsim']. cbn [run_script].
  destruct (run_op e op) as [r e'], (run_op m op) as [r' m']; cbn [fst snd] in *. subst.
  by apply IH.
Qed.

End transfer.
