(* ===== verification/Replication.v ===== *)
(** * Synchronous replication ([onced-core/src/replication.rs])

    A [ReplicatedStore] writes every record to all of its nodes before a write
    returns.  Its invariant is that all nodes represent the same records; it is
    then a lawful, durable [Store] whenever its nodes are, and any node can take
    over from the rest, also when the process died in the middle of a write, which
    goes through the nodes one after another. *)

From S2P Require Import Prelude Machine Types Store Engine History EngineSpec.

Record ReplicatedStore (S : Type) := MkReplicated { replicas : list S }.
Arguments MkReplicated {S} _.
Arguments replicas {S} _.

Section replicated.
Context {S : Type} `{Store S}.
Implicit Types s : ReplicatedStore S.

(** The assertion of the constructor: [None] is the panic on an empty list. *)
Definition ReplicatedStore_new (replicas : list S) : option (ReplicatedStore S) :=
  if bool_decide (length replicas = 0%nat) then None else Some (MkReplicated replicas).

Definition node_count s : Z := Z.of_nat (length (replicas s)).

(** [replicas[0]]; the constructor rules the empty case out. *)
Definition ReplicatedStore_get s (key : IdempotencyKey) : option KeyState :=
  match replicas s with r :: _ => get r key | [] => None end.

(** All nodes but the last, in order, then the last one. *)
Definition ReplicatedStore_put s (key : IdempotencyKey) (state : KeyState) : ReplicatedStore S :=
  let last := (length (replicas s) - 1)%nat in
  MkReplicated (map (fun r => put r key state) (take last (replicas s)) ++
                map (fun r => put r key state) (drop last (replicas s))).

Definition ReplicatedStore_flush s : ReplicatedStore S :=
  MkReplicated (map Store.flush (replicas s)).

Definition ReplicatedStore_compact s (keep : IdempotencyKey -> KeyState -> bool) : ReplicatedStore S :=
  MkReplicated (map (fun r => compact r keep) (replicas s)).

Definition ReplicatedStore_max_in_progress_fence s : Z :=
  match replicas s with r :: _ => max_in_progress_fence r | [] => 0 end.

#[export] Instance ReplicatedStore_Store : Store (ReplicatedStore S) := {
  get := ReplicatedStore_get;
  put := ReplicatedStore_put;
  max_in_progress_fence := ReplicatedStore_max_in_progress_fence;
  flush := ReplicatedStore_flush;
  compact := ReplicatedStore_compact;
}.

Lemma put_replicas s k st : replicas (ReplicatedStore_put s k st) = map (fun r => put r k st) (replicas s).
Proof. unfold ReplicatedStore_put; simpl. by rewrite <- map_app, take_drop. Qed.

End replicated.

(** ** The replicas agree *)

Section replicated_laws.
Context {S : Type} `{StoreLaws S}.
Implicit Types s : ReplicatedStore S.

(** At least one node, every node in order, all with the same records. *)
Definition replicas_agree s (m : gmap IdempotencyKey KeyState) : Prop :=
  replicas s <> [] /\ Forall (fun r => store_ok r /\ view r = m) (replicas s).

Definition ReplicatedStore_view s : gmap IdempotencyKey KeyState :=
  match replicas s with r :: _ => view r | [] => ∅ end.

Definition replicated_ok s : Prop := replicas_agree s (ReplicatedStore_view s).

Lemma agree_view s m : replicas_agree s m -> ReplicatedStore_view s = m.
Proof.
  unfold replicas_agree, ReplicatedStore_view. intros [Hne Hf].
  destruct (replicas s) as [|r rs]; [done|]. by inversion Hf as [|? ? [_ ?] _].
Qed.

Lemma agree_ok s m : replicas_agree s m -> replicated_ok s.
Proof. intros Ha. unfold replicated_ok. by rewrite (agree_view s m Ha). Qed.

(** An operation applied to every node keeps them in agreement. *)
Lemma agree_map s m m' (f : S -> S) :
  replicas_agree s m ->
  (forall r, store_ok r -> view r = m -> store_ok (f r) /\ view (f r) = m') ->
  replicas_agree (MkReplicated (map f (replicas s))) m'.
Proof.
  intros [Hne Hf] Hstep. split; simpl.
  - by destruct (replicas s).
  - apply Forall_map. eapply Forall_impl; [exact Hf|]. intros r [Ho Hv]. by apply Hstep.
Qed.

Lemma put_agree s k st :
  replicated_ok s -> admits k st ->
  replicas_agree (ReplicatedStore_put s k st) (<[k := st]> (ReplicatedStore_view s)).
Proof.
  intros Ha Hadm. pose proof (agree_map s _ (<[k := st]> (ReplicatedStore_view s)) (fun r => put r k st) Ha) as Hm.
  unfold replicas_agree in *. rewrite put_replicas. apply Hm.
  intros r Ho Hv. split; [by apply put_ok | by rewrite put_view, Hv].
Qed.

Lemma flush_agree s :
  replicated_ok s -> replicas_agree (ReplicatedStore_flush s) (ReplicatedStore_view s).
Proof.
  intros Ha. apply (agree_map s _ _ Store.flush Ha).
  intros r Ho Hv. split; [by apply flush_ok | by rewrite flush_view].
Qed.

Lemma compact_agree s keep :
  replicated_ok s -> replicas_agree (ReplicatedStore_compact s keep) (retain keep (ReplicatedStore_view s)).
Proof.
  intros Ha. apply (agree_map s _ _ (fun r => compact r keep) Ha).
  intros r Ho Hv. split; [by apply compact_ok | by rewrite compact_view, Hv].
Qed.

Lemma ok_head s : replicated_ok s -> exists r rs, replicas s = r :: rs /\ store_ok r.
Proof.
  intros [Hne Hf]. destruct (replicas s) as [|r rs]; [done|]. inversion Hf as [|? ? [? _] _]; subst. eauto.
Qed.

#[export, refine] Instance ReplicatedStore_laws : StoreLaws (ReplicatedStore S) := {
  view := ReplicatedStore_view;
  store_ok := replicated_ok;
  admits := admits;
}.
Proof.
  - intros s k Ho. destruct (ok_head s Ho) as (r & rs & E & Hr). simpl.
    unfold ReplicatedStore_get, ReplicatedStore_view. rewrite E. by apply get_view.
  - intros s k st Ho Ha. eapply agree_ok, put_agree; eauto.
  - intros s k st Ho. destruct (ok_head s Ho) as (r & rs & E & Hr). simpl.
    unfold ReplicatedStore_view. rewrite put_replicas, E. simpl. by apply put_view.
  - intros s Ho. by eapply agree_ok, flush_agree.
  - intros s Ho. by apply agree_view, flush_agree.
  - intros s keep Ho. by eapply agree_ok, compact_agree.
  - intros s keep Ho. by apply agree_view, compact_agree.
  - intros s k st Ho. destruct (ok_head s Ho) as (r & rs & E & Hr).
    unfold ReplicatedStore_view. rewrite E. by apply admitted.
Defined.

End replicated_laws.

(** ** Crashes and failover *)

Section replicated_durable.
Context {S : Type} `{DurableLaws S}.
Implicit Types s : ReplicatedStore S.

(** All nodes restart, each from what it kept. *)
Definition replicated_recover s s' : Prop := Forall2 recover (replicas s) (replicas s').

Lemma recover_agree s s' :
  replicated_ok s -> replicated_recover s s' -> replicas_agree s' (ReplicatedStore_view s).
Proof.
  intros [Hne Hf] Hr. split.
  - intros E. unfold replicated_recover in Hr. rewrite E in Hr. by apply Forall2_nil_inv_r in Hr.
  - clear Hne. revert Hf. generalize (ReplicatedStore_view s). intros m Hf.
    unfold replicated_recover in Hr. induction Hr as [|r r' rs rs' Hr _ IH]; [done|].
    inversion Hf as [|? ? [Ho Hv] Hf']; subst. constructor; [|by apply IH].
    split; [by eapply recover_ok | by apply recover_view].
Qed.

#[export, refine] Instance ReplicatedStore_durable : DurableLaws (ReplicatedStore S) :=
  { recover := replicated_recover }.
Proof.
  - intros s s' Ho Hr. exact (agree_ok s' _ (recover_agree s s' Ho Hr)).
  - intros s s' Ho Hr. exact (agree_view s' _ (recover_agree s s' Ho Hr)).
  - intros s s' Ho Hr. destruct (ok_head s Ho) as (r & rs & E & Hro). unfold replicated_recover in Hr.
    rewrite E in Hr. apply Forall2_cons_inv_l in Hr as (r' & rs' & Hr & _ & E').
    simpl. unfold ReplicatedStore_max_in_progress_fence, ReplicatedStore_view. rewrite E'.
    by eapply recover_fence.
Defined.

End replicated_durable.

(** ** Failover *)

Section failover.
Context {S : Type} `{PutCrashLaws S}.

(** The node at position [i], reopened after the process died in a [put] that had
    been through the first [n] nodes: those have the write, the next one was
    interrupted in it, the rest have not seen it. *)
Definition node_recovers (n i : nat) (r : S) (k : IdempotencyKey) (st : KeyState) (r' : S) : Prop :=
  match Nat.compare i n with
  | Lt => recover (put r k st) r'
  | Eq => recover_put r k st r'
  | Gt => recover r r'
  end.

(** Two engines hold the same records and answer the operations alike. *)
Definition alike {T T' : Type} `{StoreLaws T} `{StoreLaws T'} (ops : list Op) (e : Engine T) (e' : Engine T') : Prop :=
  records e = records e' /\ next_fence e = next_fence e' /\
  (run_ops e ops).1 = (run_ops e' ops).1 /\ records (run_ops e ops).2 = records (run_ops e' ops).2.

Lemma restarted_alike {T} `{StoreLaws T} (r : S) (s : T) lease ttl ops :
  store_ok r -> store_ok s -> view r = view s -> in_uint 64 lease -> in_uint 64 ttl ->
  max_in_progress_fence r = max_fence (view r) -> max_in_progress_fence s = max_fence (view s) ->
  Forall (op_admissible (S := S)) ops -> Forall (op_admissible (S := T)) ops ->
  alike ops (with_ttl r lease ttl) (with_ttl s lease ttl).
Proof.
  intros Hr Hs Hv Hl Ht Hfr Hfs Ha Ha'.
  assert (next_fence (with_ttl r lease ttl) = next_fence (with_ttl s lease ttl)) as Hn.
  { unfold with_ttl. cbn [next_fence]. by rewrite Hfr, Hfs, Hv. }
  split; [exact Hv|]. split; [exact Hn|].
  apply run_ops_agree; [exact Hr | exact Hs | | exact Hv | exact Hn | done..].
  split_and!; [apply wrap_range; lia | done..].
Qed.

(** C33: exactly-once survives the loss of nodes.  Take a crash of a replicated
    engine at any point of a [put] of [k], in the middle of a node's write
    included, and build an engine over any single surviving node.  It holds the
    records, has the fence counter and gives the answers to every later sequence
    of operations of the replicated engine recovered either without the write or
    with it: with it if the write had got past that node (so always when [put]
    had returned), without it if it had not reached the node, or if the crash
    came between operations. *)
Theorem failover_transparent (e : Engine (ReplicatedStore S)) k st n i r r' before after ops :
  engine_inv e -> admits k st ->
  recover (store e) before -> recover (put (store e) k st) after ->
  replicas (store e) !! i = Some r -> node_recovers n i r k st r' \/ recover r r' ->
  Forall (op_admissible (S := S)) ops ->
  let promoted := with_ttl r' (lease_ms e) (ttl_ms e) in
  let unwritten := with_ttl before (lease_ms e) (ttl_ms e) in
  let written := with_ttl after (lease_ms e) (ttl_ms e) in
  (alike ops promoted unwritten \/ alike ops promoted written) /\
  (recover (put r k st) r' -> alike ops promoted written) /\
  (recover r r' -> alike ops promoted unwritten).
Proof.
  intros [Ho (_ & Hl & Ht)] Hadm Hb Haf Hi Hr Ha promoted unwritten written.
  pose proof Ho as [_ Hf]. rewrite Forall_lookup in Hf. destruct (Hf i r Hi) as [Hro Hv].
  pose proof (put_ok (store e) k st Ho Hadm) as Ho'. pose proof (put_ok r k st Hro Hadm) as Hro'.
  assert (store_ok r' -> max_in_progress_fence r' = max_fence (view r') -> view r' = view r -> alike ops promoted unwritten) as Hun.
  { intros Hr' Hfr Hvr. apply restarted_alike; try done; [by eapply (recover_ok (store e)) | | by eapply (recover_fence (store e))].
    rewrite Hvr, (recover_view (store e) before) by done. exact Hv. }
  assert (store_ok r' -> max_in_progress_fence r' = max_fence (view r') -> view r' = <[k := st]> (view r) ->
          alike ops promoted written) as Hwr.
  { intros Hr' Hfr Hvr. apply restarted_alike; try done; [by eapply (recover_ok (put (store e) k st)) | |
      by eapply (recover_fence (put (store e) k st))].
    rewrite Hvr, (recover_view (put (store e) k st) after), put_view by done. by rewrite Hv. }
  assert (recover (put r k st) r' -> alike ops promoted written) as Hwr'.
  { intros Hrec. apply Hwr; [by eapply (recover_ok (put r k st)) | by eapply (recover_fence (put r k st))|].
    by rewrite (recover_view (put r k st)), put_view. }
  assert (recover r r' -> alike ops promoted unwritten) as Hun'.
  { intros Hrec. apply Hun; [by eapply (recover_ok r) | by eapply (recover_fence r) | by apply recover_view]. }
  split_and!; [|done|done]. destruct Hr as [Hr|Hr]; [|by left; apply Hun'].
  unfold node_recovers in Hr. destruct (Nat.compare i n); [|by right; apply Hwr' | by left; apply Hun'].
  destruct (recover_put_view r k st r' Hro Hadm Hr) as [Hvr|Hvr]; [left; apply Hun | right; apply Hwr];
    [by eapply (recover_put_ok r k st) | by eapply (recover_put_fence r k st) | done
    | by eapply (recover_put_ok r k st) | by eapply (recover_put_fence r k st) | done].
Qed.

(** A write that a crash interrupted between the nodes is not repaired when they
    are reopened together: the first node then replays an outcome that the next
    one does not have, and once the first is lost the request runs again. *)
Lemma interrupted_put_diverges (e : Engine (ReplicatedStore S)) r0 r1 rs r0' r1' rs' k f fp l o t now :
  engine_inv e -> replicas (store e) = r0 :: r1 :: rs -> records e !! k = Some (InProgress f fp l) -> l <= now ->
  admits k (Completed fp o t) -> recover (put r0 k (Completed fp o t)) r0' -> recover r1 r1' ->
  now < expiry t (ttl_ms e) ->
  (begin (with_ttl (MkReplicated (r0' :: r1' :: rs')) (lease_ms e) (ttl_ms e)) k fp now).1 = Begin_Replay o /\
  exists tok, (begin (with_ttl r1' (lease_ms e) (ttl_ms e)) k fp now).1 = Begin_Run tok.
Proof.
  intros [[_ Hf] _] Es Hk Hl Ha Hr0 Hr1 Hlt. rewrite Es in Hf.
  apply Forall_cons in Hf as [[Ho0 Hv0] [[Ho1 Hv1] _]%Forall_cons].
  change (records e) with (ReplicatedStore_view (store e)) in Hk. unfold begin, with_ttl. cbn [store ttl_ms].
  change (get (MkReplicated (r0' :: r1' :: rs')) k) with (get r0' k).
  rewrite (get_view r0') by (eapply (recover_ok (put r0 k _)); [by apply put_ok | done]).
  rewrite (recover_view (put r0 k _)), put_view, lookup_insert_eq by (done || by apply put_ok).
  rewrite (get_view r1') by (by eapply (recover_ok r1)). rewrite (recover_view r1), Hv1, Hk by done.
  unfold begin_action. rewrite !decide_True by done. 
  rewrite (proj2 (Z.leb_gt _ _) Hlt), (proj2 (Z.leb_le _ _) Hl). split; [done|]. by eexists.
Qed.

End failover.
