(* ===== verification/Hash.v ===== *)
(** * SHA-256 and HMAC-SHA256 ([onced-core/src/hash.rs])

    The arrays of the source are lists indexed from 0; a [u32] is a [Z] kept
    below 2^32 by the wrapping operations.  The functions compute, and the
    published test vectors are checked by evaluation at the end. *)

From S2P Require Import Prelude Machine Str.

Definition H_INIT : list Z :=
  [0x6a09e667; 0xbb67ae85; 0x3c6ef372; 0xa54ff53a; 0x510e527f; 0x9b05688c; 0x1f83d9ab; 0x5be0cd19].

(** The round constants of the source, which writes them in hexadecimal. *)
Definition K : list Z :=
  [1116352408; 1899447441; 3049323471; 3921009573;
   961987163; 1508970993; 2453635748; 2870763221;
   3624381080; 310598401; 607225278; 1426881987;
   1925078388; 2162078206; 2614888103; 3248222580;
   3835390401; 4022224774; 264347078; 604807628;
   770255983; 1249150122; 1555081692; 1996064986;
   2554220882; 2821834349; 2952996808; 3210313671;
   3336571891; 3584528711; 113926993; 338241895;
   666307205; 773529912; 1294757372; 1396182291;
   1695183700; 1986661051; 2177026350; 2456956037;
   2730485921; 2820302411; 3259730800; 3345764771;
   3516065817; 3600352804; 4094571909; 275423344;
   430227734; 506948616; 659060556; 883997877;
   958139571; 1322822218; 1537002063; 1747873779;
   1955562222; 2024104815; 2227730452; 2361852424;
   2428436474; 2756734187; 3204031479; 3329325298].

(** Addition of [u32]s, [wrapping_add]. *)
Definition add32 (a b : Z) : Z := wrapping_add 32 a b.
Definition rotr (n a : Z) : Z := rotate_right 32 a n.

(** ** Padding *)

(** [while message.len() % 64 != 56 { message.push(0) }], with the number of
    iterations as fuel. *)
Fixpoint pad_zeros (fuel : nat) (message : list byte) : list byte :=
  match fuel with
  | O => message
  | S fuel =>
      if (length message mod 64 =? 56)%nat then message else pad_zeros fuel (message ++ [x00])
  end.

Definition pad (data : list byte) : list byte :=
  let bit_len := wrapping_mul 64 (Z.of_nat (length data)) 8 in
  let message := pad_zeros 64 (data ++ [x80]) in
  message ++ to_be_bytes 8 bit_len.

(** [chunks_exact(n)]. *)
Fixpoint chunks_exact (fuel n : nat) (l : list byte) : list (list byte) :=
  match fuel with
  | O => []
  | S fuel =>
      if (n <=? length l)%nat then take n l :: chunks_exact fuel n (drop n l) else []
  end.

(** ** The compression loop *)

(** [w[i] = u32::from_be_bytes(..)] for [i] in [0..16]. *)
Definition schedule_load (block : list byte) (w : list Z) (i : nat) : list Z :=
  <[i := from_be_bytes (take 4 (drop (i * 4) block))]> w.

(** The step of the loop [for i in 16..64]. *)
Definition schedule_extend (w : list Z) (i : nat) : list Z :=
  let w15 := w !!! (i - 15)%nat in
  let w2 := w !!! (i - 2)%nat in
  let s0 := Z.lxor (Z.lxor (rotr 7 w15) (rotr 18 w15)) (Z.shiftr w15 3) in
  let s1 := Z.lxor (Z.lxor (rotr 17 w2) (rotr 19 w2)) (Z.shiftr w2 10) in
  <[i := add32 (add32 (add32 (w !!! (i - 16)%nat) s0) (w !!! (i - 7)%nat)) s1]> w.

Definition schedule (block : list byte) : list Z :=
  let w := fold_left (schedule_load block) (seq 0 16) (replicate 64 0) in
  fold_left schedule_extend (seq 16 48) w.

(** One round; the eight assignments read the old values. *)
Definition round (w : list Z) (v : list Z) (i : nat) : list Z :=
  let v0 := v !!! 0%nat in let v1 := v !!! 1%nat in
  let v2 := v !!! 2%nat in let v3 := v !!! 3%nat in
  let v4 := v !!! 4%nat in let v5 := v !!! 5%nat in
  let v6 := v !!! 6%nat in let v7 := v !!! 7%nat in
  let s1 := Z.lxor (Z.lxor (rotr 6 v4) (rotr 11 v4)) (rotr 25 v4) in
  let ch := Z.lxor (Z.land v4 v5) (Z.land (bit_not 32 v4) v6) in
  let t1 := add32 (add32 (add32 (add32 v7 s1) ch) (K !!! i)) (w !!! i) in
  let s0 := Z.lxor (Z.lxor (rotr 2 v0) (rotr 13 v0)) (rotr 22 v0) in
  let maj := Z.lxor (Z.lxor (Z.land v0 v1) (Z.land v0 v2)) (Z.land v1 v2) in
  let t2 := add32 s0 maj in
  [add32 t1 t2; v0; v1; v2; add32 v3 t1; v4; v5; v6].

Definition compress (h : list Z) (block : list byte) : list Z :=
  let v := fold_left (round (schedule block)) (seq 0 64) h in
  zip_with add32 h v.

Definition sha256 (data : list byte) : list byte :=
  let message := pad data in
  let h := fold_left compress (chunks_exact (length message) 64 message) H_INIT in
  mjoin (to_be_bytes 4 <$> h).

(** ** HMAC *)

Definition BLOCK : nat := 64.

(** The key, hashed if it is longer than a block, zero-padded to a block. *)
Definition hmac_key (key : list byte) : list byte :=
  if (BLOCK <? length key)%nat then sha256 key ++ replicate 32 x00
  else key ++ replicate (BLOCK - length key) x00.

Definition xor_byte (a b : byte) : byte := u8_of_Z (Z.lxor (u8_to_Z a) (u8_to_Z b)).

Definition hmac_sha256 (key msg : list byte) : list byte :=
  let k := hmac_key key in
  let ipad := zip_with xor_byte (replicate BLOCK x36) k in
  let opad := zip_with xor_byte (replicate BLOCK x5c) k in
  let inner_hash := sha256 (ipad ++ msg) in
  sha256 (opad ++ inner_hash).

(** ** Hexadecimal *)

(** [char::from_digit(d, 16).unwrap()] as the byte of the character. *)
Definition from_digit (d : Z) : byte := u8_of_Z (if d <? 10 then 48 + d else 87 + d).

Definition to_hex (bytes : list byte) : string :=
  str_of_bytes (mjoin ((fun b => [from_digit (Z.shiftr (u8_to_Z b) 4);
                                  from_digit (Z.land (u8_to_Z b) 15)]) <$> bytes)).

(** A non-zero mask changes a byte. *)
Lemma xor_byte_ne b mask : mask <> x00 -> xor_byte b mask <> b.
Proof.
  intros Hm E%(f_equal u8_to_Z). apply Hm. unfold xor_byte in E. rewrite u8_to_Z_of_Z in E.
  pose proof (u8_to_Z_range b) as Hb. pose proof (u8_to_Z_range mask) as Hr.
  rewrite wrap_small in E by (by apply lxor_in_uint).
  apply (f_equal (Z.lxor (u8_to_Z b))) in E. rewrite Z.lxor_nilpotent, <- Z.lxor_assoc, Z.lxor_nilpotent, Z.lxor_0_l in E.
  rewrite <- (u8_of_Z_to_Z mask), E. done.
Qed.

(** ** Lengths *)

Lemma length_mjoin_const {A B} (f : A -> list B) n (l : list A) :
  (forall x, length (f x) = n) -> length (mjoin (f <$> l)) = (n * length l)%nat.
Proof.
  intros Hf. induction l as [|x l IH]; [simpl; lia|].
  change (mjoin (f <$> x :: l)) with (f x ++ mjoin (f <$> l)).
  rewrite length_app, Hf, IH, length_cons. lia.
Qed.

Lemma length_fold_round w v l : l <> [] -> length (fold_left (round w) l v) = 8%nat.
Proof.
  destruct l as [|i l] using rev_ind; [done|]. intros _. by rewrite fold_left_app.
Qed.

Lemma length_compress h block : length h = 8%nat -> length (compress h block) = 8%nat.
Proof.
  intros Hh. unfold compress. rewrite length_zip_with, Hh, length_fold_round; [done|].
  by rewrite <- length_zero_iff_nil, length_seq.
Qed.

Lemma length_fold_compress blocks h :
  length h = 8%nat -> length (fold_left compress blocks h) = 8%nat.
Proof. revert h; induction blocks; simpl; intros; auto using length_compress. Qed.

Lemma sha256_length data : length (sha256 data) = 32%nat.
Proof.
  unfold sha256. rewrite (length_mjoin_const _ 4%nat) by apply length_to_be_bytes.
  by rewrite length_fold_compress.
Qed.

Lemma hmac_key_length key : length (hmac_key key) = 64%nat.
Proof.
  unfold hmac_key, BLOCK. destruct (Nat.ltb_spec 64 (length key));
    rewrite length_app, ?sha256_length, length_replicate; lia.
Qed.

Lemma hmac_sha256_length key msg : length (hmac_sha256 key msg) = 32%nat.
Proof. apply sha256_length. Qed.

(** ** The padding loop *)

(** The zeros that bring a length to 56 modulo 64. *)
Definition pad_count (len : nat) : nat := (120 - len mod 64) mod 64.

Lemma pad_count_lt len : (pad_count len < 64)%nat.
Proof. apply Nat.mod_upper_bound. lia. Qed.

Lemma pad_count_spec len : ((len + pad_count len) mod 64 = 56)%nat.
Proof.
  unfold pad_count. pose proof (Nat.mod_upper_bound len 64 ltac:(lia)).
  pose proof (Nat.div_mod_eq len 64). set (r := (len mod 64)%nat) in *.
  destruct (decide (r <= 56)%nat).
  - replace (120 - r)%nat with (56 - r + 1 * 64)%nat by lia.
    rewrite Nat.Div0.mod_add, (Nat.mod_small (56 - r)) by lia.
    replace (len + (56 - r))%nat with (56 + (len / 64) * 64)%nat by lia.
    by rewrite Nat.Div0.mod_add.
  - rewrite (Nat.mod_small (120 - r)) by lia.
    replace (len + (120 - r))%nat with (56 + (len / 64 + 1) * 64)%nat by lia.
    by rewrite Nat.Div0.mod_add.
Qed.

Lemma pad_count_succ len : (len mod 64 <> 56)%nat -> pad_count len = S (pad_count (S len)).
Proof.
  intros Hne. unfold pad_count. pose proof (Nat.mod_upper_bound len 64 ltac:(lia)).
  rewrite <- (Nat.add_1_r len), <- (Nat.Div0.add_mod_idemp_l len 1). set (r := (len mod 64)%nat) in *.
  destruct (decide (r = 63)%nat) as [->|].
  { done. }
  rewrite (Nat.mod_small (r + 1)) by lia. destruct (decide (r < 56)%nat).
  - replace (120 - r)%nat with (56 - r + 1 * 64)%nat by lia.
    replace (120 - (r + 1))%nat with (55 - r + 1 * 64)%nat by lia.
    rewrite !Nat.Div0.mod_add, !Nat.mod_small by lia. lia.
  - rewrite !Nat.mod_small by lia. lia.
Qed.

Lemma pad_zeros_eq fuel message :
  (pad_count (length message) <= fuel)%nat ->
  pad_zeros fuel message = message ++ replicate (pad_count (length message)) x00.
Proof.
  revert message; induction fuel as [|fuel IH]; intros message Hf.
  - assert (pad_count (length message) = 0%nat) as -> by lia. by rewrite app_nil_r.
  - cbn [pad_zeros]. destruct (Nat.eqb_spec (length message mod 64) 56) as [E|E].
    + unfold pad_count. rewrite E. by rewrite app_nil_r.
    + rewrite (pad_count_succ _ E) in *. rewrite IH; rewrite length_app, Nat.add_1_r; [|lia].
      by rewrite <- app_assoc.
Qed.

(** The closed form of the padded message. *)
Lemma pad_eq data :
  pad data = data ++ [x80] ++ replicate (pad_count (S (length data))) x00
             ++ to_be_bytes 8 (wrapping_mul 64 (Z.of_nat (length data)) 8).
Proof.
  unfold pad. rewrite pad_zeros_eq; rewrite length_app; simpl length; rewrite Nat.add_1_r.
  - by rewrite <- !app_assoc.
  - pose proof (pad_count_lt (S (length data))). lia.
Qed.

(** The padding loop ends, and what it builds is the padding of FIPS 180-4:
    the message, the byte 0x80, the least number of zero bytes (fewer than 64)
    and the 64-bit length, in whole blocks of 64 bytes; and the padding of
    messages below 2^61 bytes is injective. *)
Theorem pad_correct data :
  (exists n, (n < 64)%nat /\
    pad data = data ++ [x80] ++ replicate n x00
               ++ to_be_bytes 8 (wrapping_mul 64 (Z.of_nat (length data)) 8)) /\
  (length (pad data) mod 64 = 0)%nat /\
  (forall data', Z.of_nat (length data) < 2 ^ 61 -> Z.of_nat (length data') < 2 ^ 61 ->
     pad data = pad data' -> data = data').
Proof.
  split_and!.
  - exists (pad_count (S (length data))). split; [apply pad_count_lt | apply pad_eq].
  - rewrite pad_eq. rewrite !length_app, length_replicate, length_to_be_bytes. simpl length.
    replace (length data + (1 + (pad_count (S (length data)) + 8)))%nat
      with (S (length data) + pad_count (S (length data)) + 8)%nat by lia.
    by rewrite <- Nat.Div0.add_mod_idemp_l, pad_count_spec.
  - intros data' Hd Hd' E. rewrite !pad_eq, !app_assoc in E.
    apply app_inj_2 in E as [E Elen]; [|by rewrite !length_to_be_bytes].
    assert (length data = length data') as Hl.
    { apply to_be_bytes_inj in Elen; [|apply wrap_range; lia..].
      unfold wrapping_mul in Elen. rewrite !wrap_small in Elen by (unfold in_uint; lia). lia. }
    rewrite Hl in E. rewrite <- !app_assoc in E. by apply app_inj_1 in E as [-> _].
Qed.

(** ** The message schedule *)

Definition sigma0 (x : Z) : Z := Z.lxor (Z.lxor (rotr 7 x) (rotr 18 x)) (Z.shiftr x 3).
Definition sigma1 (x : Z) : Z := Z.lxor (Z.lxor (rotr 17 x) (rotr 19 x)) (Z.shiftr x 10).

Lemma schedule_load_length block w i : length (schedule_load block w i) = length w.
Proof. apply length_insert. Qed.

Lemma schedule_extend_length w i : length (schedule_extend w i) = length w.
Proof. apply length_insert. Qed.

Lemma fold_insert_length {A B} (g : list A -> B -> list A) l w :
  (forall w i, length (g w i) = length w) -> length (fold_left g l w) = length w.
Proof. intros Hg. revert w; induction l as [|i l IH]; intros w; simpl; [done|]. by rewrite IH. Qed.

(** The loads of the first [n] words. *)
Lemma schedule_loads block n w t :
  (n <= length w)%nat -> (t < n)%nat ->
  fold_left (schedule_load block) (seq 0 n) w !!! t = from_be_bytes (take 4 (drop (t * 4) block)).
Proof.
  induction n as [|n IH]; intros Hn Ht; [lia|].
  rewrite seq_S, fold_left_app. cbn [fold_left]. unfold schedule_load at 1.
  destruct (decide (t = n)) as [->|Hne].
  - rewrite list_lookup_total_insert_eq; [done|].
    rewrite fold_insert_length by apply schedule_load_length. lia.
  - rewrite list_lookup_total_insert_ne by lia. apply IH; lia.
Qed.

(** An extension step writes its own word and reads earlier ones only. *)
Lemma schedule_extends w n t :
  length w = 64%nat -> (n <= 48)%nat ->
  let w' := fold_left schedule_extend (seq 16 n) w in
  ((t < 16 \/ 16 + n <= t)%nat -> w' !!! t = w !!! t) /\
  ((16 <= t < 16 + n)%nat ->
   w' !!! t = add32 (add32 (add32 (w' !!! (t - 16)%nat) (sigma0 (w' !!! (t - 15)%nat)))
                       (w' !!! (t - 7)%nat)) (sigma1 (w' !!! (t - 2)%nat))).
Proof.
  intros Hw. revert t. induction n as [|n IH]; intros t Hn; [simpl; split; [done | lia]|].
  rewrite seq_S, fold_left_app. cbn [fold_left].
  set (w1 := fold_left schedule_extend (seq 16 n) w) in *.
  assert (length w1 = 64%nat) as Hw1.
  { unfold w1. by rewrite fold_insert_length by apply schedule_extend_length. }
  assert (forall u, (u <> 16 + n)%nat -> schedule_extend w1 (16 + n) !!! u = w1 !!! u) as Hne.
  { intros u Hu. unfold schedule_extend. by rewrite list_lookup_total_insert_ne by lia. }
  split.
  - intros Ht. rewrite Hne by lia. apply IH; lia.
  - intros Ht. rewrite (Hne (t - 16)%nat), (Hne (t - 15)%nat), (Hne (t - 7)%nat), (Hne (t - 2)%nat) by lia.
    destruct (decide (t = 16 + n)%nat) as [->|Hu].
    + unfold schedule_extend. by rewrite list_lookup_total_insert_eq by lia.
    + rewrite Hne by lia. apply IH; lia.
Qed.

(** The schedule the two loops build is the message schedule of FIPS 180-4:
    64 words, the first 16 the big-endian words of the block, every later one
    given by the recurrence with the sigma functions. *)
Theorem schedule_correct block :
  length (schedule block) = 64%nat /\
  (forall t, (t < 16)%nat ->
     schedule block !!! t = from_be_bytes (take 4 (drop (t * 4) block))) /\
  (forall t, (16 <= t < 64)%nat ->
     schedule block !!! t =
     add32 (add32 (add32 (schedule block !!! (t - 16)%nat) (sigma0 (schedule block !!! (t - 15)%nat)))
              (schedule block !!! (t - 7)%nat)) (sigma1 (schedule block !!! (t - 2)%nat))).
Proof.
  unfold schedule. set (w := fold_left (schedule_load block) (seq 0 16) (replicate 64 0)).
  assert (length w = 64%nat) as Hw.
  { unfold w. by rewrite fold_insert_length by apply schedule_load_length. }
  split_and!.
  - by rewrite fold_insert_length by apply schedule_extend_length.
  - intros t Ht. destruct (schedule_extends w 48 t Hw ltac:(lia)) as [-> _]; [|lia].
    apply schedule_loads; [rewrite length_replicate; lia | done].
  - intros t Ht. apply (schedule_extends w 48 t Hw); lia.
Qed.

(** ** Published vectors *)

(** The digests of the NIST vectors (empty, one block, two blocks, and a
    message of exactly one block) and the MACs of RFC 4231 cases 1, 2 and 6 (the
    last with a key longer than a block) come out as published. *)
Theorem sha256_hmac_vectors :
  to_hex (sha256 []) = "e3b0c44298fc1c149afbf4c8996fb92427ae41e4649b934ca495991b7852b855" /\
  to_hex (sha256 (str_bytes "abc")) =
    "ba7816bf8f01cfea414140de5dae2223b00361a396177a9cb410ff61f20015ad" /\
  to_hex (sha256 (str_bytes "abcdbcdecdefdefgefghfghighijhijkijkljklmklmnlmnomnopnopq")) =
    "248d6a61d20638b8e5c026930c3e6039a33ce45964ff2167f6ecedd419db06c1" /\
  to_hex (sha256 (replicate 64 x61)) =
    "ffe054fe7ae0cb6dc65c3af9b61d5209f439851db43d0ba5997337df154668eb" /\
  to_hex (hmac_sha256 (replicate 20 x0b) (str_bytes "Hi There")) =
    "b0344c61d8db38535ca8afceaf0bf12b881dc200c9833da726e9376c2e32cff7" /\
  to_hex (hmac_sha256 (str_bytes "Jefe") (str_bytes "what do ya want for nothing?")) =
    "5bdcc146bf60754e6a042426089575c75a003f089d2739839dec58b964ec3843" /\
  to_hex (hmac_sha256 (replicate 131 xaa)
            (str_bytes "Test Using Larger Than Block-Size Key - Hash Key First")) =
    "60e431591ee0b67f0d8a26aacbf5b77f8e0bc6213728c5140546040f0ee37f54".
Proof. vm_compute. done. Qed.

Arguments sha256 : simpl never.
Arguments hmac_sha256 : simpl never.
