(* ===== verification/Crc.v ===== *)
(** * CRC-32 ([wal.rs :: crc32])

    The bit-at-a-time checksum of the log, and the fact that makes it useful:
    it tells apart any two buffers that differ in one byte. *)

From S2P Require Import Prelude Machine Str.

Definition CRC_POLY : Z := 0xEDB88320.

(** The body of the inner loop. *)
Definition crc_bit (crc : Z) : Z :=
  let mask := wrapping_neg 32 (Z.land crc 1) in
  Z.lxor (Z.shiftr crc 1) (Z.land CRC_POLY mask).

(** The body of the outer loop: one byte, eight bits. *)
Definition crc_byte (crc : Z) (b : byte) : Z :=
  Nat.iter 8 crc_bit (Z.lxor crc (u8_to_Z b)).

Definition crc32 (data : list byte) : Z :=
  bit_not 32 (fold_left crc_byte data 0xFFFFFFFF).

Arguments crc_bit : simpl never.
Arguments crc_byte : simpl never.

(** The published check values. *)
Example crc32_ieee_vectors :
  crc32 [] = 0 /\
  crc32 (str_bytes "123456789") = 0xCBF43926 /\
  crc32 (str_bytes "The quick brown fox jumps over the lazy dog") = 0x414FA339.
Proof. vm_compute. done. Qed.

Lemma crc_bit_eq x :
  crc_bit x = Z.lxor (Z.shiftr x 1) (if Z.odd x then CRC_POLY else 0).
Proof.
  unfold crc_bit. change 1 with (Z.ones 1) at 2. rewrite Z.land_ones by lia.
  change (2 ^ 1) with 2. rewrite Zmod_odd. by destruct (Z.odd x).
Qed.

Lemma crc_byte_eq x b : crc_byte x b = Nat.iter 8 crc_bit (Z.lxor x (u8_to_Z b)).
Proof. reflexivity. Qed.

#[local] Opaque crc_bit crc_byte.

Lemma crc_bit_range x : in_uint 32 x -> in_uint 32 (crc_bit x).
Proof.
  intros Hx. rewrite crc_bit_eq.
  apply lxor_in_uint; [lia | by apply shiftr_in_uint |].
  destruct (Z.odd x); unfold in_uint, CRC_POLY; lia.
Qed.

(** The polynomial's top bit keeps the bit that is shifted out. *)
Lemma crc_bit_top x : in_uint 32 x -> Z.testbit (crc_bit x) 31 = Z.odd x.
Proof.
  intros [Hx Hx']. rewrite crc_bit_eq, Z.lxor_spec, Z.shiftr_spec by lia.
  assert (Z.testbit x (31 + 1) = false) as ->.
  { destruct (decide (x = 0)) as [->|]; [apply Z.bits_0|].
    apply Z.bits_above_log2; [lia|]. apply Z.log2_lt_pow2; lia. }
  destruct (Z.odd x); [reflexivity | apply Z.bits_0].
Qed.

Lemma lxor_cancel_r a b c : Z.lxor a c = Z.lxor b c -> a = b.
Proof.
  intros E. apply (f_equal (fun z => Z.lxor z c)) in E.
  by rewrite !Z.lxor_assoc, !Z.lxor_nilpotent, !Z.lxor_0_r in E.
Qed.

Lemma crc_bit_inj x y : in_uint 32 x -> in_uint 32 y -> crc_bit x = crc_bit y -> x = y.
Proof.
  intros Hx Hy E. assert (Z.odd x = Z.odd y) as Hodd.
  { by rewrite <- (crc_bit_top x), <- (crc_bit_top y), E. }
  rewrite !crc_bit_eq, Hodd in E. apply lxor_cancel_r in E.
  rewrite !Z.shiftr_div_pow2 in E by lia. change (2 ^ 1) with 2 in E.
  pose proof (Z.div_mod x 2 ltac:(lia)). pose proof (Z.div_mod y 2 ltac:(lia)).
  rewrite !Zmod_odd in *. rewrite Hodd in *. lia.
Qed.

Lemma crc_bits_range n x : in_uint 32 x -> in_uint 32 (Nat.iter n crc_bit x).
Proof. intros Hx. induction n; simpl; auto using crc_bit_range. Qed.

Lemma crc_bits_inj n x y :
  in_uint 32 x -> in_uint 32 y -> Nat.iter n crc_bit x = Nat.iter n crc_bit y -> x = y.
Proof.
  intros Hx Hy. induction n as [|n IH]; simpl; [done|]. intros E.
  apply IH. apply crc_bit_inj; auto using crc_bits_range.
Qed.

Lemma xor_byte_range x b : in_uint 32 x -> in_uint 32 (Z.lxor x (u8_to_Z b)).
Proof.
  intros Hx. apply lxor_in_uint; [lia | done |].
  apply (in_uint_mono 8); [lia | apply u8_to_Z_range].
Qed.

Lemma crc_byte_range x b : in_uint 32 x -> in_uint 32 (crc_byte x b).
Proof. intros H. rewrite crc_byte_eq. exact (crc_bits_range 8 _ (xor_byte_range x b H)). Qed.

Lemma crc_byte_inj_state x y b :
  in_uint 32 x -> in_uint 32 y -> crc_byte x b = crc_byte y b -> x = y.
Proof.
  intros Hx Hy E. rewrite !crc_byte_eq in E.
  apply (crc_bits_inj 8 _ _ (xor_byte_range _ b Hx) (xor_byte_range _ b Hy)) in E.
  by apply lxor_cancel_r in E.
Qed.

Lemma crc_byte_inj_byte x b b' : in_uint 32 x -> crc_byte x b = crc_byte x b' -> b = b'.
Proof.
  intros Hx E. rewrite !crc_byte_eq in E.
  apply (crc_bits_inj 8 _ _ (xor_byte_range _ b Hx) (xor_byte_range _ b' Hx)) in E.
  rewrite !(Z.lxor_comm x) in E. apply lxor_cancel_r in E. by apply (inj u8_to_Z) in E.
Qed.

(** ** Folding an update function *)

Section folds.
Context {A B : Type} (P : A -> Prop) (g : A -> B -> A).
Hypothesis g_inv : forall a b, P a -> P (g a b).
Hypothesis g_inj_state : forall a a' b, P a -> P a' -> g a b = g a' b -> a = a'.
Hypothesis g_inj_item : forall a b b', P a -> g a b = g a b' -> b = b'.

Lemma fold_left_inv l a : P a -> P (fold_left g l a).
Proof using g_inv. clear g_inj_state g_inj_item. revert a; induction l; simpl; auto. Qed.

Lemma fold_left_inj l a a' : P a -> P a' -> fold_left g l a = fold_left g l a' -> a = a'.
Proof using g_inv g_inj_state.
  clear g_inj_item. revert a a'; induction l as [|b l IH]; simpl; intros a a' Ha Ha' E; [done|].
  apply IH in E; auto. by apply g_inj_state in E.
Qed.

(** Sequences that differ in one item lead to different states. *)
Lemma fold_left_one_item pre b b' post a :
  P a -> fold_left g (pre ++ b :: post) a = fold_left g (pre ++ b' :: post) a -> b = b'.
Proof using g_inv g_inj_state g_inj_item.
  intros Ha. rewrite !fold_left_app. simpl. intros E.
  apply fold_left_inj in E; auto using fold_left_inv.
  apply g_inj_item in E; auto using fold_left_inv.
Qed.

End folds.

Lemma crc_init_range : in_uint 32 0xFFFFFFFF.
Proof. unfold in_uint. lia. Qed.

Lemma crc32_range data : in_uint 32 (crc32 data).
Proof.
  unfold crc32. apply bit_not_in_uint.
  exact (fold_left_inv (in_uint 32) crc_byte crc_byte_range data _ crc_init_range).
Qed.

Lemma bit_not_inj w a b : bit_not w a = bit_not w b -> a = b.
Proof. unfold bit_not. lia. Qed.

(** Two buffers that differ in exactly one byte have different checksums. *)
Lemma crc32_one_byte pre b b' post :
  crc32 (pre ++ b :: post) = crc32 (pre ++ b' :: post) -> b = b'.
Proof.
  unfold crc32. intros E. apply bit_not_inj in E.
  exact (fold_left_one_item (in_uint 32) crc_byte crc_byte_range crc_byte_inj_state
           crc_byte_inj_byte pre b b' post _ crc_init_range E).
Qed.

Arguments crc32 : simpl never.
