(* ===== verification/Codec.v ===== *)
(** * The on-disk record codec ([onced-core/src/wal.rs], lines 46 to 278)

    One record is framed as [[payload_len: u32][crc32: u32][chain: 32][payload]].
    Offsets and lengths are [Z], as a [usize] that holds an untrusted [u32] is
    compared with the buffer before anything is read. *)

From S2P Require Import Prelude Machine Str BTreeMap Types Hash Crc.

Definition TAG_IN_PROGRESS : byte := x00.
Definition TAG_COMPLETED : byte := x01.

Definition GENESIS : list byte := replicate 32 x00.

Definition HEADER_LEN : Z := 4 + 4 + 32.

(** The length of a buffer, a [usize]. *)
Definition len {A} (l : list A) : Z := Z.of_nat (length l).

Definition compute_chain (prev_chain : list byte) (crc : Z) (payload : list byte) : list byte :=
  sha256 (prev_chain ++ to_le_bytes 4 crc ++ payload).

(** ** Writing *)

Definition put_u16 (buf : list byte) (x : Z) : list byte := buf ++ to_le_bytes 2 x.
Definition put_u32 (buf : list byte) (x : Z) : list byte := buf ++ to_le_bytes 4 x.
Definition put_u64 (buf : list byte) (x : Z) : list byte := buf ++ to_le_bytes 8 x.
(** The length is cast with [as u32]. *)
Definition put_bytes (buf bytes : list byte) : list byte := put_u32 buf (wrap 32 (len bytes)) ++ bytes.
Definition put_str (buf : list byte) (s : string) : list byte := put_bytes buf (str_bytes s).

(** The loop over the headers. *)
Definition put_headers (buf : list byte) (headers : list (string * string)) : list byte :=
  fold_left (fun buf nv => put_str (put_str buf nv.1) nv.2) headers buf.

Definition encode_payload (key : IdempotencyKey) (state : KeyState) : list byte :=
  let payload := put_str [] (key_str key) in
  match state with
  | InProgress fence fingerprint lease_expires_at_ms =>
      let payload := payload ++ [TAG_IN_PROGRESS] in
      let payload := put_u64 payload (fence_no fence) in
      let payload := payload ++ fp_bytes fingerprint in
      put_u64 payload lease_expires_at_ms
  | Completed fingerprint outcome completed_at_ms =>
      let payload := payload ++ [TAG_COMPLETED] in
      let payload := payload ++ fp_bytes fingerprint in
      let payload := put_u64 payload completed_at_ms in
      let payload := put_u16 payload (status outcome) in
      let payload := put_u32 payload (wrap 32 (len (headers outcome))) in
      let payload := put_headers payload (headers outcome) in
      put_bytes payload (body outcome)
  end.

Definition encode_record (key : IdempotencyKey) (state : KeyState) (prev_chain : list byte)
  : list byte :=
  let payload := encode_payload key state in
  let crc := crc32 payload in
  let chain := compute_chain prev_chain crc payload in
  let framed := put_u32 [] (wrap 32 (len payload)) in
  let framed := put_u32 framed crc in
  framed ++ chain ++ payload.

(** ** Reading *)

(** [buf.get(a..b)]. *)
Definition slice_get (buf : list byte) (a b : Z) : option (list byte) :=
  if (0 <=? a) && (a <=? b) && (b <=? len buf)
  then Some (take (Z.to_nat (b - a)) (drop (Z.to_nat a) buf)) else None.

(** [usize::checked_add]. *)
Definition checked_add (a b : Z) : option Z := if a + b <? 2 ^ 64 then Some (a + b) else None.

Record Reader := MkReader { buf : list byte; pos : Z }.

Definition reader_new (buf : list byte) : Reader := MkReader buf 0.

Definition reader_take (r : Reader) (n : Z) : option (list byte * Reader) :=
  end_ ← checked_add (pos r) n;
  slice ← slice_get (buf r) (pos r) end_;
  Some (slice, MkReader (buf r) end_).

Definition reader_u8 (r : Reader) : option (byte * Reader) :=
  '(s, r) ← reader_take r 1; b ← head s; Some (b, r).
Definition reader_u16 (r : Reader) : option (Z * Reader) :=
  '(s, r) ← reader_take r 2; Some (from_le_bytes s, r).
Definition reader_u32 (r : Reader) : option (Z * Reader) :=
  '(s, r) ← reader_take r 4; Some (from_le_bytes s, r).
Definition reader_u64 (r : Reader) : option (Z * Reader) :=
  '(s, r) ← reader_take r 8; Some (from_le_bytes s, r).
Definition reader_arr32 (r : Reader) : option (list byte * Reader) := reader_take r 32.
Definition reader_bytes (r : Reader) : option (list byte * Reader) :=
  '(n, r) ← reader_u32 r; reader_take r n.
Definition reader_string (r : Reader) : option (string * Reader) :=
  '(l, r) ← reader_bytes r; s ← from_utf8 l; Some (s, r).

(** [for _ in 0..header_count]: every iteration reads at least eight bytes or
    fails, so the buffer length bounds the iterations ([read_headers_fuel]). *)
Fixpoint read_headers (fuel : nat) (count : Z) (r : Reader) (headers : list (string * string))
  : option (list (string * string) * Reader) :=
  if count <=? 0 then Some (headers, r)
  else match fuel with
  | O => None
  | S fuel =>
      '(name, r) ← reader_string r;
      '(value, r) ← reader_string r;
      read_headers fuel (count - 1) r (bt_insert name value headers)
  end.

Definition decode_in_progress (r : Reader) : option KeyState :=
  '(fence, r) ← reader_u64 r;
  '(fingerprint, r) ← reader_arr32 r;
  '(lease_expires_at_ms, r) ← reader_u64 r;
  Some (InProgress (MkFence fence) (MkFingerprint fingerprint) lease_expires_at_ms).

Definition decode_completed (r : Reader) : option KeyState :=
  '(fingerprint, r) ← reader_arr32 r;
  '(completed_at_ms, r) ← reader_u64 r;
  '(status, r) ← reader_u16 r;
  '(header_count, r) ← reader_u32 r;
  '(headers, r) ← read_headers (S (length (buf r))) header_count r [];
  '(body, r) ← reader_bytes r;
  Some (Completed (MkFingerprint fingerprint) (MkOutcome status headers body) completed_at_ms).

Definition decode_payload (payload : list byte) : option (IdempotencyKey * KeyState) :=
  '(k, r) ← reader_string (reader_new payload);
  '(tag, r) ← reader_u8 r;
  state ← (if decide (tag = TAG_IN_PROGRESS) then decode_in_progress r
           else if decide (tag = TAG_COMPLETED) then decode_completed r
           else None);
  Some (MkKey k, state).

Definition decode_record (buf : list byte)
  : option (Z * IdempotencyKey * KeyState * list byte) :=
  header ← slice_get buf 0 HEADER_LEN;
  let len_ := from_le_bytes (take 4 header) in
  let crc := from_le_bytes (take 4 (drop 4 header)) in
  let chain := take 32 (drop 8 header) in
  total ← checked_add HEADER_LEN len_;
  payload ← slice_get buf HEADER_LEN total;
  if crc32 payload =? crc then
    '(key, state) ← decode_payload payload;
    Some (total, key, state, chain)
  else None.

Definition is_complete_frame (buf : list byte) : bool :=
  match slice_get buf 0 HEADER_LEN with
  | None => false
  | Some header =>
      match checked_add HEADER_LEN (from_le_bytes (take 4 header)) with
      | Some total => total <=? len buf
      | None => false
      end
  end.

(** ** Slices *)

(** A Rust buffer holds at most [isize::MAX] bytes. *)
Definition fits (l : list byte) : Prop := len l < 2 ^ 63.

Lemma len_app {A} (a b : list A) : len (a ++ b) = len a + len b.
Proof. unfold len. rewrite length_app. lia. Qed.

Lemma len_nonneg {A} (a : list A) : 0 <= len a.
Proof. unfold len. lia. Qed.

Lemma len_of {A} (l : list A) n : length l = n -> len l = Z.of_nat n.
Proof. by intros <-. Qed.

Lemma len_to_le_bytes n z : len (to_le_bytes n z) = Z.of_nat n.
Proof. unfold len. by rewrite length_to_le_bytes. Qed.

Lemma slice_get_Some buf a b s :
  slice_get buf a b = Some s ->
  0 <= a <= b /\ b <= len buf /\ len s = b - a /\
  s = take (Z.to_nat (b - a)) (drop (Z.to_nat a) buf).
Proof.
  unfold slice_get, len. intros Hs.
  destruct (Z.leb_spec 0 a), (Z.leb_spec a b), (Z.leb_spec b (Z.of_nat (length buf)));
    simplify_eq/=. split_and!; try lia; [|done]. rewrite length_take, length_drop. lia.
Qed.

Lemma slice_get_None buf a b :
  0 <= a <= b -> slice_get buf a b = None <-> len buf < b.
Proof.
  unfold slice_get. intros Hab.
  destruct (Z.leb_spec 0 a), (Z.leb_spec a b), (Z.leb_spec b (len buf)); simpl;
    split; (done || lia).
Qed.

Lemma slice_get_app pre s post a b :
  a = len pre -> b = len pre + len s -> slice_get (pre ++ s ++ post) a b = Some s.
Proof.
  intros -> ->. unfold slice_get. rewrite !len_app.
  pose proof (len_nonneg pre). pose proof (len_nonneg s). pose proof (len_nonneg post).
  destruct (Z.leb_spec 0 (len pre)), (Z.leb_spec (len pre) (len pre + len s)),
    (Z.leb_spec (len pre + len s) (len pre + (len s + len post))); try lia. simpl. f_equal.
  replace (len pre + len s - len pre) with (len s) by lia. unfold len. rewrite !Nat2Z.id.
  by rewrite drop_app_length, take_app_length.
Qed.

(** ** What a reader step consumes

    [reads f x a]: on a reader whose remaining bytes start with [x], the step
    [f] yields [a] and leaves the reader after [x]. *)

Definition at_rest (r : Reader) (l : list byte) : Prop :=
  exists pre, buf r = pre ++ l /\ pos r = len pre /\ fits (buf r).

Definition reads {A} (f : Reader -> option (A * Reader)) (x : list byte) (a : A) : Prop :=
  forall r l, at_rest r (x ++ l) -> exists r', f r = Some (a, r') /\ at_rest r' l /\ buf r' = buf r.

Lemma reads_take x : reads (fun r => reader_take r (len x)) x x.
Proof.
  intros r l (pre & Hb & Hp & Hf). exists (MkReader (buf r) (len pre + len x)).
  unfold reader_take, checked_add. rewrite Hp. unfold fits in Hf. rewrite Hb, !len_app in Hf.
  pose proof (len_nonneg l).
  destruct (Z.ltb_spec (len pre + len x) (2 ^ 64)); [|lia]. simpl.
  rewrite Hb, slice_get_app by done. simpl. split_and!; [done | | done].
  exists (pre ++ x). simpl. rewrite <- app_assoc, !len_app. split_and!; [done | done|].
  unfold fits. rewrite !len_app. lia.
Qed.

Lemma reads_take_n x n : n = len x -> reads (fun r => reader_take r n) x x.
Proof. intros ->. apply reads_take. Qed.

(** Apply a [reads] lemma to the step at the head of the goal. *)
Ltac read_step lem :=
  match goal with
  | Hr : at_rest ?r _ |- _ =>
      let r' := fresh "r" in let E := fresh "E" in let Hr' := fresh "Hr" in let Hb := fresh "Hb" in
      destruct (lem r _ Hr) as (r' & E & Hr' & Hb); rewrite E; clear Hr; cbn [mbind option_bind]
  end.

Lemma reads_u8 b : reads reader_u8 [b] b.
Proof.
  intros r l Hr. unfold reader_u8. read_step (reads_take_n [b] 1 eq_refl). simpl. eauto.
Qed.

Lemma reads_uint n z :
  in_uint (8 * Z.of_nat n) z ->
  reads (fun r => '(s, r) ← reader_take r (Z.of_nat n); Some (from_le_bytes s, r))
    (to_le_bytes n z) z.
Proof.
  intros Hz r l Hr.
  assert (Z.of_nat n = len (to_le_bytes n z)) as Hn by (unfold len; by rewrite length_to_le_bytes).
  read_step (reads_take_n (to_le_bytes n z) (Z.of_nat n) Hn).
  rewrite from_to_le_bytes by done. eauto.
Qed.

Lemma reads_u16 z : in_uint 16 z -> reads reader_u16 (to_le_bytes 2 z) z.
Proof. intros. by apply (reads_uint 2). Qed.
Lemma reads_u32 z : in_uint 32 z -> reads reader_u32 (to_le_bytes 4 z) z.
Proof. intros. by apply (reads_uint 4). Qed.
Lemma reads_u64 z : in_uint 64 z -> reads reader_u64 (to_le_bytes 8 z) z.
Proof. intros. by apply (reads_uint 8). Qed.

Lemma reads_arr32 l : length l = 32%nat -> reads reader_arr32 l l.
Proof. intros Hl. apply reads_take_n. unfold len. lia. Qed.

(** A length that the [u32] prefix can hold. *)
Definition short {A} (l : list A) : Prop := len l < 2 ^ 32.

#[export] Instance short_dec {A} (l : list A) : Decision (short l).
Proof. unfold short; apply _. Defined.

Lemma short_wrap {A} (l : list A) : short l -> wrap 32 (len l) = len l.
Proof. intros Hs. apply wrap_small. unfold in_uint. pose proof (len_nonneg l). by unfold short in Hs. Qed.

Lemma short_u32 {A} (l : list A) : short l -> in_uint 32 (len l).
Proof. unfold short, in_uint. pose proof (len_nonneg l). done. Qed.

Lemma reads_bytes l : short l -> reads reader_bytes (to_le_bytes 4 (len l) ++ l) l.
Proof.
  intros Hs r tl Hr. rewrite <- app_assoc in Hr. unfold reader_bytes.
  read_step (reads_u32 (len l) (short_u32 l Hs)). read_step (reads_take l).
  eexists. split_and!; [done | done | congruence].
Qed.

Lemma reads_string s :
  is_str s -> short (str_bytes s) ->
  reads reader_string (to_le_bytes 4 (len (str_bytes s)) ++ str_bytes s) s.
Proof.
  intros Hv Hs r tl Hr. unfold reader_string. read_step (reads_bytes (str_bytes s) Hs).
  rewrite from_utf8_str_bytes by done. simpl. eauto.
Qed.

(** ** The shape of an encoded payload *)

Definition bytes_field (l : list byte) : list byte := to_le_bytes 4 (wrap 32 (len l)) ++ l.
Definition str_field (s : string) : list byte := bytes_field (str_bytes s).

Fixpoint headers_raw (h : list (string * string)) : list byte :=
  match h with
  | [] => []
  | nv :: h => str_field nv.1 ++ str_field nv.2 ++ headers_raw h
  end.

Lemma put_headers_eq b h : put_headers b h = b ++ headers_raw h.
Proof.
  unfold put_headers. revert b; induction h as [|nv h IH]; intros b; cbn [fold_left headers_raw].
  - by rewrite app_nil_r.
  - rewrite IH. unfold put_str, put_bytes, put_u32, str_field, bytes_field.
    by rewrite <- !app_assoc.
Qed.

Lemma encode_payload_eq k st :
  encode_payload k st =
  str_field (key_str k) ++
  match st with
  | InProgress f fp l =>
      [TAG_IN_PROGRESS] ++ to_le_bytes 8 (fence_no f) ++ fp_bytes fp ++ to_le_bytes 8 l
  | Completed fp o t =>
      [TAG_COMPLETED] ++ fp_bytes fp ++ to_le_bytes 8 t ++ to_le_bytes 2 (status o)
      ++ to_le_bytes 4 (wrap 32 (len (headers o))) ++ headers_raw (headers o)
      ++ bytes_field (body o)
  end.
Proof.
  destruct st; unfold encode_payload, put_str, put_bytes, put_u64, put_u32, put_u16;
    rewrite ?put_headers_eq; unfold str_field, bytes_field; simpl app; by rewrite <- !app_assoc.
Qed.

Lemma len_bytes_field l : len (bytes_field l) = 4 + len l.
Proof. unfold bytes_field, len. rewrite length_app, length_to_le_bytes. lia. Qed.

(** A record the format can hold: well-formed, with a payload below 4 GiB. *)
Definition encodable (k : IdempotencyKey) (st : KeyState) : Prop :=
  wf_key k /\ wf_state st /\ short (encode_payload k st).

#[export] Instance encodable_dec k st : Decision (encodable k st).
Proof. unfold encodable, short; apply _. Defined.

Lemma reads_bytes_field l : short l -> reads reader_bytes (bytes_field l) l.
Proof. intros Hs. unfold bytes_field. rewrite short_wrap by done. by apply reads_bytes. Qed.

Lemma reads_str_field s :
  is_str s -> short (str_bytes s) -> reads reader_string (str_field s) s.
Proof.
  intros Hv Hs. unfold str_field, bytes_field. rewrite short_wrap by done. by apply reads_string.
Qed.

Lemma headers_raw_bounds h :
  8 * len h <= len (headers_raw h) /\
  Forall (fun nv => len (str_bytes nv.1) <= len (headers_raw h) /\
                    len (str_bytes nv.2) <= len (headers_raw h)) h.
Proof.
  induction h as [|nv h [IH1 IH2]]; [done|]. cbn [headers_raw]. unfold str_field.
  rewrite !len_app, !len_bytes_field.
  pose proof (len_nonneg (str_bytes nv.1)). pose proof (len_nonneg (str_bytes nv.2)).
  pose proof (len_nonneg (headers_raw h)).
  assert (len (nv :: h) = 1 + len h) as -> by (unfold len; simpl; lia).
  split; [lia|]. constructor; [lia|]. eapply Forall_impl; [exact IH2|]. simpl. lia.
Qed.

Lemma read_headers_done fuel r acc : read_headers fuel 0 r acc = Some (acc, r).
Proof. by destruct fuel. Qed.

Lemma reads_headers h fuel acc :
  Forall (fun nv => is_str nv.1 /\ is_str nv.2) h -> short (headers_raw h) ->
  (length h <= fuel)%nat ->
  reads (fun r => read_headers fuel (len h) r acc) (headers_raw h)
    (fold_left (fun m kv => bt_insert kv.1 kv.2 m) h acc).
Proof.
  revert fuel acc; induction h as [|nv h IH]; intros fuel acc Hs Hsh Hfu r l Hr.
  - change (len (@nil (string * string))) with 0. rewrite read_headers_done.
    eexists. split_and!; done.
  - destruct fuel as [|fuel]; [simpl in Hfu; lia|].
    inversion Hs as [|? ? [Hs1 Hs2] Hs']; subst.
    cbn [headers_raw] in Hr, Hsh. rewrite <- !app_assoc in Hr.
    unfold short, str_field in Hsh. rewrite !len_app, !len_bytes_field in Hsh.
    pose proof (len_nonneg (str_bytes nv.1)). pose proof (len_nonneg (str_bytes nv.2)).
    pose proof (len_nonneg (headers_raw h)).
    assert (len (nv :: h) = 1 + len h) as Hl by (unfold len; simpl; lia).
    pose proof (len_nonneg h). cbn [read_headers]. rewrite Hl. case_cmp; [lia|].
    read_step (reads_str_field nv.1 Hs1 ltac:(unfold short; lia)).
    read_step (reads_str_field nv.2 Hs2 ltac:(unfold short; lia)).
    replace (1 + len h - 1) with (len h) by lia.
    match goal with Hr : at_rest _ _ |- _ =>
      destruct (IH fuel (bt_insert nv.1 nv.2 acc) Hs' ltac:(unfold short; lia)
                ltac:(simpl in Hfu; lia) _ _ Hr) as (r' & E' & Hr' & Hb') end.
    exists r'. split_and!; [exact E' | done | congruence].
Qed.

Lemma at_rest_new l : fits l -> at_rest (reader_new l) l.
Proof. intros Hf. exists []. split_and!; done. Qed.

Lemma at_rest_length r l : at_rest r l -> (length l <= length (buf r))%nat.
Proof. intros (pre & -> & _). rewrite length_app. lia. Qed.

(** ** Round trip *)

Lemma decode_in_progress_encode f fp lease r l :
  wf_state (InProgress f fp lease) ->
  at_rest r (to_le_bytes 8 (fence_no f) ++ fp_bytes fp ++ to_le_bytes 8 lease ++ l) ->
  decode_in_progress r = Some (InProgress f fp lease).
Proof.
  intros (Hf & Hfp & Hl) Hr. unfold decode_in_progress.
  read_step (reads_u64 (fence_no f) Hf). read_step (reads_arr32 (fp_bytes fp) Hfp).
  read_step (reads_u64 lease Hl). by destruct f, fp.
Qed.

Lemma decode_completed_encode fp o t r l :
  wf_state (Completed fp o t) ->
  short (headers_raw (headers o)) -> short (body o) ->
  at_rest r (fp_bytes fp ++ to_le_bytes 8 t ++ to_le_bytes 2 (status o)
      ++ to_le_bytes 4 (wrap 32 (len (headers o))) ++ headers_raw (headers o)
      ++ bytes_field (body o) ++ l) ->
  decode_completed r = Some (Completed fp o t).
Proof.
  intros (Hfp & (Hst & Hsort & Hstr) & Ht) Hsh Hsb Hr. unfold decode_completed.
  destruct (headers_raw_bounds (headers o)) as [Hcount _].
  assert (short (headers o)) as Hsc by (unfold short in *; pose proof (len_nonneg (headers o)); lia).
  rewrite short_wrap in Hr by done.
  read_step (reads_arr32 (fp_bytes fp) Hfp). read_step (reads_u64 t Ht).
  read_step (reads_u16 (status o) Hst). read_step (reads_u32 (len (headers o)) (short_u32 _ Hsc)).
  match goal with Hr : at_rest ?r _ |- _ =>
    assert (length (headers o) <= S (length (buf r)))%nat as Hfuel;
      [ apply at_rest_length in Hr; rewrite !length_app in Hr; unfold len in Hcount; lia
      | read_step (reads_headers (headers o) (S (length (buf r))) [] Hstr Hsh Hfuel) ] end.
  read_step (reads_bytes_field (body o) Hsb).
  fold (bt_from_list (headers o)). rewrite bt_from_list_id by done. by destruct fp, o.
Qed.

Lemma decode_payload_encode k st :
  encodable k st -> decode_payload (encode_payload k st) = Some (k, st).
Proof.
  intros (Hk & Hwf & Hsh).
  assert (fits (encode_payload k st)) as Hfit by (unfold fits, short in *; lia).
  pose proof (at_rest_new _ Hfit) as Hr. unfold decode_payload.
  rewrite encode_payload_eq in Hr at 2. revert Hsh. rewrite encode_payload_eq at 1. intros Hsh.
  unfold short, str_field in Hsh. rewrite len_app, len_bytes_field in Hsh.
  assert (short (str_bytes (key_str k))) as Hks.
  { unfold short. match type of Hsh with _ + len ?b < _ => pose proof (len_nonneg b) end. lia. }
  read_step (reads_str_field (key_str k) Hk Hks).
  destruct st as [f fp lease|fp o t].
  - read_step (reads_u8 TAG_IN_PROGRESS). rewrite decide_True by done.
    rewrite (decode_in_progress_encode f fp lease _ [] Hwf);
      [by destruct k | by rewrite app_nil_r].
  - read_step (reads_u8 TAG_COMPLETED). rewrite decide_False by done. rewrite decide_True by done.
    rewrite !len_app, len_bytes_field in Hsh.
    pose proof (len_nonneg (headers_raw (headers o))). pose proof (len_nonneg (body o)).
    pose proof (len_nonneg (str_bytes (key_str k))). pose proof (len_nonneg (fp_bytes fp)).
    rewrite !len_to_le_bytes in Hsh. change (len [TAG_COMPLETED]) with 1 in Hsh.
    rewrite (decode_completed_encode fp o t _ [] Hwf); [by destruct k | unfold short; lia.. | by rewrite app_nil_r].
Qed.

(** ** Frames *)

(** A payload framed under a chain value. *)
Definition frame (chain payload : list byte) : list byte :=
  to_le_bytes 4 (len payload) ++ to_le_bytes 4 (crc32 payload) ++ chain ++ payload.

Lemma compute_chain_length prev crc p : length (compute_chain prev crc p) = 32%nat.
Proof. apply sha256_length. Qed.

Lemma encode_record_frame k st prev :
  short (encode_payload k st) ->
  encode_record k st prev =
  frame (compute_chain prev (crc32 (encode_payload k st)) (encode_payload k st)) (encode_payload k st).
Proof.
  intros Hs. unfold encode_record, frame, put_u32. rewrite short_wrap by done.
  by rewrite app_nil_l, <- !app_assoc.
Qed.

Lemma len_frame chain p : length chain = 32%nat -> len (frame chain p) = HEADER_LEN + len p.
Proof.
  intros Hc. unfold frame. rewrite !len_app, !len_to_le_bytes.
  unfold len at 1. rewrite Hc. unfold HEADER_LEN. lia.
Qed.

Lemma len_take {A} (l : list A) n : 0 <= n <= len l -> len (take (Z.to_nat n) l) = n.
Proof. unfold len. intros. rewrite length_take. lia. Qed.

(** The header of a frame, taken apart. *)
Lemma frame_header chain p rest :
  length chain = 32%nat ->
  slice_get (frame chain p ++ rest) 0 HEADER_LEN =
  Some (to_le_bytes 4 (len p) ++ to_le_bytes 4 (crc32 p) ++ chain).
Proof.
  intros Hc. unfold frame. set (h := to_le_bytes 4 (len p) ++ to_le_bytes 4 (crc32 p) ++ chain).
  assert (len h = HEADER_LEN) as Hh.
  { unfold h. rewrite !len_app, !len_to_le_bytes. unfold len. rewrite Hc. reflexivity. }
  replace ((to_le_bytes 4 (len p) ++ to_le_bytes 4 (crc32 p) ++ chain ++ p) ++ rest)
    with ([] ++ h ++ (p ++ rest)) by (unfold h; by rewrite app_nil_l, <- !app_assoc).
  by apply slice_get_app.
Qed.

Lemma header_fields (a b c : list byte) :
  length a = 4%nat -> length b = 4%nat -> length c = 32%nat ->
  take 4 (a ++ b ++ c) = a /\ take 4 (drop 4 (a ++ b ++ c)) = b /\
  take 32 (drop 8 (a ++ b ++ c)) = c.
Proof.
  intros Ha Hb Hc. split_and!.
  - by rewrite take_app_length'.
  - by rewrite drop_app_length', take_app_length'.
  - rewrite app_assoc, drop_app_length' by (rewrite length_app; lia). by rewrite take_ge by lia.
Qed.

Lemma checked_add_header n : in_uint 32 n -> checked_add HEADER_LEN n = Some (HEADER_LEN + n).
Proof.
  unfold in_uint, checked_add, HEADER_LEN. intros Hn. case_cmp; [done|].
  change (2 ^ 32) with 4294967296 in Hn. change (2 ^ 64) with 18446744073709551616 in *. lia.
Qed.

(** Decoding a frame is decoding its payload. *)
Lemma decode_record_frame chain p rest :
  length chain = 32%nat -> short p ->
  decode_record (frame chain p ++ rest) =
  '(k, st) ← decode_payload p; Some (HEADER_LEN + len p, k, st, chain).
Proof.
  intros Hc Hs. unfold decode_record. rewrite frame_header by done. cbn [mbind option_bind].
  destruct (header_fields (to_le_bytes 4 (len p)) (to_le_bytes 4 (crc32 p)) chain) as (E1 & E2 & E3);
    [by rewrite length_to_le_bytes..|done|].
  rewrite E1, E2, E3.
  rewrite (from_to_le_bytes 4 (len p)) by (by apply short_u32).
  rewrite (from_to_le_bytes 4 (crc32 p)) by apply crc32_range.
  rewrite checked_add_header by (by apply short_u32). cbn [mbind option_bind].
  replace (slice_get (frame chain p ++ rest) HEADER_LEN (HEADER_LEN + len p)) with (Some p).
  2:{ symmetry. unfold frame.
      replace ((to_le_bytes 4 (len p) ++ to_le_bytes 4 (crc32 p) ++ chain ++ p) ++ rest)
        with ((to_le_bytes 4 (len p) ++ to_le_bytes 4 (crc32 p) ++ chain) ++ p ++ rest)
        by (by rewrite <- !app_assoc).
      apply slice_get_app; rewrite !len_app, !len_to_le_bytes, (len_of chain 32) by done;
        reflexivity. }
  cbn [mbind option_bind]. by rewrite Z.eqb_refl.
Qed.

(** What the first 40 bytes of any buffer are, if there are that many. *)
Lemma slice_header buf header :
  slice_get buf 0 HEADER_LEN = Some header ->
  exists a b c rest, length a = 4%nat /\ length b = 4%nat /\ length c = 32%nat /\
    header = a ++ b ++ c /\ buf = a ++ b ++ c ++ rest.
Proof.
  intros (_ & Hl & Hlh & Hh)%slice_get_Some. unfold len, HEADER_LEN in *.
  change (Z.to_nat 0) with 0%nat in Hh. change (drop 0 buf) with buf in Hh.
  change (Z.to_nat (4 + 4 + 32 - 0)) with 40%nat in Hh.
  assert (buf = take 4 buf ++ take 4 (drop 4 buf) ++ take 32 (drop 8 buf) ++ drop 40 buf) as Hb.
  { rewrite <- (take_drop 4 buf) at 1. f_equal.
    rewrite <- (take_drop 4 (drop 4 buf)) at 1. f_equal. rewrite drop_drop.
    rewrite <- (take_drop 32 (drop (4 + 4) buf)) at 1. by rewrite drop_drop. }
  exists (take 4 buf), (take 4 (drop 4 buf)), (take 32 (drop 8 buf)), (drop 40 buf).
  split_and!; [rewrite ?length_take, ?length_drop; lia.. | | done].
  rewrite Hh, Hb at 1. rewrite !app_assoc. rewrite take_app_length'; [done|].
  rewrite !length_app, !length_take, !length_drop. lia.
Qed.

Lemma header_len_range (a : list byte) : length a = 4%nat -> in_uint 32 (from_le_bytes a).
Proof. intros Ha. pose proof (from_le_bytes_range a) as H. by rewrite Ha in H. Qed.

Lemma slice_payload (h p rest : list byte) n :
  len h = HEADER_LEN -> slice_get (h ++ rest) HEADER_LEN (HEADER_LEN + n) = Some p ->
  exists rest', rest = p ++ rest' /\ len p = n.
Proof.
  intros Hh (Hn & Hl & Hlp & Hp)%slice_get_Some.
  rewrite drop_app_length' in Hp by (unfold len in Hh; lia).
  exists (drop (length p) rest). split; [|lia].
  rewrite Hp at 1. replace (Z.to_nat (HEADER_LEN + n - HEADER_LEN)) with (length p).
  - by rewrite take_drop.
  - unfold len in Hlp. lia.
Qed.

(** Whatever decodes is a frame, its checksum in place, of a payload that
    decodes to the record. *)
Lemma decode_record_inv buf total k st chain :
  decode_record buf = Some (total, k, st, chain) ->
  exists p rest, buf = frame chain p ++ rest /\ total = HEADER_LEN + len p /\ short p /\
    length chain = 32%nat /\ decode_payload p = Some (k, st).
Proof.
  unfold decode_record. intros Hd.
  apply bind_Some in Hd as (header & Hh & Hd).
  apply slice_header in Hh as (a & b & c & rest & Ha & Hb & Hc & -> & ->).
  destruct (header_fields a b c Ha Hb Hc) as (E1 & E2 & E3). rewrite E1, E2, E3 in Hd.
  pose proof (header_len_range a Ha) as Hu.
  rewrite checked_add_header in Hd by done. cbn [mbind option_bind] in Hd.
  apply bind_Some in Hd as (p & Hp & Hd).
  replace (a ++ b ++ c ++ rest) with ((a ++ b ++ c) ++ rest) in Hp by (by rewrite <- !app_assoc).
  apply slice_payload in Hp as (rest' & -> & Hlp).
  2:{ rewrite !len_app, (len_of a 4), (len_of b 4), (len_of c 32) by done. done. }
  case_cmp; [|done]. apply bind_Some in Hd as ([k' st'] & Hdp & Hd). simplify_eq.
  exists p, rest'. split_and!; try done.
  - unfold frame. rewrite Hlp, e, <- !app_assoc. f_equal; [|f_equal].
    + rewrite <- Ha at 1. by rewrite to_from_le_bytes.
    + rewrite <- Hb at 1. by rewrite to_from_le_bytes.
  - by rewrite Hlp.
  - unfold short. rewrite Hlp. apply Hu.
Qed.

Lemma is_complete_frame_inv buf :
  is_complete_frame buf = true <->
  exists a b c rest, length a = 4%nat /\ length b = 4%nat /\ length c = 32%nat /\
    buf = a ++ b ++ c ++ rest /\ from_le_bytes a <= len rest.
Proof.
  unfold is_complete_frame. split.
  - destruct (slice_get buf 0 HEADER_LEN) as [header|] eqn:E; [|done].
    apply slice_header in E as (a & b & c & rest & Ha & Hb & Hc & -> & ->).
    destruct (header_fields a b c Ha Hb Hc) as (E1 & _). rewrite E1.
    rewrite checked_add_header by (by apply header_len_range). intros Hle%Z.leb_le.
    rewrite !len_app, (len_of a 4), (len_of b 4), (len_of c 32) in Hle by done.
    exists a, b, c, rest. split_and!; try done. unfold HEADER_LEN in Hle. lia.
  - intros (a & b & c & rest & Ha & Hb & Hc & -> & Hle).
    assert (len (a ++ b ++ c) = HEADER_LEN) as Hh.
    { rewrite !len_app, (len_of a 4), (len_of b 4), (len_of c 32) by done. done. }
    assert (slice_get (a ++ b ++ c ++ rest) 0 HEADER_LEN = Some (a ++ b ++ c)) as ->.
    { replace (a ++ b ++ c ++ rest) with ([] ++ (a ++ b ++ c) ++ rest) by (by rewrite <- !app_assoc).
      by apply slice_get_app. }
    destruct (header_fields a b c Ha Hb Hc) as (E1 & _). rewrite E1.
    rewrite checked_add_header by (by apply header_len_range). apply Z.leb_le.
    rewrite !len_app, (len_of a 4), (len_of b 4), (len_of c 32) by done. unfold HEADER_LEN. lia.
Qed.

(** A record that decodes is a complete frame, so a buffer that does not begin
    with a complete frame does not decode. *)
Lemma decode_complete buf r : decode_record buf = Some r -> is_complete_frame buf = true.
Proof.
  destruct r as [[[total k] st] chain]. intros (p & rest & -> & _ & Hs & Hc & _)%decode_record_inv.
  apply is_complete_frame_inv. do 4 eexists. split_and!; [apply length_to_le_bytes.. | exact Hc | |].
  - unfold frame. by rewrite <- !app_assoc.
  - rewrite from_to_le_bytes by (by apply short_u32). rewrite len_app. pose proof (len_nonneg rest). lia.
Qed.

Lemma incomplete_no_decode buf : is_complete_frame buf = false -> decode_record buf = None.
Proof.
  intros Hf. destruct (decode_record buf) eqn:E; [|done]. apply decode_complete in E. congruence.
Qed.

(** A frame cut short is not complete. *)
Lemma frame_prefix_incomplete chain p x :
  length chain = 32%nat -> short p -> x `prefix_of` frame chain p -> x <> frame chain p ->
  is_complete_frame x = false.
Proof.
  intros Hc Hs [y Hx] Hne. destruct (is_complete_frame x) eqn:E; [|done]. exfalso.
  apply is_complete_frame_inv in E as (a & b & c & rest & Ha & Hb & Hc' & -> & Hle).
  unfold frame in Hx. rewrite <- !app_assoc in Hx.
  apply app_inj_len in Hx as [Ea Hx]; [|by rewrite length_to_le_bytes].
  apply app_inj_len in Hx as [Eb Hx]; [|by rewrite length_to_le_bytes].
  apply app_inj_len in Hx as [Ec Hx]; [|congruence]. subst a b c p.
  rewrite from_to_le_bytes in Hle by (by apply short_u32). rewrite len_app in Hle.
  assert (y = []) as ->. { destruct y; [done|]. unfold len in Hle. simpl in Hle. lia. }
  apply Hne. unfold frame. by rewrite !app_nil_r.
Qed.

(** ** What reading untrusted bytes can yield *)

(** The cursor of a reader is inside its buffer. *)
Definition in_bounds (r : Reader) : Prop := 0 <= pos r <= len (buf r).

(** The step from [r] to [r'] consumed [n] bytes of the same buffer. *)
Definition consumed (r r' : Reader) (n : Z) : Prop :=
  buf r' = buf r /\ pos r' = pos r + n /\ in_bounds r'.

Lemma reader_take_inv r n s r' :
  in_bounds r -> 0 <= n -> reader_take r n = Some (s, r') -> len s = n /\ consumed r r' n.
Proof.
  unfold reader_take, checked_add, consumed, in_bounds. intros Hr Hn Ht.
  case_cmp; [|done]. cbn [mbind option_bind] in Ht.
  apply bind_Some in Ht as (sl & Hs & Ht). simplify_eq/=.
  apply slice_get_Some in Hs as (? & ? & ? & ?). split; [lia|]. split_and!; (done || lia).
Qed.

Lemma reader_uint_inv r n z r' :
  in_bounds r ->
  ('(s, r) ← reader_take r (Z.of_nat n); Some (from_le_bytes s, r)) = Some (z, r') ->
  in_uint (8 * Z.of_nat n) z /\ consumed r r' (Z.of_nat n).
Proof.
  intros Hr Ht. apply bind_Some in Ht as ([s r1] & Ht & E). simplify_eq.
  apply reader_take_inv in Ht as [Hl Hc]; [|done|lia]. split; [|done].
  pose proof (from_le_bytes_range s) as Hz. unfold len in Hl.
  by replace (length s) with n in Hz by lia.
Qed.

Lemma reader_u32_inv r z r' : in_bounds r -> reader_u32 r = Some (z, r') -> in_uint 32 z /\ consumed r r' 4.
Proof. apply (reader_uint_inv r 4). Qed.
Lemma reader_u64_inv r z r' : in_bounds r -> reader_u64 r = Some (z, r') -> in_uint 64 z /\ consumed r r' 8.
Proof. apply (reader_uint_inv r 8). Qed.
Lemma reader_u16_inv r z r' : in_bounds r -> reader_u16 r = Some (z, r') -> in_uint 16 z /\ consumed r r' 2.
Proof. apply (reader_uint_inv r 2). Qed.

Lemma reader_arr32_inv r s r' :
  in_bounds r -> reader_arr32 r = Some (s, r') -> length s = 32%nat /\ consumed r r' 32.
Proof. intros Hr Ht. apply reader_take_inv in Ht as [? ?]; [|done|lia]. unfold len in *. split; [lia|done]. Qed.

Lemma reader_u8_inv r b r' : in_bounds r -> reader_u8 r = Some (b, r') -> consumed r r' 1.
Proof.
  intros Hr Ht. apply bind_Some in Ht as ([s r1] & Ht & E). apply bind_Some in E as (? & _ & ?).
  simplify_eq. by apply reader_take_inv in Ht as [_ ?].
Qed.

Lemma reader_bytes_inv r s r' :
  in_bounds r -> reader_bytes r = Some (s, r') -> consumed r r' (4 + len s).
Proof.
  intros Hr Ht. apply bind_Some in Ht as ([n r1] & Hn & Ht).
  apply reader_u32_inv in Hn as [Hn (Eb & Ep & Hr1)]; [|done].
  apply reader_take_inv in Ht as [Hl (Eb' & Ep' & Hr')]; [|done|unfold in_uint in Hn; lia].
  unfold consumed. split_and!; [congruence | lia | done].
Qed.

Lemma reader_string_inv r s r' :
  in_bounds r -> reader_string r = Some (s, r') ->
  is_str s /\ consumed r r' (4 + len (str_bytes s)).
Proof.
  intros Hr Ht. apply bind_Some in Ht as ([l r1] & Hl & Ht). apply bind_Some in Ht as (s' & Hs & ?).
  simplify_eq. apply reader_bytes_inv in Hl; [|done]. apply from_utf8_Some in Hs as [Hv <-]. done.
Qed.

(** The bytes that the entries of a header map take. *)
Lemma bt_insert_raw n v h :
  len (headers_raw (bt_insert n v h)) <=
  len (headers_raw h) + (4 + len (str_bytes n)) + (4 + len (str_bytes v)).
Proof.
  induction h as [|[n' v'] h IH]; cbn [bt_insert headers_raw fst snd]; unfold str_field in *.
  - rewrite !len_app, !len_bytes_field. unfold len at 3 4. simpl. lia.
  - destruct (String.compare n n'); cbn [headers_raw fst snd]; unfold str_field;
      rewrite !len_app, !len_bytes_field;
      pose proof (len_nonneg (str_bytes n')); pose proof (len_nonneg (str_bytes v')); lia.
Qed.

Lemma bt_insert_Forall (P : string * string -> Prop) n v h :
  P (n, v) -> Forall P h -> Forall P (bt_insert n v h).
Proof.
  intros HP. induction 1 as [|[n' v'] h Hh Hf IH]; cbn [bt_insert]; [by repeat constructor|].
  destruct (String.compare n n'); repeat constructor; done.
Qed.

Lemma read_headers_inv fuel count r acc h r' :
  in_bounds r -> wf_headers acc -> read_headers fuel count r acc = Some (h, r') ->
  wf_headers h /\ exists n, 0 <= n /\ consumed r r' n /\ len (headers_raw h) <= len (headers_raw acc) + n.
Proof.
  revert count r acc; induction fuel as [|fuel IH]; intros count r acc Hr Hacc Hd; cbn [read_headers] in Hd;
    case_cmp; simplify_eq.
  1, 2: split; [done|]; exists 0; unfold consumed; split_and!; try done; lia.
  apply bind_Some in Hd as ([n r1] & Hn & Hd). apply bind_Some in Hd as ([v r2] & Hv & Hd).
  apply reader_string_inv in Hn as [Hsn (Eb1 & Ep1 & Hr1)]; [|done].
  apply reader_string_inv in Hv as [Hsv (Eb2 & Ep2 & Hr2)]; [|done].
  apply IH in Hd as [Hh (m & Hm & (Eb3 & Ep3 & Hr3) & Hle)]; [|done|].
  - split; [done|]. exists ((4 + len (str_bytes n)) + (4 + len (str_bytes v)) + m).
    pose proof (bt_insert_raw n v acc). pose proof (len_nonneg (str_bytes n)).
    pose proof (len_nonneg (str_bytes v)). unfold consumed.
    split_and!; [lia | congruence | lia | done | lia].
  - destruct Hacc as [Hso Hst]. split; [by apply bt_insert_sorted|]. by apply bt_insert_Forall.
Qed.

(** Run an inversion lemma on the first step of a hypothesis and split what
    the step consumed. *)
Ltac inv_step Hd lem :=
  let v := fresh "v" in let r := fresh "r" in let H := fresh "H" in
  apply bind_Some in Hd as ([v r] & H & Hd); apply lem in H; [|done];
  unfold consumed in H; destruct_and? H.

Lemma decode_in_progress_inv r st :
  in_bounds r -> decode_in_progress r = Some st ->
  wf_state st /\ pos r + 48 <= len (buf r) /\ exists f fp l, st = InProgress f fp l.
Proof.
  intros Hr Hd. unfold decode_in_progress in Hd. inv_step Hd reader_u64_inv.
  inv_step Hd reader_arr32_inv. inv_step Hd reader_u64_inv. simplify_eq.
  unfold in_bounds in *. split_and!; [by split_and! | | eauto].
  repeat match goal with H : buf _ = buf _ |- _ => rewrite H in * end. lia.
Qed.

Lemma decode_completed_inv r fp o t :
  in_bounds r -> decode_completed r = Some (Completed fp o t) ->
  wf_state (Completed fp o t) /\
  pos r + 46 + len (headers_raw (headers o)) + 4 + len (body o) <= len (buf r).
Proof.
  intros Hr Hd. unfold decode_completed in Hd. inv_step Hd reader_arr32_inv.
  inv_step Hd reader_u64_inv. inv_step Hd reader_u16_inv. inv_step Hd reader_u32_inv.
  apply bind_Some in Hd as ([h r'] & Hh & Hd).
  apply read_headers_inv in Hh as [Hwh (n & Hn & (Eb & Ep & Hb) & Hle)]; [|done|done].
  inv_step Hd reader_bytes_inv. simplify_eq/=. change (len []) with 0 in Hle.
  split; [by split_and!|]. unfold in_bounds in *.
  repeat match goal with H : buf _ = buf _ |- _ => rewrite H in * end. lia.
Qed.

Lemma decode_completed_shape r st :
  decode_completed r = Some st -> exists fp o t, st = Completed fp o t.
Proof.
  unfold decode_completed. intros Hd.
  repeat (apply bind_Some in Hd as ([? ?] & _ & Hd)). simplify_eq. eauto.
Qed.

(** A decoded record satisfies the invariants of its Rust types and can be
    encoded again in at most as many bytes. *)
Lemma decode_payload_inv p k st :
  decode_payload p = Some (k, st) ->
  wf_key k /\ wf_state st /\ len (encode_payload k st) <= len p.
Proof.
  unfold decode_payload. intros Hd.
  assert (in_bounds (reader_new p)) as Hr by (split; [done | apply len_nonneg]).
  inv_step Hd reader_string_inv. inv_step Hd reader_u8_inv. apply bind_Some in Hd as (st' & Hst & Hd).
  simplify_eq. rewrite encode_payload_eq. unfold str_field. rewrite len_app, len_bytes_field.
  repeat case_decide; simplify_eq.
  - apply decode_in_progress_inv in Hst as (Hwf & Hle & f & fp & l & ->); [|done].
    split_and!; [done..|]. rewrite !len_app, !len_to_le_bytes. change (len [TAG_IN_PROGRESS]) with 1.
    rewrite (len_of (fp_bytes fp) 32) by apply Hwf. simpl in *.
    repeat match goal with H : buf _ = _ |- _ => rewrite H in * end. lia.
  - pose proof Hst as Hsh. apply decode_completed_shape in Hsh as (fp & o & t & ->).
    apply decode_completed_inv in Hst as (Hwf & Hle); [|done].
    split_and!; [done..|]. rewrite !len_app, !len_to_le_bytes, len_bytes_field.
    change (len [TAG_COMPLETED]) with 1.
    rewrite (len_of (fp_bytes fp) 32) by apply Hwf. simpl in *.
    repeat match goal with H : buf _ = _ |- _ => rewrite H in * end. lia.
Qed.

Lemma decode_payload_encodable p k st :
  short p -> decode_payload p = Some (k, st) -> encodable k st.
Proof.
  intros Hs (Hk & Hst & Hle)%decode_payload_inv. split_and!; [done..|]. unfold short in *. lia.
Qed.

(** The bound on the header loop is never what stops it. *)
Lemma read_headers_fuel fuel fuel' count r acc :
  in_bounds r -> len (buf r) - pos r < Z.of_nat fuel -> len (buf r) - pos r < Z.of_nat fuel' ->
  read_headers fuel count r acc = read_headers fuel' count r acc.
Proof.
  revert fuel' count r acc; induction fuel as [|fuel IH]; intros fuel' count r acc Hr Hf Hf';
    unfold in_bounds in Hr; [lia|]. destruct fuel' as [|fuel']; [lia|].
  cbn [read_headers]. case_cmp; [done|].
  destruct (reader_string r) as [[n r1]|] eqn:E1; [|done]. cbn [mbind option_bind].
  destruct (reader_string r1) as [[v r2]|] eqn:E2; [|done]. cbn [mbind option_bind].
  apply reader_string_inv in E1 as [_ (Eb1 & Ep1 & Hr1)]; [|done].
  apply reader_string_inv in E2 as [_ (Eb2 & Ep2 & Hr2)]; [|done].
  pose proof (len_nonneg (str_bytes n)). pose proof (len_nonneg (str_bytes v)).
  rewrite Eb1 in Eb2. apply IH; [done | rewrite Eb2; lia ..].
Qed.

(** ** The codec's guarantees *)

Lemma decode_encoded k st prev rest :
  encodable k st ->
  decode_record (encode_record k st prev ++ rest) =
  Some (len (encode_record k st prev), k, st,
        compute_chain prev (crc32 (encode_payload k st)) (encode_payload k st)).
Proof.
  intros He. rewrite encode_record_frame by apply He.
  rewrite decode_record_frame; [|apply compute_chain_length|apply He].
  rewrite decode_payload_encode by done. simpl.
  by rewrite len_frame by apply compute_chain_length.
Qed.

(** C20: encoding then decoding gives the record back, together with its exact
    length and its chain value, whatever follows it in the log. *)
Theorem codec_roundtrip k st prev rest :
  encodable k st ->
  decode_record (encode_record k st prev ++ rest) =
  Some (len (encode_record k st prev), k, st,
        compute_chain prev (crc32 (encode_payload k st)) (encode_payload k st)).
Proof. apply decode_encoded. Qed.

(** C21: decoding arbitrary bytes is safe.  A decoded record lies inside the
    buffer and depends on no byte after it, and every value in it satisfies the
    invariants of its type (UTF-8 strings, sorted headers, integers in range),
    so that it can itself be written and read back. *)
Theorem decode_record_safe buf total k st chain prev :
  decode_record buf = Some (total, k, st, chain) ->
  HEADER_LEN <= total <= len buf /\ length chain = 32%nat /\ encodable k st /\
  (forall tail, decode_record (take (Z.to_nat total) buf ++ tail) = Some (total, k, st, chain)) /\
  (exists chain', decode_record (encode_record k st prev) =
                    Some (len (encode_record k st prev), k, st, chain')).
Proof.
  intros (p & rest & -> & -> & Hs & Hc & Hd)%decode_record_inv.
  pose proof (decode_payload_encodable p k st Hs Hd) as He.
  pose proof (len_nonneg p). pose proof (len_nonneg rest). split_and!; try done; try lia.
  - rewrite len_app, len_frame by done. lia.
  - intros tail. rewrite take_app_length'.
    + by rewrite decode_record_frame, Hd.
    + rewrite <- (len_frame chain p) by done. unfold len. lia.
  - rewrite encode_record_frame by apply He. eexists.
    rewrite <- (app_nil_r (frame _ _)) at 1.
    rewrite decode_record_frame by (apply compute_chain_length || apply He).
    rewrite decode_payload_encode by done. simpl. by rewrite len_frame by apply compute_chain_length.
Qed.

(** A torn append is recognised.  A record cut anywhere short of its end
    neither decodes nor counts as a complete frame. *)
Theorem torn_record_detected k st prev x :
  short (encode_payload k st) ->
  x `prefix_of` encode_record k st prev -> x <> encode_record k st prev ->
  decode_record x = None /\ is_complete_frame x = false.
Proof.
  intros Hs. rewrite encode_record_frame by done. intros Hp Hne.
  assert (is_complete_frame x = false) as Hf.
  { eapply frame_prefix_incomplete; eauto using compute_chain_length. }
  split; [by apply incomplete_no_decode | done].
Qed.

(** A corrupted byte is never trusted.  Changing any one byte of a record's
    payload leaves a complete frame that does not decode. *)
Theorem corrupt_payload_detected chain pre b b' post rest :
  length chain = 32%nat -> short (pre ++ b :: post) -> b <> b' ->
  let frame' := to_le_bytes 4 (len (pre ++ b :: post)) ++ to_le_bytes 4 (crc32 (pre ++ b :: post)) ++
                chain ++ (pre ++ b' :: post) in
  decode_record (frame' ++ rest) = None /\ is_complete_frame (frame' ++ rest) = true.
Proof.
  intros Hc Hs Hb. set (p := pre ++ b :: post) in *. cbv zeta.
  assert (len (pre ++ b' :: post) = len p) as Hl by (unfold p, len; by rewrite !length_app).
  split.
  - destruct (decode_record _) as [[[[total k] st] ch]|] eqn:E; [|done]. exfalso.
    apply decode_record_inv in E as (q & rest' & E & _ & Hq & Hch & _).
    unfold frame in E. rewrite <- !app_assoc in E.
    apply app_inj_len in E as [E1 E]; [|by rewrite !length_to_le_bytes].
    apply app_inj_len in E as [E2 E]; [|by rewrite !length_to_le_bytes].
    apply app_inj_len in E as [_ E]; [|congruence].
    apply (to_le_bytes_inj 4) in E1; [|by apply short_u32..].
    apply (to_le_bytes_inj 4) in E2; [|apply crc32_range..].
    rewrite app_assoc in E. apply app_inj_len in E as [<- _]; [|unfold len in *; lia].
    unfold p in E2. by apply crc32_one_byte in E2.
  - apply is_complete_frame_inv. do 4 eexists. split_and!; [apply length_to_le_bytes.. | exact Hc | |].
    + by rewrite <- !app_assoc.
    + rewrite from_to_le_bytes by (by apply short_u32).
      rewrite app_assoc, len_app, Hl. pose proof (len_nonneg rest). lia.
Qed.

(** ** Concrete instances *)

Definition sample_key : IdempotencyKey := MkKey "order-1".
Definition sample_fp : RequestFingerprint := MkFingerprint (replicate 32 x07).
Definition sample_outcome : CachedOutcome :=
  MkOutcome 201 [("content-type", "text/plain"); ("x-id", "1")]%string [x6f; x6b].
Definition sample_state : KeyState := InProgress (MkFence 3) sample_fp 30000.
Definition sample_done : KeyState := Completed sample_fp sample_outcome 12345.

Lemma codec_roundtrip_witness :
  encodable sample_key sample_done /\
  decode_record (encode_record sample_key sample_done GENESIS ++ [x00; x01]) =
  Some (len (encode_record sample_key sample_done GENESIS), sample_key, sample_done,
        compute_chain GENESIS (crc32 (encode_payload sample_key sample_done))
          (encode_payload sample_key sample_done)).
Proof. split; [by_eval|]. apply codec_roundtrip. by_eval. Defined.

Lemma decode_record_safe_witness :
  let buf := encode_record sample_key sample_state GENESIS ++ [x00; x01] in
  HEADER_LEN <= 100 <= len buf.
Proof.
  apply (decode_record_safe _ _ sample_key sample_state
           (compute_chain GENESIS (crc32 (encode_payload sample_key sample_state))
              (encode_payload sample_key sample_state)) GENESIS).
  vm_compute. reflexivity.
Defined.

Lemma torn_record_detected_witness :
  decode_record (take 41 (encode_record sample_key sample_state GENESIS)) = None.
Proof.
  apply (torn_record_detected sample_key sample_state GENESIS).
  - by_eval.
  - eexists. symmetry. apply take_drop.
  - intros E. apply (f_equal length) in E. vm_compute in E. discriminate.
Defined.

Lemma corrupt_payload_detected_witness :
  decode_record ((to_le_bytes 4 2 ++ to_le_bytes 4 (crc32 [x01; x02]) ++ GENESIS ++ [x01; x03]) ++ [])
  = None.
Proof. apply (corrupt_payload_detected GENESIS [x01] x02 x03 [] []); [reflexivity | by_eval | discriminate]. Defined.
