(* ===== verification/Disk.v ===== *)
(** * The file system under the write-ahead log

    What [wal.rs] uses of [std::fs] and of the file system below it.  A file
    has the contents that reached the device at the last [sync_all] and the
    operations issued since, in order; reading sees all of them, a crash keeps
    any prefix of them, and of the write at which it stops any prefix of its
    bytes (a write torn in the middle).  The directory holds the live log and
    the compaction temp file; [rename] is atomic.  Until the directory is synced
    a crash may undo what happened to the log's entry in it: bring a log back
    that a rename replaced, or leave no log at all where it had been created. *)

From S2P Require Import Prelude Machine Codec.

Inductive FileOp :=
| SetLen (n : Z)
| WriteAt (offset : Z) (bytes : list byte).

Record File := MkFile { durable : list byte; volatile : list FileOp }.

Definition file_empty : File := MkFile [] [].

(** [File::set_len]: cut the file or extend it with zeros. *)
Definition set_len_bytes (n : Z) (l : list byte) : list byte :=
  take (Z.to_nat n) l ++ replicate (Z.to_nat n - length l) x00.

(** A write at an offset overwrites what is there and extends the file. *)
Definition write_at_bytes (offset : Z) (bytes l : list byte) : list byte :=
  set_len_bytes offset l ++ bytes ++ drop (Z.to_nat offset + length bytes) l.

Definition apply_op (l : list byte) (op : FileOp) : list byte :=
  match op with
  | SetLen n => set_len_bytes n l
  | WriteAt offset bytes => write_at_bytes offset bytes l
  end.

(** What reading the file returns. *)
Definition contents (f : File) : list byte := fold_left apply_op (volatile f) (durable f).

Definition file_set_len (f : File) (n : Z) : File := MkFile (durable f) (volatile f ++ [SetLen n]).
Definition file_write_all (f : File) (offset : Z) (bytes : list byte) : File :=
  MkFile (durable f) (volatile f ++ [WriteAt offset bytes]).
Definition file_sync_all (f : File) : File := MkFile (contents f) [].

(** The contents a crash may leave. *)
Inductive crash_ops : list FileOp -> list byte -> list byte -> Prop :=
| crash_now ops l : crash_ops ops l l
| crash_torn offset bytes x ops l :
    x `prefix_of` bytes -> crash_ops (WriteAt offset bytes :: ops) l (write_at_bytes offset x l)
| crash_later op ops l l' : crash_ops ops (apply_op l op) l' -> crash_ops (op :: ops) l l'.

Definition crash_file (f : File) (l : list byte) : Prop := crash_ops (volatile f) (durable f) l.

(** ** The directory *)

Record Disk := MkDisk {
  log : File;
  (** The compaction temp file. *)
  tmp : option File;
  (** What a crash may leave in the directory in place of the log, as long as the
      directory is not synced: the logs that renames replaced, and [None], no
      file, if the log was created. *)
  replaced : list (option File);
  (** Whether the platform supports syncing a directory. *)
  dir_sync_ok : bool;
}.

(** A path with no file.  Opening creates it ([create(true)]), so no log is an
    empty log whose directory entry is not on the device. *)
Definition disk_new (dir_sync_ok : bool) : Disk := MkDisk file_empty None [None] dir_sync_ok.

(** The directory entry of the log is on the device. *)
Definition linked (d : Disk) : Prop := replaced d = [].

Definition with_log (d : Disk) (f : File) : Disk := MkDisk f (tmp d) (replaced d) (dir_sync_ok d).
Definition with_tmp (d : Disk) (f : File) : Disk := MkDisk (log d) (Some f) (replaced d) (dir_sync_ok d).

(** [rename(tmp, path)]. *)
Definition disk_rename (d : Disk) : Disk :=
  match tmp d with
  | Some f => MkDisk f None (Some (log d) :: replaced d) (dir_sync_ok d)
  | None => d
  end.

(** What a crash leaves on the disk. *)
Inductive crash_disk : Disk -> Disk -> Prop :=
| crash_log d l t :
    crash_file (log d) l -> crash_disk d (MkDisk (MkFile l []) t [] (dir_sync_ok d))
| crash_replaced d f l t :
    Some f ∈ replaced d -> crash_file f l -> crash_disk d (MkDisk (MkFile l []) t [] (dir_sync_ok d))
| crash_absent d t :
    None ∈ replaced d -> crash_disk d (MkDisk file_empty t [None] (dir_sync_ok d)).

(** ** Lemmas *)

(** A crash cannot touch an entry that is on the device. *)
Lemma crash_linked d d' :
  linked d -> crash_disk d d' ->
  exists l t, d' = MkDisk (MkFile l []) t [] (dir_sync_ok d) /\ crash_file (log d) l.
Proof.
  unfold linked. intros Hl Hc. destruct Hc as [d l t Hc|d f l t Hf Hc|d t Hf]; [by eauto| |];
    rewrite Hl in Hf; by apply elem_of_nil in Hf.
Qed.

Lemma set_len_cut (l1 l2 : list byte) : set_len_bytes (len l1) (l1 ++ l2) = l1.
Proof.
  unfold set_len_bytes, len. rewrite Nat2Z.id, take_app_length, length_app.
  replace (length l1 - (length l1 + length l2))%nat with 0%nat by lia. apply app_nil_r.
Qed.

(** Writing at the end of a file appends. *)
Lemma write_at_end (l bytes : list byte) : write_at_bytes (len l) bytes l = l ++ bytes.
Proof.
  unfold write_at_bytes. rewrite <- (app_nil_r l) at 2. rewrite set_len_cut.
  rewrite drop_ge by (unfold len; lia). by rewrite app_nil_r.
Qed.

Lemma contents_synced f : contents (file_sync_all f) = contents f.
Proof. done. Qed.

Lemma contents_write f offset bytes :
  contents (file_write_all f offset bytes) = write_at_bytes offset bytes (contents f).
Proof. unfold contents; simpl. by rewrite fold_left_app. Qed.

Lemma contents_set_len f n : contents (file_set_len f n) = set_len_bytes n (contents f).
Proof. unfold contents; simpl. by rewrite fold_left_app. Qed.

Lemma crash_synced f l : crash_file (file_sync_all f) l -> l = contents f.
Proof. unfold crash_file; simpl. by inversion 1. Qed.

(** The crash images of one more operation: those of before, or those of the
    operation stopped somewhere. *)
Lemma crash_ops_snoc ops op l l' :
  crash_ops (ops ++ [op]) l l' ->
  crash_ops ops l l' \/ crash_ops [op] (fold_left apply_op ops l) l'.
Proof.
  revert l; induction ops as [|op' ops IH]; intros l Hc; [by right|].
  simpl in Hc. inversion Hc; subst; simpl.
  - left. constructor.
  - left. by constructor.
  - destruct (IH _ ltac:(eassumption)) as [H|H]; [left; by constructor | by right].
Qed.

Lemma crash_ops_full ops l : crash_ops ops l (fold_left apply_op ops l).
Proof. revert l; induction ops as [|op ops IH]; intros l; simpl; constructor. apply IH. Qed.

Lemma crash_contents f : crash_file f (contents f).
Proof. apply crash_ops_full. Qed.

Lemma crash_write f offset bytes l :
  crash_file (file_write_all f offset bytes) l ->
  crash_file f l \/ exists x, x `prefix_of` bytes /\ l = write_at_bytes offset x (contents f).
Proof.
  intros [H|H]%crash_ops_snoc; [by left|]. inversion H as [|? ? x ? ? Hp|? ? ? ? H']; subst.
  - left. apply crash_contents.
  - right. by exists x.
  - inversion H'; subst. right. by exists bytes.
Qed.

Lemma crash_set_len f n l :
  crash_file (file_set_len f n) l -> crash_file f l \/ l = set_len_bytes n (contents f).
Proof.
  intros [H|H]%crash_ops_snoc; [by left|]. inversion H as [| |? ? ? ? H']; subst.
  - left. apply crash_contents.
  - inversion H'; subst. by right.
Qed.
