(* ===== verification/Wal.v ===== *)
(** * The write-ahead log store ([onced-core/src/wal.rs], lines 248 to 516)

    A [WalStore] owns its file handle and thereby the files of the disk model;
    [file] is the handle's write cursor.  Every [expect] of the source aborts
    the process, which is a crash after the disk operations done so far: the
    [*_states] functions list the disk after each of them. *)

From S2P Require Import Prelude Machine HashMap Types Store Hash Crc Codec Disk.

(** Why [open_with] refuses a log ([ErrorKind::InvalidData] with its message). *)
Inductive OpenError :=
| ChainMismatch (offset : Z)
| ChecksumFailure (offset : Z).

#[export] Instance OpenError_eq_dec : EqDecision OpenError.
Proof. solve_decision. Defined.

Record WalStore := MkWalStore {
  index : gmap IdempotencyKey KeyState;
  file : Z;
  disk : Disk;
  pending : list byte;
  sync_each : bool;
  chain_root : list byte;
}.

(** Whether the directory sync takes effect depends on the platform; a failure
    is ignored. *)
Definition sync_parent_dir (d : Disk) : Disk :=
  if dir_sync_ok d then MkDisk (log d) (tmp d) [] (dir_sync_ok d) else d.

(** [&buf[a..b]] where the range is known to lie in the buffer. *)
Definition slice (buf : list byte) (a b : Z) : list byte :=
  take (Z.to_nat (b - a)) (drop (Z.to_nat a) buf).

(** The replay loop; every iteration consumes at least a header, so the buffer
    length bounds the iterations ([replay_inv] shows that the bound is never
    what ends the loop). *)
Fixpoint replay (fuel : nat) (buf : list byte) (offset : Z)
    (index : gmap IdempotencyKey KeyState) (chain_root : list byte)
  : result (gmap IdempotencyKey KeyState * Z * list byte) OpenError :=
  match fuel with
  | O => Ok (index, offset, chain_root)
  | S fuel =>
      match decode_record (drop (Z.to_nat offset) buf) with
      | None => Ok (index, offset, chain_root)
      | Some (consumed, key, state, stored_chain) =>
          let crc := from_le_bytes (slice buf (offset + 4) (offset + 8)) in
          let payload := slice buf (offset + HEADER_LEN) (offset + consumed) in
          let expected_chain := compute_chain chain_root crc payload in
          if decide (expected_chain = stored_chain)
          then replay fuel buf (offset + consumed) (<[key := state]> index) expected_chain
          else Err (ChainMismatch offset)
      end
  end.

Definition open_with (d : Disk) (sync_each : bool) : result WalStore OpenError :=
  let buf := contents (log d) in
  match replay (S (length buf)) buf 0 ∅ GENESIS with
  | Err e => Err e
  | Ok (index, offset, chain_root) =>
      let remaining := drop (Z.to_nat offset) buf in
      if negb (bool_decide (remaining = [])) && is_complete_frame remaining
      then Err (ChecksumFailure offset)
      else Ok (MkWalStore index offset (with_log d (file_set_len (log d) offset)) [] sync_each
                 chain_root)
  end.

Definition WalStore_open (d : Disk) : result WalStore OpenError := open_with d true.
Definition WalStore_open_buffered (d : Disk) : result WalStore OpenError := open_with d false.

Definition root (s : WalStore) : list byte := chain_root s.

(** The disk while [flush_pending] runs: after the write, after the sync. *)
Definition flush_states (s : WalStore) : list Disk :=
  if bool_decide (pending s = []) then []
  else
    let f1 := file_write_all (log (disk s)) (file s) (pending s) in
    [with_log (disk s) f1; with_log (disk s) (file_sync_all f1)].

Definition flush_pending (s : WalStore) : WalStore :=
  if bool_decide (pending s = []) then s
  else
    let f1 := file_write_all (log (disk s)) (file s) (pending s) in
    let f2 := file_sync_all f1 in
    MkWalStore (index s) (file s + len (pending s)) (with_log (disk s) f2) [] (sync_each s)
      (chain_root s).

(** [values().filter_map(..).max().unwrap_or(0)]. *)
Definition WalStore_max_in_progress_fence (s : WalStore) : Z := max_fence (index s).

Definition WalStore_get (s : WalStore) (key : IdempotencyKey) : option KeyState := index s !! key.

(** [put] before its durability step. *)
Definition append (s : WalStore) (key : IdempotencyKey) (state : KeyState) : WalStore :=
  let record := encode_record key state (chain_root s) in
  let new_chain := slice record 8 40 in
  MkWalStore (<[key := state]> (index s)) (file s) (disk s) (pending s ++ record) (sync_each s)
    new_chain.

Definition WalStore_put (s : WalStore) (key : IdempotencyKey) (state : KeyState) : WalStore :=
  let s := append s key state in
  if sync_each s then flush_pending s else s.

Definition WalStore_flush (s : WalStore) : WalStore := flush_pending s.

Section compaction.
Context `{!HashOrder IdempotencyKey}.

(** The loop that writes one record per entry, with the chain restarted. *)
Definition compact_log (entries : list (IdempotencyKey * KeyState)) : list byte * list byte :=
  fold_left (fun '(compacted, chain) '(key, state) =>
    let record := encode_record key state chain in
    (compacted ++ record, slice record 8 40)) entries ([], GENESIS).

(** The disk while [compact] runs: temp file created, written, synced; renamed;
    directory synced. *)
Definition compact_states (d : Disk) (compacted : list byte) : list Disk :=
  let d1 := with_tmp d file_empty in
  let d2 := with_tmp d1 (file_write_all file_empty 0 compacted) in
  let d3 := with_tmp d2 (file_sync_all (file_write_all file_empty 0 compacted)) in
  let d4 := disk_rename d3 in
  [d1; d2; d3; d4; sync_parent_dir d4].

Definition WalStore_compact (s : WalStore) (keep : IdempotencyKey -> KeyState -> bool) : WalStore :=
  let index := retain keep (index s) in
  let (compacted, new_chain_root) := compact_log (hm_iter index) in
  let d := List.last (compact_states (disk s) compacted) (disk s) in
  MkWalStore index (len (contents (log d))) d [] (sync_each s) new_chain_root.

#[export] Instance WalStore_Store : Store WalStore := {
  get := WalStore_get;
  put := WalStore_put;
  max_in_progress_fence := WalStore_max_in_progress_fence;
  flush := WalStore_flush;
  compact := WalStore_compact;
}.

End compaction.
