(* ===== verification/WalLog.v ===== *)
(** * The log as a sequence of payloads

    The abstract log behind the bytes: a list of payloads, each of which
    decodes, framed one after the other with the hash chain running through
    them.  Replaying the bytes of a log gives back the map and the chain root
    that the payloads determine, and whatever [open_with] accepts is such a log
    followed by an incomplete frame. *)

From S2P Require Import Prelude Machine HashMap Types Store Hash Crc Codec Disk Wal.

(** The next chain value. *)
Definition link (chain payload : list byte) : list byte :=
  compute_chain chain (crc32 payload) payload.

Definition chain_end (chain : list byte) (ps : list (list byte)) : list byte :=
  fold_left link ps chain.

Fixpoint chain_log (chain : list byte) (ps : list (list byte)) : list byte :=
  match ps with
  | [] => []
  | p :: ps => frame (link chain p) p ++ chain_log (link chain p) ps
  end.

Definition apply_payload (m : gmap IdempotencyKey KeyState) (p : list byte)
  : gmap IdempotencyKey KeyState :=
  match decode_payload p with Some (k, st) => <[k := st]> m | None => m end.

(** The map that the payloads of a log determine. *)
Definition replayed (m : gmap IdempotencyKey KeyState) (ps : list (list byte))
  : gmap IdempotencyKey KeyState := fold_left apply_payload ps m.

Definition valid_payload (p : list byte) : Prop := short p /\ is_Some (decode_payload p).

#[export] Instance valid_payload_dec p : Decision (valid_payload p).
Proof. unfold valid_payload. apply _. Defined.

(** The bytes are the log [ps] followed by an incomplete frame. *)
Definition log_image (ps : list (list byte)) (l : list byte) : Prop :=
  exists torn, l = chain_log GENESIS ps ++ torn /\ is_complete_frame torn = false.

(** ** Structure *)

Lemma link_length c p : length (link c p) = 32%nat.
Proof. apply compute_chain_length. Qed.

Lemma chain_log_app c ps qs :
  chain_log c (ps ++ qs) = chain_log c ps ++ chain_log (chain_end c ps) qs.
Proof.
  revert c; induction ps as [|p ps IH]; intros c; [done|]. cbn [app chain_log].
  rewrite IH, <- app_assoc. done.
Qed.

Lemma chain_end_app c ps qs : chain_end c (ps ++ qs) = chain_end (chain_end c ps) qs.
Proof. apply fold_left_app. Qed.

Lemma replayed_app m ps qs : replayed m (ps ++ qs) = replayed (replayed m ps) qs.
Proof. apply fold_left_app. Qed.

Lemma chain_end_length c ps : length c = 32%nat -> length (chain_end c ps) = 32%nat.
Proof.
  intros Hc. destruct ps as [|p ps] using rev_ind; [done|].
  rewrite chain_end_app. apply link_length.
Qed.

Lemma len_chain_log c ps : 40 * len ps <= len (chain_log c ps).
Proof.
  revert c; induction ps as [|p ps IH]; intros c; [done|]. cbn [chain_log].
  rewrite len_app, len_frame by apply link_length. specialize (IH (link c p)).
  pose proof (len_nonneg p). unfold HEADER_LEN. unfold len in *. rewrite length_cons. lia.
Qed.

Lemma chain_log_empty c ps : chain_log c ps = [] -> ps = [].
Proof.
  intros E. pose proof (len_chain_log c ps) as H. rewrite E in H. unfold len in H. simpl in H.
  destruct ps; [done|]. simpl in H. lia.
Qed.

(** ** Replay *)

Lemma slice_mid (pre s post : list byte) a b :
  a = len pre -> b = len pre + len s -> slice (pre ++ s ++ post) a b = s.
Proof.
  intros -> ->. unfold slice. replace (len pre + len s - len pre) with (len s) by lia.
  unfold len. rewrite !Nat2Z.id. by rewrite drop_app_length, take_app_length.
Qed.

(** The fields that the replay loop reads from a frame at [offset]. *)
Lemma frame_slices pre c p rest :
  length c = 32%nat ->
  from_le_bytes (slice (pre ++ frame c p ++ rest) (len pre + 4) (len pre + 8)) = crc32 p /\
  slice (pre ++ frame c p ++ rest) (len pre + HEADER_LEN) (len pre + (HEADER_LEN + len p)) = p.
Proof.
  intros Hc. unfold frame. split.
  - replace (pre ++ (to_le_bytes 4 (len p) ++ to_le_bytes 4 (crc32 p) ++ c ++ p) ++ rest)
      with ((pre ++ to_le_bytes 4 (len p)) ++ to_le_bytes 4 (crc32 p) ++ (c ++ p ++ rest))
      by (by rewrite <- !app_assoc).
    rewrite slice_mid; rewrite ?len_app, ?len_to_le_bytes; [|lia..].
    apply (from_to_le_bytes 4), crc32_range.
  - replace (pre ++ (to_le_bytes 4 (len p) ++ to_le_bytes 4 (crc32 p) ++ c ++ p) ++ rest)
      with ((pre ++ to_le_bytes 4 (len p) ++ to_le_bytes 4 (crc32 p) ++ c) ++ p ++ rest)
      by (by rewrite <- !app_assoc).
    apply slice_mid; rewrite !len_app, !len_to_le_bytes, (len_of c 32) by done;
      unfold HEADER_LEN; lia.
Qed.

Lemma drop_len (pre l : list byte) : drop (Z.to_nat (len pre)) (pre ++ l) = l.
Proof. unfold len. rewrite Nat2Z.id. apply drop_app_length. Qed.

(** One iteration on a frame that decodes. *)
Lemma replay_step fuel pre c p rest m root k st :
  length c = 32%nat -> short p -> decode_payload p = Some (k, st) ->
  replay (S fuel) (pre ++ frame c p ++ rest) (len pre) m root =
  if decide (link root p = c)
  then replay fuel ((pre ++ frame c p) ++ rest) (len (pre ++ frame c p)) (<[k := st]> m) (link root p)
  else Err (ChainMismatch (len pre)).
Proof.
  intros Hc Hs Hd. cbn [replay]. rewrite drop_len, decode_record_frame, Hd by done. cbn [mbind option_bind].
  destruct (frame_slices pre c p rest Hc) as [E1 E2]. rewrite E1, E2. fold (link root p).
  by rewrite len_app, len_frame, <- app_assoc by done.
Qed.

(** Replaying a log gives what its payloads determine. *)
Lemma replay_log fuel ps pre rest m root :
  Forall valid_payload ps -> (length ps < fuel)%nat -> decode_record rest = None ->
  replay fuel (pre ++ chain_log root ps ++ rest) (len pre) m root =
  Ok (replayed m ps, len (pre ++ chain_log root ps), chain_end root ps).
Proof.
  intros Hps. revert fuel pre m root. induction Hps as [|p ps [Hs [[k st] Hd]] _ IH];
    intros fuel pre m root Hf Hr; (destruct fuel as [|fuel]; [simpl in Hf; lia|]).
  - cbn [replay chain_log]. rewrite app_nil_l, drop_len, Hr, app_nil_r. done.
  - cbn [chain_log]. rewrite <- app_assoc.
    rewrite (replay_step _ _ _ _ _ _ _ k st) by (done || apply link_length).
    rewrite decide_True by done. rewrite IH by (simpl in Hf; (lia || done)).
    rewrite <- app_assoc. unfold replayed. cbn [fold_left]. unfold apply_payload at 3. by rewrite Hd.
Qed.

(** What the loop read when it ended without an error: a log, up to a point
    where nothing decodes. *)
Lemma replay_inv fuel buf pre m root m' off root' :
  (length buf < fuel)%nat ->
  replay fuel (pre ++ buf) (len pre) m root = Ok (m', off, root') ->
  exists ps rest, buf = chain_log root ps ++ rest /\ Forall valid_payload ps /\
    decode_record rest = None /\ m' = replayed m ps /\
    off = len (pre ++ chain_log root ps) /\ root' = chain_end root ps.
Proof.
  revert buf pre m root; induction fuel as [|fuel IH]; intros buf pre m root Hf Hr; [lia|].
  destruct (decode_record buf) as [[[[total k] st] c]|] eqn:Hd.
  - apply decode_record_inv in Hd as (p & rest & -> & -> & Hs & Hc & Hp).
    rewrite (replay_step _ _ _ _ _ _ _ k st) in Hr by done. case_decide as Hl; [|done].
    apply IH in Hr as (ps & rest' & -> & Hps & Hn & -> & -> & ->).
    + exists (p :: ps), rest'. cbn [chain_log]. rewrite Hl. split_and!; try done.
      * by rewrite app_assoc.
      * constructor; [|done]. split; [done | by rewrite Hp].
      * unfold replayed. cbn [fold_left]. unfold apply_payload at 3. by rewrite Hp.
      * by rewrite <- app_assoc.
      * unfold chain_end. cbn [fold_left]. by rewrite Hl.
    + rewrite length_app in Hf. pose proof (len_frame c p Hc) as Hlf.
      pose proof (len_nonneg p). unfold len, HEADER_LEN in *. lia.
  - cbn [replay] in Hr. rewrite drop_len, Hd in Hr. simplify_eq.
    exists [], buf. rewrite app_nil_r. done.
Qed.

(** ** Opening a log *)

(** What [open_with] returns for a log. *)
Definition opened (d : Disk) (mode : bool) (ps : list (list byte)) : WalStore :=
  MkWalStore (replayed ∅ ps) (len (chain_log GENESIS ps))
    (with_log d (file_set_len (log d) (len (chain_log GENESIS ps)))) [] mode
    (chain_end GENESIS ps).

Lemma open_log d mode ps :
  Forall valid_payload ps -> log_image ps (contents (log d)) ->
  open_with d mode = Ok (opened d mode ps).
Proof.
  intros Hps (torn & Hc & Ht). unfold open_with. rewrite Hc.
  pose proof (len_chain_log GENESIS ps) as Hlen.
  change 0 with (len (@nil byte)). rewrite <- (app_nil_l (chain_log GENESIS ps ++ torn)) at 2.
  rewrite replay_log; [|done| |by apply incomplete_no_decode].
  - simpl app. rewrite drop_len, Ht, andb_false_r. done.
  - rewrite length_app. unfold len in Hlen. lia.
Qed.

(** Everything that opens is a log. *)
Lemma open_inv d mode s :
  open_with d mode = Ok s ->
  exists ps, Forall valid_payload ps /\ log_image ps (contents (log d)) /\ s = opened d mode ps.
Proof.
  unfold open_with. intros Ho.
  destruct (replay _ _ _ _ _) as [[[m off] root]|] eqn:Hr; [|done].
  apply (replay_inv _ _ []) in Hr as (ps & rest & Hc & Hps & Hn & -> & -> & ->); [|lia].
  simpl app in *. rewrite Hc, drop_len in Ho.
  exists ps. split; [done|]. assert (is_complete_frame rest = false) as Hf.
  { destruct (is_complete_frame rest) eqn:E; [|done].
    destruct (decide (rest = [])) as [->|Hne]; [done|].
    by rewrite bool_decide_false in Ho. }
  rewrite Hf, andb_false_r in Ho. simplify_eq. split; [|done]. by exists rest.
Qed.

(** Every entry of a replayed map can be written again. *)
Lemma replayed_encodable ps m :
  Forall valid_payload ps -> (forall k st, m !! k = Some st -> encodable k st) ->
  forall k st, replayed m ps !! k = Some st -> encodable k st.
Proof.
  intros Hps. revert m; induction Hps as [|p ps [Hs [[k' st'] Hd]] _ IH]; intros m Hm; [done|].
  unfold replayed. cbn [fold_left]. apply IH. unfold apply_payload. rewrite Hd.
  intros k st [[<- <-]|[_ Hk]]%lookup_insert_Some; [by eapply decode_payload_encodable | eauto].
Qed.

(** Cutting a log anywhere leaves a shorter log and an incomplete frame. *)
Lemma prefix_log_image ps c x :
  Forall valid_payload ps -> x `prefix_of` chain_log c ps ->
  exists qs rs torn, ps = qs ++ rs /\ x = chain_log c qs ++ torn /\ is_complete_frame torn = false /\
    torn `prefix_of` chain_log (chain_end c qs) rs.
Proof.
  intros Hps. revert c x; induction Hps as [|p ps [Hs _] _ IH]; intros c x Hx; cbn [chain_log] in Hx.
  - apply prefix_nil_inv in Hx as ->. by exists [], [], [].
  - destruct (prefix_app_inv _ _ _ Hx) as [[Hp Hne]|(x' & -> & Hx')].
    + exists [], (p :: ps), x. split_and!; try done.
      eapply frame_prefix_incomplete; eauto using link_length.
    + destruct (IH _ _ Hx') as (qs & rs & torn & -> & -> & Ht & Hpre).
      exists (p :: qs), rs, torn. split_and!; try done. cbn [chain_log]. by rewrite app_assoc.
Qed.
