(* ===== verification/WalSpec.v ===== *)
(** * What the write-ahead log promises

    The representation invariant of [WalStore], its laws as a [Store], and its
    durability: what a crash at any point leaves to be recovered. *)

From S2P Require Import Prelude Machine HashMap Types Store Hash Crc Codec Disk Wal WalLog.

(** ** The representation invariant

    [ps] are the payloads in the file, [qs] those still in the buffer.  Every
    crash of the file keeps exactly [ps]. *)
Record wal_repr (s : WalStore) (ps qs : list (list byte)) : Prop := {
  repr_contents : contents (log (disk s)) = chain_log GENESIS ps;
  repr_cursor : file s = len (chain_log GENESIS ps);
  repr_pending : pending s = chain_log (chain_end GENESIS ps) qs;
  repr_valid : Forall valid_payload (ps ++ qs);
  repr_index : index s = replayed ∅ (ps ++ qs);
  repr_root : chain_root s = chain_end GENESIS (ps ++ qs);
  repr_crash : forall l, crash_file (log (disk s)) l -> log_image ps l;
}.

(** The invariant of a store between operations: strict mode leaves nothing in
    the buffer. *)
Definition wal_ok (s : WalStore) : Prop :=
  (exists ps qs, wal_repr s ps qs) /\ (sync_each s = true -> pending s = []).

Lemma image_nil ps : log_image ps (chain_log GENESIS ps).
Proof. exists []. by rewrite app_nil_r. Qed.

Lemma opened_repr d mode ps :
  Forall valid_payload ps -> log_image ps (contents (log d)) ->
  (forall l, crash_file (log d) l -> log_image ps l) ->
  wal_repr (opened d mode ps) ps [].
Proof.
  intros Hps (torn & Hc & _) Hcr. constructor; simpl; rewrite ?app_nil_r; try done.
  - rewrite contents_set_len, Hc. apply set_len_cut.
  - intros l [Hl|Hl]%crash_set_len; [by apply Hcr|].
    rewrite Hc, set_len_cut in Hl. rewrite Hl. apply image_nil.
Qed.

(** A log on which nothing is in flight, as after a boot. *)
Definition settled (d : Disk) : Prop := volatile (log d) = [].

Lemma crash_disk_settled d d' : crash_disk d d' -> settled d'.
Proof. by destruct 1. Qed.

Lemma settled_crash d l : settled d -> crash_file (log d) l -> l = contents (log d).
Proof.
  unfold settled. intros Hv. unfold crash_file, contents. rewrite Hv. by inversion 1.
Qed.

Lemma opened_ok d mode ps :
  settled d -> Forall valid_payload ps -> log_image ps (contents (log d)) ->
  wal_ok (opened d mode ps).
Proof.
  intros Hset Hps Hi. split; [|done].
  exists ps, []. apply opened_repr; [done..|]. intros l Hl. by rewrite (settled_crash d l).
Qed.

Lemma open_ok d mode s : settled d -> open_with d mode = Ok s -> wal_ok s.
Proof. intros Hset (ps & Hps & Hi & ->)%open_inv. by apply opened_ok. Qed.

(** ** Operations *)

Lemma record_chain k st c :
  short (encode_payload k st) -> slice (encode_record k st c) 8 40 = link c (encode_payload k st).
Proof.
  intros Hs. rewrite encode_record_frame by done. unfold frame. fold (link c (encode_payload k st)).
  rewrite app_assoc. apply slice_mid; rewrite !len_app, !len_to_le_bytes; [done|].
  by rewrite (len_of (link _ _) 32) by apply link_length.
Qed.

Lemma encode_valid k st : encodable k st -> valid_payload (encode_payload k st).
Proof. intros He. split; [apply He|]. rewrite decode_payload_encode by done. eauto. Qed.

Lemma append_repr s ps qs k st :
  wal_repr s ps qs -> encodable k st ->
  wal_repr (append s k st) ps (qs ++ [encode_payload k st]).
Proof.
  intros Hr He. destruct Hr as [Hc Hf Hp Hv Hi Hro Hcr]. constructor; simpl; try done.
  - rewrite chain_log_app, <- chain_end_app, Hp. cbn [chain_log]. rewrite app_nil_r.
    by rewrite encode_record_frame, Hro by apply He.
  - rewrite app_assoc. apply Forall_app. split; [done|]. constructor; [by apply encode_valid | done].
  - rewrite app_assoc, replayed_app, <- Hi. unfold replayed. cbn [fold_left].
    unfold apply_payload. by rewrite decode_payload_encode.
  - rewrite record_chain by apply He. by rewrite app_assoc, chain_end_app, <- Hro.
Qed.

Lemma pending_nil s ps qs : wal_repr s ps qs -> pending s = [] -> qs = [].
Proof. intros Hr Hp. rewrite (repr_pending _ _ _ Hr) in Hp. by eapply chain_log_empty. Qed.

Lemma flush_repr s ps qs : wal_repr s ps qs -> wal_repr (flush_pending s) (ps ++ qs) [].
Proof.
  intros Hr. unfold flush_pending. case_bool_decide as Hp.
  { pose proof (pending_nil s ps qs Hr Hp); subst qs. by rewrite app_nil_r. }
  destruct Hr as [Hc Hf Hpe Hv Hi Hro Hcr].
  assert (contents (file_write_all (log (disk s)) (file s) (pending s)) = chain_log GENESIS (ps ++ qs)) as E.
  { by rewrite contents_write, Hc, Hf, write_at_end, Hpe, chain_log_app. }
  constructor; simpl; rewrite ?app_nil_r; try done.
  - rewrite Hf, chain_log_app, len_app, Hpe. done.
  - intros l ->%crash_synced. rewrite E. apply image_nil.
Qed.

(** The buffer is what a flush writes; a crash while it runs keeps the records
    of the file and a first part of those of the buffer. *)
Lemma flush_crash s ps qs d l :
  wal_repr s ps qs -> d ∈ disk s :: flush_states s -> crash_file (log d) l ->
  exists qs1 qs2, qs = qs1 ++ qs2 /\ log_image (ps ++ qs1) l.
Proof.
  intros Hr Hd Hl. pose proof (repr_crash _ _ _ Hr) as Hcr.
  assert (crash_file (log (disk s)) l -> exists qs1 qs2, qs = qs1 ++ qs2 /\ log_image (ps ++ qs1) l) as Hold.
  { intros H. exists [], qs. rewrite app_nil_r. split; [done | by apply Hcr]. }
  pose proof (flush_repr _ _ _ Hr) as Hr'. unfold flush_states, flush_pending in *.
  case_bool_decide as Hp; set_unfold in Hd; destruct_or? Hd; subst; try (by apply Hold).
  - apply crash_write in Hl as [Hl|(x & Hx & ->)]; [by apply Hold|].
    rewrite (repr_contents _ _ _ Hr), (repr_cursor _ _ _ Hr), write_at_end.
    rewrite (repr_pending _ _ _ Hr) in Hx.
    apply prefix_log_image in Hx as (qs1 & qs2 & torn & -> & -> & Ht & _).
    + exists qs1, qs2. split; [done|]. exists torn. by rewrite chain_log_app, app_assoc.
    + pose proof (repr_valid _ _ _ Hr) as Hv. by apply Forall_app in Hv as [_ ?].
  - exists qs, []. rewrite app_nil_r. split; [done|]. by apply (repr_crash _ _ _ Hr').
Qed.

Lemma flush_frame s :
  index (flush_pending s) = index s /\ sync_each (flush_pending s) = sync_each s /\
  chain_root (flush_pending s) = chain_root s /\ pending (flush_pending s) = [] /\
  dir_sync_ok (disk (flush_pending s)) = dir_sync_ok (disk s) /\
  replaced (disk (flush_pending s)) = replaced (disk s).
Proof. unfold flush_pending. case_bool_decide; by split_and!. Qed.

Lemma flush_pending_ok s : wal_ok s -> wal_ok (flush_pending s).
Proof.
  intros ((ps & qs & Hr) & Hs). destruct (flush_frame s) as (_ & Es & _ & Ep & _).
  split; [by eexists _, _; apply flush_repr | done].
Qed.

Lemma put_repr s k st :
  wal_ok s -> encodable k st -> wal_ok (WalStore_put s k st).
Proof.
  intros ((ps & qs & Hr) & Hs) He. pose proof (append_repr _ _ _ _ _ Hr He) as Hr'.
  unfold WalStore_put. simpl. destruct (sync_each s) eqn:E.
  - destruct (flush_frame (append s k st)) as (_ & _ & _ & Ep & _).
    split; [by eexists _, _; apply flush_repr | done].
  - split; [by eexists _, _ | by simpl; rewrite E].
Qed.

Lemma put_index s k st : index (WalStore_put s k st) = <[k := st]> (index s).
Proof.
  unfold WalStore_put. destruct (sync_each _); [|done]. by destruct (flush_frame (append s k st)) as (-> & _).
Qed.

Lemma put_sync_each s k st : sync_each (WalStore_put s k st) = sync_each s.
Proof.
  unfold WalStore_put. destruct (sync_each (append s k st)) eqn:E; [|done].
  destruct (flush_frame (append s k st)) as (_ & -> & _). done.
Qed.

(** ** Compaction *)

Section compaction_lemmas.
Context `{!HashOrder IdempotencyKey}.

Definition entry_payloads (es : list (IdempotencyKey * KeyState)) : list (list byte) :=
  map (fun kv => encode_payload kv.1 kv.2) es.

Definition entries_encodable (m : gmap IdempotencyKey KeyState) : Prop :=
  forall k st, m !! k = Some st -> encodable k st.

(** The rewrite loop produces the log of the entries. *)
Lemma compact_log_eq es :
  Forall (fun kv => encodable kv.1 kv.2) es ->
  compact_log es = (chain_log GENESIS (entry_payloads es), chain_end GENESIS (entry_payloads es)).
Proof.
  intros Hes. induction es as [|[k st] es IH] using rev_ind; [done|].
  apply Forall_app in Hes as [Hes Hk]. inversion Hk as [|? ? He _]; subst. simpl in He.
  unfold compact_log in *. rewrite fold_left_app, IH by done. cbn [fold_left].
  unfold entry_payloads. rewrite map_app, chain_log_app, chain_end_app. cbn [map chain_log fst snd].
  rewrite app_nil_r, record_chain by apply He. by rewrite encode_record_frame by apply He.
Qed.

Lemma replayed_entries es m :
  Forall (fun kv => encodable kv.1 kv.2) es ->
  replayed m (entry_payloads es) = fold_left (fun (acc : gmap IdempotencyKey KeyState) kv => <[kv.1 := kv.2]> acc) es m.
Proof.
  intros Hes. revert m; induction Hes as [|[k st] es He _ IH]; intros m; [done|].
  unfold replayed, entry_payloads in *. cbn [map fold_left]. rewrite IH.
  unfold apply_payload; simpl. by rewrite decode_payload_encode.
Qed.

(** The log that compaction writes for a map. *)
Definition compacted_payloads (m : gmap IdempotencyKey KeyState) : list (list byte) :=
  entry_payloads (hm_iter m).

Lemma hm_iter_encodable m :
  entries_encodable m -> Forall (fun kv => encodable kv.1 kv.2) (hm_iter m).
Proof. intros Hm. apply Forall_forall. intros [k st] Hin%elem_of_hm_iter. by apply Hm. Qed.

Lemma compacted_valid m : entries_encodable m -> Forall valid_payload (compacted_payloads m).
Proof.
  intros Hm%hm_iter_encodable. unfold compacted_payloads, entry_payloads. apply Forall_map.
  eapply Forall_impl; [exact Hm|]. intros [k st]; apply encode_valid.
Qed.

Lemma compacted_replayed m : entries_encodable m -> replayed ∅ (compacted_payloads m) = m.
Proof.
  intros Hm. unfold compacted_payloads. rewrite replayed_entries by (by apply hm_iter_encodable).
  apply fold_insert_hm_iter.
Qed.

Lemma wal_encodable s : wal_ok s -> entries_encodable (index s).
Proof.
  intros ((ps & qs & Hr) & _). intros k st. rewrite (repr_index _ _ _ Hr).
  apply replayed_encodable; [apply Hr | by intros ? ? ?%lookup_empty_Some].
Qed.

Lemma retain_encodable keep m : entries_encodable m -> entries_encodable (retain keep m).
Proof. intros Hm k st Hk. apply Hm. rewrite retain_lookup in Hk. by split_matches. Qed.

(** The disk at the end of a compaction that writes [l]. *)
Lemma compact_states_last d l :
  let d' := List.last (compact_states d l) d in
  contents (log d') = l /\ volatile (log d') = [] /\ dir_sync_ok d' = dir_sync_ok d /\
  (dir_sync_ok d = true -> linked d').
Proof.
  assert (write_at_bytes 0 l [] = l) as E by apply (write_at_end []).
  unfold compact_states, sync_parent_dir, disk_rename, file_sync_all, contents; simpl.
  destruct (dir_sync_ok d) eqn:Ed; simpl; rewrite E; by split_and!.
Qed.

Lemma compact_repr s keep :
  wal_ok s ->
  wal_repr (WalStore_compact s keep) (compacted_payloads (retain keep (index s))) [] /\
  wal_ok (WalStore_compact s keep).
Proof.
  intros Hok. pose proof (retain_encodable keep _ (wal_encodable s Hok)) as Hm.
  unfold WalStore_compact. rewrite compact_log_eq by (by apply hm_iter_encodable).
  fold (compacted_payloads (retain keep (index s))). set (ps := compacted_payloads _).
  destruct (compact_states_last (disk s) (chain_log GENESIS ps)) as (Hc & Hv & Hd & Hre).
  set (d' := List.last _ _) in *.
  assert (wal_repr (MkWalStore (retain keep (index s)) (len (contents (log d'))) d' [] (sync_each s)
                      (chain_end GENESIS ps)) ps []) as Hr.
  { constructor; simpl; rewrite ?app_nil_r; try done.
    - by rewrite Hc.
    - by apply compacted_valid.
    - symmetry. by apply compacted_replayed.
    - intros l Hl. unfold crash_file in Hl. rewrite Hv in Hl. inversion Hl; subst.
      unfold contents in Hc. rewrite Hv in Hc. simpl in Hc. rewrite Hc. apply image_nil. }
  split; [done|]. by split; [eauto|].
Qed.

Lemma compact_index s keep : index (WalStore_compact s keep) = retain keep (index s).
Proof. unfold WalStore_compact. by destruct (compact_log _). Qed.

(** ** [WalStore] is a [Store], and a durable one *)

#[export, refine] Instance WalStore_laws : StoreLaws WalStore := {
  view := index;
  store_ok := wal_ok;
  admits := encodable;
}.
Proof.
  - done.
  - intros s k st Hs He. by apply put_repr.
  - intros s k st _. apply put_index.
  - intros s Hs. by apply flush_pending_ok.
  - intros s _. apply flush_frame.
  - intros s keep Hs. by apply compact_repr.
  - intros s keep _. apply compact_index.
  - intros s k st Hs. by apply (wal_encodable s Hs).
Defined.

(** A restart after a crash at a point where nothing is buffered (always, in
    strict mode; after a flush, in group-commit mode) of a log whose directory
    entry is on the device.  It is there after a crash that found the log and
    after a compaction that could sync the directory; writes keep it. *)
Definition wal_recover (s s' : WalStore) : Prop :=
  pending s = [] /\ linked (disk s) /\
  exists d', crash_disk (disk s) d' /\ open_with d' (sync_each s) = Ok s'.

(** Recovery succeeds and gives back the records and the chain root. *)
Lemma crash_opens s d' mode :
  wal_ok s -> pending s = [] -> linked (disk s) -> crash_disk (disk s) d' ->
  exists s', open_with d' mode = Ok s' /\ wal_ok s' /\ index s' = index s /\ root s' = root s /\
    linked (disk s').
Proof.
  intros ((ps & qs & Hr) & _) Hp Hd Hc. pose proof (crash_disk_settled _ _ Hc) as Hset.
  pose proof (pending_nil s ps qs Hr Hp); subst qs.
  assert (Forall valid_payload ps) as Hv by (rewrite <- (app_nil_r ps); apply Hr).
  destruct (crash_linked _ _ Hd Hc) as (l & t & Ed' & Hl).
  assert (log_image ps (contents (log d'))) as Hi by (rewrite Ed'; by apply (repr_crash _ _ _ Hr l)).
  exists (opened d' mode ps). split; [by apply open_log|]. split; [by apply opened_ok|].
  split_and!; simpl; [| |by rewrite Ed'].
  - by rewrite (repr_index _ _ _ Hr), app_nil_r.
  - unfold root; simpl. by rewrite (repr_root _ _ _ Hr), app_nil_r.
Qed.

(** The directory entry of a log after each operation. *)
Lemma put_linked s k st : linked (disk s) -> linked (disk (WalStore_put s k st)).
Proof.
  unfold linked, WalStore_put. intros Hl. destruct (sync_each _); [|done].
  by destruct (flush_frame (append s k st)) as (_ & _ & _ & _ & _ & ->).
Qed.

Lemma flush_linked s : linked (disk s) -> linked (disk (flush_pending s)).
Proof. unfold linked. intros Hl. by destruct (flush_frame s) as (_ & _ & _ & _ & _ & ->). Qed.

Lemma compact_linked s keep : dir_sync_ok (disk s) = true -> linked (disk (WalStore_compact s keep)).
Proof. intros Hd. unfold WalStore_compact. destruct (compact_log _). by apply compact_states_last. Qed.

Lemma recover_inv s s' :
  wal_ok s -> wal_recover s s' -> wal_ok s' /\ index s' = index s.
Proof.
  intros Hok (Hp & Hd & d' & Hc & Ho).
  destruct (crash_opens s d' (sync_each s) Hok Hp Hd Hc) as (s2 & Ho' & Hok' & Hi & _).
  rewrite Ho in Ho'. by simplify_eq.
Qed.

#[export, refine] Instance WalStore_durable : DurableLaws WalStore := { recover := wal_recover }.
Proof.
  - intros s s' Hs Hr. by apply (recover_inv s).
  - intros s s' Hs Hr. by apply (recover_inv s).
  - done.
Defined.

(** The disk while a [put] runs: before it and, in strict mode, while it
    flushes. *)
Definition put_states (s : WalStore) (k : IdempotencyKey) (st : KeyState) : list Disk :=
  disk s :: (if sync_each s then flush_states (append s k st) else []).

Definition wal_recover_put (s : WalStore) (k : IdempotencyKey) (st : KeyState) (s' : WalStore) : Prop :=
  pending s = [] /\ linked (disk s) /\
  exists d d', d ∈ put_states s k st /\ crash_disk d d' /\ open_with d' (sync_each s) = Ok s'.

Lemma put_crash_opens s k st s' :
  wal_ok s -> encodable k st -> wal_recover_put s k st s' ->
  wal_ok s' /\ (index s' = index s \/ index s' = <[k := st]> (index s)).
Proof.
  intros Hok He (Hp & Hl & d & d' & Hin & Hc & Ho). pose proof Hok as ((ps & qs & Hr) & _).
  pose proof (pending_nil s ps qs Hr Hp); subst qs. pose proof (append_repr _ _ _ _ _ Hr He) as Ha. cbn [app] in Ha.
  assert (d ∈ disk (append s k st) :: flush_states (append s k st) /\ linked d) as [Hd Hl'].
  { unfold put_states in Hin. apply elem_of_cons in Hin as [->|Hin]; [split; [left | done]|].
    destruct (sync_each s); [|by apply elem_of_nil in Hin]. split; [by right|]. unfold linked in *. rewrite <- Hl.
    revert Hin. unfold flush_states. case_bool_decide; set_unfold; intros Hin; by destruct_or? Hin; subst. }
  destruct (crash_linked _ _ Hl' Hc) as (l & t & Ed' & Hcl).
  destruct (flush_crash _ _ _ _ _ Ha Hd Hcl) as (qs1 & qs2 & Eq & Hi).
  assert (Forall valid_payload (ps ++ qs1)) as Hv.
  { pose proof (repr_valid _ _ _ Ha) as Hv. rewrite Eq, app_assoc in Hv. by apply Forall_app in Hv as [? _]. }
  assert (s' = opened d' (sync_each s) (ps ++ qs1)) as ->.
  { assert (Ok s' = Ok (E := OpenError) (opened d' (sync_each s) (ps ++ qs1))) as [= ->]; [|done].
    rewrite <- Ho. apply open_log; [done|]. by rewrite Ed'. }
  split; [apply opened_ok; [by rewrite Ed' | done | by rewrite Ed']|].
  pose proof (repr_index _ _ _ Hr) as Ei. rewrite app_nil_r in Ei. pose proof (repr_index _ _ _ Ha) as Ei'.
  destruct qs1 as [|q qs1]; [left; by rewrite Ei; simpl; rewrite app_nil_r|]. right.
  destruct qs1; [|by destruct qs2]. destruct qs2; [|done]. injection Eq as <-. transitivity (index (append s k st)); [by rewrite Ei' | done].
Qed.

#[export, refine] Instance WalStore_put_crash : PutCrashLaws WalStore := { recover_put := wal_recover_put }.
Proof.
  - intros s k st s' Hs He Hr. by apply (put_crash_opens s k st).
  - intros s k st s' Hs He Hr. by apply (put_crash_opens s k st).
  - done.
Defined.

End compaction_lemmas.
