(* ===== verification/Durability.v ===== *)
(** * Durability and tamper evidence of the write-ahead log

    The claims of [wal.rs]: what is acknowledged survives a crash at any point,
    a batch is recovered up to a prefix, compaction is atomic, corruption is
    refused, and the chain root commits to the whole history. *)

From S2P Require Import Prelude Machine HashMap Types Store Hash Crc Codec Disk Wal WalLog WalSpec.

(** ** Crashes *)

Section crashes.
Context `{!HashOrder IdempotencyKey}.

(** Several puts in order. *)
Definition put_all (s : WalStore) (kvs : list (IdempotencyKey * KeyState)) : WalStore :=
  fold_left (fun s kv => WalStore_put s kv.1 kv.2) kvs s.

(** C15: a write in strict mode is durable when [put] returns, if the directory
    entry of the log is on the device.  Whatever part of the unsynced operations a
    crash keeps, reopening succeeds and gives exactly the records and the chain
    root of the store, the new record among them, in a log whose entry is again
    on the device. *)
Theorem strict_put_durable s k st d' mode :
  wal_ok s -> sync_each s = true -> linked (disk s) -> encodable k st ->
  crash_disk (disk (WalStore_put s k st)) d' ->
  exists s', open_with d' mode = Ok s' /\
    index s' = <[k := st]> (index s) /\ root s' = root (WalStore_put s k st) /\ linked (disk s').
Proof.
  intros Hok Hs Hd He Hc. pose proof (put_repr s k st Hok He) as Hok'.
  assert (pending (WalStore_put s k st) = []) as Hp by (apply Hok'; by rewrite put_sync_each).
  destruct (crash_opens _ d' mode Hok' Hp (put_linked s k st Hd) Hc) as (s' & Ho & _ & Hi & Hr & Hl).
  exists s'. split_and!; [done | by rewrite Hi, put_index | done | done].
Qed.

Lemma put_all_buffered s ps qs kvs :
  wal_repr s ps qs -> sync_each s = false -> Forall (fun kv => encodable kv.1 kv.2) kvs ->
  wal_repr (put_all s kvs) ps (qs ++ entry_payloads kvs) /\ sync_each (put_all s kvs) = false /\
  disk (put_all s kvs) = disk s.
Proof.
  intros Hr Hs Hkvs. revert s qs Hr Hs.
  induction Hkvs as [|[k st] kvs He _ IH]; intros s qs Hr Hs; [by rewrite app_nil_r|].
  simpl in He. unfold put_all, entry_payloads in *. cbn [fold_left map fst snd].
  assert (WalStore_put s k st = append s k st) as -> by (unfold WalStore_put; simpl; by rewrite Hs).
  destruct (IH (append s k st) (qs ++ [encode_payload k st])) as (Hr' & Hs' & Hd).
  - by apply append_repr.
  - done.
  - rewrite <- app_assoc in Hr'. done.
Qed.

Lemma flush_states_replaced s d : d ∈ disk s :: flush_states s -> replaced d = replaced (disk s).
Proof. unfold flush_states. case_bool_decide; set_unfold; intros Hd; by destruct_or? Hd; subst. Qed.

(** C16: group commit is prefix-consistent.  Let the directory entry of the log be
    on the device and nothing be buffered; after any batch of buffered puts, a
    crash before, during or after the flush recovers exactly the store that the
    first [n] puts of the batch would have given, for some [n]; if the flush had
    finished, that is the whole batch. *)
Theorem group_commit_prefix s kvs d d' mode :
  wal_ok s -> sync_each s = false -> pending s = [] -> linked (disk s) ->
  Forall (fun kv => encodable kv.1 kv.2) kvs ->
  let batch := put_all s kvs in
  d ∈ disk batch :: flush_states batch -> crash_disk d d' ->
  exists n s', open_with d' mode = Ok s' /\
    index s' = index (put_all s (take n kvs)) /\ root s' = root (put_all s (take n kvs)) /\
    (d = disk (WalStore_flush batch) -> index s' = index batch /\ root s' = root batch).
Proof.
  intros ((ps & qs & Hr) & _) Hs Hp Hd Hkvs batch Hin Hc.
  pose proof (pending_nil s ps qs Hr Hp); subst qs.
  destruct (put_all_buffered s ps [] kvs Hr Hs Hkvs) as (Hrb & Hsb & Hdb). fold batch in Hrb, Hsb, Hdb.
  simpl app in Hrb.
  assert (exists l t, d' = MkDisk (MkFile l []) t [] (dir_sync_ok d) /\ crash_file (log d) l) as (l & t & -> & Hl).
  { apply crash_linked; [|done]. unfold linked in *. rewrite (flush_states_replaced batch d) by done. by rewrite Hdb. }
  destruct (flush_crash batch ps (entry_payloads kvs) d l Hrb Hin Hl) as (qs1 & qs2 & Hq & Hi).
  exists (length qs1). set (d' := MkDisk _ _ _ _). exists (opened d' mode (ps ++ qs1)).
  assert (entry_payloads (take (length qs1) kvs) = qs1) as Eq1.
  { unfold entry_payloads in *. rewrite <- firstn_map, Hq. apply take_app_length. }
  assert (Forall (fun kv => encodable kv.1 kv.2) (take (length qs1) kvs)) as Htake by (by apply Forall_take).
  destruct (put_all_buffered s ps [] _ Hr Hs Htake) as (Hrt & _). rewrite Eq1 in Hrt. simpl app in Hrt.
  split_and!.
  - apply open_log; [apply Hrt | done].
  - by rewrite (repr_index _ _ _ Hrt).
  - unfold root. by rewrite (repr_root _ _ _ Hrt).
  - intros ->. destruct (flush_frame batch) as (Ei & _ & Er & _).
    pose proof (flush_repr _ _ _ Hrb) as Hrf. pose proof (repr_crash _ _ _ Hrf l Hl) as Hi'.
    assert (Ok (opened d' mode (ps ++ qs1)) = Ok (E := OpenError) (opened d' mode (ps ++ entry_payloads kvs))) as E.
    { rewrite <- !(open_log d' mode) by (done || apply Hrt || apply Hrb). done. }
    simplify_eq. unfold root. split; [by rewrite (repr_index _ _ _ Hrb) | by rewrite (repr_root _ _ _ Hrb)].
Qed.

(** What a crash keeps of the disk at some point of a compaction that writes
    [l0]: what it keeps of the old log, or the new log. *)
Lemma compact_states_crash d0 l0 d d' :
  linked d0 -> d ∈ d0 :: compact_states d0 l0 -> crash_disk d d' ->
  exists l t, d' = MkDisk (MkFile l []) t [] (dir_sync_ok d0) /\ (crash_file (log d0) l \/ l = l0).
Proof.
  unfold linked. intros Hre Hin Hc. assert (write_at_bytes 0 l0 [] = l0) as E by apply (write_at_end []).
  assert ((dir_sync_ok d = dir_sync_ok d0) /\ (replaced d = [] \/ replaced d = [Some (log d0)]) /\ (log d = log d0 \/ log d = MkFile l0 [])) as (Hd & Hr & Hl).
  { revert Hin. unfold compact_states, sync_parent_dir, disk_rename, file_sync_all, contents; simpl.
    rewrite E, Hre. intros Hin. set_unfold in Hin. destruct_or? Hin; subst; simpl; try (by eauto).
    destruct (dir_sync_ok d0) eqn:Ed; simpl; eauto. }
  rewrite <- Hd. inversion Hc as [? l t Hcl|? f l t Hf Hcl|? t Hf]; subst.
  - exists l, t. split; [done|]. destruct Hl as [Hl|Hl]; rewrite Hl in Hcl; [by left|]. right.
    by inversion Hcl.
  - exists l, t. split; [done|]. left. destruct Hr as [Hr|Hr]; rewrite Hr in Hf.
    + by apply elem_of_nil in Hf.
    + apply list_elem_of_singleton in Hf. by simplify_eq.
  - exfalso. destruct Hr as [Hr|Hr]; rewrite Hr in Hf; [by apply elem_of_nil in Hf|].
    by apply list_elem_of_singleton in Hf.
Qed.

Lemma pending_compact s keep : pending (WalStore_compact s keep) = [].
Proof. unfold WalStore_compact. by destruct (compact_log _). Qed.

Lemma dir_compact s keep :
  dir_sync_ok (disk (WalStore_compact s keep)) = dir_sync_ok (disk s).
Proof. unfold WalStore_compact. destruct (compact_log _). apply compact_states_last. Qed.

(** C17: compaction is crash-atomic.  Let nothing be buffered and the directory
    entry of the log be on the device.  At every point of a compaction a crash
    recovers either the store as it was or exactly its surviving entries; once it
    has returned, the latter, provided that the platform can sync directories. *)
Theorem compact_crash_atomic s keep d d' mode :
  wal_ok s -> pending s = [] -> linked (disk s) ->
  d ∈ disk s :: compact_states (disk s) (compact_log (hm_iter (retain keep (index s)))).1 ->
  crash_disk d d' ->
  exists s', open_with d' mode = Ok s' /\
    ((index s' = index s /\ root s' = root s) \/
     (index s' = retain keep (index s) /\ root s' = root (WalStore_compact s keep))) /\
    (d = disk (WalStore_compact s keep) -> dir_sync_ok (disk s) = true ->
     index s' = retain keep (index s) /\ root s' = root (WalStore_compact s keep)).
Proof.
  intros Hok Hp Hre Hin Hc. pose proof (compact_repr s keep Hok) as [Hrc Hokc].
  pose proof Hok as ((ps & qs & Hr) & _). pose proof (pending_nil s ps qs Hr Hp); subst qs.
  destruct (compact_states_crash _ _ _ _ Hre Hin Hc) as (l & t & Ed' & Hl).
  assert (d = disk (WalStore_compact s keep) -> dir_sync_ok (disk s) = true ->
     exists s', open_with d' mode = Ok s' /\ index s' = retain keep (index s) /\
                root s' = root (WalStore_compact s keep)) as Hfinal.
  { intros -> Hd. destruct (crash_opens _ d' mode Hokc) as (s' & Ho & _ & Hi & Hro & _);
      [by apply (pending_compact s keep) | by apply compact_linked | done|].
    exists s'. rewrite compact_index in Hi. done. }
  assert (forall ps', wal_repr s ps' [] \/ wal_repr (WalStore_compact s keep) ps' [] ->
            log_image ps' l -> open_with d' mode = Ok (opened d' mode ps')) as Hopen.
  { intros ps' [H|H] Hi; (apply open_log; [rewrite <- (app_nil_r ps'); apply H | by rewrite Ed']). }
  assert (exists s', open_with d' mode = Ok s' /\
    ((index s' = index s /\ root s' = root s) \/
     (index s' = retain keep (index s) /\ root s' = root (WalStore_compact s keep)))) as (s' & Ho & Hcase).
  { destruct Hl as [Hl| ->].
    - exists (opened d' mode ps). split; [apply Hopen; [by left | by apply (repr_crash _ _ _ Hr)]|].
      left. unfold root. by rewrite (repr_index _ _ _ Hr), (repr_root _ _ _ Hr), app_nil_r.
    - eexists. split.
      { apply (Hopen _ (or_intror Hrc)). rewrite compact_log_eq; [apply image_nil|].
        apply hm_iter_encodable, retain_encodable, wal_encodable, Hok. }
      right. unfold root. rewrite (repr_root _ _ _ Hrc), app_nil_r.
      pose proof (repr_index _ _ _ Hrc) as Hi. rewrite compact_index, app_nil_r in Hi. done. }
  exists s'. split_and!; [done..|]. intros Hd Hs. destruct (Hfinal Hd Hs) as (s2 & Ho2 & H2).
  rewrite Ho in Ho2. by simplify_eq.
Qed.

End crashes.

(** ** Opening arbitrary bytes *)

Lemma frame_complete c p rest :
  length c = 32%nat -> short p -> is_complete_frame (frame c p ++ rest) = true.
Proof.
  intros Hc Hs. apply is_complete_frame_inv. do 4 eexists.
  split_and!; [apply length_to_le_bytes.. | exact Hc | |].
  - unfold frame. by rewrite <- !app_assoc.
  - rewrite from_to_le_bytes by (by apply short_u32). rewrite len_app. pose proof (len_nonneg rest). lia.
Qed.

(** A loop that has replayed [ps] goes on from there. *)
Lemma replay_app fuel ps pre rest m root :
  Forall valid_payload ps ->
  replay (length ps + fuel) (pre ++ chain_log root ps ++ rest) (len pre) m root =
  replay fuel ((pre ++ chain_log root ps) ++ rest) (len (pre ++ chain_log root ps))
    (replayed m ps) (chain_end root ps).
Proof.
  intros Hps. revert pre m root. induction Hps as [|p ps [Hs [[k st] Hd]] _ IH]; intros pre m root.
  - cbn [chain_log]. by rewrite app_nil_r.
  - cbn [length chain_log Nat.add]. rewrite <- app_assoc.
    rewrite (replay_step _ _ _ _ _ _ _ k st) by (done || apply link_length).
    rewrite decide_True by done. rewrite IH. rewrite <- !app_assoc. unfold replayed. cbn [fold_left].
    unfold apply_payload at 3. by rewrite Hd.
Qed.

(** The loop of [open_with] after the records [ps]. *)
Lemma open_replay ps rest d :
  Forall valid_payload ps -> contents (log d) = chain_log GENESIS ps ++ rest ->
  exists fuel, (length rest < fuel)%nat /\
    replay (S (length (contents (log d)))) (contents (log d)) 0 ∅ GENESIS =
    replay fuel (chain_log GENESIS ps ++ rest) (len (chain_log GENESIS ps)) (replayed ∅ ps)
      (chain_end GENESIS ps).
Proof.
  intros Hps Hc. pose proof (len_chain_log GENESIS ps) as Hl.
  exists (S (length (contents (log d))) - length ps)%nat. split.
  - rewrite Hc, length_app. unfold len in Hl. lia.
  - pose proof (replay_app (S (length (contents (log d))) - length ps) ps [] rest ∅ GENESIS Hps) as E.
    simpl app in E. rewrite <- E. f_equal; [|done]. rewrite Hc, length_app. unfold len in Hl. lia.
Qed.

(** What a put and a flush write to a log that was just opened. *)
Lemma put_contents d mode qs k st :
  contents (log (disk (opened d mode qs))) = chain_log GENESIS qs -> encodable k st ->
  contents (log (disk (WalStore_flush (WalStore_put (opened d mode qs) k st)))) =
  chain_log GENESIS (qs ++ [encode_payload k st]).
Proof.
  intros Hc He. set (s := opened d mode qs) in *.
  assert (encode_record k st (chain_root s) <> []) as Hne.
  { rewrite encode_record_frame by apply He. unfold frame. by destruct (to_le_bytes 4 (len (encode_payload k st))) eqn:E. }
  assert (contents (log (disk (flush_pending (append s k st)))) = chain_log GENESIS (qs ++ [encode_payload k st])) as E.
  { unfold flush_pending, append. cbn [pending disk file]. rewrite bool_decide_false by done. cbn [disk with_log log].
    rewrite contents_synced, contents_write, Hc. change (file s) with (len (chain_log GENESIS qs)).
    rewrite write_at_end, chain_log_app. cbn [chain_log]. rewrite app_nil_r. f_equal.
    by rewrite encode_record_frame by apply He. }
  unfold WalStore_flush, WalStore_put. destruct (sync_each (append s k st)); [|exact E].
  unfold flush_pending at 1. rewrite bool_decide_true; [exact E|]. by apply flush_frame.
Qed.

(** C34: a torn tail costs only the record it tore.  Opening any prefix of a log
    succeeds, recovers exactly the records that are completely in the prefix, cuts
    the file back to them and leaves the write cursor at its end: the next flush
    appends to the recovered records. *)
Theorem torn_tail_recovered ps x d mode :
  Forall valid_payload ps -> x `prefix_of` chain_log GENESIS ps -> contents (log d) = x ->
  exists qs rs s, ps = qs ++ rs /\ open_with d mode = Ok s /\
    index s = replayed ∅ qs /\ root s = chain_end GENESIS qs /\
    contents (log (disk s)) = chain_log GENESIS qs /\ file s = len (contents (log (disk s))) /\
    (forall k st, encodable k st ->
       contents (log (disk (WalStore_flush (WalStore_put s k st)))) = chain_log GENESIS (qs ++ [encode_payload k st])) /\
    (forall r rs', rs = r :: rs' -> len x < len (chain_log GENESIS (qs ++ [r]))).
Proof.
  intros Hps Hx Hc. destruct (prefix_log_image ps GENESIS x Hps Hx) as (qs & rs & torn & -> & Ex & Ht & Hpre).
  apply Forall_app in Hps as [Hqs Hrs]. exists qs, rs, (opened d mode qs).
  assert (log_image qs (contents (log d))) as Him by (exists torn; by rewrite Hc).
  assert (contents (log (disk (opened d mode qs))) = chain_log GENESIS qs) as Ecut.
  { simpl. rewrite contents_set_len, Hc, Ex. apply set_len_cut. }
  split_and!; try done.
  - by apply open_log.
  - by rewrite Ecut.
  - intros k st He. by apply put_contents.
  - intros r rs' ->. rewrite Ex, chain_log_app, !len_app. cbn [chain_log] in *. rewrite app_nil_r.
    inversion Hrs as [|? ? [Hs _] _]; subst.
    destruct (prefix_app_inv _ _ _ Hpre) as [[[y Hy] Hne]|(y & -> & _)].
    + rewrite Hy, len_app. destruct y; [by rewrite app_nil_r in Hy|].
      unfold len; simpl; lia.
    + by rewrite frame_complete in Ht by (done || apply link_length).
Qed.

(** What is refused at the first place that is not a record of the log. *)
Lemma refused_at ps rest d mode :
  Forall valid_payload ps -> contents (log d) = chain_log GENESIS ps ++ rest ->
  (is_complete_frame rest = true -> decode_record rest = None ->
   open_with d mode = Err (ChecksumFailure (len (chain_log GENESIS ps)))) /\
  (forall total k st c, decode_record rest = Some (total, k, st, c) ->
   c <> link (chain_end GENESIS ps) (slice rest HEADER_LEN total) ->
   open_with d mode = Err (ChainMismatch (len (chain_log GENESIS ps)))).
Proof.
  intros Hps Hc. destruct (open_replay ps rest d Hps Hc) as (fuel & Hf & E).
  destruct fuel as [|fuel]; [lia|]. unfold open_with. rewrite E. split.
  - intros Hcf Hd. cbn [replay]. rewrite drop_len, Hd, Hc, drop_len, Hcf.
    rewrite bool_decide_false; [done|]. by intros ->.
  - intros total k st c (p & rest' & -> & -> & Hs & Hlc & Hp)%decode_record_inv Hne.
    rewrite (replay_step _ _ _ _ _ _ _ k st) by done.
    replace (slice (frame c p ++ rest') HEADER_LEN (HEADER_LEN + len p)) with p in Hne.
    + by rewrite decide_False.
    + symmetry. apply (frame_slices [] c p rest' Hlc).
Qed.

(** Damage to a durable record is never mistaken for a torn tail.  If the
    bytes after some valid records form a complete frame that does not decode (a
    checksum failure), or a record whose chain value is not the one of its
    place, opening is refused with the offset of that record. *)
Theorem damaged_record_refused ps rest d mode :
  Forall valid_payload ps -> contents (log d) = chain_log GENESIS ps ++ rest ->
  (is_complete_frame rest = true -> decode_record rest = None ->
   open_with d mode = Err (ChecksumFailure (len (chain_log GENESIS ps)))) /\
  (forall total k st c, decode_record rest = Some (total, k, st, c) ->
   c <> link (chain_end GENESIS ps) (slice rest HEADER_LEN total) ->
   open_with d mode = Err (ChainMismatch (len (chain_log GENESIS ps)))).
Proof. apply refused_at. Qed.

(** ** Tamper evidence *)

(** The inputs that are hashed while a log is replayed. *)
Fixpoint chain_inputs (chain : list byte) (ps : list (list byte)) : list (list byte) :=
  match ps with
  | [] => []
  | p :: ps => (chain ++ to_le_bytes 4 (crc32 p) ++ p) :: chain_inputs (link chain p) ps
  end.

(** The hashed inputs of two logs break SHA-256: two of them collide, or one is
    a preimage of the all-zero genesis value. *)
Definition breaks_sha256 (xs ys : list (list byte)) : Prop :=
  (exists a b, a ∈ xs /\ b ∈ ys /\ a <> b /\ sha256 a = sha256 b) \/
  (exists a, a ∈ xs ++ ys /\ sha256 a = GENESIS).

Lemma chain_inputs_snoc c ps p :
  chain_inputs c (ps ++ [p]) =
  chain_inputs c ps ++ [chain_end c ps ++ to_le_bytes 4 (crc32 p) ++ p].
Proof. revert c; induction ps as [|q ps IH]; intros c; [done|]. cbn [app chain_inputs]. by rewrite IH. Qed.

Lemma breaks_sha256_mono xs ys xs' ys' :
  xs ⊆ xs' -> ys ⊆ ys' -> breaks_sha256 xs ys -> breaks_sha256 xs' ys'.
Proof.
  intros Hx Hy [(a & b & Ha & Hb & H)|(a & Ha & H)]; [left; exists a, b | right; exists a].
  - split_and!; [by apply Hx | by apply Hy | apply H..].
  - split; [|done]. apply elem_of_app in Ha as [Ha|Ha]; apply elem_of_app; auto.
Qed.

Lemma chain_end_inj ps qs :
  chain_end GENESIS ps = chain_end GENESIS qs ->
  ps = qs \/ breaks_sha256 (chain_inputs GENESIS ps) (chain_inputs GENESIS qs).
Proof.
  revert qs; induction ps as [|p ps IH] using rev_ind; intros qs; destruct qs as [|q qs _] using rev_ind;
    rewrite ?chain_end_app, ?chain_inputs_snoc; intros E.
  - by left.
  - right; right. eexists. split; [|symmetry; exact E]. set_solver.
  - right; right. eexists. split; [|exact E]. set_solver.
  - destruct (decide (chain_end GENESIS ps ++ to_le_bytes 4 (crc32 p) ++ p =
                      chain_end GENESIS qs ++ to_le_bytes 4 (crc32 q) ++ q)) as [Ei|Ei].
    + apply app_inj_len in Ei as [Ec Ei]; [|by rewrite !chain_end_length].
      apply app_inj_len in Ei as [_ ->]; [|by rewrite !length_to_le_bytes].
      destruct (IH qs Ec) as [->|Hb]; [by left|]. right. eapply breaks_sha256_mono; [..|exact Hb]; set_solver.
    + right; left. do 2 eexists. split_and!; [..|exact Ei | exact E]; set_solver.
Qed.

(** C32: the chain root commits to the whole log.  Two log files that open with
    the same root hold the same records, byte for byte, in the same order (so
    no record was edited, inserted, deleted or reordered between them), unless
    the inputs hashed while opening the two exhibit a SHA-256 collision or a
    preimage of the genesis value. *)
Theorem root_commits_to_log d d' mode mode' s s' :
  open_with d mode = Ok s -> open_with d' mode' = Ok s' -> root s = root s' ->
  exists ps qs,
    contents (log (disk s)) = chain_log GENESIS ps /\
    contents (log (disk s')) = chain_log GENESIS qs /\
    ((ps = qs /\ contents (log (disk s)) = contents (log (disk s')) /\ index s = index s') \/
     breaks_sha256 (chain_inputs GENESIS ps) (chain_inputs GENESIS qs)).
Proof.
  intros (ps & _ & (torn & Ht & _) & ->)%open_inv (qs & _ & (torn' & Ht' & _) & ->)%open_inv Hr.
  unfold root in Hr; simpl in Hr. exists ps, qs.
  simpl. rewrite !contents_set_len, Ht, Ht', !set_len_cut. split_and!; [done..|].
  destruct (chain_end_inj ps qs Hr) as [->|Hb]; [by left | by right].
Qed.

(** ** Limits of the guarantees *)

Lemma zeros_split n : (40 <= n)%nat ->
  replicate n x00 = replicate 4 x00 ++ replicate 4 x00 ++ replicate 32 x00 ++ replicate (n - 40) x00.
Proof. intros Hn. rewrite <- !replicate_add. f_equal. lia. Qed.

Lemma zeros_no_record n : (40 <= n)%nat -> decode_record (replicate n x00) = None.
Proof.
  intros Hn. destruct (decode_record _) as [[[[total k] st] c]|] eqn:E; [|done]. exfalso.
  apply decode_record_inv in E as (p & rest & E & _ & Hs & Hc & Hd).
  rewrite zeros_split in E by done. unfold frame in E. rewrite <- !app_assoc in E.
  apply app_inj_len in E as [E _]; [|by rewrite length_to_le_bytes].
  change (replicate 4 x00) with (to_le_bytes 4 0) in E.
  apply (to_le_bytes_inj 4) in E; [|done|by apply short_u32].
  destruct p; [|unfold len in E; simpl in E; lia]. by vm_compute in Hd.
Qed.

(** A tail of at least forty zero bytes after valid records (what a file
    system leaves when it extended the file but lost the data) is a complete
    frame of an empty payload with a matching checksum, so it is refused as
    interior corruption instead of being cut off as a torn tail. *)
Theorem zero_tail_refused ps n d mode :
  Forall valid_payload ps -> (40 <= n)%nat ->
  contents (log d) = chain_log GENESIS ps ++ replicate n x00 ->
  open_with d mode = Err (ChecksumFailure (len (chain_log GENESIS ps))).
Proof.
  intros Hps Hn Hc. destruct (open_replay ps _ d Hps Hc) as (fuel & Hf & E).
  destruct fuel as [|fuel]; [lia|]. unfold open_with. rewrite E. cbn [replay].
  rewrite drop_len, zeros_no_record, Hc, drop_len by done.
  assert (is_complete_frame (replicate n x00) = true) as ->.
  { apply is_complete_frame_inv. do 4 eexists. split_and!; [..|by apply zeros_split|]; [done..|].
    change (from_le_bytes (replicate 4 x00)) with 0. apply len_nonneg. }
  rewrite bool_decide_false; [done|]. destruct n; [lia | done].
Qed.

Section lost_rename.
Context `{!HashOrder IdempotencyKey}.

Lemma put_disk_frame s k st :
  replaced (disk (WalStore_put s k st)) = replaced (disk s) /\
  dir_sync_ok (disk (WalStore_put s k st)) = dir_sync_ok (disk s).
Proof.
  unfold WalStore_put. destruct (sync_each _); [|done].
  by destruct (flush_frame (append s k st)) as (_ & _ & _ & _ & -> & ->).
Qed.

(** A rename that was not synced may be undone. *)
Lemma lost_rename s keep k st mode :
  wal_ok s -> pending s = [] -> dir_sync_ok (disk s) = false ->
  exists d' s', crash_disk (disk (WalStore_put (WalStore_compact s keep) k st)) d' /\
    open_with d' mode = Ok s' /\ index s' = index s.
Proof.
  intros ((ps & qs & Hr) & _) Hp Hd. pose proof (pending_nil s ps qs Hr Hp); subst qs.
  set (d' := MkDisk (MkFile (contents (log (disk s))) []) None [] false).
  exists d', (opened d' mode ps). split_and!.
  - assert (let d := disk (WalStore_put (WalStore_compact s keep) k st) in
            Some (log (disk s)) ∈ replaced d /\ dir_sync_ok d = false) as [Hin Hd'].
    { cbv zeta. destruct (put_disk_frame (WalStore_compact s keep) k st) as [-> ->].
      rewrite dir_compact. split; [|done]. unfold WalStore_compact. destruct (compact_log _).
      unfold compact_states, sync_parent_dir, disk_rename; simpl. rewrite Hd. left. }
    unfold d'. rewrite <- Hd'. eapply crash_replaced; [exact Hin | apply crash_contents].
  - apply open_log; [rewrite <- (app_nil_r ps); apply Hr|]. simpl. unfold contents at 1; simpl.
    rewrite (repr_contents _ _ _ Hr). apply image_nil.
  - simpl. by rewrite (repr_index _ _ _ Hr), app_nil_r.
Qed.

Lemma put_all_replaced s kvs : replaced (disk (put_all s kvs)) = replaced (disk s).
Proof.
  unfold put_all. revert s. induction kvs as [|[k st] kvs IH]; intros s; [done|]. cbn [fold_left fst snd].
  rewrite IH. apply put_disk_frame.
Qed.

(** C40: acknowledged writes can be lost with the directory entry of the log.
    Where a directory cannot be synced, [sync_parent_dir] ignores that: after a
    compaction, a put that returned in strict mode may be gone after a crash,
    which brings back the store as it was before the compaction.  And on every
    platform, opening creates the log without syncing the directory: whatever was
    put in strict mode into a new log may be gone after a crash, which leaves no
    log. *)
Theorem unsynced_entry_loses_writes :
  (forall s keep k st mode,
     wal_ok s -> pending s = [] -> sync_each s = true -> dir_sync_ok (disk s) = false ->
     exists d' s', crash_disk (disk (WalStore_put (WalStore_compact s keep) k st)) d' /\
       open_with d' mode = Ok s' /\ index s' = index s) /\
  (forall dirs s kvs mode,
     WalStore_open (disk_new dirs) = Ok s ->
     exists d' s', crash_disk (disk (put_all s kvs)) d' /\ open_with d' mode = Ok s' /\ index s' = ∅).
Proof.
  split; [intros s keep k st mode Hok Hp _; by apply lost_rename|].
  intros dirs s kvs mode Ho. set (d := disk (put_all s kvs)).
  exists (MkDisk file_empty None [None] (dir_sync_ok d)), (opened (MkDisk file_empty None [None] (dir_sync_ok d)) mode []).
  split_and!; [|apply open_log; [constructor | apply image_nil] | done].
  apply crash_absent. unfold d. rewrite put_all_replaced.
  assert (Ok s = Ok (E := OpenError) (opened (disk_new dirs) true [])) as [= ->].
  { rewrite <- Ho. apply open_log; [constructor | apply image_nil]. }
  left.
Qed.

End lost_rename.

(** ** Concrete instances *)

(** A new log, and one that is empty but has been on the device for long. *)
Definition sample_store (mode dirs : bool) : WalStore := opened (disk_new dirs) mode [].
Definition old_disk (dirs : bool) : Disk := MkDisk file_empty None [] dirs.
Definition old_store (mode dirs : bool) : WalStore := opened (old_disk dirs) mode [].

Lemma sample_store_ok mode dirs : wal_ok (sample_store mode dirs).
Proof. apply opened_ok; [done | constructor | apply image_nil]. Qed.
Lemma old_store_ok mode dirs : wal_ok (old_store mode dirs).
Proof. apply opened_ok; [done | constructor | apply image_nil]. Qed.

#[local] Instance sample_order : HashOrder IdempotencyKey := default_order IdempotencyKey.

Lemma strict_put_durable_witness :
  exists s', open_with (MkDisk (MkFile (encode_record sample_key sample_done GENESIS) []) None [] true) true
             = Ok s' /\ index s' = <[sample_key := sample_done]> ∅.
Proof.
  destruct (strict_put_durable (old_store true true) sample_key sample_done
              (MkDisk (MkFile (encode_record sample_key sample_done GENESIS) []) None [] true) true)
    as (s' & Ho & Hi & _).
  - apply old_store_ok.
  - reflexivity.
  - reflexivity.
  - by_eval.
  - apply (crash_log (disk (WalStore_put (old_store true true) sample_key sample_done))).
    vm_compute. constructor.
  - exists s'. split; [exact Ho | exact Hi].
Defined.

(** A flush into an empty log that has written [r] but not synced it, and what a
    crash may leave. *)
Definition mid_flush (r : list byte) : Disk :=
  with_log (old_disk true) (file_write_all (file_set_len file_empty 0) 0 r).
Definition torn_disk (x : list byte) : Disk := MkDisk (MkFile x []) None [] true.

Lemma torn_disk_crash r x : x `prefix_of` r -> crash_disk (mid_flush r) (torn_disk x).
Proof.
  intros Hx. apply (crash_log (mid_flush r) x None). apply crash_later.
  pose proof (crash_torn 0 r x [] [] Hx) as Hc.
  change (write_at_bytes 0 x []) with (write_at_bytes (len (@nil byte)) x []) in Hc.
  by rewrite write_at_end in Hc.
Qed.

Definition sample_record : list byte := encode_record sample_key sample_done GENESIS.
Definition sample_mid_flush : Disk := mid_flush sample_record.
Definition sample_torn : Disk := torn_disk (take 150 sample_record).

Lemma sample_torn_crash : crash_disk sample_mid_flush sample_torn.
Proof. apply torn_disk_crash. eexists. symmetry. apply take_drop. Qed.

Lemma sample_flush_states :
  flush_states (put_all (old_store false true) [(sample_key, sample_done)]) =
  [sample_mid_flush; torn_disk sample_record].
Proof. vm_compute. reflexivity. Qed.

Lemma group_commit_prefix_witness :
  exists n s', open_with sample_torn false = Ok s' /\
    index s' = index (put_all (old_store false true) (take n [(sample_key, sample_done)])).
Proof.
  destruct (group_commit_prefix (old_store false true) [(sample_key, sample_done)]
              sample_mid_flush sample_torn false) as (n & s' & Ho & Hi & _).
  - apply old_store_ok.
  - reflexivity.
  - reflexivity.
  - reflexivity.
  - constructor; [by_eval | constructor].
  - rewrite sample_flush_states. right. left.
  - apply sample_torn_crash.
  - exists n, s'. split; [exact Ho | exact Hi].
Defined.

(** A strict store with one completed key. *)
Definition sample_one (dirs : bool) : WalStore := WalStore_put (old_store true dirs) sample_key sample_done.

Lemma sample_one_ok dirs : wal_ok (sample_one dirs).
Proof. apply put_repr; [apply old_store_ok | by_eval]. Qed.

Lemma compact_crash_atomic_witness :
  exists s', open_with (torn_disk sample_record) true = Ok s' /\
    ((index s' = index (sample_one true) /\ root s' = root (sample_one true)) \/
     (index s' = retain (fun _ _ => false) (index (sample_one true)) /\
      root s' = root (WalStore_compact (sample_one true) (fun _ _ => false)))).
Proof.
  destruct (compact_crash_atomic (sample_one true) (fun _ _ => false) (disk (sample_one true))
              (torn_disk sample_record) true) as (s' & Ho & Hc & _).
  - apply sample_one_ok.
  - vm_compute. reflexivity.
  - vm_compute. reflexivity.
  - left.
  - apply (crash_log (disk (sample_one true))). vm_compute. constructor.
  - exists s'. split; [exact Ho | exact Hc].
Defined.

Definition sample_payloads : list (list byte) :=
  [encode_payload sample_key sample_state; encode_payload sample_key sample_done].

Lemma sample_payloads_valid : Forall valid_payload sample_payloads.
Proof. repeat constructor; (apply encode_valid; by_eval). Qed.

Lemma torn_tail_recovered_witness :
  exists qs rs s, sample_payloads = qs ++ rs /\
    open_with (torn_disk (take 120 (chain_log GENESIS sample_payloads))) true = Ok s /\
    index s = replayed ∅ qs.
Proof.
  destruct (torn_tail_recovered sample_payloads (take 120 (chain_log GENESIS sample_payloads))
              (torn_disk (take 120 (chain_log GENESIS sample_payloads))) true)
    as (qs & rs & s & E & Ho & Hi & _).
  - apply sample_payloads_valid.
  - eexists. symmetry. apply take_drop.
  - reflexivity.
  - exists qs, rs, s. split; [exact E | split; [exact Ho | exact Hi]].
Defined.

(** A log whose only record was re-framed under another chain value. *)
Lemma damaged_record_refused_witness :
  open_with (torn_disk (frame (replicate 32 x01) (encode_payload sample_key sample_done))) true
  = Err (ChainMismatch 0).
Proof.
  apply (proj2 (damaged_record_refused [] (frame (replicate 32 x01) (encode_payload sample_key sample_done))
           (torn_disk (frame (replicate 32 x01) (encode_payload sample_key sample_done))) true
           (List.Forall_nil _) eq_refl) (40 + len (encode_payload sample_key sample_done))
           sample_key sample_done (replicate 32 x01)).
  - vm_compute. reflexivity.
  - vm_compute. discriminate.
Defined.

Lemma root_commits_to_log_witness :
  exists ps qs,
    chain_log GENESIS sample_payloads = chain_log GENESIS ps /\
    chain_log GENESIS sample_payloads = chain_log GENESIS qs /\
    (ps = qs \/ breaks_sha256 (chain_inputs GENESIS ps) (chain_inputs GENESIS qs)).
Proof.
  destruct (root_commits_to_log (torn_disk (chain_log GENESIS sample_payloads))
              (torn_disk (chain_log GENESIS sample_payloads)) true false
              (opened (torn_disk (chain_log GENESIS sample_payloads)) true sample_payloads)
              (opened (torn_disk (chain_log GENESIS sample_payloads)) false sample_payloads))
    as (ps & qs & E1 & E2 & H).
  - apply open_log; [apply sample_payloads_valid | apply image_nil].
  - apply open_log; [apply sample_payloads_valid | apply image_nil].
  - unfold root, opened. cbn [chain_root]. reflexivity.
  - exists ps, qs. split; [rewrite <- E1; vm_compute; reflexivity|].
    split; [rewrite <- E2; vm_compute; reflexivity|]. destruct H as [[H _]|H]; [by left | by right].
Defined.

Lemma zero_tail_refused_witness :
  open_with (torn_disk (chain_log GENESIS sample_payloads ++ replicate 64 x00)) true
  = Err (ChecksumFailure (len (chain_log GENESIS sample_payloads))).
Proof.
  apply (zero_tail_refused sample_payloads 64); [apply sample_payloads_valid | lia | reflexivity].
Defined.

Lemma unsynced_entry_loses_writes_witness :
  (exists d' s', crash_disk (disk (WalStore_put (WalStore_compact (sample_store true false) (fun _ _ => true))
                                    sample_key sample_done)) d' /\
    open_with d' true = Ok s' /\ index s' !! sample_key = None) /\
  (exists d' s', crash_disk (disk (put_all (sample_store true true) [(sample_key, sample_done)])) d' /\
    open_with d' true = Ok s' /\ index s' !! sample_key = None).
Proof.
  split.
  - destruct (proj1 unsynced_entry_loses_writes (sample_store true false) (fun _ _ => true)
                sample_key sample_done true) as (d' & s' & Hc & Ho & Hi).
    + apply sample_store_ok.
    + reflexivity.
    + reflexivity.
    + reflexivity.
    + exists d', s'. split; [exact Hc|]. split; [exact Ho|]. rewrite Hi. reflexivity.
  - destruct (proj2 unsynced_entry_loses_writes true (sample_store true true) [(sample_key, sample_done)] true)
      as (d' & s' & Hc & Ho & Hi).
    + reflexivity.
    + exists d', s'. split; [exact Hc|]. split; [exact Ho|]. rewrite Hi. reflexivity.
Defined.
