(* ===== verification/Damage.v ===== *)
(** * One damaged byte

    What a single changed byte does to a record ([decode_record]) and to a log
    ([open_with]).  A shorter length field makes the decoder look at a proper
    prefix of the payload, so the heart of the matter is that no proper prefix of
    an encoded payload decodes: decoding ignores what follows the fields it
    reads, and it reads at least as many bytes as encoding its result writes. *)

From S2P Require Import Prelude Machine Str BTreeMap HashMap Types Store Hash Crc Codec Disk Wal WalLog WalSpec Durability.

(** ** Decoding ignores what follows *)

Definition extend (y : list byte) (r : Reader) : Reader := MkReader (buf r ++ y) (pos r).

(** A step that succeeds does the same with more bytes behind. *)
Definition extensible {A} (f : Reader -> option (A * Reader)) : Prop :=
  forall y r a r', f r = Some (a, r') -> f (extend y r) = Some (a, extend y r').

Lemma slice_get_extend l y a b s : slice_get l a b = Some s -> slice_get (l ++ y) a b = Some s.
Proof.
  intros Hs. pose proof (slice_get_Some _ _ _ _ Hs) as (Hab & Hb & _ & ->). unfold slice_get.
  rewrite (proj2 (Z.leb_le 0 a)), (proj2 (Z.leb_le a b)), (proj2 (Z.leb_le b (len (l ++ y)))); [|rewrite ?len_app..];
    [|pose proof (len_nonneg y); lia | lia | lia].
  simpl. f_equal. unfold len in Hb. rewrite drop_app_le by lia. rewrite take_app_le; [done|].
  rewrite length_drop. lia.
Qed.

Lemma extensible_take n : extensible (fun r => reader_take r n).
Proof.
  intros y r s r' Ht. unfold reader_take in *. cbn [extend pos buf] in *.
  destruct (checked_add (pos r) n) as [e|]; [|done]. cbn [mbind option_bind] in *.
  apply bind_Some in Ht as (sl & Hs & E). simplify_eq. by rewrite (slice_get_extend _ y _ _ _ Hs).
Qed.

Lemma extensible_bind {A B} (f : Reader -> option (A * Reader)) (g : A -> Reader -> option (B * Reader)) :
  extensible f -> (forall a, extensible (g a)) -> extensible (fun r => '(a, r) ← f r; g a r).
Proof.
  intros Hf Hg y r b r' E. apply bind_Some in E as ([a r1] & E1 & E2). rewrite (Hf _ _ _ _ E1). cbn. by apply Hg.
Qed.

Lemma extensible_some {A} (a : A) : extensible (fun r => Some (a, r)).
Proof. intros y r b r' E. by simplify_eq. Qed.

Lemma extensible_option {A B} (o : option A) (f : A -> B) : extensible (fun r => a ← o; Some (f a, r)).
Proof. intros y r b r' E. destruct o; [|done]. by simplify_eq/=. Qed.

Lemma extensible_u8 : extensible reader_u8.
Proof. apply extensible_bind; [apply extensible_take | intros s; apply (extensible_option (head s) (fun b => b))]. Qed.

Lemma extensible_uint n : extensible (fun r => '(s, r) ← reader_take r n; Some (from_le_bytes s, r)).
Proof. apply extensible_bind; [apply extensible_take | intros s; apply extensible_some]. Qed.

Lemma extensible_u16 : extensible reader_u16.
Proof. apply (extensible_uint 2). Qed.
Lemma extensible_u32 : extensible reader_u32.
Proof. apply (extensible_uint 4). Qed.
Lemma extensible_u64 : extensible reader_u64.
Proof. apply (extensible_uint 8). Qed.
Lemma extensible_arr32 : extensible reader_arr32.
Proof. apply extensible_take. Qed.

Lemma extensible_bytes : extensible reader_bytes.
Proof. apply extensible_bind; [apply (extensible_uint 4) | intros n; apply extensible_take]. Qed.

Lemma extensible_string : extensible reader_string.
Proof. apply extensible_bind; [apply extensible_bytes | intros l; apply (extensible_option _ (fun s => s))]. Qed.

Lemma extensible_headers fuel count acc : extensible (fun r => read_headers fuel count r acc).
Proof.
  revert count acc; induction fuel as [|fuel IH]; intros count acc; cbn [read_headers];
    (destruct (count <=? 0); [apply extensible_some|]); [by intros ? ? ? ?|].
  apply extensible_bind; [apply extensible_string|]. intros n.
  apply (extensible_bind reader_string); [apply extensible_string|]. intros v. apply IH.
Qed.

(** More fuel never hurts the header loop. *)
Lemma read_headers_more fuel fuel' count r acc x :
  (fuel <= fuel')%nat -> read_headers fuel count r acc = Some x -> read_headers fuel' count r acc = Some x.
Proof.
  revert fuel' count r acc; induction fuel as [|fuel IH]; intros fuel' count r acc Hle E; cbn [read_headers] in E.
  - destruct (count <=? 0) eqn:Ec; [|done]. destruct fuel'; cbn [read_headers]; by rewrite Ec.
  - destruct fuel' as [|fuel']; [lia|]. cbn [read_headers]. destruct (count <=? 0); [done|].
    apply bind_Some in E as ([n r1] & E1 & E). apply bind_Some in E as ([v r2] & E2 & E).
    rewrite E1. cbn. rewrite E2. cbn. apply IH; [lia | done].
Qed.

Ltac extend_step Hd lem :=
  let v := fresh "v" in let r := fresh "r" in let H := fresh "H" in
  apply bind_Some in Hd as ([v r] & H & Hd); apply lem in H; rewrite H; cbn [mbind option_bind]; clear H.

Lemma decode_in_progress_extend y r st :
  decode_in_progress r = Some st -> decode_in_progress (extend y r) = Some st.
Proof.
  intros Hd. unfold decode_in_progress in *. extend_step Hd (extensible_u64 y).
  extend_step Hd (extensible_arr32 y). extend_step Hd (extensible_u64 y). done.
Qed.

Lemma decode_completed_extend y r st :
  decode_completed r = Some st -> decode_completed (extend y r) = Some st.
Proof.
  intros Hd. unfold decode_completed in *. extend_step Hd (extensible_arr32 y).
  extend_step Hd (extensible_u64 y). extend_step Hd (extensible_u16 y). extend_step Hd (extensible_u32 y).
  apply bind_Some in Hd as ([h r'] & Hh & Hd). apply (extensible_headers _ _ _ y) in Hh.
  eapply read_headers_more in Hh; [rewrite Hh | cbn [extend buf]; rewrite length_app; lia]. cbn [mbind option_bind].
  by extend_step Hd (extensible_bytes y).
Qed.

(** A payload that decodes does so whatever follows it. *)
Lemma decode_payload_extend x y k st :
  decode_payload x = Some (k, st) -> decode_payload (x ++ y) = Some (k, st).
Proof.
  intros Hd. unfold decode_payload in *. change (reader_new (x ++ y)) with (extend y (reader_new x)).
  extend_step Hd (extensible_string y). extend_step Hd (extensible_u8 y).
  apply bind_Some in Hd as (st' & Hst & Hd). simplify_eq.
  assert ((if decide (v0 = TAG_IN_PROGRESS) then decode_in_progress (extend y r0)
           else if decide (v0 = TAG_COMPLETED) then decode_completed (extend y r0) else None) = Some st) as ->; [|done].
  repeat case_decide; [by apply decode_in_progress_extend | by apply decode_completed_extend | done].
Qed.

(** No proper prefix of an encoded payload decodes. *)
Lemma payload_prefix k st x y :
  encodable k st -> encode_payload k st = x ++ y -> y <> [] -> decode_payload x = None.
Proof.
  intros He E Hy. destruct (decode_payload x) as [[k' st']|] eqn:Hd; [|done]. exfalso.
  pose proof (decode_payload_inv _ _ _ Hd) as (_ & _ & Hle). apply (decode_payload_extend x y) in Hd.
  rewrite <- E, decode_payload_encode in Hd by done. simplify_eq. rewrite E, len_app in Hle.
  destruct y; [done|]. unfold len in Hle. simpl in Hle. lia.
Qed.

(** ** A frame with arbitrary header fields *)

Lemma decode_raw a b c rest :
  length a = 4%nat -> length b = 4%nat -> length c = 32%nat ->
  decode_record (a ++ b ++ c ++ rest) =
  let n := from_le_bytes a in
  let p := take (Z.to_nat n) rest in
  if n <=? len rest then
    if crc32 p =? from_le_bytes b then '(k, st) ← decode_payload p; Some (HEADER_LEN + n, k, st, c) else None
  else None.
Proof.
  intros Ha Hb Hc. assert (len (a ++ b ++ c) = HEADER_LEN) as Hh.
  { rewrite !len_app, (len_of a 4), (len_of b 4), (len_of c 32) by done. done. }
  replace (a ++ b ++ c ++ rest) with ((a ++ b ++ c) ++ rest) by (by rewrite <- !app_assoc).
  assert (slice_get ((a ++ b ++ c) ++ rest) 0 HEADER_LEN = Some (a ++ b ++ c)) as Hs by (by apply (slice_get_app [])).
  unfold decode_record. rewrite Hs.
  destruct (header_fields a b c Ha Hb Hc) as (E1 & E2 & E3). cbn [mbind option_bind]. rewrite E1, E2, E3.
  pose proof (header_len_range a Ha) as Hn. rewrite checked_add_header by done. cbn [mbind option_bind].
  unfold in_uint in Hn. destruct (Z.leb_spec (from_le_bytes a) (len rest)) as [Hle|Hlt].
  - rewrite <- (take_drop (Z.to_nat (from_le_bytes a)) rest) at 1.
    rewrite slice_get_app; [done | by rewrite Hh|]. rewrite Hh, len_take by lia. done.
  - assert (slice_get ((a ++ b ++ c) ++ rest) HEADER_LEN (HEADER_LEN + from_le_bytes a) = None) as ->; [|done].
    apply slice_get_None; [unfold HEADER_LEN; lia|]. rewrite len_app, Hh. lia.
Qed.

Lemma slice_raw a b c q rest :
  length a = 4%nat -> length b = 4%nat -> length c = 32%nat ->
  slice (a ++ b ++ c ++ q ++ rest) HEADER_LEN (HEADER_LEN + len q) = q.
Proof.
  intros Ha Hb Hc. replace (a ++ b ++ c ++ q ++ rest) with ((a ++ b ++ c) ++ q ++ rest) by (by rewrite <- !app_assoc).
  apply slice_mid; rewrite !len_app, (len_of a 4), (len_of b 4), (len_of c 32) by done; done.
Qed.

Lemma complete_raw a b c rest :
  length a = 4%nat -> length b = 4%nat -> length c = 32%nat ->
  is_complete_frame (a ++ b ++ c ++ rest) = (from_le_bytes a <=? len rest).
Proof.
  intros Ha Hb Hc. apply eq_true_iff_eq. rewrite is_complete_frame_inv, Z.leb_le. split; [|by eauto 10].
  intros (a' & b' & c' & rest' & Ha' & Hb' & Hc' & E & Hle).
  apply app_inj_len in E as [-> E]; [|congruence]. apply app_inj_len in E as [-> E]; [|congruence].
  by apply app_inj_len in E as [-> ->]; [|congruence].
Qed.

(** Two encodings of one length that differ are of different numbers. *)
Lemma le_bytes_differ a n z : length a = n -> in_uint (8 * Z.of_nat n) z -> a <> to_le_bytes n z -> from_le_bytes a <> z.
Proof. intros Ha Hz Hne E. apply Hne. rewrite <- E, <- Ha. symmetry. apply to_from_le_bytes. Qed.

Lemma insert_differ (l : list byte) i x y : l !! i = Some y -> x <> y -> <[i := x]> l <> l.
Proof.
  intros Hi Hne E. pose proof (lookup_lt_Some _ _ _ Hi) as Hlt. apply (f_equal (fun l => l !! i)) in E.
  rewrite list_lookup_insert_eq, Hi in E by done. congruence.
Qed.

(** ** What one changed byte makes of a record *)

Section damaged_record.
Context (k : IdempotencyKey) (st : KeyState) (c : list byte).
Context (He : encodable k st) (Hc : length c = 32%nat).
Let p := encode_payload k st.

Lemma frame_fields tail :
  frame c p ++ tail = to_le_bytes 4 (len p) ++ to_le_bytes 4 (crc32 p) ++ c ++ p ++ tail.
Proof. unfold frame. by rewrite <- !app_assoc. Qed.

(** A changed length: the payload is cut short, runs into what follows, or
    past the end. *)
Lemma damaged_length a tail :
  length a = 4%nat -> a <> to_le_bytes 4 (len p) ->
  let l := a ++ to_le_bytes 4 (crc32 p) ++ c ++ p ++ tail in
  decode_record l = None \/
  exists z rest, z <> [] /\ tail = z ++ rest /\ crc32 (p ++ z) = crc32 p /\
    decode_record l = Some (HEADER_LEN + len (p ++ z), k, st, c) /\
    slice l HEADER_LEN (HEADER_LEN + len (p ++ z)) = p ++ z.
Proof.
  intros Ha Hne l. unfold l. rewrite decode_raw by (done || apply length_to_le_bytes). cbv zeta.
  pose proof (header_len_range a Ha) as Hr. apply le_bytes_differ in Hne; [|done | apply short_u32, He].
  set (n := from_le_bytes a) in *. unfold in_uint in Hr. rewrite (from_to_le_bytes 4 (crc32 p)) by apply crc32_range.
  destruct (Z.leb_spec n (len (p ++ tail))) as [Hle|]; [|by left]. rewrite len_app in Hle. unfold len in Hle, Hne.
  destruct (decide (n < Z.of_nat (length p))) as [Hlt|Hge].
  - left. destruct (_ =? _); [|done]. rewrite take_app_le by lia.
    rewrite (payload_prefix k st _ (drop (Z.to_nat n) p)); [done | done | by rewrite take_drop|].
    intros E. apply (f_equal length) in E. rewrite length_drop in E. simpl in E. lia.
  - rewrite take_app_ge by lia. set (z := take (Z.to_nat n - length p) tail).
    destruct (Z.eqb_spec (crc32 (p ++ z)) (crc32 p)) as [Ecrc|]; [|by left]. right.
    exists z, (drop (Z.to_nat n - length p) tail).
    assert (length z = Z.to_nat n - length p)%nat as Hz by (unfold z; rewrite length_take; lia).
    assert (tail = z ++ drop (Z.to_nat n - length p) tail) as Et by (unfold z; by rewrite take_drop).
    split_and!; [intros E; rewrite E in Hz; simpl in Hz; lia | done | done | |].
    + assert (decode_payload (p ++ z) = Some (k, st)) as ->.
      { apply decode_payload_extend. by apply decode_payload_encode. }
      cbn. do 4 f_equal. unfold len. rewrite length_app. lia.
    + rewrite Et, (app_assoc p). apply slice_raw; (done || apply length_to_le_bytes).
Qed.

(** A changed checksum, or a changed payload under its old checksum. *)
Lemma damaged_checksum b q tail :
  length b = 4%nat -> len q = len p -> crc32 q <> from_le_bytes b ->
  let l := to_le_bytes 4 (len p) ++ b ++ c ++ q ++ tail in
  decode_record l = None /\ is_complete_frame l = true.
Proof.
  intros Hb Hq Hne l. unfold l. rewrite decode_raw, complete_raw by (done || apply length_to_le_bytes). cbv zeta.
  rewrite from_to_le_bytes by apply short_u32, He. pose proof (len_nonneg tail).
  rewrite (proj2 (Z.leb_le _ _)) by (rewrite len_app; lia). split; [|done].
  rewrite <- Hq. unfold len. rewrite Nat2Z.id, take_app_length. by rewrite (proj2 (Z.eqb_neq _ _)).
Qed.

Lemma damaged_frame i x y tail :
  frame c p !! i = Some y -> x <> y ->
  let l := <[i := x]> (frame c p) ++ tail in
  ((8 <= i < 40)%nat /\ decode_record l = Some (HEADER_LEN + len p, k, st, <[(i - 8)%nat := x]> c) /\
   slice l HEADER_LEN (HEADER_LEN + len p) = p /\ c !! (i - 8)%nat = Some y) \/
  (~ (8 <= i < 40)%nat /\ decode_record l = None /\ (is_complete_frame l = true \/ (i < 4)%nat)) \/
  ((i < 4)%nat /\ exists z rest, z <> [] /\ tail = z ++ rest /\ crc32 (p ++ z) = crc32 p /\
     decode_record l = Some (HEADER_LEN + len (p ++ z), k, st, c) /\
     slice l HEADER_LEN (HEADER_LEN + len (p ++ z)) = p ++ z).
Proof.
  intros Hi Hne l. unfold l. unfold frame in *. rewrite lookup_app in Hi.
  pose proof (length_to_le_bytes 4 (len p)) as La. pose proof (length_to_le_bytes 4 (crc32 p)) as Lb.
  set (a := to_le_bytes 4 (len p)) in *. set (b := to_le_bytes 4 (crc32 p)) in *.
  assert (crc32 p = from_le_bytes b) as Ecrc by (unfold b; by rewrite from_to_le_bytes by apply crc32_range).
  destruct (decide (i < 4)%nat) as [H4|H4].
  { rewrite insert_app_l by lia. rewrite <- !app_assoc.
    assert (a !! i = Some y) as Hy by (destruct (a !! i) eqn:E; [done | apply lookup_ge_None in E; lia]).
    destruct (damaged_length (<[i := x]> a) tail) as [E|E];
      [by rewrite length_insert | by eapply insert_differ | right; left | right; right; done].
    split_and!; [lia | exact E | by right]. }
  rewrite lookup_ge_None_2 in Hi by lia. rewrite La, lookup_app in Hi.
  rewrite insert_app_r_alt by lia. rewrite La. destruct (decide (i < 8)%nat) as [H8|H8].
  { rewrite insert_app_l by lia. rewrite <- !app_assoc. right; left.
    assert (b !! (i - 4)%nat = Some y) as Hy by (destruct (b !! _) eqn:E; [done | apply lookup_ge_None in E; lia]).
    destruct (damaged_checksum (<[(i - 4)%nat := x]> b) p tail) as [E1 E2]; [by rewrite length_insert | done | |].
    - rewrite Ecrc. intros E. apply from_le_bytes_inj in E; [|by rewrite length_insert].
      by eapply insert_differ.
    - split_and!; [lia | exact E1 | by left]. }
  rewrite lookup_ge_None_2 in Hi by lia. rewrite Lb, lookup_app in Hi.
  rewrite insert_app_r_alt by lia. rewrite Lb. replace (i - 4 - 4)%nat with (i - 8)%nat in * by lia.
  destruct (decide (i < 40)%nat) as [H40|H40].
  { left. rewrite insert_app_l by lia. rewrite <- !app_assoc. split; [lia|]. split_and!.
    - replace (a ++ b ++ <[(i - 8)%nat := x]> c ++ p ++ tail)
        with (frame (<[(i - 8)%nat := x]> c) p ++ tail) by (unfold frame; by rewrite <- !app_assoc).
      rewrite decode_record_frame by (by rewrite ?length_insert || apply He).
      by rewrite (decode_payload_encode k st He : decode_payload p = _).
    - apply slice_raw; by rewrite ?length_insert.
    - destruct (c !! _) eqn:E; [done | apply lookup_ge_None in E; lia]. }
  rewrite lookup_ge_None_2 in Hi by lia. rewrite insert_app_r_alt by lia. rewrite Hc in *. right; left.
  rewrite <- !app_assoc. set (j := (i - 8 - 32)%nat) in *.
  destruct (damaged_checksum b (<[j := x]> p) tail Lb) as [E1 E2]; [unfold len; by rewrite length_insert| |].
  - rewrite <- Ecrc. rewrite <- (take_drop_middle p j y Hi) at 2.
    rewrite insert_take_drop by (by eapply lookup_lt_Some). intros E. by apply crc32_one_byte in E.
  - split_and!; [lia | exact E1 | by left].
Qed.

End damaged_record.

(** A record alone, with one byte changed. *)
Lemma damaged_record k st prev i x y :
  encodable k st -> encode_record k st prev !! i = Some y -> x <> y ->
  let p := encode_payload k st in
  decode_record (<[i := x]> (encode_record k st prev)) =
  if decide (8 <= i < 40)%nat
  then Some (len (encode_record k st prev), k, st, <[(i - 8)%nat := x]> (compute_chain prev (crc32 p) p))
  else None.
Proof.
  intros He Hi Hne p. rewrite encode_record_frame in * by apply He. fold p in Hi |- *.
  pose proof (compute_chain_length prev (crc32 p) p) as Hc.
  destruct (damaged_frame k st _ He Hc i x y [] Hi Hne) as [(Hr & E & _)|[(Hr & E & _)|(_ & z & rest & Hz & E & _)]];
    fold p in E; rewrite ?app_nil_r in E.
  - rewrite decide_True by done. by rewrite E, len_frame.
  - by rewrite decide_False.
  - by destruct z.
Qed.

(** C22: one damaged byte never changes a record.  If any single byte of an
    encoded record is changed, decoding it fails, except for a byte of the chain
    value: then key and state are still those that were written and the chain
    value returned is the damaged one, which replay compares. *)
Theorem single_byte_damage k st prev i x y :
  encodable k st -> encode_record k st prev !! i = Some y -> x <> y ->
  let p := encode_payload k st in
  decode_record (<[i := x]> (encode_record k st prev)) =
  if decide (8 <= i < 40)%nat
  then Some (len (encode_record k st prev), k, st, <[(i - 8)%nat := x]> (compute_chain prev (crc32 p) p))
  else None.
Proof. apply damaged_record. Qed.

(** ** What one changed byte makes of a log *)

(** A payload that the store writes. *)
Definition encoded (p : list byte) : Prop := exists k st, encodable k st /\ p = encode_payload k st.

Lemma encoded_valid ps : Forall encoded ps -> Forall valid_payload ps.
Proof.
  intros Hps. eapply Forall_impl; [exact Hps|]. intros p (k & st & He & ->). split; [apply He|]. by rewrite decode_payload_encode.
Qed.

(** The record that holds a byte of the log. *)
Lemma chain_log_lookup c ps j y :
  chain_log c ps !! j = Some y ->
  exists qs p rs i, ps = qs ++ p :: rs /\ j = (length (chain_log c qs) + i)%nat /\
    frame (link (chain_end c qs) p) p !! i = Some y.
Proof.
  revert c j; induction ps as [|p ps IH]; intros c j Hj; [done|]. cbn [chain_log] in Hj.
  apply lookup_app_Some in Hj as [Hj|[Hle Hj]].
  - by exists [], p, ps, j.
  - apply IH in Hj as (qs & p' & rs & i & -> & Hi & Hf). exists (p :: qs), p', rs, i. split_and!; [done | | done].
    cbn [chain_log]. rewrite length_app. lia.
Qed.

Lemma chain_log_insert c qs p rs i x :
  (i < length (frame (link (chain_end c qs) p) p))%nat ->
  <[(length (chain_log c qs) + i)%nat := x]> (chain_log c (qs ++ p :: rs)) =
  chain_log c qs ++ <[i := x]> (frame (link (chain_end c qs) p) p) ++ chain_log (link (chain_end c qs) p) rs.
Proof. intros Hi. rewrite chain_log_app, insert_app_r. cbn [chain_log]. by rewrite insert_app_l. Qed.

(** Where the changed byte lies decides what opening makes of the log. *)
Lemma damaged_log ps j x y d mode :
  Forall encoded ps -> chain_log GENESIS ps !! j = Some y -> x <> y ->
  contents (log d) = <[j := x]> (chain_log GENESIS ps) ->
  exists qs p rs, ps = qs ++ p :: rs /\
    let root := chain_end GENESIS qs in
    let off := len (chain_log GENESIS qs) in
    off <= Z.of_nat j < off + len (frame (link root p) p) /\
    (open_with d mode = Err (ChecksumFailure off) \/ open_with d mode = Err (ChainMismatch off) \/
     (Z.of_nat j < off + 4 /\
      (open_with d mode = Ok (opened d mode qs) \/
       exists z, z <> [] /\ z `prefix_of` chain_log (link root p) rs /\ link root (p ++ z) = link root p))).
Proof.
  intros Hps Hj Hne Hc. destruct (chain_log_lookup _ _ _ _ Hj) as (qs & p & rs & i & -> & -> & Hi).
  pose proof (lookup_lt_Some _ _ _ Hi) as Hlt. rewrite chain_log_insert in Hc by done.
  exists qs, p, rs. split; [done|]. cbv zeta. set (root := chain_end GENESIS qs) in *.
  apply Forall_app in Hps as [Hqs Hp]. inversion Hp as [|? ? (k & st & He & ->) _]; subst.
  apply encoded_valid in Hqs. split; [unfold len; lia|].
  set (p := encode_payload k st) in *. set (tail := chain_log (link root p) rs) in *.
  destruct (refused_at qs _ d mode Hqs Hc) as [Hck Hch].
  destruct (damaged_frame k st (link root p) He (link_length _ _) i x y tail Hi Hne)
    as [(Hr & E & Es & Hy)|[(_ & E & Hcf)|(H4 & z & rest & Hz & Et & Ecrc & E & Es)]].
  - fold p in E, Es. right; left. eapply Hch; [exact E|]. rewrite Es. by eapply insert_differ.
  - fold p in E, Hcf. destruct (is_complete_frame _) eqn:Ef; [left; by apply Hck|]. destruct Hcf as [|H4]; [done|].
    right; right. split; [unfold len; lia|]. left. apply open_log; [done|]. by eexists.
  - fold p in Ecrc, E, Es. destruct (decide (link root (p ++ z) = link root p)) as [El|El].
    + right; right. split; [unfold len; lia|]. right. exists z. split_and!; [done | by exists rest | done].
    + right; left. eapply Hch; [exact E|]. rewrite Es. by apply not_eq_sym.
Qed.

(** C23: damage to a log is noticed, or costs its end.  If one byte of a log is
    changed, opening it is refused at the offset of the record that holds the
    byte (as a checksum failure or a chain mismatch), unless the byte belongs to
    that record's length field: then the log may open with exactly the records
    before the damaged one, and otherwise SHA-256 collides on the damaged
    record with and without some of the bytes that follow it. *)
Theorem log_byte_damage ps j x y d mode :
  Forall encoded ps -> chain_log GENESIS ps !! j = Some y -> x <> y ->
  contents (log d) = <[j := x]> (chain_log GENESIS ps) ->
  exists qs p rs, ps = qs ++ p :: rs /\
    let root := chain_end GENESIS qs in
    let off := len (chain_log GENESIS qs) in
    off <= Z.of_nat j < off + len (frame (link root p) p) /\
    (open_with d mode = Err (ChecksumFailure off) \/ open_with d mode = Err (ChainMismatch off) \/
     (Z.of_nat j < off + 4 /\
      (open_with d mode = Ok (opened d mode qs) \/
       exists z, z <> [] /\ z `prefix_of` chain_log (link root p) rs /\ link root (p ++ z) = link root p))).
Proof. apply damaged_log. Qed.

Lemma high_length_byte (a : list byte) : length a = 4%nat -> 255 * 2 ^ 24 <= from_le_bytes (<[3%nat := xff]> a).
Proof.
  intros Ha. destruct a as [|a0 [|a1 [|a2 [|a3 [|]]]]]; try done. cbn [insert list_insert from_le_bytes].
  pose proof (u8_to_Z_range a0) as H0. pose proof (u8_to_Z_range a1) as H1. pose proof (u8_to_Z_range a2) as H2.
  unfold in_uint in *. change (u8_to_Z xff) with 255. change (2 ^ 24) with 16777216. lia.
Qed.

(** A damaged length field can silently cost the end of a log.  When the high
    byte of the length of some record becomes 255 (and less than four gigabytes
    follow), opening the log succeeds with the records before it only, and the
    file is cut back to them: all records from the damaged one on are lost,
    although they are intact on disk, where damage anywhere else is refused. *)
Theorem length_damage_truncates qs p rs d mode :
  Forall valid_payload qs ->
  let c := link (chain_end GENESIS qs) p in
  len (p ++ chain_log c rs) < 255 * 2 ^ 24 ->
  contents (log d) = <[(length (chain_log GENESIS qs) + 3)%nat := xff]> (chain_log GENESIS (qs ++ p :: rs)) ->
  open_with d mode = Ok (opened d mode qs) /\
  contents (log (disk (opened d mode qs))) = chain_log GENESIS qs.
Proof.
  intros Hqs c Hl Hc. pose proof (length_to_le_bytes 4 (len p)) as La.
  rewrite chain_log_insert in Hc by (unfold frame; rewrite length_app; lia). fold c in Hc.
  unfold frame in Hc. rewrite insert_app_l in Hc by lia. rewrite <- !app_assoc in Hc. split.
  - apply open_log; [done|]. eexists. split; [exact Hc|].
    rewrite complete_raw; [|by rewrite length_insert | apply length_to_le_bytes | apply link_length].
    apply Z.leb_gt. pose proof (high_length_byte _ La). lia.
  - simpl. rewrite contents_set_len, Hc. apply set_len_cut.
Qed.

(** ** Concrete instances *)

Lemma single_byte_damage_witness :
  decode_record (<[50%nat := xff]> (encode_record sample_key sample_done GENESIS)) = None.
Proof.
  apply (single_byte_damage sample_key sample_done GENESIS 50%nat xff
           (default x00 (encode_record sample_key sample_done GENESIS !! 50%nat))).
  - by_eval.
  - vm_compute. reflexivity.
  - vm_compute. discriminate.
Defined.

Definition two_payloads : list (list byte) :=
  [encode_payload sample_key sample_state; encode_payload sample_key sample_done].

Lemma two_payloads_encoded : Forall encoded two_payloads.
Proof. repeat constructor; eexists _, _; (split; [|reflexivity]); by_eval. Qed.

Definition damaged_disk (j : nat) (x : byte) : Disk :=
  MkDisk (MkFile (<[j := x]> (chain_log GENESIS two_payloads)) []) None [] true.

Lemma log_byte_damage_witness :
  exists qs p rs, two_payloads = qs ++ p :: rs /\
    len (chain_log GENESIS qs) <= 60 < len (chain_log GENESIS qs) + len (frame (link (chain_end GENESIS qs) p) p).
Proof.
  destruct (log_byte_damage two_payloads 60 xff (default x00 (chain_log GENESIS two_payloads !! 60%nat))
              (damaged_disk 60 xff) true) as (qs & p & rs & E & H & _).
  - apply two_payloads_encoded.
  - vm_compute. reflexivity.
  - vm_compute. discriminate.
  - reflexivity.
  - exists qs, p, rs. split; [exact E | exact H].
Defined.

Lemma length_damage_truncates_witness :
  open_with (damaged_disk 3 xff) true = Ok (opened (damaged_disk 3 xff) true []).
Proof.
  apply (length_damage_truncates [] (encode_payload sample_key sample_state) [encode_payload sample_key sample_done]
           (damaged_disk 3 xff) true).
  - constructor.
  - vm_compute. reflexivity.
  - reflexivity.
Defined.
