(* ===== verification/EngineWal.v ===== *)
(** * The engine over the write-ahead log

    What the log can record in terms of requests and outcomes, what a restart
    does to the fence counter, and concrete histories of an engine over a strict
    [WalStore] for the statements of [History] and [EngineSpec]. *)

From stdpp Require Import sorting.
From S2P Require Import Prelude Machine Str BTreeMap HashMap Types Store Engine History EngineSpec.
From S2P Require Import Replication Hash Crc Codec Disk Wal WalLog WalSpec Durability.

Section wal_admits.
Context `{!HashOrder IdempotencyKey}.

(** A key and a fingerprint of the request types fit in a record. *)
Lemma wal_admits_request k fp :
  wf_key k -> wf_fingerprint fp -> len (str_bytes (key_str k)) + 53 < 2 ^ 32 ->
  admits_request (S := WalStore) k fp.
Proof.
  intros Hk Hfp Hl f l Hf Hl'. split_and!; [done | done|]. unfold short.
  rewrite encode_payload_eq. unfold str_field.
  rewrite !len_app, len_bytes_field, !len_to_le_bytes, (len_of (fp_bytes fp) 32) by done.
  change (len [TAG_IN_PROGRESS]) with 1. lia.
Qed.

(** The bytes of the completed record of an outcome. *)
Definition outcome_size (k : IdempotencyKey) (o : CachedOutcome) : Z :=
  len (str_bytes (key_str k)) + len (headers_raw (headers o)) + len (body o) + 55.

Lemma wal_admits_outcome k o t :
  wf_outcome o -> in_uint 64 t -> outcome_size k o < 2 ^ 32 ->
  admits_outcome (S := WalStore) k o t.
Proof.
  intros Ho Ht Hl f fp l (Hk & (_ & Hfp & _) & _). split_and!; [done | by split_and! |].
  unfold short, outcome_size in *. rewrite encode_payload_eq. unfold str_field.
  rewrite !len_app, !len_bytes_field, !len_to_le_bytes, (len_of (fp_bytes fp) 32) by done.
  change (len [TAG_COMPLETED]) with 1. lia.
Qed.

End wal_admits.

Section restart.
Context {S : Type} `{DurableLaws S}.

(** The fence counter restarts with the process.  A restart seeds it from
    the in-progress records only, so after a crash of an engine that holds none
    the next run is again given fence 1: fences are unique per process, and per
    live key, but not over the lifetime of a shard. *)
Theorem restart_reuses_fences (e : Engine S) s' k fp now :
  engine_inv e -> recover (store e) s' ->
  (forall k f fp l, records e !! k <> Some (InProgress f fp l)) ->
  let e' := with_ttl s' (lease_ms e) (ttl_ms e) in
  next_fence e' = 1 /\
  (available e' k fp now -> (begin e' k fp now).1 = Begin_Run (MkRunToken k (MkFence 1))).
Proof.
  intros [Ho _] Hr Hnone e'.
  assert (max_fence (view s') = 0) as Hm.
  { apply Z.le_antisymm; [|apply max_fence_nonneg]. apply max_fence_le; [done|].
    intros k' f fp' l Hk. rewrite (recover_view _ _ Ho Hr) in Hk. by apply Hnone in Hk. }
  assert (next_fence e' = 1) as Hn.
  { unfold e', with_ttl; simpl. by rewrite (recover_fence _ _ Ho Hr), Hm. }
  split; [done|]. intros Ha. rewrite begin_available; [|by eapply recover_ok|done].
  rewrite start_eq. cbn [fst]. by rewrite Hn.
Qed.

End restart.

(** ** A concrete history: start, complete, retry *)

#[local] Instance wal_order : HashOrder IdempotencyKey := default_order IdempotencyKey.

Definition e0 : Engine WalStore := with_ttl (old_store true true) 30000 100000.
Definition tok1 : RunToken := MkRunToken sample_key (MkFence 1).
Definition tok2 : RunToken := MkRunToken sample_key (MkFence 2).
Definition e1 : Engine WalStore := (begin e0 sample_key sample_fp 1000).2.
Definition e2 : Engine WalStore := (complete e1 tok1 sample_outcome 2000).2.
(** The same key taken over after its lease ran out. *)
Definition e1' : Engine WalStore := (begin e1 sample_key sample_fp 50000).2.

Lemma sample_admits_request : admits_request (S := WalStore) sample_key sample_fp.
Proof. apply wal_admits_request; by_eval. Qed.

Lemma sample_admits_outcome t :
  in_uint 64 t -> admits_outcome (S := WalStore) sample_key sample_outcome t.
Proof. intros Ht. apply wal_admits_outcome; [|done|by_eval]. unfold wf_outcome, wf_headers; by_eval. Qed.

Lemma e0_inv : engine_inv e0.
Proof. split; [apply old_store_ok | split_and!; done]. Qed.

Lemma e0_fences : fences_below e0.
Proof. intros k f fp l Hk. change (records e0) with (∅ : gmap IdempotencyKey KeyState) in Hk. by rewrite lookup_empty in Hk. Qed.

Lemma e0_begin : estep e0 (EvBegin sample_key sample_fp 1000 (Begin_Run tok1)) e1.
Proof.
  assert ((begin e0 sample_key sample_fp 1000).1 = Begin_Run tok1) as <- by (vm_compute; reflexivity).
  apply step_begin; [by_eval | apply sample_admits_request].
Qed.

Lemma e1_inv : engine_inv e1.
Proof. eapply estep_inv; [apply e0_inv | apply e0_begin]. Qed.

Lemma e1_fences : fences_below e1.
Proof. eapply estep_fences; [apply e0_inv | apply e0_fences | by_eval | apply e0_begin]. Qed.

Lemma e1_complete : estep e1 (EvComplete tok1 sample_outcome 2000 (Ok tt)) e2.
Proof.
  assert ((complete e1 tok1 sample_outcome 2000).1 = Ok tt) as <- by (vm_compute; reflexivity).
  apply step_complete; [by_eval | apply sample_admits_outcome; by_eval].
Qed.

Lemma e2_inv : engine_inv e2.
Proof. eapply estep_inv; [apply e1_inv | apply e1_complete]. Qed.

Lemma e2_begin :
  estep e2 (EvBegin sample_key sample_fp 3000 (Begin_Replay sample_outcome))
    (begin e2 sample_key sample_fp 3000).2.
Proof.
  assert ((begin e2 sample_key sample_fp 3000).1 = Begin_Replay sample_outcome) as <-
    by (vm_compute; reflexivity).
  apply step_begin; [by_eval | apply sample_admits_request].
Qed.

Lemma e1_takeover : estep e1 (EvBegin sample_key sample_fp 50000 (Begin_Run tok2)) e1'.
Proof.
  assert ((begin e1 sample_key sample_fp 50000).1 = Begin_Run tok2) as <- by (vm_compute; reflexivity).
  apply step_begin; [by_eval | apply sample_admits_request].
Qed.

Lemma e1'_stale :
  estep e1' (EvComplete tok1 sample_outcome 60000 (Err StaleFence))
    (complete e1' tok1 sample_outcome 60000).2.
Proof.
  assert ((complete e1' tok1 sample_outcome 60000).1 = Err StaleFence) as <- by (vm_compute; reflexivity).
  apply step_complete; [by_eval | apply sample_admits_outcome; by_eval].
Qed.

(** A crash of [e2] and the reopened store. *)
Definition crashed : Disk := MkDisk (MkFile (contents (log (disk (store e2)))) []) None [] true.

Lemma e2_recovers : exists s', recover (store e2) s'.
Proof.
  assert (crash_disk (disk (store e2)) crashed) as Hc.
  { apply (crash_log (disk (store e2)) _ None). apply crash_contents. }
  destruct (crash_opens (store e2) crashed true) as (s' & Ho & _);
    [apply e2_inv | vm_compute; reflexivity | vm_compute; reflexivity | exact Hc |].
  exists s'. split; [vm_compute; reflexivity|]. split; [vm_compute; reflexivity|].
  exists crashed. split; [exact Hc|].
  replace (sync_each (store e2)) with true by (vm_compute; reflexivity). exact Ho.
Qed.

Lemma exactly_once_effect_witness :
  exists fp, records (begin e2 sample_key sample_fp 3000).2 !! sample_key =
             Some (Completed fp sample_outcome 2000).
Proof.
  destruct (exactly_once_effect e1 tok1 sample_outcome 2000 e2
              [EvBegin sample_key sample_fp 3000 (Begin_Replay sample_outcome)]
              (begin e2 sample_key sample_fp 3000).2 e1_inv e1_complete
              (esteps_one _ _ _ e2_begin)) as (fp & Hk & _).
  - constructor; [vm_compute; reflexivity | constructor].
  - exists fp. exact Hk.
Defined.

Lemma stale_token_never_commits_witness :
  Forall (fun ev => ~ stale_commit sample_key 2 ev)
    [EvComplete tok1 sample_outcome 60000 (Err StaleFence)].
Proof.
  apply (stale_token_never_commits e1 sample_key sample_fp 50000 tok2 e1'
           [EvComplete tok1 sample_outcome 60000 (Err StaleFence)]
           (complete e1' tok1 sample_outcome 60000).2 50000).
  - apply e1_inv.
  - apply e1_fences.
  - apply e1_takeover.
  - apply esteps_one, e1'_stale.
  - vm_compute. reflexivity.
  - vm_compute. reflexivity.
  - constructor; [vm_compute; discriminate | constructor].
  - constructor; [vm_compute; reflexivity | constructor].
Defined.

Lemma single_runner_witness :
  Forall (fun ev => ~ runs sample_key ev)
    [EvComplete tok1 sample_outcome 2000 (Ok tt); EvBegin sample_key sample_fp 3000 (Begin_Replay sample_outcome)].
Proof.
  apply (single_runner e0 sample_key sample_fp 1000 tok1 e1 _ (begin e2 sample_key sample_fp 3000).2 e0_inv e0_begin
           (esteps_snoc _ _ _ _ _ (esteps_one _ _ _ e1_complete) e2_begin)).
  - vm_compute. reflexivity.
  - constructor; [|constructor; [|constructor]]; (split; [vm_compute; discriminate | vm_compute; reflexivity]).
Defined.

Lemma replay_provenance_witness :
  exists f t0 t,
    EvBegin sample_key sample_fp t0 (Begin_Run (MkRunToken sample_key f)) ∈
      [EvBegin sample_key sample_fp 1000 (Begin_Run tok1);
       EvComplete tok1 sample_outcome 2000 (Ok tt)] /\
    3000 < expiry t 100000.
Proof.
  destruct (replay_provenance e0
              [EvBegin sample_key sample_fp 1000 (Begin_Run tok1);
               EvComplete tok1 sample_outcome 2000 (Ok tt)]
              e2 sample_key sample_fp 3000 sample_outcome _ e0_inv eq_refl
              (esteps_snoc _ _ _ _ _ (esteps_one _ _ _ e0_begin) e1_complete) e2_begin)
    as (f & t0 & t & Hb & _ & Ht).
  exists f, t0, t. split; [exact Hb | exact Ht].
Defined.

Lemma fences_strictly_increase_witness :
  StronglySorted Z.lt
    (minted [EvBegin sample_key sample_fp 1000 (Begin_Run tok1);
             EvBegin sample_key sample_fp 50000 (Begin_Run tok2)]).
Proof.
  apply (fences_strictly_increase e0 _ e1' e0_inv
           (esteps_snoc _ _ _ _ _ (esteps_one _ _ _ e0_begin) e1_takeover)).
  - intros Hin. repeat (apply elem_of_cons in Hin as [Hin|Hin]; [discriminate|]). by apply elem_of_nil in Hin.
  - vm_compute. reflexivity.
Defined.

Lemma run_complete_replay_witness :
  exists tok e' e'',
    begin e0 sample_key sample_fp 1000 = (Begin_Run tok, e') /\
    complete e' tok sample_outcome 2000 = (Ok tt, e'') /\
    begin e'' sample_key sample_fp 3000 = (Begin_Replay sample_outcome, e'').
Proof.
  apply (proj2 (run_complete_replay e0 sample_key sample_fp 1000 sample_outcome 2000 3000
           (proj1 e0_inv) (proj2 e0_inv) ltac:(by_eval) sample_admits_request)).
  - exact I.
  - vm_compute. reflexivity.
  - apply sample_admits_outcome. by_eval.
Defined.

Lemma prune_transparent_witness :
  (begin (prune_expired e2 200000) sample_key sample_fp 300000).1 =
  (begin e2 sample_key sample_fp 300000).1.
Proof.
  apply (prune_transparent e2 sample_key sample_fp 200000 300000).
  - apply e2_inv.
  - lia.
Defined.

Definition m0 : Engine MemoryStore := MkEngine MemoryStore_new 30000 100000 1.
Definition sample_ops : list Op :=
  [OpBegin sample_key sample_fp 1000; OpComplete tok1 sample_outcome 2000;
   OpFlush; OpPrune 3000; OpBegin sample_key sample_fp 4000].

Lemma sample_ops_admissible : Forall (op_admissible (S := WalStore)) sample_ops.
Proof.
  apply Forall_cons_2; [split; [by_eval | apply sample_admits_request]|].
  apply Forall_cons_2; [apply sample_admits_outcome; by_eval|].
  apply Forall_cons_2; [exact I|]. apply Forall_cons_2; [exact I|].
  apply Forall_cons_2; [split; [by_eval | apply sample_admits_request] | apply Forall_nil_2].
Qed.

Lemma engine_refines_memory_witness :
  (run_ops e0 sample_ops).1 = (run_ops m0 sample_ops).1.
Proof.
  apply (engine_refines_memory e0 m0 sample_ops).
  - split; [apply e0_inv|]. split; [apply e0_inv|]. split_and!; reflexivity.
  - apply sample_ops_admissible.
Defined.

Lemma restart_reuses_fences_witness :
  exists s', recover (store e2) s' /\ next_fence (with_ttl s' (lease_ms e2) (ttl_ms e2)) = 1.
Proof.
  destruct e2_recovers as [s' Hr]. exists s'. split; [exact Hr|].
  apply (restart_reuses_fences e2 s' sample_key sample_fp 0 e2_inv Hr).
  intros k f fp l. assert (records e2 = {[sample_key := Completed sample_fp sample_outcome 2000]}) as -> by (vm_compute; reflexivity).
  intros [_ Hd]%lookup_singleton_Some. discriminate.
Defined.

(** Two nodes that hold the same log. *)
Definition er : Engine (ReplicatedStore WalStore) :=
  MkEngine (MkReplicated [store e2; store e2]) 30000 100000 2.

Lemma er_inv : engine_inv er.
Proof.
  split; [|split_and!; done]. split; [done|]. repeat constructor; apply e2_inv.
Qed.

(** Recoveries of the two nodes and of the write of [sample_done] to them. *)
Lemma e2_put_recovers : exists r', recover (put (store e2) sample_key sample_done) r'.
Proof.
  set (s := WalStore_put (store e2) sample_key sample_done).
  set (d := MkDisk (MkFile (contents (log (disk s))) []) None [] (dir_sync_ok (disk s))).
  assert (crash_disk (disk s) d) as Hc by apply crash_log, crash_contents.
  destruct (crash_opens s d true) as (r' & Ho & _);
    [apply put_repr; [apply e2_inv | by_eval] | vm_compute; reflexivity | vm_compute; reflexivity | exact Hc |].
  exists r'. split; [vm_compute; reflexivity|]. split; [vm_compute; reflexivity|]. exists d. split; [exact Hc|].
  change (put (store e2) sample_key sample_done) with s.
  replace (sync_each s) with true by (vm_compute; reflexivity). exact Ho.
Qed.

(** The second node dies in the middle of its write. *)
Lemma failover_transparent_witness :
  exists (before after : ReplicatedStore WalStore) (r' : WalStore), recover_put (store e2) sample_key sample_done r' /\
    (alike sample_ops (with_ttl r' 30000 100000) (with_ttl before 30000 100000) \/
     alike sample_ops (with_ttl r' 30000 100000) (with_ttl after 30000 100000)).
Proof.
  destruct e2_recovers as [r' Hr], e2_put_recovers as [w' Hw].
  assert (recover_put (store e2) sample_key sample_done r') as Hp.
  { destruct Hr as (Hp & Hl & d' & Hc & Ho). split; [exact Hp|]. split; [exact Hl|]. exists (disk (store e2)), d'.
    split; [left | split; [exact Hc | exact Ho]]. }
  exists (MkReplicated [r'; r']), (MkReplicated [w'; w']), r'. split; [exact Hp|].
  apply (failover_transparent er sample_key sample_done 1 1 (store e2) r' (MkReplicated [r'; r']) (MkReplicated [w'; w']) sample_ops).
  - exact er_inv.
  - by_eval.
  - apply Forall2_cons_2; [exact Hr|]. apply Forall2_cons_2; [exact Hr | apply Forall2_nil_2].
  - apply Forall2_cons_2; [exact Hw|]. apply Forall2_cons_2; [exact Hw | apply Forall2_nil_2].
  - reflexivity.
  - left. exact Hp.
  - exact sample_ops_admissible.
Defined.
