(* ===== verification/EngineTests.v ===== *)
(** * The unit tests of the vocabulary, the stores and the engine

    The [mod tests] of [lib.rs], [store.rs], [engine.rs] and [replication.rs].
    The tests of the engine are scripts: they pass over the in-memory map by
    evaluation, and over the write-ahead log and the replicated log because a
    script's verdict does not depend on the store. *)

From S2P Require Import Prelude Machine Str BTreeMap HashMap Types Store Engine EngineSpec.
From S2P Require Import Suite Replication Hash Crc Codec Disk Wal WalLog WalSpec Durability EngineWal.

(** ** [lib.rs] *)

Definition vocabulary_is_constructible_and_distinct : option unit :=
  let fingerprint := MkFingerprint (replicate 32 x07) in
  let in_progress := InProgress (MkFence 1) fingerprint 31000 in
  let completed := Completed fingerprint (MkOutcome 200 [] (str_bytes "ok")) 12000 in
  ensure (negb (bool_decide (in_progress = completed)));;
  ensure (fence_no (MkFence 1) <? fence_no (MkFence 2));;
  ensure (bool_decide (MkKey "k" = MkKey "k")).

(** ** [store.rs] *)

Definition state : KeyState :=
  Completed (MkFingerprint (replicate 32 x00)) (MkOutcome 200 [] []) 0.

Definition memory_store_compact_drops_rejected_keys : option unit :=
  let store := MemoryStore_new in
  let store := put store (MkKey "keep") state in
  let store := put store (MkKey "drop") state in
  let store := compact store (fun key _ => bool_decide (key_str key = "keep"%string)) in
  ensure (bool_decide (is_Some (get store (MkKey "keep"))));;
  ensure (bool_decide (get store (MkKey "drop") = None)).

(** ** [engine.rs] *)

Definition LEASE_MS : Z := 30000.

Definition key (s : string) : IdempotencyKey := MkKey s.

Definition fp (b : byte) : RequestFingerprint := MkFingerprint (replicate 32 b).

Definition outcome (status : Z) (body : list byte) : CachedOutcome := MkOutcome status [] body.

Definition default_ttl_is_twenty_four_hours : option unit :=
  ensure (DEFAULT_TTL_MS =? 86400000).

Definition TTL : Z := 10000.

Section engine_tests.
#[local] Open Scope script_scope.
#[local] Open Scope string_scope.

Definition run_token {A} (k : IdempotencyKey) (f : RequestFingerprint) (now : Z)
    (cont : RunToken -> Script A) : Script A := expect_run k f now cont.

(** [matches!(r, Begin::Replay(o) if o == expected)]. *)
Definition is_replay (expected : CachedOutcome) (r : Begin) : bool :=
  match r with Begin_Replay o => bool_decide (o = expected) | _ => false end.

Definition operation_runs_once_then_replays_on_retry : Script unit :=
  let k := key "charge-1" in
  let f := fp x01 in
  let* token := run_token k f 1000 in
  let result := outcome 201 (str_bytes "charged") in
  complete_unwrap token result 1000
  (let* replayed := expect_replay k f 1005 in
   assert_then (bool_decide (replayed = result)) (Return tt)).

Definition concurrent_request_while_in_progress_is_told_to_wait : Script unit :=
  let k := key "charge-2" in
  let f := fp x02 in
  let* _first := run_token k f 1000 in
  let* r := call_begin k f 1005 in
  assert_then (bool_decide (r = Begin_InProgress)) (Return tt).

Definition same_key_with_a_different_request_is_a_mismatch : Script unit :=
  let k := key "charge-3" in
  let original := fp x01 in
  let imposter := fp x09 in
  let* token := run_token k original 1000 in
  let* r := call_begin k imposter 1001 in
  assert_then (bool_decide (r = Begin_Mismatch))
  (complete_unwrap token (outcome 200 (str_bytes "ok")) 1001
   (let* r := call_begin k imposter 1002 in
    assert_then (bool_decide (r = Begin_Mismatch)) (Return tt))).

Definition a_stale_fence_cannot_overwrite_the_outcome : Script unit :=
  let k := key "charge-4" in
  let f := fp x01 in
  let* stalled := run_token k f 1000 in
  let* fresh := run_token k f (1000 + LEASE_MS) in
  let* c := call_complete stalled (outcome 500 (str_bytes "stale")) (1000 + LEASE_MS) in
  assert_then (bool_decide (c = Err StaleFence))
  (let good := outcome 201 (str_bytes "fresh") in
   complete_unwrap fresh good (1000 + LEASE_MS)
   (let* r := call_begin k f (1000 + LEASE_MS + 1) in
    assert_then (is_replay good r) (Return tt))).

Definition completed_key_is_immutable : Script unit :=
  let k := key "charge-5" in
  let f := fp x01 in
  let* token := run_token k f 1000 in
  let first := outcome 201 (str_bytes "first") in
  complete_unwrap token first 1000
  (let* c := call_complete token (outcome 200 (str_bytes "second")) 1001 in
   assert_then (bool_decide (c = Err AlreadyCompleted))
   (let* r := call_begin k f 1001 in
    assert_then (is_replay first r) (Return tt))).

(** This one builds its engine with [with_ttl]. *)
Definition a_completed_key_is_recycled_after_its_ttl : Script unit :=
  let k := key "charge-ttl" in
  let f := fp x01 in
  let* token := run_token k f 1000 in
  complete_unwrap token (outcome 201 (str_bytes "first")) 1000
  (let* r := call_begin k f (1000 + TTL - 1) in
   assert_then (is_replay (outcome 201 (str_bytes "first")) r)
   (let different := fp x09 in
    let* r := call_begin k different (1000 + TTL) in
    assert_then (match r with Begin_Run _ => true | _ => false end) (Return tt))).

End engine_tests.

(** ** [replication.rs] *)

Definition completed : KeyState :=
  Completed (MkFingerprint (replicate 32 x03)) (MkOutcome 200 [] (str_bytes "done")) 0.

Definition a_write_reaches_every_replica : option unit :=
  store ← ReplicatedStore_new [MemoryStore_new; MemoryStore_new; MemoryStore_new];
  ensure (node_count store =? 3);;
  let key := MkKey "k" in
  let store := put store key completed in
  for_all (replicas store) (fun replica => ensure (bool_decide (get replica key = Some completed))).

(** The tests that do not run an engine pass. *)
Example plain_tests_pass :
  [vocabulary_is_constructible_and_distinct; memory_store_compact_drops_rejected_keys;
   default_ttl_is_twenty_four_hours; a_write_reaches_every_replica] = replicate 4 (Some tt).
Proof. vm_compute. reflexivity. Qed.

(** ** The engine's tests over any store *)

(** The scripts, each with the time to live of the engine it is run on. *)
Definition engine_suite : list (Z * Script unit) :=
  [(DEFAULT_TTL_MS, operation_runs_once_then_replays_on_retry);
   (DEFAULT_TTL_MS, concurrent_request_while_in_progress_is_told_to_wait);
   (DEFAULT_TTL_MS, same_key_with_a_different_request_is_a_mismatch);
   (DEFAULT_TTL_MS, a_stale_fence_cannot_overwrite_the_outcome);
   (DEFAULT_TTL_MS, completed_key_is_immutable);
   (TTL, a_completed_key_is_recycled_after_its_ttl)].

Definition passes_on {S : Type} `{Store S} (s : S) (t : Z * Script unit) : bool :=
  bool_decide ((run_script (with_ttl s LEASE_MS t.1) t.2).1 = Some tt).

(** An operation whose records fit in the log, decided. *)
Definition op_fits (op : Op) : bool :=
  match op with
  | OpBegin k fp now =>
      bool_decide (in_uint 64 now /\ wf_key k /\ wf_fingerprint fp /\
                   len (str_bytes (key_str k)) + 53 < 2 ^ 32)
  | OpComplete tok o now =>
      bool_decide (wf_outcome o /\ in_uint 64 now /\ outcome_size (token_key tok) o < 2 ^ 32)
  | OpFlush | OpPrune _ => true
  end.

(** Every operation of the run on the reference engine fits. *)
Fixpoint script_fits {A} (m : Engine MemoryStore) (t : Script A) : bool :=
  match t with
  | Call op cont => let (r, m') := run_op m op in op_fits op && script_fits m' (cont r)
  | Return _ | Panic => true
  end.

Section conformance.
Context `{!HashOrder IdempotencyKey}.

Lemma op_fits_log op : op_fits op = true -> op_admissible (S := WalStore) op.
Proof.
  destruct op as [k f now|tok o now| |now]; simpl; intros Hf; try done;
    apply bool_decide_eq_true in Hf; destruct_and! Hf.
  - split; [done | by apply wal_admits_request].
  - by apply wal_admits_outcome.
Qed.

Context {S : Type} `{StoreLaws S}.
(** The store can represent whatever the log can. *)
Hypothesis admits_log : forall op, op_admissible (S := WalStore) op -> op_admissible (S := S) op.

Lemma script_fits_admissible {A} (t : Script A) : forall m,
  script_fits m t = true -> script_admissible (S := S) m t.
Proof.
  induction t as [op cont IH| |]; intros m; [|done..]. cbn [script_fits script_admissible].
  destruct (run_op m op) as [r m'] eqn:E. intros [Hop Ht]%andb_true_iff. split.
  - by apply admits_log, op_fits_log.
  - by apply IH.
Qed.

(** An engine over an empty store simulates the engine over the empty map. *)
Lemma empty_simulates (s : S) ttl :
  store_ok s -> view s = ∅ -> max_in_progress_fence s = 0 -> in_uint 64 ttl ->
  simulates (with_ttl s LEASE_MS ttl) (with_ttl MemoryStore_new LEASE_MS ttl).
Proof.
  intros Ho Hv Hf Ht. unfold simulates, engine_ok, engine_ranges, records; simpl.
  rewrite Hf. split_and!; try done.
Qed.

(** C14: the engine's unit tests are a conformance suite for stores.  Over every
    lawful store that starts empty and can represent what the log can, each
    test of the engine (run once and replay, wait while in progress, mismatch
    before and after completion, stale fence refused after a takeover,
    immutable outcomes, recycling at the end of the time to live) passes. *)
Theorem engine_conformance (s : S) :
  store_ok s -> view s = ∅ -> max_in_progress_fence s = 0 ->
  Forall (fun t => passes_on s t = true) engine_suite.
Proof.
  intros Ho Hv Hf.
  assert (Forall (fun t => (passes_on MemoryStore_new t && bool_decide (in_uint 64 t.1) &&
            script_fits (with_ttl MemoryStore_new LEASE_MS t.1) t.2) = true) engine_suite) as Hm.
  { repeat constructor; vm_compute; reflexivity. }
  eapply Forall_impl; [exact Hm|]. intros [ttl t]; cbn [fst snd].
  intros [[Hp Ht%bool_decide_eq_true]%andb_true_iff Hfit%script_fits_admissible]%andb_true_iff.
  unfold passes_on in *. cbn [fst snd] in *. rewrite <- Hp.
  destruct (script_transfers t (with_ttl s LEASE_MS ttl) (with_ttl MemoryStore_new LEASE_MS ttl)) as [-> _];
    [by apply empty_simulates | done | done].
Qed.

End conformance.

#[local] Instance test_order : HashOrder IdempotencyKey := default_order IdempotencyKey.

(** Over a fresh strict log, and over three nodes that each keep one. *)
Lemma engine_conformance_witness :
  Forall (fun t => passes_on (sample_store true true) t = true) engine_suite /\
  Forall (fun t => passes_on (MkReplicated (replicate 3 (sample_store true true))) t = true) engine_suite.
Proof.
  split.
  - apply (engine_conformance (S := WalStore) (fun _ H => H)); [apply sample_store_ok | reflexivity ..].
  - apply (engine_conformance (S := ReplicatedStore WalStore)); [by intros [] | | reflexivity ..].
    split; [done|]. repeat constructor; apply sample_store_ok.
Defined.
