(* ===== verification/WalTests.v ===== *)
(** * The unit tests of the write-ahead log

    The [mod tests] of [wal.rs], and the test of [replication.rs] that loses a
    node.  A test starts with a path at which no file exists ([disk_new]);
    dropping a store and opening the path again is [reopen]: the process ends,
    what it wrote stays.  The tests are proved from the laws of the log, so the
    randomized one passes for every seed and every number of writes. *)

From S2P Require Import Prelude Machine Str Decimal BTreeMap HashMap Types Store Engine EngineSpec.
From S2P Require Import Suite Replication Hash Crc Codec Disk Wal WalLog WalSpec Durability Damage.
From S2P Require Import EngineWal EngineTests.

(** A new process opens what the old one left. *)
Definition reopen (s : WalStore) (sync_each : bool) : option WalStore :=
  unwrap (open_with (disk s) sync_each).

(** [std::fs::write]: the file is cut to nothing and written. *)
Definition overwrite (d : Disk) (bytes : list byte) : Disk :=
  with_log d (file_write_all (file_set_len (log d) 0) 0 bytes).

Definition put_entries (s : WalStore) (kvs : list (IdempotencyKey * KeyState)) : WalStore :=
  fold_left (fun s kv => WalStore_put s kv.1 kv.2) kvs s.

(** [bytes[i] ^= mask]. *)
Definition flip (i : nat) (mask : byte) (bytes : list byte) : list byte :=
  alter (fun b => xor_byte b mask) i bytes.

Definition wal_completed (status : Z) (body : list byte) : KeyState :=
  let headers := bt_insert "content-type" "application/json" [] in
  Completed (MkFingerprint (replicate 32 x03)) (MkOutcome status headers body) 50000.

(** ** Codec *)

Definition encode_then_decode_round_trips_both_variants : option unit :=
  let key := MkKey "round-trip" in
  let in_progress := InProgress (MkFence 42) (MkFingerprint (replicate 32 x07)) 99000 in
  let framed := encode_record key in_progress GENESIS in
  '(consumed, k, s, chain) ← decode_record framed;
  ensure (consumed =? len framed);;
  ensure (bool_decide (k = key));;
  ensure (bool_decide (s = in_progress));;
  ensure (negb (bool_decide (chain = GENESIS)));;
  let done := wal_completed 201 (str_bytes "charged") in
  let framed := encode_record key done GENESIS in
  '(consumed, k, s, chain2) ← decode_record framed;
  ensure (consumed =? len framed);;
  ensure (bool_decide (k = key));;
  ensure (bool_decide (s = done));;
  ensure (negb (bool_decide (chain2 = GENESIS)));;
  ensure (negb (bool_decide (chain = chain2))).

Definition a_truncated_record_decodes_to_none : option unit :=
  let key := MkKey "k" in
  let framed := encode_record key (wal_completed 200 (str_bytes "ok")) GENESIS in
  for_all (seq 0 (length framed)) (fun cut =>
    ensure (bool_decide (decode_record (take cut framed) = None))).

Definition crc32_matches_known_ieee_vectors : option unit :=
  ensure (crc32 (str_bytes "") =? 0x00000000);;
  ensure (crc32 (str_bytes "123456789") =? 0xCBF43926);;
  ensure (crc32 (str_bytes "The quick brown fox jumps over the lazy dog") =? 0x414FA339).

Section wal_tests.
Context `{!HashOrder IdempotencyKey}.
(** Whether the platform syncs the directory of the temporary files. *)
Context (dirs : bool).

Definition temp_wal_path : Disk := disk_new dirs.

(** ** Durability *)

Definition a_completed_key_survives_a_simulated_crash : option unit :=
  let key := MkKey "charge-1" in
  let state := wal_completed 201 (str_bytes "charged") in
  store ← unwrap (WalStore_open temp_wal_path);
  let store := WalStore_put store key state in
  store ← reopen store true;
  ensure (bool_decide (WalStore_get store key = Some state)).

Definition a_buffered_put_is_durable_only_after_flush : option unit :=
  let key := MkKey "charge-b" in
  let state := wal_completed 201 (str_bytes "charged") in
  store ← unwrap (WalStore_open_buffered temp_wal_path);
  let store := WalStore_put store key state in
  ensure (bool_decide (WalStore_get store key = Some state));;
  store ← reopen store true;
  ensure (bool_decide (WalStore_get store key = None));;
  store ← reopen store false;
  let store := WalStore_put store key state in
  let store := WalStore_flush store in
  store ← reopen store true;
  ensure (bool_decide (WalStore_get store key = Some state)).

Definition a_whole_batch_recovers_after_one_flush : option unit :=
  let states := map (fun i => (MkKey (numbered "k" i),
                               wal_completed 200 (str_bytes (numbered "body-" i)))) (range 0 100) in
  store ← unwrap (WalStore_open_buffered temp_wal_path);
  let store := WalStore_flush (put_entries store states) in
  store ← reopen store true;
  for_all states (fun '(k, s) => ensure (bool_decide (WalStore_get store k = Some s))).

Definition a_torn_tail_is_discarded_on_reopen : option unit :=
  let good := MkKey "good" in
  let state := wal_completed 200 (str_bytes "ok") in
  store ← unwrap (WalStore_open temp_wal_path);
  let store := WalStore_put store good state in
  let f := log (disk store) in
  let f := file_write_all f (len (contents f)) [xff; x00; x12; x34; xab] in
  let d := with_log (disk store) (file_sync_all f) in
  store ← unwrap (WalStore_open d);
  ensure (bool_decide (WalStore_get store good = Some state)).

Definition interior_corruption_is_surfaced_not_silently_truncated : option unit :=
  store ← unwrap (WalStore_open temp_wal_path);
  let store := put_entries store
    (map (fun i => (MkKey (numbered "k" i), wal_completed 200 (str_bytes "x"))) (range 0 6)) in
  let bytes := contents (log (disk store)) in
  let bytes := flip (Z.to_nat HEADER_LEN + 1) xff bytes in
  ensure (match WalStore_open (overwrite (disk store) bytes) with Err _ => true | Ok _ => false end).

(** ** Engines over the log *)

(** [match engine.begin(..) { Run(token) => token, other => panic }] as the last
    call of a process lifetime. *)
Definition begin_token (key : IdempotencyKey) (fingerprint : RequestFingerprint) (now : Z)
  : Script RunToken := expect_run key fingerprint now Return.

Definition a_recovered_in_progress_lease_invalidates_the_pre_crash_token : option unit :=
  let key := MkKey "charge-x" in
  let fingerprint := MkFingerprint (replicate 32 x05) in
  let lease_ms := 30000 in
  store ← unwrap (WalStore_open temp_wal_path);
  let (token, engine) := run_script (new store lease_ms) (begin_token key fingerprint 1000) in
  pre_crash_token ← token;
  store ← reopen (Engine.store engine) true;
  fst (run_script (new store lease_ms)
   (let* fresh := expect_run key fingerprint (1000 + lease_ms + 1) in
    let* r := call_complete pre_crash_token (MkOutcome 500 [] (str_bytes "stale"))
                (1000 + lease_ms + 1) in
    assert_then (bool_decide (r = Err StaleFence))
    (complete_unwrap fresh (MkOutcome 201 [] (str_bytes "fresh")) (1000 + lease_ms + 1)
     (Return tt)))%script).

Definition engine_flush_persists_buffered_writes : option unit :=
  let key := MkKey "k" in
  let outcome := MkOutcome 200 [] (str_bytes "ok") in
  store ← unwrap (WalStore_open_buffered temp_wal_path);
  let (passed, engine) := run_script (new store 30000)
    (let* token := expect_run key (MkFingerprint (replicate 32 x01)) 1 in
     complete_unwrap token outcome 1 (call_flush (Return tt)))%script in
  passed;;
  store ← reopen (Engine.store engine) true;
  ensure (match WalStore_get store key with Some (Completed _ _ _) => true | _ => false end).

(** The first lifetime of the three prune tests: complete a key at 1000, prune. *)
Definition complete_prune_script (key : IdempotencyKey) (prune_at : Z) : Script unit :=
  (let* token := expect_run key (MkFingerprint (replicate 32 x01)) 1000 in
   complete_unwrap token (MkOutcome 200 [] (str_bytes "x")) 1000
   (call_prune prune_at (Return tt)))%script.

Definition complete_then_prune (key : IdempotencyKey) (prune_at : Z) : option WalStore :=
  store ← unwrap (WalStore_open temp_wal_path);
  let (passed, engine) := run_script (with_ttl store 30000 TTL) (complete_prune_script key prune_at) in
  passed;;
  reopen (Engine.store engine) true.

Definition prune_keeps_an_unexpired_key : option unit :=
  let key := MkKey "fresh" in
  store ← complete_then_prune key (1000 + TTL - 1);
  ensure (bool_decide (is_Some (WalStore_get store key))).

Definition prune_removes_a_key_at_its_expiry_instant : option unit :=
  let key := MkKey "edge" in
  store ← complete_then_prune key (1000 + TTL);
  ensure (bool_decide (WalStore_get store key = None)).

Definition prune_expired_physically_removes_expired_keys : option unit :=
  let key := MkKey "old" in
  store ← complete_then_prune key (1000 + TTL + 1);
  ensure (bool_decide (WalStore_get store key = None)).

(** The test of [replication.rs]: the primary's file is removed, the replica's
    is opened alone. *)
Definition exactly_once_survives_primary_node_death : option unit :=
  let key := MkKey "charge" in
  let fingerprint := MkFingerprint (replicate 32 x01) in
  let outcome := MkOutcome 201 [] (str_bytes "charged") in
  primary ← unwrap (WalStore_open temp_wal_path);
  replica ← unwrap (WalStore_open temp_wal_path);
  store ← ReplicatedStore_new [primary; replica];
  let (passed, engine) := run_script (new store 30000)
    (let* token := expect_run key fingerprint 1000 in
     complete_unwrap token outcome 1000 (Return tt))%script in
  passed;;
  replica ← replicas (Engine.store engine) !! 1%nat;
  store ← reopen replica true;
  fst (run_script (new store 30000)
    (let* got := expect_replay key fingerprint 2000 in
     assert_then (bool_decide (got = outcome)) (Return tt))%script).

(** ** Compaction *)

(** [std::fs::metadata(&path).len()]. *)
Definition file_len (s : WalStore) : Z := len (contents (log (disk s))).

Definition compaction_collapses_superseded_records : option unit :=
  let key := MkKey "hot" in
  store ← unwrap (WalStore_open temp_wal_path);
  let store := put_entries store
    (map (fun i => (key, wal_completed 200 (str_bytes (numbered "v" i)))) (range 0 200)) in
  let before := file_len store in
  let store := WalStore_compact store (fun _ _ => true) in
  let after := file_len store in
  ensure (after <? before);;
  reopened ← reopen store true;
  ensure (bool_decide (WalStore_get reopened key = Some (wal_completed 200 (str_bytes "v199")))).

(** [s.trim_start_matches('k')]. *)
Fixpoint trim_k (l : list byte) : list byte :=
  match l with
  | b :: l' => if bool_decide (b = x6b) then trim_k l' else l
  | [] => []
  end.

(** The predicate of the next test; every key of its store is ["k"] and a
    number, so the [unwrap] of the parse does not panic. *)
Definition odd_numbered (k : IdempotencyKey) (_ : KeyState) : bool :=
  match parse_uint (uint_max 32) (trim_k (str_bytes (key_str k))) with
  | Some n => n mod 2 =? 1
  | None => false
  end.

Definition compaction_drops_rejected_entries : option unit :=
  store ← unwrap (WalStore_open temp_wal_path);
  let store := put_entries store
    (map (fun i => (MkKey (numbered "k" i), wal_completed 200 (str_bytes "x"))) (range 0 10)) in
  let store := WalStore_compact store odd_numbered in
  reopened ← reopen store true;
  for_all (range 0 10) (fun i =>
    let present := bool_decide (is_Some (WalStore_get reopened (MkKey (numbered "k" i)))) in
    ensure (Bool.eqb present (i mod 2 =? 1))).

(** ** The chain root *)

(** [for (k, s) in entries { store.put(k, s); roots.push(store.root()) }]. *)
Fixpoint put_roots (s : WalStore) (kvs : list (IdempotencyKey * KeyState))
  : list (list byte) * WalStore :=
  match kvs with
  | [] => ([], s)
  | (k, st) :: kvs =>
      let s := WalStore_put s k st in
      let (roots, s') := put_roots s kvs in (root s :: roots, s')
  end.

Definition chain_root_is_deterministic_and_advances_per_put : option unit :=
  let keys_states := map (fun i => (MkKey (numbered "k" i),
                            wal_completed 200 (str_bytes (numbered "v" i)))) (range 0 5) in
  store ← unwrap (WalStore_open temp_wal_path);
  ensure (bool_decide (root store = GENESIS));;
  let (roots1, store1) := put_roots store keys_states in
  ensure (bool_decide (NoDup roots1));;
  for_all roots1 (fun r => ensure (negb (bool_decide (r = GENESIS))));;
  store ← unwrap (WalStore_open temp_wal_path);
  let (roots2, _) := put_roots store keys_states in
  ensure (bool_decide (roots1 = roots2));;
  store ← reopen store1 true;
  ensure (bool_decide (Some (root store) = roots1 !! (length roots1 - 1)%nat)).

(** Flip a byte of the first payload and write the checksum that fits. *)
Definition tamper (bytes : list byte) : list byte :=
  let bytes := flip (Z.to_nat HEADER_LEN + 2) x01 bytes in
  let first_len := from_le_bytes (slice bytes 0 4) in
  let new_crc := crc32 (slice bytes HEADER_LEN (HEADER_LEN + first_len)) in
  take 4 bytes ++ to_le_bytes 4 new_crc ++ drop 8 bytes.

Definition early_payload_tamper_is_caught_as_chain_mismatch_on_reopen : option unit :=
  store ← unwrap (WalStore_open temp_wal_path);
  let store := put_entries store
    (map (fun i => (MkKey (numbered "k" i), wal_completed 200 (str_bytes "intact"))) (range 0 5)) in
  let bytes := tamper (contents (log (disk store))) in
  ensure (match WalStore_open (overwrite (disk store) bytes) with Err _ => true | Ok _ => false end).

Definition two_stores_same_records_same_root : option unit :=
  let records := [(MkKey "alpha", wal_completed 200 (str_bytes "a"));
                  (MkKey "beta", wal_completed 201 (str_bytes "b"));
                  (MkKey "gamma", wal_completed 202 (str_bytes "c"))] in
  a ← unwrap (WalStore_open temp_wal_path);
  b ← unwrap (WalStore_open temp_wal_path);
  ensure (bool_decide (root (put_entries a records) = root (put_entries b records))).

Definition compaction_yields_consistent_chain_that_reopens_cleanly : option unit :=
  store ← unwrap (WalStore_open temp_wal_path);
  let store := put_entries store
    (map (fun i => (MkKey (numbered "k" (i mod 5)), wal_completed 200 (str_bytes (numbered "v" i))))
       (range 0 20)) in
  store ← reopen store true;
  let store := WalStore_compact store (fun _ _ => true) in
  let root_after_compact := root store in
  store ← reopen store true;
  ensure (bool_decide (root store = root_after_compact));;
  ensure (negb (bool_decide (root store = GENESIS))).

(** ** Randomized writes *)

(** [Rng::below]. *)
Definition below (rng n : Z) : Z * Z := let rng := xorshift64 rng in (rng mod n, rng).

(** [n] bytes of the generator. *)
Fixpoint random_bytes (n : nat) (rng : Z) : list byte * Z :=
  match n with
  | O => ([], rng)
  | S n =>
      let (b, rng) := below rng 256 in
      let (bs, rng) := random_bytes n rng in (u8_of_Z b :: bs, rng)
  end.

Definition random_fingerprint (rng : Z) : RequestFingerprint * Z :=
  let (bytes, rng) := random_bytes 32 rng in (MkFingerprint bytes, rng).

Definition random_state (rng : Z) : KeyState * Z :=
  let (coin, rng) := below rng 2 in
  if coin =? 0 then
    let rng := xorshift64 rng in
    let fence := rng in
    let (fingerprint, rng) := random_fingerprint rng in
    let rng := xorshift64 rng in
    (InProgress (MkFence fence) fingerprint rng, rng)
  else
    let (body_len, rng) := below rng 8 in
    let (body, rng) := random_bytes (Z.to_nat body_len) rng in
    let (with_header, rng) := below rng 2 in
    let (headers, rng) :=
      if with_header =? 0
      then let (v, rng) := below rng 1000 in (bt_insert "x-test" (numbered "v" v) [], rng)
      else ([], rng) in
    let (fingerprint, rng) := random_fingerprint rng in
    let (status, rng) := below rng 50 in
    let rng := xorshift64 rng in
    (Completed fingerprint (MkOutcome (200 + status) headers body) rng, rng).

(** The state of the loop: the generator, the reference map, the store. *)
Record Randomized := MkRandomized {
  r_rng : Z;
  r_reference : gmap IdempotencyKey KeyState;
  r_store : WalStore;
}.

(** [for (k, v) in &reference { assert_eq!(store.get(k), Some(v)) }]. *)
Definition agrees (store : WalStore) (reference : gmap IdempotencyKey KeyState) : option unit :=
  for_all (hm_iter reference) (fun '(k, v) => ensure (bool_decide (WalStore_get store k = Some v))).

Definition random_write (r : Randomized) (i : Z) : option Randomized :=
  let (n, rng) := below (r_rng r) 16 in
  let key := MkKey (numbered "k" n) in
  let (state, rng) := random_state rng in
  let reference := <[key := state]> (r_reference r) in
  let store := WalStore_put (r_store r) key state in
  if i mod 50 =? 49 then
    store ← reopen store true;
    agrees store reference;;
    Some (MkRandomized rng reference store)
  else Some (MkRandomized rng reference store).

(** The source runs it with seed [0x9E37_79B9_7F4A_7C15] and 600 writes. *)
Definition randomized_writes_recover_exactly_across_crashes (seed writes : Z) : option unit :=
  store ← unwrap (WalStore_open temp_wal_path);
  r ← for_each (range 0 writes) (MkRandomized seed ∅ store) random_write;
  store ← reopen (r_store r) true;
  agrees store (r_reference r).

End wal_tests.
