(* ===== verification/WalSuite.v ===== *)
(** * The tests of the write-ahead log pass

    What the tests do to a strict log is append entries, reopen and compact;
    [logged] says which entries are in the file.  Engines over the log are
    compared with the engine over the in-memory map. *)

From S2P Require Import Prelude Machine Str Decimal BTreeMap HashMap Types Store Engine EngineSpec.
From S2P Require Import Suite Replication Hash Crc Codec Disk Wal WalLog WalSpec Durability Damage.
From S2P Require Import EngineWal EngineTests WalTests.

(** The map that a sequence of writes leaves. *)
Definition written (kvs : list (IdempotencyKey * KeyState)) : gmap IdempotencyKey KeyState :=
  fold_left (fun m kv => <[kv.1 := kv.2]> m) kvs ∅.

(** The entries can be written. *)
Definition all_encodable (kvs : list (IdempotencyKey * KeyState)) : Prop := Forall (fun kv => encodable kv.1 kv.2) kvs.

#[export] Instance all_encodable_dec kvs : Decision (all_encodable kvs).
Proof. unfold all_encodable. apply _. Defined.

(** A store in order whose file holds the records of [kvs], with nothing in the
    buffer. *)
Record logged (s : WalStore) (kvs : list (IdempotencyKey * KeyState)) : Prop := {
  logged_repr : wal_repr s (entry_payloads kvs) [];
  logged_ok : wal_ok s;
  logged_encodable : all_encodable kvs;
}.

Lemma written_snoc kvs k st : written (kvs ++ [(k, st)]) = <[k := st]> (written kvs).
Proof. unfold written. by rewrite fold_left_app. Qed.

Lemma written_one k st : written [(k, st)] !! k = Some st.
Proof. apply lookup_insert_eq. Qed.

(** The last write of a key is the one that counts. *)
Lemma written_lookup kvs k st : NoDup kvs.*1 -> (k, st) ∈ kvs -> written kvs !! k = Some st.
Proof.
  induction kvs as [|[k' st'] kvs IH] using rev_ind; [by intros _ ?%elem_of_nil|].
  rewrite fmap_app, written_snoc. intros (Hnd & Hdis & _)%NoDup_app [Hin|Hin%list_elem_of_singleton]%elem_of_app.
  - rewrite lookup_insert_ne; [by apply IH|]. intros ->. apply (Hdis k); [by apply (list_elem_of_fmap_2 fst _ (k, st)) | left].
  - simplify_eq. apply lookup_insert_eq.
Qed.

Lemma written_None kvs k : k ∉ kvs.*1 -> written kvs !! k = None.
Proof.
  induction kvs as [|[k' st'] kvs IH] using rev_ind; [done|]. rewrite fmap_app, written_snoc.
  intros [Hn Hk]%not_elem_of_app. rewrite lookup_insert_ne; [by apply IH|]. intros ->. apply Hk. left.
Qed.

(** Only the last of several writes to one key is left. *)
Lemma written_same kvs k st : Forall (fun kv => kv.1 = k) kvs -> written (kvs ++ [(k, st)]) = {[k := st]}.
Proof.
  intros Hk. rewrite written_snoc. apply map_eq. intros k'. destruct (decide (k' = k)) as [->|Hne].
  - by rewrite lookup_insert_eq, lookup_singleton_eq.
  - rewrite lookup_insert_ne, lookup_singleton_ne by done. apply written_None.
    intros (kv & -> & Hin)%list_elem_of_fmap. rewrite Forall_forall in Hk. apply Hne. by apply Hk.
Qed.

(** The entries [f i] for [i] in a range, under different keys. *)
Lemma range_keys_nodup p a b (f : Z -> KeyState) :
  0 <= a -> b <= 2 ^ 64 -> NoDup (map (fun i => (MkKey (numbered p i), f i)) (range a b)).*1.
Proof.
  intros Ha Hb. rewrite <- list_fmap_compose. apply NoDup_fmap_2_strong.
  - intros i j Hi%elem_of_range Hj%elem_of_range E. simpl in E.
    apply (numbered_inj p); unfold in_uint; [lia..|congruence].
  - apply NoDup_fmap_2_strong; [|apply NoDup_seq]. intros; lia.
Qed.

Section logs.
Context `{!HashOrder IdempotencyKey}.

Lemma completed_encodable k status body :
  wf_key k -> len (str_bytes (key_str k)) <= 2 ^ 16 -> in_uint 16 status -> len body <= 2 ^ 16 ->
  encodable k (wal_completed status body).
Proof.
  intros Hk Hkl Hs Hb. set (o := MkOutcome status [("content-type"%string, "application/json"%string)] body).
  assert (admits_outcome (S := WalStore) k o 50000) as Ho.
  { apply wal_admits_outcome; [split; [done | by_eval] | by_eval|].
    unfold outcome_size. change (len (headers_raw (headers o))) with 36. change (Types.body o) with body. lia. }
  apply (Ho (MkFence 0) _ 0), wal_admits_request; [done | done | lia | by_eval | by_eval].
Qed.

Lemma plain_prefix p : bool_decide (Forall (fun b => byte_in 0 127 b = true) (str_bytes p)) = true ->
  Forall (fun b => byte_in 0 127 b = true) (str_bytes p).
Proof. apply bool_decide_eq_true_1. Qed.

(** The entry of a numbered key. *)
Lemma numbered_encodable i status body :
  0 <= i -> in_uint 16 status -> len body <= 2 ^ 16 ->
  encodable (MkKey (numbered "k" i)) (wal_completed status body).
Proof.
  intros Hi Hs Hb. apply completed_encodable; [|simpl | done | done].
  - by apply numbered_is_str; [apply plain_prefix|].
  - pose proof (numbered_length "k" i) as H. change (length (str_bytes "k")) with 1%nat in H. unfold len. cbn [key_str]. lia.
Qed.

Lemma logged_index s kvs : logged s kvs -> index s = written kvs.
Proof.
  intros [Hr _ He]. rewrite (repr_index _ _ _ Hr), app_nil_r. by apply replayed_entries.
Qed.

Lemma logged_root s kvs : logged s kvs -> root s = chain_end GENESIS (entry_payloads kvs).
Proof. intros [Hr _ _]. unfold root. by rewrite (repr_root _ _ _ Hr), app_nil_r. Qed.

Lemma logged_contents s kvs : logged s kvs -> contents (log (disk s)) = chain_log GENESIS (entry_payloads kvs).
Proof. intros [Hr _ _]. apply Hr. Qed.

Lemma payloads_encoded kvs : all_encodable kvs -> Forall encoded (entry_payloads kvs).
Proof. intros He. apply Forall_map. eapply Forall_impl; [exact He|]. intros [k st] ?. by exists k, st. Qed.

Lemma open_strict dirs : WalStore_open (temp_wal_path dirs) = Ok (sample_store true dirs).
Proof. reflexivity. Qed.

Lemma open_buffered dirs : WalStore_open_buffered (temp_wal_path dirs) = Ok (sample_store false dirs).
Proof. reflexivity. Qed.

Lemma logged_new dirs mode : logged (sample_store mode dirs) [].
Proof.
  split; [|apply sample_store_ok | constructor]. destruct (sample_store_ok mode dirs) as ((ps & qs & Hr) & _).
  pose proof (repr_contents _ _ _ Hr) as Hc. pose proof (pending_nil _ _ _ Hr eq_refl) as ->.
  symmetry in Hc. apply chain_log_empty in Hc as ->. exact Hr.
Qed.

Lemma all_encodable_snoc kvs k st : all_encodable kvs -> encodable k st -> all_encodable (kvs ++ [(k, st)]).
Proof. intros. apply Forall_app. split; [done|]. by constructor. Qed.

Lemma entry_payloads_snoc kvs k st : entry_payloads (kvs ++ [(k, st)]) = entry_payloads kvs ++ [encode_payload k st].
Proof. unfold entry_payloads. by rewrite map_app. Qed.

(** Strict mode: a put is in the file when it returns. *)
Lemma logged_put s kvs k st :
  logged s kvs -> sync_each s = true -> encodable k st -> logged (WalStore_put s k st) (kvs ++ [(k, st)]).
Proof.
  intros [Hr Ho He] Hs Hk. split; [|by apply put_repr | by apply all_encodable_snoc].
  rewrite entry_payloads_snoc. unfold WalStore_put. cbn [append sync_each]. rewrite Hs.
  apply (flush_repr _ _ [encode_payload k st]), (append_repr _ _ []); done.
Qed.

Lemma logged_puts s kvs new :
  logged s kvs -> sync_each s = true -> all_encodable new ->
  logged (put_entries s new) (kvs ++ new) /\ sync_each (put_entries s new) = true.
Proof.
  intros Hl Hs Hn. revert s kvs Hl Hs; induction Hn as [|[k st] new He _ IH]; intros s kvs Hl Hs.
  - by rewrite app_nil_r.
  - replace (kvs ++ (k, st) :: new) with ((kvs ++ [(k, st)]) ++ new) by (by rewrite <- app_assoc).
    apply IH; [by apply logged_put | by rewrite put_sync_each].
Qed.

Lemma put_buffered s k st : sync_each s = false -> WalStore_put s k st = append s k st.
Proof. intros Hs. unfold WalStore_put. cbn [append sync_each]. by rewrite Hs. Qed.

(** Group commit: a batch is in the file after the flush. *)
Lemma logged_batch s kvs new :
  logged s kvs -> sync_each s = false -> all_encodable new ->
  logged (WalStore_flush (put_entries s new)) (kvs ++ new).
Proof.
  intros [Hr Ho He] Hs Hn.
  assert (wal_repr (put_entries s new) (entry_payloads kvs) (entry_payloads new) /\
          wal_ok (put_entries s new) /\ sync_each (put_entries s new) = false) as (Hr' & Ho' & _).
  { induction new as [|[k st] new IH] using rev_ind; [done|]. apply Forall_app in Hn as [Hn Hk].
    apply Forall_cons_1 in Hk as [Hk _]. destruct (IH Hn) as (Hr' & Ho' & Hs').
    unfold put_entries in *. rewrite fold_left_app. cbn [fold_left fst snd]. split_and!.
    - rewrite entry_payloads_snoc, put_buffered by done. by apply append_repr.
    - by apply put_repr.
    - by rewrite put_sync_each. }
  split; [|by apply flush_pending_ok | by apply Forall_app].
  unfold entry_payloads in *. rewrite map_app. by apply flush_repr.
Qed.

(** A process that ends loses what it had not written, and nothing else. *)
Lemma reopen_payloads s ps qs mode :
  wal_repr s ps qs -> wal_ok s ->
  exists s', reopen s mode = Some s' /\ wal_repr s' ps [] /\ wal_ok s' /\ sync_each s' = mode.
Proof.
  intros Hr Ho. pose proof (repr_valid _ _ _ Hr) as Hv. apply Forall_app in Hv as [Hv _].
  assert (log_image ps (contents (log (disk s)))) as Hi.
  { exists []. by rewrite app_nil_r, (repr_contents _ _ _ Hr). }
  unfold reopen. rewrite (open_log _ mode ps) by done. eexists. split; [done|].
  pose proof (opened_repr (disk s) mode _ Hv Hi (repr_crash _ _ _ Hr)) as Hr'.
  split_and!; [done | | done]. by split; [eexists _, _|].
Qed.

Lemma reopen_entries s kvs qs mode :
  wal_repr s (entry_payloads kvs) qs -> wal_ok s -> all_encodable kvs ->
  exists s', reopen s mode = Some s' /\ logged s' kvs /\ sync_each s' = mode.
Proof.
  intros Hr Ho He. destruct (reopen_payloads s _ qs mode Hr Ho) as (s' & E & Hr' & Ho' & Hs).
  by exists s'; split_and!.
Qed.

(** With an empty buffer nothing is lost. *)
Lemma reopen_flushed s mode :
  wal_ok s -> pending s = [] ->
  exists s', reopen s mode = Some s' /\ wal_ok s' /\ index s' = index s /\ sync_each s' = mode.
Proof.
  intros Ho Hp. pose proof Ho as ((ps & qs & Hr) & _). pose proof (pending_nil _ _ _ Hr Hp) as ->.
  destruct (reopen_payloads s ps [] mode Hr Ho) as (s' & E & Hr' & Ho' & Hs).
  exists s'. split_and!; try done. by rewrite (repr_index _ _ _ Hr), (repr_index _ _ _ Hr').
Qed.

Lemma logged_reopen s kvs mode :
  logged s kvs -> exists s', reopen s mode = Some s' /\ logged s' kvs /\ sync_each s' = mode.
Proof. intros [Hr Ho He]. by eapply reopen_entries. Qed.

Lemma logged_compact s kvs keep :
  logged s kvs -> logged (WalStore_compact s keep) (hm_iter (retain keep (written kvs))).
Proof.
  intros Hl. rewrite <- (logged_index s kvs) by done. destruct (compact_repr s keep) as [Hr Ho]; [apply Hl|].
  split; [exact Hr | exact Ho|]. apply hm_iter_encodable, retain_encodable, wal_encodable, Hl.
Qed.

End logs.

(** ** The tests that append, reopen and compact *)

(** A test that opens its path first. *)
Ltac open_path := rewrite ?open_strict, ?open_buffered, ?unwrap_ok, ?bind_some.

(** Reopen a log whose entries are known, and look at its index. *)
Ltac reopen_log H mode s Hl :=
  let E := fresh "E" in
  destruct (logged_reopen _ _ mode H) as (s & E & Hl & ?); rewrite E, bind_some.

Section pass.
Context `{!HashOrder IdempotencyKey}.
Context (dirs : bool).

Lemma fresh_logged mode kvs :
  all_encodable kvs -> mode = true ->
  logged (put_entries (sample_store mode dirs) kvs) kvs /\
  sync_each (put_entries (sample_store mode dirs) kvs) = true.
Proof. intros He ->. by apply (logged_puts _ [] kvs); [apply logged_new | |]. Qed.

Lemma fresh_put k st : encodable k st -> logged (WalStore_put (sample_store true dirs) k st) [(k, st)].
Proof. intros He. by apply (logged_put _ []); [apply logged_new | |]. Qed.

(** A lookup in a store whose entries are concrete. *)
Lemma logged_get s kvs k : logged s kvs -> WalStore_get s k = written kvs !! k.
Proof. intros Hl. unfold WalStore_get. by rewrite (logged_index s kvs). Qed.

Lemma pass_completed_key : a_completed_key_survives_a_simulated_crash dirs = Some tt.
Proof.
  unfold a_completed_key_survives_a_simulated_crash. open_path.
  set (k := MkKey "charge-1"). set (st := wal_completed 201 (str_bytes "charged")).
  assert (encodable k st) as He by by_eval. pose proof (fresh_put k st He) as Hl.
  reopen_log Hl true s Hs. by rewrite (logged_get _ _ _ Hs), written_one, bool_decide_true.
Qed.

Lemma pass_buffered_put : a_buffered_put_is_durable_only_after_flush dirs = Some tt.
Proof.
  unfold a_buffered_put_is_durable_only_after_flush. open_path.
  set (k := MkKey "charge-b"). set (st := wal_completed 201 (str_bytes "charged")).
  assert (encodable k st) as He by by_eval. rewrite put_buffered by done.
  assert (WalStore_get (append (sample_store false dirs) k st) k = Some st) as -> by apply lookup_insert_eq.
  rewrite ensure_bind by (by rewrite bool_decide_true).
  destruct (reopen_entries (append (sample_store false dirs) k st) [] [encode_payload k st] true) as (s & E & Hl & _).
  { apply (append_repr _ [] []); [apply logged_new | done]. }
  { rewrite <- put_buffered by done. apply put_repr; [apply sample_store_ok | done]. }
  { constructor. }
  rewrite E, bind_some. rewrite (logged_get _ _ _ Hl), ensure_bind by done.
  reopen_log Hl false s' Hl'. assert (logged (WalStore_flush (WalStore_put s' k st)) [(k, st)]) as Hl2.
  { apply (logged_batch s' [] [(k, st)] Hl'); [done | by constructor]. }
  reopen_log Hl2 true s2 Hs2. by rewrite (logged_get _ _ _ Hs2), written_one, bool_decide_true.
Qed.

Lemma pass_batch : a_whole_batch_recovers_after_one_flush dirs = Some tt.
Proof.
  unfold a_whole_batch_recovers_after_one_flush. open_path.
  set (kvs := map _ (range 0 100)). assert (all_encodable kvs) as He.
  { apply Forall_map, Forall_forall. intros i Hi%elem_of_range. apply numbered_encodable; [lia | by_eval|].
    pose proof (numbered_length "body-" i) as H. change (length (str_bytes "body-")) with 5%nat in H. unfold len. lia. }
  assert (logged (WalStore_flush (put_entries (sample_store false dirs) kvs)) kvs) as Hl.
  { by apply (logged_batch _ []); [apply logged_new | |]. }
  reopen_log Hl true s Hs. apply for_all_Some, Forall_forall. intros [k st] Hin.
  rewrite (logged_get _ _ _ Hs), (written_lookup kvs k st); [by rewrite bool_decide_true | | done].
  by apply range_keys_nodup.
Qed.

Lemma pass_torn_tail : a_torn_tail_is_discarded_on_reopen dirs = Some tt.
Proof.
  unfold a_torn_tail_is_discarded_on_reopen. open_path.
  set (k := MkKey "good"). set (st := wal_completed 200 (str_bytes "ok")).
  assert (encodable k st) as He by by_eval. pose proof (fresh_put k st He) as Hl.
  set (s := WalStore_put _ _ _) in *. set (d := with_log _ _).
  unfold WalStore_open. rewrite (open_log d true (entry_payloads [(k, st)])).
  - rewrite unwrap_ok, bind_some. unfold WalStore_get. cbn [opened index].
    rewrite replayed_entries by apply Hl. fold (written [(k, st)]). by rewrite written_one, bool_decide_true.
  - apply encoded_valid, payloads_encoded, Hl.
  - eexists. split; [|shelve]. unfold d. cbn [with_log log].
    rewrite contents_synced, contents_write, (logged_contents _ _ Hl), write_at_end. done.
    Unshelve. reflexivity.
Qed.

(** ** Damage *)

Lemma contents_overwrite d bytes : contents (log (overwrite d bytes)) = bytes.
Proof.
  unfold overwrite. cbn [with_log log]. rewrite contents_write, contents_set_len.
  apply (write_at_end [] bytes).
Qed.

Lemma flip_insert i mask bytes b : bytes !! i = Some b -> flip i mask bytes = <[i := xor_byte b mask]> bytes.
Proof. intros Hb. unfold flip. by rewrite (alter_insert _ _ _ b). Qed.

(** A flipped byte of the first record, past its length field, is refused. *)
Lemma flipped_refused s k st kvs i mask :
  logged s ((k, st) :: kvs) -> (4 <= i < 40 + length (encode_payload k st))%nat -> mask <> x00 ->
  exists e, WalStore_open (overwrite (disk s) (flip i mask (contents (log (disk s))))) = Err e.
Proof.
  intros Hl Hi Hm. rewrite (logged_contents _ _ Hl). pose proof (logged_encodable _ _ Hl) as He.
  set (p0 := encode_payload k st) in *. change (entry_payloads _) with (p0 :: entry_payloads kvs).
  set (l := chain_log _ _). assert (40 + len p0 <= len l) as Hlen.
  { unfold l. cbn [chain_log]. rewrite len_app, len_frame by apply link_length.
    change HEADER_LEN with 40. unfold len. lia. }
  destruct (lookup_lt_is_Some_2 l i) as [y Hy]; [unfold len in Hlen; lia|].
  rewrite (flip_insert _ _ _ y Hy). set (d := overwrite _ _).
  destruct (damaged_log (p0 :: entry_payloads kvs) i (xor_byte y mask) y d true)
    as (qs & p & rs & Eps & Hj & Ho);
    [exact (payloads_encoded _ He) | done | by apply xor_byte_ne | apply contents_overwrite|].
  cbv zeta in *. assert (len (chain_log GENESIS qs) = 0 \/ 40 + len p0 <= len (chain_log GENESIS qs)) as Hoff.
  { destruct qs as [|p1 qs]; [by left|]. right. injection Eps as <- _. cbn [chain_log].
    rewrite len_app, len_frame by apply link_length. change HEADER_LEN with 40. unfold len. lia. }
  unfold WalStore_open, len in *. destruct Ho as [->|[->|[H4 _]]]; [eauto | eauto | lia].
Qed.

Lemma pass_interior : interior_corruption_is_surfaced_not_silently_truncated dirs = Some tt.
Proof.
  unfold interior_corruption_is_surfaced_not_silently_truncated. open_path.
  set (kvs := map _ (range 0 6)). assert (all_encodable kvs) as He.
  { apply Forall_map, Forall_forall. intros i Hi%elem_of_range. apply numbered_encodable; [lia | by_eval..]. }
  destruct (fresh_logged true kvs He eq_refl) as [Hl _].
  destruct (flipped_refused _ _ _ _ (Z.to_nat HEADER_LEN + 1) xff Hl) as [e ->]; [|done..].
  apply (bool_decide_unpack _). vm_compute. exact I.
Qed.

(** ** Compaction *)

Lemma compacted_get s m k : logged s (hm_iter m) -> WalStore_get s k = m !! k.
Proof. intros Hl. rewrite (logged_get s (hm_iter m)) by done. unfold written. by rewrite fold_insert_hm_iter. Qed.

Lemma hm_iter_singleton k (st : KeyState) : hm_iter ({[k := st]} : gmap IdempotencyKey KeyState) = [(k, st)].
Proof. apply Permutation_singleton_r. rewrite hm_iter_perm. by rewrite map_to_list_singleton. Qed.

Lemma retain_all m : retain (fun _ _ => true) m = m.
Proof. apply map_eq. intros k. rewrite retain_lookup. by destruct (m !! k). Qed.

Lemma pass_collapse : compaction_collapses_superseded_records dirs = Some tt.
Proof.
  unfold compaction_collapses_superseded_records. open_path. set (k := MkKey "hot").
  set (f := fun i => (k, wal_completed 200 (str_bytes (numbered "v" i)))).
  assert (forall i, 0 <= i -> encodable k (wal_completed 200 (str_bytes (numbered "v" i)))) as Hf.
  { intros i Hi. apply completed_encodable; [by_eval.. | ]. pose proof (numbered_length "v" i) as H.
    change (length (str_bytes "v")) with 1%nat in H. unfold len. lia. }
  assert (all_encodable (map f (range 0 200))) as He.
  { apply Forall_map, Forall_forall. intros i Hi%elem_of_range. apply Hf. lia. }
  destruct (fresh_logged true _ He eq_refl) as [Hl _].
  pose proof (logged_compact _ _ (fun _ _ => true) Hl) as Hc. rewrite retain_all in Hc.
  set (s := put_entries _ _) in *. set (last := wal_completed 200 (str_bytes (numbered "v" 199))).
  assert (written (map f (range 0 200)) = {[k := last]}) as Ew.
  { change (range 0 200) with (range 0 (199 + 1)). rewrite range_snoc, map_app by lia. apply written_same. apply Forall_map, Forall_forall. done. }
  rewrite Ew in Hc. rewrite ensure_bind.
  - reopen_log Hc true s' Hs. rewrite (compacted_get _ _ _ Hs), lookup_singleton_eq.
    by rewrite bool_decide_true.
  - unfold file_len. rewrite (logged_contents _ _ Hl), (logged_contents _ _ Hc), hm_iter_singleton.
    pose proof (len_chain_log GENESIS (entry_payloads (map f (range 0 200)))) as Hlen.
    unfold entry_payloads, len in Hlen. rewrite !length_map in Hlen. change (length (range 0 200)) with 200%nat in Hlen.
    cbn [entry_payloads map chain_log fst snd]. rewrite app_nil_r, len_frame by apply link_length.
    assert (len (encode_payload k last) <= 1000) by by_eval. change HEADER_LEN with 40. unfold entry_payloads, len in *. lia.
Qed.

Lemma pass_drop : compaction_drops_rejected_entries dirs = Some tt.
Proof.
  unfold compaction_drops_rejected_entries. open_path. set (f := fun i => (MkKey (numbered "k" i), _)).
  assert (all_encodable (map f (range 0 10))) as He.
  { apply Forall_map, Forall_forall. intros i Hi%elem_of_range. apply numbered_encodable; [lia | by_eval..]. }
  destruct (fresh_logged true _ He eq_refl) as [Hl _].
  pose proof (logged_compact _ _ odd_numbered Hl) as Hc. reopen_log Hc true s Hs.
  apply for_all_Some, Forall_forall. intros i Hi. rewrite (compacted_get _ _ _ Hs), retain_lookup.
  rewrite (written_lookup _ _ (wal_completed 200 (str_bytes "x"))).
  - assert (Forall (fun i => odd_numbered (MkKey (numbered "k" i)) state = (i mod 2 =? 1)) (range 0 10)) as Ho by by_eval.
    rewrite Forall_forall in Ho. specialize (Ho i Hi). unfold odd_numbered in *. rewrite Ho.
    by destruct (i mod 2 =? 1).
  - by apply range_keys_nodup.
  - apply list_elem_of_fmap. by exists i.
Qed.

Lemma pass_same_root : two_stores_same_records_same_root dirs = Some tt.
Proof. unfold two_stores_same_records_same_root. open_path. by rewrite bool_decide_true. Qed.

(** ** Engines over the log *)

Lemma compact_sync_each s keep : sync_each (WalStore_compact s keep) = sync_each s.
Proof. unfold WalStore_compact. by destruct (compact_log _). Qed.

(** A script on an engine over the log behaves as on the in-memory map, and
    leaves a store in order with the same records. *)
Lemma log_script {A} (e : Engine WalStore) m (t : Script A) :
  simulates e m -> script_fits m t = true ->
  exists e', run_script e t = ((run_script m t).1, e') /\ simulates e' (run_script m t).2 /\
    sync_each (store e') = sync_each (store e).
Proof.
  intros Hsim Hfit. destruct (script_transfers t e m Hsim) as [Er Hs].
  { by apply script_fits_admissible. }
  exists (run_script e t).2. split_and!; [|done|].
  - rewrite <- Er. by destruct (run_script e t).
  - apply (run_script_keeps (fun s => sync_each s = sync_each (store e))); [| | | done].
    + intros s k st <-. apply put_sync_each.
    + intros s <-. apply flush_frame.
    + intros s keep <-. apply compact_sync_each.
Qed.

(** The engine that a new process builds over a reopened log. *)
Definition restarted (m : Engine MemoryStore) (lease ttl : Z) : Engine MemoryStore :=
  MkEngine (store m) lease ttl (wrapping_add 64 (max_fence (keys (store m))) 1).

Lemma restarted_simulates s m lease ttl :
  wal_ok s -> index s = keys (store m) -> in_uint 64 lease -> in_uint 64 ttl ->
  simulates (with_ttl s lease ttl) (restarted m lease ttl).
Proof.
  intros Ho Hi Hl Ht. unfold simulates, engine_ranges. simpl.
  unfold WalStore_max_in_progress_fence. rewrite Hi. split_and!; try done. by apply wrap_range.
Qed.

(** A strict engine whose process ends: the next one finds its records. *)
Lemma reopen_engine (e : Engine WalStore) m mode :
  simulates e m -> sync_each (store e) = true ->
  exists s, reopen (store e) mode = Some s /\ wal_ok s /\ index s = keys (store m) /\ sync_each s = mode.
Proof.
  intros (Ho & _ & Hrec & _) Hs. destruct (reopen_flushed (store e) mode Ho) as (s & E & Hok & Hi & Hm).
  { by apply Ho. }
  exists s. split_and!; try done. by rewrite Hi.
Qed.

Lemma fresh_simulates mode ttl :
  in_uint 64 ttl ->
  simulates (with_ttl (sample_store mode dirs) LEASE_MS ttl) (with_ttl MemoryStore_new LEASE_MS ttl) /\
  sync_each (store (with_ttl (sample_store mode dirs) LEASE_MS ttl)) = mode.
Proof. intros Ht. split; [|done]. apply empty_simulates; [apply sample_store_ok | done | done | done]. Qed.

(** A script of the next process. *)
Lemma next_process {A} s m (t : Script A) ttl :
  wal_ok s -> index s = keys (store m) -> in_uint 64 ttl -> script_fits (restarted m LEASE_MS ttl) t = true ->
  fst (run_script (with_ttl s LEASE_MS ttl) t) = fst (run_script (restarted m LEASE_MS ttl) t).
Proof.
  intros Ho Hi Ht Hf. apply script_transfers; [by apply restarted_simulates|]. by apply script_fits_admissible.
Qed.

Lemma pass_recovered_lease : a_recovered_in_progress_lease_invalidates_the_pre_crash_token dirs = Some tt.
Proof.
  unfold a_recovered_in_progress_lease_invalidates_the_pre_crash_token, new. change 30000 with LEASE_MS.
  open_path. destruct (fresh_simulates true DEFAULT_TTL_MS ltac:(by_eval)) as [H0 Hmode].
  set (e0 := with_ttl (sample_store true dirs) _ _) in *. clearbody e0.
  set (t := begin_token _ _ _). set (m := with_ttl MemoryStore_new LEASE_MS DEFAULT_TTL_MS) in *.
  destruct (log_script e0 m t H0) as (e & -> & Hsim & Hs); [vm_compute; reflexivity|]. rewrite Hmode in Hs.
  set (tok := MkRunToken (MkKey "charge-x") (MkFence 1)).
  assert ((run_script m t).1 = Some tok) as -> by (vm_compute; reflexivity). rewrite bind_some.
  destruct (reopen_engine e _ true Hsim Hs) as (s & -> & Ho & Hi & _). rewrite bind_some.
  rewrite (next_process s (run_script m t).2); [vm_compute; reflexivity | done | done | by_eval|].
  vm_compute; reflexivity.
Qed.

(** ** Group commit through the engine *)

(** Every way for the script to return goes through a flush last. *)
Fixpoint returns_flushed {A} (flushed : bool) (t : Script A) : Prop :=
  match t with
  | Call op cont => forall r, returns_flushed (match op with OpFlush => true | _ => false end) (cont r)
  | Return _ => flushed = true
  | Panic => True
  end.

Lemma returns_flushed_pending {A} (t : Script A) : forall flushed (e : Engine WalStore),
  returns_flushed flushed t -> (flushed = true -> pending (store e) = []) ->
  (run_script e t).1 <> None -> pending (store (run_script e t).2) = [].
Proof.
  induction t as [op cont IH|a|]; intros flushed e Hf Hp Hr; [|by apply Hp | done]. cbn [run_script] in *.
  destruct (run_op e op) as [r e'] eqn:E. apply (IH r _ e' (Hf r)); [|done].
  destruct op; try done. simpl in E. simplify_eq. intros _. apply flush_frame.
Qed.

Lemma pass_engine_flush : engine_flush_persists_buffered_writes dirs = Some tt.
Proof.
  unfold engine_flush_persists_buffered_writes, new. change 30000 with LEASE_MS. open_path. set (t := expect_run _ _ _ _).
  destruct (fresh_simulates false DEFAULT_TTL_MS ltac:(by_eval)) as [H0 _].
  set (e0 := with_ttl (sample_store false dirs) _ _) in *. clearbody e0.
  set (m := with_ttl MemoryStore_new LEASE_MS DEFAULT_TTL_MS) in *.
  assert (returns_flushed false t) as Hf.
  { intros [[]| |]; try exact I. intros [|[]|]; try exact I. intros r. reflexivity. }
  pose proof (returns_flushed_pending t false e0 Hf ltac:(done)) as Hp.
  destruct (log_script e0 m t H0) as (e & E & Hsim & _); [vm_compute; reflexivity|].
  rewrite E in *. cbn [fst snd] in Hp.
  assert ((run_script m t).1 = Some tt) as Em by (vm_compute; reflexivity). rewrite Em in *. rewrite bind_some.
  destruct (reopen_flushed (store e) true (proj1 Hsim) (Hp ltac:(done))) as (s & -> & _ & Hi & _). rewrite bind_some.
  destruct Hsim as (_ & _ & Hrec & _). unfold WalStore_get. rewrite Hi.
  change (index (store e)) with (records e). rewrite Hrec. vm_compute. reflexivity.
Qed.

(** ** The prune tests *)

Lemma pruned_log key prune_at :
  let t := complete_prune_script key prune_at in
  let m := with_ttl MemoryStore_new LEASE_MS TTL in
  script_fits m t = true -> (run_script m t).1 = Some tt ->
  exists s, complete_then_prune dirs key prune_at = Some s /\ index s = keys (store (run_script m t).2).
Proof.
  intros t m Hfit Hpass. unfold complete_then_prune. change 30000 with LEASE_MS. open_path.
  destruct (fresh_simulates true TTL ltac:(by_eval)) as [H0 Hmode].
  set (e0 := with_ttl (sample_store true dirs) _ _) in *. clearbody e0. fold t m in H0 |- *.
  destruct (log_script e0 m t H0 Hfit) as (e & -> & Hsim & Hs). rewrite Hpass, bind_some.
  rewrite Hmode in Hs. destruct (reopen_engine e _ true Hsim Hs) as (s & -> & _ & Hi & _). eauto.
Qed.

(** A prune test: the lookup after the restart, evaluated in memory. *)
Ltac prune_test key at_ms :=
  let s := fresh "s" in let E := fresh "E" in let Hi := fresh "Hi" in
  destruct (pruned_log key at_ms) as (s & E & Hi); [vm_compute; reflexivity..|];
  rewrite E, bind_some; unfold WalStore_get; rewrite Hi; vm_compute; reflexivity.

Lemma pass_prune_keep : prune_keeps_an_unexpired_key dirs = Some tt.
Proof. unfold prune_keeps_an_unexpired_key. prune_test (MkKey "fresh") (1000 + TTL - 1). Qed.

Lemma pass_prune_edge : prune_removes_a_key_at_its_expiry_instant dirs = Some tt.
Proof. unfold prune_removes_a_key_at_its_expiry_instant. prune_test (MkKey "edge") (1000 + TTL). Qed.

Lemma pass_prune_old : prune_expired_physically_removes_expired_keys dirs = Some tt.
Proof. unfold prune_expired_physically_removes_expired_keys. prune_test (MkKey "old") (1000 + TTL + 1). Qed.

(** ** Losing a node *)

(** Two strict nodes. *)
Definition two_strict (s : ReplicatedStore WalStore) : Prop :=
  length (replicas s) = 2%nat /\ Forall (fun r => sync_each r = true) (replicas s).

Lemma two_strict_map s (f : WalStore -> WalStore) :
  (forall r, sync_each (f r) = sync_each r) -> two_strict s -> two_strict (MkReplicated (map f (replicas s))).
Proof.
  intros Hf [Hl Hs]. split; cbn [replicas]; [by rewrite length_map|]. apply Forall_map.
  eapply Forall_impl; [exact Hs|]. intros r Hr. by rewrite Hf.
Qed.

Lemma two_strict_script {A} (e : Engine (ReplicatedStore WalStore)) (t : Script A) :
  two_strict (store e) -> two_strict (store (run_script e t).2).
Proof.
  apply (run_script_keeps two_strict).
  - intros s k st Hs. unfold two_strict. cbn [put ReplicatedStore_Store]. rewrite put_replicas.
    by apply (two_strict_map s (fun r => WalStore_put r k st)); [intros; apply put_sync_each|].
  - intros s Hs. by apply (two_strict_map s WalStore_flush); [intros; apply flush_frame|].
  - intros s keep Hs. by apply (two_strict_map s (fun r => WalStore_compact r keep)); [intros; apply compact_sync_each|].
Qed.

Lemma pass_primary_death : exactly_once_survives_primary_node_death dirs = Some tt.
Proof.
  unfold exactly_once_survives_primary_node_death, new. change 30000 with LEASE_MS. open_path.
  set (w := sample_store true dirs). change (ReplicatedStore_new [w; w]) with (Some (MkReplicated [w; w])). rewrite bind_some.
  set (e0 := with_ttl (MkReplicated [w; w]) LEASE_MS DEFAULT_TTL_MS).
  set (m := with_ttl MemoryStore_new LEASE_MS DEFAULT_TTL_MS). set (t := expect_run _ _ _ _).
  assert (simulates e0 m) as H0.
  { apply empty_simulates; try done. split; [done|]. repeat constructor; apply sample_store_ok. }
  assert (two_strict (store e0)) as Hn by (split; [done | by repeat constructor]). clearbody e0.
  apply (two_strict_script e0 t) in Hn.
  destruct (script_transfers t e0 m H0) as [Er Hsim].
  { apply script_fits_admissible; [by intros [] | vm_compute; reflexivity]. }
  destruct (run_script e0 t) as [r e]. cbn [fst snd] in *. subst r.
  assert ((run_script m t).1 = Some tt) as -> by (vm_compute; reflexivity). rewrite bind_some.
  destruct Hn as [Hlen Hstrict]. destruct (replicas (store e)) as [|r0 [|r1 [|]]] eqn:Er; try done.
  destruct Hsim as ([_ Hrep] & _ & Hrec & _). rewrite Er in Hrep. inversion Hrep as [|? ? _ Hrep']; subst.
  inversion Hrep' as [|? ? [Ho1 Hv1] _]; subst. inversion Hstrict as [|? ? _ Hst']; subst. inversion Hst' as [|? ? Hs1 _]; subst.
  change ([r0; r1] !! 1%nat) with (Some r1). rewrite bind_some.
  destruct (reopen_flushed r1 true Ho1) as (s & -> & Ho & Hi & _); [by apply Ho1|]. rewrite bind_some.
  rewrite (next_process s (run_script m t).2); [vm_compute; reflexivity | done | | by_eval|].
  - rewrite Hi. etrans; [exact Hv1 | exact Hrec].
  - vm_compute; reflexivity.
Qed.

(** ** Randomized writes *)

Lemma below_range rng n : in_uint 64 rng -> 0 < n -> 0 <= (below rng n).1 < n /\ in_uint 64 (below rng n).2.
Proof. intros Hr Hn. split; [by apply Z.mod_pos_bound | by apply xorshift64_range]. Qed.

Lemma random_bytes_ok n rng :
  in_uint 64 rng -> length (random_bytes n rng).1 = n /\ in_uint 64 (random_bytes n rng).2.
Proof.
  revert rng; induction n as [|n IH]; intros rng Hr; [done|]. cbn [random_bytes].
  destruct (below_range rng 256 Hr ltac:(lia)) as [_ Hb]. destruct (below rng 256) as [b rng']. cbn [snd] in Hb.
  destruct (IH rng' Hb) as [Hl Hr']. destruct (random_bytes n rng') as [bs rng'']. simpl in *. by rewrite Hl.
Qed.

(** Draw from the generator and keep what is known of the result. *)
Ltac draw n :=
  match goal with
  | |- context [below ?rng n] =>
      let H := fresh "Hdraw" in let v := fresh "v" in let r := fresh "rng" in let E := fresh "Er" in
      pose proof (below_range rng n ltac:(first [done | by apply xorshift64_range]) ltac:(lia)) as H;
      destruct (below rng n) as [v r] eqn:E; cbn [fst snd] in H; clear E; destruct H as [? ?]
  end.
Ltac draw_bytes n :=
  match goal with
  | |- context [random_bytes n ?rng] =>
      let H := fresh "Hbytes" in let v := fresh "bs" in let r := fresh "rng" in let E := fresh "Er" in
      pose proof (random_bytes_ok n rng ltac:(first [done | by apply xorshift64_range])) as H;
      destruct (random_bytes n rng) as [v r] eqn:E; cbn [fst snd] in H; clear E; destruct H as [? ?]
  end.

(** The headers that the generator makes. *)
Definition test_headers (h : list (string * string)) : Prop :=
  h = [] \/ exists v, 0 <= v /\ h = [("x-test"%string, numbered "v" v)].

(** Every generated state has the ranges of its types and a small encoding. *)
Lemma random_state_ok rng k :
  in_uint 64 rng -> wf_key k -> len (str_bytes (key_str k)) <= 2 ^ 16 ->
  encodable k (random_state rng).1 /\ in_uint 64 (random_state rng).2.
Proof.
  intros Hr Hk Hkl. unfold random_state, random_fingerprint. draw 2. destruct (v =? 0).
  - draw_bytes 32%nat. cbn [fst snd]. split; [|by apply xorshift64_range].
    apply (wal_admits_request k (MkFingerprint bs)); [done | done | lia | by apply xorshift64_range..].
  - draw 8. draw_bytes (Z.to_nat v0). draw 2.
    assert (exists h r, (if v1 =? 0 then let (v, rng) := below rng3 1000 in (bt_insert "x-test" (numbered "v" v) [], rng)
                         else ([], rng3)) = (h, r) /\ test_headers h /\ in_uint 64 r) as (h & r & -> & Hh & Hr').
    { destruct (v1 =? 0); [|by eexists _, _; split_and!; [|left|]]. draw 1000.
      eexists _, _. split_and!; [done | right; exists v2; split; [lia | done] | done]. }
    draw_bytes 32%nat. draw 50. cbn [fst snd]. split; [|by apply xorshift64_range].
    assert (wf_headers h /\ len (headers_raw h) <= 1000) as [Hwf Hhl].
    { destruct Hh as [->|(x & Hx & ->)]; [by_eval|]. pose proof (numbered_length "v" x) as Hn.
      change (length (str_bytes "v")) with 1%nat in Hn. split.
      - split; [done|]. apply Forall_singleton. split; [by_eval | by apply numbered_is_str; [apply plain_prefix|]].
      - cbn [headers_raw fst snd]. unfold str_field. rewrite !len_app, !len_bytes_field.
        change (len (str_bytes "x-test")) with 6. change (len (@nil byte)) with 0. unfold len. lia. }
    assert (admits_outcome (S := WalStore) k (MkOutcome (200 + v2) h bs) (xorshift64 rng5)) as Ho.
    { apply wal_admits_outcome; [| by apply xorshift64_range|].
      - split; [|done]. unfold in_uint; simpl; lia.
      - unfold outcome_size. cbn [headers Types.body]. unfold len in *. lia. }
    apply (Ho (MkFence 0) (MkFingerprint bs0) 0), wal_admits_request; [done | done | lia | by_eval | by_eval].
Qed.

(** The loop invariant: the log holds exactly the reference. *)
Record randomized_inv (r : Randomized) : Prop := {
  ri_rng : in_uint 64 (r_rng r);
  ri_mode : sync_each (r_store r) = true;
  ri_log : exists kvs, logged (r_store r) kvs;
  ri_reference : index (r_store r) = r_reference r;
}.

Lemma agrees_index s m : index s = m -> agrees s m = Some tt.
Proof.
  intros Hi. unfold agrees. apply for_all_Some, Forall_forall. intros [k v] Hin%elem_of_hm_iter.
  unfold WalStore_get. by rewrite Hi, Hin, bool_decide_true.
Qed.

Lemma random_write_inv r i : randomized_inv r -> exists r', random_write r i = Some r' /\ randomized_inv r'.
Proof.
  intros [Hr Hm [kvs Hl] Hi]. unfold random_write. draw 16. set (k := MkKey (numbered "k" v)).
  destruct (random_state_ok rng k) as [He Hr']; [done | | |].
  { by apply numbered_is_str; [apply plain_prefix | lia]. }
  { pose proof (numbered_length "k" v) as Hn. change (length (str_bytes "k")) with 1%nat in Hn. cbn [k key_str]. unfold len. lia. }
  destruct (random_state rng) as [st rng']. cbn [fst snd] in *.
  pose proof (logged_put _ _ _ _ Hl Hm He) as Hl'.
  assert (index (WalStore_put (r_store r) k st) = <[k := st]> (r_reference r)) as Hi' by (by rewrite put_index, Hi).
  destruct (i mod 50 =? 49).
  - reopen_log Hl' true s Hs. assert (index s = <[k := st]> (r_reference r)) as His.
    { by rewrite (logged_index _ _ Hs), <- (logged_index _ _ Hl'). }
    rewrite (agrees_index _ _ His), bind_some. eexists. split; [done|]. by split; [| | exists (kvs ++ [(k, st)])|].
  - eexists. split; [done|]. split; cbn; [done | by rewrite put_sync_each | by eexists | done].
Qed.

(** The differential test passes for every seed and every number of writes. *)
Lemma randomized_passes seed writes :
  in_uint 64 seed -> randomized_writes_recover_exactly_across_crashes dirs seed writes = Some tt.
Proof.
  intros Hs. unfold randomized_writes_recover_exactly_across_crashes. open_path.
  destruct (for_each_inv randomized_inv (range 0 writes) (MkRandomized seed ∅ (sample_store true dirs)) random_write)
    as (r & -> & [_ _ [kvs Hl] Hi]).
  - split; [done | done | eexists; apply logged_new | done].
  - intros r i _. apply random_write_inv.
  - rewrite bind_some. reopen_log Hl true s Hl'. apply agrees_index.
    by rewrite (logged_index _ _ Hl'), <- (logged_index _ _ Hl).
Qed.

(** ** The chain *)

Lemma pass_truncated : a_truncated_record_decodes_to_none = Some tt.
Proof.
  unfold a_truncated_record_decodes_to_none. set (k := MkKey "k"). set (st := wal_completed _ _).
  assert (short (encode_payload k st)) as Hs by by_eval. clearbody k st. cbv zeta.
  apply for_all_Some, Forall_forall. intros cut Hcut%elem_of_seq. apply ensure_true, bool_decide_eq_true_2.
  apply (torn_record_detected k st GENESIS _ Hs); [apply prefix_take|].
  intros E%(f_equal length). rewrite length_take in E. lia.
Qed.

(** The roots after each put. *)
Lemma put_roots_eq s kvs new :
  logged s kvs -> sync_each s = true -> all_encodable new ->
  exists s', put_roots s new =
    (map (fun n => chain_end GENESIS (entry_payloads (kvs ++ take n new))) (seq 1 (length new)), s') /\
    logged s' (kvs ++ new).
Proof.
  intros Hl Hm Hn. revert s kvs Hl Hm. induction Hn as [|[k st] new He Hn IH]; intros s kvs Hl Hm.
  { exists s. by rewrite app_nil_r. }
  cbn [put_roots]. pose proof (logged_put s kvs k st Hl Hm He) as Hl'.
  destruct (IH _ _ Hl') as (s' & -> & Hs'); [by rewrite put_sync_each|]. exists s'.
  replace (kvs ++ (k, st) :: new) with ((kvs ++ [(k, st)]) ++ new) by (by rewrite <- app_assoc).
  split; [|done]. rewrite (logged_root _ _ Hl'). f_equal. cbn [length seq map]. f_equal.
  rewrite <- (seq_shift _ 1), map_map. apply map_ext. intros n. cbn [take]. by rewrite <- app_assoc.
Qed.

Definition chain_entries : list (IdempotencyKey * KeyState) :=
  map (fun i => (MkKey (numbered "k" i), wal_completed 200 (str_bytes (numbered "v" i)))) (range 0 5).

(** The five roots of the test. *)
Definition chain_roots : list (list byte) :=
  map (fun n => chain_end GENESIS (entry_payloads (take n chain_entries))) (seq 1 5).

Lemma chain_roots_distinct :
  bool_decide (NoDup (GENESIS :: chain_roots)) = true.
Proof. vm_compute. reflexivity. Qed.

Lemma pass_chain_root : chain_root_is_deterministic_and_advances_per_put dirs = Some tt.
Proof.
  unfold chain_root_is_deterministic_and_advances_per_put. open_path. fold chain_entries.
  assert (all_encodable chain_entries) as He by by_eval.
  destruct (put_roots_eq _ [] chain_entries (logged_new dirs true) eq_refl He) as (s & E & Hl).
  change (map _ (seq 1 _)) with chain_roots in E. rewrite E. rewrite (ensure_bind _ _ (bool_decide_eq_true_2 _ eq_refl)).
  cbv beta iota.
  pose proof (bool_decide_eq_true_1 _ chain_roots_distinct) as [Hg Hnd]%NoDup_cons.
  rewrite ensure_bind by (by apply bool_decide_eq_true_2). rewrite for_all_Some.
  2:{ apply Forall_forall. intros r Hr. apply ensure_true. rewrite bool_decide_false; [done|]. intros ->. exact (Hg Hr). }
  rewrite !bind_some, E. cbv beta iota. rewrite ensure_bind by (by apply bool_decide_eq_true_2).
  reopen_log Hl true s' Hl'. apply ensure_true, bool_decide_eq_true_2. rewrite (logged_root _ _ Hl'). reflexivity.
Qed.

(** The chain values of the two records of the round trip. *)
Lemma round_trip_chains :
  let p1 := encode_payload (MkKey "round-trip") (InProgress (MkFence 42) (MkFingerprint (replicate 32 x07)) 99000) in
  let p2 := encode_payload (MkKey "round-trip") (wal_completed 201 (str_bytes "charged")) in
  bool_decide (NoDup [GENESIS; link GENESIS p1; link GENESIS p2]) = true.
Proof. vm_compute. reflexivity. Qed.

Lemma pass_round_trip : encode_then_decode_round_trips_both_variants = Some tt.
Proof.
  unfold encode_then_decode_round_trips_both_variants.
  pose proof (bool_decide_eq_true_1 _ round_trip_chains) as Hnd. cbv zeta in Hnd.
  set (k := MkKey "round-trip") in *. set (st1 := InProgress _ _ _) in *. set (st2 := wal_completed _ _) in *.
  assert (encodable k st1) as H1 by by_eval. assert (encodable k st2) as H2 by by_eval. clearbody k st1 st2. cbv zeta.
  assert (forall st, encodable k st -> decode_record (encode_record k st GENESIS) =
    Some (len (encode_record k st GENESIS), k, st, link GENESIS (encode_payload k st))) as Hdec.
  { intros st He. rewrite <- (app_nil_r (encode_record k st GENESIS)) at 1. by apply decode_encoded. }
  apply NoDup_cons in Hnd as [Hg [H12 _]%NoDup_cons]. rewrite not_elem_of_cons, list_elem_of_singleton in Hg.
  rewrite list_elem_of_singleton in H12. destruct Hg as [Hg1 Hg2].
  repeat (rewrite ?Hdec, ?bind_some by done; cbv beta iota; rewrite ?ensure_bind; cbv beta iota);
    first [by apply bool_decide_eq_true_2 | by apply Z.eqb_refl | by apply assert_ne, not_eq_sym | by apply ensure_true, assert_ne].
Qed.

(** Rewriting the checksum of the first record to fit its changed payload. *)
Lemma tamper_frame c p rest :
  length c = 32%nat -> short p -> (2 < length p)%nat ->
  tamper (frame c p ++ rest) = frame c (flip 2 x01 p) ++ rest.
Proof.
  intros Hc Hs Hp. unfold tamper.
  assert (flip (Z.to_nat HEADER_LEN + 2) x01 (frame c p ++ rest) =
          to_le_bytes 4 (len p) ++ to_le_bytes 4 (crc32 p) ++ c ++ flip 2 x01 p ++ rest) as ->.
  { unfold frame, flip. rewrite <- !app_assoc.
    change (Z.to_nat HEADER_LEN) with 40%nat.
    do 3 rewrite alter_app_r_alt, ?length_to_le_bytes, ?Hc by (rewrite ?length_to_le_bytes, ?Hc; lia).
    by rewrite alter_app_l by lia. }
  set (p' := flip 2 x01 p). assert (len p' = len p) as Hl by (unfold p', flip, len; by rewrite length_alter).
  assert (from_le_bytes (slice (to_le_bytes 4 (len p) ++ to_le_bytes 4 (crc32 p) ++ c ++ p' ++ rest) 0 4) = len p) as ->.
  { rewrite <- (from_to_le_bytes 4 (len p)) at 2; [f_equal; apply (slice_mid []); by rewrite ?len_to_le_bytes|].
    unfold in_uint, short in *. pose proof (len_nonneg p). simpl. lia. }
  assert (slice (to_le_bytes 4 (len p) ++ to_le_bytes 4 (crc32 p) ++ c ++ p' ++ rest) HEADER_LEN (HEADER_LEN + len p) = p') as ->.
  { rewrite !app_assoc, <- (app_assoc _ p'). apply slice_mid; rewrite !len_app, !len_to_le_bytes, (len_of c 32) by done;
      [done | by rewrite Hl]. }
  unfold frame. rewrite Hl, <- !app_assoc.
  rewrite (take_app_le (to_le_bytes 4 (len p))), take_ge by (rewrite length_to_le_bytes; lia).
  reflexivity.
Qed.

(** The chain values of a payload and of the tampered one differ. *)
Lemma tampered_chain :
  let p := encode_payload (MkKey (numbered "k" 0)) (wal_completed 200 (str_bytes "intact")) in
  bool_decide (link GENESIS p = link GENESIS (flip 2 x01 p)) = false.
Proof. vm_compute. reflexivity. Qed.

Lemma pass_tamper : early_payload_tamper_is_caught_as_chain_mismatch_on_reopen dirs = Some tt.
Proof.
  unfold early_payload_tamper_is_caught_as_chain_mismatch_on_reopen. open_path.
  set (kvs := map _ (range 0 5)). assert (all_encodable kvs) as He.
  { apply Forall_map, Forall_forall. intros i Hi%elem_of_range. apply numbered_encodable; [lia | by_eval..]. }
  destruct (fresh_logged true kvs He eq_refl) as [Hl _]. rewrite (logged_contents _ _ Hl).
  set (s := put_entries _ _). clearbody s.
  pose proof (bool_decide_eq_false_1 _ tampered_chain) as Hne. cbv zeta in Hne.
  set (p := encode_payload (MkKey (numbered "k" 0)) _) in Hne.
  assert (short p /\ (2 < length p)%nat) as [Hs Hp] by by_eval.
  assert (exists ps, entry_payloads kvs = p :: ps) as [ps ->] by (eexists; reflexivity). clearbody p.
  cbn [chain_log]. rewrite tamper_frame by (done || apply link_length). set (rest := chain_log _ ps).
  set (d := overwrite _ _). apply ensure_true. assert (length (flip 2 x01 p) = length p) as Hlf by apply length_alter.
  destruct (refused_at [] (frame (link GENESIS p) (flip 2 x01 p) ++ rest) d true (Forall_nil_2 _) (contents_overwrite _ _))
    as [Hck Hch]. unfold WalStore_open.
  assert (short (flip 2 x01 p)) as Hsf by (unfold short, len in *; by rewrite Hlf).
  pose proof (decode_record_frame (link GENESIS p) (flip 2 x01 p) rest (link_length _ _) Hsf) as Hd.
  destruct (decode_payload (flip 2 x01 p)) as [[k st]|]; cbn [mbind option_bind] in Hd.
  - rewrite (Hch _ _ _ _ Hd); [done|].
    destruct (frame_slices [] (link GENESIS p) (flip 2 x01 p) rest (link_length _ _)) as [_ E].
    rewrite app_nil_l in E. change (len []) with 0 in E. rewrite !Z.add_0_l in E. by rewrite E.
  - rewrite Hck; [done | | done]. by apply frame_complete; [apply link_length|].
Qed.

(** The root after the compaction of the test is that of the entries in hash
    order, so its last assertion is about the order: the root is not the
    genesis value unless SHA-256 has the entries as a preimage of zeros. *)
Definition compacted_root : list byte :=
  let kvs := map (fun i => (MkKey (numbered "k" (i mod 5)), wal_completed 200 (str_bytes (numbered "v" i)))) (range 0 20) in
  chain_end GENESIS (entry_payloads (hm_iter (written kvs))).

Lemma pass_compacted_chain :
  compacted_root <> GENESIS -> compaction_yields_consistent_chain_that_reopens_cleanly dirs = Some tt.
Proof.
  intros Hne. unfold compaction_yields_consistent_chain_that_reopens_cleanly. open_path. set (kvs := map _ (range 0 20)).
  assert (all_encodable kvs) as He.
  { apply Forall_map, Forall_forall. intros i Hi%elem_of_range. apply numbered_encodable; [|by_eval|].
    - apply Z.mod_pos_bound. lia.
    - pose proof (numbered_length "v" i) as H. change (length (str_bytes "v")) with 1%nat in H. unfold len. lia. }
  destruct (fresh_logged true kvs He eq_refl) as [Hl _]. reopen_log Hl true s Hs.
  pose proof (logged_compact s kvs (fun _ _ => true) Hs) as Hc. rewrite retain_all in Hc.
  reopen_log Hc true s' Hs'.
  rewrite ensure_bind; [|apply bool_decide_eq_true_2; by rewrite (logged_root _ _ Hs'), (logged_root _ _ Hc)].
  apply ensure_true, assert_ne. by rewrite (logged_root _ _ Hs').
Qed.

Lemma pass_crc32 : crc32_matches_known_ieee_vectors = Some tt.
Proof. vm_compute. reflexivity. Qed.

(** C18: the log's unit tests pass, for every hash order and on every platform
    (directories synced or not).  The differential test, which drives the log
    with generated writes and restarts and compares it with a map, passes for
    every seed and every number of writes, not only for the 600 of the fixed
    seed; the test of the chain after a compaction passes unless the compacted
    entries hash to the genesis value. *)
Theorem wal_suite_passes seed writes :
  in_uint 64 seed ->
  randomized_writes_recover_exactly_across_crashes dirs seed writes = Some tt /\
  Forall (fun t => t = Some tt)
    [encode_then_decode_round_trips_both_variants;
     a_truncated_record_decodes_to_none;
     crc32_matches_known_ieee_vectors;
     a_completed_key_survives_a_simulated_crash dirs;
     a_buffered_put_is_durable_only_after_flush dirs;
     a_whole_batch_recovers_after_one_flush dirs;
     a_torn_tail_is_discarded_on_reopen dirs;
     a_recovered_in_progress_lease_invalidates_the_pre_crash_token dirs;
     interior_corruption_is_surfaced_not_silently_truncated dirs;
     engine_flush_persists_buffered_writes dirs;
     prune_keeps_an_unexpired_key dirs;
     prune_removes_a_key_at_its_expiry_instant dirs;
     prune_expired_physically_removes_expired_keys dirs;
     exactly_once_survives_primary_node_death dirs;
     compaction_collapses_superseded_records dirs;
     compaction_drops_rejected_entries dirs;
     chain_root_is_deterministic_and_advances_per_put dirs;
     early_payload_tamper_is_caught_as_chain_mismatch_on_reopen dirs;
     two_stores_same_records_same_root dirs] /\
  (compacted_root <> GENESIS -> compaction_yields_consistent_chain_that_reopens_cleanly dirs = Some tt).
Proof.
  intros Hs. split; [by apply randomized_passes|]. split; [|apply pass_compacted_chain].
  repeat apply Forall_cons_2; [apply pass_round_trip | apply pass_truncated | apply pass_crc32 |
    apply pass_completed_key | apply pass_buffered_put | apply pass_batch | apply pass_torn_tail |
    apply pass_recovered_lease | apply pass_interior | apply pass_engine_flush | apply pass_prune_keep |
    apply pass_prune_edge | apply pass_prune_old | apply pass_primary_death | apply pass_collapse |
    apply pass_drop | apply pass_chain_root | apply pass_tamper | apply pass_same_root | apply Forall_nil_2].
Qed.

End pass.

(** The run of the source: its seed and its 600 writes. *)
Lemma wal_suite_passes_witness :
  randomized_writes_recover_exactly_across_crashes (HashOrder0 := default_order IdempotencyKey)
    true 0x9E3779B97F4A7C15 600 = Some tt.
Proof.
  exact (proj1 (wal_suite_passes (HashOrder0 := default_order IdempotencyKey) true 0x9E3779B97F4A7C15 600
           ltac:(by_eval))).
Defined.
