(* ===== verification/Bench.v ===== *)
(** * The benchmark programs ([onced-bench/src/main.rs])

    The four workloads of [main], without the clock and the printing.  A
    benchmark is only as good as what it runs: the workloads are proved to do
    the work they are named after, on every iteration. *)

From S2P Require Import Prelude Machine Str Decimal HashMap Types Store Engine EngineSpec.
From S2P Require Import Suite Replication Hash Crc Codec Disk Wal WalLog WalSpec Durability EngineWal WalTests WalSuite.

Definition LEASE_MS : Z := 30000.

Definition key (i : Z) : IdempotencyKey := MkKey (numbered "k-" i).

(** The first 8 of 32 zero bytes are overwritten. *)
Definition fingerprint (i : Z) : RequestFingerprint :=
  let bytes := replicate 32 x00 in
  MkFingerprint (to_le_bytes 8 i ++ drop 8 bytes).

Definition outcome : CachedOutcome := MkOutcome 200 [] (str_bytes "ok").

(** The loop of [throughput]; [None] is a panic of the workload. *)
Definition throughput {St : Type} (n : Z) (st : St) (f : St -> Z -> option St) : option St :=
  for_each (range 0 n) st f.

Definition bench_n (env : string -> option string) : Z :=
  default 1000000 (v ← env "ONCED_BENCH_N"; parse_usize v).

Section workloads.
Context {S : Type} `{Store S}.

(** The closure of the workloads 1, 3 and 4: the result of [complete] is dropped. *)
Definition cycle (engine : Engine S) (i : Z) : Engine S :=
  let (b, engine) := begin engine (key i) (fingerprint i) 1 in
  match b with
  | Begin_Run token => (complete engine token outcome 1).2
  | _ => engine
  end.

Definition group_cycle (engine : Engine S) (i : Z) : Engine S :=
  let batch := 256 in
  let engine := cycle engine i in
  if i mod batch =? batch - 1 then flush engine else engine.

End workloads.

Definition memory_cycles (n : Z) : option (Engine MemoryStore) :=
  throughput n (new MemoryStore_new LEASE_MS) (fun e i => Some (cycle e i)).

(** The completed key of the second workload. *)
Definition replay_setup : option (Engine MemoryStore) :=
  let engine := new MemoryStore_new LEASE_MS in
  let (b, engine) := begin engine (key 0) (fingerprint 0) 1 in
  match b with
  | Begin_Run token => let (r, engine) := complete engine token outcome 1 in unwrap r;; Some engine
  | _ => Some engine
  end.

Definition memory_replays (n : Z) : option (Engine MemoryStore) :=
  engine ← replay_setup;
  throughput n engine (fun engine _ =>
    let (b, engine) := begin engine (key 0) (fingerprint 0) 2 in
    match b with Begin_Replay _ => Some engine | _ => None end).

Section wal_workloads.
Context `{!HashOrder IdempotencyKey}.

(** [d] is the path after [remove_file]. *)
Definition wal_cycles (d : Disk) (n : Z) : option (Engine WalStore) :=
  store ← unwrap (WalStore_open d);
  let wal_n := Z.max (n / 100) 1000 in
  throughput wal_n (new store LEASE_MS) (fun e i => Some (cycle e i)).

Definition group_cycles (d : Disk) (n : Z) : option (Engine WalStore) :=
  store ← unwrap (WalStore_open_buffered d);
  let gc_n := Z.max (n / 10) 10000 in
  engine ← throughput gc_n (new store LEASE_MS) (fun e i => Some (group_cycle e i));
  Some (flush engine).

End wal_workloads.

(** ** What the workloads do *)

(** The records of [n] measured operations. *)
Definition measured (n : Z) : gmap IdempotencyKey KeyState :=
  written (map (fun i => (key i, Completed (fingerprint i) outcome 1)) (range 0 n)).

Lemma measured_succ n : 0 <= n -> measured (n + 1) = <[key n := Completed (fingerprint n) outcome 1]> (measured n).
Proof. intros Hn. unfold measured. rewrite range_snoc, map_app by done. apply written_snoc. Qed.

Lemma measured_fresh n : in_uint 64 n -> measured n !! key n = None.
Proof.
  intros Hn. apply written_None. rewrite <- list_fmap_compose. intros (i & E & Hi%elem_of_range)%list_elem_of_fmap.
  injection E as E. apply numbered_inj in E; unfold in_uint in *; lia.
Qed.

(** Every one of the [n] keys is there, completed. *)
Lemma measured_all n i : 0 <= i < n -> n <= 2 ^ 64 -> measured n !! key i = Some (Completed (fingerprint i) outcome 1).
Proof.
  intros Hi Hn. apply written_lookup; [by apply (range_keys_nodup "k-" 0 n)|].
  apply list_elem_of_fmap. exists i. split; [done|]. apply elem_of_range. lia.
Qed.

Section cycles.
Context {S : Type} `{StoreLaws S}.

(** The store can hold what the benchmark writes. *)
Definition bench_admits : Prop :=
  forall i, in_uint 64 i -> admits_request (S := S) (key i) (fingerprint i) /\ admits_outcome (S := S) (key i) outcome 1.

(** One iteration on a new key runs and commits. *)
Lemma cycle_commits (e : Engine S) i :
  bench_admits -> in_uint 64 i -> engine_ok e -> engine_ranges e -> records e !! key i = None ->
  let e' := cycle e i in
  engine_ok e' /\ engine_ranges e' /\
  records e' = <[key i := Completed (fingerprint i) outcome 1]> (records e).
Proof.
  intros Hadm Hi Ho Hr Hk. destruct (Hadm i Hi) as [Hq Hout].
  assert (available e (key i) (fingerprint i) 1) as Ha by (unfold available; by rewrite Hk).
  assert (in_uint 64 1) as H1 by by_eval.
  pose proof (begin_ok e _ _ 1 Ho Hr H1 Hq) as Ho1. pose proof (begin_ranges e (key i) (fingerprint i) 1 Hr) as Hr1.
  pose proof (start_records e (key i) (fingerprint i) 1 Ho) as Es.
  unfold cycle. rewrite (begin_available e _ _ 1 Ho Ha) in *. rewrite start_eq in *. cbn [fst snd] in *.
  set (e1 := MkEngine _ _ _ _) in *.
  assert (records e1 !! key i = Some (started e (key i) (fingerprint i) 1)) as Hin by (by rewrite Es, lookup_insert_eq).
  cbv zeta. rewrite (complete_current e1 (key i) _ _ _ outcome 1 Ho1 Hin). cbn [snd].
  pose proof (complete_ok e1 (MkRunToken (key i) (MkFence (next_fence e))) outcome 1 Ho1 Hout) as Ho2.
  rewrite (complete_current e1 (key i) _ _ _ outcome 1 Ho1 Hin) in Ho2. cbn [snd] in Ho2.
  split_and!; [exact Ho2 | exact Hr1|]. unfold records. cbn [set_store store]. rewrite put_view by done.
  fold (records e1). rewrite Es. by rewrite insert_insert_eq.
Qed.

(** [n] measured operations were done on [e]. *)
Definition done_upto (n : Z) (e : Engine S) : Prop := engine_ok e /\ engine_ranges e /\ records e = measured n.

Lemma cycle_step (e : Engine S) i : bench_admits -> in_uint 64 i -> done_upto i e -> done_upto (i + 1) (cycle e i).
Proof.
  intros Hadm Hi (Ho & Hr & Hrec). unfold done_upto. rewrite measured_succ, <- Hrec by (unfold in_uint in *; lia).
  apply cycle_commits; try done. rewrite Hrec. by apply measured_fresh.
Qed.

Lemma group_step (e : Engine S) i :
  bench_admits -> in_uint 64 i -> done_upto i e -> done_upto (i + 1) (group_cycle e i).
Proof.
  intros Hadm Hi He. destruct (cycle_step e i Hadm Hi He) as (Ho & Hr & Hrec). unfold group_cycle. cbv zeta.
  case_cmp; split_and!; try done; [by apply engine_flush_ok | by rewrite flush_records].
Qed.

(** A workload whose steps each do one operation does [n] of them. *)
Lemma throughput_measures (Q : Engine S -> Prop) n e (f : Engine S -> Z -> Engine S) :
  0 <= n <= 2 ^ 64 -> done_upto 0 e -> Q e ->
  (forall e i, in_uint 64 i -> done_upto i e -> Q e -> done_upto (i + 1) (f e i) /\ Q (f e i)) ->
  exists e', throughput n e (fun e i => Some (f e i)) = Some e' /\ done_upto n e' /\ Q e'.
Proof.
  intros Hn He HQ Hf. apply (for_each_range (fun i e => done_upto i e /\ Q e)); [lia | done|].
  intros st i Hi [Hd Hq]. eexists. split; [done|]. apply Hf; [unfold in_uint; lia | done | done].
Qed.

End cycles.

Arguments bench_admits S {_ _}.

Lemma memory_admits : bench_admits MemoryStore.
Proof. done. Qed.

Lemma cycles_pass n : 0 <= n <= 2 ^ 64 -> exists e, memory_cycles n = Some e /\ records e = measured n.
Proof.
  intros Hn. destruct (throughput_measures (fun _ => True) n (new MemoryStore_new LEASE_MS) cycle Hn) as (e & E & (_ & _ & Hr) & _).
  - by split_and!; [| by_eval..|].
  - done.
  - intros e i Hi He _. split; [|done]. by apply cycle_step.
  - by exists e.
Qed.

(** Every retry is replayed: the workload does not panic and changes nothing. *)
Lemma replays_pass n : 0 <= n -> exists e, memory_replays n = Some e /\ records e = measured 1.
Proof.
  intros Hn. set (e1 := MkEngine (MkMemoryStore (measured 1)) LEASE_MS DEFAULT_TTL_MS 2). exists e1. split; [|done].
  unfold memory_replays. assert (replay_setup = Some e1) as -> by (vm_compute; reflexivity). rewrite bind_some.
  assert (begin e1 (key 0) (fingerprint 0) 2 = (Begin_Replay outcome, e1)) as Hb by (vm_compute; reflexivity).
  clearbody e1. unfold throughput.
  destruct (for_each_range (fun _ e => e = e1) e1 n (fun engine _ =>
    let (b, engine) := begin engine (key 0) (fingerprint 0) 2 in
    match b with Begin_Replay _ => Some engine | _ => None end)) as (e & -> & ->); [done | done | | done].
  intros e i _ ->. exists e1. by rewrite Hb.
Qed.

Section wal_pass.
Context `{!HashOrder IdempotencyKey}.

Lemma log_admits : bench_admits WalStore.
Proof.
  intros i Hi. pose proof (numbered_length "k-" i) as Hl. change (length (str_bytes "k-")) with 2%nat in Hl.
  assert (wf_key (key i)) as Hk by (apply numbered_is_str; [by apply plain_prefix | unfold in_uint in *; lia]).
  split.
  - apply wal_admits_request; [done | done | unfold len; cbn [key key_str]; lia].
  - apply wal_admits_outcome; [by_eval | by_eval|]. unfold outcome_size. cbn [headers outcome].
    change (len (headers_raw [])) with 0. change (len (body outcome)) with 2. unfold len. cbn [key key_str]. lia.
Qed.

Lemma cycle_keeps (e : Engine WalStore) i : sync_each (store (cycle e i)) = sync_each (store e).
Proof.
  assert (forall e op, sync_each (store (run_op e op).2) = sync_each (store e)) as Hop.
  { intros e' op. apply (run_op_keeps (fun s => sync_each s = sync_each (store e'))); [| | | done].
    - intros s k st <-. apply put_sync_each.
    - intros s <-. apply flush_frame.
    - intros s keep <-. apply compact_sync_each. }
  unfold cycle. pose proof (Hop e (OpBegin (key i) (fingerprint i) 1)) as H1. cbn [run_op] in H1.
  destruct (begin e (key i) (fingerprint i) 1) as [b e1]. cbn [snd] in H1. rewrite <- H1.
  destruct b as [tok| | |]; try done. pose proof (Hop e1 (OpComplete tok outcome 1)) as H2. cbn [run_op] in H2.
  by destruct (complete e1 tok outcome 1).
Qed.

Lemma fresh_done dirs mode : done_upto 0 (new (sample_store mode dirs) LEASE_MS).
Proof. split_and!; [apply sample_store_ok | by_eval..|done]. Qed.

(** Strict mode: each iteration is durable when it returns. *)
Lemma wal_cycles_pass dirs n :
  in_uint 64 n ->
  exists e s, wal_cycles (temp_wal_path dirs) n = Some e /\ reopen (store e) true = Some s /\
    index s = measured (Z.max (n / 100) 1000).
Proof.
  intros Hn. unfold wal_cycles. open_path. set (k := Z.max _ _).
  assert (0 <= k <= 2 ^ 64) as Hk by (unfold in_uint, k in *; pose proof (Z.div_le_upper_bound n 100 (2 ^ 64)); lia).
  destruct (throughput_measures (fun e => sync_each (store e) = true) k _ cycle Hk (fresh_done dirs true)) as
    (e & E & (Ho & _ & Hr) & Hs).
  - done.
  - intros e i Hi He Hs. split; [by apply cycle_step; [apply log_admits|..] | by rewrite cycle_keeps].
  - destruct (reopen_flushed (store e) true Ho) as (s & Er & _ & Hi & _); [by apply Ho|].
    exists e, s. split_and!; [exact E | exact Er | by rewrite Hi].
Qed.

(** Group commit: after the last flush the log holds every operation. *)
Lemma group_cycles_pass dirs n :
  in_uint 64 n ->
  exists e s, group_cycles (temp_wal_path dirs) n = Some e /\ reopen (store e) true = Some s /\
    index s = measured (Z.max (n / 10) 10000).
Proof.
  intros Hn. unfold group_cycles. open_path. set (k := Z.max _ _).
  assert (0 <= k <= 2 ^ 64) as Hk by (unfold in_uint, k in *; pose proof (Z.div_le_upper_bound n 10 (2 ^ 64)); lia).
  destruct (throughput_measures (fun _ => True) k _ group_cycle Hk (fresh_done dirs false)) as
    (e & E & (Ho & _ & Hr) & _).
  - done.
  - intros e i Hi He _. split; [by apply group_step; [apply log_admits|..] | done].
  - cbv zeta. rewrite E, bind_some. pose proof (engine_flush_ok e Ho) as Hf.
    destruct (reopen_flushed (store (flush e)) true Hf) as (s & Er & _ & Hi & _); [apply flush_frame|].
    exists (flush e), s. split_and!; [done | exact Er|]. rewrite Hi.
    change (index (store (flush e))) with (records (flush e)). by rewrite flush_records.
Qed.

(** The benchmarks do the work they report.  For every number of operations,
    the in-memory workload runs and commits a new key on every iteration, the
    replay workload is answered by a replay every time, and the strict and the
    group-commit workload leave a log from which a new process recovers the
    outcome of every iteration. *)
Theorem bench_does_the_work dirs n :
  in_uint 64 n ->
  (exists e, memory_cycles n = Some e /\ records e = measured n) /\
  (exists e, memory_replays n = Some e /\ records e = measured 1) /\
  (exists e s, wal_cycles (temp_wal_path dirs) n = Some e /\ reopen (store e) true = Some s /\
     index s = measured (Z.max (n / 100) 1000)) /\
  (exists e s, group_cycles (temp_wal_path dirs) n = Some e /\ reopen (store e) true = Some s /\
     index s = measured (Z.max (n / 10) 10000)) /\
  (forall i, 0 <= i < n -> measured n !! key i = Some (Completed (fingerprint i) outcome 1)).
Proof.
  intros Hn. pose proof Hn as [Hn0 Hn1]. split_and!.
  - apply cycles_pass. lia.
  - by apply replays_pass.
  - by apply wal_cycles_pass.
  - by apply group_cycles_pass.
  - intros i Hi. apply measured_all; lia.
Qed.

End wal_pass.

Lemma bench_does_the_work_witness :
  exists e, memory_cycles (bench_n (fun _ => None)) = Some e /\ records e = measured (bench_n (fun _ => None)).
Proof.
  assert (in_uint 64 (bench_n (fun _ => None))) as Hn by by_eval.
  exact (proj1 (@bench_does_the_work (default_order IdempotencyKey) true _ Hn)).
Defined.
