(* ===== verification/F64.v ===== *)
(** * [f64]

    IEEE 754 binary64 as the Standard Library specifies it ([SpecFloat] at
    precision 53 and exponent bound 1024, rounding to nearest even), the
    operations the abuse layer uses on it, and the two facts about rounding its
    decisions rest on: integers below 2^53 convert exactly and compare as
    integers, and adding something non-negative never goes below. *)

From Stdlib Require Import Floats.SpecFloat.
From S2P Require Import Prelude Machine.

Abbreviation f64 := spec_float.

Definition f64_add : f64 -> f64 -> f64 := SFadd 53 1024.
Definition f64_mul : f64 -> f64 -> f64 := SFmul 53 1024.
Definition f64_div : f64 -> f64 -> f64 := SFdiv 53 1024.
Definition f64_le : f64 -> f64 -> bool := SFleb.
Definition f64_gt (x y : f64) : bool := SFltb y x.

(** [x as f64] of an unsigned integer. *)
Definition f64_of_u64 (n : Z) : f64 := binary_normalize 53 1024 n 0 false.

(** A decimal literal [n / d] (the nearest double, as the quotient of two
    exact integers is correctly rounded). *)
Definition f64_lit (n d : Z) : f64 := f64_div (f64_of_u64 n) (f64_of_u64 d).

(** [2f64.powi(-r)]. *)
Definition f64_pow2_neg (r : Z) : f64 := binary_normalize 53 1024 1 (- r) false.

(** [x as u64]: truncation toward zero, saturating, [NaN] to 0. *)
Definition f64_to_u64 (x : f64) : Z :=
  match x with
  | S754_nan | S754_zero _ | S754_finite true _ _ | S754_infinity true => 0
  | S754_infinity false => uint_max 64
  | S754_finite false m e => Z.min (uint_max 64) (Z.shiftl (Zpos m) e)
  end.

(** [x.floor()]; only used on non-negative numbers, where it drops the
    fraction. *)
Definition f64_floor (x : f64) : f64 :=
  match x with
  | S754_finite s m e =>
      if 0 <=? e then x
      else let q := Z.shiftr (if s then Zneg m else Zpos m) (- e) in
           match q with Z0 => S754_zero s | _ => binary_normalize 53 1024 q 0 false end
  | _ => x
  end.

(** ** Rounding *)

Lemma digits2_log2 p : Zpos (digits2_pos p) = Z.log2 (Zpos p) + 1.
Proof.
  induction p as [p IH|p IH|]; cbn [digits2_pos]; rewrite ?Pos2Z.inj_succ, ?IH; [..|done].
  - rewrite (Pos2Z.inj_xI p), Z.log2_succ_double by lia. lia.
  - rewrite (Pos2Z.inj_xO p), Z.log2_double by lia. lia.
Qed.

Lemma shr_1_div mrs : 0 <= shr_m mrs -> shr_m (shr_1 mrs) = shr_m mrs / 2.
Proof.
  destruct mrs as [m r s]; simpl. destruct m as [|[p|p|]|p]; intros H; try done; try lia; simpl.
  - rewrite (Pos2Z.inj_xI p). apply (Z.div_unique _ _ _ 1); lia.
  - rewrite (Pos2Z.inj_xO p). apply (Z.div_unique _ _ _ 0); lia.
Qed.

Lemma shr_iter_div p mrs :
  0 <= shr_m mrs -> shr_m (SpecFloat.iter_pos shr_1 p mrs) = shr_m mrs / 2 ^ (Zpos p).
Proof.
  revert mrs; induction p as [p IH|p IH|]; intros mrs H; cbn [SpecFloat.iter_pos].
  - assert (0 <= shr_m (shr_1 mrs)) by (rewrite shr_1_div by done; apply Z.div_pos; lia).
    rewrite IH, IH, shr_1_div by (try done; rewrite ?IH by done; apply Z.div_pos; lia).
    rewrite !Z.div_div by lia. f_equal. rewrite (Pos2Z.inj_xI p).
    replace (2 * Zpos p + 1) with (1 + (Zpos p + Zpos p)) by lia. rewrite !Z.pow_add_r by lia. lia.
  - rewrite IH, IH by (try done; rewrite ?IH by done; apply Z.div_pos; lia).
    rewrite Z.div_div by lia. f_equal. rewrite (Pos2Z.inj_xO p).
    replace (2 * Zpos p) with (Zpos p + Zpos p) by lia. rewrite Z.pow_add_r by lia. lia.
  - rewrite shr_1_div by done. done.
Qed.

(** Shifting right by [n] keeps the quotient. *)
Lemma shr_quot mrs e n :
  0 <= shr_m mrs -> 0 <= n ->
  shr_m (shr mrs e n).1 = shr_m mrs / 2 ^ n /\ (shr mrs e n).2 = e + n.
Proof.
  intros Hm Hn. unfold shr. destruct n as [|p|p]; [|..|lia].
  - simpl. rewrite Z.div_1_r. split; [done | lia].
  - simpl fst. simpl snd. by rewrite shr_iter_div.
Qed.

Lemma log2_bounds m d : 0 < m -> Z.log2 m + 1 = d -> 2 ^ (d - 1) <= m < 2 ^ d.
Proof. intros Hm Hd. replace (d - 1) with (Z.log2 m) by lia. replace d with (Z.succ (Z.log2 m)) by lia. by apply Z.log2_spec. Qed.

Lemma log2_unique' m d : 0 <= d -> 2 ^ (d - 1) <= m < 2 ^ d -> 0 < m -> Z.log2 m = d - 1.
Proof.
  intros Hd Hb Hm. destruct (decide (d = 0)) as [->|]; [simpl in Hb; lia|].
  apply Z.log2_unique; [lia|]. replace (Z.succ (d - 1)) with d by lia. done.
Qed.

(** The second step of rounding: a mantissa of 53 bits stays, 2^53 is halved. *)
Lemma renormalise m e :
  2 ^ 52 <= m <= 2 ^ 53 -> emin 53 1024 <= e ->
  exists m' e', shr_m (shr_fexp 53 1024 m e loc_Exact).1 = m' /\
    (shr_fexp 53 1024 m e loc_Exact).2 = e' /\ 2 ^ 52 <= m' < 2 ^ 53 /\
    ((m' = m /\ e' = e) \/ (m = 2 ^ 53 /\ m' = 2 ^ 52 /\ e' = e + 1)).
Proof.
  intros Hm He. unfold shr_fexp, Zdigits2, fexp.
  destruct m as [|p|p]; [lia| |lia]. rewrite digits2_log2.
  destruct (decide (Zpos p = 2 ^ 53)) as [E|E].
  - rewrite E. change (Z.log2 (2 ^ 53)) with 53.
    replace (Z.max (53 + 1 + e - 53) (emin 53 1024) - e) with 1 by lia.
    destruct (shr_quot (shr_record_of_loc (2 ^ 53) loc_Exact) e 1) as [H1 H2]; [simpl; lia|lia|].
    exists (2 ^ 52), (e + 1). split_and!; [exact H1 | exact H2 | lia.. | right; split_and!; lia].
  - rewrite (log2_unique' (Zpos p) 53) by lia.
    replace (Z.max (53 - 1 + 1 + e - 53) (emin 53 1024) - e) with 0 by lia.
    exists (Zpos p), e. split_and!; [done | done | lia.. | by left].
Qed.

Lemma shl_align_eq p e e' :
  e' <= e -> exists q, shl_align p e e' = (q, e') /\ Zpos q = Zpos p * 2 ^ (e - e').
Proof.
  intros He. unfold shl_align. destruct (e' - e) as [|d|d] eqn:E; [|lia|].
  - exists p. replace e' with e by lia. rewrite Z.sub_diag. split; [done|]. lia.
  - exists (Pos.iter xO p d). split; [done|]. replace (e - e') with (Zpos d) by lia.
    clear E. induction d as [|d IH] using Pos.peano_ind; [simpl; lia|].
    rewrite Pos.iter_succ, (Pos2Z.inj_xO (Pos.iter _ _ _)), IH, Pos2Z.inj_succ, Z.pow_succ_r by lia. lia.
Qed.

(** Rounding an integer mantissa in the normal range: the exponent is the one
    of 53 bits (or one more), and the mantissa is the quotient, rounded up or
    down; exact when no bit is dropped. *)
Lemma round_spec M ez :
  0 < M -> let e1 := Z.log2 M + 1 + ez - 53 in
  emin 53 1024 <= e1 ->
  exists m e, 2 ^ 52 <= Zpos m < 2 ^ 53 /\ e1 <= e /\
    binary_normalize 53 1024 M ez false =
      (if e <=? 1024 - 53 then S754_finite false m e else S754_infinity false) /\
    (ez <= e1 -> e = e1 -> M / 2 ^ (e1 - ez) <= Zpos m) /\
    (e1 <= ez -> Zpos m = M * 2 ^ (ez - e1) /\ e = e1) /\ e <= e1 + 1.
Proof.
  intros HM e1 He. assert (e1 = Z.log2 M + 1 + ez - 53) as He1 by done. clearbody e1. destruct M as [|p|p]; [lia| |lia]. cbn [binary_normalize]. unfold binary_round.
  rewrite digits2_log2. assert (fexp 53 1024 (Z.log2 (Zpos p) + 1 + ez) = e1) as Hf.
  { unfold fexp. lia. }
  rewrite Hf. pose proof (log2_bounds (Zpos p) (Z.log2 (Zpos p) + 1) ltac:(lia) eq_refl) as Hb.
  pose proof (Z.log2_nonneg (Zpos p)) as Hl.
  (* the mantissa and exponent handed to the rounding step *)
  assert (exists q e0, shl_align p ez e1 = (q, e0) /\ e0 <= e1 /\ Z.log2 (Zpos q) + 1 + e0 - 53 = e1 /\
            ((e1 <= ez /\ e0 = e1 /\ Zpos q = Zpos p * 2 ^ (ez - e1)) \/ (ez < e1 /\ e0 = ez /\ q = p)))
    as (q & e0 & -> & He0 & Hlq & Hcase).
  { destruct (decide (e1 <= ez)) as [Hle|Hgt].
    - destruct (shl_align_eq p ez e1 Hle) as (q & -> & Hq). exists q, e1. split_and!; [done | lia| |left; done].
      rewrite Hq, Z.log2_mul_pow2 by lia. lia.
    - exists p, ez. unfold shl_align. destruct (e1 - ez) eqn:E; [lia| |lia].
      split_and!; [done | lia | lia | right; split_and!; [lia | done..]]. }
  unfold binary_round_aux. unfold shr_fexp at 1. cbn [Zdigits2]. rewrite digits2_log2.
  assert (fexp 53 1024 (Z.log2 (Zpos q) + 1 + e0) = e1) as -> by (unfold fexp; lia).
  destruct (shr_quot (shr_record_of_loc (Zpos q) loc_Exact) e0 (e1 - e0)) as [Hm1 Hm2]; [simpl; lia|lia|].
  destruct (shr (shr_record_of_loc (Zpos q) loc_Exact) e0 (e1 - e0)) as [mrs' e'] eqn:Eshr.
  simpl in Hm1, Hm2. replace (e0 + (e1 - e0)) with e1 in Hm2 by lia. subst e'.
  pose proof (log2_bounds (Zpos q) (Z.log2 (Zpos q) + 1) ltac:(lia) eq_refl) as Hbq.
  assert (2 ^ 52 <= shr_m mrs' < 2 ^ 53) as Hmr.
  { rewrite Hm1. replace (e1 - e0) with (Z.log2 (Zpos q) - 52) in * by lia.
    assert (0 <= Z.log2 (Zpos q) - 52) by lia. split.
    - apply Z.div_le_lower_bound; [lia|]. rewrite <- Z.pow_add_r by lia.
      replace (Z.log2 (Zpos q) - 52 + 52) with (Z.log2 (Zpos q) + 1 - 1) by lia. lia.
    - apply Z.div_lt_upper_bound; [lia|]. rewrite <- Z.pow_add_r by lia.
      replace (Z.log2 (Zpos q) - 52 + 53) with (Z.log2 (Zpos q) + 1) by lia. lia. }
  set (mr := round_nearest_even _ _).
  assert (shr_m mrs' <= mr <= shr_m mrs' + 1) as Hround.
  { unfold mr, round_nearest_even. destruct (loc_of_shr_record mrs') as [|[]]; [lia|destruct (Z.even _); lia|lia|lia]. }
  destruct (renormalise mr e1) as (m' & e' & E1 & E2 & Hm' & Hor); [lia|done|].
  destruct (shr_fexp 53 1024 mr e1 loc_Exact) as [mrs'' e''] eqn:E3. simpl in E1, E2. rewrite E1. subst e'.
  destruct m' as [|m|m]; [lia| |lia]. exists m, e''.
  split_and!; [lia | lia | lia | done | | | lia].
  - intros Hle Heq. destruct Hor as [[Hmm _]|(_ & _ & ?)]; [|lia]. rewrite Hmm.
    destruct Hcase as [(? & -> & Hq)|(? & -> & ->)]; [|lia].
    replace ez with e1 in * by lia. rewrite Z.sub_diag in *. rewrite Hq, Z.mul_1_r in Hm1. change (2 ^ 0) with 1 in *. rewrite Z.div_1_r in *. lia.
  - intros Hle. destruct Hcase as [(? & -> & Hq)|(? & _)]; [|lia].
    rewrite Z.sub_diag, Z.div_1_r in Hm1.
    (* nothing was shifted out, so nothing is rounded *)
    assert (mrs' = shr_record_of_loc (Zpos q) loc_Exact) as Emrs.
    { rewrite Z.sub_diag in Eshr. simpl in Eshr. by simplify_eq. }
    assert (mr = Zpos q) as Emr by (unfold mr; by rewrite Emrs).
    destruct Hor as [[Hmm ->]|(Hbig & _ & _)]; [|lia]. split; [|done]. rewrite Hmm, Emr. exact Hq.
Qed.

(** ** Integers *)

(** An integer below 2^53 is represented exactly. *)
Lemma of_u64_exact n :
  0 < n < 2 ^ 53 ->
  exists m, f64_of_u64 n = S754_finite false m (Z.log2 n - 52) /\
    Zpos m = n * 2 ^ (52 - Z.log2 n) /\ 2 ^ 52 <= Zpos m < 2 ^ 53.
Proof.
  intros Hn. assert (Z.log2 n < 53) by (apply Z.log2_lt_pow2; lia). pose proof (Z.log2_nonneg n).
  destruct (round_spec n 0) as (m & e & Hm & _ & E & _ & Hex & _); [lia | unfold emin; lia|].
  destruct Hex as [Hv ->]; [lia|]. exists m. unfold f64_of_u64. rewrite E.
  replace (Z.log2 n + 1 + 0 - 53) with (Z.log2 n - 52) in * by lia.
  destruct (Z.leb_spec (Z.log2 n - 52) (1024 - 53)); [|lia].
  split_and!; [done | rewrite Hv; f_equal; f_equal; lia | lia | lia].
Qed.

Lemma pos_compare m m' : Pos.compare_cont Eq m m' = (Zpos m ?= Zpos m').
Proof. done. Qed.

(** Positive floats with 53-bit mantissas compare by exponent, then mantissa. *)
Lemma f64_le_finite m e m' e' :
  f64_le (S754_finite false m e) (S754_finite false m' e') =
  (e <? e') || ((e =? e') && (Zpos m <=? Zpos m')).
Proof.
  unfold f64_le, SFleb. cbn [SFcompare]. rewrite pos_compare.
  destruct (Z.compare_spec e e'), (Z.ltb_spec e e'), (Z.eqb_spec e e'); simpl; try lia; try done.
Qed.

(** The representations of integers compare as the integers. *)
Lemma exact_le a b m m' :
  0 < a -> 0 < b -> Zpos m = a * 2 ^ (52 - Z.log2 a) -> Zpos m' = b * 2 ^ (52 - Z.log2 b) ->
  Z.log2 a <= 52 -> Z.log2 b <= 52 ->
  (Z.log2 a - 52 <? Z.log2 b - 52) || ((Z.log2 a - 52 =? Z.log2 b - 52) && (Zpos m <=? Zpos m'))
  = (a <=? b).
Proof.
  intros Ha Hb Hm Hm' Hla Hlb. destruct (Z.leb_spec a b) as [Hle|Hlt].
  - pose proof (Z.log2_le_mono a b Hle). destruct (Z.ltb_spec (Z.log2 a - 52) (Z.log2 b - 52)); [done|].
    assert (Z.log2 a = Z.log2 b) as E by lia. rewrite E, Z.eqb_refl in *. simpl. apply Z.leb_le.
    rewrite Hm, Hm'. apply Z.mul_le_mono_nonneg_r; lia.
  - pose proof (Z.log2_le_mono b a ltac:(lia)).
    destruct (Z.ltb_spec (Z.log2 a - 52) (Z.log2 b - 52)); [lia|].
    destruct (Z.eqb_spec (Z.log2 a - 52) (Z.log2 b - 52)); [|done]. simpl. apply Z.leb_gt.
    assert (Z.log2 a = Z.log2 b) as E by lia. rewrite E in *. rewrite Hm, Hm'.
    apply Z.mul_lt_mono_pos_r; lia.
Qed.

Lemma log2_53 n : 0 < n < 2 ^ 53 -> 0 <= Z.log2 n <= 52.
Proof. intros Hn. assert (Z.log2 n < 53) by (apply Z.log2_lt_pow2; lia). pose proof (Z.log2_nonneg n). lia. Qed.

Lemma f64_le_of_u64 a b :
  0 <= a < 2 ^ 53 -> 0 <= b < 2 ^ 53 -> f64_le (f64_of_u64 a) (f64_of_u64 b) = (a <=? b).
Proof.
  intros Ha Hb. destruct (decide (a = 0)) as [->|], (decide (b = 0)) as [->|]; [done|..].
  - destruct (of_u64_exact b) as (m & -> & _); [lia|]. symmetry. apply Z.leb_le. lia.
  - destruct (of_u64_exact a) as (m & -> & _); [lia|]. symmetry. apply Z.leb_gt. lia.
  - destruct (of_u64_exact a) as (m & -> & Hm & _); [lia|].
    destruct (of_u64_exact b) as (m' & -> & Hm' & _); [lia|].
    rewrite f64_le_finite. pose proof (log2_53 a). pose proof (log2_53 b). apply exact_le; lia.
Qed.

(** ** Adding something non-negative *)

(** No minus sign; [NaN], which fails every comparison, is allowed. *)
Definition not_negative (x : f64) : Prop :=
  match x with
  | S754_zero true | S754_finite true _ _ | S754_infinity true => False
  | _ => True
  end.

(** Whatever non-negative is added to an integer, the rounded sum does not
    compare below a smaller integer. *)
Lemma f64_add_not_le a b y :
  0 < a < 2 ^ 53 -> 0 <= b < a -> not_negative y ->
  f64_le (f64_add (f64_of_u64 a) y) (f64_of_u64 b) = false.
Proof.
  intros Ha Hb Hy.
  assert (f64_le (f64_of_u64 a) (f64_of_u64 b) = false) as Hab.
  { rewrite f64_le_of_u64 by lia. apply Z.leb_gt. lia. }
  destruct (of_u64_exact a) as (mx & Ea & Hmx & Hmx53); [lia|]. rewrite Ea in *.
  pose proof (log2_53 a Ha). set (ex := Z.log2 a - 52) in *.
  destruct y as [s|[]| |[] my ey]; try done.
  - destruct (decide (b = 0)) as [->|Hb0]; [done|].
    by destruct (of_u64_exact b) as (m' & -> & _); [lia|].
  - (* both finite: the sum of the aligned mantissas *)
    unfold f64_add. cbn [SFadd cond_Zopp].
    set (ez := Z.min ex ey). destruct (shl_align_eq mx ex ez) as (qx & -> & Hqx); [lia|].
    destruct (shl_align_eq my ey ez) as (qy & -> & Hqy); [lia|]. cbn [fst].
    set (M := Zpos qx + Zpos qy).
    assert (Zpos mx * 2 ^ (ex - ez) <= M) as HM by lia.
    assert (ex <= Z.log2 M + 1 + ez - 53) as Hlog.
    { assert (2 ^ (52 + (ex - ez)) <= M).
      { rewrite Z.pow_add_r by lia. etransitivity; [|exact HM]. apply Z.mul_le_mono_nonneg_r; lia. }
      assert (52 + (ex - ez) <= Z.log2 M) by (apply Z.log2_le_pow2; lia). lia. }
    destruct (round_spec M ez) as (m & e & Hm & He & -> & Hq & _); [lia | unfold emin; lia |].
    destruct (e <=? 1024 - 53).
    + (* the rounded sum is lexicographically above [a] *)
      assert (ex < e \/ (ex = e /\ Zpos mx <= Zpos m)) as Hlex.
      { destruct (decide (ex < e)); [by left|]. right. split; [lia|].
        assert (Zpos mx <= M / 2 ^ (Z.log2 M + 1 + ez - 53 - ez)); [|lia].
        replace (Z.log2 M + 1 + ez - 53 - ez) with (ex - ez) by lia.
        apply Z.div_le_lower_bound; [lia|]. lia. }
      revert Hab. destruct (decide (b = 0)) as [->|Hb0]; [done|].
      destruct (of_u64_exact b) as (m' & -> & _); [lia|]. rewrite !f64_le_finite. intros Hab.
      apply orb_false_iff in Hab as [H1%Z.ltb_ge H2]. apply orb_false_iff.
      split; [apply Z.ltb_ge; lia|]. apply andb_false_iff. apply andb_false_iff in H2.
      rewrite Z.eqb_neq, Z.leb_gt in *. lia.
    + destruct (decide (b = 0)) as [->|Hb0]; [done|].
      by destruct (of_u64_exact b) as (m' & -> & _); [lia|].
Qed.

Lemma round_aux_not_negative m e l : not_negative (binary_round_aux 53 1024 false m e l).
Proof.
  unfold binary_round_aux. destruct (shr_fexp _ _ m e l) as [? ?].
  destruct (shr_fexp _ _ _ _ _) as [[m' ? ?] ?]; simpl. destruct m'; [done| |done].
  by destruct (_ <=? _).
Qed.

Lemma of_u64_not_negative n : 0 <= n -> not_negative (f64_of_u64 n).
Proof.
  intros Hn. unfold f64_of_u64. destruct n; [done| |lia]. cbn [binary_normalize]. unfold binary_round.
  destruct (shl_align _ _ _). apply round_aux_not_negative.
Qed.

Lemma f64_mul_not_negative x y : not_negative x -> not_negative y -> not_negative (f64_mul x y).
Proof.
  destruct x as [[]|[]| |[] ? ?], y as [[]|[]| |[] ? ?]; try done. intros _ _.
  apply round_aux_not_negative.
Qed.

Lemma f64_div_not_negative x y : not_negative x -> not_negative y -> not_negative (f64_div x y).
Proof.
  destruct x as [[]|[]| |[] mx ex], y as [[]|[]| |[] my ey]; try done. intros _ _.
  unfold f64_div. cbn [SFdiv]. destruct (SFdiv_core_binary _ _ _ _ _ _) as [[mz ez] lz].
  apply round_aux_not_negative.
Qed.

(** ** Quotients of integers are finite *)

Definition is_finite (x : f64) : Prop :=
  match x with S754_zero _ | S754_finite _ _ _ => True | _ => False end.

Lemma shr_fexp_bound m e l :
  0 <= m -> let r := shr_fexp 53 1024 m e l in
  0 <= shr_m r.1 <= m /\ e <= r.2 /\ (e < r.2 -> r.2 = fexp 53 1024 (Zdigits2 m + e)).
Proof.
  intros Hm. unfold shr_fexp. set (n := fexp 53 1024 (Zdigits2 m + e) - e).
  assert (shr_m (shr_record_of_loc m l) = m) as E by (by destruct l as [|[]]).
  destruct (decide (0 <= n)) as [Hn|Hn].
  - destruct (shr_quot (shr_record_of_loc m l) e n) as [H1 H2]; [lia|lia|]. cbv zeta. rewrite H1, H2, E.
    split_and!; [apply Z.div_pos; lia | | lia | lia].
    apply Z.div_le_upper_bound; [lia|]. nia.
  - destruct n; [lia|lia|]. simpl. rewrite E. lia.
Qed.

Lemma Zdigits2_log2 m : 0 < m -> Zdigits2 m = Z.log2 m + 1.
Proof. destruct m; [lia| |lia]. intros _. apply digits2_log2. Qed.

Lemma round_aux_finite m e l :
  0 <= m < 2 ^ 60 -> -600 <= e <= 600 -> is_finite (binary_round_aux 53 1024 false m e l).
Proof.
  intros Hm He. unfold binary_round_aux. destruct (shr_fexp_bound m e l) as (H1 & H2 & H3); [lia|].
  destruct (shr_fexp 53 1024 m e l) as [mrs' e'] eqn:E. simpl in H1, H2, H3.
  assert (Zdigits2 m <= 60) as Hd.
  { destruct (decide (m = 0)) as [->|]; [simpl; lia|]. rewrite Zdigits2_log2 by lia.
    assert (Z.log2 m < 60) by (apply Z.log2_lt_pow2; lia). lia. }
  assert (e' <= 700) as He' by (unfold fexp, emin in H3; lia).
  set (mr := round_nearest_even _ _).
  assert (0 <= mr <= m + 1) as Hmr.
  { unfold mr, round_nearest_even. destruct (loc_of_shr_record mrs') as [|[]]; [lia|destruct (Z.even _); lia|lia|lia]. }
  destruct (shr_fexp_bound mr e' loc_Exact) as (H1' & H2' & H3'); [lia|].
  destruct (shr_fexp 53 1024 mr e' loc_Exact) as [mrs'' e''] eqn:E2. simpl in H1', H2', H3'.
  assert (Zdigits2 mr <= 61) as Hd'.
  { destruct (decide (mr = 0)) as [E0|]; [rewrite E0; simpl; lia|]. rewrite Zdigits2_log2 by lia.
    assert (Z.log2 mr < 61) by (apply Z.log2_lt_pow2; [lia|]; change (2 ^ 61) with (2 * 2 ^ 60); lia). lia. }
  destruct (shr_m mrs'') as [|p|p]; [done| |lia].
  destruct (Z.leb_spec e'' (1024 - 53)); [done|]. unfold fexp, emin in H3'. lia.
Qed.

(** The conversion of a positive [u64]. *)
Lemma of_u64_shape n :
  0 < n < 2 ^ 64 -> exists m e, f64_of_u64 n = S754_finite false m e /\
    2 ^ 52 <= Zpos m < 2 ^ 53 /\ -52 <= e <= 12.
Proof.
  intros Hn. assert (Z.log2 n < 64) by (apply Z.log2_lt_pow2; lia). pose proof (Z.log2_nonneg n).
  destruct (round_spec n 0) as (m & e & Hm & He1 & E & _ & _ & He2); [lia | unfold emin; lia|].
  exists m, e. unfold f64_of_u64. rewrite E. destruct (Z.leb_spec e (1024 - 53)); [|lia].
  split_and!; [done | lia..].
Qed.

Lemma f64_div_finite a b :
  0 < a < 2 ^ 64 -> 0 < b < 2 ^ 64 -> is_finite (f64_div (f64_of_u64 a) (f64_of_u64 b)).
Proof.
  intros Ha Hb. destruct (of_u64_shape a Ha) as (mx & ex & -> & Hmx & Hex).
  destruct (of_u64_shape b Hb) as (my & ey & -> & Hmy & Hey).
  unfold f64_div. cbn [SFdiv]. unfold SFdiv_core_binary.
  rewrite !Zdigits2_log2, (log2_unique' (Zpos mx) 53), (log2_unique' (Zpos my) 53) by lia.
  set (e' := Z.min _ _). assert (e' = ex - ey - 53) as He' by (unfold e', fexp, emin; lia).
  replace (ex - ey - e') with 53 by lia. cbv zeta. rewrite Z.shiftl_mul_pow2 by lia.
  pose proof (Z.div_eucl_eq (Zpos mx * 2 ^ 53) (Zpos my) ltac:(lia)) as Hq.
  pose proof (Z.mod_pos_bound (Zpos mx * 2 ^ 53) (Zpos my) ltac:(lia)) as Hr.
  unfold Z.modulo in Hr. destruct (Z.div_eucl _ _) as [q r]. simpl xorb.
  apply round_aux_finite; [|lia].
  split; [nia|]. nia.
Qed.
