(* ===== verification/Rounding.v ===== *)
(** * The relative error of [f64]

    Each operation of [F64] on positive normal numbers returns the exact result
    up to a factor between [1 - 2^-52] and [1 + 2^-52].  Numbers are compared as
    integers, in units of [2^-2000], which no operation here goes below. *)

From Stdlib Require Import Floats.SpecFloat.
From S2P Require Import Prelude Machine F64.

Definition SCALE : Z := 2000.
Definition UNIT : Z := 2 ^ SCALE.
Definition EPS : Z := 2 ^ 52.

(** The number of units of [m * 2 ^ e]. *)
Definition units (m e : Z) : Z := m * 2 ^ (e + SCALE).

(** [x] is a positive normal number of [v] units, with exponent at most [b]. *)
Definition normal (x : f64) (v b : Z) : Prop :=
  exists m e, x = S754_finite false m e /\ v = units (Zpos m) e /\ 2 ^ 52 <= Zpos m < 2 ^ 53 /\ - b <= e <= b.

(** [v] units are [t / d] units up to one rounding. *)
Definition near (v t d : Z) : Prop := (EPS - 1) * t <= EPS * (v * d) <= (EPS + 1) * t.

Lemma units_shift m e n : 0 <= n -> - SCALE <= e -> units (m * 2 ^ n) e = units m (e + n).
Proof.
  intros Hn He. unfold units, SCALE in *. rewrite <- Z.mul_assoc, <- Z.pow_add_r by lia. do 2 f_equal. lia.
Qed.

Lemma units_pos e : - SCALE <= e -> 0 < 2 ^ (e + SCALE).
Proof. unfold SCALE. intros. apply Z.pow_pos_nonneg; lia. Qed.

(** ** Rounding *)

(** A mantissa of at least 53 bits, with what was dropped below it, is rounded to a
    normal number near every number that it may stand for. *)
Lemma round_aux_near m e l :
  2 ^ 52 <= m -> - 1900 <= e -> let e1 := Z.log2 m + 1 + e - 53 in
  - 1000 <= e1 <= 900 ->
  exists v, normal (binary_round_aux 53 1024 false m e l) v (Z.max (- e1) (e1 + 1)) /\
    forall t d, 0 < d -> units m e * d <= t <= units (m + 1) e * d -> near v t d.
Proof.
  intros Hm He e1 He1. assert (0 <= Z.log2 m - 52) as Hl.
  { assert (52 <= Z.log2 m) by (apply Z.log2_le_pow2; lia). lia. }
  unfold binary_round_aux. unfold shr_fexp at 1. rewrite Zdigits2_log2 by lia.
  assert (fexp 53 1024 (Z.log2 m + 1 + e) = e1) as -> by (unfold fexp, emin; lia).
  assert (shr_m (shr_record_of_loc m l) = m) as Er by (by destruct l as [|[]]).
  destruct (shr_quot (shr_record_of_loc m l) e (e1 - e)) as [Hq He']; [lia | lia |]. rewrite Er in Hq.
  destruct (shr _ e (e1 - e)) as [mrs e'] eqn:Es. cbn [fst snd] in Hq, He'. replace (e + (e1 - e)) with e1 in He' by lia. subst e'.
  set (q := m / 2 ^ (e1 - e)) in *.
  assert (0 < 2 ^ (e1 - e)) as Hpow by (apply Z.pow_pos_nonneg; lia).
  pose proof (Z.log2_spec m ltac:(lia)) as Hspec.
  assert (2 ^ 52 <= q < 2 ^ 53) as Hq53.
  { unfold q. split.
    - apply Z.div_le_lower_bound; [lia|]. rewrite <- Z.pow_add_r by lia. replace (e1 - e + 52) with (Z.log2 m) by lia. lia.
    - apply Z.div_lt_upper_bound; [lia|]. rewrite <- Z.pow_add_r by lia.
      replace (e1 - e + 53) with (Z.succ (Z.log2 m)) by lia. lia. }
  set (mr := round_nearest_even _ _). assert (q <= mr <= q + 1) as Hmr.
  { unfold mr, round_nearest_even. rewrite Hq. destruct (loc_of_shr_record mrs) as [|[]]; [lia | destruct (Z.even _); lia | lia | lia]. }
  destruct (renormalise mr e1) as (m' & e' & E1 & E2 & Hm' & Hor); [lia | unfold emin; lia|].
  destruct (shr_fexp 53 1024 mr e1 loc_Exact) as [mrs' e''] eqn:E3. cbn [fst snd] in E1, E2. rewrite E1. subst e''.
  destruct m' as [|m'|m']; [lia| |lia].
  assert (e1 <= e' <= e1 + 1) as He' by lia.
  destruct (Z.leb_spec e' (1024 - 53)); [|lia].
  assert (units (Zpos m') e' = units mr e1) as Ev.
  { destruct Hor as [[-> ->]|(-> & -> & ->)]; [done|]. change (2 ^ 53) with (2 ^ 52 * 2 ^ 1).
    rewrite (units_shift (2 ^ 52) e1 1) by (unfold SCALE; lia). done. }
  exists (units mr e1). split.
  { exists m', e'. split_and!; [done | done | lia..]. }
  intros t d Hd Ht. set (w := 2 ^ (e1 + SCALE)). assert (0 < w) as Hw by (apply units_pos; unfold SCALE; lia).
  assert (units m e >= q * w /\ units (m + 1) e <= (q + 1) * w) as [Hlo Hhi].
  { assert (w = 2 ^ (e1 - e) * 2 ^ (e + SCALE)) as ->
      by (unfold w; rewrite <- Z.pow_add_r by (unfold SCALE; lia); f_equal; lia).
    pose proof (units_pos e ltac:(unfold SCALE; lia)) as Hu. unfold units. set (u := 2 ^ (e + SCALE)) in *.
    pose proof (Z.div_mod m (2 ^ (e1 - e)) ltac:(lia)) as Hdm. fold q in Hdm.
    pose proof (Z.mod_pos_bound m (2 ^ (e1 - e)) Hpow) as Hmod. set (h := 2 ^ (e1 - e)) in *.
    split; [assert (q * h <= m) by nia; nia | assert (m + 1 <= (q + 1) * h) by nia; nia]. }
  set (W := w * d). assert (0 < W) as HW by (unfold W; nia).
  assert (q * W <= t <= q * W + W) as Htw by (unfold W; nia).
  assert (q * W <= mr * W <= q * W + W) as Hmw by nia.
  assert (EPS * W <= q * W) as Hqw by (unfold EPS; nia).
  unfold near, units. fold w. replace (mr * w * d) with (mr * W) by (unfold W; ring). clear - Htw Hmw Hqw.
  revert Htw Hmw Hqw. generalize (q * W), (mr * W). intros x y. unfold EPS. lia.
Qed.

(** ** Operations *)

Lemma of_u64_normal n : 0 < n < 2 ^ 53 -> normal (f64_of_u64 n) (n * UNIT) 52.
Proof.
  intros Hn. destruct (of_u64_exact n Hn) as (m & E & Hm & Hm'). pose proof (log2_53 n Hn).
  exists m, (Z.log2 n - 52). split_and!; [done | | lia..].
  rewrite Hm, units_shift by (unfold SCALE; lia). unfold units, UNIT. do 2 f_equal. unfold SCALE. lia.
Qed.

Lemma log2_product a b : 2 ^ 52 <= a < 2 ^ 53 -> 2 ^ 52 <= b < 2 ^ 53 -> 104 <= Z.log2 (a * b) <= 105.
Proof.
  intros Ha Hb. split.
  - apply Z.log2_le_pow2; [nia|]. change (2 ^ 104) with (2 ^ 52 * 2 ^ 52). nia.
  - assert (Z.log2 (a * b) < 106); [|lia]. apply Z.log2_lt_pow2; [nia|]. change (2 ^ 106) with (2 ^ 53 * 2 ^ 53). nia.
Qed.

(** A product of an integer. *)
Lemma mul_near p y vy b :
  0 < p < 2 ^ 53 -> normal y vy b -> b <= 300 ->
  exists v, normal (f64_mul (f64_of_u64 p) y) v (b + 110) /\ near v (p * vy) 1.
Proof.
  intros Hp (my & ey & -> & -> & Hmy & Hey) Hb. destruct (of_u64_normal p Hp) as (mx & ex & -> & Ex & Hmx & Hex).
  unfold f64_mul. cbn [SFmul xorb]. rewrite Pos2Z.inj_mul. pose proof (log2_product _ _ Hmx Hmy) as Hlog.
  destruct (round_aux_near (Zpos mx * Zpos my) (ex + ey) loc_Exact) as (v & (m & e & Hn & Hv & Hm & He) & Hnear); [nia | lia | lia |].
  exists v. split; [exists m, e; split_and!; [done | done | lia..]|]. apply Hnear; [lia|]. rewrite !Z.mul_1_r.
  assert (p * units (Zpos my) ey = units (Zpos mx * Zpos my) (ex + ey)) as ->.
  { apply (Z.mul_cancel_l _ _ UNIT); [unfold UNIT, SCALE; lia|].
    replace (UNIT * (p * units (Zpos my) ey)) with (p * UNIT * units (Zpos my) ey) by lia. rewrite Ex. unfold units, UNIT.
    assert (2 ^ (ex + SCALE) * 2 ^ (ey + SCALE) = 2 ^ SCALE * 2 ^ (ex + ey + SCALE)) as E.
    { rewrite <- !Z.pow_add_r by (unfold SCALE; lia). f_equal. lia. }
    transitivity (Zpos mx * Zpos my * (2 ^ (ex + SCALE) * 2 ^ (ey + SCALE))); [ring|]. rewrite E. ring. }
  split; [done|]. unfold units. apply Z.mul_le_mono_nonneg_r; [apply Z.pow_nonneg|]; lia.
Qed.

(** A sum with an integer. *)
Lemma add_near c y vy b :
  0 < c < 2 ^ 53 -> normal y vy b -> b <= 400 ->
  exists v, normal (f64_add (f64_of_u64 c) y) v (b + 60) /\ near v (c * UNIT + vy) 1.
Proof.
  intros Hc (my & ey & -> & -> & Hmy & Hey) Hb. destruct (of_u64_normal c Hc) as (mx & ex & -> & Ex & Hmx & Hex).
  unfold f64_add. cbn [SFadd cond_Zopp]. set (ez := Z.min ex ey).
  destruct (shl_align_eq mx ex ez) as (qx & -> & Hqx); [lia|].
  destruct (shl_align_eq my ey ez) as (qy & -> & Hqy); [lia|]. cbn [fst].
  assert (c * UNIT + units (Zpos my) ey = units (Zpos qx + Zpos qy) ez) as E.
  { rewrite Ex, Hqx, Hqy. unfold units at 3. rewrite Z.mul_add_distr_r.
    change (Zpos mx * 2 ^ (ex - ez) * 2 ^ (ez + SCALE)) with (units (Zpos mx * 2 ^ (ex - ez)) ez).
    change (Zpos my * 2 ^ (ey - ez) * 2 ^ (ez + SCALE)) with (units (Zpos my * 2 ^ (ey - ez)) ez).
    rewrite !units_shift by (unfold SCALE; lia). do 2 f_equal; f_equal; lia. }
  set (M := Zpos qx + Zpos qy) in *.
  assert (2 ^ 52 <= M) as HM.
  { unfold M. rewrite Hqx. assert (1 <= 2 ^ (ex - ez)) by (apply (Z.pow_le_mono_r 2 0); lia). nia. }
  assert (Z.max ex ey <= Z.log2 M + 1 + ez - 53 <= Z.max ex ey + 1) as Hlog.
  { assert (Z.max ex ey - ez + 52 <= Z.log2 M).
    { apply Z.log2_le_pow2; [lia|]. rewrite Z.pow_add_r by lia. unfold M. rewrite Hqx, Hqy.
      destruct (Z.max_spec ex ey) as [[? ->]|[? ->]]; nia. }
    assert (Z.log2 M < Z.max ex ey - ez + 54); [|lia]. apply Z.log2_lt_pow2; [lia|].
    replace (Z.max ex ey - ez + 54) with (1 + ((Z.max ex ey - ez) + 53)) by lia.
    rewrite !Z.pow_add_r by lia. unfold M. rewrite Hqx, Hqy.
    assert (2 ^ (ex - ez) <= 2 ^ (Z.max ex ey - ez)) by (apply Z.pow_le_mono_r; lia).
    assert (2 ^ (ey - ez) <= 2 ^ (Z.max ex ey - ez)) by (apply Z.pow_le_mono_r; lia). nia. }
  destruct (round_aux_near M ez loc_Exact) as (v & (m & e & Hn & Hv & Hm & He) & Hnear); [lia | lia | lia |].
  assert (binary_normalize 53 1024 M ez false = binary_round_aux 53 1024 false M ez loc_Exact) as ->.
  { assert (exists p, M = Zpos p) as [p Ep] by (exists (qx + qy)%positive; unfold M; lia). rewrite Ep in *.
    cbn [binary_normalize]. unfold binary_round. rewrite digits2_log2.
    assert (fexp 53 1024 (Z.log2 (Zpos p) + 1 + ez) = Z.log2 (Zpos p) + 1 + ez - 53) as -> by (unfold fexp, emin; lia).
    unfold shl_align. destruct (Z.log2 (Zpos p) + 1 + ez - 53 - ez) eqn:Ed; [done | done | lia]. }
  exists v. split; [exists m, e; split_and!; [done | done | lia..]|]. rewrite E. apply Hnear; [lia|]. rewrite !Z.mul_1_r.
  split; [done|]. unfold units. apply Z.mul_le_mono_nonneg_r; [apply Z.pow_nonneg|]; lia.
Qed.

Lemma quotient_units a b x y q r E K U :
  0 < E -> 0 < K -> 0 < U -> a * U * U = x * E * K -> b * U = y * K -> x = y * q + r -> 0 <= r < y ->
  q * E * b <= a * U <= (q + 1) * E * b.
Proof.
  intros HE HK HU EA EB Hq Hr.
  assert (forall n, n * E * b * U = n * y * E * K) as Hn by (intros n; rewrite <- (Z.mul_assoc (n * E)), EB; ring).
  split; apply (proj2 (Z.mul_le_mono_pos_r _ _ U HU)); rewrite EA, Hn;
    (apply Z.mul_le_mono_nonneg_r; [lia|]; apply Z.mul_le_mono_nonneg_r; [lia|]; lia).
Qed.

(** A quotient of integers. *)
Lemma div_near a b :
  0 < a < 2 ^ 53 -> 0 < b < 2 ^ 53 ->
  exists v, normal (f64_div (f64_of_u64 a) (f64_of_u64 b)) v 200 /\ near v (a * UNIT) b.
Proof.
  intros Ha Hb. destruct (of_u64_normal a Ha) as (mx & ex & -> & Ex & Hmx & Hex).
  destruct (of_u64_normal b Hb) as (my & ey & -> & Ey & Hmy & Hey).
  unfold f64_div. cbn [SFdiv]. unfold SFdiv_core_binary.
  rewrite !Zdigits2_log2, (log2_unique' (Zpos mx) 53), (log2_unique' (Zpos my) 53) by lia.
  set (e' := Z.min _ _). assert (e' = ex - ey - 53) as He' by (unfold e', fexp, emin; lia).
  replace (ex - ey - e') with 53 by lia. cbv zeta. rewrite Z.shiftl_mul_pow2 by lia.
  pose proof (Z.div_eucl_eq (Zpos mx * 2 ^ 53) (Zpos my) ltac:(lia)) as Hq.
  pose proof (Z.mod_pos_bound (Zpos mx * 2 ^ 53) (Zpos my) ltac:(lia)) as Hr.
  unfold Z.modulo in Hr. destruct (Z.div_eucl _ _) as [q r]. simpl xorb.
  assert (2 ^ 52 <= q < 2 ^ 54) as Hq54.
  { split; [|nia]. assert (2 ^ 52 * Zpos my < (q + 1) * Zpos my) by nia. nia. }
  assert (52 <= Z.log2 q <= 53) as Hlog.
  { split; [apply Z.log2_le_pow2; lia|]. assert (Z.log2 q < 54) by (apply Z.log2_lt_pow2; lia). lia. }
  destruct (round_aux_near q e' (new_location (Zpos my) r)) as (v & (m & e & Hn & Hv & Hm & He) & Hnear); [lia | lia | lia |].
  exists v. split; [exists m, e; split_and!; [done | done | lia..]|]. apply Hnear; [lia|].
  set (K := 2 ^ (ey + SCALE)). assert (0 < K) as HK by (apply units_pos; unfold SCALE; lia).
  assert (a * UNIT * UNIT = Zpos mx * 2 ^ 53 * 2 ^ (e' + SCALE) * K) as EA.
  { rewrite Ex. unfold units, UNIT, K.
    assert (2 ^ (ex + SCALE) * 2 ^ SCALE = 2 ^ 53 * 2 ^ (e' + SCALE) * 2 ^ (ey + SCALE)) as E.
    { rewrite <- !Z.pow_add_r by (unfold SCALE; lia). f_equal. lia. }
    rewrite <- !Z.mul_assoc, E. lia. }
  assert (0 < UNIT) as HU by (apply (units_pos 0); unfold SCALE; lia).
  assert (0 < 2 ^ (e' + SCALE)) as HE by (apply units_pos; unfold SCALE; lia).
  exact (quotient_units a b _ _ q r _ K UNIT HE HK HU EA Ey Hq Hr).
Qed.

(** ** Comparison *)

Lemma normal_le x y vx vy b : normal x vx b -> normal y vy b -> b <= 1000 -> f64_le x y = (vx <=? vy).
Proof.
  intros (m & e & -> & -> & Hm & He) (m' & e' & -> & -> & Hm' & He') Hb. rewrite f64_le_finite. unfold units.
  assert (forall n n' i j, 2 ^ 52 <= n < 2 ^ 53 -> 2 ^ 52 <= n' < 2 ^ 53 -> - b <= i -> i < j ->
            n * 2 ^ (i + SCALE) < n' * 2 ^ (j + SCALE)) as Hlt.
  { intros n n' i j Hn Hn' Hi Hij. replace (j + SCALE) with (1 + (j - 1 - i) + (i + SCALE)) by lia.
    rewrite (Z.pow_add_r 2 (1 + (j - 1 - i))), (Z.pow_add_r 2 1) by (unfold SCALE; lia). rewrite Z.mul_assoc.
    apply Z.mul_lt_mono_pos_r; [apply units_pos; unfold SCALE; lia|].
    assert (1 <= 2 ^ (j - 1 - i)) by (apply (Z.pow_le_mono_r 2 0); lia). nia. }
  destruct (Z.ltb_spec e e') as [H1|H1]; simpl.
  - symmetry. apply Z.leb_le. specialize (Hlt _ _ e e' Hm Hm'). lia.
  - destruct (Z.eqb_spec e e') as [->|H2]; simpl.
    + pose proof (units_pos e' ltac:(unfold SCALE; lia)) as Hp.
      destruct (Z.leb_spec (Zpos m) (Zpos m')), (Z.leb_spec (Zpos m * 2 ^ (e' + SCALE)) (Zpos m' * 2 ^ (e' + SCALE))); nia || done.
    + symmetry. apply Z.leb_gt. apply (Hlt _ _ e' e Hm' Hm); lia.
Qed.

Lemma normal_weaken x v b b' : normal x v b -> b <= b' -> normal x v b'.
Proof. intros (m & e & E & Ev & Hm & He) Hb. exists m, e. split_and!; [done | done | lia..]. Qed.

(** ** Three roundings in a row *)

Section chain.
Variables (c p a w lim U vw vm ve : Z).
Hypothesis Hc : 0 < c.
Hypothesis Hp : 0 < p.
Hypothesis Ha : 0 < a.
Hypothesis Hw : 0 < w.
Hypothesis Hlim : 0 <= lim.
Hypothesis HU : 0 < U.
Hypothesis Hbound : lim * w < 2 ^ 50.
Hypothesis Hvw : near vw (a * U) w.
Hypothesis Hvm : near vm (p * vw) 1.
Hypothesis Hve : near ve (c * U + vm) 1.

(** A quotient, a product and a sum lose less than what separates two integers over
    a common denominator. *)
Lemma chain_below : c * w + p * a < lim * w -> ve <= lim * U.
Proof using All.
  unfold near in *. rewrite !Z.mul_1_r in *. intros HN. set (M := EPS) in *.
  assert (0 < M) as HM by (unfold M, EPS; lia).
  assert (M * M * (w * vm) <= (M + 1) * (M + 1) * (p * (a * U))) as S2.
  { transitivity (M * w * ((M + 1) * (p * vw))).
    { replace (M * M * (w * vm)) with (M * w * (M * vm)) by ring. apply Z.mul_le_mono_nonneg_l; [nia | lia]. }
    replace (M * w * ((M + 1) * (p * vw))) with ((M + 1) * p * (M * (vw * w))) by ring.
    transitivity ((M + 1) * p * ((M + 1) * (a * U))); [apply Z.mul_le_mono_nonneg_l; [nia | lia] | apply Z.eq_le_incl; ring]. }
  assert (M * M * M * w * ve <= (M + 1) * (M + 1) * (M + 1) * ((c * w + p * a) * U)) as S1.
  { transitivity (M * M * w * ((M + 1) * (c * U + vm))).
    { replace (M * M * M * w * ve) with (M * M * w * (M * ve)) by ring. apply Z.mul_le_mono_nonneg_l; [nia | lia]. }
    replace (M * M * w * ((M + 1) * (c * U + vm))) with ((M + 1) * (M * M * (c * w * U) + M * M * (w * vm))) by ring.
    transitivity ((M + 1) * ((M + 1) * (M + 1) * (c * w * U) + (M + 1) * (M + 1) * (p * (a * U)))); [|apply Z.eq_le_incl; ring].
    apply Z.mul_le_mono_nonneg_l; [lia|]. apply Z.add_le_mono; [|exact S2]. apply Z.mul_le_mono_nonneg_r; nia. }
  assert ((M + 1) * (M + 1) * (M + 1) * ((c * w + p * a) * U) <= M * M * M * w * (lim * U)) as S0.
  { replace (M * M * M * w * (lim * U)) with (M * M * M * (lim * w) * U) by ring. rewrite Z.mul_assoc.
    apply Z.mul_le_mono_nonneg_r; [lia|].
    transitivity ((M + 1) * (M + 1) * (M + 1) * (lim * w - 1)); [apply Z.mul_le_mono_nonneg_l; nia|].
    unfold M, EPS. lia. }
  apply (proj2 (Z.mul_le_mono_pos_l _ _ (M * M * M * w) ltac:(nia))). lia.
Qed.

Lemma chain_above : lim * w < c * w + p * a -> lim * U < ve.
Proof using All.
  unfold near in *. rewrite !Z.mul_1_r in *. intros HN. set (M := EPS) in *.
  assert (1 < M) as HM by (unfold M, EPS; lia).
  assert (0 <= vw) as Hvw0 by nia. assert (0 <= vm) as Hvm0 by nia.
  assert ((M - 1) * (M - 1) * (p * (a * U)) <= M * M * (w * vm)) as S2.
  { transitivity (M * w * ((M - 1) * (p * vw))).
    - replace (M * w * ((M - 1) * (p * vw))) with ((M - 1) * p * (M * (vw * w))) by ring.
      transitivity ((M - 1) * p * ((M - 1) * (a * U))); [apply Z.eq_le_incl; ring | apply Z.mul_le_mono_nonneg_l; [nia | lia]].
    - replace (M * M * (w * vm)) with (M * w * (M * vm)) by ring. apply Z.mul_le_mono_nonneg_l; [nia | lia]. }
  assert ((M - 1) * (M - 1) * (M - 1) * ((c * w + p * a) * U) <= M * M * M * w * ve) as S1.
  { transitivity (M * M * w * ((M - 1) * (c * U + vm))).
    - replace (M * M * w * ((M - 1) * (c * U + vm))) with ((M - 1) * (M * M * (c * w * U) + M * M * (w * vm))) by ring.
      transitivity ((M - 1) * ((M - 1) * (M - 1) * (c * w * U) + (M - 1) * (M - 1) * (p * (a * U)))); [apply Z.eq_le_incl; ring|].
      apply Z.mul_le_mono_nonneg_l; [lia|]. apply Z.add_le_mono; [|exact S2]. apply Z.mul_le_mono_nonneg_r; nia.
    - replace (M * M * M * w * ve) with (M * M * w * (M * ve)) by ring. apply Z.mul_le_mono_nonneg_l; [nia | lia]. }
  assert (M * M * M * w * (lim * U) < (M - 1) * (M - 1) * (M - 1) * ((c * w + p * a) * U)) as S0.
  { replace (M * M * M * w * (lim * U)) with (M * M * M * (lim * w) * U) by ring. rewrite (Z.mul_assoc _ _ U).
    apply Z.mul_lt_mono_pos_r; [lia|].
    apply (Z.lt_le_trans _ ((M - 1) * (M - 1) * (M - 1) * (lim * w + 1))); [unfold M, EPS; lia|].
    apply Z.mul_le_mono_nonneg_l; nia. }
  apply (proj2 (Z.mul_lt_mono_pos_l (M * M * M * w) _ _ ltac:(nia))). lia.
Qed.

End chain.
