(* ===== verification/Abuse.v ===== *)
(** * The sliding-window limiter and rule sets ([onced-core/src/abuse.rs])

    The limiter's map is a [HashMap], whose iteration order (and so the key that
    is evicted at capacity) is left open.  Estimates are computed in [f64] as in
    the source.  The theorems relate the two counters of a key to the history
    of hits, and the verdict to the counts. *)

From Stdlib Require Import Floats.SpecFloat.
From S2P Require Import Prelude Machine F64 Rounding HashMap.

(** The enum [Decision]. *)
Inductive LimitDecision := Allow | Deny.

#[export] Instance LimitDecision_eq_dec : EqDecision LimitDecision.
Proof. solve_decision. Defined.

Record WindowCounter := MkCounter { window_index : Z; current : Z; previous : Z }.

Definition DEFAULT_MAX_KEYS : Z := 1000000.

Record SlidingWindowLimiter := MkLimiter {
  window_ms : Z;
  limit : Z;
  max_keys : Z;
  counters : gmap string WindowCounter;
}.

(** [None] is the panic of the assertions. *)
Definition with_capacity (window_ms limit max_keys : Z) : option SlidingWindowLimiter :=
  if (0 <? window_ms) && (0 <? max_keys) then Some (MkLimiter window_ms limit max_keys ∅) else None.

Definition SlidingWindowLimiter_new (window_ms limit : Z) : option SlidingWindowLimiter :=
  with_capacity window_ms limit DEFAULT_MAX_KEYS.

Definition tracked_keys (l : SlidingWindowLimiter) : Z := Z.of_nat (size (counters l)).

(** Roll the windows of a counter forward to [index]. *)
Definition roll (c : WindowCounter) (index : Z) : WindowCounter :=
  if index =? wrapping_add 64 (window_index c) 1 then MkCounter index 0 (current c)
  else if wrapping_add 64 (window_index c) 1 <? index then MkCounter index 0 0
  else c.

(** The estimated rate of the trailing window. *)
Definition estimate (c : WindowCounter) (window_ms now_ms : Z) : f64 :=
  let elapsed := now_ms mod window_ms in
  let prev_weight := f64_div (f64_of_u64 (window_ms - elapsed)) (f64_of_u64 window_ms) in
  f64_add (f64_of_u64 (current c)) (f64_mul (f64_of_u64 (previous c)) prev_weight).

Section limiter.
Context `{!HashOrder string}.

(** Make room for a new key at capacity. *)
Definition evict (l : SlidingWindowLimiter) (key : string) : gmap string WindowCounter :=
  hm_make_room (max_keys l) (counters l) key.

(** The counter of [key] after this hit. *)
Definition bump (counters : gmap string WindowCounter) (key : string) (index : Z) : WindowCounter :=
  let counter := default (MkCounter index 0 0) (counters !! key) in
  let counter := roll counter index in
  MkCounter (window_index counter) (wrapping_add 64 (current counter) 1) (previous counter).

Definition check (l : SlidingWindowLimiter) (key : string) (now_ms : Z)
  : LimitDecision * SlidingWindowLimiter :=
  let index := now_ms / window_ms l in
  let counters := evict l key in
  let counter := bump counters key index in
  let l' := MkLimiter (window_ms l) (limit l) (max_keys l) (<[key := counter]> counters) in
  (if f64_le (estimate counter (window_ms l) now_ms) (f64_of_u64 (limit l)) then Allow else Deny, l').

(** ** Rules *)

Inductive Action := Challenge | Throttle | Block.

Inductive Verdict :=
| Verdict_Allow
| Verdict_Deny (rule : string) (action : Action).

#[export] Instance Action_eq_dec : EqDecision Action.
Proof. solve_decision. Defined.
#[export] Instance Verdict_eq_dec : EqDecision Verdict.
Proof. solve_decision. Defined.

Record Rule := MkRule { rule_name : string; limiter : SlidingWindowLimiter; action : Action }.

Record RuleSet := MkRuleSet { rules : list Rule }.

Definition RuleSet_new : RuleSet := MkRuleSet [].

(** [None] is the panic of the limiter's constructor. *)
Definition rule (rs : RuleSet) (name : string) (window_ms limit : Z) (action : Action) : option RuleSet :=
  l ← SlidingWindowLimiter_new window_ms limit;
  Some (MkRuleSet (rules rs ++ [MkRule name l action])).

(** The loop of [evaluate]. *)
Fixpoint evaluate_rules (rs : list Rule) (verdict : Verdict) (key : string) (now_ms : Z)
  : Verdict * list Rule :=
  match rs with
  | [] => (verdict, [])
  | r :: rs =>
      let (d, l') := check (limiter r) key now_ms in
      let denied := bool_decide (d = Deny) in
      let verdict :=
        if denied && bool_decide (verdict = Verdict_Allow)
        then Verdict_Deny (rule_name r) (action r) else verdict in
      let (v, rs') := evaluate_rules rs verdict key now_ms in
      (v, MkRule (rule_name r) l' (action r) :: rs')
  end.

Definition evaluate (rs : RuleSet) (key : string) (now_ms : Z) : Verdict * RuleSet :=
  let (v, rs') := evaluate_rules (rules rs) Verdict_Allow key now_ms in (v, MkRuleSet rs').

(** ** Bounded memory *)

Definition limiter_ok (l : SlidingWindowLimiter) : Prop :=
  0 < window_ms l /\ 0 < max_keys l /\ tracked_keys l <= max_keys l.

Lemma check_ok l key now : limiter_ok l -> limiter_ok (check l key now).2.
Proof.
  intros Hl. split_and!; [apply Hl | apply Hl|]. unfold tracked_keys. simpl.
  apply hm_make_room_size; apply Hl.
Qed.

(** A sequence of hits. *)
Fixpoint hits (l : SlidingWindowLimiter) (hs : list (string * Z)) : SlidingWindowLimiter :=
  match hs with
  | [] => l
  | (key, now) :: hs => hits (check l key now).2 hs
  end.

Lemma hits_app l hs hs' : hits l (hs ++ hs') = hits (hits l hs) hs'.
Proof. revert l; induction hs as [|[k n] hs IH]; intros l; simpl; [done | apply IH]. Qed.

Lemma hits_config l hs :
  window_ms (hits l hs) = window_ms l /\ limit (hits l hs) = limit l /\ max_keys (hits l hs) = max_keys l.
Proof. revert l; induction hs as [|[k n] hs IH]; intros l; simpl; [done|]. apply (IH (check l k n).2). Qed.

Lemma hits_ok l hs : limiter_ok l -> limiter_ok (hits l hs).
Proof. revert l; induction hs as [|[k n] hs IH]; intros l Hl; simpl; [done|]. by apply IH, check_ok. Qed.

(** Memory is bounded.  A limiter that its constructor accepts never tracks
    more than [max_keys] keys, whatever keys are thrown at it in whatever
    order, and whichever key the hash map offers for eviction. *)
Theorem limiter_memory_bounded w lim cap l hs :
  with_capacity w lim cap = Some l -> 0 <= tracked_keys (hits l hs) <= cap.
Proof.
  unfold with_capacity. destruct (Z.ltb_spec 0 w), (Z.ltb_spec 0 cap); intros E; simplify_eq/=.
  destruct (hits_ok (MkLimiter w lim cap ∅) hs) as (_ & _ & Ht).
  - split_and!; simpl; try done. unfold tracked_keys; simpl. rewrite map_size_empty. lia.
  - destruct (hits_config (MkLimiter w lim cap ∅) hs) as (_ & _ & E). rewrite E in Ht. simpl in Ht.
    unfold tracked_keys in *. lia.
Qed.

(** ** The counters count *)

Definition is_hit (w : Z) (key : string) (idx : Z) (h : string * Z) : bool :=
  bool_decide (h.1 = key) && (h.2 / w =? idx).

(** How many of the hits are of [key] in window [idx]. *)
Definition count_in (w : Z) (key : string) (idx : Z) (hs : list (string * Z)) : Z :=
  Z.of_nat (length (List.filter (is_hit w key idx) hs)).

Lemma count_in_snoc w key idx hs h :
  count_in w key idx (hs ++ [h]) = count_in w key idx hs + (if is_hit w key idx h then 1 else 0).
Proof.
  unfold count_in. rewrite List.filter_app, length_app. simpl. destruct (is_hit w key idx h); simpl; lia.
Qed.

Lemma count_in_le w key idx hs : 0 <= count_in w key idx hs <= Z.of_nat (length hs).
Proof. unfold count_in. pose proof (List.filter_length_le (is_hit w key idx) hs). lia. Qed.

Lemma count_in_zero w key idx hs :
  (forall h, h ∈ hs -> h.1 = key -> h.2 / w <> idx) -> count_in w key idx hs = 0.
Proof.
  intros Hn. unfold count_in. destruct (List.filter (is_hit w key idx) hs) as [|h l] eqn:E; [done|].
  exfalso. assert (In h (List.filter (is_hit w key idx) hs)) as Hin by (rewrite E; by left).
  apply filter_In in Hin as [Hin Hh]. unfold is_hit in Hh.
  apply andb_true_iff in Hh as [H1%bool_decide_eq_true H2%Z.eqb_eq].
  by apply (Hn h); [apply list_elem_of_In|..].
Qed.

(** The counter [c] of [key] is right for the hits [hs]. *)
Definition counter_ok (w : Z) (hs : list (string * Z)) (key : string) (c : WindowCounter) : Prop :=
  (exists h, h ∈ hs /\ h.1 = key /\ h.2 / w = window_index c) /\
  (forall h, h ∈ hs -> h.1 = key -> h.2 / w <= window_index c) /\
  current c = count_in w key (window_index c) hs /\
  previous c = count_in w key (window_index c - 1) hs.

(** Every key that was hit has a right counter, and no other key has one. *)
Definition counts (l : SlidingWindowLimiter) (hs : list (string * Z)) : Prop :=
  dom (counters l) = list_to_set (hs.*1) /\
  forall key c, counters l !! key = Some c -> counter_ok (window_ms l) hs key c.

(** The clock does not go back before this hit. *)
Definition latest (hs : list (string * Z)) (now : Z) : Prop := forall h, h ∈ hs -> 0 <= h.2 <= now.

(** No key has to be evicted for the hits. *)
Definition fits_keys (cap : Z) (hs : list (string * Z)) : Prop :=
  Z.of_nat (size (list_to_set (hs.*1) : gset string)) <= cap.

Lemma evict_fits l hs key now :
  counts l hs -> fits_keys (max_keys l) (hs ++ [(key, now)]) -> evict l key = counters l.
Proof.
  intros [Hd _] Hf. unfold evict, hm_make_room. fold (tracked_keys l). case_bool_decide as Hk; [|by rewrite andb_false_r].
  destruct (Z.leb_spec (max_keys l) (tracked_keys l)) as [Hc|]; [|done]. exfalso.
  unfold tracked_keys, fits_keys in *. rewrite <- size_dom, Hd in Hc.
  rewrite fmap_app, list_to_set_app_L in Hf. simpl in Hf.
  rewrite union_empty_r_L, size_union, size_singleton in Hf; [lia|].
  rewrite <- Hd. apply disjoint_singleton_r. by apply not_elem_of_dom.
Qed.

(** The hit's own counter: in the window of the hit, with all hits counted. *)
Lemma bump_counts l hs key now :
  0 < window_ms l -> counts l hs -> latest hs now -> 0 <= now < 2 ^ 64 - 1 ->
  Z.of_nat (length hs) + 1 < 2 ^ 64 ->
  let idx := now / window_ms l in
  bump (counters l) key idx =
  MkCounter idx (count_in (window_ms l) key idx hs + 1) (count_in (window_ms l) key (idx - 1) hs).
Proof.
  intros Hw [Hd Hc] Hl Hn Hlen idx.
  assert (0 <= idx <= now) as Hidx.
  { unfold idx. split; [apply Z.div_pos; lia|]. apply Z.div_le_upper_bound; nia. }
  assert (forall i, wrapping_add 64 (count_in (window_ms l) key i hs) 1 =
                    count_in (window_ms l) key i hs + 1) as Hwrap.
  { intros i. apply wrapping_add_small. pose proof (count_in_le (window_ms l) key i hs). lia. }
  unfold bump. destruct (counters l !! key) as [c|] eqn:E; cbn [default].
  - destruct (Hc key c E) as ((h & Hh & Hhk & Hhw) & Hmax & Hcur & Hprev). apply Hl in Hh.
    assert (0 <= window_index c <= idx) as Hle.
    { rewrite <- Hhw. split; [apply Z.div_pos; lia|]. apply Z.div_le_mono; lia. }
    unfold roll. rewrite (wrapping_add_small 64 (window_index c)) by lia. case_cmp; simpl; subst.
    + rewrite (count_in_zero _ _ idx) by (intros h' Hh' Hk'; specialize (Hmax h' Hh' Hk'); lia).
      rewrite Hcur. replace (idx - 1) with (window_index c) by lia. done.
    + rewrite !count_in_zero by (intros h' Hh' Hk'; specialize (Hmax h' Hh' Hk'); lia). done.
    + assert (window_index c = idx) as Ew by lia. rewrite Ew in *. by rewrite Hcur, Hprev, Hwrap.
  - assert (forall h, h ∈ hs -> h.1 <> key) as Hno.
    { intros h Hh <-. apply not_elem_of_dom in E. apply E. rewrite Hd. apply elem_of_list_to_set.
      by apply list_elem_of_fmap_2. }
    unfold roll. simpl. rewrite (wrapping_add_small 64 idx) by lia. case_cmp; [lia|lia|].
    rewrite !count_in_zero by (intros h Hh Hk; by destruct (Hno h Hh)). done.
Qed.

Lemma check_counts l hs key now :
  0 < window_ms l -> counts l hs -> latest hs now -> 0 <= now < 2 ^ 64 - 1 ->
  Z.of_nat (length hs) + 1 < 2 ^ 64 -> fits_keys (max_keys l) (hs ++ [(key, now)]) ->
  counts (check l key now).2 (hs ++ [(key, now)]).
Proof.
  intros Hw Hc Hl Hn Hlen Hf. unfold check; simpl. rewrite (evict_fits l hs key now Hc Hf).
  rewrite (bump_counts l hs key now) by done. set (idx := now / window_ms l). split; simpl.
  - rewrite dom_insert_L, (proj1 Hc), fmap_app, list_to_set_app_L. simpl. by rewrite union_empty_r_L, (union_comm_L {[key]}).
  - intros key' c [[<- <-]|[Hne Hk]]%lookup_insert_Some.
    + split_and!; simpl.
      * exists (key, now). split_and!; [apply elem_of_app; auto using list_elem_of_here | done | done].
      * intros h Hh Hk. apply elem_of_app in Hh as [Hh|Hh].
        -- apply Hl in Hh. apply Z.div_le_mono; lia.
        -- apply list_elem_of_singleton in Hh as ->. done.
      * rewrite count_in_snoc. unfold is_hit; simpl. rewrite bool_decide_true by done.
        fold idx. by rewrite Z.eqb_refl.
      * rewrite count_in_snoc. unfold is_hit; simpl. fold idx.
        destruct (Z.eqb_spec idx (idx - 1)); [lia|]. rewrite andb_false_r. lia.
    + destruct (proj2 Hc key' c Hk) as ((h & Hh & Hhk & Hhw) & Hmax & Hcur & Hprev).
      assert (forall i, count_in (window_ms l) key' i (hs ++ [(key, now)]) = count_in (window_ms l) key' i hs) as Heq.
      { intros i. rewrite count_in_snoc. unfold is_hit; simpl. rewrite bool_decide_false by done. simpl. lia. }
      split_and!; rewrite ?Heq; try done.
      * exists h. split_and!; [apply elem_of_app; auto using list_elem_of_here | done | done].
      * intros h' Hh' Hk'. apply elem_of_app in Hh' as [Hh'|Hh']; [by apply Hmax|].
        apply list_elem_of_singleton in Hh' as ->. done.
Qed.

(** Hits with a clock that does not go back, below the end of time. *)
Inductive monotone : list (string * Z) -> Prop :=
| monotone_nil : monotone []
| monotone_snoc hs key now : monotone hs -> latest hs now -> 0 <= now < 2 ^ 64 - 1 ->
    monotone (hs ++ [(key, now)]).

Lemma monotone_inv hs key now :
  monotone (hs ++ [(key, now)]) -> monotone hs /\ latest hs now /\ 0 <= now < 2 ^ 64 - 1.
Proof.
  remember (hs ++ [(key, now)]) as hs' eqn:E. intros Hm. destruct Hm as [|hs' key' now' Hm Hl Hn].
  - by destruct hs.
  - apply app_inj_tail in E as [-> E]. by simplify_eq.
Qed.

Lemma fits_keys_app cap hs hs' : fits_keys cap (hs ++ hs') -> fits_keys cap hs.
Proof.
  unfold fits_keys. rewrite fmap_app, list_to_set_app_L. intros H.
  assert (size (list_to_set (hs.*1) : gset string) <= size (list_to_set (hs.*1) ∪ list_to_set (hs'.*1) : gset string))%nat;
    [apply subseteq_size, union_subseteq_l | lia].
Qed.

Lemma hits_counts w lim cap hs :
  0 < w -> monotone hs -> fits_keys cap hs -> Z.of_nat (length hs) < 2 ^ 64 ->
  counts (hits (MkLimiter w lim cap ∅) hs) hs.
Proof.
  intros Hw. induction 1 as [|hs key now Hm IH Hl Hn]; intros Hf Hlen.
  - split; [apply dom_empty_L | intros key c; cbn [hits counters]; by rewrite lookup_empty].
  - rewrite length_app in Hlen; simpl in Hlen. rewrite hits_app. simpl.
    destruct (hits_config (MkLimiter w lim cap ∅) hs) as (Ew & _ & Ec).
    apply check_counts; rewrite ?Ew, ?Ec; try done; [|lia].
    apply IH; [by eapply fits_keys_app | lia].
Qed.

(** ** Decisions *)

Lemma estimate_deny w now c lim :
  0 < w -> 0 < current c < 2 ^ 53 -> 0 <= previous c -> 0 <= lim < current c ->
  f64_le (estimate c w now) (f64_of_u64 lim) = false.
Proof.
  intros Hw Hc Hp Hl. unfold estimate. apply f64_add_not_le; [lia | lia|].
  apply f64_mul_not_negative; [by apply of_u64_not_negative|].
  pose proof (Z.mod_pos_bound now w Hw).
  apply f64_div_not_negative; apply of_u64_not_negative; lia.
Qed.

Lemma estimate_fresh w now c :
  0 < w < 2 ^ 64 -> 0 < current c < 2 ^ 53 -> previous c = 0 ->
  estimate c w now = f64_of_u64 (current c).
Proof.
  intros Hw Hc Hp. unfold estimate. rewrite Hp. pose proof (Z.mod_pos_bound now w ltac:(lia)).
  pose proof (f64_div_finite (w - now mod w) w ltac:(lia) ltac:(lia)) as Hf.
  destruct (of_u64_exact (current c) Hc) as (m & -> & _).
  change (f64_of_u64 0) with (S754_zero false).
  by destruct (f64_div _ _) as [s|s| |s m' e'].
Qed.

(** The count of both windows, the previous one weighted by the part of it that is
    still in the trailing window, times the length of a window. *)
Definition weighted (c : WindowCounter) (window_ms now_ms : Z) : Z :=
  current c * window_ms + previous c * (window_ms - now_ms mod window_ms).

(** The rounded estimate is on the same side of the limit as the weighted count. *)
Lemma estimate_weighted w now c lim :
  0 < w < 2 ^ 53 -> 0 < current c < 2 ^ 53 -> 0 <= previous c < 2 ^ 53 -> 0 <= lim -> lim * w < 2 ^ 50 ->
  (lim * w < weighted c w now -> f64_le (estimate c w now) (f64_of_u64 lim) = false) /\
  (weighted c w now < lim * w -> f64_le (estimate c w now) (f64_of_u64 lim) = true).
Proof.
  intros Hw Hc Hp Hl Hb. pose proof (Z.mod_pos_bound now w ltac:(lia)) as Hm. unfold weighted.
  assert (lim < 2 ^ 50) as Hl50 by nia.
  destruct (decide (previous c = 0)) as [E|Hp0].
  { rewrite estimate_fresh, f64_le_of_u64, E by lia.
    split; intros HN; [apply Z.leb_gt | apply Z.leb_le]; nia. }
  destruct (decide (lim = 0)) as [->|Hl0].
  { split; intros HN; [by apply estimate_deny; lia | nia]. }
  destruct (div_near (w - now mod w) w) as (vw & Hnw & Hvw); [lia | lia|].
  destruct (mul_near (previous c) _ vw 200 ltac:(lia) Hnw) as (vm & Hnm & Hvm); [lia|].
  destruct (add_near (current c) _ vm 310 ltac:(lia) Hnm) as (ve & Hne & Hve); [lia|].
  pose proof (normal_weaken _ _ 52 370 (of_u64_normal lim ltac:(lia)) ltac:(lia)) as Hnl.
  unfold estimate. rewrite (normal_le _ _ _ _ _ Hne Hnl) by lia.
  assert (0 < UNIT) as HU by (apply (units_pos 0); unfold SCALE; lia).
  split; intros HN; [apply Z.leb_gt | apply Z.leb_le].
  - apply (chain_above (current c) (previous c) (w - now mod w) w lim UNIT vw vm ve); (done || lia).
  - apply (chain_below (current c) (previous c) (w - now mod w) w lim UNIT vw vm ve); (done || lia).
Qed.

(** The verdict in terms of the counts of the two windows. *)
Lemma limiter_verdict w lim cap l hs key now :
  with_capacity w lim cap = Some l -> w < 2 ^ 64 ->
  monotone (hs ++ [(key, now)]) -> fits_keys cap (hs ++ [(key, now)]) ->
  0 <= lim < 2 ^ 53 -> Z.of_nat (length hs) + 1 < 2 ^ 53 ->
  let n := count_in w key (now / w) (hs ++ [(key, now)]) in
  let p := count_in w key (now / w - 1) hs in
  let weight := w - now mod w in
  (w < 2 ^ 53 -> lim * w < 2 ^ 50 ->
     (lim * w < n * w + p * weight -> (check (hits l hs) key now).1 = Deny) /\
     (n * w + p * weight < lim * w -> (check (hits l hs) key now).1 = Allow)) /\
  (lim < n -> (check (hits l hs) key now).1 = Deny) /\
  (p = 0 -> (check (hits l hs) key now).1 = Allow <-> n <= lim).
Proof.
  intros Hnew Hw Hm Hf Hlim Hlen n p weight. unfold with_capacity in Hnew.
  destruct (Z.ltb_spec 0 w), (Z.ltb_spec 0 cap); simpl in Hnew; try discriminate.
  injection Hnew as <-.
  destruct (monotone_inv hs key now Hm) as (Hm' & Hl & Hn).
  pose proof (hits_counts w lim cap hs ltac:(lia) Hm' (fits_keys_app _ _ _ Hf) ltac:(lia)) as Hc.
  destruct (hits_config (MkLimiter w lim cap ∅) hs) as (Ew & El & Ecap). simpl in Ew, El, Ecap.
  set (l := hits _ hs) in *.
  assert (check l key now = (if f64_le (estimate (MkCounter (now / w) n p) w now)
            (f64_of_u64 lim) then Allow else Deny, (check l key now).2)) as ->.
  { unfold check. rewrite (evict_fits l hs key now Hc) by (by rewrite Ecap).
    rewrite (bump_counts l hs key now) by (rewrite ?Ew; (done || lia)). simpl.
    rewrite Ew, El. unfold n. rewrite count_in_snoc. unfold is_hit. simpl.
    rewrite bool_decide_true, Z.eqb_refl by done. done. }
  assert (1 <= n <= Z.of_nat (length hs) + 1) as Hn'.
  { unfold n. rewrite count_in_snoc. unfold is_hit; simpl. rewrite bool_decide_true, Z.eqb_refl by done. simpl.
    pose proof (count_in_le w key (now / w) hs). lia. }
  pose proof (count_in_le w key (now / w - 1) hs) as Hp. fold p in Hp. cbn [fst]. split_and!.
  - intros Hw53 Hb. destruct (estimate_weighted w now (MkCounter (now / w) n p) lim) as [Hd Ha]; [simpl; lia..|].
    split; intros HN; [by rewrite Hd | by rewrite Ha].
  - intros Hd. by rewrite estimate_deny by (simpl; lia).
  - intros Hz. rewrite estimate_fresh by (simpl; lia). simpl. rewrite f64_le_of_u64 by lia.
    destruct (Z.leb_spec n lim); split; (done || lia).
Qed.

(** The first hit of a limiter is within any positive limit. *)
Lemma first_hit_allowed w lim cap l key now :
  with_capacity w lim cap = Some l -> w < 2 ^ 64 -> 1 <= lim < 2 ^ 53 -> 0 <= now < 2 ^ 64 - 1 ->
  (check l key now).1 = Allow.
Proof.
  intros Hl Hw Hlim Hn. assert (0 < cap) as Hcap by (unfold with_capacity in Hl; destruct (Z.ltb_spec 0 w), (Z.ltb_spec 0 cap); done).
  destruct (limiter_verdict w lim cap l [] key now Hl Hw) as (_ & _ & H0).
  - apply (monotone_snoc []); [constructor | by intros h ?%elem_of_nil | done].
  - unfold fits_keys. cbn [app fmap list_fmap list_to_set fst]. rewrite union_empty_r_L, size_singleton. lia.
  - lia.
  - simpl. lia.
  - apply H0; [done|]. unfold count_in, is_hit. cbn [app List.filter fst snd]. rewrite bool_decide_true, Z.eqb_refl by done. simpl. lia.
Qed.

(** C36: the limiter enforces its limit on the sliding window.  Take any history of
    hits with a clock that does not go back and few enough keys that none is
    evicted.  Let [n] count the hits of the key in the current window, this one
    included, and [p] those in the previous one.  If [limit] times the window is
    below [2^50], the hit is denied when the weighted count [n + p * (w - now mod
    w) / w] exceeds the limit and allowed when it is below it, in spite of the
    three roundings of the estimate (at exact equality the rounding
    decides).  For larger limits and windows too, it is denied when
    [n] alone exceeds the limit, and if [p] is 0 it is allowed exactly when [n]
    is at most the limit. *)
Theorem limiter_enforces_limit w lim cap l hs key now :
  with_capacity w lim cap = Some l -> w < 2 ^ 64 ->
  monotone (hs ++ [(key, now)]) -> fits_keys cap (hs ++ [(key, now)]) ->
  0 <= lim < 2 ^ 53 -> Z.of_nat (length hs) + 1 < 2 ^ 53 ->
  let n := count_in w key (now / w) (hs ++ [(key, now)]) in
  let p := count_in w key (now / w - 1) hs in
  let weight := w - now mod w in
  (w < 2 ^ 53 -> lim * w < 2 ^ 50 ->
     (lim * w < n * w + p * weight -> (check (hits l hs) key now).1 = Deny) /\
     (n * w + p * weight < lim * w -> (check (hits l hs) key now).1 = Allow)) /\
  (lim < n -> (check (hits l hs) key now).1 = Deny) /\
  (p = 0 -> (check (hits l hs) key now).1 = Allow <-> n <= lim).
Proof. apply limiter_verdict. Qed.

(** ** Rule sets *)

(** The verdict of one rule, were it alone. *)
Definition rule_verdict (r : Rule) (key : string) (now : Z) : Verdict :=
  match (check (limiter r) key now).1 with
  | Deny => Verdict_Deny (rule_name r) (action r)
  | Allow => Verdict_Allow
  end.

(** The first verdict that is not [Verdict_Allow]. *)
Fixpoint first_denial (vs : list Verdict) : Verdict :=
  match vs with
  | [] => Verdict_Allow
  | Verdict_Allow :: vs => first_denial vs
  | v :: _ => v
  end.

Lemma evaluate_rules_spec rs v key now :
  evaluate_rules rs v key now =
  (match v with Verdict_Allow => first_denial (map (fun r => rule_verdict r key now) rs) | _ => v end,
   map (fun r => MkRule (rule_name r) (check (limiter r) key now).2 (action r)) rs).
Proof.
  revert v; induction rs as [|r rs IH]; intros v; [by destruct v|].
  cbn [evaluate_rules map first_denial]. 
  assert (rule_verdict r key now =
          match (check (limiter r) key now).1 with
          | Deny => Verdict_Deny (rule_name r) (action r)
          | Allow => Verdict_Allow
          end) as -> by done.
  destruct (check (limiter r) key now) as [d l']; simpl. rewrite IH.
  by destruct d, v.
Qed.

(** A rule set records the request with every rule, tripped or not, and its
    verdict is the one of the first rule in insertion order that trips. *)
Theorem ruleset_first_match rs key now :
  (evaluate rs key now).1 = first_denial (map (fun r => rule_verdict r key now) (rules rs)) /\
  rules (evaluate rs key now).2 =
    map (fun r => MkRule (rule_name r) (check (limiter r) key now).2 (action r)) (rules rs).
Proof. unfold evaluate. by rewrite evaluate_rules_spec. Qed.

End limiter.

(** ** Concrete instances *)

#[local] Instance sample_string_order : HashOrder string := default_order string.

Lemma limiter_memory_bounded_witness :
  tracked_keys (hits (MkLimiter 1000 5 2 ∅) [("a", 0); ("b", 0); ("c", 1); ("d", 2)]%string) <= 2.
Proof. apply (limiter_memory_bounded 1000 5 2 (MkLimiter 1000 5 2 ∅)). reflexivity. Defined.

(** Nine tenths of the previous window still count: 2 * 0.9 + 1 > 2. *)
Lemma limiter_enforces_limit_witness :
  (check (hits (MkLimiter 1000 2 100 ∅) [("ip-1", 5); ("ip-1", 6)]%string) "ip-1" 1100).1 = Deny.
Proof.
  destruct (limiter_enforces_limit 1000 2 100 (MkLimiter 1000 2 100 ∅) [("ip-1", 5); ("ip-1", 6)]%string "ip-1" 1100)
    as [Hweighted _].
  - reflexivity.
  - lia.
  - apply (monotone_snoc [("ip-1", 5); ("ip-1", 6)]%string).
    + apply (monotone_snoc [("ip-1", 5)]%string).
      * apply (monotone_snoc []); [constructor | by intros h ?%elem_of_nil | lia].
      * intros h ->%list_elem_of_singleton. simpl. lia.
      * lia.
    + intros h [->|[->|[]%elem_of_nil]%elem_of_cons]%elem_of_cons; simpl; lia.
    + lia.
  - vm_compute. discriminate.
  - lia.
  - simpl. lia.
  - apply Hweighted; [lia | lia | vm_compute; reflexivity].
Defined.
