(* ===== verification/Sketch.v ===== *)
(** * The Count-Min sketch ([onced-core/src/sketch.rs])

    [DefaultHasher] does not specify its function, so the hash of a row index
    and a key is a parameter; the theorem holds for every hash. *)

From S2P Require Import Prelude Machine.

Record CountMinSketch := MkSketch { depth : Z; width : Z; counters : list Z }.

Section sketch.
(** [row.hash(h); key.hash(h); h.finish()]. *)
Context (hash : Z -> string -> Z).

(** [None] is the panic of the assertion. *)
Definition CountMinSketch_new (depth width : Z) : option CountMinSketch :=
  if (0 <? depth) && (0 <? width)
  then Some (MkSketch depth width (replicate (Z.to_nat (wrapping_mul 64 depth width)) 0))
  else None.

Definition column (s : CountMinSketch) (row : Z) (key : string) : Z := hash row key mod width s.

(** The index of the cell of [key] in [row]. *)
Definition cell (s : CountMinSketch) (row : Z) (key : string) : nat :=
  Z.to_nat (row * width s + column s row key).

(** [0..depth]. *)
Definition rows (s : CountMinSketch) : list Z := map Z.of_nat (seq 0 (Z.to_nat (depth s))).

Definition add_row (key : string) (count : Z) (s : CountMinSketch) (row : Z) : CountMinSketch :=
  MkSketch (depth s) (width s) (alter (fun c => saturating_add 64 c count) (cell s row key) (counters s)).

Definition add (s : CountMinSketch) (key : string) (count : Z) : CountMinSketch :=
  fold_left (add_row key count) (rows s) s.

(** [iter.min()]. *)
Definition list_min (l : list Z) : option Z :=
  match l with [] => None | x :: l => Some (fold_left Z.min l x) end.

Definition estimate (s : CountMinSketch) (key : string) : Z :=
  default 0 (list_min (map (fun row => counters s !!! cell s row key) (rows s))).

(** ** What a cell holds *)

(** The counts of the additions that fall on column [col] of [row]. *)
Definition column_total (w row col : Z) (adds : list (string * Z)) : Z :=
  foldr Z.add 0 (map (fun kc => if hash row kc.1 mod w =? col then kc.2 else 0) adds).

(** The counts of the additions of [key]. *)
Definition key_total (key : string) (adds : list (string * Z)) : Z :=
  foldr Z.add 0 (map (fun kc => if String.eqb kc.1 key then kc.2 else 0) adds).

Definition sat (z : Z) : Z := Z.min z (uint_max 64).

Definition add_all (s : CountMinSketch) (adds : list (string * Z)) : CountMinSketch :=
  fold_left (fun s kc => add s kc.1 kc.2) adds s.

Lemma add_rows_shape key count rs s :
  let s' := fold_left (add_row key count) rs s in
  depth s' = depth s /\ width s' = width s /\ length (counters s') = length (counters s).
Proof.
  revert s; induction rs as [|r rs IH]; intros s; [done|]. cbn [fold_left].
  destruct (IH (add_row key count s r)) as (-> & -> & ->). simpl. by rewrite length_alter.
Qed.

Lemma add_all_shape s adds :
  depth (add_all s adds) = depth s /\ width (add_all s adds) = width s /\
  length (counters (add_all s adds)) = length (counters s).
Proof.
  revert s; induction adds as [|[k c] adds IH]; intros s; [done|].
  change (add_all s ((k, c) :: adds)) with (add_all (add s k c) adds).
  destruct (IH (add s k c)) as (-> & -> & ->). apply add_rows_shape.
Qed.

(** Cells of different rows are different. *)
Lemma cell_index_inj w r c r' c' :
  0 <= c < w -> 0 <= c' < w -> 0 <= r -> 0 <= r' ->
  Z.to_nat (r * w + c) = Z.to_nat (r' * w + c') -> r = r' /\ c = c'.
Proof.
  intros Hc Hc' Hr Hr' E. assert (0 <= r * w) by nia. assert (0 <= r' * w) by nia.
  assert (r * w + c = r' * w + c') as E' by lia.
  assert (r = r'); [|subst; lia].
  rewrite (Z.div_unique (r * w + c) w r c), (Z.div_unique (r' * w + c') w r' c') by lia.
  by rewrite E'.
Qed.

(** One addition over some rows: the cells of the key in those rows, once each. *)
Lemma add_rows_cell key count n s row col :
  0 < width s -> 0 <= row -> 0 <= col < width s ->
  counters (fold_left (add_row key count) (map Z.of_nat (seq 0 n)) s)
    !! Z.to_nat (row * width s + col) =
  (if (row <? Z.of_nat n) && (hash row key mod width s =? col)
   then fun c => saturating_add 64 c count else fun c => c) <$> counters s !! Z.to_nat (row * width s + col).
Proof.
  intros Hw Hr Hc. induction n as [|n IH].
  - destruct (Z.ltb_spec row (Z.of_nat 0)); [lia|]. cbn [andb]. by rewrite option_fmap_id.
  - rewrite seq_S, map_app, fold_left_app. simpl fold_left at 1.
    destruct (add_rows_shape key count (map Z.of_nat (seq 0 n)) s) as (_ & Ew & _).
    set (s1 := fold_left _ _ s) in *. unfold add_row; simpl. unfold cell, column. rewrite Ew.
    pose proof (Z.mod_pos_bound (hash (Z.of_nat n) key) (width s) Hw) as Hm.
    destruct (decide (row = Z.of_nat n /\ hash row key mod width s = col)) as [[-> Hcol]|Hne].
    + rewrite Hcol, list_lookup_alter_eq, IH, Z.eqb_refl.
      destruct (Z.ltb_spec (Z.of_nat n) (Z.of_nat n)), (Z.ltb_spec (Z.of_nat n) (Z.of_nat (S n))); try lia.
      cbn [andb]. by rewrite option_fmap_id.
    + rewrite list_lookup_alter_ne.
      * rewrite IH. destruct (Z.eqb_spec (hash row key mod width s) col);
          destruct (Z.ltb_spec row (Z.of_nat n)), (Z.ltb_spec row (Z.of_nat (S n))); try done; try lia.
      * intros E. apply cell_index_inj in E as [E1 E2]; [|lia..]. subst. tauto.
Qed.

(** Saturating additions in sequence saturate the sum. *)
Lemma sat_add a c : 0 <= c -> saturating_add 64 (sat a) c = sat (a + c).
Proof. unfold saturating_add, sat, uint_max. lia. Qed.

Lemma column_total_snoc w row col adds k c :
  column_total w row col (adds ++ [(k, c)]) =
  column_total w row col adds + (if hash row k mod w =? col then c else 0).
Proof.
  unfold column_total. rewrite map_app, foldr_app. simpl. generalize (if hash row k mod w =? col then c else 0).
  intros z. induction (map _ adds) as [|x l IH]; simpl; [lia|]. rewrite IH. lia.
Qed.

(** A cell holds the saturated total of what was added to its column. *)
Lemma cell_total d w adds row col :
  0 < w -> d * w < 2 ^ 64 -> 0 <= row < d -> 0 <= col < w ->
  Forall (fun kc => 0 <= kc.2) adds ->
  counters (add_all (MkSketch d w (replicate (Z.to_nat (d * w)) 0)) adds) !! Z.to_nat (row * w + col)
  = Some (sat (column_total w row col adds)).
Proof.
  intros Hw Hdw Hr Hc Hadds. set (s0 := MkSketch d w _).
  induction adds as [|[k c] adds IH] using rev_ind.
  - simpl. rewrite lookup_replicate_2; [done|]. nia.
  - apply Forall_app in Hadds as [Hadds Hkc]. inversion Hkc as [|? ? Hc0 _]; subst. simpl in Hc0.
    unfold add_all in *. rewrite fold_left_app. simpl fold_left at 1. unfold add, rows.
    destruct (add_all_shape s0 adds) as (Ed & Ew & _). unfold add_all in Ed, Ew.
    set (s1 := fold_left _ adds s0) in *.
    pose proof (add_rows_cell k c (Z.to_nat (depth s1)) s1 row col) as Hcell.
    rewrite Ew in Hcell. simpl width in Hcell. rewrite Hcell by lia. clear Hcell.
    rewrite Ed. simpl depth. rewrite Z2Nat.id by lia.
    destruct (Z.ltb_spec row d); [|lia]. rewrite IH by done. rewrite column_total_snoc. cbn [andb].
    destruct (hash row k mod w =? col); simpl; [by rewrite sat_add|]. by rewrite Z.add_0_r.
Qed.

Lemma fold_min_init l x : fold_left Z.min l x <= x.
Proof. revert x; induction l as [|z l IH]; intros x; simpl; [lia|]. specialize (IH (Z.min x z)). lia. Qed.

Lemma fold_min_le l x y : y ∈ x :: l -> fold_left Z.min l x <= y.
Proof.
  revert x; induction l as [|z l IH]; intros x Hy; simpl.
  - apply list_elem_of_singleton in Hy. lia.
  - pose proof (fold_min_init l (Z.min x z)).
    apply elem_of_cons in Hy as [->|Hy]; [lia|].
    apply elem_of_cons in Hy as [->|Hy]; [lia|]. apply IH. by right.
Qed.

Lemma fold_min_ge l x b : b <= x -> Forall (fun y => b <= y) l -> b <= fold_left Z.min l x.
Proof. intros Hx Hl. revert x Hx; induction Hl as [|y l Hy _ IH]; intros x Hx; simpl; [done|]. apply IH. lia. Qed.

Lemma key_total_le w row key adds :
  Forall (fun kc => 0 <= kc.2) adds ->
  key_total key adds <= column_total w row (hash row key mod w) adds.
Proof.
  induction 1 as [|[k c] adds Hc _ IH]; unfold key_total, column_total in *; simpl in *; [lia|].
  destruct (String.eqb_spec k key) as [->|]; [rewrite Z.eqb_refl; lia|].
  destruct (_ =? _); lia.
Qed.

(** The estimate between the total of the key and the totals of its columns. *)
Lemma sketch_bounds d w s key adds :
  CountMinSketch_new d w = Some s -> d * w < 2 ^ 64 -> Forall (fun kc => 0 <= kc.2) adds ->
  sat (key_total key adds) <= estimate (add_all s adds) key /\
  (forall row, 0 <= row < d ->
     estimate (add_all s adds) key <= sat (column_total w row (hash row key mod w) adds)) /\
  (forall row, 0 <= row < d -> Forall (fun kc => kc.1 <> key -> hash row kc.1 mod w <> hash row key mod w) adds ->
     estimate (add_all s adds) key = sat (key_total key adds)).
Proof.
  unfold CountMinSketch_new. intros Hnew Hdw Hadds.
  destruct (Z.ltb_spec 0 d), (Z.ltb_spec 0 w); simpl in Hnew; try discriminate. injection Hnew as <-.
  unfold wrapping_mul. rewrite wrap_small by (unfold in_uint; nia).
  set (s0 := MkSketch d w _). destruct (add_all_shape s0 adds) as (Ed & Ew & _).
  assert (forall row, 0 <= row < d ->
    counters (add_all s0 adds) !!! cell (add_all s0 adds) row key =
    sat (column_total w row (hash row key mod w) adds)) as Hcell.
  { intros row Hrow. apply list_lookup_total_correct. unfold cell, column. rewrite Ew. simpl width.
    apply cell_total; try done. apply Z.mod_pos_bound. lia. }
  assert (exists vs, map (fun row => counters (add_all s0 adds) !!! cell (add_all s0 adds) row key)
                       (rows (add_all s0 adds)) = vs /\ vs <> [] /\
            (forall row, 0 <= row < d -> sat (column_total w row (hash row key mod w) adds) ∈ vs) /\
            Forall (fun v => sat (key_total key adds) <= v) vs) as (vs & Evs & Hne & Hin & Hall).
  { eexists. split; [reflexivity|]. unfold rows. rewrite Ed. simpl depth. split_and!.
    - destruct (Z.to_nat d) eqn:E; [lia | done].
    - intros row Hrow. apply list_elem_of_fmap. exists row. rewrite Hcell by done. split; [done|].
      apply list_elem_of_fmap. exists (Z.to_nat row). split; [lia|]. apply elem_of_seq. lia.
    - apply Forall_map, Forall_map, Forall_forall. intros n Hn%elem_of_seq. rewrite Hcell by lia.
      pose proof (key_total_le w (Z.of_nat n) key adds Hadds). unfold sat. lia. }
  assert (sat (key_total key adds) <= estimate (add_all s0 adds) key) as Hge.
  { unfold estimate. rewrite Evs. destruct vs as [|v vs]; [done|]. simpl.
    inversion Hall; subst. by apply fold_min_ge. }
  assert (forall row, 0 <= row < d ->
     estimate (add_all s0 adds) key <= sat (column_total w row (hash row key mod w) adds)) as Hle.
  { intros row Hrow. unfold estimate. rewrite Evs. specialize (Hin row Hrow).
    destruct vs as [|v vs]; [done|]. simpl. by apply fold_min_le. }
  split_and!; [done | done|]. intros row Hrow Hsep. apply Z.le_antisymm; [|done].
  etransitivity; [by apply (Hle row)|]. unfold sat. apply Z.min_le_compat_r. clear -Hsep.
  induction Hsep as [|[k c] adds Hk _ IH]; unfold key_total, column_total in *; simpl in *; [lia|].
  destruct (String.eqb_spec k key) as [->|Hne]; [rewrite Z.eqb_refl; lia|].
  destruct (Z.eqb_spec (hash row k mod w) (hash row key mod w)); [by destruct (Hk Hne) | lia].
Qed.

(** C37: the sketch never under-estimates, and over-estimates only by
    collisions.  After any additions to a new sketch, the estimate of a key is
    at least the total added for it (saturated at 2^64-1) and at most, for every
    row, the saturated total of the keys that share its column there; so it is
    exact as soon as one row separates the key from all others. *)
Theorem sketch_one_sided d w s key adds :
  CountMinSketch_new d w = Some s -> d * w < 2 ^ 64 -> Forall (fun kc => 0 <= kc.2) adds ->
  sat (key_total key adds) <= estimate (add_all s adds) key /\
  (forall row, 0 <= row < d ->
     estimate (add_all s adds) key <= sat (column_total w row (hash row key mod w) adds)) /\
  (forall row, 0 <= row < d -> Forall (fun kc => kc.1 <> key -> hash row kc.1 mod w <> hash row key mod w) adds ->
     estimate (add_all s adds) key = sat (key_total key adds)).
Proof. apply sketch_bounds. Qed.

End sketch.

(** ** A concrete instance *)

(** A toy hash: the length of the key, shifted by the row. *)
Definition toy_hash (row : Z) (key : string) : Z := (Z.of_nat (String.length key) + row) mod 2 ^ 64.

Lemma sketch_one_sided_witness :
  sat (key_total "card" [("card", 2); ("cardX", 5); ("card", 1)]%string) <=
  estimate toy_hash
    (add_all toy_hash (MkSketch 2 8 (replicate 16 0)) [("card", 2); ("cardX", 5); ("card", 1)]%string) "card".
Proof.
  apply (sketch_one_sided toy_hash 2 8 (MkSketch 2 8 (replicate 16 0)) "card").
  - reflexivity.
  - lia.
  - repeat constructor; simpl; lia.
Defined.
