(* ===== verification/Hll.v ===== *)
(** * HyperLogLog ([onced-core/src/hll.rs])

    The hash of a key ([DefaultHasher]) and the natural logarithm of [f64] are
    parameters, as the Rust library leaves both unspecified; the hash is a
    64-bit value. *)

From Stdlib Require Import Floats.SpecFloat.
From S2P Require Import Prelude Machine F64.

Record HyperLogLog := MkHll { precision : Z; registers : list Z }.

(** [None] is the panic of the assertion. *)
Definition HyperLogLog_new (precision : Z) : option HyperLogLog :=
  if (4 <=? precision) && (precision <=? 16)
  then Some (MkHll precision (replicate (Z.to_nat (Z.shiftl 1 precision)) 0)) else None.

Section hll.
Context (hash : string -> Z) (ln : f64 -> f64).

(** The register a key falls on: the top [p] bits of its hash. *)
Definition index (p : Z) (key : string) : nat := Z.to_nat (Z.shiftr (hash key) (64 - p)).

(** One more than the leading zeros of the rest of the hash, with the guard bit. *)
Definition rank (p : Z) (key : string) : Z :=
  let suffix := Z.lor (shl 64 (hash key) p) (Z.shiftl 1 (p - 1)) in
  leading_zeros 64 suffix + 1.

Definition add (h : HyperLogLog) (key : string) : HyperLogLog :=
  let i := index (precision h) key in
  let r := rank (precision h) key in
  match registers h !! i with
  | Some old => if old <? r then MkHll (precision h) (<[i := r]> (registers h)) else h
  | None => h
  end.

Definition alpha (len : Z) (m : f64) : f64 :=
  if len =? 16 then f64_lit 673 1000
  else if len =? 32 then f64_lit 697 1000
  else if len =? 64 then f64_lit 709 1000
  else f64_div (f64_lit 7213 10000) (f64_add (f64_of_u64 1) (f64_div (f64_lit 1079 1000) m)).

Definition harmonic (registers : list Z) : f64 :=
  fold_left (fun acc r => f64_add acc (f64_pow2_neg r)) registers (S754_zero false).

Definition zeros (registers : list Z) : Z := Z.of_nat (length (List.filter (Z.eqb 0) registers)).

Definition estimate (h : HyperLogLog) : f64 :=
  let len := Z.of_nat (length (registers h)) in
  let m := f64_of_u64 len in
  let raw := f64_div (f64_mul (f64_mul (alpha len m) m) m) (harmonic (registers h)) in
  let zeros := zeros (registers h) in
  if f64_le raw (f64_mul (f64_lit 5 2) m) && (0 <? zeros)
  then f64_mul m (ln (f64_div m (f64_of_u64 zeros)))
  else raw.

Definition add_all (h : HyperLogLog) (keys : list string) : HyperLogLog := fold_left add keys h.

(** ** Registers *)

Hypothesis hash_range : forall key, in_uint 64 (hash key).

Definition hll_ok (h : HyperLogLog) : Prop :=
  4 <= precision h <= 16 /\ length (registers h) = Z.to_nat (2 ^ precision h) /\
  Forall (fun r => 0 <= r <= 65 - precision h) (registers h).

Lemma hll_new_ok p h : HyperLogLog_new p = Some h -> hll_ok h /\ precision h = p.
Proof.
  unfold HyperLogLog_new. destruct (Z.leb_spec 4 p), (Z.leb_spec p 16); intros E; simplify_eq/=.
  split; [|done]. split_and!; simpl; [lia | lia | |].
  - rewrite length_replicate, Z.shiftl_mul_pow2 by lia. f_equal. lia.
  - apply Forall_replicate. lia.
Qed.

(** The top bits of the hash are an index into the registers. *)
Lemma index_range p key : 4 <= p <= 16 -> (index p key < Z.to_nat (2 ^ p))%nat.
Proof.
  intros Hp. unfold index. pose proof (hash_range key) as Hh. unfold in_uint in Hh.
  rewrite Z.shiftr_div_pow2 by lia.
  assert (0 <= hash key / 2 ^ (64 - p) < 2 ^ p); [|lia].
  split; [apply Z.div_pos; lia|]. apply Z.div_lt_upper_bound; [lia|].
  rewrite <- Z.pow_add_r by lia. replace (64 - p + p) with 64 by lia. lia.
Qed.

(** The guard bit bounds the rank. *)
Lemma rank_range p key : 4 <= p <= 16 -> 1 <= rank p key <= 65 - p.
Proof.
  intros Hp. unfold rank. set (suffix := Z.lor _ _).
  assert (in_uint 64 (Z.shiftl 1 (p - 1))) as Hg.
  { rewrite Z.shiftl_mul_pow2 by lia. unfold in_uint. pose proof (Z.pow_pos_nonneg 2 (p - 1)).
    pose proof (Z.pow_lt_mono_r 2 (p - 1) 64). lia. }
  assert (in_uint 64 suffix) as Hs.
  { apply lor_in_uint; [lia | apply wrap_range; lia | done]. }
  pose proof (leading_zeros_range 64 suffix ltac:(lia) Hs). split; [lia|].
  assert (Z.testbit suffix (p - 1) = true) as Hbit.
  { unfold suffix. rewrite Z.lor_spec, Z.shiftl_spec by lia. rewrite Z.sub_diag. apply orb_true_r. }
  assert (2 ^ (p - 1) <= suffix) as Hge.
  { destruct (Z.lt_ge_cases suffix (2 ^ (p - 1))) as [Hlt|]; [|done]. exfalso.
    unfold in_uint in Hs. rewrite Z.bits_above_log2 in Hbit; [done | lia|].
    destruct (decide (suffix = 0)) as [E|]; [rewrite E; simpl; lia|]. apply Z.log2_lt_pow2; lia. }
  assert (~ (65 - p <= leading_zeros 64 suffix)); [|lia].
  rewrite leading_zeros_ge by (done || lia). replace (64 - (65 - p)) with (p - 1) by lia. lia.
Qed.

(** [add] takes the maximum in one register. *)
Lemma add_alter h key :
  add h key = MkHll (precision h)
    (alter (Z.max (rank (precision h) key)) (index (precision h) key) (registers h)).
Proof.
  unfold add. destruct h as [p rs]; simpl. destruct (rs !! index p key) as [old|] eqn:E.
  - case_cmp; f_equal.
    + apply list_eq. intros i. destruct (decide (i = index p key)) as [->|Hne].
      * rewrite list_lookup_insert_eq by (by eapply lookup_lt_Some). rewrite list_lookup_alter_eq, E. simpl. f_equal. lia.
      * by rewrite list_lookup_insert_ne, list_lookup_alter_ne.
    + symmetry. rewrite <- (list_alter_id (fun x => x) rs (index p key)) at 2 by done.
      apply list_eq. intros i. destruct (decide (i = index p key)) as [->|Hne].
      * rewrite !list_lookup_alter_eq, E. simpl. f_equal. lia.
      * by rewrite !list_lookup_alter_ne.
  - f_equal. apply list_eq. intros i. destruct (decide (i = index p key)) as [->|Hne].
    + by rewrite list_lookup_alter_eq, E.
    + by rewrite list_lookup_alter_ne.
Qed.

Lemma add_precision h key : precision (add h key) = precision h.
Proof. by rewrite add_alter. Qed.

Lemma add_ok h key : hll_ok h -> hll_ok (add h key).
Proof.
  intros (Hp & Hl & Hr). rewrite add_alter. split_and!; simpl; [lia | lia | by rewrite length_alter|].
  apply Forall_lookup. intros i x Hx. rewrite Forall_lookup in Hr.
  destruct (decide (index (precision h) key = i)) as [<-|Hne].
  - rewrite list_lookup_alter_eq in Hx. apply fmap_Some in Hx as (y & Hy & ->).
    apply Hr in Hy. pose proof (rank_range (precision h) key Hp). lia.
  - rewrite list_lookup_alter_ne in Hx by done. by eapply Hr.
Qed.

(** What a register becomes: the maximum over the keys that fall on it. *)
Definition ranks_at (p : Z) (i : nat) (keys : list string) : list Z :=
  map (rank p) (List.filter (fun k => Nat.eqb (index p k) i) keys).

Lemma add_all_lookup h keys i :
  precision (add_all h keys) = precision h /\
  registers (add_all h keys) !! i =
  (fun r => fold_left (fun a b => Z.max b a) (ranks_at (precision h) i keys) r) <$> registers h !! i.
Proof.
  revert h; induction keys as [|k keys IH]; intros h; simpl.
  - split; [done|]. by rewrite option_fmap_id.
  - unfold add_all in *. cbn [fold_left]. destruct (IH (add h k)) as [-> ->]. rewrite add_alter. simpl.
    split; [done|]. unfold ranks_at. simpl. destruct (Nat.eqb_spec (index (precision h) k) i) as [<-|Hne].
    + rewrite list_lookup_alter_eq. by destruct (registers h !! _).
    + by rewrite list_lookup_alter_ne.
Qed.

Lemma fold_max_mono l l' r :
  (forall x, x ∈ l -> x ∈ l') ->
  fold_left (fun a b => Z.max b a) l r <= fold_left (fun a b => Z.max b a) l' r.
Proof.
  intros Hsub.
  assert (forall l a, a <= fold_left (fun a b => Z.max b a) l a) as Hinit.
  { clear. induction l as [|x l IH]; intros a; simpl; [lia|]. specialize (IH (Z.max x a)). lia. }
  assert (forall l a x, x ∈ l -> x <= fold_left (fun a b => Z.max b a) l a) as Hin.
  { clear - Hinit. induction l as [|y l IH]; intros a x Hx; [by apply elem_of_nil in Hx|]. simpl.
    apply elem_of_cons in Hx as [->|Hx]; [|by apply IH]. specialize (Hinit l (Z.max y a)). lia. }
  assert (forall l a b, a <= b -> (forall x, x ∈ l -> x <= b) -> fold_left (fun a b => Z.max b a) l a <= b) as Hle.
  { clear. induction l as [|y l IH]; intros a b Ha Hx; simpl; [done|]. apply IH.
    - specialize (Hx y (list_elem_of_here _ _)). lia.
    - intros x Hx'. apply Hx. by right. }
  apply Hle; [apply Hinit|]. intros x Hx. by apply Hin, Hsub.
Qed.

Lemma ranks_at_mono p i ks ks' :
  (forall k, k ∈ ks -> k ∈ ks') -> forall x, x ∈ ranks_at p i ks -> x ∈ ranks_at p i ks'.
Proof.
  intros Hsub x Hx. unfold ranks_at in *. apply list_elem_of_fmap in Hx as (k & -> & Hk).
  apply list_elem_of_In, filter_In in Hk as [Hk Hi]. apply list_elem_of_fmap. exists k. split; [done|].
  apply list_elem_of_In, filter_In. split; [|done]. by apply list_elem_of_In, Hsub, list_elem_of_In.
Qed.

Lemma hll_same_set h keys keys' :
  (forall k, k ∈ keys <-> k ∈ keys') -> add_all h keys = add_all h keys'.
Proof.
  intros Hset.
  destruct (add_all_lookup h keys 0) as [Ep _], (add_all_lookup h keys' 0) as [Ep' _].
  assert (registers (add_all h keys) = registers (add_all h keys')) as Er.
  { apply list_eq. intros i. destruct (add_all_lookup h keys i) as [_ ->].
    destruct (add_all_lookup h keys' i) as [_ ->]. destruct (registers h !! i); [|done]. simpl. f_equal.
    apply Z.le_antisymm; apply fold_max_mono, ranks_at_mono; intros k; apply Hset. }
  destruct (add_all h keys), (add_all h keys'); simpl in *; congruence.
Qed.

(** HyperLogLog counts distinct keys.  Its registers, and so every estimate,
    depend only on the set of keys observed: not on their order and not on how
    often each was seen.  The registers stay in range (index and rank bounds,
    guard bit included), so no access is out of bounds. *)
Theorem hll_set_semantics h keys keys' :
  hll_ok h -> (forall k, k ∈ keys <-> k ∈ keys') ->
  add_all h keys = add_all h keys' /\ estimate (add_all h keys) = estimate (add_all h keys') /\
  hll_ok (add_all h keys) /\
  (forall k, (index (precision h) k < length (registers h))%nat).
Proof.
  intros Hok Hset.
  pose proof (hll_same_set h keys keys' Hset) as E.
  split_and!; [done | by rewrite E | |].
  - clear - Hok hash_range. revert h Hok. induction keys as [|k keys IH]; intros h Hok; [done|].
    apply (IH (add h k)). by apply add_ok.
  - intros k. destruct Hok as (Hp & -> & _). by apply index_range.
Qed.

End hll.

(** ** A concrete instance *)

Definition toy_key_hash (key : string) : Z := wrap 64 (Z.of_nat (String.length key) * 2654435761 * 2 ^ 28).

Lemma toy_key_hash_range key : in_uint 64 (toy_key_hash key).
Proof. apply wrap_range. lia. Qed.

Lemma hll_set_semantics_witness :
  add_all toy_key_hash (MkHll 4 (replicate 16 0)) ["a"; "bb"; "a"]%string =
  add_all toy_key_hash (MkHll 4 (replicate 16 0)) ["bb"; "a"]%string.
Proof.
  apply (hll_set_semantics toy_key_hash (fun x => x) toy_key_hash_range (MkHll 4 (replicate 16 0))
           ["a"; "bb"; "a"]%string ["bb"; "a"]%string).
  - split_and!; simpl; [lia | lia | reflexivity | repeat constructor; lia].
  - intros k. rewrite !elem_of_cons. tauto.
Defined.
