(* ===== verification/Velocity.v ===== *)
(** * Distinct-target velocity ([onced-core/src/velocity.rs])

    A fixed window per actor with a HyperLogLog of the targets it touched. *)

From Stdlib Require Import Floats.SpecFloat.
From S2P Require Import Prelude Machine F64 HashMap Abuse Hll.

Definition DEFAULT_MAX_ACTORS : Z := 100000.
Definition PRECISION : Z := 10.

Record ActorWindow := MkActorWindow { actor_window : Z; seen : HyperLogLog }.

Record DistinctVelocityLimiter := MkVelocity {
  velocity_window_ms : Z;
  max_distinct : Z;
  max_actors : Z;
  actors : gmap string ActorWindow;
}.

(** [HyperLogLog::new(PRECISION)], whose assertion holds. *)
Definition hll_fresh : HyperLogLog := MkHll PRECISION (replicate 1024 0).

Lemma hll_fresh_new : HyperLogLog_new PRECISION = Some hll_fresh.
Proof. reflexivity. Qed.

(** [None] is the panic of the assertions. *)
Definition velocity_with_capacity (window_ms max_distinct max_actors : Z)
  : option DistinctVelocityLimiter :=
  if (0 <? window_ms) && (0 <? max_actors)
  then Some (MkVelocity window_ms max_distinct max_actors ∅) else None.

Definition DistinctVelocityLimiter_new (window_ms max_distinct : Z) : option DistinctVelocityLimiter :=
  velocity_with_capacity window_ms max_distinct DEFAULT_MAX_ACTORS.

Definition tracked_actors (l : DistinctVelocityLimiter) : Z := Z.of_nat (size (actors l)).

Section velocity.
Context (hash : string -> Z) (ln : f64 -> f64) `{!HashOrder string}.

(** Make room for a new actor at capacity. *)
Definition evict_actor (l : DistinctVelocityLimiter) (actor : string) : gmap string ActorWindow :=
  hm_make_room (max_actors l) (actors l) actor.

(** The actor's entry after it touched [target]. *)
Definition touch (m : gmap string ActorWindow) (actor target : string) (idx : Z) : ActorWindow :=
  let entry := default (MkActorWindow idx hll_fresh) (m !! actor) in
  let entry := if actor_window entry =? idx then entry else MkActorWindow idx hll_fresh in
  MkActorWindow (actor_window entry) (add hash (seen entry) target).

Definition velocity_check (l : DistinctVelocityLimiter) (actor target : string) (now_ms : Z)
  : LimitDecision * DistinctVelocityLimiter :=
  let idx := now_ms / velocity_window_ms l in
  let m := evict_actor l actor in
  let entry := touch m actor target idx in
  let l' := MkVelocity (velocity_window_ms l) (max_distinct l) (max_actors l) (<[actor := entry]> m) in
  (if f64_gt (estimate ln (seen entry)) (f64_of_u64 (max_distinct l)) then Deny else Allow, l').

(** ** Properties *)

Definition velocity_ok (l : DistinctVelocityLimiter) : Prop :=
  0 < max_actors l /\ tracked_actors l <= max_actors l /\
  map_Forall (fun _ a => hll_ok (seen a) /\ precision (seen a) = PRECISION) (actors l).

(** Touches by one actor, in order. *)
Definition touches (l : DistinctVelocityLimiter) (actor : string) (ts : list string) (now : Z)
  : DistinctVelocityLimiter :=
  fold_left (fun l t => (velocity_check l actor t now).2) ts l.

(** An actor that is tracked needs no eviction. *)
Lemma evict_tracked l actor a : actors l !! actor = Some a -> evict_actor l actor = actors l.
Proof. intros Ha. unfold evict_actor, hm_make_room. rewrite Ha. by rewrite andb_false_r. Qed.

Lemma check_tracked l actor target now a :
  actors l !! actor = Some a -> actor_window a = now / velocity_window_ms l ->
  velocity_check l actor target now =
  (if f64_gt (estimate ln (add hash (seen a) target)) (f64_of_u64 (max_distinct l)) then Deny else Allow,
   MkVelocity (velocity_window_ms l) (max_distinct l) (max_actors l)
     (<[actor := MkActorWindow (actor_window a) (add hash (seen a) target)]> (actors l))).
Proof.
  intros Ha Hw. unfold velocity_check, touch. rewrite (evict_tracked l actor a Ha), Ha. cbn [default].
  rewrite <- Hw, Z.eqb_refl. done.
Qed.

Lemma touches_tracked l actor ts now a :
  actors l !! actor = Some a -> actor_window a = now / velocity_window_ms l ->
  touches l actor ts now =
  MkVelocity (velocity_window_ms l) (max_distinct l) (max_actors l)
    (<[actor := MkActorWindow (actor_window a) (add_all hash (seen a) ts)]> (actors l)).
Proof.
  revert l a; induction ts as [|t ts IH]; intros l a Ha Hw.
  - destruct l as [w d m acts], a; simpl in *. unfold touches; simpl. by rewrite insert_id.
  - unfold touches. cbn [fold_left]. fold (touches (velocity_check l actor t now).2 actor ts now).
    rewrite (check_tracked l actor t now a) by done. simpl.
    erewrite IH; [|simpl; apply lookup_insert_eq|done]. simpl. by rewrite insert_insert_eq.
Qed.

(** Velocity is about distinct targets.  Within a window, what an actor's
    entry is after a series of touches, and so the verdict on its next touch,
    depends only on the set of targets touched: hitting the same target again,
    or in another order, never moves an actor towards denial. *)
Theorem velocity_distinct_only l actor a ts ts' t now :
  actors l !! actor = Some a -> actor_window a = now / velocity_window_ms l ->
  (forall x, x ∈ ts <-> x ∈ ts') ->
  touches l actor ts now = touches l actor ts' now /\
  (velocity_check (touches l actor ts now) actor t now).1 =
  (velocity_check (touches l actor ts' now) actor t now).1 /\
  (t ∈ ts -> (velocity_check (touches l actor ts now) actor t now).2 = touches l actor ts now).
Proof.
  intros Ha Hw Hset.
  assert (forall ts', (forall x, x ∈ ts <-> x ∈ ts') -> touches l actor ts now = touches l actor ts' now) as Heq.
  { intros ts2 H2. rewrite !(touches_tracked _ _ _ _ a) by done. do 3 f_equal.
    by apply hll_same_set. }
  split_and!; [by apply Heq | by rewrite (Heq ts') |]. intros Ht.
  change (touches (touches l actor ts now) actor [t] now = touches l actor ts now).
  unfold touches at 1 2. rewrite <- fold_left_app. symmetry. apply Heq.
  intros x. rewrite elem_of_app, list_elem_of_singleton. split; [auto | intros [Hx|Hx]; [done | by subst]].
Qed.

Lemma velocity_check_ok l actor target now : velocity_ok l -> velocity_ok (velocity_check l actor target now).2.
Proof.
  intros (Hm & Ht & Hf). unfold velocity_check; simpl. split_and!; simpl; [done| |].
  - by apply hm_make_room_size.
  - assert (map_Forall (fun _ a => hll_ok (seen a) /\ precision (seen a) = PRECISION) (evict_actor l actor)) as Hf'.
    { intros k a Ha. apply (Hf k). eapply lookup_weaken; [exact Ha | apply hm_make_room_subseteq]. }
    apply map_Forall_insert_2; [|done]. unfold touch; simpl.
    assert (hll_ok hll_fresh /\ precision hll_fresh = PRECISION) as Hfresh by (by apply hll_new_ok).
    set (e0 := default _ _). assert (hll_ok (seen e0) /\ precision (seen e0) = PRECISION) as He0.
    { unfold e0. destruct (evict_actor l actor !! actor) eqn:E; [by apply (Hf' actor) | done]. }
    destruct He0 as [? ?], Hfresh as [? ?].
    destruct (actor_window e0 =? _); cbn [seen actor_window];
      (split; [apply add_ok; assumption | rewrite add_precision; assumption]).
Qed.

(** A limiter that its constructor accepts never tracks more than
    [max_actors] actors, and every actor's sketch stays well-formed. *)
Theorem velocity_memory_bounded w d cap l hits :
  velocity_with_capacity w d cap = Some l ->
  let l' := fold_left (fun l '(a, t, now) => (velocity_check l a t now).2) hits l in
  tracked_actors l' <= cap /\ map_Forall (fun _ a => hll_ok (seen a)) (actors l').
Proof.
  unfold velocity_with_capacity. destruct (Z.ltb_spec 0 w), (Z.ltb_spec 0 cap); intros E; simplify_eq/=.
  assert (velocity_ok (MkVelocity w d cap ∅)) as Hok.
  { split_and!; simpl; [done | unfold tracked_actors; simpl; rewrite map_size_empty; lia | apply map_Forall_empty]. }
  assert (forall l, velocity_ok l -> max_actors l = cap ->
    let l' := fold_left (fun l '(a, t, now) => (velocity_check l a t now).2) hits l in
    velocity_ok l' /\ max_actors l' = cap) as Hall.
  { clear. induction hits as [|[[a t] now] hits IH]; intros l Hl Hc; [done|].
    cbn [fold_left]. apply IH; [by apply velocity_check_ok | done]. }
  destruct (Hall _ Hok eq_refl) as [(_ & Ht & Hf) Hc]. split; [rewrite Hc in Ht; exact Ht|].
  eapply map_Forall_impl; [exact Hf|]. by intros ? ? [? _].
Qed.

End velocity.

(** ** A concrete instance *)

#[local] Instance velocity_order : HashOrder string := default_order string.

Definition sample_velocity : DistinctVelocityLimiter :=
  MkVelocity 1000 3 10 {["ip" := MkActorWindow 0 hll_fresh]}%string.

Lemma velocity_distinct_only_witness :
  touches toy_key_hash (fun x => x) sample_velocity "ip" ["c1"; "c22"; "c1"]%string 5 =
  touches toy_key_hash (fun x => x) sample_velocity "ip" ["c22"; "c1"]%string 5.
Proof.
  refine (proj1 (velocity_distinct_only toy_key_hash (fun x => x) sample_velocity "ip"
           (MkActorWindow 0 hll_fresh) ["c1"; "c22"; "c1"]%string ["c22"; "c1"]%string "c1" 5 _ _ _)).
  - reflexivity.
  - reflexivity.
  - intros x. rewrite !elem_of_cons. tauto.
Defined.

Lemma velocity_memory_bounded_witness :
  tracked_actors
    (fold_left (fun l '(a, t, now) => (velocity_check toy_key_hash (fun x => x) l a t now).2)
       [("a", "x", 0); ("b", "x", 0); ("c", "y", 1)]%string (MkVelocity 1000 3 2 ∅)) <= 2.
Proof.
  apply (velocity_memory_bounded toy_key_hash (fun x => x) 1000 3 2 (MkVelocity 1000 3 2 ∅)).
  reflexivity.
Defined.
