(* ===== verification/LimiterTests.v ===== *)
(** * The unit tests of the abuse controls

    The [mod tests] of [abuse.rs], and those tests of [sketch.rs] and
    [velocity.rs] whose verdict does not rest on the values of the unspecified
    hasher: they pass for every hash, and for every order in which a hash map
    may offer its keys for eviction. *)

From Stdlib Require Import Floats.SpecFloat.
From S2P Require Import Prelude Machine Str F64 HashMap Suite Abuse Sketch Hll Velocity.

#[local] Open Scope string_scope.
#[local] Open Scope Z_scope.

(** ** The limiter ([abuse.rs]) *)

Section limiter_tests.
Context `{!HashOrder string}.

(** [assert!(matches!(limiter.check(key, now), d))]. *)
Definition expect_check (d : LimitDecision) (key : string) (now : Z) (l : SlidingWindowLimiter)
  : option SlidingWindowLimiter :=
  let (d', l') := check l key now in
  ensure (bool_decide (d' = d));; Some l'.

(** [for _ in 0..n { limiter.check(key, now); }]. *)
Definition check_times (n : nat) (key : string) (now : Z) (l : SlidingWindowLimiter)
  : SlidingWindowLimiter := Nat.iter n (fun l => (check l key now).2) l.

Definition allows_up_to_the_limit_then_denies : option unit :=
  limiter ← SlidingWindowLimiter_new 1000 5;
  limiter ← for_each (range 0 5) limiter (fun l _ => expect_check Allow "ip-1" 0 l);
  expect_check Deny "ip-1" 0 limiter;; Some tt.

Definition sliding_window_blocks_boundary_bursting : option unit :=
  limiter ← SlidingWindowLimiter_new 1000 5;
  limiter ← for_each (range 0 5) limiter (fun l _ => expect_check Allow "ip-1" 999 l);
  expect_check Deny "ip-1" 1000 limiter;; Some tt.

Definition old_traffic_decays_after_two_windows : option unit :=
  limiter ← SlidingWindowLimiter_new 1000 5;
  let limiter := check_times 5 "ip-1" 0 limiter in
  expect_check Allow "ip-1" 2000 limiter;; Some tt.

Definition keys_are_counted_independently : option unit :=
  limiter ← SlidingWindowLimiter_new 1000 1;
  limiter ← expect_check Allow "a" 0 limiter;
  limiter ← expect_check Deny "a" 0 limiter;
  expect_check Allow "b" 0 limiter;; Some tt.

(** Count the hits that are let through. *)
Fixpoint count_allowed (n : nat) (key : string) (now : Z) (l : SlidingWindowLimiter) : Z :=
  match n with
  | O => 0
  | S n =>
      let (d, l') := check l key now in
      (if bool_decide (d = Allow) then 1 else 0) + count_allowed n key now l'
  end.

Definition previous_window_is_weighted_by_overlap : option unit :=
  limiter ← SlidingWindowLimiter_new 1000 10;
  let limiter := check_times 10 "ip-1" 0 limiter in
  let allowed := count_allowed 10 "ip-1" 1500 limiter in
  ensure (allowed =? 5).

Definition tracked_keys_reports_the_exact_count : option unit :=
  limiter ← with_capacity 1000 5 128;
  let limiter := hits limiter [("a", 0); ("b", 0); ("a", 0)] in
  ensure (tracked_keys limiter =? 2).

Definition eviction_happens_only_at_capacity : option unit :=
  let cap := 4 in
  limiter ← with_capacity 1000 100 cap;
  let limiter := hits limiter (map (fun k => (k, 0)) ["a"; "b"; "c"; "d"]) in
  ensure (tracked_keys limiter =? cap);;
  let limiter := (check limiter "e" 0).2 in
  ensure (tracked_keys limiter =? cap).

Definition tracked_keys_stay_bounded_under_key_rotation : option unit :=
  let cap := 128 in
  limiter ← with_capacity 1000 5 cap;
  let limiter := hits limiter (map (fun i => (numbered "ip-" i, 0)) (range 0 10000)) in
  ensure (tracked_keys limiter <=? cap).

(** [assert_eq!(rules.evaluate(key, now), v)]. *)
Definition expect_verdict (v : Verdict) (key : string) (now : Z) (rs : RuleSet) : option RuleSet :=
  let (v', rs') := evaluate rs key now in
  ensure (bool_decide (v' = v));; Some rs'.

Definition rules_allow_when_every_rule_passes : option unit :=
  rules ← rule RuleSet_new "per-second" 1000 100 Throttle;
  rules ← rule rules "per-minute" 60000 1000 Block;
  expect_verdict Verdict_Allow "ip-1" 0 rules;; Some tt.

Definition rules_deny_with_the_tripped_rules_action : option unit :=
  rules ← rule RuleSet_new "strict" 1000 2 Block;
  rules ← expect_verdict Verdict_Allow "ip-1" 0 rules;
  rules ← expect_verdict Verdict_Allow "ip-1" 0 rules;
  expect_verdict (Verdict_Deny "strict" Block) "ip-1" 0 rules;; Some tt.

Definition rules_first_tripped_in_order_wins : option unit :=
  rules ← rule RuleSet_new "loose-throttle" 1000 100 Throttle;
  rules ← rule rules "strict-block" 1000 2 Block;
  let rules := (evaluate rules "ip-1" 0).2 in
  let rules := (evaluate rules "ip-1" 0).2 in
  expect_verdict (Verdict_Deny "strict-block" Block) "ip-1" 0 rules;; Some tt.

Definition rules_keep_keys_independent : option unit :=
  rules ← rule RuleSet_new "strict" 1000 1 Challenge;
  rules ← expect_verdict Verdict_Allow "a" 0 rules;
  rules ← expect_verdict (Verdict_Deny "strict" Challenge) "a" 0 rules;
  expect_verdict Verdict_Allow "b" 0 rules;; Some tt.

Lemma pass_rotation : tracked_keys_stay_bounded_under_key_rotation = Some tt.
Proof.
  unfold tracked_keys_stay_bounded_under_key_rotation.
  destruct (with_capacity 1000 5 128) as [l|] eqn:E; [|done]. rewrite bind_some. apply ensure_true, Z.leb_le.
  by eapply limiter_memory_bounded.
Qed.

(** At capacity a new key takes the place of the one that is offered. *)
Lemma make_room_full {V} (m : gmap string V) cap k v :
  Z.of_nat (size m) = cap -> 0 < cap -> m !! k = None -> size (<[k := v]> (hm_make_room cap m k)) = size m.
Proof.
  intros Hs Hc Hk. unfold hm_make_room. rewrite Hk, bool_decide_true, Hs, Z.leb_refl by done. cbn [andb].
  destruct (hm_first_key m) as [victim|] eqn:Hv.
  - destruct (hm_first_key_Some _ _ Hv) as [x Hx]. pose proof (map_size_delete_Some victim m (ex_intro _ x Hx)) as Hd.
    rewrite map_size_insert_None; [lia|]. by rewrite lookup_delete_None; right.
  - apply hm_first_key_None in Hv as ->. by rewrite map_size_empty in Hs; subst.
Qed.

Lemma pass_eviction : eviction_happens_only_at_capacity = Some tt.
Proof.
  unfold eviction_happens_only_at_capacity.
  change (with_capacity 1000 100 4) with (Some (MkLimiter 1000 100 4 ∅)). rewrite bind_some. set (l := hits _ _).
  assert (tracked_keys l = 4 /\ Abuse.counters l !! "e" = None /\ max_keys l = 4) as (Ht & He & Hc) by (vm_compute; done).
  rewrite Ht, ensure_bind by done. apply ensure_true, Z.eqb_eq. etrans; [|exact Ht]. clearbody l.
  unfold tracked_keys, check, evict in *. cbn [snd Abuse.counters]. rewrite Hc. f_equal. by apply make_room_full.
Qed.

(** The limiter's and the rule set's unit tests pass, whichever key a full
    map offers for eviction. *)
Theorem limiter_suite_passes :
  Forall (fun t => t = Some tt)
    [allows_up_to_the_limit_then_denies; sliding_window_blocks_boundary_bursting;
     old_traffic_decays_after_two_windows; keys_are_counted_independently;
     previous_window_is_weighted_by_overlap; tracked_keys_reports_the_exact_count;
     rules_allow_when_every_rule_passes; rules_deny_with_the_tripped_rules_action;
     rules_first_tripped_in_order_wins; rules_keep_keys_independent;
     eviction_happens_only_at_capacity; tracked_keys_stay_bounded_under_key_rotation].
Proof.
  repeat apply Forall_cons_2; [vm_compute; reflexivity.. | apply pass_eviction | apply pass_rotation | apply Forall_nil_2].
Qed.

End limiter_tests.

(** ** The sketch ([sketch.rs]) *)

Section sketch_tests.
Context (hash : Z -> string -> Z).

(** [*truth.entry(key).or_insert(0) += count], over the generated additions. *)
Definition tally (adds : list (string * Z)) : gmap string Z :=
  fold_left (fun truth kc => <[kc.1 := default 0 (truth !! kc.1) + kc.2]> truth) adds ∅.

(** The additions that the generator makes: 300 keys, counts from 1 to 5. *)
Fixpoint random_adds (n : nat) (state : Z) : list (string * Z) :=
  match n with
  | O => []
  | S n =>
      let state := xorshift64 state in
      let key := numbered "k" (state mod 300) in
      let state := xorshift64 state in
      let count := 1 + state mod 5 in
      (key, count) :: random_adds n state
  end.

(** [for (key, &true_count) in &truth { assert!(cms.estimate(key) >= true_count) }]. *)
Definition never_below (cms : CountMinSketch) (truth : gmap string Z) : option unit :=
  for_all (map_to_list truth) (fun '(key, true_count) => ensure (true_count <=? Sketch.estimate hash cms key)).

(** The source runs it with state [0x1234_5678] and 2000 additions. *)
Definition never_underestimates_across_many_keys (state : Z) (n : nat) : option unit :=
  cms ← CountMinSketch_new 5 512;
  let adds := random_adds n state in
  never_below (Sketch.add_all hash cms adds) (tally adds).

Definition estimates_a_lone_key_exactly : option unit :=
  cms ← CountMinSketch_new 4 256;
  let cms := Nat.iter 7 (fun cms => Sketch.add hash cms "card-1" 1) cms in
  ensure (Sketch.estimate hash cms "card-1" =? 7);;
  ensure (Sketch.estimate hash cms "never-seen" =? 0).

Lemma key_total_snoc key adds k c :
  key_total key (adds ++ [(k, c)]) = key_total key adds + (if String.eqb k key then c else 0).
Proof.
  unfold key_total. rewrite map_app, foldr_app. simpl. generalize (if String.eqb k key then c else 0).
  intros z. induction (map _ adds) as [|x l IH]; simpl; [lia|]. rewrite IH. lia.
Qed.

(** The reference map holds the totals. *)
Lemma tally_total adds k : default 0 (tally adds !! k) = key_total k adds.
Proof.
  induction adds as [|[k' c] adds IH] using rev_ind; [done|].
  unfold tally in *. rewrite key_total_snoc, fold_left_app. cbn [fold_left fst snd].
  destruct (String.eqb_spec k' k) as [->|Hne].
  - rewrite lookup_insert_eq. cbn [default]. by rewrite IH.
  - rewrite lookup_insert_ne by done. lia.
Qed.

(** The one-sided bound in the form of the tests. *)
Lemma never_below_pass d w s adds :
  CountMinSketch_new d w = Some s -> d * w < 2 ^ 64 -> Forall (fun kc => 0 <= kc.2) adds ->
  (forall k, key_total k adds < 2 ^ 64) -> never_below (Sketch.add_all hash s adds) (tally adds) = Some tt.
Proof.
  intros Hnew Hdw Hadds Hsmall. apply for_all_Some, Forall_forall. intros [k t] Hk%elem_of_map_to_list.
  apply ensure_true, Z.leb_le. pose proof (tally_total adds k) as Ht. rewrite Hk in Ht. simpl in Ht.
  destruct (sketch_bounds hash d w s k adds Hnew Hdw Hadds) as [Hb _]. specialize (Hsmall k).
  unfold sat, uint_max in Hb. rewrite Ht. lia.
Qed.

Lemma random_adds_counts n state : Forall (fun kc => 1 <= kc.2 <= 5) (random_adds n state).
Proof.
  revert state; induction n as [|n IH]; intros state; [constructor|]. cbn [random_adds]. constructor; [|apply IH].
  cbn [snd]. pose proof (Z.mod_pos_bound (xorshift64 (xorshift64 state)) 5). lia.
Qed.

Lemma key_total_bound k adds b :
  Forall (fun kc => 0 <= kc.2 <= b) adds -> 0 <= key_total k adds <= b * Z.of_nat (length adds).
Proof.
  induction 1 as [|[k' c] adds Hc _ IH]; unfold key_total in *; simpl in *; [lia|].
  destruct (String.eqb k' k); lia.
Qed.

Lemma length_random_adds n state : length (random_adds n state) = n.
Proof. revert state; induction n as [|n IH]; intros state; [done|]. simpl. by rewrite IH. Qed.

(** The test passes for every hash, every start of the generator and any
    number of additions whose counts stay in 64 bits. *)
Lemma pass_underestimates state n :
  5 * Z.of_nat n < 2 ^ 64 -> never_underestimates_across_many_keys state n = Some tt.
Proof.
  intros Hn. unfold never_underestimates_across_many_keys. pose proof (random_adds_counts n state) as Hc.
  change (CountMinSketch_new 5 512) with (Some (MkSketch 5 512 (replicate 2560 0))). rewrite bind_some.
  apply (never_below_pass 5 512); [done | done | eapply Forall_impl; [exact Hc|]; simpl; lia|].
  intros k. pose proof (key_total_bound k (random_adds n state) 5) as Hb. rewrite length_random_adds in Hb.
  assert (Forall (fun kc => 0 <= kc.2 <= 5) (random_adds n state)) as Hf.
  { eapply Forall_impl; [exact Hc|]. simpl; lia. }
  specialize (Hb Hf). lia.
Qed.

(** A lone key is counted exactly; an unseen key reads zero when some row
    separates it from the lone one. *)
Lemma pass_lone_key row :
  0 <= row < 4 -> hash row "card-1" mod 256 <> hash row "never-seen" mod 256 ->
  estimates_a_lone_key_exactly = Some tt.
Proof.
  intros Hr Hsep. unfold estimates_a_lone_key_exactly.
  destruct (CountMinSketch_new 4 256) as [s|] eqn:Hnew; [|done]. rewrite bind_some.
  assert (Nat.iter 7 (fun cms => Sketch.add hash cms "card-1" 1) s =
          Sketch.add_all hash s (replicate 7 ("card-1", 1))) as -> by reflexivity.
  set (adds := replicate 7 ("card-1", 1)).
  assert (Forall (fun kc : string * Z => 0 <= kc.2) adds) as Hadds by (by repeat constructor).
  assert (Sketch.estimate hash (Sketch.add_all hash s adds) "card-1" = 7) as ->.
  { destruct (sketch_bounds hash 4 256 s "card-1" adds Hnew ltac:(lia) Hadds) as (_ & _ & H).
    apply (H 0); [done|]. by repeat constructor. }
  assert (Sketch.estimate hash (Sketch.add_all hash s adds) "never-seen" = 0) as ->; [|done].
  destruct (sketch_bounds hash 4 256 s "never-seen" adds Hnew ltac:(lia) Hadds) as (_ & _ & H).
  apply (H row Hr). by repeat constructor.
Qed.

End sketch_tests.

(** ** Velocity ([velocity.rs]) *)

Section velocity_tests.
Context (hash : string -> Z) (ln : f64 -> f64) `{!HashOrder string}.

Definition tracked_actors_stay_bounded : option unit :=
  let cap := 128 in
  limiter ← velocity_with_capacity 1000 20 cap;
  let limiter := fold_left (fun l i => (velocity_check hash ln l (numbered "ip-" i) "target" 0).2)
                   (range 0 10000) limiter in
  ensure (tracked_actors limiter <=? cap).

Lemma pass_actors_bounded : tracked_actors_stay_bounded = Some tt.
Proof.
  unfold tracked_actors_stay_bounded. destruct (velocity_with_capacity 1000 20 128) as [l|] eqn:E; [|done].
  rewrite bind_some. apply ensure_true, Z.leb_le. set (acts := range 0 10000).
  pose proof (velocity_memory_bounded hash ln 1000 20 128 l (map (fun i => (numbered "ip-" i, "target", 0)) acts) E) as [Hb _].
  cbv zeta in Hb. replace (fold_left _ acts l) with
    (fold_left (fun l '(a, t, now) => (velocity_check hash ln l a t now).2) (map (fun i => (numbered "ip-" i, "target", 0)) acts) l); [done|].
  clear. revert l. induction acts as [|i acts IH]; intros l; [done|]. apply IH.
Qed.

End velocity_tests.
