(* ===== verification/Estimate.v ===== *)
(** * HyperLogLog estimates of few keys

    What a HyperLogLog estimate can be while at most half of the registers are
    filled, whatever the hasher does: the rounded arithmetic stays in the range of
    linear counting, and the estimate lies between the number of filled registers
    and a small multiple of the number of distinct keys. *)

From Stdlib Require Import Floats.SpecFloat.
From S2P Require Import Prelude Machine Str F64 HashMap Suite Abuse Hll Velocity.

#[local] Open Scope string_scope.
#[local] Open Scope list_scope.
#[local] Open Scope Z_scope.

(** ** Rounding down a magnitude *)

Lemma shr_nonpos mrs e n : n <= 0 -> shr mrs e n = (mrs, e).
Proof. by destruct n; [|lia|]. Qed.

Lemma record_of_loc_m m l : shr_m (shr_record_of_loc m l) = m.
Proof. by destruct l as [|[]]. Qed.

Lemma Zdigits2_le m d : 0 <= m < 2 ^ d -> 0 <= d -> Zdigits2 m <= d.
Proof.
  intros Hm Hd. destruct (decide (m = 0)) as [->|]; [simpl; lia|]. rewrite Zdigits2_log2 by lia.
  assert (Z.log2 m < d) by (apply Z.log2_lt_pow2; lia). lia.
Qed.

(** Rounding a value below [2 ^ (d + e)]: the result is at most that, and stays
    below it when the value is at most three quarters of it. *)
Lemma round_aux_below m e l d :
  0 <= m < 2 ^ d -> 53 <= d -> emin 53 1024 <= d + e - 53 -> d + e < 1000 ->
  match binary_round_aux 53 1024 false m e l with
  | S754_zero s => s = false
  | S754_finite s m' e' =>
      s = false /\ (e' <= d + e - 53 \/ (e' = d + e - 52 /\ Zpos m' = 2 ^ 52 /\ 3 * 2 ^ d < 4 * m))
  | _ => False
  end.
Proof.
  intros Hm Hd He Hde. unfold binary_round_aux.
  pose proof (Zdigits2_le m d Hm ltac:(lia)) as HD.
  assert (exists m1 e1, shr_m (shr_fexp 53 1024 m e l).1 = m1 /\ (shr_fexp 53 1024 m e l).2 = e1 /\
            0 <= m1 < 2 ^ 53 /\ emin 53 1024 <= e1 <= d + e - 53 /\
            (4 * m <= 3 * 2 ^ d -> e1 <= d + e - 54 \/ m1 <= 2 ^ 53 - 2)) as (m1 & e1 & E1 & E2 & Hm1 & He1 & Hq).
  { unfold shr_fexp, fexp. set (n := Z.max _ _ - e).
    assert (m < 2 ^ Zdigits2 m /\ 0 <= Zdigits2 m) as [HmD HD0].
    { destruct (decide (m = 0)) as [->|]; [simpl; lia|]. rewrite Zdigits2_log2 by lia. pose proof (Z.log2_spec m). pose proof (Z.log2_nonneg m). lia. }
    destruct (decide (n <= 0)) as [Hs|Hs].
    - rewrite shr_nonpos by lia. cbn [fst snd]. rewrite record_of_loc_m. eexists _, _.
      split_and!; [done | done | lia | | lia | lia|].
      + eapply Z.lt_le_trans; [exact HmD|]. apply Z.pow_le_mono_r; lia.
      + intros H34. destruct (decide (d = 53)) as [->|]; [right; lia | left; lia].
    - destruct (shr_quot (shr_record_of_loc m l) e n) as [H1 H2]; [rewrite record_of_loc_m; lia | lia |].
      rewrite record_of_loc_m in H1. eexists _, _. split_and!; [exact H1 | exact H2 | | | lia | lia|].
      + apply Z.div_pos; lia.
      + apply Z.div_lt_upper_bound; [lia|]. rewrite <- Z.pow_add_r by lia. eapply Z.lt_le_trans; [exact HmD|].
        apply Z.pow_le_mono_r; lia.
      + intros H34. destruct (decide (e + n = d + e - 53)) as [Ed|]; [right | left; lia].
        replace n with (d - 53) by lia. apply Z.div_le_upper_bound; [lia|].
        assert (2 ^ d = 2 ^ (d - 53) * 2 ^ 53) as E by (rewrite <- Z.pow_add_r by lia; f_equal; lia).
        assert (1 <= 2 ^ (d - 53)) by lia. nia. }
  destruct (shr_fexp 53 1024 m e l) as [mrs e1']. cbn [fst snd] in *. subst m1 e1'.
  set (mr := round_nearest_even _ _).
  assert (0 <= mr <= 2 ^ 53 /\ mr <= shr_m mrs + 1) as Hmr.
  { unfold mr, round_nearest_even. destruct (loc_of_shr_record mrs) as [|[]]; [lia|destruct (Z.even _); lia|lia|lia]. }
  clearbody mr. unfold shr_fexp, fexp. destruct (decide (mr = 2 ^ 53)) as [->|].
  - change (Zdigits2 (2 ^ 53)) with 54. replace (Z.max (54 + e1 - 53) (emin 53 1024) - e1) with 1 by lia.
    cbn -[Z.leb Z.pow]. destruct (Z.leb_spec (e1 + 1) (1024 - 53)); [|lia]. split; [done|].
    destruct (decide (4 * m <= 3 * 2 ^ d)) as [H34|]; [destruct (Hq H34); left; lia|].
    destruct (decide (e1 <= d + e - 54)); [left; lia | right; split_and!; lia].
  - rewrite shr_nonpos by (pose proof (Zdigits2_le mr 53); lia). rewrite record_of_loc_m.
    destruct mr as [|p|p]; [done| |lia]. destruct (Z.leb_spec e1 (1024 - 53)); [|lia]. split; [done|]. lia.
Qed.

(** The quotient of two positive numbers with mantissas of 53 bits. *)
Lemma div_below mx ex my ey d :
  2 ^ 52 <= Zpos mx < 2 ^ 53 -> 2 ^ 52 <= Zpos my < 2 ^ 53 -> d = ex - ey -> -1020 <= d <= 500 ->
  match f64_div (S754_finite false mx ex) (S754_finite false my ey) with
  | S754_zero s => s = false
  | S754_finite s m' e' =>
      s = false /\ (e' <= d - 52 \/ (e' = d - 51 /\ Zpos m' = 2 ^ 52 /\ 3 * Zpos my < 2 * Zpos mx))
  | _ => False
  end.
Proof.
  intros Hmx Hmy -> Hd. unfold f64_div. cbn [SFdiv]. unfold SFdiv_core_binary.
  rewrite !Zdigits2_log2, (log2_unique' (Zpos mx) 53), (log2_unique' (Zpos my) 53) by lia.
  set (e' := Z.min _ _). assert (e' = ex - ey - 53) as -> by (unfold e', fexp, emin; lia).
  replace (ex - ey - (ex - ey - 53)) with 53 by lia. cbv zeta. rewrite Z.shiftl_mul_pow2 by lia.
  pose proof (Z.div_eucl_eq (Zpos mx * 2 ^ 53) (Zpos my) ltac:(lia)) as Hq.
  pose proof (Z.mod_pos_bound (Zpos mx * 2 ^ 53) (Zpos my) ltac:(lia)) as Hr.
  unfold Z.modulo in Hr. destruct (Z.div_eucl _ _) as [q r]. simpl xorb.
  match goal with |- context [binary_round_aux _ _ _ q ?e0 ?l] => set (l0 := l); set (e' := e0) end.
  assert (e' = ex - ey - 53) as He' by done. clearbody e' l0.
  pose proof (round_aux_below q e' l0 54) as H. destruct (binary_round_aux _ _ _ q e' l0) as [s|s| |s m' e2].
  - apply H; [nia | lia | unfold emin; lia | lia].
  - apply H; [nia | lia | unfold emin; lia | lia].
  - apply H; [nia | lia | unfold emin; lia | lia].
  - destruct H as (-> & H); [nia | lia | unfold emin; lia | lia|]. split; [done|].
    destruct H as [H|(H1 & H2 & H3)]; [left; lia | right]. split_and!; [lia | done|]. nia.
Qed.

(** ** The harmonic sum *)

(** A sum that has reached [k]. *)
Definition at_least (k : Z) (x : f64) : Prop :=
  match x with
  | S754_zero false => k = 0
  | S754_infinity false => True
  | S754_finite false m e => 2 ^ 52 <= Zpos m < 2 ^ 53 /\ -150 <= e <= 971 /\ (e < 0 -> k * 2 ^ (- e) <= Zpos m)
  | _ => False
  end.

Lemma pow2_neg_eq r : 0 <= r <= 61 -> exists m, f64_pow2_neg r = S754_finite false m (- r - 52) /\ Zpos m = 2 ^ 52.
Proof.
  intros Hr. destruct (round_spec 1 (- r)) as (m & e & Hm & He & E & _ & Hex & _); [lia | unfold emin; simpl; lia|].
  cbn [Z.log2] in *. destruct Hex as [Hv ->]; [lia|]. exists m. unfold f64_pow2_neg. rewrite E.
  destruct (Z.leb_spec (0 + 1 + - r - 53) (1024 - 53)); [|lia]. replace (0 + 1 + - r - 53) with (- r - 52) in * by lia.
  split; [done|]. rewrite Hv. replace (- r - (- r - 52)) with 52 by lia. done.
Qed.

(** Rounding does not lose what an integer sum has reached. *)
Lemma add_at_least k x r :
  at_least k x -> 0 <= k < 2 ^ 51 -> 0 <= r <= 61 -> at_least (k + if r =? 0 then 1 else 0) (f64_add x (f64_pow2_neg r)).
Proof.
  intros Hx Hk Hr. destruct (pow2_neg_eq r Hr) as (my & -> & Hmy). set (ey := - r - 52) in *.
  destruct x as [[]|[]| |[] mx ex]; try done.
  - simpl in Hx. subst k. cbn. split_and!; [lia | lia | lia | lia|]. intros _. rewrite Hmy.
    destruct (Z.eqb_spec r 0) as [->|]; [subst ey; simpl; lia | lia].
  - destruct Hx as (Hmx & Hex & Hv). unfold f64_add. cbn [SFadd cond_Zopp].
    set (ez := Z.min ex ey). destruct (shl_align_eq mx ex ez) as (qx & -> & Hqx); [lia|].
    destruct (shl_align_eq my ey ez) as (qy & -> & Hqy); [lia|]. cbn [fst].
    set (M := Zpos qx + Zpos qy). assert (Zpos mx * 2 ^ (ex - ez) + 2 ^ 52 * 2 ^ (ey - ez) = M) as HM by lia.
    clearbody M. assert (0 < 2 ^ (ex - ez)) as Hpx by lia. assert (0 < 2 ^ (ey - ez)) as Hpy by lia. assert (0 < M) as HM0 by nia.
    assert (ex <= Z.log2 M + 1 + ez - 53) as Hlog.
    { assert (52 + (ex - ez) <= Z.log2 M); [|lia]. apply Z.log2_le_pow2; [nia|]. rewrite Z.pow_add_r by lia. nia. }
    destruct (round_spec M ez) as (m & e & Hm & He & -> & Hq & _); [done | unfold emin; lia |].
    set (e1 := Z.log2 M + 1 + ez - 53) in *.
    destruct (Z.leb_spec e (1024 - 53)); [|done]. cbn. split_and!; [lia | lia | lia | lia|]. intros Hneg.
    set (k' := k + _). assert (0 <= k' < 2 ^ 52) as Hk' by (unfold k'; destruct (r =? 0); lia).
    (* the exact sum has reached k' *)
    assert (k' * 2 ^ (- ez) <= M) as Hreach.
    { assert (ez < 0) by lia.
      assert (k * 2 ^ (- ez) <= Zpos mx * 2 ^ (ex - ez)) as H1.
      { replace (- ez) with (- ex + (ex - ez)) by lia. specialize (Hv ltac:(lia)). rewrite Z.pow_add_r, Z.mul_assoc by lia.
        apply Z.mul_le_mono_nonneg_r; lia. }
      unfold k'. destruct (Z.eqb_spec r 0) as [->|]; [|lia].
      assert (2 ^ (- ez) = 2 ^ 52 * 2 ^ (ey - ez)) as H2 by (rewrite <- Z.pow_add_r by lia; f_equal; lia).
      rewrite Z.mul_add_distr_r. lia. }
    destruct (decide (e = e1)) as [Ee|Ee].
    + etransitivity; [|apply Hq; lia]. apply Z.div_le_lower_bound; [lia|]. rewrite Ee.
      replace (- ez) with (- e1 + (e1 - ez)) in Hreach by lia. rewrite Z.pow_add_r in Hreach by lia. nia.
    + assert (k' * 2 ^ (- e1) < 2 ^ 53) as Hlt.
      { apply (Z.mul_lt_mono_pos_r (2 ^ (e1 - ez))); [lia|]. rewrite <- Z.mul_assoc, <- !Z.pow_add_r by lia.
        replace (- e1 + (e1 - ez)) with (- ez) by lia. replace (53 + (e1 - ez)) with (Z.succ (Z.log2 M)) by lia.
        eapply Z.le_lt_trans; [exact Hreach | apply Z.log2_spec; lia]. }
      assert (k' * 2 ^ (1 - e) <= k' * 2 ^ (- e1)) as Hhalf by (apply Z.mul_le_mono_nonneg_l; [lia | apply Z.pow_le_mono_r; lia]).
      replace (1 - e) with (1 + - e) in Hhalf by lia. rewrite Z.pow_add_r in Hhalf by lia. clear - Hhalf Hlt Hm. lia.
Qed.

Lemma harmonic_at_least rs :
  Forall (fun r => 0 <= r <= 61) rs -> Z.of_nat (length rs) < 2 ^ 51 -> at_least (zeros rs) (harmonic rs).
Proof.
  intros Hr Hl. unfold harmonic.
  assert (forall k x, at_least k x -> 0 <= k -> k + Z.of_nat (length rs) < 2 ^ 51 ->
    at_least (k + zeros rs) (fold_left (fun acc r => f64_add acc (f64_pow2_neg r)) rs x)) as Hall.
  { clear Hl. induction Hr as [|r rs Hr _ IH]; intros k x Hx Hk Hl; cbn [fold_left].
    - unfold zeros. simpl. by rewrite Z.add_0_r.
    - assert (zeros (r :: rs) = (if r =? 0 then 1 else 0) + zeros rs) as ->.
      { unfold zeros. cbn [List.filter]. rewrite (Z.eqb_sym 0 r). destruct (r =? 0); simpl; lia. }
      rewrite Z.add_assoc. cbn [length] in Hl.
      apply IH; [by apply add_at_least; [|lia|] | destruct (r =? 0); lia | destruct (r =? 0); lia]. }
  apply (Hall 0); [done | lia | lia].
Qed.

(** ** Linear counting *)

(** The numerator of the raw estimate, [alpha * m * m]. *)
Definition numerator (p : Z) : f64 :=
  let m := f64_of_u64 (2 ^ p) in f64_mul (f64_mul (alpha (2 ^ p) m) m) m.

Definition precisions : list Z := [4; 5; 6; 7; 8; 9; 10; 11; 12; 13; 14; 15; 16].

Lemma in_precisions p : 4 <= p <= 16 -> p ∈ precisions.
Proof.
  intros Hp. assert (p = 4 \/ p = 5 \/ p = 6 \/ p = 7 \/ p = 8 \/ p = 9 \/ p = 10 \/ p = 11 \/ p = 12 \/ p = 13 \/
                     p = 14 \/ p = 15 \/ p = 16) as H by lia.
  unfold precisions. repeat destruct H as [->|H]; [repeat (left || right)..|]. subst p. repeat (left || right).
Qed.

Lemma numerators :
  forallb (fun p => match numerator p with
                    | S754_finite false m e => (2 ^ 52 <=? Zpos m) && (Zpos m <? 2 ^ 53) && (e =? 2 * p - 53)
                    | _ => false
                    end &&
                    match f64_mul (f64_lit 5 2) (f64_of_u64 (2 ^ p)) with
                    | S754_finite false m e => (Zpos m =? 5 * 2 ^ 50) && (e =? p - 51)
                    | _ => false
                    end)
    precisions = true.
Proof. vm_compute. reflexivity. Qed.

(** While half of the registers are empty, the raw estimate is in the small range. *)
Lemma raw_small p h :
  4 <= p <= 16 -> at_least (2 ^ (p - 1)) h ->
  f64_le (f64_div (numerator p) h) (f64_mul (f64_lit 5 2) (f64_of_u64 (2 ^ p))) = true.
Proof.
  intros Hp Hh. pose proof numerators as Hn. rewrite forallb_forall in Hn.
  specialize (Hn p (proj1 (list_elem_of_In _ _) (in_precisions p Hp))). apply andb_true_iff in Hn as [Hn Hm].
  destruct (f64_mul (f64_lit 5 2) _) as [| | |[] mb eb]; try done. apply andb_true_iff in Hm as [Hmb%Z.eqb_eq ->%Z.eqb_eq].
  destruct (numerator p) as [| | |[] mx ex]; try done.
  apply andb_true_iff in Hn as [[H1%Z.leb_le H2%Z.ltb_lt]%andb_true_iff ->%Z.eqb_eq].
  assert (0 < 2 ^ (p - 1)) as Hpos by lia.
  destruct h as [[]|[]| |[] my ey]; try done; [simpl in Hh; lia|]. destruct Hh as (Hmy & Hey & Hv).
  assert (p - 53 <= ey) as Hge.
  { destruct (decide (ey < p - 53)); [|lia]. specialize (Hv ltac:(lia)).
    assert (2 ^ 53 <= 2 ^ (p - 1) * 2 ^ (- ey)); [|lia]. rewrite <- Z.pow_add_r by lia. apply Z.pow_le_mono_r; lia. }
  pose proof (div_below mx (2 * p - 53) my ey _ ltac:(lia) Hmy eq_refl ltac:(lia)) as H.
  destruct (f64_div _ _) as [s|s| |s m' e']; [by subst s | done | done|]. destruct H as (-> & H).
  rewrite f64_le_finite. apply orb_true_iff. destruct (decide (e' < p - 51)); [left; by apply Z.ltb_lt|].
  right. apply andb_true_iff. split; [apply Z.eqb_eq; lia | apply Z.leb_le]. destruct H as [?|(_ & -> & _)]; lia.
Qed.

Section counting.
Context (hash : string -> Z) (ln : f64 -> f64).

Lemma linear_counting h :
  hll_ok h -> 2 ^ (precision h - 1) <= zeros (registers h) ->
  estimate ln h = f64_mul (f64_of_u64 (2 ^ precision h))
                    (ln (f64_div (f64_of_u64 (2 ^ precision h)) (f64_of_u64 (zeros (registers h))))).
Proof.
  intros (Hp & Hl & Hr) Hz. assert (Z.of_nat (length (registers h)) = 2 ^ precision h) as El by (rewrite Hl; lia).
  assert (2 ^ precision h <= 2 ^ 16) as Hle by (apply Z.pow_le_mono_r; lia).
  unfold estimate. rewrite El. cbv zeta. fold (numerator (precision h)). assert (0 < 2 ^ (precision h - 1)) by lia.
  pose proof (harmonic_at_least (registers h)) as Hh. rewrite raw_small; [|done|].
  - assert ((0 <? zeros (registers h)) = true) as -> by (apply Z.ltb_lt; lia). done.
  - assert (at_least (zeros (registers h)) (harmonic (registers h))) as Hat.
    { apply Hh; [|rewrite El; lia]. eapply Forall_impl; [exact Hr|]. simpl. lia. }
    revert Hat. unfold at_least. destruct (harmonic _) as [[]|[]| |[] m e]; try done; [lia|].
    intros (? & ? & Hv). split; [done|]. split; [done|]. intros He. specialize (Hv He). etransitivity; [|exact Hv].
    apply Z.mul_le_mono_nonneg_r; lia.
Qed.

(** Each key fills at most one register. *)
Lemma zeros_insert rs i r : zeros rs - 1 <= zeros (<[i := r]> rs).
Proof.
  revert i; induction rs as [|x rs IH]; intros i; [by destruct i|]. unfold zeros in *. destruct i as [|i]; simpl.
  - destruct x, r; simpl; lia.
  - specialize (IH i). destruct x; simpl in *; lia.
Qed.

Lemma zeros_add_all keys h :
  zeros (registers h) - Z.of_nat (length keys) <= zeros (registers (add_all hash h keys)).
Proof.
  revert h. induction keys as [|k keys IH]; intros h; [simpl; lia|]. cbn [add_all fold_left length].
  etransitivity; [|apply IH]. unfold add. destruct (registers h !! _) as [old|]; [|lia]. case_cmp; [|lia]. simpl.
  pose proof (zeros_insert (registers h) (index hash (precision h) k) (rank hash (precision h) k)). lia.
Qed.

(** The logarithm is a double and at most its tangent at 1: with [m] registers
    and [z] of them empty, [ln (m / z) <= (m - z) / z].  Only ratios between 1 and
    4/3 are asked about, where the gap is far above the rounding of any library. *)
Definition below_tangent (p : Z) : Prop :=
  forall z, 3 * 2 ^ (p - 2) <= z <= 2 ^ p ->
    let x := ln (f64_div (f64_of_u64 (2 ^ p)) (f64_of_u64 z)) in
    valid_binary 53 1024 x = true /\ f64_le x (f64_div (f64_of_u64 (2 ^ p - z)) (f64_of_u64 z)) = true.

(** The tangent is small when few registers are filled. *)
Lemma tangent_small p b z :
  4 <= p <= 16 -> 0 <= b <= p - 2 -> 2 ^ p - 2 ^ b < z <= 2 ^ p ->
  match f64_div (f64_of_u64 (2 ^ p - z)) (f64_of_u64 z) with
  | S754_zero s => s = false
  | S754_finite s m e => s = false /\ e <= b - p - 52
  | _ => False
  end.
Proof.
  intros Hp Hb Hz. assert (2 ^ p <= 2 ^ 16) by (apply Z.pow_le_mono_r; lia).
  assert (2 ^ b <= 2 ^ (p - 2)) by (apply Z.pow_le_mono_r; lia).
  assert (2 ^ p = 4 * 2 ^ (p - 2)) as E4 by (replace p with (2 + (p - 2)) at 1 by lia; rewrite Z.pow_add_r by lia; done).
  assert (0 < 2 ^ (p - 2)) by lia. destruct (of_u64_exact z) as (mz & -> & Hmz & Hmz'); [lia|].
  destruct (decide (2 ^ p - z = 0)) as [->|]; [done|].
  destruct (of_u64_exact (2 ^ p - z)) as (mj & -> & Hmj & Hmj'); [lia|].
  assert (Z.log2 (2 ^ p - z) < b) as Hlj by (apply Z.log2_lt_pow2; lia).
  assert (p - 1 <= Z.log2 z) as Hlz.
  { apply Z.log2_le_pow2; [lia|]. assert (2 ^ (p - 1) = 2 * 2 ^ (p - 2)) as ->; [|lia].
    replace (p - 1) with (1 + (p - 2)) by lia. by rewrite Z.pow_add_r by lia. }
  pose proof (Z.log2_nonneg (2 ^ p - z)). pose proof (log2_53 z).
  pose proof (div_below mj (Z.log2 (2 ^ p - z) - 52) mz (Z.log2 z - 52) _ Hmj' Hmz' eq_refl ltac:(lia)) as H'.
  destruct (f64_div _ _) as [s|s| |s m e]; [done..|]. destruct H' as (-> & H'). split; [done|].
  destruct H' as [?|(? & _ & Hr)]; [lia|].
  (* a mantissa that overflows needs a divisor below three quarters of a power of two *)
  destruct (decide (Z.log2 z = p - 1)) as [Elz|]; [|lia]. exfalso. rewrite Elz in Hmz.
  assert (3 * 2 ^ (p - 2) <= z) as H34 by lia.
  assert (3 * 2 ^ 51 <= Zpos mz); [|lia]. rewrite Hmz.
  assert (2 ^ 51 = 2 ^ (p - 2) * 2 ^ (52 - (p - 1))) as -> by (rewrite <- Z.pow_add_r by lia; f_equal; lia).
  rewrite Z.mul_assoc. apply Z.mul_le_mono_nonneg_r; lia.
Qed.

Lemma round_aux_negative d m e l : 0 < d < 2 ^ 53 -> f64_gt (binary_round_aux 53 1024 true m e l) (f64_of_u64 d) = false.
Proof.
  intros Hd. destruct (of_u64_exact d Hd) as (md & -> & _). unfold f64_gt, SFltb, binary_round_aux.
  destruct (shr_fexp 53 1024 m e l) as [mrs e1]. destruct (shr_fexp _ _ _ _ _) as [[[] ? ?] ?]; cbn [shr_m]; [done| |done].
  by destruct (_ <=? _).
Qed.

Lemma valid_mantissa m e :
  valid_binary 53 1024 (S754_finite false m e) = true ->
  Zpos m < 2 ^ 53 /\ emin 53 1024 <= e /\ (emin 53 1024 < e -> 2 ^ 52 <= Zpos m).
Proof.
  unfold valid_binary, bounded, canonical_mantissa. intros [H%Z.eqb_eq _]%andb_true_iff.
  rewrite digits2_log2 in H. unfold fexp in H. split_and!; [apply Z.log2_lt_pow2; lia | lia|].
  intros He. apply Z.log2_le_pow2; lia.
Qed.

(** A double below a small tangent, times the number of registers. *)
Lemma product_small p b d x t :
  4 <= p <= 16 -> 0 <= b <= p - 2 -> 2 ^ (b + 1) <= d < 2 ^ 53 ->
  valid_binary 53 1024 x = true -> f64_le x t = true ->
  match t with
  | S754_zero s => s = false
  | S754_finite s m e => s = false /\ e <= b - p - 52
  | _ => False
  end ->
  f64_gt (f64_mul (f64_of_u64 (2 ^ p)) x) (f64_of_u64 d) = false.
Proof.
  intros Hp Hb Hd Hx Hle Ht. assert (0 < 2 ^ (b + 1)) by lia. assert (0 < 2 ^ p <= 2 ^ 16) by (split; [lia | apply Z.pow_le_mono_r; lia]).
  destruct (of_u64_exact (2 ^ p)) as (mp & -> & Hmp & _); [lia|]. rewrite Z.log2_pow2, <- Z.pow_add_r in Hmp by lia.
  rewrite Z.log2_pow2 by lia. replace (p + (52 - p)) with 52 in Hmp by lia.
  destruct x as [s|[]| |[] mx ex].
  - destruct (of_u64_exact d) as (md & -> & _); [lia|]. done.
  - destruct (of_u64_exact d) as (md & -> & _); [lia|]. done.
  - by destruct t as [| | |[]].
  - done.
  - unfold f64_mul. cbn [SFmul xorb]. apply round_aux_negative. lia.
  - destruct (valid_mantissa mx ex Hx) as (Hmx & Hex & _).
    assert (ex <= b - p - 52) as He.
    { destruct t as [[]|[]| |[] mt et]; try done. destruct Ht as [_ Ht].
      rewrite f64_le_finite in Hle. apply orb_true_iff in Hle as [?%Z.ltb_lt|[?%Z.eqb_eq _]%andb_true_iff]; lia. }
    unfold f64_mul. cbn [SFmul xorb]. pose proof (round_aux_below (Zpos (mp * mx)) (p - 52 + ex) loc_Exact 105) as Hr.
    destruct (of_u64_exact d) as (md & -> & Hmd & Hmd'); [lia|].
    assert (b + 1 <= Z.log2 d) as Hld by (apply Z.log2_le_pow2; lia).
    assert (0 <= Zpos (mp * mx) < 2 ^ 105) as Hm by (rewrite Pos2Z.inj_mul, Hmp; lia).
    destruct (binary_round_aux _ _ _ _ _ _) as [s|s| |s m' e'].
    + rewrite Hr by (unfold emin in *; lia). done.
    + exfalso. apply Hr; unfold emin in *; lia.
    + done.
    + destruct Hr as (-> & Hr); [unfold emin in *; lia..|]. unfold f64_gt, SFltb. cbn [SFcompare]. rewrite pos_compare.
      destruct (Z.compare_spec (Z.log2 d - 52) e'); [|lia|done].
      destruct Hr as [?|(_ & E & _)]; [lia|]. rewrite E. destruct (Z.compare_spec (Zpos md) (2 ^ 52)); (done || lia).
Qed.

Lemma zeros_new p h : HyperLogLog_new p = Some h -> zeros (registers h) = 2 ^ p.
Proof.
  unfold HyperLogLog_new. destruct (Z.leb_spec 4 p), (Z.leb_spec p 16); try done. intros [= <-]. simpl. unfold zeros.
  rewrite Z.shiftl_mul_pow2, Z.mul_1_l by lia. rewrite <- (Z2Nat.id (2 ^ p)) at 2 by lia. clear.
  induction (Z.to_nat (2 ^ p)) as [|n IH]; [done|]. simpl. lia.
Qed.

(** Fewer than [2 ^ b] distinct keys are never estimated above [2 ^ (b + 1)],
    whatever their hashes. *)
Lemma few_keys_estimate p h keys b d :
  below_tangent p -> HyperLogLog_new p = Some h -> 0 <= b <= p - 2 -> Z.of_nat (length (remove_dups keys)) < 2 ^ b -> 2 ^ (b + 1) <= d < 2 ^ 53 ->
  f64_gt (estimate ln (add_all hash h keys)) (f64_of_u64 d) = false.
Proof.
  intros Hln Hnew Hb Hk Hd. destruct (hll_new_ok p h Hnew) as [Hok Ep]. pose proof Hok as (Hp & _). rewrite Ep in Hp.
  assert (add_all hash h keys = add_all hash h (remove_dups keys)) as ->.
  { apply hll_same_set. intros k. by rewrite elem_of_remove_dups. }
  set (ks := remove_dups keys) in *. pose proof (zeros_add_all ks h) as Hz.
  rewrite (zeros_new p h Hnew) in Hz.
  assert (2 ^ b <= 2 ^ (p - 2)) by (apply Z.pow_le_mono_r; lia).
  assert (2 ^ p = 4 * 2 ^ (p - 2)) as E4 by (replace p with (2 + (p - 2)) at 1 by lia; rewrite Z.pow_add_r by lia; done).
  assert (2 ^ (p - 1) = 2 * 2 ^ (p - 2)) as E2 by (replace (p - 1) with (1 + (p - 2)) by lia; by rewrite Z.pow_add_r by lia).
  assert (hll_ok (add_all hash h ks)) as Hok'.
  { clear - Hok. revert h Hok. induction ks as [|k ks IH]; intros h Hok; [done|]. apply (IH (add hash h k)).
    by apply add_ok. }
  destruct (add_all_lookup hash h ks 0) as [Ep' _]. rewrite Ep in Ep'. rewrite linear_counting, Ep' by (rewrite ?Ep'; done || lia).
  assert (zeros (registers (add_all hash h ks)) <= 2 ^ p) as Hup.
  { destruct Hok' as (_ & Hl & _). rewrite Ep' in Hl. unfold zeros. pose proof (filter_length_le (Z.eqb 0) (registers (add_all hash h ks))). lia. }
  assert (2 ^ p <= 2 ^ 16) by (apply Z.pow_le_mono_r; lia).
  destruct (Hln (zeros (registers (add_all hash h ks)))) as [Hv Ht]; [lia|].
  eapply product_small; [done | done | done | exact Hv | exact Ht | apply tangent_small; lia].
Qed.

(** ** Many filled registers *)

(** The logarithm is at least its secant: [ln (m / z) >= (m - z) / m]. *)
Definition above_secant (p : Z) : Prop :=
  forall z, 2 ^ (p - 1) <= z <= 2 ^ p ->
    let x := ln (f64_div (f64_of_u64 (2 ^ p)) (f64_of_u64 z)) in
    valid_binary 53 1024 x = true /\ f64_le (f64_div (f64_of_u64 (2 ^ p - z)) (f64_of_u64 (2 ^ p))) x = true.

(** Rounding a product by a power of two loses nothing. *)
Lemma round_scaled m e k l :
  2 ^ 52 <= Zpos m < 2 ^ 53 -> 0 <= k -> l = loc_Exact -> emin 53 1024 <= e ->
  exists m' e', binary_round_aux 53 1024 false (Zpos m * 2 ^ k) e l =
      (if e' <=? 1024 - 53 then S754_finite false m' e' else S754_infinity false) /\ e' <= e + k + 1 /\
    (e + k < e' \/ (e + k = e' /\ Zpos m <= Zpos m')).
Proof.
  intros Hm Hk -> He. assert (0 < 2 ^ k) as Hpk by lia.
  assert (Z.log2 (Zpos m * 2 ^ k) = 52 + k) as Hlog.
  { rewrite Z.log2_mul_pow2 by lia. rewrite (log2_unique' (Zpos m) 53) by lia. lia. }
  destruct (Zpos m * 2 ^ k) as [|q|q] eqn:Eq; [lia| |lia].
  destruct (round_spec (Zpos q) e) as (m' & e' & Hm' & He' & E & Hq & _ & Hle); [lia | rewrite Hlog; lia|].
  cbn [binary_normalize] in E. unfold binary_round in E. rewrite digits2_log2, Hlog in E.
  assert (shl_align q e (fexp 53 1024 (52 + k + 1 + e)) = (q, e)) as Ea.
  { unfold shl_align. assert (fexp 53 1024 (52 + k + 1 + e) - e = k) as -> by (unfold fexp; lia). destruct k; [done | done | lia]. }
  rewrite Ea in E. rewrite Hlog in *. exists m', e'. rewrite E. split; [done|]. split; [lia|].
  destruct (decide (e' = 52 + k + 1 + e - 53)) as [->|]; [right | left; lia]. split; [lia|].
  etransitivity; [|apply Hq; lia]. replace (52 + k + 1 + e - 53 - e) with k by lia. rewrite <- Eq, Z.div_mul by lia. done.
Qed.

(** The secant, and a double above it times the number of registers. *)
Lemma secant_large p j :
  4 <= p <= 16 -> 0 < j <= 2 ^ p ->
  exists m' e', f64_div (f64_of_u64 j) (f64_of_u64 (2 ^ p)) = S754_finite false m' e' /\
    (Z.log2 j - 52 - p < e' \/ (Z.log2 j - 52 - p = e' /\ j * 2 ^ (52 - Z.log2 j) <= Zpos m')).
Proof.
  intros Hp Hj. assert (0 < 2 ^ p <= 2 ^ 16) by (split; [lia | apply Z.pow_le_mono_r; lia]).
  destruct (of_u64_exact j) as (mj & -> & <- & Hmj); [lia|].
  destruct (of_u64_exact (2 ^ p)) as (mp & -> & Hmp & _); [lia|]. rewrite Z.log2_pow2, <- Z.pow_add_r in Hmp by lia.
  rewrite Z.log2_pow2 by lia. replace (p + (52 - p)) with 52 in Hmp by lia. pose proof (log2_53 j).
  unfold f64_div. cbn [SFdiv]. unfold SFdiv_core_binary.
  rewrite !Zdigits2_log2, (log2_unique' (Zpos mj) 53), (log2_unique' (Zpos mp) 53) by lia.
  set (e' := Z.min _ _). assert (e' = Z.log2 j - 52 - (p - 52) - 53) as -> by (unfold e', fexp, emin; lia).
  replace (Z.log2 j - 52 - (p - 52) - (Z.log2 j - 52 - (p - 52) - 53)) with 53 by lia. cbv zeta.
  rewrite Z.shiftl_mul_pow2, Hmp by lia.
  assert (Z.div_eucl (Zpos mj * 2 ^ 53) (2 ^ 52) = (Zpos mj * 2 ^ 1, 0)) as Ed.
  { rewrite (surjective_pairing (Z.div_eucl _ _)). f_equal.
    - change ((Zpos mj * 2 ^ 53) / 2 ^ 52 = Zpos mj * 2 ^ 1). replace (2 ^ 53) with (2 ^ 1 * 2 ^ 52) by done. rewrite Z.mul_assoc. by apply Z.div_mul.
    - change ((Zpos mj * 2 ^ 53) mod 2 ^ 52 = 0). replace (2 ^ 53) with (2 ^ 1 * 2 ^ 52) by done. rewrite Z.mul_assoc. by apply Z.mod_mul. }
  rewrite Ed. simpl xorb.
  destruct (round_scaled mj (Z.log2 j - 52 - (p - 52) - 53) 1 (new_location (2 ^ 52) 0)) as (m' & e2 & E & Hu & Hv);
    [done | lia | done | unfold emin; lia|].
  exists m', e2. destruct (Z.leb_spec e2 (1024 - 53)); [|lia]. split; [exact E|]. destruct Hv as [?|[? ?]]; [left; lia | right; split; [lia | done]].
Qed.

Lemma product_large p d j x :
  4 <= p <= 16 -> 0 <= d < j -> j <= 2 ^ p ->
  valid_binary 53 1024 x = true -> f64_le (f64_div (f64_of_u64 j) (f64_of_u64 (2 ^ p))) x = true ->
  f64_gt (f64_mul (f64_of_u64 (2 ^ p)) x) (f64_of_u64 d) = true.
Proof.
  intros Hp Hd Hj Hx Hle. destruct (secant_large p j Hp ltac:(lia)) as (mt & et & Et & Ht). rewrite Et in Hle.
  assert (0 < 2 ^ p <= 2 ^ 16) by (split; [lia | apply Z.pow_le_mono_r; lia]).
  destruct (of_u64_exact (2 ^ p)) as (mp & -> & Hmp & _); [lia|]. rewrite Z.log2_pow2, <- Z.pow_add_r in Hmp by lia.
  rewrite Z.log2_pow2 by lia. replace (p + (52 - p)) with 52 in Hmp by lia. pose proof (log2_53 j).
  assert (f64_of_u64 d = S754_zero false \/ exists md, f64_of_u64 d = S754_finite false md (Z.log2 d - 52) /\
            (Z.log2 d < Z.log2 j \/ (Z.log2 d = Z.log2 j /\ Zpos md < j * 2 ^ (52 - Z.log2 j)))) as Hdd.
  { destruct (decide (d = 0)) as [->|]; [by left|]. right. destruct (of_u64_exact d) as (md & E & Hmd & _); [lia|].
    exists md. split; [done|]. pose proof (Z.log2_le_mono d j ltac:(lia)). destruct (decide (Z.log2 d = Z.log2 j)) as [El|]; [|left; lia].
    right. split; [done|]. rewrite Hmd, El. apply Z.mul_lt_mono_pos_r; lia. }
  destruct x as [s|[]| |[] mx ex]; try done.
  { destruct Hdd as [->|(md & -> & _)]; done. }
  destruct (valid_mantissa mx ex Hx) as (Hmx & Hex & Hnorm). rewrite f64_le_finite in Hle.
  assert (et < ex \/ (et = ex /\ Zpos mt <= Zpos mx)) as Hlex.
  { apply orb_true_iff in Hle as [?%Z.ltb_lt|[?%Z.eqb_eq ?%Z.leb_le]%andb_true_iff]; [by left | by right]. }
  specialize (Hnorm ltac:(unfold emin; lia)). unfold f64_mul. cbn [SFmul xorb].
  destruct (round_scaled mx (p - 52 + ex) 52 loc_Exact) as (m' & e' & E & _ & Hv); [lia | lia | done | unfold emin; lia|].
  replace (Zpos (mp * mx)) with (Zpos mx * 2 ^ 52) by lia. rewrite E.
  destruct (e' <=? 1024 - 53); [|by destruct Hdd as [->|(md & -> & _)]].
  destruct Hdd as [->|(md & -> & Hmd)]; [done|]. unfold f64_gt, SFltb. cbn [SFcompare]. rewrite pos_compare.
  destruct (Z.compare_spec (Z.log2 d - 52) e'); [|done|lia].
  destruct (Z.compare_spec (Zpos md) (Zpos m')); [lia | done | lia].
Qed.

(** Keys on different registers leave that many fewer empty. *)
Lemma zeros_filled rs ids :
  NoDup ids -> (forall i, i ∈ ids -> exists r, rs !! i = Some r /\ r <> 0) -> zeros rs + Z.of_nat (length ids) <= Z.of_nat (length rs).
Proof.
  intros Hnd. revert rs. induction Hnd as [|i ids Hi Hnd IH]; intros rs Hin.
  - simpl. unfold zeros. pose proof (filter_length_le (Z.eqb 0) rs). lia.
  - destruct (Hin i ltac:(left)) as (r & Hr & Hr0).
    assert (zeros (<[i := 0]> rs) = zeros rs + 1) as Ez.
    { clear - Hr Hr0. revert i Hr. induction rs as [|x rs IH]; intros i Hr; [by destruct i|]. unfold zeros in *. destruct i as [|i].
      - injection Hr as ->. simpl. destruct r; simpl; lia.
      - specialize (IH i Hr). change (<[S i := 0]> (x :: rs)) with (x :: <[i := 0]> rs). cbn [List.filter].
        destruct (0 =? x); cbn [length]; lia. }
    assert (zeros (<[i := 0]> rs) + Z.of_nat (length ids) <= Z.of_nat (length (<[i := 0]> rs))) as Hle.
    { apply IH. intros j Hj. destruct (Hin j ltac:(by right)) as (s & Hs & Hs0). exists s. split; [|done].
      rewrite list_lookup_insert_ne; [done|]. intros ->. done. }
    rewrite length_insert in Hle. cbn [length]. lia.
Qed.

Hypothesis hash_range : forall key, in_uint 64 (hash key).

Lemma filled_nonzero p h keys key :
  HyperLogLog_new p = Some h -> key ∈ keys -> exists r, registers (add_all hash h keys) !! index hash p key = Some r /\ r <> 0.
Proof.
  intros Hnew Hin. destruct (hll_new_ok p h Hnew) as [(Hp & Hl & _) Ep]. rewrite Ep in *.
  pose proof (index_range hash hash_range p key Hp) as Hi. rewrite <- Hl in Hi. apply lookup_lt_is_Some in Hi as [r0 Hr0].
  destruct (add_all_lookup hash h keys (index hash p key)) as [_ E]. rewrite Hr0, Ep in E. rewrite E. eexists. split; [reflexivity|].
  assert (rank hash p key ∈ ranks_at hash p (index hash p key) keys) as Hrk.
  { unfold ranks_at. apply list_elem_of_fmap. exists key. split; [done|]. apply list_elem_of_In, filter_In.
    split; [by apply list_elem_of_In | by apply Nat.eqb_eq]. }
  pose proof (rank_range hash p key Hp) as Hr1.
  pose proof (fold_max_mono [rank hash p key] (ranks_at hash p (index hash p key) keys) r0) as Hm.
  cbn [fold_left] in Hm. specialize (Hm ltac:(by intros x ->%list_elem_of_singleton)). lia.
Qed.

(** More filled registers than the limit, at most half of all, are estimated above
    it. *)
Lemma many_registers_estimate p h keys d :
  above_secant p -> HyperLogLog_new p = Some h -> Z.of_nat (length (remove_dups keys)) <= 2 ^ (p - 1) ->
  0 <= d < Z.of_nat (length (remove_dups (map (index hash p) keys))) ->
  f64_gt (estimate ln (add_all hash h keys)) (f64_of_u64 d) = true.
Proof.
  intros Hln Hnew Hk Hd. destruct (hll_new_ok p h Hnew) as [Hok Ep]. pose proof Hok as (Hp & Hlen & _). rewrite Ep in *.
  assert (hll_ok (add_all hash h keys)) as Hok'.
  { clear - Hok. revert h Hok. induction keys as [|k keys IH]; intros h Hok; [done|]. apply (IH (add hash h k)). by apply add_ok. }
  destruct (add_all_lookup hash h keys 0) as [Ep' _]. rewrite Ep in Ep'.
  assert (2 ^ p = 2 * 2 ^ (p - 1)) as E2 by (replace p with (1 + (p - 1)) at 1 by lia; by rewrite Z.pow_add_r by lia).
  set (z := zeros (registers (add_all hash h keys))). assert (2 ^ (p - 1) <= z) as Hlo.
  { unfold z. assert (add_all hash h keys = add_all hash h (remove_dups keys)) as ->.
    { apply hll_same_set. intros k. by rewrite elem_of_remove_dups. }
    pose proof (zeros_add_all (remove_dups keys) h) as Hz. rewrite (zeros_new p h Hnew) in Hz. lia. }
  assert (z + Z.of_nat (length (remove_dups (map (index hash p) keys))) <= 2 ^ p) as Hhi.
  { pose proof (zeros_filled (registers (add_all hash h keys)) (remove_dups (map (index hash p) keys)) (NoDup_remove_dups _)) as Hz.
    destruct Hok' as (_ & Hl' & _). rewrite Hl', Ep' in Hz. fold z in Hz. rewrite Z2Nat.id in Hz by lia. apply Hz.
    intros i Hi. apply elem_of_remove_dups, list_elem_of_fmap in Hi as (k & -> & Hk'). by apply filled_nonzero. }
  rewrite linear_counting, Ep' by (rewrite ?Ep'; done). fold z. destruct (Hln z) as [Hv Hs]; [lia|].
  eapply product_large; [done | | | exact Hv | exact Hs]; lia.
Qed.

End counting.
