(* ===== verification/VelocityTests.v ===== *)
(** * Verdicts of the velocity limiter, and the tests of the sketches

    Which actors the limiter allows and denies, from the bounds on estimates of
    [Estimate]; and with them the tests of [hll.rs] and [velocity.rs] that observe
    few keys, which pass for every hasher, and the one that needs a hasher that
    spreads its keys. *)

From Stdlib Require Import Floats.SpecFloat.
From S2P Require Import Prelude Machine Str F64 HashMap Suite Abuse Hll Velocity Estimate.

#[local] Open Scope string_scope.
#[local] Open Scope list_scope.
#[local] Open Scope Z_scope.

(** ** Actors with few targets *)

Section few.
Context (hash : string -> Z) (ln : f64 -> f64) `{!HashOrder string}.
Hypothesis ln_tangent : below_tangent ln PRECISION.

(** A history of touches: actor, target and time. *)
Definition played (l : DistinctVelocityLimiter) (hits : list (string * string * Z)) : DistinctVelocityLimiter :=
  fold_left (fun l '(a, t, now) => (velocity_check hash ln l a t now).2) hits l.

(** The targets that an actor touched in the window of index [idx]. *)
Definition targets_in (w : Z) (actor : string) (idx : Z) (hits : list (string * string * Z)) : list string :=
  omap (fun '(a, t, now) => if bool_decide (a = actor) && (now / w =? idx) then Some t else None) hits.

Lemma elem_of_targets_in w actor idx hits t :
  t ∈ targets_in w actor idx hits <-> exists now, (actor, t, now) ∈ hits /\ now / w = idx.
Proof.
  unfold targets_in. rewrite list_elem_of_omap. split.
  - intros ([[a t'] now] & Hin & E). case_bool_decide; [subst a|done].
    destruct (Z.eqb_spec (now / w) idx); [|done]. simplify_eq/=. by exists now.
  - intros (now & Hin & <-). exists (actor, t, now). split; [done|]. by rewrite bool_decide_true, Z.eqb_refl.
Qed.

(** What an actor's sketch holds was touched by it in its window. *)
Definition remembers (w : Z) (hits : list (string * string * Z)) (actor : string) (a : ActorWindow) : Prop :=
  exists ks, seen a = add_all hash hll_fresh ks /\ forall k, k ∈ ks -> k ∈ targets_in w actor (actor_window a) hits.

Lemma remembers_touch w hits m actor target now :
  (forall x, m !! actor = Some x -> remembers w hits actor x) ->
  remembers w (hits ++ [(actor, target, now)]) actor (touch hash m actor target (now / w)).
Proof.
  intros Hm. assert (target ∈ targets_in w actor (now / w) (hits ++ [(actor, target, now)])) as Hnew.
  { apply elem_of_targets_in. exists now. split; [set_solver | done]. }
  assert (remembers w (hits ++ [(actor, target, now)]) actor (MkActorWindow (now / w) (add hash hll_fresh target))) as Hfresh.
  { exists [target]. split; [done|]. cbn [actor_window]. intros k ->%list_elem_of_singleton. done. }
  unfold touch. destruct (m !! actor) as [x|] eqn:E; cbn [default from_option id]; [|by rewrite Z.eqb_refl].
  destruct (Z.eqb_spec (actor_window x) (now / w)) as [Ew|]; [|done]. destruct (Hm x eq_refl) as (ks & Es & Hks).
  exists (ks ++ [target]). cbn [seen actor_window]. split.
  - rewrite Es. unfold add_all. by rewrite fold_left_app.
  - intros k [Hk| ->%list_elem_of_singleton]%elem_of_app; [|by rewrite Ew]. apply elem_of_targets_in.
    destruct (proj1 (elem_of_targets_in _ _ _ _ _) (Hks k Hk)) as (t & Ht & E'). exists t. split; [set_solver | done].
Qed.

Lemma remembers_mono w hits hits' actor a : (forall h, h ∈ hits -> h ∈ hits') -> remembers w hits actor a -> remembers w hits' actor a.
Proof.
  intros Hsub (ks & Es & Hks). exists ks. split; [done|]. intros k Hk. apply elem_of_targets_in.
  destruct (proj1 (elem_of_targets_in _ _ _ _ _) (Hks k Hk)) as (t & Ht & E'). exists t. split; [by apply Hsub | done].
Qed.

Lemma played_remembers w d cap l hits :
  velocity_with_capacity w d cap = Some l ->
  velocity_window_ms (played l hits) = w /\ max_distinct (played l hits) = d /\
  forall actor a, actors (played l hits) !! actor = Some a -> remembers w hits actor a.
Proof.
  intros Hl. induction hits as [|[[actor target] now] hits IH] using rev_ind.
  - unfold velocity_with_capacity in Hl. destruct (_ && _); [|done]. injection Hl as <-. split_and!; [done..|].
    intros actor a. simpl. by rewrite lookup_empty.
  - unfold played in *. rewrite fold_left_app. cbn [fold_left]. set (l' := fold_left _ hits l) in *. clearbody l'.
    destruct IH as (Hw & Hd & Hr). cbn [velocity_check snd velocity_window_ms max_distinct actors]. split_and!; [done..|].
    assert (forall x y, evict_actor l' actor !! x = Some y -> remembers w hits x y) as Hev.
    { intros x y Hy. apply Hr. eapply lookup_weaken; [exact Hy | apply hm_make_room_subseteq]. }
    intros x y [[<- <-]|[_ Hy]]%lookup_insert_Some; rewrite ?Hw.
    + apply remembers_touch. apply Hev.
    + eapply remembers_mono; [|by apply Hev]. set_solver.
Qed.

Lemma remove_dups_mono (l l' : list string) :
  (forall x, x ∈ l -> x ∈ l') -> (length (remove_dups l) <= length (remove_dups l'))%nat.
Proof.
  intros Hsub. apply submseteq_length, NoDup_submseteq; [apply NoDup_remove_dups|].
  intros x. rewrite !elem_of_remove_dups. apply Hsub.
Qed.

Lemma few_targets w d cap l hits actor target now b :
  velocity_with_capacity w d cap = Some l -> 0 <= b <= 8 -> 2 ^ (b + 1) <= d < 2 ^ 53 ->
  Z.of_nat (length (remove_dups (target :: targets_in w actor (now / w) hits))) < 2 ^ b ->
  (velocity_check hash ln (played l hits) actor target now).1 = Allow.
Proof.
  intros Hl Hb Hd Hk. destruct (played_remembers w d cap l hits Hl) as (Hw & Hd' & Hr).
  unfold velocity_check. cbn [fst]. rewrite Hw, Hd'.
  assert (remembers w (hits ++ [(actor, target, now)]) actor
            (touch hash (evict_actor (played l hits) actor) actor target (now / w))) as (ks & -> & Hks).
  { apply remembers_touch. intros x Hx. apply Hr. eapply lookup_weaken; [exact Hx | apply hm_make_room_subseteq]. }
  rewrite (few_keys_estimate hash ln PRECISION hll_fresh ks b d);
    [done | done | done | unfold PRECISION; lia | | done].
  eapply Z.le_lt_trans; [|exact Hk]. apply inj_le, remove_dups_mono. intros k Hk'. specialize (Hks k Hk').
  assert (actor_window (touch hash (evict_actor (played l hits) actor) actor target (now / w)) = now / w) as Ew.
  { unfold touch. destruct (actor_window (default _ _) =? now / w) eqn:E; [by apply Z.eqb_eq | done]. }
  rewrite Ew in Hks. apply elem_of_targets_in in Hks as (t & Ht & E).
  apply elem_of_app in Ht as [Ht|[= -> _]%list_elem_of_singleton]; [right; apply elem_of_targets_in; eauto | left].
Qed.

(** An actor that is new to the limiter, after some touches. *)
Lemma touches_new l actor t ts now :
  actors l !! actor = None ->
  let l' := touches hash ln l actor (t :: ts) now in
  actors l' !! actor = Some (MkActorWindow (now / velocity_window_ms l) (add_all hash hll_fresh (t :: ts))) /\
  velocity_window_ms l' = velocity_window_ms l /\ max_distinct l' = max_distinct l.
Proof.
  intros Hn. unfold touches. cbn [fold_left]. set (l1 := (velocity_check hash ln l actor t now).2).
  assert (actors l1 !! actor = Some (MkActorWindow (now / velocity_window_ms l) (add hash hll_fresh t))) as E1.
  { unfold l1, velocity_check. cbn [snd actors]. rewrite lookup_insert_eq. unfold touch.
    assert (evict_actor l actor !! actor = None) as ->.
    { eapply lookup_weaken_None; [exact Hn | apply hm_make_room_subseteq]. }
    cbn [default from_option id actor_window]. by rewrite Z.eqb_refl. }
  fold (touches hash ln l1 actor ts now). cbv zeta. rewrite (touches_tracked hash ln l1 actor ts now _ E1 eq_refl).
  cbn [actors velocity_window_ms max_distinct seen actor_window]. by rewrite lookup_insert_eq.
Qed.

Lemma many_targets l actor t ts now :
  (forall key, in_uint 64 (hash key)) -> above_secant ln PRECISION -> actors l !! actor = None ->
  Z.of_nat (length (remove_dups (ts ++ [t]))) <= 512 ->
  0 <= max_distinct l < Z.of_nat (length (remove_dups (map (index hash PRECISION) (ts ++ [t])))) ->
  (velocity_check hash ln (touches hash ln l actor ts now) actor t now).1 = Deny.
Proof.
  intros Hh Hln Hn Hk Hd.
  assert (f64_gt (estimate ln (add_all hash hll_fresh (ts ++ [t]))) (f64_of_u64 (max_distinct l)) = true) as Hgt.
  { by apply (many_registers_estimate hash ln Hh PRECISION hll_fresh). }
  destruct ts as [|t0 ts].
  - unfold velocity_check. cbn [touches fold_left fst]. unfold touch.
    assert (evict_actor l actor !! actor = None) as ->.
    { eapply lookup_weaken_None; [exact Hn | apply hm_make_room_subseteq]. }
    cbn [default from_option id actor_window]. rewrite Z.eqb_refl. cbn [seen].
    change (add hash hll_fresh t) with (add_all hash hll_fresh ([] ++ [t])). by rewrite Hgt.
  - destruct (touches_new l actor t0 ts now Hn) as (E & Ew & Ed). rewrite (check_tracked _ _ _ _ _ _ _ E) by (cbn [actor_window]; by rewrite Ew).
    cbn [fst seen]. rewrite Ed. change (add hash (add_all hash hll_fresh (t0 :: ts)) t) with (add_all hash (add_all hash hll_fresh (t0 :: ts)) [t]).
    unfold add_all in *. rewrite <- fold_left_app. by rewrite Hgt.
Qed.


(** ** The tests *)

(** [assert_eq!(limiter.check(actor, target, now), Decision::Allow)]. *)
Definition expect_allow (actor target : string) (now : Z) (l : DistinctVelocityLimiter) : option DistinctVelocityLimiter :=
  let (d, l) := velocity_check hash ln l actor target now in
  ensure (bool_decide (d = Allow));; Some l.

Definition flags_an_actor_hitting_many_distinct_targets : option unit :=
  limiter ← DistinctVelocityLimiter_new 1000 20;
  let '(last, _) := fold_left (fun '(_, l) i => velocity_check hash ln l "ip-1" (numbered "card-" i) 0) (range 0 200) (Allow, limiter) in
  ensure (bool_decide (last = Deny)).

Definition the_same_target_repeated_is_never_flagged : option unit :=
  limiter ← DistinctVelocityLimiter_new 1000 20;
  limiter ← for_each (range 0 500) limiter (fun l _ => expect_allow "ip-1" "card-x" 0 l);
  Some tt.

Definition a_few_distinct_targets_are_allowed : option unit :=
  limiter ← DistinctVelocityLimiter_new 1000 20;
  limiter ← for_each (range 0 5) limiter (fun l i => expect_allow "ip-1" (numbered "acct-" i) 0 l);
  Some tt.

(** [for i in 0..200 { limiter.check(actor, format!("card-{i}"), 0); }]. *)
Definition fan_out (actor : string) (l : DistinctVelocityLimiter) : DistinctVelocityLimiter :=
  fold_left (fun l i => (velocity_check hash ln l actor (numbered "card-" i) 0).2) (range 0 200) l.

Definition actors_are_counted_independently : option unit :=
  limiter ← DistinctVelocityLimiter_new 1000 20;
  let limiter := fan_out "carder" limiter in
  expect_allow "clean" "card-1" 0 limiter;; Some tt.

Definition a_new_window_resets_the_distinct_count : option unit :=
  limiter ← DistinctVelocityLimiter_new 1000 20;
  let limiter := fan_out "ip-1" limiter in
  expect_allow "ip-1" "card-new" 5000 limiter;; Some tt.

Lemma fan_out_played actor l : fan_out actor l = played l (map (fun i => (actor, numbered "card-" i, 0)) (range 0 200)).
Proof.
  unfold fan_out, played. generalize (range 0 200). intros xs. revert l.
  induction xs as [|i xs IH]; intros l; [done | apply IH].
Qed.

Section loops.
Variables (w d cap b : Z) (l : DistinctVelocityLimiter).
Hypotheses (Hl : velocity_with_capacity w d cap = Some l) (Hb : 0 <= b <= 8) (Hd : 2 ^ (b + 1) <= d < 2 ^ 53).

Lemma expect_few hits actor target now :
  Z.of_nat (length (remove_dups (target :: targets_in w actor (now / w) hits))) < 2 ^ b ->
  expect_allow actor target now (played l hits) = Some (played l (hits ++ [(actor, target, now)])).
Proof.
  intros Hk. pose proof (few_targets w d cap l hits actor target now b Hl Hb Hd Hk) as E. unfold expect_allow.
  unfold played at 2. rewrite fold_left_app. cbn [fold_left]. fold (played l hits).
  destruct (velocity_check hash ln (played l hits) actor target now) as [v l']. cbn [fst snd] in *. subst v. done.
Qed.

(** A loop of touches over few targets. *)
Lemma loop_few (xs : list Z) (target : Z -> string) actor now hits :
  let after := hits ++ map (fun i => (actor, target i, now)) xs in
  Z.of_nat (length (remove_dups (targets_in w actor (now / w) after))) < 2 ^ b ->
  for_each xs (played l hits) (fun l i => expect_allow actor (target i) now l) = Some (played l after).
Proof.
  revert hits. induction xs as [|x xs IH]; intros hits after Hk; [unfold after; by rewrite app_nil_r|]. cbn [for_each].
  rewrite expect_few, bind_some.
  - assert (after = (hits ++ [(actor, target x, now)]) ++ map (fun i => (actor, target i, now)) xs) as E
      by (unfold after; by rewrite <- app_assoc). rewrite E in Hk |- *. by apply IH.
  - eapply Z.le_lt_trans; [|exact Hk]. apply inj_le, remove_dups_mono. intros k [->|Hk']%elem_of_cons; apply elem_of_targets_in.
    + exists now. split; [unfold after; set_solver | done].
    + apply elem_of_targets_in in Hk' as (t & Ht & E). exists t. split; [unfold after; set_solver | done].
Qed.

End loops.

Lemma fresh_played : exists l, DistinctVelocityLimiter_new 1000 20 = Some (played l []) /\
  velocity_with_capacity 1000 20 DEFAULT_MAX_ACTORS = Some l.
Proof. by eexists. Qed.

Definition cards : list string := map (numbered "card-") (range 0 200).

(** The one test that needs the hasher to spread its keys: it passes whenever the
    two hundred cards fall on more than twenty registers. *)
Lemma many_cards_flagged :
  (forall key, in_uint 64 (hash key)) -> above_secant ln PRECISION ->
  (20 < length (remove_dups (map (index hash PRECISION) cards)))%nat ->
  flags_an_actor_hitting_many_distinct_targets = Some tt.
Proof.
  intros Hh Hln Hk. unfold flags_an_actor_hitting_many_distinct_targets.
  change (DistinctVelocityLimiter_new 1000 20) with (Some (MkVelocity 1000 20 DEFAULT_MAX_ACTORS ∅)). rewrite bind_some.
  set (l := MkVelocity 1000 20 DEFAULT_MAX_ACTORS ∅).
  assert (forall xs v0, (fold_left (fun '(_, l) i => velocity_check hash ln l "ip-1" (numbered "card-" i) 0) xs (v0, l)).2 =
            touches hash ln l "ip-1" (map (numbered "card-") xs) 0) as Hloop.
  { intros xs. generalize l. induction xs as [|x xs IH]; intros l0 v0; [done|]. cbn [fold_left map]. unfold touches. cbn [fold_left].
    fold (touches hash ln (velocity_check hash ln l0 "ip-1" (numbered "card-" x) 0).2 "ip-1" (map (numbered "card-") xs) 0).
    destruct (velocity_check hash ln l0 "ip-1" (numbered "card-" x) 0) as [v l1]. apply IH. }
  assert (range 0 200 = range 0 199 ++ [199]) as Er by reflexivity.
  rewrite Er, fold_left_app. specialize (Hloop (range 0 199) Allow). destruct (fold_left _ (range 0 199) _) as [v l1].
  cbn [snd] in Hloop. subst l1. cbn [fold_left].
  pose proof (many_targets l "ip-1" (numbered "card-" 199) (map (numbered "card-") (range 0 199)) 0 Hh Hln) as Hd.
  assert (map (numbered "card-") (range 0 199) ++ [numbered "card-" 199] = cards) as Ec by (unfold cards; by rewrite Er, map_app).
  rewrite Ec in Hd. destruct (velocity_check hash ln _ "ip-1" (numbered "card-" 199) 0) as [v' l']. cbn [fst] in Hd.
  rewrite Hd; [done | done | by vm_compute | cbn [max_distinct l]; lia].
Qed.

(** The targets of a touch among those of an unrelated fan-out. *)
Lemma targets_elsewhere actor actor' idx :
  actor <> actor' \/ idx <> 0 ->
  targets_in 1000 actor' idx (map (fun i => (actor, numbered "card-" i, 0)) (range 0 200)) = [].
Proof.
  intros Hne. generalize (range 0 200). intros xs. induction xs as [|i xs IH]; [done|]. unfold targets_in in *. cbn [map omap list_omap].
  change (0 / 1000) with 0. destruct (bool_decide (actor = actor') && (0 =? idx)) eqn:E; [exfalso|apply IH].
  apply andb_true_iff in E as [?%bool_decide_eq_true ?%Z.eqb_eq]. destruct Hne; subst; done.
Qed.

Lemma velocity_tests_pass :
  the_same_target_repeated_is_never_flagged = Some tt /\ a_few_distinct_targets_are_allowed = Some tt /\
  actors_are_counted_independently = Some tt /\ a_new_window_resets_the_distinct_count = Some tt.
Proof.
  destruct fresh_played as (l & E & Hl).
  unfold the_same_target_repeated_is_never_flagged, a_few_distinct_targets_are_allowed, actors_are_counted_independently,
    a_new_window_resets_the_distinct_count. rewrite E, !bind_some. cbv zeta. rewrite !fan_out_played. split_and!.
  - rewrite (loop_few 1000 20 DEFAULT_MAX_ACTORS 3 l Hl ltac:(lia) ltac:(lia) (range 0 500) (fun _ => "card-x"));
      [done | by vm_compute].
  - rewrite (loop_few 1000 20 DEFAULT_MAX_ACTORS 3 l Hl ltac:(lia) ltac:(lia) (range 0 5) (numbered "acct-"));
      [done | by vm_compute].
  - change (played (played l []) ?h) with (played l h). rewrite (expect_few 1000 20 DEFAULT_MAX_ACTORS 3 l Hl ltac:(lia) ltac:(lia));
      [done|]. rewrite targets_elsewhere by (by left). by vm_compute.
  - change (played (played l []) ?h) with (played l h). rewrite (expect_few 1000 20 DEFAULT_MAX_ACTORS 3 l Hl ltac:(lia) ltac:(lia));
      [done|]. rewrite targets_elsewhere by (by right). by vm_compute.
Qed.

End few.

(** ** The tests of [hll.rs] *)

Section hll_tests.
Context (hash : string -> Z) (ln : f64 -> f64).

Definition empty_estimates_zero : option unit :=
  hll ← HyperLogLog_new 12;
  ensure (SFeqb (estimate ln hll) (f64_of_u64 0)).

Definition duplicates_do_not_inflate_cardinality : option unit :=
  hll ← HyperLogLog_new 12;
  let hll := fold_left (fun h _ => add hash h "same-card") (range 0 10000) hll in
  ensure (SFltb (estimate ln hll) (f64_of_u64 5)).

Hypothesis ln_one : ln (f64_of_u64 1) = f64_of_u64 0.
Hypothesis ln_tangent : below_tangent ln 12.

Lemma pass_empty : empty_estimates_zero = Some tt.
Proof.
  unfold empty_estimates_zero. destruct (HyperLogLog_new 12) as [h|] eqn:E; [|done]. rewrite bind_some.
  destruct (hll_new_ok 12 h E) as [Hok Ep].
  assert (zeros (registers h) = 4096) as Ez by (injection E as <-; vm_compute; reflexivity).
  rewrite linear_counting, Ep, Ez by (rewrite ?Ep, ?Ez; done).
  replace (f64_div (f64_of_u64 (2 ^ 12)) (f64_of_u64 4096)) with (f64_of_u64 1) by (vm_compute; reflexivity).
  rewrite ln_one. vm_compute. reflexivity.
Qed.

(** Not above 4 is below 5. *)
Lemma below_next x : f64_gt x (f64_of_u64 4) = false -> x <> S754_nan -> SFltb x (f64_of_u64 5) = true.
Proof.
  intros H4 Hn. replace (f64_of_u64 4) with (S754_finite false 4503599627370496 (-50)) in H4 by (vm_compute; reflexivity).
  replace (f64_of_u64 5) with (S754_finite false 5629499534213120 (-50)) by (vm_compute; reflexivity).
  destruct x as [[]|[]| |[] m e]; try done. unfold f64_gt, SFltb in *. cbn [SFcompare] in *. rewrite pos_compare in *.
  destruct (Z.compare_spec (-50) e), (Z.compare_spec e (-50)); try (done || lia).
  destruct (Z.compare_spec 4503599627370496 (Zpos m)), (Z.compare_spec (Zpos m) 5629499534213120); (done || lia).
Qed.

Lemma round_aux_number s m e l : 0 <= m -> binary_round_aux 53 1024 s m e l <> S754_nan.
Proof.
  intros Hm. unfold binary_round_aux. destruct (shr_fexp_bound m e l Hm) as (H1 & _).
  destruct (shr_fexp 53 1024 m e l) as [mrs e1]. cbn [fst] in H1. set (mr := round_nearest_even _ _).
  assert (0 <= mr) as Hmr.
  { unfold mr, round_nearest_even. destruct (loc_of_shr_record mrs) as [|[]]; [lia|destruct (Z.even _); lia|lia|lia]. }
  destruct (shr_fexp_bound mr e1 loc_Exact Hmr) as (H2 & _). destruct (shr_fexp 53 1024 mr e1 loc_Exact) as [mrs2 e2].
  cbn [fst] in H2. destruct (shr_m mrs2); [done| |lia]. by destruct (_ <=? _).
Qed.

(** The estimate of few keys is a number. *)
Lemma few_keys_number x t n :
  0 < n < 2 ^ 53 -> f64_le x t = true -> f64_mul (f64_of_u64 n) x <> S754_nan.
Proof.
  intros Hn Hle. destruct (of_u64_exact n Hn) as (m & -> & _). destruct x as [[]|[]| |[] mx ex]; try done;
    unfold f64_mul; cbn [SFmul xorb]; apply round_aux_number; lia.
Qed.

Lemma pass_duplicates : duplicates_do_not_inflate_cardinality = Some tt.
Proof.
  unfold duplicates_do_not_inflate_cardinality. destruct (HyperLogLog_new 12) as [h|] eqn:E; [|done]. rewrite bind_some.
  destruct (hll_new_ok 12 h E) as [Hok Ep]. cbv zeta.
  assert (fold_left (fun h _ => add hash h "same-card") (range 0 10000) h = add_all hash h ["same-card"]) as ->.
  { assert (fold_left (fun h _ => add hash h "same-card") (range 0 10000) h =
            add_all hash h (replicate (length (range 0 10000)) "same-card")) as ->.
    { generalize (range 0 10000). intros xs. clear. revert h. induction xs as [|x xs IH]; intros h; [done | apply IH]. }
    apply hll_same_set. intros k. rewrite list_elem_of_singleton, elem_of_replicate. split; [by intros [-> _]|].
    intros ->. split; [done|]. unfold range. rewrite length_map, length_seq. lia. }
  assert (zeros (registers h) = 4096) as Ez by (injection E as <-; vm_compute; reflexivity).
  apply ensure_true, below_next.
  - apply (few_keys_estimate hash ln 12 h ["same-card"] 1 4); [done | done | lia | by vm_compute | lia].
  - pose proof (zeros_add_all hash ["same-card"] h) as Hz. rewrite Ez in Hz. cbn [length] in Hz.
    destruct (add_all_lookup hash h ["same-card"] 0) as [Ep' _]. rewrite Ep in Ep'.
    assert (hll_ok (add_all hash h ["same-card"])) as Hok' by (by apply add_ok).
    assert (zeros (registers (add_all hash h ["same-card"])) <= 4096) as Hup.
    { destruct Hok' as (_ & Hl & _). rewrite Ep' in Hl. unfold zeros.
      pose proof (filter_length_le (Z.eqb 0) (registers (add_all hash h ["same-card"]))). lia. }
    rewrite linear_counting, Ep' by (rewrite ?Ep'; done || lia).
    destruct (ln_tangent (zeros (registers (add_all hash h ["same-card"])))) as [_ Ht]; [lia|].
    eapply few_keys_number; [|exact Ht]. lia.
Qed.

End hll_tests.

(** ** A concrete logarithm *)

(** The series of [ln (1 + t)] up to the third power. *)
Definition ln_taylor (x : f64) : f64 :=
  let t := SFsub 53 1024 x (f64_of_u64 1) in
  let sq := f64_mul t t in
  f64_add (SFsub 53 1024 t (f64_div sq (f64_of_u64 2))) (f64_div (f64_mul sq t) (f64_of_u64 3)).

Lemma taylor_below p :
  forallb (fun z =>
    let x := ln_taylor (f64_div (f64_of_u64 (2 ^ p)) (f64_of_u64 z)) in
    valid_binary 53 1024 x && f64_le x (f64_div (f64_of_u64 (2 ^ p - z)) (f64_of_u64 z)))
    (range (3 * 2 ^ (p - 2)) (2 ^ p + 1)) = true -> below_tangent ln_taylor p.
Proof.
  intros H z Hz. rewrite forallb_forall in H. apply andb_true_iff. apply H. apply list_elem_of_In.
  unfold range. apply list_elem_of_fmap. exists (Z.to_nat (z - 3 * 2 ^ (p - 2))). split; [lia|].
  apply elem_of_seq. lia.
Qed.


#[local] Instance estimate_order : HashOrder string := default_order string.




(** The unit tests of the two files at this logarithm. *)
Example hll_tests_at_taylor hash :
  empty_estimates_zero ln_taylor = Some tt /\ duplicates_do_not_inflate_cardinality hash ln_taylor = Some tt.
Proof.
  split; [apply pass_empty; vm_compute; reflexivity|]. apply pass_duplicates, taylor_below. vm_compute. reflexivity.
Qed.
