(* ===== verification/Proptests.v ===== *)
(** * The property tests ([onced-core/src/proptests.rs])

    A property is a test body that takes what its strategies generate; it is
    proved for every input of the strategies, where proptest samples some. *)

From Stdlib Require Import Floats.SpecFloat.
From S2P Require Import Prelude Machine Str Decimal BTreeMap HashMap Types Hash Crc Codec Damage.
From S2P Require Import Store Engine EngineSpec Disk Wal WalLog WalSpec EngineWal.
From S2P Require Import F64 Suite Abuse Sketch LimiterTests.

#[local] Open Scope string_scope.
#[local] Open Scope Z_scope.

(** ** Strategies: the values that each of them generates *)

Definition arb_fingerprint (fp : RequestFingerprint) : bool := bool_decide (length (fp_bytes fp) = 32%nat).

(** The character class [[ -~]]. *)
Definition printable (b : byte) : bool := byte_in 32 126 b.

(** The pattern [[a-z][a-z0-9-]{0,12}]. *)
Definition header_name (s : string) : bool :=
  match str_bytes s with
  | b :: l => byte_in 97 122 b && bool_decide (length l <= 12)%nat &&
              forallb (fun b => byte_in 97 122 b || byte_in 48 57 b || (u8_to_Z b =? 45)) l
  | [] => false
  end.

(** The pattern [[ -~]{0,n}]. *)
Definition printable_upto (n : nat) (s : string) : bool :=
  bool_decide (length (str_bytes s) <= n)%nat && forallb printable (str_bytes s).

Definition arb_outcome (o : CachedOutcome) : bool :=
  bool_decide (in_uint 16 (status o)) &&
  bt_sorted (headers o) && bool_decide (length (headers o) < 5)%nat &&
  forallb (fun nv => header_name nv.1 && printable_upto 24 nv.2) (headers o) &&
  bool_decide (length (body o) < 96)%nat.

Definition arb_key (k : IdempotencyKey) : bool := printable_upto 40 (key_str k).

Definition arb_keystate (st : KeyState) : bool :=
  match st with
  | InProgress fence fp lease =>
      bool_decide (in_uint 64 (fence_no fence)) && arb_fingerprint fp && bool_decide (in_uint 64 lease)
  | Completed fp outcome at_ms =>
      arb_fingerprint fp && arb_outcome outcome && bool_decide (in_uint 64 at_ms)
  end.

(** ** Properties of the codec *)

Definition wal_record_round_trips (key : IdempotencyKey) (state : KeyState) : option unit :=
  let framed := encode_record key state GENESIS in
  '(consumed, decoded_key, decoded_state, _) ← decode_record framed;
  ensure (consumed =? len framed);;
  ensure (bool_decide (decoded_key = key));;
  ensure (bool_decide (decoded_state = state)).

Definition wal_decode_rejects_every_truncation (key : IdempotencyKey) (state : KeyState) : option unit :=
  let framed := encode_record key state GENESIS in
  for_all (seq 0 (length framed)) (fun n =>
    ensure (bool_decide (decode_record (take n framed) = None))).

(** [framed[i] ^= 1 << flip_bit], with [i] an index of the record. *)
Definition wal_decode_detects_single_bit_flips (key : IdempotencyKey) (state : KeyState)
    (i : nat) (flip_bit : Z) : option unit :=
  let framed := encode_record key state GENESIS in
  let framed := alter (fun b => xor_byte b (u8_of_Z (Z.shiftl 1 flip_bit))) i framed in
  match decode_record framed with
  | Some (_, k, s, _) => ensure (bool_decide (k = key /\ s = state))
  | None => Some tt
  end.

(** ** The sketch *)

Section cms.
Context (hash : Z -> string -> Z).

(** [k.to_string()]. *)
Definition to_string (k : Z) : string := str_of_bytes (display_uint k).

Definition cms_never_underestimates (ops : list (Z * Z)) : option unit :=
  cms ← CountMinSketch_new 5 512;
  let cms := fold_left (fun cms kc => Sketch.add hash cms (to_string kc.1) kc.2) ops cms in
  let truth : gmap Z Z :=
    fold_left (fun truth kc => <[kc.1 := default 0 (truth !! kc.1) + kc.2]> truth) ops ∅ in
  for_all (map_to_list truth) (fun '(k, t) => ensure (t <=? Sketch.estimate hash cms (to_string k))).

End cms.

(** ** The limiter *)

Definition limiter_never_exceeds_limit_in_a_static_window `{!HashOrder string} (limit : Z) (hits : nat)
  : option unit :=
  limiter ← SlidingWindowLimiter_new 1000 limit;
  let allowed := count_allowed hits "k" 0 limiter in
  ensure (allowed <=? limit).

(** ** What the strategies generate can be recorded *)

Lemma printable_ascii s n :
  printable_upto n s = true ->
  (length (str_bytes s) <= n)%nat /\ Forall (fun b => byte_in 0 127 b = true) (str_bytes s).
Proof.
  unfold printable_upto. intros [Hl%bool_decide_eq_true Hp]%andb_true_iff. split; [done|].
  apply Forall_forall. intros b Hb. rewrite forallb_forall in Hp. apply list_elem_of_In, Hp in Hb.
  unfold printable, byte_in in *. lia.
Qed.

Lemma header_name_ascii s :
  header_name s = true ->
  (length (str_bytes s) <= 13)%nat /\ Forall (fun b => byte_in 0 127 b = true) (str_bytes s).
Proof.
  unfold header_name. destruct (str_bytes s) as [|b l]; [done|].
  intros [[Hb Hl%bool_decide_eq_true]%andb_true_iff Hr]%andb_true_iff. split; [simpl; lia|].
  constructor; [unfold byte_in in *; lia|]. apply Forall_forall. intros c Hc.
  rewrite forallb_forall in Hr. apply list_elem_of_In, Hr in Hc. unfold byte_in in *. lia.
Qed.

Lemma arb_headers h :
  forallb (fun nv => header_name nv.1 && printable_upto 24 nv.2) h = true ->
  Forall (fun kv => is_str kv.1 /\ is_str kv.2) h /\ len (headers_raw h) <= 45 * len h.
Proof.
  induction h as [|[n v] h IH]; [done|]. cbn [forallb fst snd]. intros [[Hn Hv]%andb_true_iff Hh]%andb_true_iff.
  destruct (header_name_ascii n Hn) as [Ln An], (printable_ascii v 24 Hv) as [Lv Av], (IH Hh) as [Hf Hl]. split.
  - constructor; [|done]. split; by apply utf8_valid_ascii.
  - cbn [headers_raw]. unfold str_field. rewrite !len_app, !len_bytes_field. unfold len in *. cbn [length fst snd]. lia.
Qed.

Section encodable.
Context `{!HashOrder IdempotencyKey}.

Lemma arb_encodable k st : arb_key k = true -> arb_keystate st = true -> encodable k st.
Proof.
  intros Hk Hst. destruct (printable_ascii _ 40 Hk) as [Hkl Hka].
  assert (wf_key k) as Hwk by (by apply utf8_valid_ascii).
  destruct st as [f fp l|fp o t]; unfold arb_keystate, arb_fingerprint in Hst;
    apply andb_true_iff in Hst as [[H1 H2]%andb_true_iff H3%bool_decide_eq_true].
  - apply bool_decide_eq_true in H1, H2. apply wal_admits_request; [done | done | unfold len; lia | done | done].
  - apply bool_decide_eq_true in H1. unfold arb_outcome in H2.
    apply andb_true_iff in H2 as [H2 Hb%bool_decide_eq_true]. apply andb_true_iff in H2 as [H2 [Hf Hl]%arb_headers].
    apply andb_true_iff in H2 as [H2 Hn%bool_decide_eq_true]. apply andb_true_iff in H2 as [Hs%bool_decide_eq_true Hsort].
    assert (admits_outcome (S := WalStore) k o t) as Ho.
    { apply wal_admits_outcome; [by split | done|]. unfold outcome_size, len in *. lia. }
    apply (Ho (MkFence 0) fp 0), wal_admits_request; [done | done | unfold len; lia | by_eval | by_eval].
Qed.

End encodable.

(** ** The properties hold *)

Lemma pass_round_trips k st : encodable k st -> wal_record_round_trips k st = Some tt.
Proof.
  intros He. unfold wal_record_round_trips. pose proof (decode_encoded k st GENESIS [] He) as E.
  rewrite app_nil_r in E. rewrite E, bind_some. cbv beta iota.
  rewrite !ensure_bind by (by apply bool_decide_eq_true_2 || by apply Z.eqb_refl).
  by apply ensure_true, bool_decide_eq_true_2.
Qed.

Lemma pass_truncations k st : encodable k st -> wal_decode_rejects_every_truncation k st = Some tt.
Proof.
  intros He. unfold wal_decode_rejects_every_truncation. apply for_all_Some, Forall_forall. intros n Hn%elem_of_seq.
  apply ensure_true, bool_decide_eq_true_2. apply (torn_record_detected k st GENESIS); [apply He | apply prefix_take|].
  intros E%(f_equal length). rewrite length_take in E. lia.
Qed.

Lemma bit_mask_nonzero b : 0 <= b < 8 -> u8_of_Z (Z.shiftl 1 b) <> x00.
Proof.
  intros Hb E%(f_equal u8_to_Z). rewrite u8_to_Z_of_Z in E. revert E.
  assert (b = 0 \/ b = 1 \/ b = 2 \/ b = 3 \/ b = 4 \/ b = 5 \/ b = 6 \/ b = 7) as H by lia.
  by destruct_or! H; subst.
Qed.

(** A flipped bit leaves nothing to decode, or the same key and state. *)
Lemma pass_bit_flips k st i b :
  encodable k st -> (i < length (encode_record k st GENESIS))%nat -> 0 <= b < 8 ->
  wal_decode_detects_single_bit_flips k st i b = Some tt.
Proof.
  intros He Hi Hb. unfold wal_decode_detects_single_bit_flips.
  destruct (lookup_lt_is_Some_2 _ _ Hi) as [y Hy]. rewrite (alter_insert _ _ _ y Hy).
  rewrite (damaged_record k st GENESIS i _ y He Hy); [|by apply xor_byte_ne, bit_mask_nonzero].
  case_decide; [|done]. by apply ensure_true, bool_decide_eq_true_2.
Qed.

Section cms_proof.
Context (hash : Z -> string -> Z).

Lemma to_string_inj a b : in_uint 64 a -> in_uint 64 b -> to_string a = to_string b -> a = b.
Proof.
  intros Ha Hb E%(f_equal str_bytes). unfold to_string in E. rewrite !str_bytes_of_bytes in E.
  by apply display_uint_inj.
Qed.

(** The reference map by number is the tally by name. *)
Lemma truth_total (ops : list (Z * Z)) k :
  Forall (fun kc => in_uint 64 kc.1) ops -> in_uint 64 k ->
  default 0 (fold_left (fun (truth : gmap Z Z) kc => <[kc.1 := default 0 (truth !! kc.1) + kc.2]> truth) ops ∅ !! k) =
  key_total (to_string k) (map (fun kc => (to_string kc.1, kc.2)) ops).
Proof.
  intros Hops Hk. induction ops as [|[k' c] ops IH] using rev_ind; [done|].
  apply Forall_app in Hops as [Hops [Hk' _]%Forall_cons]. cbn [fst] in Hk'.
  rewrite map_app, fold_left_app. cbn [map fold_left fst snd]. rewrite key_total_snoc.
  destruct (String.eqb_spec (to_string k') (to_string k)) as [E|Hne].
  - apply to_string_inj in E as ->; [|done..]. rewrite lookup_insert_eq. cbn [default]. by rewrite <- IH.
  - rewrite lookup_insert_ne by (by intros ->). rewrite <- IH by done. lia.
Qed.

Lemma truth_keys (ops : list (Z * Z)) (P : Z -> Prop) k t :
  Forall (fun kc => P kc.1) ops ->
  fold_left (fun (truth : gmap Z Z) kc => <[kc.1 := default 0 (truth !! kc.1) + kc.2]> truth) ops ∅ !! k = Some t -> P k.
Proof.
  intros Hops. revert t. induction ops as [|[k' c] ops IH] using rev_ind; intros t; [done|].
  apply Forall_app in Hops as [Hops [Hk' _]%Forall_cons]. rewrite fold_left_app. cbn [fold_left fst snd].
  intros [[<- _]|[_ H]]%lookup_insert_Some; [done | by eapply IH].
Qed.

Lemma pass_cms ops :
  Forall (fun kc => 0 <= kc.1 < 300 /\ 1 <= kc.2 < 16) ops -> Z.of_nat (length ops) < 2500 ->
  cms_never_underestimates hash ops = Some tt.
Proof.
  intros Hops Hlen. unfold cms_never_underestimates.
  destruct (CountMinSketch_new 5 512) as [s|] eqn:Hnew; [|done]. rewrite bind_some.
  assert (Forall (fun kc => in_uint 64 kc.1) ops) as Hk.
  { eapply Forall_impl; [exact Hops|]. unfold in_uint. intros [k c]; simpl; lia. }
  set (adds := map (fun kc => (to_string kc.1, kc.2)) ops).
  assert (fold_left (fun cms kc => Sketch.add hash cms (to_string kc.1) kc.2) ops s = Sketch.add_all hash s adds) as ->.
  { unfold adds, add_all. clear. revert s. induction ops as [|[k c] ops IH]; intros s; [done|]. apply IH. }
  apply for_all_Some, Forall_forall. intros [k t] Hkt%elem_of_map_to_list. apply ensure_true, Z.leb_le.
  pose proof (truth_keys ops (in_uint 64) k t Hk Hkt) as Hr. pose proof (truth_total ops k Hk Hr) as Ht.
  rewrite Hkt in Ht. simpl in Ht. fold adds in Ht.
  assert (Forall (fun kc => 0 <= kc.2 <= 15) adds) as Hc.
  { apply Forall_map. eapply Forall_impl; [exact Hops|]. intros [k' c]; simpl; lia. }
  pose proof (key_total_bound (to_string k) adds 15 Hc) as Hb.
  assert (length adds = length ops) as La by apply length_map. rewrite La in Hb.
  destruct (sketch_bounds hash 5 512 s (to_string k) adds Hnew ltac:(lia)) as [Hge _].
  { eapply Forall_impl; [exact Hc|]. simpl; lia. }
  unfold sat, uint_max in Hge. lia.
Qed.

End cms_proof.

Section limiter_proof.
Context `{!HashOrder string}.

(** The hits of a static window: one key, one instant. *)
Definition still (n : nat) : list (string * Z) := replicate n ("k", 0).

Lemma still_S n : still (S n) = (still n ++ [("k", 0)])%list.
Proof. unfold still. by rewrite replicate_S_end. Qed.

Lemma elem_of_still n h : h ∈ still n -> h = ("k", 0).
Proof. unfold still. by intros [? _]%elem_of_replicate. Qed.

Lemma still_monotone n : monotone (still n).
Proof.
  induction n as [|n IH]; [constructor|]. rewrite still_S. apply monotone_snoc; [done | | lia].
  intros h ->%elem_of_still. simpl. lia.
Qed.

Lemma still_fits n : fits_keys DEFAULT_MAX_KEYS (still n).
Proof.
  unfold fits_keys. assert (list_to_set (still n).*1 ⊆ ({["k"]} : gset string)) as Hs.
  { intros x. rewrite elem_of_list_to_set, list_elem_of_fmap. intros (h & -> & ->%elem_of_still). set_solver. }
  apply subseteq_size in Hs. rewrite size_singleton in Hs. unfold DEFAULT_MAX_KEYS. lia.
Qed.

Lemma still_count n : count_in 1000 "k" 0 (still n) = Z.of_nat n.
Proof.
  induction n as [|n IH]; [done|]. rewrite still_S, count_in_snoc, IH.
  change (is_hit 1000 "k" 0 ("k", 0)) with true. lia.
Qed.

(** After [n] hits at most [limit - n] more are let through. *)
Lemma static_window_allows limit l m n :
  SlidingWindowLimiter_new 1000 limit = Some l -> 0 <= limit < 2 ^ 53 -> Z.of_nat (n + m) < 2 ^ 53 ->
  count_allowed m "k" 0 (hits l (still n)) <= Z.max 0 (limit - Z.of_nat n).
Proof.
  intros Hnew Hlim. revert n; induction m as [|m IH]; intros n Hb; cbn [count_allowed]; [lia|].
  destruct (limiter_verdict 1000 limit DEFAULT_MAX_KEYS l (still n) "k" 0 Hnew) as (_ & Hdeny & _).
  - lia.
  - rewrite <- still_S. apply still_monotone.
  - rewrite <- still_S. apply still_fits.
  - done.
  - unfold still. rewrite length_replicate. lia.
  - rewrite <- still_S in Hdeny. change (0 / 1000) with 0 in Hdeny. rewrite still_count in Hdeny.
    assert ((check (hits l (still n)) "k" 0).2 = hits l (still (S n))) as E by (by rewrite still_S, hits_app).
    specialize (IH (S n) ltac:(lia)). rewrite <- E in IH.
    destruct (check (hits l (still n)) "k" 0) as [d l']. cbn [fst snd] in *.
    case_bool_decide; [|lia]. destruct (decide (limit < Z.of_nat (S n))); [by rewrite Hdeny in * | lia].
Qed.

Lemma pass_static_window limit n :
  0 <= limit < 2 ^ 53 -> Z.of_nat n < 2 ^ 53 ->
  limiter_never_exceeds_limit_in_a_static_window limit n = Some tt.
Proof.
  intros Hl Hn. unfold limiter_never_exceeds_limit_in_a_static_window.
  destruct (SlidingWindowLimiter_new 1000 limit) as [l|] eqn:E; [|done]. rewrite bind_some.
  apply ensure_true, Z.leb_le. pose proof (static_window_allows limit l n 0 E Hl Hn) as H. simpl in H. lia.
Qed.

(** C24: the property tests hold for everything their strategies can generate:
    every record survives encoding and decoding, no proper prefix of it decodes,
    no flipped bit makes it decode to another record, the sketch never counts
    less than was added under any hash, and in a static window the limiter never
    lets more than its limit through. *)
Theorem proptests_hold `{!HashOrder IdempotencyKey} (hash : Z -> string -> Z) key state i flip_bit ops limit hits :
  arb_key key = true -> arb_keystate state = true ->
  (i < length (encode_record key state GENESIS))%nat -> 0 <= flip_bit < 8 ->
  Forall (fun kc => 0 <= kc.1 < 300 /\ 1 <= kc.2 < 16) ops -> Z.of_nat (length ops) < 2500 ->
  1 <= limit < 64 -> (1 <= hits < 256)%nat ->
  wal_record_round_trips key state = Some tt /\
  wal_decode_rejects_every_truncation key state = Some tt /\
  wal_decode_detects_single_bit_flips key state i flip_bit = Some tt /\
  cms_never_underestimates hash ops = Some tt /\
  limiter_never_exceeds_limit_in_a_static_window limit hits = Some tt.
Proof.
  intros Hk Hst Hi Hb Hops Hlen Hlim Hhits. pose proof (arb_encodable key state Hk Hst) as He. split_and!.
  - by apply pass_round_trips.
  - by apply pass_truncations.
  - by apply pass_bit_flips.
  - by apply pass_cms.
  - apply pass_static_window; lia.
Qed.

End limiter_proof.

Definition sample_outcome_state : KeyState :=
  Completed (MkFingerprint (replicate 32 x03)) (MkOutcome 201 [("content-type", "text/plain")] (str_bytes "ok")) 7.

Lemma proptests_hold_witness :
  wal_record_round_trips (MkKey "order-1") sample_outcome_state = Some tt.
Proof.
  apply (proptests_hold (HashOrder0 := default_order string) (HashOrder1 := default_order IdempotencyKey)
           toy_hash (MkKey "order-1") sample_outcome_state 9 3 [(7, 2); (7, 5)] 5 20).
  - reflexivity.
  - reflexivity.
  - by_eval.
  - lia.
  - by_eval.
  - simpl. lia.
  - lia.
  - lia.
Defined.
