(* ===== verification/Pow.v ===== *)
(** * Proof-of-work challenges ([onced-core/src/pow.rs])

    Stateless challenges: an HMAC over the client, the time window and the
    request, solved by a nonce whose hash has enough leading zero bits. *)

From Stdlib Require Import Floats.SpecFloat.
From S2P Require Import Prelude Machine Str F64 Hash Codec.

Record Challenge := MkChallenge { challenge_value : list byte; difficulty : Z }.

Definition build_hmac_message (identity : string) (window_index : Z) (request_hash : list byte)
  : list byte := str_bytes identity ++ to_le_bytes 8 window_index ++ request_hash.

Definition derive_challenge_at (server_secret : list byte) (identity : string)
    (request_hash : list byte) (window_index : Z) : list byte :=
  hmac_sha256 server_secret (build_hmac_message identity window_index request_hash).

Definition derive_challenge (server_secret : list byte) (identity : string)
    (request_hash : list byte) (window_ms now_ms : Z) : list byte :=
  derive_challenge_at server_secret identity request_hash (now_ms / window_ms).

Definition challenge (server_secret : list byte) (identity : string) (request_hash : list byte)
    (difficulty window_ms now_ms : Z) : Challenge :=
  MkChallenge (derive_challenge server_secret identity request_hash window_ms now_ms) difficulty.

Fixpoint leading_zero_bits (digest : list byte) : Z :=
  match digest with
  | [] => 0
  | b :: digest => if u8_to_Z b =? 0 then 8 + leading_zero_bits digest else leading_zeros 8 (u8_to_Z b)
  end.

Definition check_solution (c nonce_bytes : list byte) (difficulty : Z) : bool :=
  difficulty <=? leading_zero_bits (sha256 (c ++ nonce_bytes)).

(** The loop over the current and the preceding window, with its early return. *)
Definition verify (server_secret : list byte) (identity : string) (request_hash : list byte)
    (difficulty nonce window_ms now_ms : Z) : bool :=
  let nonce_bytes := to_le_bytes 8 nonce in
  let current_idx := now_ms / window_ms in
  existsb (fun window_idx =>
             check_solution (derive_challenge_at server_secret identity request_hash window_idx)
               nonce_bytes difficulty)
    [current_idx; saturating_sub current_idx 1].

Definition K : f64 := f64_of_u64 4.
Definition CAP : Z := 20.

Definition difficulty_for (base : Z) (overage_ratio : f64) : Z :=
  if f64_le overage_ratio (S754_zero false) then base
  else
    let delta := f64_to_u64 (f64_floor (f64_mul K overage_ratio)) in
    let delta := Z.min delta CAP in
    saturating_add 8 base delta.

(** ** Leading zeros as a bound on the digest *)

Lemma from_be_bytes_cons b l :
  from_be_bytes (b :: l) = u8_to_Z b * 2 ^ (8 * Z.of_nat (length l)) + from_be_bytes l.
Proof.
  unfold from_be_bytes. rewrite reverse_cons.
  assert (forall l x, from_le_bytes (l ++ [x]) =
            from_le_bytes l + u8_to_Z x * 2 ^ (8 * Z.of_nat (length l))) as Happ.
  { clear. induction l as [|y l IH]; intros x; [simpl; lia|].
    rewrite <- app_comm_cons. cbn [from_le_bytes]. rewrite IH, length_cons.
    replace (8 * Z.of_nat (S (length l))) with (8 + 8 * Z.of_nat (length l)) by lia.
    rewrite Z.pow_add_r by lia. change (2 ^ 8) with 256. lia. }
  rewrite Happ, length_reverse. lia.
Qed.

(** At least [n] leading zero bits: the digest, as a number, is below
    [2 ^ (bits - n)]. *)
Lemma leading_zero_bits_spec l n :
  0 <= n <= 8 * Z.of_nat (length l) ->
  n <= leading_zero_bits l <-> from_be_bytes l < 2 ^ (8 * Z.of_nat (length l) - n).
Proof.
  revert n; induction l as [|b l IH]; intros n Hn.
  - simpl in *. assert (n = 0) as -> by lia. vm_compute. split; congruence.
  - rewrite from_be_bytes_cons. rewrite length_cons in *. cbn [leading_zero_bits].
    set (m := 8 * Z.of_nat (length l)) in *. replace (8 * Z.of_nat (S (length l))) with (8 + m) in * by lia.
    pose proof (from_be_bytes_range l) as Hr. fold m in Hr. unfold in_uint in Hr.
    assert (0 <= m) by lia. pose proof (Z.pow_pos_nonneg 2 m ltac:(lia) ltac:(lia)) as Hpm.
    case_cmp.
    + rewrite e. simpl. destruct (decide (n <= 8)) as [Hle|Hgt].
      * assert (2 ^ m <= 2 ^ (8 + m - n)) by (apply Z.pow_le_mono_r; lia).
        assert (0 <= leading_zero_bits l).
        { clear. induction l as [|x l IHl]; simpl; [lia|]. case_cmp; [lia|].
          apply (leading_zeros_range 8); [lia | apply u8_to_Z_range]. }
        split; [lia|]. lia.
      * specialize (IH (n - 8) ltac:(lia)). replace (8 + m - n) with (m - (n - 8)) by lia. rewrite <- IH. lia.
    + pose proof (u8_to_Z_range b) as Hb. pose proof (leading_zeros_range 8 _ ltac:(lia) Hb).
      destruct (decide (n <= 8)) as [Hle|Hgt].
      * rewrite leading_zeros_ge by (done || lia).
        replace (8 + m - n) with ((8 - n) + m) by lia. rewrite Z.pow_add_r by lia. split; intros H'; nia.
      * split; [lia|]. intros Hlt.
        assert (2 ^ (8 + m - n) < 2 ^ m) by (apply Z.pow_lt_mono_r; lia). unfold in_uint in Hb. nia.
Qed.

(** The nonce solves the challenge of the given window. *)
Definition solves (secret : list byte) (id : string) (rh : list byte) (d nonce window : Z) : Prop :=
  from_be_bytes (sha256 (derive_challenge_at secret id rh window ++ to_le_bytes 8 nonce)) < 2 ^ (256 - d).

Lemma check_solution_spec c nb d :
  0 <= d <= 256 ->
  check_solution c nb d = true <-> from_be_bytes (sha256 (c ++ nb)) < 2 ^ (256 - d).
Proof.
  intros Hd. unfold check_solution. rewrite Z.leb_le.
  pose proof (leading_zero_bits_spec (sha256 (c ++ nb)) d) as H. rewrite sha256_length in H. by apply H.
Qed.

(** C39: a nonce is accepted exactly when the hash of a challenge of the current
    or the preceding window with it is, as a 256-bit number, below
    [2^(256 - difficulty)]; and a solution of the challenge issued at time [t] is
    accepted until the end of the window after the one it was issued in. *)
Theorem pow_verify_spec secret id rh d nonce w now :
  0 < w -> 0 <= now -> 0 <= d <= 255 ->
  (verify secret id rh d nonce w now = true <->
   solves secret id rh d nonce (now / w) \/ solves secret id rh d nonce (Z.max 0 (now / w - 1))) /\
  (forall t, 0 <= t <= now -> now < (t / w + 2) * w ->
   from_be_bytes (sha256 (challenge_value (challenge secret id rh d w t) ++ to_le_bytes 8 nonce))
     < 2 ^ (256 - d) ->
   verify secret id rh d nonce w now = true).
Proof.
  intros Hw Hn Hd.
  assert (verify secret id rh d nonce w now = true <->
   solves secret id rh d nonce (now / w) \/ solves secret id rh d nonce (Z.max 0 (now / w - 1))) as Hiff.
  { unfold verify. cbn [existsb]. rewrite orb_false_r, orb_true_iff, !check_solution_spec by lia. done. }
  split; [done|]. intros t Ht Hlt Hs. apply Hiff.
  assert (t / w <= now / w) by (apply Z.div_le_mono; lia).
  assert (now / w < t / w + 2) by (apply Z.div_lt_upper_bound; lia).
  assert (0 <= t / w) by (apply Z.div_pos; lia).
  change (solves secret id rh d nonce (t / w)) in Hs.
  destruct (decide (t / w = now / w)) as [E|]; [left; by rewrite <- E|].
  right. replace (Z.max 0 (now / w - 1)) with (t / w) by lia. done.
Qed.

(** A challenge is bound to its client, window and request.  For request
    hashes of equal length (they are 32-byte digests) two HMAC messages are
    equal only if identity, window and request hash are; so challenges of
    different triples under one secret coincide only through an HMAC collision
    on those two messages. *)
Theorem pow_message_binding secret id id' rh rh' win win' :
  length rh = length rh' -> in_uint 64 win -> in_uint 64 win' ->
  (build_hmac_message id win rh = build_hmac_message id' win' rh' -> id = id' /\ win = win' /\ rh = rh') /\
  (derive_challenge_at secret id rh win = derive_challenge_at secret id' rh' win' ->
   (id = id' /\ win = win' /\ rh = rh') \/
   (build_hmac_message id win rh <> build_hmac_message id' win' rh' /\
    hmac_sha256 secret (build_hmac_message id win rh) = hmac_sha256 secret (build_hmac_message id' win' rh'))).
Proof.
  intros Hl Hw Hw'.
  assert (build_hmac_message id win rh = build_hmac_message id' win' rh' -> id = id' /\ win = win' /\ rh = rh') as Hinj.
  { unfold build_hmac_message. intros E. rewrite !app_assoc in E.
    apply app_inj_2 in E as [E ->]; [|done]. apply app_inj_2 in E as [E Ew]; [|by rewrite !length_to_le_bytes].
    apply (inj str_bytes) in E as ->. by apply (to_le_bytes_inj 8) in Ew as ->. }
  split; [done|]. intros E.
  destruct (decide (build_hmac_message id win rh = build_hmac_message id' win' rh')) as [Em|Em];
    [left; by apply Hinj | by right].
Qed.

Lemma f64_to_u64_nonneg x : 0 <= f64_to_u64 x.
Proof.
  destruct x as [| [] | |[] m e]; simpl; try lia; [unfold uint_max; lia|].
  unfold uint_max. apply Z.min_glb; [lia|]. apply Z.shiftl_nonneg. lia.
Qed.

(** The adaptive difficulty never wraps: it lies between the base and the
    base plus 20 (saturated at 255), is the base for a ratio that is not
    positive or is not a number, and reaches the cap for an infinite ratio. *)
Theorem difficulty_bounded base ratio :
  in_uint 8 base ->
  base <= difficulty_for base ratio <= Z.min 255 (base + CAP) /\
  (f64_le ratio (S754_zero false) = true -> difficulty_for base ratio = base) /\
  difficulty_for base S754_nan = base /\
  difficulty_for base (S754_infinity false) = Z.min 255 (base + CAP).
Proof.
  unfold in_uint. change (2 ^ 8) with 256. intros Hb. unfold difficulty_for, CAP, saturating_add, uint_max.
  split_and!.
  - destruct (f64_le _ _); [lia|]. pose proof (f64_to_u64_nonneg (f64_floor (f64_mul K ratio))). lia.
  - destruct (f64_le _ _); [lia|]. pose proof (f64_to_u64_nonneg (f64_floor (f64_mul K ratio))). lia.
  - by intros ->.
  - simpl. lia.
  - simpl. unfold uint_max. lia.
Qed.

(** ** Concrete instances *)

Example leading_zero_bits_examples :
  leading_zero_bits (replicate 32 x00) = 256 /\
  leading_zero_bits (x01 :: replicate 31 x00) = 7 /\
  leading_zero_bits (x0f :: replicate 31 x00) = 4.
Proof. repeat split. Qed.

Lemma pow_verify_spec_witness :
  verify [x01] "10.0.0.1" (replicate 32 x02) 0 7 60000 130000 = true.
Proof.
  apply (proj2 (pow_verify_spec [x01] "10.0.0.1" (replicate 32 x02) 0 7 60000 130000
           ltac:(lia) ltac:(lia) ltac:(lia)) 61000 ltac:(lia)).
  - vm_compute. reflexivity.
  - vm_compute. reflexivity.
Defined.

Lemma pow_message_binding_witness :
  bool_decide (build_hmac_message "ab" 1 [x02] = build_hmac_message "a" 1 [x02]) = false.
Proof.
  apply bool_decide_eq_false. intros E.
  apply (proj1 (pow_message_binding [] "ab" "a" [x02] [x02] 1 1 eq_refl ltac:(by_eval) ltac:(by_eval))) in E as [E _].
  discriminate E.
Defined.

Lemma difficulty_bounded_witness :
  8 <= difficulty_for 8 (f64_lit 5 2) <= 28 /\ difficulty_for 8 (f64_lit 5 2) = 18.
Proof.
  split; [apply (difficulty_bounded 8 (f64_lit 5 2)); by_eval | vm_compute; reflexivity].
Defined.
