(* ===== verification/CryptoTests.v ===== *)
(** * The unit tests of hashing and proof of work

    The [mod tests] of [hash.rs], and those of [pow.rs] but for the three that
    search a nonce and then assert that SHA-256 rejects it for another request,
    client or window. *)

From Stdlib Require Import Floats.SpecFloat.
From S2P Require Import Prelude Machine Str F64 Hash Codec Suite Pow.

#[local] Open Scope string_scope.
#[local] Open Scope Z_scope.

(** ** [hash.rs] *)

(** [assert_eq!(to_hex(&digest), expected)]. *)
Definition ensure_hex (digest : list byte) (expected : string) : option unit :=
  ensure (bool_decide (to_hex digest = expected)).

Definition sha256_matches_nist_vectors : option unit :=
  ensure_hex (sha256 (str_bytes ""))
    "e3b0c44298fc1c149afbf4c8996fb92427ae41e4649b934ca495991b7852b855";;
  ensure_hex (sha256 (str_bytes "abc"))
    "ba7816bf8f01cfea414140de5dae2223b00361a396177a9cb410ff61f20015ad";;
  ensure_hex (sha256 (str_bytes "abcdbcdecdefdefgefghfghighijhijkijkljklmklmnlmnomnopnopq"))
    "248d6a61d20638b8e5c026930c3e6039a33ce45964ff2167f6ecedd419db06c1".

Definition sha256_handles_block_boundaries : option unit :=
  let a64 := replicate 64 x61 in
  ensure_hex (sha256 a64) "ffe054fe7ae0cb6dc65c3af9b61d5209f439851db43d0ba5997337df154668eb".

Definition hmac_sha256_matches_rfc4231 : option unit :=
  ensure_hex (hmac_sha256 (replicate 20 x0b) (str_bytes "Hi There"))
    "b0344c61d8db38535ca8afceaf0bf12b881dc200c9833da726e9376c2e32cff7";;
  ensure_hex (hmac_sha256 (str_bytes "Jefe") (str_bytes "what do ya want for nothing?"))
    "5bdcc146bf60754e6a042426089575c75a003f089d2739839dec58b964ec3843".

Definition hmac_sha256_long_key : option unit :=
  let key := replicate 131 xaa in
  ensure_hex (hmac_sha256 key (str_bytes "Test Using Larger Than Block-Size Key - Hash Key First"))
    "60e431591ee0b67f0d8a26aacbf5b77f8e0bc6213728c5140546040f0ee37f54".

(** ** [pow.rs] *)

Definition SECRET : list byte := str_bytes "test-server-secret".
Definition IDENTITY : string := "192.168.1.1".
Definition REQUEST_HASH : list byte := replicate 32 xab.
Definition WINDOW_MS : Z := 60000.
Definition NOW_MS : Z := 1000000.

(** [for nonce in nonce.. { .. }], at most [fuel] rounds; [None] is the panic
    when no nonce is found. *)
Fixpoint find_nonce_from (fuel : nat) (nonce : Z) (c : Challenge) : option Z :=
  match fuel with
  | O => None
  | S fuel =>
      let nonce_bytes := to_le_bytes 8 nonce in
      let digest := sha256 (challenge_value c ++ nonce_bytes) in
      if difficulty c <=? leading_zero_bits digest then Some nonce
      else find_nonce_from fuel (nonce + 1) c
  end.

Definition find_nonce (c : Challenge) : option Z := find_nonce_from (Z.to_nat 10000000) 0 c.

Definition valid_nonce_verifies : option unit :=
  let c := challenge SECRET IDENTITY REQUEST_HASH 8 WINDOW_MS NOW_MS in
  nonce ← find_nonce c;
  ensure (verify SECRET IDENTITY REQUEST_HASH 8 nonce WINDOW_MS NOW_MS).

Definition previous_window_is_accepted : option unit :=
  let prev_now := NOW_MS - WINDOW_MS in
  let c := challenge SECRET IDENTITY REQUEST_HASH 8 WINDOW_MS prev_now in
  nonce ← find_nonce c;
  ensure (verify SECRET IDENTITY REQUEST_HASH 8 nonce WINDOW_MS NOW_MS).

(** Guarded, as in the source, by what nonce 0 hashes to. *)
Definition wrong_nonce_fails : option unit :=
  let c := challenge SECRET IDENTITY REQUEST_HASH 10 WINDOW_MS NOW_MS in
  let digest := sha256 (challenge_value c ++ to_le_bytes 8 0) in
  if leading_zero_bits digest <? 10
  then ensure (negb (verify SECRET IDENTITY REQUEST_HASH 10 0 WINDOW_MS NOW_MS))
  else Some tt.

Definition higher_difficulty_needs_more_leading_zeros : option unit :=
  let c := challenge SECRET IDENTITY REQUEST_HASH 12 WINDOW_MS NOW_MS in
  nonce ← find_nonce c;
  let digest := sha256 (challenge_value c ++ to_le_bytes 8 nonce) in
  ensure (12 <=? leading_zero_bits digest).

Definition difficulty_zero_always_passes : option unit :=
  ensure (verify SECRET IDENTITY REQUEST_HASH 0 0 WINDOW_MS NOW_MS);;
  ensure (verify SECRET IDENTITY REQUEST_HASH 0 12345 WINDOW_MS NOW_MS).

Definition leading_zero_bits_all_zeros : option unit :=
  let d := replicate 32 x00 in
  ensure (leading_zero_bits d =? 256).

Definition leading_zero_bits_first_byte_nonzero : option unit :=
  let d := replicate 32 x00 in
  let d := <[0%nat := x80]> d in
  ensure (leading_zero_bits d =? 0);;
  let d := <[0%nat := x40]> d in
  ensure (leading_zero_bits d =? 1);;
  let d := <[0%nat := x01]> d in
  ensure (leading_zero_bits d =? 7).

Definition leading_zero_bits_first_byte_zero_second_nonzero : option unit :=
  let d := replicate 32 x00 in
  let d := <[0%nat := x00]> d in
  let d := <[1%nat := x0f]> d in
  ensure (leading_zero_bits d =? 12).

Definition leading_zero_bits_all_ones : option unit :=
  let d := replicate 32 xff in
  ensure (leading_zero_bits d =? 0).

Definition difficulty_for_zero_overage_returns_base : option unit :=
  ensure (difficulty_for 8 (f64_of_u64 0) =? 8);;
  ensure (difficulty_for 8 (SFopp (f64_of_u64 1)) =? 8).

Definition difficulty_for_is_monotonic : option unit :=
  let base := 8 in
  let ratios := [f64_of_u64 0; f64_lit 1 4; f64_lit 1 2; f64_of_u64 1; f64_of_u64 2; f64_of_u64 3;
                 f64_of_u64 5; f64_of_u64 10] in
  let difficulties := map (difficulty_for base) ratios in
  for_all (zip difficulties (tail difficulties)) (fun '(w0, w1) => ensure (w0 <=? w1)).

Definition difficulty_for_is_capped : option unit :=
  let result := difficulty_for 8 (f64_of_u64 1000000) in
  ensure (result =? saturating_add 8 8 20).

Definition difficulty_for_saturates_on_base_near_max : option unit :=
  let result := difficulty_for 250 (f64_of_u64 100) in
  ensure (result =? 255).

(** ** The tests pass *)

Lemma find_nonce_sound fuel n c nonce :
  find_nonce_from fuel n c = Some nonce ->
  check_solution (challenge_value c) (to_le_bytes 8 nonce) (difficulty c) = true.
Proof.
  revert n; induction fuel as [|fuel IH]; intros n; [done|]. cbn [find_nonce_from]. cbv zeta.
  destruct (difficulty c <=? _) eqn:E; [|apply IH]. intros; simplify_eq. exact E.
Qed.

(** A nonce of the current or the preceding window verifies. *)
Lemma found_verifies secret id rh d nonce w now window :
  window = now / w \/ window = saturating_sub (now / w) 1 ->
  check_solution (derive_challenge_at secret id rh window) (to_le_bytes 8 nonce) d = true ->
  verify secret id rh d nonce w now = true.
Proof.
  intros Hw Hs. unfold verify. apply existsb_exists. exists window. split; [|done].
  destruct Hw as [->| ->]; [by left | by right; left].
Qed.

(** The search ends when one of the nonces it tries is a solution. *)
Lemma find_nonce_complete fuel n c nonce :
  n <= nonce < n + Z.of_nat fuel ->
  check_solution (challenge_value c) (to_le_bytes 8 nonce) (difficulty c) = true -> find_nonce_from fuel n c <> None.
Proof.
  intros Hn Hs. revert n Hn; induction fuel as [|fuel IH]; intros n Hn; [lia|]. cbn [find_nonce_from]. cbv zeta.
  destruct (difficulty c <=? _) eqn:E; [done|]. apply IH. assert (n <> nonce); [|lia].
  intros ->. unfold check_solution in Hs. by rewrite Hs in E.
Qed.

(** A test that searches a nonce and then asserts what every solution has
    passes when there is a solution to find. *)
Lemma search_passes c known (f : Z -> bool) :
  0 <= known < 10000000 -> check_solution (challenge_value c) (to_le_bytes 8 known) (difficulty c) = true ->
  (forall nonce, check_solution (challenge_value c) (to_le_bytes 8 nonce) (difficulty c) = true -> f nonce = true) ->
  (nonce ← find_nonce c; ensure (f nonce)) = Some tt.
Proof.
  intros Hk Hc Hs. unfold find_nonce.
  pose proof (find_nonce_complete (Z.to_nat 10000000) 0 c known ltac:(rewrite Z2Nat.id; lia) Hc) as Hf.
  destruct (find_nonce_from _ 0 c) as [nonce|] eqn:E; [|by destruct Hf].
  rewrite bind_some. by eapply ensure_true, Hs, find_nonce_sound.
Qed.

Lemma search_verifies secret id rh d w now now' known :
  now / w = now' / w \/ now / w = saturating_sub (now' / w) 1 -> 0 <= known < 10000000 ->
  check_solution (derive_challenge_at secret id rh (now / w)) (to_le_bytes 8 known) d = true ->
  (nonce ← find_nonce (challenge secret id rh d w now); ensure (verify secret id rh d nonce w now')) = Some tt.
Proof.
  intros Hw Hk Hc. apply (search_passes _ known); [exact Hk | exact Hc|].
  intros nonce Hs. eapply found_verifies; [exact Hw | exact Hs].
Qed.

Lemma search_zeros secret id rh d w now known :
  0 <= known < 10000000 ->
  check_solution (derive_challenge_at secret id rh (now / w)) (to_le_bytes 8 known) d = true ->
  (nonce ← find_nonce (challenge secret id rh d w now);
   ensure (d <=? leading_zero_bits (sha256 (challenge_value (challenge secret id rh d w now) ++ to_le_bytes 8 nonce))))
  = Some tt.
Proof. intros Hk Hc. apply (search_passes _ known); [exact Hk | exact Hc|]. intros nonce Hs. exact Hs. Qed.

(** Solutions of the challenges of the tests. *)
Lemma known_solutions :
  check_solution (derive_challenge_at SECRET IDENTITY REQUEST_HASH (NOW_MS / WINDOW_MS)) (to_le_bytes 8 3560) 12 = true /\
  check_solution (derive_challenge_at SECRET IDENTITY REQUEST_HASH ((NOW_MS - WINDOW_MS) / WINDOW_MS))
    (to_le_bytes 8 477) 8 = true.
Proof. refine (conj _ _); vm_compute; reflexivity. Qed.

Lemma check_solution_mono c n d d' : d' <= d -> check_solution c n d = true -> check_solution c n d' = true.
Proof. intros Hd. unfold check_solution. rewrite !Z.leb_le. lia. Qed.

Lemma pass_searches :
  valid_nonce_verifies = Some tt /\ previous_window_is_accepted = Some tt /\
  higher_difficulty_needs_more_leading_zeros = Some tt.
Proof.
  destruct known_solutions as [H12 Hprev].
  refine (conj _ (conj _ _)).
  - refine (search_verifies SECRET IDENTITY REQUEST_HASH 8 WINDOW_MS NOW_MS NOW_MS 3560 (or_introl eq_refl) _ _); [lia|].
    refine (check_solution_mono _ _ 12 8 _ H12). lia.
  - refine (search_verifies SECRET IDENTITY REQUEST_HASH 8 WINDOW_MS (NOW_MS - WINDOW_MS) NOW_MS 477
      (or_intror eq_refl) _ Hprev). lia.
  - refine (search_zeros SECRET IDENTITY REQUEST_HASH 12 WINDOW_MS NOW_MS 3560 _ H12). lia.
Qed.

Lemma pass_wrong_nonce : wrong_nonce_fails = Some tt.
Proof. vm_compute. reflexivity. Qed.

Lemma leading_zero_bits_nonneg l : 0 <= leading_zero_bits l.
Proof.
  induction l as [|b l IH]; simpl; [lia|]. case_cmp; [lia|]. apply (leading_zeros_range 8); [lia | apply u8_to_Z_range].
Qed.

Lemma verify_zero secret id rh nonce w now : verify secret id rh 0 nonce w now = true.
Proof.
  eapply found_verifies; [by left|]. unfold check_solution. apply Z.leb_le, leading_zero_bits_nonneg.
Qed.

Lemma pass_difficulty_zero : difficulty_zero_always_passes = Some tt.
Proof. unfold difficulty_zero_always_passes. by rewrite !verify_zero. Qed.

(** The published vectors of SHA-256 and HMAC-SHA-256. *)
Lemma pass_vectors :
  sha256_matches_nist_vectors = Some tt /\ sha256_handles_block_boundaries = Some tt /\
  hmac_sha256_matches_rfc4231 = Some tt /\ hmac_sha256_long_key = Some tt.
Proof. refine (conj _ (conj _ (conj _ _))); vm_compute; reflexivity. Qed.

(** The hashing code computes SHA-256 and HMAC-SHA-256: it gives the digests
    of the NIST and RFC 4231 vectors, across block boundaries and with a key
    longer than a block; and the unit tests of the proof of work pass. *)
Theorem crypto_suite_passes :
  Forall (fun t => t = Some tt)
    [sha256_matches_nist_vectors; sha256_handles_block_boundaries; hmac_sha256_matches_rfc4231;
     hmac_sha256_long_key; valid_nonce_verifies; previous_window_is_accepted;
     higher_difficulty_needs_more_leading_zeros; wrong_nonce_fails; difficulty_zero_always_passes; leading_zero_bits_all_zeros;
     leading_zero_bits_first_byte_nonzero; leading_zero_bits_first_byte_zero_second_nonzero;
     leading_zero_bits_all_ones; difficulty_for_zero_overage_returns_base; difficulty_for_is_monotonic;
     difficulty_for_is_capped; difficulty_for_saturates_on_base_near_max].
Proof.
  destruct pass_vectors as (H1 & H2 & H3 & H4). destruct pass_searches as (H5 & H6 & H7).
  repeat apply Forall_cons_2; [exact H1 | exact H2 | exact H3 | exact H4 | exact H5 | exact H6 | exact H7 |
    exact pass_wrong_nonce | apply pass_difficulty_zero |
    vm_compute; reflexivity.. | apply Forall_nil_2].
Qed.
