(* ===== verification/Http.v ===== *)
(** * HTTP messages ([onced-gateway/src/http.rs])

    Requests and responses, the parser and the serializer.  A reader is the
    bytes not yet read; [read_line], [trim] and [split] are
    those of the Rust library, on the bytes of UTF-8 strings. *)

From S2P Require Import Prelude Machine Str Decimal Codec.

Record Request := MkRequest {
  method : string;
  target : string;
  req_headers : list (string * string);
  req_body : list byte;
}.

Record Response := MkResponse {
  resp_status : Z;
  resp_headers : list (string * string);
  resp_body : list byte;
}.

(** Why a message is refused ([std::io::Error]), or the panic of [vec!] when the
    declared length is more than a vector can hold. *)
Inductive HttpError :=
| InvalidUtf8
| Invalid (message : string)
| UnexpectedEof
| CapacityOverflow.

(** ** Text *)

Definition to_ascii_lowercase (b : byte) : byte :=
  if byte_in 65 90 b then u8_of_Z (u8_to_Z b + 32) else b.

Definition eq_ignore_ascii_case (a b : string) : bool :=
  bool_decide (map to_ascii_lowercase (str_bytes a) = map to_ascii_lowercase (str_bytes b)).

(** The UTF-8 encodings of the characters with the White_Space property. *)
Definition white_space : list (list byte) :=
  [[x09]; [x0a]; [x0b]; [x0c]; [x0d]; [x20]; [xc2; x85]; [xc2; xa0]; [xe1; x9a; x80];
   [xe2; x80; x80]; [xe2; x80; x81]; [xe2; x80; x82]; [xe2; x80; x83]; [xe2; x80; x84];
   [xe2; x80; x85]; [xe2; x80; x86]; [xe2; x80; x87]; [xe2; x80; x88]; [xe2; x80; x89];
   [xe2; x80; x8a]; [xe2; x80; xa8]; [xe2; x80; xa9]; [xe2; x80; xaf]; [xe2; x81; x9f];
   [xe3; x80; x80]].

(** The length of the element of [ws] that [l] begins with, 0 if there is none. *)
Fixpoint prefix_len (ws : list (list byte)) (l : list byte) : nat :=
  match ws with
  | [] => 0
  | w :: ws => if bool_decide (take (length w) l = w) then length w else prefix_len ws l
  end.

(** Drop elements of [ws] from the front while there are any. *)
Fixpoint strip (fuel : nat) (ws : list (list byte)) (l : list byte) : list byte :=
  match fuel with
  | O => l
  | S fuel => match prefix_len ws l with O => l | n => strip fuel ws (drop n l) end
  end.

Definition trim_start (l : list byte) : list byte := strip (length l) white_space l.

(** UTF-8 is self-synchronizing, so trimming at the end is trimming the mirror
    image by the mirrored characters. *)
Definition trim_end (l : list byte) : list byte :=
  reverse (strip (length l) (map reverse white_space) (reverse l)).

Definition trim (l : list byte) : list byte := trim_end (trim_start l).

Definition CR : byte := x0d.
Definition LF : byte := x0a.

(** [trim_end_matches(['\r', '\n'])]. *)
Definition trim_crlf (l : list byte) : list byte :=
  reverse (strip (length l) [[CR]; [LF]] (reverse l)).

(** The bytes before and after the first [sep]. *)
Fixpoint split_once (sep : byte) (l : list byte) : option (list byte * list byte) :=
  match l with
  | [] => None
  | b :: l => if bool_decide (b = sep) then Some ([], l)
              else '(x, y) ← split_once sep l; Some (b :: x, y)
  end.

(** The pieces between separators, [split(' ')]. *)
Fixpoint split (sep : byte) (l : list byte) : list (list byte) :=
  match l with
  | [] => [[]]
  | b :: l => if bool_decide (b = sep) then [] :: split sep l
              else match split sep l with p :: ps => (b :: p) :: ps | [] => [[b]] end
  end.

(** [BufRead::read_line]: up to and including the next newline, or to the end;
    the line must be UTF-8. *)
Definition read_line (r : list byte) : result (list byte * list byte) HttpError :=
  let '(line, rest) := match split_once LF r with
                       | Some (x, y) => (x ++ [LF], y)
                       | None => (r, [])
                       end in
  if utf8_valid line then Ok (line, rest) else Err InvalidUtf8.

(** ** Requests *)

(** The first header with the given name, ignoring case. *)
Fixpoint find_header (name : string) (headers : list (string * string)) : option string :=
  match headers with
  | [] => None
  | (key, value) :: headers =>
      if eq_ignore_ascii_case key name then Some value else find_header name headers
  end.

Definition header (r : Request) (name : string) : option string := find_header name (req_headers r).

(** The header loop of both parsers; every iteration consumes at least a byte,
    so the length of the input bounds the iterations. *)
Fixpoint parse_headers (fuel : nat) (message : string) (r : list byte) (headers : list (string * string))
  : result (list (string * string) * list byte) HttpError :=
  match fuel with
  | O => Ok (headers, r)
  | S fuel =>
      match read_line r with
      | Err e => Err e
      | Ok (line, r) =>
          if bool_decide (line = []) then Ok (headers, r)
          else
            let line := trim_crlf line in
            if bool_decide (line = []) then Ok (headers, r)
            else match split_once x3a line with
                 | Some (name, value) =>
                     parse_headers fuel message r
                       (headers ++ [(str_of_bytes (trim name), str_of_bytes (trim value))])
                 | None => Err (Invalid message)
                 end
      end
  end.

(** [isize::MAX], the most bytes a vector may have. *)
Definition isize_max : Z := 2 ^ 63 - 1.

(** [read_exact] of [n] bytes. *)
Definition read_exact (n : Z) (r : list byte) : result (list byte * list byte) HttpError :=
  if n <=? len r then Ok (take (Z.to_nat n) r, drop (Z.to_nat n) r) else Err UnexpectedEof.

(** The body of [n] bytes: [vec![0; n]], then [read_exact] unless it is empty.  A
    vector longer than [isize::MAX] panics; smaller allocations are taken to
    succeed (where the allocator cannot serve one, the process aborts). *)
Definition read_body (n : Z) (r : list byte) : result (list byte * list byte) HttpError :=
  if isize_max <? n then Err CapacityOverflow
  else if 0 <? n then read_exact n r else Ok ([], r).

(** [None] is a clean end of input; otherwise the request and what follows it. *)
Definition parse_request (r : list byte) : result (option (Request * list byte)) HttpError :=
  match read_line r with
  | Err e => Err e
  | Ok (request_line, r) =>
      if bool_decide (request_line = []) then Ok None
      else
        let parts := split x20 (trim_crlf request_line) in
        let method := default [] (parts !! 0%nat) in
        let target := default [] (parts !! 1%nat) in
        if bool_decide (method = []) || bool_decide (target = [])
        then Err (Invalid "malformed request line")
        else
          match parse_headers (S (length r)) "malformed header line" r [] with
          | Err e => Err e
          | Ok (headers, r) =>
              let content_length :=
                default 0 (v ← find_header "content-length" headers; parse_usize v) in
              match read_body content_length r with
              | Err e => Err e
              | Ok (body, r) =>
                  Ok (Some (MkRequest (str_of_bytes method) (str_of_bytes target) headers body, r))
              end
          end
  end.

(** ** Writing *)

Definition reason_phrase (status : Z) : string :=
  if status =? 200 then "OK"
  else if status =? 201 then "Created"
  else if status =? 400 then "Bad Request"
  else if status =? 409 then "Conflict"
  else if status =? 422 then "Unprocessable Entity"
  else if status =? 429 then "Too Many Requests"
  else if status =? 500 then "Internal Server Error"
  else if status =? 502 then "Bad Gateway"
  else "Status".

Definition CRLF : list byte := [CR; LF].

Definition header_line (nv : string * string) : list byte :=
  str_bytes nv.1 ++ [x3a; x20] ++ str_bytes nv.2 ++ CRLF.

(** The loop over the headers, skipping the names that the serializer owns. *)
Definition write_headers (skip : string -> bool) (headers : list (string * string)) : list byte :=
  mjoin (map header_line (List.filter (fun nv => negb (skip nv.1)) headers)).

Definition write_response (r : Response) : list byte :=
  str_bytes "HTTP/1.1 " ++ display_uint (resp_status r) ++ [x20]
    ++ str_bytes (reason_phrase (resp_status r)) ++ CRLF
    ++ header_line ("Content-Length"%string, str_of_bytes (display_uint (len (resp_body r))))
    ++ write_headers (fun n => eq_ignore_ascii_case n "content-length") (resp_headers r)
    ++ CRLF ++ resp_body r.

Definition write_request (r : Request) : list byte :=
  str_bytes (method r) ++ [x20] ++ str_bytes (target r) ++ str_bytes " HTTP/1.1" ++ CRLF
    ++ write_headers (fun n => eq_ignore_ascii_case n "content-length" || eq_ignore_ascii_case n "connection")
         (req_headers r)
    ++ header_line ("Content-Length"%string, str_of_bytes (display_uint (len (req_body r))))
    ++ str_bytes "Connection: close" ++ CRLF ++ CRLF ++ req_body r.

(** [splitn(3, ' ')]: at most two cuts. *)
Definition splitn3 (sep : byte) (l : list byte) : list (list byte) :=
  match split_once sep l with
  | None => [l]
  | Some (a, l) => match split_once sep l with None => [a; l] | Some (b, l) => [a; b; l] end
  end.

Definition parse_response (r : list byte) : result (Response * list byte) HttpError :=
  match read_line r with
  | Err e => Err e
  | Ok (status_line, r) =>
      if bool_decide (status_line = []) then Err (Invalid "empty response")
      else
        match (code ← splitn3 x20 (trim_crlf status_line) !! 1%nat; parse_u16 code) with
        | None => Err (Invalid "bad status line")
        | Some status =>
            match parse_headers (S (length r)) "malformed response header" r [] with
            | Err e => Err e
            | Ok (headers, r) =>
                match (v ← find_header "content-length" headers; parse_usize v) with
                | Some length =>
                    match read_body length r with
                    | Err e => Err e
                    | Ok (body, r) => Ok (MkResponse status headers body, r)
                    end
                | None => Ok (MkResponse status headers r, [])
                end
            end
        end
  end.

(** The declared length is trusted before a byte of the body is read: a header of
    a few dozen bytes is enough to panic the connection's thread. *)
Example content_length_panics :
  parse_request (str_bytes "POST / HTTP/1.1" ++ CRLF
                 ++ str_bytes "Content-Length: 18446744073709551615" ++ CRLF ++ CRLF) = Err CapacityOverflow.
Proof. vm_compute. reflexivity. Qed.
