(* ===== verification/Gateway.v ===== *)
(** * The gateway handler ([onced-gateway/src/gateway.rs])

    The backend is behind the trait [Upstream], here a class of a state with a
    [forward] that may change it (a backend has effects; that is what must
    happen once).  The phases of a request are separate operations, as the
    router interleaves them with those of other requests. *)

From S2P Require Import Prelude Machine Str Decimal BTreeMap HashMap Types Store Engine Hash Codec Abuse Http.

(** The error of a failed forward is never inspected. *)
Class Upstream (U : Type) := forward : U -> Request -> result Response unit * U.

(** [NoopUpstream]. *)
Record NoopUpstream := MkNoop {}.
#[export] Instance NoopUpstream_Upstream : Upstream NoopUpstream := fun u _ => (Err tt, u).

(** ** Metrics *)

Record Metrics := MkMetrics {
  requests_total : Z;
  created : Z;
  replayed : Z;
  in_progress : Z;
  mismatch : Z;
  denied : Z;
  upstream_error : Z;
  passthrough : Z;
}.

Definition metrics_default : Metrics := MkMetrics 0 0 0 0 0 0 0 0.

(** [+=] on [u64] counters. *)
Definition merge (m other : Metrics) : Metrics :=
  let add := wrapping_add 64 in
  MkMetrics
    (add (requests_total m) (requests_total other))
    (add (created m) (created other))
    (add (replayed m) (replayed other))
    (add (in_progress m) (in_progress other))
    (add (mismatch m) (mismatch other))
    (add (denied m) (denied other))
    (add (upstream_error m) (upstream_error other))
    (add (passthrough m) (passthrough other)).

(** The increment of one counter. *)
Definition one_request : Metrics := MkMetrics 1 0 0 0 0 0 0 0.
Definition one_created : Metrics := MkMetrics 0 1 0 0 0 0 0 0.
Definition one_replayed : Metrics := MkMetrics 0 0 1 0 0 0 0 0.
Definition one_in_progress : Metrics := MkMetrics 0 0 0 1 0 0 0 0.
Definition one_mismatch : Metrics := MkMetrics 0 0 0 0 1 0 0 0.
Definition one_denied : Metrics := MkMetrics 0 0 0 0 0 1 0 0.
Definition one_upstream_error : Metrics := MkMetrics 0 0 0 0 0 0 1 0.
Definition one_passthrough : Metrics := MkMetrics 0 0 0 0 0 0 0 1.

Definition NL : string := String "010" EmptyString.
Definition QUOTE : string := String "034" EmptyString.

Definition display (z : Z) : string := str_of_bytes (display_uint z).

(** One line of the outcome counters. *)
Definition outcome_line (outcome : string) (n : Z) : string :=
  ("onced_outcomes_total{outcome=" +:+ QUOTE +:+ outcome +:+ QUOTE +:+ "} " +:+ display n +:+ NL)%string.

Definition render (m : Metrics) : string :=
  ("# HELP onced_requests_total Proxied requests handled." +:+ NL +:+
   "# TYPE onced_requests_total counter" +:+ NL +:+
   "onced_requests_total " +:+ display (requests_total m) +:+ NL +:+
   "# HELP onced_outcomes_total Responses by how they were produced." +:+ NL +:+
   "# TYPE onced_outcomes_total counter" +:+ NL +:+
   outcome_line "created" (created m) +:+
   outcome_line "replayed" (replayed m) +:+
   outcome_line "in_progress" (in_progress m) +:+
   outcome_line "mismatch" (mismatch m) +:+
   outcome_line "denied" (denied m) +:+
   outcome_line "upstream_error" (upstream_error m) +:+
   outcome_line "passthrough" (passthrough m))%string.

(** ** Responses *)

(** The target up to the first question mark. *)
Definition path_of (r : Request) : string :=
  match split_once x3f (str_bytes (target r)) with
  | Some (path, _) => str_of_bytes path
  | None => target r
  end.

Definition health_ok : Response :=
  MkResponse 200 [("Onced-Status", "healthy")]%string (str_bytes "ok").

Definition metrics_response (m : Metrics) : Response :=
  MkResponse 200 [("Content-Type", "text/plain; version=0.0.4")]%string (str_bytes (render m)).

(** The canonical bytes of a request: each field after its length, which is
    cast with [as u32]. *)
Definition canonical (r : Request) : list byte :=
  let field (l : list byte) := to_be_bytes 4 (wrap 32 (len l)) ++ l in
  field (str_bytes (method r)) ++ field (str_bytes (target r)) ++ field (req_body r).

Definition fingerprint_of (r : Request) (server_key : list byte) : RequestFingerprint :=
  MkFingerprint (hmac_sha256 server_key (canonical r)).

Definition to_outcome (r : Response) : CachedOutcome :=
  MkOutcome (resp_status r) (bt_from_list (resp_headers r)) (resp_body r).

Definition from_outcome (o : CachedOutcome) : Response :=
  MkResponse (status o) (headers o) (body o).

Definition tag (r : Response) (status : string) : Response :=
  MkResponse (resp_status r) (resp_headers r ++ [("Onced-Status"%string, status)]) (resp_body r).

Definition tagged_status (code : Z) (status : string) : Response :=
  MkResponse code [("Onced-Status"%string, status)] [].

Definition action_name (a : Abuse.Action) : string :=
  match a with Challenge => "challenge" | Throttle => "throttle" | Block => "block" end.

Definition too_many_requests (rule : string) (action : Abuse.Action) : Response :=
  MkResponse 429
    [("Onced-Status", "denied"); ("Onced-Rule", rule); ("Onced-Action", action_name action)]%string [].

Definition bad_gateway : Response := tagged_status 502 "upstream-error".

(** ** The gateway *)

Record ForwardTicket := MkTicket { token : option RunToken }.

Inductive BeginPhase :=
| Done (response : Response)
| Forward (ticket : ForwardTicket).

Record Gateway (S U : Type) := MkGateway {
  engine : Engine S;
  rules : RuleSet;
  upstream : U;
  metrics : Metrics;
  fingerprint_key : list byte;
}.
Arguments MkGateway {S U} _ _ _ _ _.
Arguments engine {S U} _.
Arguments rules {S U} _.
Arguments upstream {S U} _.
Arguments metrics {S U} _.
Arguments fingerprint_key {S U} _.

Section gateway.
Context {S U : Type} `{Store S} `{!Upstream U} `{!HashOrder string}.
Implicit Types g : Gateway S U.

Definition Gateway_new (engine : Engine S) (rules : RuleSet) (upstream : U) : Gateway S U :=
  MkGateway engine rules upstream metrics_default (replicate 32 x00).

Definition with_fingerprint_key g (key : list byte) : Gateway S U :=
  MkGateway (engine g) (rules g) (upstream g) (metrics g) key.

Definition set_engine g (e : Engine S) : Gateway S U :=
  MkGateway e (rules g) (upstream g) (metrics g) (fingerprint_key g).
Definition set_rules g (rs : RuleSet) : Gateway S U :=
  MkGateway (engine g) rs (upstream g) (metrics g) (fingerprint_key g).
Definition set_upstream g (u : U) : Gateway S U :=
  MkGateway (engine g) (rules g) u (metrics g) (fingerprint_key g).
Definition count g (m : Metrics) : Gateway S U :=
  MkGateway (engine g) (rules g) (upstream g) (merge (metrics g) m) (fingerprint_key g).

Definition gateway_prune_expired g (now_ms : Z) : Gateway S U :=
  set_engine g (prune_expired (engine g) now_ms).

Definition begin_phase g (r : Request) (now_ms : Z) : BeginPhase * Gateway S U :=
  let g := count g one_request in
  match header r "idempotency-key" with
  | None => (Forward (MkTicket None), g)
  | Some key =>
      let fingerprint := fingerprint_of r (fingerprint_key g) in
      let (b, e) := begin (engine g) (MkKey key) fingerprint now_ms in
      let g := set_engine g e in
      match b with
      | Begin_Run tok => (Forward (MkTicket (Some tok)), g)
      | Begin_Replay outcome => (Done (tag (from_outcome outcome) "replayed"), count g one_replayed)
      | Begin_InProgress => (Done (tagged_status 409 "in-progress"), count g one_in_progress)
      | Begin_Mismatch => (Done (tagged_status 422 "mismatch"), count g one_mismatch)
      end
  end.

Definition complete_phase g (ticket : ForwardTicket) (forwarded : result Response unit) (now_ms : Z)
  : Response * Gateway S U :=
  match token ticket, forwarded with
  | Some tok, Ok response =>
      if 500 <=? resp_status response then (response, count g one_upstream_error)
      else
        let (_, e) := complete (engine g) tok (to_outcome response) now_ms in
        (tag response "created", count (set_engine g e) one_created)
  | Some _, Err _ => (bad_gateway, count g one_upstream_error)
  | None, Ok response => (response, count g one_passthrough)
  | None, Err _ => (bad_gateway, count g one_upstream_error)
  end.

Definition handle_after_abuse g (r : Request) (now_ms : Z) : Response * Gateway S U :=
  let (p, g) := begin_phase g r now_ms in
  match p with
  | Done response => (response, g)
  | Forward ticket =>
      let (forwarded, u) := forward (upstream g) r in
      complete_phase (set_upstream g u) ticket forwarded now_ms
  end.

Definition identity_of (r : Request) : string :=
  default "anonymous"%string (header r "x-forwarded-for").

Definition handle g (r : Request) (now_ms : Z) : Response * Gateway S U :=
  if String.eqb (path_of r) "/healthz" then (health_ok, g)
  else if String.eqb (path_of r) "/metrics" then (metrics_response (metrics g), g)
  else
    let (v, rs) := evaluate (rules g) (identity_of r) now_ms in
    let g := set_rules g rs in
    match v with
    | Verdict_Deny rule action => (too_many_requests rule action, count g one_denied)
    | Verdict_Allow => handle_after_abuse g r now_ms
    end.

End gateway.
