(* ===== verification/GatewayTests.v ===== *)
(** * The unit tests of the HTTP messages and the gateway

    The [mod tests] of [http.rs] and [gateway.rs].  The test's backend counts
    its calls; its counter is part of the gateway's state. *)

From S2P Require Import Prelude Machine Str Decimal BTreeMap HashMap Types Store Engine EngineSpec Suite.
From S2P Require Import Hash Codec Abuse Http Gateway.

#[local] Open Scope string_scope.
#[local] Open Scope Z_scope.

(** ** [http.rs] *)

Definition CRLF_str : string := String "013" (String "010" EmptyString).

(** [text.contains(needle)], [starts_with] and [ends_with]. *)
Definition starts_with (needle l : list byte) : bool := bool_decide (take (length needle) l = needle).

Fixpoint contains (needle l : list byte) : bool :=
  starts_with needle l || match l with [] => false | _ :: l => contains needle l end.

Definition ends_with (needle l : list byte) : bool := starts_with (reverse needle) (reverse l).

(** [parse_request(&mut reader).unwrap().expect("a request")]. *)
Definition expect_request (raw : list byte) : option Request :=
  parsed ← unwrap (parse_request raw);
  '(request, _) ← parsed;
  Some request.

Definition parses_a_get_with_no_body : option unit :=
  let raw := str_bytes ("GET /health HTTP/1.1" ++ CRLF_str ++ "Host: example" ++ CRLF_str ++ CRLF_str) in
  request ← expect_request raw;
  ensure (bool_decide (method request = "GET"));;
  ensure (bool_decide (target request = "/health"));;
  ensure (bool_decide (req_body request = [])).

Definition parses_a_post_body_and_looks_up_headers_case_insensitively : option unit :=
  let raw := str_bytes ("POST /charge HTTP/1.1" ++ CRLF_str ++ "Idempotency-Key: abc123" ++ CRLF_str
                        ++ "Content-Length: 5" ++ CRLF_str ++ CRLF_str ++ "hello") in
  request ← expect_request raw;
  ensure (bool_decide (method request = "POST"));;
  ensure (bool_decide (target request = "/charge"));;
  ensure (bool_decide (req_body request = str_bytes "hello"));;
  ensure (bool_decide (header request "idempotency-key" = Some "abc123"));;
  ensure (bool_decide (header request "IDEMPOTENCY-KEY" = Some "abc123"));;
  ensure (bool_decide (header request "missing" = None)).

Definition a_clean_eof_yields_no_request : option unit :=
  parsed ← unwrap (parse_request []);
  ensure (match parsed with None => true | Some _ => false end).

Definition writes_a_response_with_status_line_and_content_length : option unit :=
  let response := MkResponse 201 [("X-Test", "1")] (str_bytes "created") in
  let text := write_response response in
  ensure (utf8_valid text);;
  ensure (starts_with (str_bytes ("HTTP/1.1 201 Created" ++ CRLF_str)) text);;
  ensure (contains (str_bytes ("Content-Length: 7" ++ CRLF_str)) text);;
  ensure (contains (str_bytes ("X-Test: 1" ++ CRLF_str)) text);;
  ensure (ends_with (str_bytes (CRLF_str ++ CRLF_str ++ "created")) text).

Definition write_request_then_parse_request_round_trips : option unit :=
  let request := MkRequest "POST" "/charge" [("Idempotency-Key", "k1"); ("Host", "backend")]
                   (str_bytes "amount=100") in
  parsed ← expect_request (write_request request);
  ensure (bool_decide (method parsed = "POST"));;
  ensure (bool_decide (target parsed = "/charge"));;
  ensure (bool_decide (req_body parsed = str_bytes "amount=100"));;
  ensure (bool_decide (header parsed "idempotency-key" = Some "k1")).

Definition parse_response_reads_status_headers_and_body : option unit :=
  let raw := str_bytes ("HTTP/1.1 201 Created" ++ CRLF_str ++ "Content-Length: 7" ++ CRLF_str
                        ++ "X-Test: 1" ++ CRLF_str ++ CRLF_str ++ "charged") in
  '(response, _) ← unwrap (parse_response raw);
  ensure (resp_status response =? 201);;
  ensure (bool_decide (resp_body response = str_bytes "charged"));;
  ensure (bool_decide (find_header "x-test" (resp_headers response) = Some "1")).

Definition parse_response_reads_body_to_eof_without_content_length : option unit :=
  let raw := str_bytes ("HTTP/1.1 200 OK" ++ CRLF_str ++ "Connection: close" ++ CRLF_str ++ CRLF_str
                        ++ "streamed-body") in
  '(response, _) ← unwrap (parse_response raw);
  ensure (resp_status response =? 200);;
  ensure (bool_decide (resp_body response = str_bytes "streamed-body")).

Definition write_response_then_parse_response_round_trips : option unit :=
  let response := MkResponse 200 [("X-A", "b")] (str_bytes "hi") in
  '(parsed, _) ← unwrap (parse_response (write_response response));
  ensure (resp_status parsed =? 200);;
  ensure (bool_decide (resp_body parsed = str_bytes "hi")).

(** The unit tests of the HTTP parser and serializer pass. *)
Theorem http_suite_passes :
  Forall (fun t => t = Some tt)
    [parses_a_get_with_no_body; parses_a_post_body_and_looks_up_headers_case_insensitively;
     a_clean_eof_yields_no_request; writes_a_response_with_status_line_and_content_length;
     write_request_then_parse_request_round_trips; parse_response_reads_status_headers_and_body;
     parse_response_reads_body_to_eof_without_content_length;
     write_response_then_parse_response_round_trips].
Proof. repeat apply Forall_cons_2; [vm_compute; reflexivity.. | apply Forall_nil_2]. Qed.

(** ** [gateway.rs]: fingerprints *)

Definition req (method target : string) (body : list byte) : Request := MkRequest method target [] body.

Definition fingerprint_same_request_same_key_is_deterministic : option unit :=
  let key := replicate 32 xab in
  let r := req "POST" "/charge" (str_bytes "amount=100") in
  ensure (bool_decide (fingerprint_of r key = fingerprint_of r key)).

(** [assert_ne!(fingerprint_of(&r1, &k1), fingerprint_of(&r2, &k2))]. *)
Definition fingerprints_differ (r1 r2 : Request) (k1 k2 : list byte) : option unit :=
  ensure (negb (bool_decide (fingerprint_of r1 k1 = fingerprint_of r2 k2))).

Definition fingerprint_different_method_is_different : option unit :=
  let key := replicate 32 x01 in
  let r1 := req "POST" "/charge" (str_bytes "amount=100") in
  let r2 := req "PUT" "/charge" (str_bytes "amount=100") in
  fingerprints_differ r1 r2 key key.

Definition fingerprint_different_target_is_different : option unit :=
  let key := replicate 32 x02 in
  let r1 := req "POST" "/charge" (str_bytes "amount=100") in
  let r2 := req "POST" "/refund" (str_bytes "amount=100") in
  fingerprints_differ r1 r2 key key.

Definition fingerprint_different_body_is_different : option unit :=
  let key := replicate 32 x03 in
  let r1 := req "POST" "/charge" (str_bytes "amount=100") in
  let r2 := req "POST" "/charge" (str_bytes "amount=999") in
  fingerprints_differ r1 r2 key key.

Definition fingerprint_length_prefix_prevents_field_boundary_collision : option unit :=
  let key := replicate 32 x04 in
  let r1 := req "ab" "c" [] in
  let r2 := req "a" "bc" [] in
  fingerprints_differ r1 r2 key key;;
  let r3 := req "POST" "abc" [] in
  let r4 := req "POST" "ab" (str_bytes "c") in
  fingerprints_differ r3 r4 key key.

Definition fingerprint_is_keyed_different_key_yields_different_fingerprint : option unit :=
  let key_a := replicate 32 xaa in
  let key_b := replicate 32 xbb in
  let r := req "POST" "/charge" (str_bytes "amount=100") in
  fingerprints_differ r r key_a key_b.

(** ** [gateway.rs]: the handler *)

Record CountingUpstream := MkCounting { calls : Z; status : Z; up_body : list byte }.

#[export] Instance CountingUpstream_Upstream : Upstream CountingUpstream := fun u _ =>
  (Ok (MkResponse (status u) [] (up_body u)), MkCounting (calls u + 1) (status u) (up_body u)).

Definition post (key : option string) (body : list byte) : Request :=
  let headers := [("X-Forwarded-For", "10.0.0.1")] in
  let headers := match key with Some key => (headers ++ [("Idempotency-Key", key)])%list | None => headers end in
  MkRequest "POST" "/charge" headers body.

Definition resp_header (response : Response) (name : string) : option string :=
  find_header name (resp_headers response).

Section gateway_tests.
Context `{!HashOrder string}.

Definition gateway : Gateway MemoryStore CountingUpstream :=
  with_fingerprint_key
    (Gateway_new (new MemoryStore_new 30000) RuleSet_new (MkCounting 0 201 (str_bytes "charged")))
    (replicate 32 x42).

(** [assert_eq!(calls.load(..), n)]. *)
Definition ensure_calls (gw : Gateway MemoryStore CountingUpstream) (n : Z) : option unit :=
  ensure (calls (upstream gw) =? n).

Definition ensure_status (resp : Response) (name : string) : option unit :=
  ensure (bool_decide (resp_header resp "Onced-Status" = Some name)).

Definition retried_request_hits_the_backend_exactly_once : option unit :=
  let (first, gw) := handle gateway (post (Some "k1") (str_bytes "amount=100")) 1000 in
  let (second, gw) := handle gw (post (Some "k1") (str_bytes "amount=100")) 1050 in
  ensure_calls gw 1;;
  ensure (bool_decide (resp_body first = str_bytes "charged"));;
  ensure (bool_decide (resp_body second = str_bytes "charged"));;
  ensure (resp_status second =? 201);;
  ensure_status first "created";;
  ensure_status second "replayed".

Definition upstream_5xx_is_not_cached_and_is_retried : option unit :=
  let gw := Gateway_new (new MemoryStore_new 1000) RuleSet_new (MkCounting 0 500 (str_bytes "upstream boom")) in
  let req := post (Some "k") (str_bytes "x") in
  let (first, gw) := handle_after_abuse gw req 1000 in
  ensure (resp_status first =? 500);;
  ensure (negb (bool_decide (resp_header first "Onced-Status" = Some "created")));;
  let (second, gw) := handle_after_abuse gw req 3000 in
  ensure (resp_status second =? 500);;
  ensure_calls gw 2.

Definition different_keys_each_reach_the_backend : option unit :=
  let (_, gw) := handle gateway (post (Some "k1") (str_bytes "x")) 1000 in
  let (_, gw) := handle gw (post (Some "k2") (str_bytes "x")) 1000 in
  ensure_calls gw 2.

Definition same_key_different_body_is_rejected_without_calling_backend : option unit :=
  let (_, gw) := handle gateway (post (Some "k1") (str_bytes "amount=100")) 1000 in
  let (resp, gw) := handle gw (post (Some "k1") (str_bytes "amount=999")) 1010 in
  ensure (resp_status resp =? 422);;
  ensure_calls gw 1.

Definition requests_without_a_key_are_forwarded_each_time : option unit :=
  let (_, gw) := handle gateway (post None (str_bytes "x")) 1000 in
  let (_, gw) := handle gw (post None (str_bytes "x")) 1000 in
  ensure_calls gw 2.

Definition get (path : string) : Request := MkRequest "GET" path [("X-Forwarded-For", "10.0.0.1")] [].

Definition healthz_is_served_locally_without_touching_the_backend : option unit :=
  rules ← rule RuleSet_new "strict" 1000 1 Block;
  let gw := Gateway_new (new MemoryStore_new 30000) rules (MkCounting 0 201 (str_bytes "x")) in
  gw ← for_each (range 0 10) gw (fun gw _ =>
    let (resp, gw) := handle gw (get "/healthz") 0 in
    ensure (resp_status resp =? 200);;
    ensure (bool_decide (resp_body resp = str_bytes "ok"));;
    Some gw);
  ensure_calls gw 0;;
  ensure (requests_total (metrics gw) =? 0).

(** [onced_outcomes_total{outcome="name"} n]. *)
Definition outcome_text (name : string) (n : Z) : list byte :=
  str_bytes ("onced_outcomes_total{outcome=" ++ QUOTE ++ name ++ QUOTE ++ "} " ++ display n).

Definition metrics_count_created_and_replayed_outcomes : option unit :=
  let (_, gw) := handle gateway (post (Some "k1") (str_bytes "x")) 1000 in
  let (_, gw) := handle gw (post (Some "k1") (str_bytes "x")) 1010 in
  let (_, gw) := handle gw (post None (str_bytes "x")) 1020 in
  let m := metrics gw in
  ensure (requests_total m =? 3);;
  ensure (created m =? 1);;
  ensure (replayed m =? 1);;
  ensure (passthrough m =? 1);;
  let (resp, gw) := handle gw (get "/metrics") 1030 in
  ensure (utf8_valid (resp_body resp));;
  ensure (contains (str_bytes "onced_requests_total 3") (resp_body resp));;
  ensure (contains (outcome_text "created" 1) (resp_body resp));;
  ensure (contains (outcome_text "replayed" 1) (resp_body resp)).

(** [match gw.begin_phase(..) { Forward(t) => t, Done(_) => panic }]. *)
Definition expect_forward (gw : Gateway MemoryStore CountingUpstream) (r : Request) (now : Z)
  : option (ForwardTicket * Gateway MemoryStore CountingUpstream) :=
  let (p, gw) := begin_phase gw r now in
  match p with Forward ticket => Some (ticket, gw) | Done _ => None end.

(** [match gw.begin_phase(..) { Done(resp) => resp, Forward(_) => panic }]. *)
Definition expect_done (gw : Gateway MemoryStore CountingUpstream) (r : Request) (now : Z)
  : option (Response * Gateway MemoryStore CountingUpstream) :=
  let (p, gw) := begin_phase gw r now in
  match p with Done resp => Some (resp, gw) | Forward _ => None end.

Definition stale_fence_after_lease_takeover_commits_only_the_survivors_outcome : option unit :=
  let gw := Gateway_new (new MemoryStore_new 1000) RuleSet_new (MkCounting 0 201 []) in
  let req := post (Some "k") (str_bytes "x") in
  '(w1_ticket, gw) ← expect_forward gw req 1000;
  '(w2_ticket, gw) ← expect_forward gw req 2500;
  let w2 := MkResponse 201 [] (str_bytes "w2") in
  let (resp, gw) := complete_phase gw w2_ticket (Ok w2) 2500 in
  ensure_status resp "created";;
  let w1 := MkResponse 201 [] (str_bytes "w1") in
  let (_, gw) := complete_phase gw w1_ticket (Ok w1) 2600 in
  '(resp, gw) ← expect_done gw req 2700;
  ensure (bool_decide (resp_body resp = str_bytes "w2"));;
  ensure_status resp "replayed".

Definition begin_and_complete_phases_serialise_same_key : option unit :=
  let req := post (Some "k1") (str_bytes "x") in
  '(ticket, gw) ← expect_forward gateway req 1000;
  '(resp, gw) ← expect_done gw req 1001;
  ensure (resp_status resp =? 409);;
  let backend := MkResponse 201 [] (str_bytes "charged") in
  let (resp, gw) := complete_phase gw ticket (Ok backend) 1002 in
  ensure_status resp "created";;
  '(resp, gw) ← expect_done gw req 1002;
  ensure_status resp "replayed".

Definition an_abuse_rule_blocks_with_429_before_the_backend : option unit :=
  rules ← rule RuleSet_new "strict" 1000 2 Block;
  let gw := Gateway_new (new MemoryStore_new 30000) rules (MkCounting 0 201 (str_bytes "ok")) in
  let (a, gw) := handle gw (post (Some "a") (str_bytes "x")) 0 in
  ensure (resp_status a =? 201);;
  let (b, gw) := handle gw (post (Some "b") (str_bytes "x")) 0 in
  ensure (resp_status b =? 201);;
  let (blocked, gw) := handle gw (post (Some "c") (str_bytes "x")) 0 in
  ensure (resp_status blocked =? 429);;
  ensure (bool_decide (resp_header blocked "Onced-Action" = Some "block"));;
  ensure_calls gw 2.

(** The gateway's unit tests pass: a retry reaches the backend once and is
    replayed, a 5xx is not cached, a different body under the same key is
    refused, the late completion of a worker that lost its lease changes
    nothing, two requests with one key are serialised, and the fingerprint
    depends on the method, the target, the body, where they end, and the key. *)
Theorem gateway_suite_passes :
  Forall (fun t => t = Some tt)
    [fingerprint_same_request_same_key_is_deterministic;
     fingerprint_different_method_is_different;
     fingerprint_different_target_is_different;
     fingerprint_different_body_is_different;
     fingerprint_length_prefix_prevents_field_boundary_collision;
     fingerprint_is_keyed_different_key_yields_different_fingerprint;
     retried_request_hits_the_backend_exactly_once;
     upstream_5xx_is_not_cached_and_is_retried;
     different_keys_each_reach_the_backend;
     same_key_different_body_is_rejected_without_calling_backend;
     requests_without_a_key_are_forwarded_each_time;
     healthz_is_served_locally_without_touching_the_backend;
     metrics_count_created_and_replayed_outcomes;
     stale_fence_after_lease_takeover_commits_only_the_survivors_outcome;
     begin_and_complete_phases_serialise_same_key;
     an_abuse_rule_blocks_with_429_before_the_backend].
Proof. repeat apply Forall_cons_2; [vm_compute; reflexivity.. | apply Forall_nil_2]. Qed.

End gateway_tests.
