(* ===== verification/GatewaySpec.v ===== *)
(** * What the gateway promises

    A history of one shard at the level of request phases: begins, completions
    (with whatever the backend answered), prune sweeps and restarts, interleaved
    in any way, as concurrent requests interleave when the lock is released
    during the backend call. *)

From S2P Require Import Prelude Machine Str BTreeMap HashMap Types Store Engine History Hash Codec Abuse.
From S2P Require Import Http Gateway.

(** ** Fingerprints *)

Definition field_be (l : list byte) : list byte := to_be_bytes 4 (wrap 32 (len l)) ++ l.

Lemma field_be_inj a b x y : short a -> short b -> field_be a ++ x = field_be b ++ y -> a = b /\ x = y.
Proof.
  intros Ha Hb. unfold field_be. rewrite !short_wrap, <- !app_assoc by done. intros E.
  apply app_inj_len in E as [E1 E]; [|by rewrite !length_to_be_bytes].
  apply (to_be_bytes_inj 4) in E1; [|by apply short_u32..].
  apply app_inj_len in E as [-> ->]; [done|]. unfold len in E1. lia.
Qed.

Lemma canonical_inj r r' :
  short (str_bytes (method r)) -> short (str_bytes (target r)) -> short (req_body r) ->
  short (str_bytes (method r')) -> short (str_bytes (target r')) -> short (req_body r') ->
  canonical r = canonical r' ->
  method r = method r' /\ target r = target r' /\ req_body r = req_body r'.
Proof.
  intros Hm Ht Hb Hm' Ht' Hb' E. unfold canonical in E. cbv zeta in E. fold (field_be (str_bytes (method r))) in E.
  fold (field_be (str_bytes (target r))) (field_be (req_body r)) (field_be (str_bytes (method r')))
    (field_be (str_bytes (target r'))) (field_be (req_body r')) in E.
  apply field_be_inj in E as [Em E]; [|done..]. apply field_be_inj in E as [Et E]; [|done..].
  rewrite <- (app_nil_r (field_be (req_body r))), <- (app_nil_r (field_be (req_body r'))) in E.
  apply field_be_inj in E as [-> _]; [|done..].
  by apply (inj str_bytes) in Em as ->; apply (inj str_bytes) in Et as ->.
Qed.

(** C35: a fingerprint identifies the request.  Two requests (with fields below
    4 GiB) have the same canonical bytes only if method, target and body agree,
    so equal fingerprints under one server key mean the same request or an HMAC
    collision on those two byte strings. *)
Theorem fingerprint_binds_request r r' key :
  short (str_bytes (method r)) -> short (str_bytes (target r)) -> short (req_body r) ->
  short (str_bytes (method r')) -> short (str_bytes (target r')) -> short (req_body r') ->
  fingerprint_of r key = fingerprint_of r' key ->
  (method r = method r' /\ target r = target r' /\ req_body r = req_body r') \/
  (canonical r <> canonical r' /\ hmac_sha256 key (canonical r) = hmac_sha256 key (canonical r')).
Proof.
  intros Hm Ht Hb Hm' Ht' Hb' E. unfold fingerprint_of in E. simplify_eq.
  destruct (decide (canonical r = canonical r')) as [Ec|Ec]; [left; by apply canonical_inj | by right].
Qed.

(** ** Histories of phases *)

Inductive GEvent :=
| GBegin (r : Request) (now : Z) (p : BeginPhase)
| GComplete (tk : ForwardTicket) (f : result Response unit) (now : Z) (resp : Response)
| GPrune (now : Z)
| GCrash.

(** The time that the phase reads, if any, satisfies [P]. *)
Definition g_timed (P : Z -> Prop) (ev : GEvent) : Prop :=
  match ev with
  | GBegin _ now _ | GComplete _ _ now _ | GPrune now => P now
  | GCrash => True
  end.

Definition g_before (t : Z) : GEvent -> Prop := g_timed (fun now => now < t).

Section histories.
Context {S U : Type} `{DurableLaws S} `{!Upstream U} `{!HashOrder string}.
Implicit Types g : Gateway S U.

(** What the store must be able to record. *)
Definition request_ok g (r : Request) : Prop :=
  forall key, header r "idempotency-key" = Some key ->
  admits_request (MkKey key) (fingerprint_of r (fingerprint_key g)).

Definition completion_ok (tk : ForwardTicket) (f : result Response unit) (now : Z) : Prop :=
  forall tok resp, token tk = Some tok -> f = Ok resp ->
  admits_outcome (token_key tok) (to_outcome resp) now.

Inductive gstep : Gateway S U -> GEvent -> Gateway S U -> Prop :=
| gstep_begin g r now : in_uint 64 now -> request_ok g r ->
    gstep g (GBegin r now (begin_phase g r now).1) (begin_phase g r now).2
| gstep_complete g tk f now : in_uint 64 now -> completion_ok tk f now ->
    gstep g (GComplete tk f now (complete_phase g tk f now).1) (complete_phase g tk f now).2
| gstep_prune g now : gstep g (GPrune now) (gateway_prune_expired g now)
| gstep_crash g s' rs u : recover (store (engine g)) s' ->
    gstep g GCrash (MkGateway (with_ttl s' (lease_ms (engine g)) (ttl_ms (engine g))) rs u
                      metrics_default (fingerprint_key g)).

Inductive gsteps : Gateway S U -> list GEvent -> Gateway S U -> Prop :=
| gsteps_nil g : gsteps g [] g
| gsteps_snoc g tr g1 ev g2 : gsteps g tr g1 -> gstep g1 ev g2 -> gsteps g (tr ++ [ev]) g2.

(** A phase is at most one operation of the engine, at the same time. *)
Lemma gstep_esteps g ev g' (P : Z -> Prop) :
  gstep g ev g' -> g_timed P ev ->
  fingerprint_key g' = fingerprint_key g /\
  exists tr, esteps (engine g) tr (engine g') /\ Forall (timed P) tr.
Proof.
  intros Hs HT. destruct Hs as [g r now Hn Hok|g tk f now Hn Hok|g now|g s' rs u Hrec]; simpl in HT.
  - unfold begin_phase. destruct (header r "idempotency-key") as [key|] eqn:Hk.
    + pose proof (step_begin (engine g) (MkKey key) (fingerprint_of r (fingerprint_key g)) now Hn (Hok key Hk)) as Hstep.
      simpl. destruct (begin (engine g) (MkKey key) _ now) as [b e] eqn:Eb. simpl in Hstep.
      assert (fingerprint_key g = fingerprint_key g /\
              exists tr, esteps (engine g) tr e /\ Forall (timed P) tr) as [_ (tr & Htr & Hf)].
      { split; [done|]. eexists. split; [by apply esteps_one|]. by repeat constructor. }
      destruct b; simpl; (split; [done | by exists tr]).
    + split; [done|]. exists []. split; constructor.
  - unfold complete_phase. destruct (token tk) as [tok|] eqn:Ht, f as [resp|[]]; simpl;
      try (split; [done|]; exists []; split; constructor).
    case_cmp; simpl; [split; [done|]; exists []; split; constructor|].
    pose proof (step_complete (engine g) tok (to_outcome resp) now Hn (Hok tok resp Ht eq_refl)) as Hstep.
    destruct (complete (engine g) tok (to_outcome resp) now) as [res e]. simpl in *. split; [done|].
    eexists. split; [by apply esteps_one|]. by repeat constructor.
  - split; [done|]. eexists. split; [apply esteps_one, step_prune|]. by repeat constructor.
  - split; [done|]. eexists. split; [apply esteps_one; by apply step_crash|]. by repeat constructor.
Qed.

Lemma gsteps_esteps g tr g' (P : Z -> Prop) :
  gsteps g tr g' -> Forall (g_timed P) tr ->
  fingerprint_key g' = fingerprint_key g /\
  exists etr, esteps (engine g) etr (engine g') /\ Forall (timed P) etr.
Proof.
  induction 1 as [|g tr g1 ev g2 _ IH Hs]; intros Hb; [split; [done|]; exists []; split; constructor|].
  apply Forall_app in Hb as [Hb Hev]. rewrite Forall_singleton in Hev.
  destruct (IH Hb) as [Hk (t1 & Hs1 & F1)]. destruct (gstep_esteps _ _ _ P Hs Hev) as [Hk2 (t2 & Hs2 & F2)].
  split; [congruence|]. exists (t1 ++ t2). split; [by eapply esteps_trans | by apply Forall_app].
Qed.

(** What a request with a completed, unexpired key is told. *)
Lemma begin_phase_completed g r key fp o t now :
  engine_ok (engine g) -> records (engine g) !! MkKey key = Some (Completed fp o t) ->
  header r "idempotency-key" = Some key -> now < expiry t (ttl_ms (engine g)) ->
  (begin_phase g r now).1 =
    Done (if decide (fp = fingerprint_of r (fingerprint_key g)) then tag (from_outcome o) "replayed"
          else tagged_status 422 "mismatch") /\
  engine (begin_phase g r now).2 = engine g /\ upstream (begin_phase g r now).2 = upstream g.
Proof.
  intros Ho Hk Hh Hlt. unfold begin_phase. rewrite Hh. simpl.
  rewrite (begin_completed (engine g) (MkKey key) fp o t) by done.
  destruct (decide (fp = _)); simpl; by split_and!.
Qed.

(** The first phase of a keyed request, through the engine. *)
Lemma begin_phase_engine g r key now :
  header r "idempotency-key" = Some key ->
  let b := begin (engine g) (MkKey key) (fingerprint_of r (fingerprint_key g)) now in
  engine (begin_phase g r now).2 = b.2 /\
  match b.1 with
  | Begin_Run tok => (begin_phase g r now).1 = Forward (MkTicket (Some tok))
  | Begin_Replay o => (begin_phase g r now).1 = Done (tag (from_outcome o) "replayed")
  | Begin_InProgress => (begin_phase g r now).1 = Done (tagged_status 409 "in-progress")
  | Begin_Mismatch => (begin_phase g r now).1 = Done (tagged_status 422 "mismatch")
  end.
Proof.
  intros Hh. unfold begin_phase. rewrite Hh. simpl. by destruct (begin (engine g) _ _ now) as [[] e].
Qed.

(** What a shard answers while another request holds the key. *)
Definition refused (resp : Response) : Prop :=
  resp = tagged_status 409 "in-progress" \/ resp = tagged_status 422 "mismatch" \/
  exists o, resp = tag (from_outcome o) "replayed".

Lemma begin_phase_held g r key t0 l0 now :
  engine_ok (engine g) -> t0 + ttl_ms (engine g) < 2 ^ 64 -> held (MkKey key) t0 l0 (engine g) ->
  header r "idempotency-key" = Some key -> in_lease t0 l0 (ttl_ms (engine g)) now ->
  exists resp, (begin_phase g r now).1 = Done resp /\ refused resp.
Proof.
  intros Ho Hw Hh Hk Hn. destruct (begin_phase_engine g r key now Hk) as [_ Hp].
  destruct (begin_held (engine g) (MkKey key) t0 l0 (fingerprint_of r (fingerprint_key g)) now Ho Hw Hh Hn) as [_ Hno].
  destruct (begin _ _ _ now).1 as [tok|o| |]; [by destruct (Hno tok) | ..];
    (eexists; split; [done | unfold refused; eauto]).
Qed.

(** A shard keeps a key held through every history within the lease. *)
Lemma held_answer g r0 key now0 tk tr g2 r now :
  engine_inv (engine g) -> in_uint 64 now0 -> request_ok g r0 -> header r0 "idempotency-key" = Some key ->
  now0 + ttl_ms (engine g) < 2 ^ 64 -> (begin_phase g r0 now0).1 = Forward tk ->
  let W := in_lease now0 (saturating_add 64 now0 (lease_ms (engine g))) (ttl_ms (engine g)) in
  gsteps (begin_phase g r0 now0).2 tr g2 -> Forall (g_timed W) tr ->
  header r "idempotency-key" = Some key -> W now ->
  exists resp, (begin_phase g2 r now).1 = Done resp /\ refused resp.
Proof.
  intros Hinv Hn0 Hok Hk0 Hw Hf W Hs Ht Hk Hn. destruct (begin_phase_engine g r0 key now0 Hk0) as [Ee Hp].
  pose proof (step_begin (engine g) (MkKey key) _ now0 Hn0 (Hok key Hk0)) as Hstep.
  pose proof (estep_inv _ _ _ Hinv Hstep) as Hinv1. pose proof (estep_ttl _ _ _ Hstep) as Httl.
  destruct (begin (engine g) (MkKey key) (fingerprint_of r0 (fingerprint_key g)) now0).1 as [tok|o| |] eqn:Eb;
    [|congruence..].
  pose proof (run_held (engine g) _ _ now0 tok now0 (proj1 Hinv) Eb ltac:(lia)) as Hheld.
  destruct (gsteps_esteps _ _ _ _ Hs Ht) as [_ (etr & Hes & Het)]. rewrite Ee in Hes.
  destruct (held_steps _ _ _ _ etr (engine g2) Hinv1 ltac:(by rewrite Httl) Hheld Hes ltac:(by rewrite Httl))
    as [Hheld2 _].
  pose proof (esteps_inv _ _ _ Hinv1 Hes) as [Ho2 _]. pose proof (esteps_ttl _ _ _ Hes) as Httl2.
  eapply begin_phase_held; [done | by rewrite Httl2, Httl | done | done | by rewrite Httl2, Httl].
Qed.

(** What a shard answers after a committed completion, until it expires. *)
Lemma committed_answer g tok resp t tr g2 r now :
  engine_inv (engine g) -> in_uint 64 t -> admits_outcome (token_key tok) (to_outcome resp) t ->
  resp_status resp < 500 ->
  (complete (engine g) tok (to_outcome resp) t).1 = Ok tt ->
  gsteps (complete_phase g (MkTicket (Some tok)) (Ok resp) t).2 tr g2 ->
  Forall (g_before (expiry t (ttl_ms (engine g)))) tr ->
  header r "idempotency-key" = Some (key_str (token_key tok)) -> now < expiry t (ttl_ms (engine g)) ->
  exists fp l,
    records (engine g) !! token_key tok = Some (InProgress (token_fence tok) fp l) /\
    (begin_phase g2 r now).1 =
      Done (if decide (fp = fingerprint_of r (fingerprint_key g))
            then tag (from_outcome (to_outcome resp)) "replayed" else tagged_status 422 "mismatch") /\
    engine (begin_phase g2 r now).2 = engine g2 /\ upstream (begin_phase g2 r now).2 = upstream g2.
Proof.
  intros Hinv Ht Hadm Hst Hc Hs Hb Hh Hlt. pose proof Hinv as [Ho _].
  destruct (complete_ok_inv _ _ _ _ Ho Hc) as (fp & l & Hk & Hrec). exists fp, l. split; [done|].
  pose proof (step_complete (engine g) tok (to_outcome resp) t Ht Hadm) as Hstep.
  pose proof (estep_inv _ _ _ Hinv Hstep) as Hinv1. pose proof (estep_ttl _ _ _ Hstep) as Httl1.
  assert (engine (complete_phase g (MkTicket (Some tok)) (Ok resp) t).2 =
          (complete (engine g) tok (to_outcome resp) t).2 /\
          fingerprint_key (complete_phase g (MkTicket (Some tok)) (Ok resp) t).2 = fingerprint_key g) as [E1 Ek1].
  { unfold complete_phase. simpl. case_cmp; [lia|]. by destruct (complete _ _ _ _). }
  destruct (gsteps_esteps _ _ _ _ Hs Hb) as [Ek2 (etr & Hes & Hf)]. rewrite E1 in Hes.
  destruct (completed_steps _ etr (engine g2) (token_key tok) fp (to_outcome resp) t Hinv1)
    as [Hk2 _]; [rewrite Hrec; apply lookup_insert_eq | done | by rewrite Httl1 |].
  pose proof (esteps_inv _ _ _ Hinv1 Hes) as [Ho2 _]. pose proof (esteps_ttl _ _ _ Hes) as Httl2.
  rewrite <- Ek1, <- Ek2. apply (begin_phase_completed g2 r (key_str (token_key tok)) fp _ t);
    [done | by destruct (token_key tok) | done | by rewrite Httl2, Httl1].
Qed.

(** What the engine stores of a response: all of it, the headers by name, of a name
    that is repeated the last value only. *)
Lemma stored_response resp :
  let stored := from_outcome (to_outcome resp) in
  resp_status stored = resp_status resp /\ resp_body stored = resp_body resp /\
  (NoDup (resp_headers resp).*1 -> resp_headers stored ≡ₚ resp_headers resp).
Proof. split_and!; [done | done | apply bt_from_list_perm]. Qed.

Lemma begin_phase_rules g rs r now :
  begin_phase (set_rules g rs) r now = prod_map id (fun g => set_rules g rs) (begin_phase g r now).
Proof.
  unfold begin_phase. destruct (header r _) as [key|]; [|done]. cbn [count set_rules engine fingerprint_key].
  by destruct (begin (engine g) (MkKey key) _ now) as [[] e].
Qed.

(** C6: the backend is called once per key.  When a request's completion has
    committed its (final) response at time [t], then after any further interleaving
    of phases, prune sweeps and restarts before the expiry of [t], every request
    with that key (and a path that is not operational) is answered by [handle]
    without the backend: 429 if the gateway's rules deny it, and otherwise the
    stored response tagged [replayed] if it is the same request and 422 if it is
    another; neither the backend's state nor the engine changes.  The stored
    response has the status and the body of the committed one and, if it repeats
    no header name, its headers up to their order. *)
Theorem gateway_exactly_once g tok resp t g1 tr g2 r now :
  engine_inv (engine g) -> in_uint 64 t -> admits_outcome (token_key tok) (to_outcome resp) t ->
  resp_status resp < 500 ->
  (complete (engine g) tok (to_outcome resp) t).1 = Ok tt ->
  g1 = (complete_phase g (MkTicket (Some tok)) (Ok resp) t).2 ->
  gsteps g1 tr g2 -> Forall (g_before (expiry t (ttl_ms (engine g)))) tr ->
  header r "idempotency-key" = Some (key_str (token_key tok)) -> now < expiry t (ttl_ms (engine g)) ->
  path_of r <> "/healthz"%string -> path_of r <> "/metrics"%string ->
  exists fp l stored,
    records (engine g) !! token_key tok = Some (InProgress (token_fence tok) fp l) /\
    (handle g2 r now).1 =
      match (evaluate (rules g2) (identity_of r) now).1 with
      | Verdict_Deny rule action => too_many_requests rule action
      | Verdict_Allow =>
          if decide (fp = fingerprint_of r (fingerprint_key g)) then tag stored "replayed" else tagged_status 422 "mismatch"
      end /\
    upstream (handle g2 r now).2 = upstream g2 /\ engine (handle g2 r now).2 = engine g2 /\
    resp_status stored = resp_status resp /\ resp_body stored = resp_body resp /\
    (NoDup (resp_headers resp).*1 -> resp_headers stored ≡ₚ resp_headers resp).
Proof.
  intros Hinv Ht Hadm Hst Hc -> Hs Hb Hh Hlt Hp1 Hp2.
  destruct (committed_answer g tok resp t tr g2 r now) as (fp & l & Hk & Hp & He & Hu); try done.
  exists fp, l, (from_outcome (to_outcome resp)). split; [done|]. unfold handle.
  rewrite (proj2 (String.eqb_neq _ _) Hp1), (proj2 (String.eqb_neq _ _) Hp2).
  destruct (evaluate (rules g2) (identity_of r) now) as [[|rule action] rs].
  - unfold handle_after_abuse. rewrite begin_phase_rules. destruct (begin_phase g2 r now) as [p g3]. simpl in *. subst p.
    split_and!; [done | done | done | apply stored_response..].
  - split_and!; [done | done | done | apply stored_response..].
Qed.

(** Only final answers are cached.  A 5xx response, or a failed backend
    call, is passed on (as 502) and leaves the engine as it is, so the key stays
    retryable; a final response is served tagged and offered to the engine; a
    keyless request never touches the engine. *)
Theorem complete_phase_caches_final_only g tk f now :
  (forall resp, f = Ok resp -> 500 <= resp_status resp ->
     engine (complete_phase g tk f now).2 = engine g /\ (complete_phase g tk f now).1 = resp) /\
  (f = Err tt -> engine (complete_phase g tk f now).2 = engine g /\ (complete_phase g tk f now).1 = bad_gateway) /\
  (forall tok resp, token tk = Some tok -> f = Ok resp -> resp_status resp < 500 ->
     engine (complete_phase g tk f now).2 = (complete (engine g) tok (to_outcome resp) now).2 /\
     (complete_phase g tk f now).1 = tag resp "created") /\
  (token tk = None -> engine (complete_phase g tk f now).2 = engine g).
Proof.
  unfold complete_phase. split_and!.
  - intros resp -> Hst. destruct (token tk); [case_cmp; [done | lia] | done].
  - intros ->. by destruct (token tk).
  - intros tok resp -> -> Hst. case_cmp; [lia|]. by destruct (complete _ _ _ _).
  - intros ->. by destruct f.
Qed.

(** ** Metrics *)

(** The requests that were answered. *)
Definition answered (m : Metrics) : Z :=
  created m + replayed m + in_progress m + mismatch m + upstream_error m + passthrough m.

(** Counters in range, and every proxied request in exactly one outcome. *)
Definition balanced (m : Metrics) : Prop :=
  requests_total m = answered m /\
  0 <= created m /\ 0 <= replayed m /\ 0 <= in_progress m /\ 0 <= mismatch m /\ 0 <= denied m /\
  0 <= upstream_error m /\ 0 <= passthrough m.

Lemma handle_metrics g r now :
  let m := metrics g in let m' := metrics (handle g r now).2 in
  m' = m \/ m' = merge m one_denied \/
  exists d, d ∈ [one_created; one_replayed; one_in_progress; one_mismatch; one_upstream_error; one_passthrough] /\
    m' = merge (merge m one_request) d.
Proof.
  cbv zeta. unfold handle. destruct (String.eqb _ _); [by left|]. destruct (String.eqb _ _); [by left|].
  destruct (evaluate _ _ _) as [v rs]. destruct v as [|rule action]; [|right; by left].
  right; right. unfold handle_after_abuse, begin_phase.
  destruct (header r "idempotency-key") as [key|].
  - destruct (begin _ _ _ _) as [[tok|o| |] e]; simpl.
    + destruct (forward _ _) as [[resp|[]] u]; unfold complete_phase; simpl.
      * case_cmp; [exists one_upstream_error; split; [set_solver | done]|].
        destruct (complete _ _ _ _). exists one_created. split; [set_solver | done].
      * exists one_upstream_error. split; [set_solver | done].
    + exists one_replayed. split; [set_solver | done].
    + exists one_in_progress. split; [set_solver | done].
    + exists one_mismatch. split; [set_solver | done].
  - simpl. destruct (forward _ _) as [[resp|[]] u]; unfold complete_phase; simpl.
    + exists one_passthrough. split; [set_solver | done].
    + exists one_upstream_error. split; [set_solver | done].
Qed.

Definition handle_all g (rs : list (Request * Z)) : Gateway S U :=
  fold_left (fun g rn => (handle g rn.1 rn.2).2) rs g.

Lemma balanced_step m d :
  balanced m -> requests_total m + denied m + 1 < 2 ^ 64 ->
  d ∈ [one_created; one_replayed; one_in_progress; one_mismatch; one_upstream_error; one_passthrough] ->
  balanced (merge (merge m one_request) d) /\
  requests_total (merge (merge m one_request) d) + denied (merge (merge m one_request) d) =
  requests_total m + denied m + 1.
Proof.
  intros (Hr & ? & ? & ? & ? & ? & ? & ?) Hlt Hd. unfold answered in Hr.
  set_unfold in Hd. destruct_or? Hd; subst d; try done; unfold balanced, answered, merge; simpl;
    rewrite !wrapping_add_small by (rewrite ?wrapping_add_small by lia; lia); split_and!; lia.
Qed.

Lemma balanced_denied m :
  balanced m -> requests_total m + denied m + 1 < 2 ^ 64 ->
  balanced (merge m one_denied) /\
  requests_total (merge m one_denied) + denied (merge m one_denied) = requests_total m + denied m + 1.
Proof.
  intros (Hr & ? & ? & ? & ? & ? & ? & ?) Hlt. unfold answered in Hr.
  unfold balanced, answered, merge; simpl. rewrite !wrapping_add_small by lia. split_and!; lia.
Qed.

(** The metrics account for every request.  After any sequence of handled
    requests (fewer than 2^64), the total of proxied requests is the sum of the
    outcome counters other than [denied], and at most one count is added per
    request. *)
Theorem metrics_balance g rs :
  metrics g = metrics_default -> Z.of_nat (length rs) < 2 ^ 64 ->
  let m := metrics (handle_all g rs) in
  requests_total m = answered m /\ 0 <= denied m /\ requests_total m + denied m <= Z.of_nat (length rs).
Proof.
  intros Hm Hlen. cbv zeta. unfold handle_all.
  assert (balanced (metrics (fold_left (fun g rn => (handle g rn.1 rn.2).2) rs g)) /\
          requests_total (metrics (fold_left (fun g rn => (handle g rn.1 rn.2).2) rs g)) +
          denied (metrics (fold_left (fun g rn => (handle g rn.1 rn.2).2) rs g)) <= Z.of_nat (length rs))
    as [(Hr & _ & _ & _ & _ & Hd & _) Hle]; [|done].
  induction rs as [|rn rs IH] using rev_ind; [cbn [fold_left]; rewrite Hm; unfold balanced, answered; simpl; lia|].
  rewrite length_app in *; simpl in *. destruct IH as [Hb Hle]; [lia|]. rewrite fold_left_app. simpl.
  set (g' := fold_left _ rs g) in *.
  destruct (handle_metrics g' rn.1 rn.2) as [-> | [-> | (d & Hd & ->)]]; [split; [done | lia] | |].
  - destruct (balanced_denied (metrics g') Hb) as [Hb' E]; [lia|]. split; [done | lia].
  - destruct (balanced_step (metrics g') d Hb) as [Hb' E]; [lia | done|]. split; [done | lia].
Qed.

End histories.
