(* ===== verification/Retry.v ===== *)
(** * A failed attempt can be retried

    What becomes of a key whose backend call failed: the gateway keeps it in
    progress, so retries wait for the lease and then run again, also when the
    process crashed in between. *)

From S2P Require Import Prelude Machine Str BTreeMap HashMap Types Store Engine History EngineSpec Hash Codec Abuse.
From S2P Require Import Http Gateway GatewaySpec.

(** The backend failed, or answered with a server error. *)
Definition failed (f : result Response unit) : Prop :=
  match f with Ok resp => 500 <= resp_status resp | Err _ => True end.

Section retry.
Context {S U : Type} `{DurableLaws S} `{!Upstream U} `{!HashOrder string}.
Implicit Types g : Gateway S U.

(** A failure leaves the engine and the backend as they are. *)
Lemma complete_failed g tk f now :
  failed f -> engine (complete_phase g tk f now).2 = engine g /\
  fingerprint_key (complete_phase g tk f now).2 = fingerprint_key g.
Proof.
  unfold complete_phase, failed. destruct (token tk), f as [resp|[]]; try done. intros Hst. by case_cmp; [|lia].
Qed.

(** The record that a request that is let through leaves. *)
Lemma forwarded_record g r key t tk :
  engine_ok (engine g) -> header r "idempotency-key" = Some key -> (begin_phase g r t).1 = Forward tk ->
  let fp := fingerprint_of r (fingerprint_key g) in
  exists f, records (engine (begin_phase g r t).2) !! MkKey key =
            Some (InProgress f fp (saturating_add 64 t (lease_ms (engine g)))).
Proof.
  intros Ho Hk Hp fp. destruct (begin_phase_engine g r key t Hk) as [-> Hb]. fold fp in Hb |- *.
  destruct (begin (engine g) (MkKey key) fp t).1 as [tok|o| |] eqn:Eb; [|congruence..].
  destruct (begin_run_inv (engine g) (MkKey key) fp t tok Ho Eb) as (_ & -> & _). eexists.
  rewrite start_records by done. apply lookup_insert_eq.
Qed.

(** A keyed request whose key is available is forwarded, and a final answer is
    recorded and served. *)
Lemma handle_available g r key now resp u :
  engine_ok (engine g) -> engine_ranges (engine g) -> in_uint 64 now -> request_ok g r ->
  header r "idempotency-key" = Some key -> resp_status resp < 500 ->
  let fp := fingerprint_of r (fingerprint_key g) in
  available (engine g) (MkKey key) fp now -> admits_outcome (MkKey key) (to_outcome resp) now ->
  forward (upstream g) r = (Ok resp, u) ->
  let res := handle_after_abuse g r now in
  res.1 = tag resp "created" /\ upstream res.2 = u /\
  records (engine res.2) !! MkKey key = Some (Completed fp (to_outcome resp) now).
Proof.
  intros Ho Hr Hn Hok Hk Hst fp Hav Hout Hf res.
  destruct (run_commit (engine g) (MkKey key) fp now (to_outcome resp) now)
    as (tok & e1 & e2 & Eb & Ec & _ & Hrec & _); [done | done | done | by apply Hok | done | done |].
  unfold res, handle_after_abuse, begin_phase. rewrite Hk. cbn [count engine fingerprint_key set_engine upstream].
  fold fp. rewrite Eb. cbn [set_engine count upstream]. rewrite Hf. unfold complete_phase. cbn [token].
  rewrite (proj2 (Z.leb_gt _ _) Hst). cbn [set_upstream set_engine count engine]. rewrite Ec. by split_and!.
Qed.

(** C12: a failed attempt is retried from the end of its lease.  A request was let
    through at [t] and its backend call failed (an error, or a 5xx answer);
    possibly the process then crashed and restarted.  The same request is
    answered 409 without calling the backend until the lease of the first
    attempt ends; from then on it is forwarded again, and a final answer of the
    backend is recorded and served as [created]. *)
Theorem failed_attempt_retried g r key t tk f t' g1 g2 now :
  engine_inv (engine g) -> in_uint 64 t -> request_ok g r -> header r "idempotency-key" = Some key ->
  (begin_phase g r t).1 = Forward tk -> failed f ->
  g1 = (complete_phase (begin_phase g r t).2 tk f t').2 -> g2 = g1 \/ gstep g1 GCrash g2 -> in_uint 64 now ->
  let lease := saturating_add 64 t (lease_ms (engine g)) in
  let fp := fingerprint_of r (fingerprint_key g) in
  let res := handle_after_abuse g2 r now in
  (now < lease -> res.1 = tagged_status 409 "in-progress" /\ upstream res.2 = upstream g2) /\
  (forall resp u, lease <= now -> forward (upstream g2) r = (Ok resp, u) -> resp_status resp < 500 ->
     admits_outcome (MkKey key) (to_outcome resp) now ->
     res.1 = tag resp "created" /\ upstream res.2 = u /\
     records (engine res.2) !! MkKey key = Some (Completed fp (to_outcome resp) now)).
Proof.
  intros Hinv Ht Hok Hk Hp Hf -> H2 Hn lease fp res.
  destruct (forwarded_record g r key t tk (proj1 Hinv) Hk Hp) as [fence Hrec].
  destruct (complete_failed (begin_phase g r t).2 tk f t' Hf) as [Ee Ek].
  destruct (gstep_esteps _ _ _ (fun _ => True) (gstep_begin g r t Ht Hok) I) as [Ek0 (etr & Hes & _)].
  pose proof (esteps_inv _ _ _ Hinv Hes) as Hinv1. rewrite <- Ee in Hinv1, Hrec.
  set (g1 := (complete_phase _ tk f t').2) in *.
  assert (engine_inv (engine g2) /\ fingerprint_key g2 = fingerprint_key g /\
          records (engine g2) !! MkKey key = Some (InProgress fence fp lease)) as (Hinv2 & Ekey & Hrec2).
  { destruct H2 as [->|Hcr]; [split; [done|]; split; [congruence | done]|].
    destruct (gstep_esteps _ _ _ (fun _ => True) Hcr I) as [Ek2 (etr2 & Hes2 & _)].
    split; [by eapply esteps_inv|]. split; [congruence|].
    inversion Hcr as [| | |? s' rs u Hr]; subst. cbn [engine]. rewrite crash_records; [done | apply Hinv1 | done]. }
  destruct Hinv2 as [Ho2 Hr2]. split.
  - intros Hlt. unfold res, handle_after_abuse. destruct (begin_phase_engine g2 r key now Hk) as [_ Hb].
    assert ((begin (engine g2) (MkKey key) (fingerprint_of r (fingerprint_key g2)) now).1 = Begin_InProgress) as Eb.
    { unfold begin. rewrite get_view by done. fold (records (engine g2)). rewrite Hrec2, Ekey. simpl.
      rewrite decide_True by done. by case_cmp; [lia|]. }
    rewrite Eb in Hb. assert (upstream (begin_phase g2 r now).2 = upstream g2) as Hu.
    { unfold begin_phase. rewrite Hk. simpl. by destruct (begin _ _ _ now) as [[] ?]. }
    destruct (begin_phase g2 r now) as [p g3]. simpl in *. by subst p.
  - intros resp u Hle Hfw Hst Hout. unfold res, fp. rewrite <- Ekey.
    apply handle_available; try done.
    + intros key' Hk'. rewrite Ekey. by apply Hok.
    + unfold available. rewrite Hrec2, Ekey. by split.
Qed.

End retry.
