(* ===== verification/Router.v ===== *)
(** * The sharded router ([onced-gateway/src/router.rs])

    Every shard is a gateway behind its own lock, held for one phase at a time;
    the operations below are those critical sections, and a history interleaves
    them freely.  [DefaultHasher] is a parameter.  An index out of bounds
    would panic: operations return an [option], and a well-formed router never
    returns [None]. *)

From S2P Require Import Prelude Machine Str BTreeMap HashMap Types Store Engine History Hash Codec Abuse.
From S2P Require Import Http Gateway GatewaySpec.

Record Router (S U : Type) := MkRouter {
  shards : list (Gateway S U);
  abuse : list RuleSet;
  router_upstream : U;
  router_denied : Z;
  next_shard : Z;
}.
Arguments MkRouter {S U} _ _ _ _ _.
Arguments shards {S U} _.
Arguments abuse {S U} _.
Arguments router_upstream {S U} _.
Arguments router_denied {S U} _.
Arguments next_shard {S U} _.

Section router.
Context {S U : Type} `{Store S} `{!Upstream U} `{!HashOrder string}.
Context (hash : string -> Z).
Implicit Types R : Router S U.

(** [None] is the panic of the assertions. *)
Definition Router_new (shards : list (Gateway S U)) (abuse : list RuleSet) (upstream : U)
  : option (Router S U) :=
  match shards, abuse with
  | [], _ | _, [] => None
  | _, _ => Some (MkRouter shards abuse upstream 0 0)
  end.

Definition set_shards R (gs : list (Gateway S U)) : Router S U :=
  MkRouter gs (abuse R) (router_upstream R) (router_denied R) (next_shard R).

Definition router_prune_expired R (now_ms : Z) : Router S U :=
  set_shards R (map (fun g => gateway_prune_expired g now_ms) (shards R)).

Definition aggregate_metrics R : Metrics :=
  let total := fold_left (fun total g => merge total (metrics g)) (shards R) metrics_default in
  merge total (MkMetrics 0 0 0 0 0 (router_denied R) 0 0).

Definition shard_for_key R (key : string) : nat := Z.to_nat (hash key mod len (shards R)).
Definition abuse_for_identity R (identity : string) : nat := Z.to_nat (hash identity mod len (abuse R)).

Definition operational_response R (r : Request) : option Response :=
  if String.eqb (path_of r) "/healthz" then Some health_ok
  else if String.eqb (path_of r) "/metrics" then Some (metrics_response (aggregate_metrics R))
  else None.

(** The outer [option] is the index check; the inner one is the 429. *)
Definition deny_if_abusive R (r : Request) (now_ms : Z) : option (option Response * Router S U) :=
  let identity := identity_of r in
  let idx := abuse_for_identity R identity in
  rules ← abuse R !! idx;
  let (v, rules') := evaluate rules identity now_ms in
  let abuse' := <[idx := rules']> (abuse R) in
  match v with
  | Verdict_Deny rule action =>
      Some (Some (too_many_requests rule action),
            MkRouter (shards R) abuse' (router_upstream R) (wrapping_add 64 (router_denied R) 1) (next_shard R))
  | Verdict_Allow =>
      Some (None, MkRouter (shards R) abuse' (router_upstream R) (router_denied R) (next_shard R))
  end.

(** By key, else round-robin ([fetch_add] wraps). *)
Definition route_shard R (r : Request) : nat * Router S U :=
  match header r "idempotency-key" with
  | Some key => (shard_for_key R key, R)
  | None => (Z.to_nat (next_shard R mod len (shards R)),
             MkRouter (shards R) (abuse R) (router_upstream R) (router_denied R)
               (wrapping_add 64 (next_shard R) 1))
  end.

Definition begin_on R (idx : nat) (r : Request) (now_ms : Z)
  : option (result ForwardTicket Response * Router S U) :=
  g ← shards R !! idx;
  let (p, g') := begin_phase g r now_ms in
  let R' := set_shards R (<[idx := g']> (shards R)) in
  Some (match p with Done response => Err response | Forward ticket => Ok ticket end, R').

Definition complete_on R (idx : nat) (ticket : ForwardTicket) (forwarded : result Response unit) (now_ms : Z)
  : option (Response * Router S U) :=
  g ← shards R !! idx;
  let (resp, g') := complete_phase g ticket forwarded now_ms in
  Some (resp, set_shards R (<[idx := g']> (shards R))).

Definition set_router_upstream R (u : U) : Router S U :=
  MkRouter (shards R) (abuse R) u (router_denied R) (next_shard R).

(** [Handle::handle]: the stages in sequence, as one caller runs them. *)
Definition router_handle R (r : Request) (now_ms : Z) : option (Response * Router S U) :=
  match operational_response R r with
  | Some response => Some (response, R)
  | None =>
      '(d, R) ← deny_if_abusive R r now_ms;
      match d with
      | Some response => Some (response, R)
      | None =>
          let (idx, R) := route_shard R r in
          '(b, R) ← begin_on R idx r now_ms;
          match b with
          | Err response => Some (response, R)
          | Ok ticket =>
              let (forwarded, u) := forward (router_upstream R) r in
              complete_on (set_router_upstream R u) idx ticket forwarded now_ms
          end
      end
  end.

(** [handle_async]: the same stages, with the backend call a future of the
    caller that acts on a world of its own; it is only awaited if the engine
    needs it, and its [None] is a panic. *)
Definition router_handle_async {W : Type} R (r : Request) (now_ms : Z)
    (fwd : W -> option (result Response unit * W)) (w : W) : option (Response * Router S U * W) :=
  match operational_response R r with
  | Some response => Some (response, R, w)
  | None =>
      '(d, R) ← deny_if_abusive R r now_ms;
      match d with
      | Some denied => Some (denied, R, w)
      | None =>
          let (idx, R) := route_shard R r in
          '(b, R) ← begin_on R idx r now_ms;
          match b with
          | Err done => Some (done, R, w)
          | Ok ticket =>
              '(forwarded, w) ← fwd w;
              '(response, R) ← complete_on R idx ticket forwarded now_ms;
              Some (response, R, w)
          end
      end
  end.

(** ** Well-formed routers do not panic *)

Definition router_ok R : Prop := shards R <> [] /\ abuse R <> [].

Lemma mod_index {A} (l : list A) z : l <> [] -> is_Some (l !! Z.to_nat (z mod len l)).
Proof.
  intros Hl. apply lookup_lt_is_Some. assert (0 < len l) as Hp by (unfold len; destruct l; simpl; [done | lia]).
  pose proof (Z.mod_pos_bound z (len l) Hp). unfold len in *. lia.
Qed.

Lemma router_new_ok gs rss u R : Router_new gs rss u = Some R -> router_ok R.
Proof. unfold Router_new. intros E. by destruct gs, rss; simplify_eq. Qed.

Lemma insert_nonempty {A} (l : list A) i x : l <> [] -> <[i := x]> l <> [].
Proof. intros Hl E. apply (f_equal length) in E. rewrite length_insert in E. by destruct l. Qed.

Lemma deny_ok R r now :
  router_ok R -> exists d R', deny_if_abusive R r now = Some (d, R') /\ router_ok R' /\
    shards R' = shards R /\ router_upstream R' = router_upstream R /\
    (forall resp, d = Some resp -> exists rule action, resp = too_many_requests rule action).
Proof.
  intros [Hs Ha]. unfold deny_if_abusive, abuse_for_identity.
  destruct (mod_index (abuse R) (hash (identity_of r)) Ha) as [rs ->]. simpl.
  destruct (evaluate rs _ _) as [[|rule action] rs'];
    (do 2 eexists; split; [reflexivity|]; split; [split; [done | by apply insert_nonempty]|];
     split_and!; [done | done | intros resp E; simplify_eq; eauto]).
Qed.

Lemma route_ok R r idx R' :
  router_ok R -> route_shard R r = (idx, R') ->
  is_Some (shards R' !! idx) /\ router_ok R' /\ shards R' = shards R /\ router_upstream R' = router_upstream R.
Proof.
  intros [Hs Ha] E. unfold route_shard, shard_for_key in E.
  destruct (header r "idempotency-key"); simplify_eq; (split_and!; [by apply mod_index | done..]).
Qed.

Lemma begin_on_some R idx r now g :
  shards R !! idx = Some g ->
  begin_on R idx r now =
  Some (match (begin_phase g r now).1 with Done response => Err response | Forward ticket => Ok ticket end,
        set_shards R (<[idx := (begin_phase g r now).2]> (shards R))).
Proof. intros Hg. unfold begin_on. rewrite Hg. simpl. by destruct (begin_phase g r now). Qed.

Lemma complete_on_some R idx tk f now g :
  shards R !! idx = Some g ->
  complete_on R idx tk f now =
  Some ((complete_phase g tk f now).1, set_shards R (<[idx := (complete_phase g tk f now).2]> (shards R))).
Proof. intros Hg. unfold complete_on. rewrite Hg. simpl. by destruct (complete_phase g tk f now). Qed.

Lemma handle_total R r now : router_ok R -> is_Some (router_handle R r now).
Proof.
  intros Hok. unfold router_handle. destruct (operational_response R r); [by eexists|].
  destruct (deny_ok R r now Hok) as (d & R1 & -> & Hok1 & _). cbn [mbind option_bind].
  destruct d; [by eexists|]. destruct (route_shard R1 r) as [idx R2] eqn:Er.
  destruct (route_ok R1 r idx R2 Hok1 Er) as ([g Hg] & Hok2 & _).
  rewrite (begin_on_some R2 idx r now g Hg). cbn [mbind option_bind].
  destruct (match (begin_phase g r now).1 with Done _ => _ | Forward _ => _ end) as [tk|]; [|by eexists].
  simpl. destruct (forward (router_upstream R2) r) as [f u].
  erewrite complete_on_some; [by eexists|]. simpl. apply list_lookup_insert_eq. by eapply lookup_lt_Some.
Qed.

(** A keyed request that its shard answers at once: unless the abuse stage denies
    it, that is the response, and the backend is not called. *)
(** What the abuse stage answers by itself. *)
Definition abuse_denial R (r : Request) (now : Z) : option Response :=
  match deny_if_abusive R r now with Some (d, _) => d | None => None end.

(** The response is 429 if the abuse stage denies the request, else [resp]. *)
Definition denied_or R (r : Request) (now : Z) (resp resp' : Response) : Prop :=
  (exists rule action, abuse_denial R r now = Some (too_many_requests rule action) /\ resp' = too_many_requests rule action) \/
  (abuse_denial R r now = None /\ resp' = resp).

Lemma handle_done R r key g resp now :
  router_ok R -> header r "idempotency-key" = Some key -> operational_response R r = None ->
  shards R !! shard_for_key R key = Some g -> (begin_phase g r now).1 = Done resp ->
  exists resp' R', router_handle R r now = Some (resp', R') /\ router_upstream R' = router_upstream R /\
    denied_or R r now resp resp'.
Proof.
  intros Hok Hh Hop Hg Hp. unfold router_handle. rewrite Hop.
  destruct (deny_ok R r now Hok) as (d & R1 & Edeny & _ & Hsh & Hup & Hd). rewrite Edeny. cbn [mbind option_bind].
  destruct d as [resp'|].
  { exists resp', R1. split_and!; [done | done|]. left. destruct (Hd _ eq_refl) as (rule & action & ->).
    exists rule, action. unfold abuse_denial. by rewrite Edeny. }
  assert (route_shard R1 r = (shard_for_key R key, R1)) as ->.
  { unfold route_shard. rewrite Hh. unfold shard_for_key. by rewrite Hsh. }
  rewrite (begin_on_some R1 _ r now g) by (by rewrite Hsh). cbn [mbind option_bind]. rewrite Hp.
  do 2 eexists. split_and!; [reflexivity | done|]. right. unfold abuse_denial. by rewrite Edeny.
Qed.

End router.

(** ** Histories of a router

    The critical sections of concurrent requests, in any order. *)

Section router_histories.
Context {S U : Type} `{DurableLaws S} `{!Upstream U} `{!HashOrder string}.
Context (hash : string -> Z).
Implicit Types R : Router S U.

Inductive REvent :=
| RAbuse (r : Request) (now : Z)
| RRoute (r : Request)
| RBegin (idx : nat) (r : Request) (now : Z)
| RForward
| RComplete (idx : nat) (tk : ForwardTicket) (f : result Response unit) (now : Z)
| RPrune (now : Z)
| RCrash.

(** The times that shards see. *)
Definition r_timed (P : Z -> Prop) (ev : REvent) : Prop :=
  match ev with
  | RBegin _ _ now | RComplete _ _ _ now | RPrune now => P now
  | RAbuse _ _ | RRoute _ | RForward | RCrash => True
  end.

Definition r_before (t : Z) : REvent -> Prop := r_timed (fun now => now < t).

Inductive rstep : Router S U -> REvent -> Router S U -> Prop :=
| rstep_abuse R r now d R' :
    deny_if_abusive hash R r now = Some (d, R') -> rstep R (RAbuse r now) R'
| rstep_route R r idx R' : route_shard hash R r = (idx, R') -> rstep R (RRoute r) R'
| rstep_begin R idx r now g b R' :
    in_uint 64 now -> shards R !! idx = Some g -> request_ok g r ->
    begin_on R idx r now = Some (b, R') -> rstep R (RBegin idx r now) R'
| rstep_forward R u : rstep R RForward (set_router_upstream R u)
| rstep_complete R idx tk f now resp R' :
    in_uint 64 now -> completion_ok (S := S) tk f now ->
    complete_on R idx tk f now = Some (resp, R') -> rstep R (RComplete idx tk f now) R'
| rstep_prune R now : rstep R (RPrune now) (router_prune_expired R now)
| rstep_crash R gs rss u :
    Forall2 (fun g g' => gstep g GCrash g') (shards R) gs -> length rss = length (abuse R) ->
    rstep R RCrash (MkRouter gs rss u 0 0).

Inductive rsteps : Router S U -> list REvent -> Router S U -> Prop :=
| rsteps_nil R : rsteps R [] R
| rsteps_snoc R tr R1 ev R2 : rsteps R tr R1 -> rstep R1 ev R2 -> rsteps R (tr ++ [ev]) R2.

Lemma gsteps_one (g g' : Gateway S U) ev : gstep g ev g' -> gsteps g [ev] g'.
Proof. intros Hs. apply (gsteps_snoc g [] g ev g'); [constructor | done]. Qed.

Lemma gsteps_trans (g g1 g2 : Gateway S U) tr tr' : gsteps g tr g1 -> gsteps g1 tr' g2 -> gsteps g (tr ++ tr') g2.
Proof.
  intros Hs Hs'. induction Hs' as [|g1 tr' g3 ev g4 _ IH Hst]; [by rewrite app_nil_r|].
  rewrite app_assoc. econstructor; eauto.
Qed.

(** What a critical section of the router does to one shard: at most one phase
    of that shard. *)
Lemma rstep_shard R ev R' i g (P : Z -> Prop) :
  rstep R ev R' -> r_timed P ev -> shards R !! i = Some g ->
  length (shards R') = length (shards R) /\
  exists g' tr, shards R' !! i = Some g' /\ gsteps g tr g' /\ Forall (g_timed P) tr.
Proof.
  intros Hs HT Hi.
  assert (shards R' = shards R -> length (shards R') = length (shards R) /\
    exists g' tr, shards R' !! i = Some g' /\ gsteps g tr g' /\ Forall (g_timed P) tr) as Hsame.
  { intros ->. split; [done|]. exists g, []. split_and!; [done | constructor | constructor]. }
  assert (forall idx (g0 g1 : Gateway S U) gev, shards R !! idx = Some g0 -> gstep g0 gev g1 -> g_timed P gev ->
    shards R' = <[idx := g1]> (shards R) -> length (shards R') = length (shards R) /\
    exists g' tr, shards R' !! i = Some g' /\ gsteps g tr g' /\ Forall (g_timed P) tr) as Hone.
  { intros idx g0 g1 gev Hidx Hg HTg ->. split; [by rewrite length_insert|].
    destruct (decide (idx = i)) as [->|Hne].
    - rewrite Hi in Hidx. simplify_eq. exists g1, [gev].
      split_and!; [apply list_lookup_insert_eq; by eapply lookup_lt_Some | by apply gsteps_one | by repeat constructor].
    - exists g, []. rewrite list_lookup_insert_ne by done. split_and!; [done | constructor | constructor]. }
  destruct Hs as [R r now d R' Hd|R r idx R' Hr|R idx r now g0 b R' Hn Hg Hok Hb|R u
                 |R idx tk f now resp R' Hn Hok Hc|R now|R gs rss u Hf Hl]; simpl in HT.
  - apply Hsame. unfold deny_if_abusive in Hd. apply bind_Some in Hd as (rs & _ & Hd).
    destruct (evaluate rs _ _) as [[] ?]; by simplify_eq.
  - apply Hsame. unfold route_shard in Hr. by destruct (header r _); simplify_eq.
  - rewrite (begin_on_some R idx r now g0 Hg) in Hb. simplify_eq.
    eapply (Hone idx g0 _ (GBegin r now _)); [done | by apply gstep_begin | done | done].
  - by apply Hsame.
  - destruct (shards R !! idx) as [g0|] eqn:Hg; [|unfold complete_on in Hc; by rewrite Hg in Hc].
    rewrite (complete_on_some R idx tk f now g0 Hg) in Hc. simplify_eq.
    eapply (Hone idx g0 _ (GComplete tk f now _)); [done | by apply gstep_complete | done | done].
  - simpl. rewrite length_map. split; [done|]. exists (gateway_prune_expired g now), [GPrune now].
    split_and!; [by rewrite list_lookup_fmap, Hi | apply gsteps_one, gstep_prune | by repeat constructor].
  - simpl. split; [symmetry; by eapply Forall2_length|].
    destruct (Forall2_lookup_l _ _ _ _ _ Hf Hi) as (g' & Hg' & Hst).
    exists g', [GCrash]. split_and!; [done | by apply gsteps_one | by repeat constructor].
Qed.

Lemma rstep_length R ev R' : rstep R ev R' -> length (shards R') = length (shards R).
Proof.
  intros Hs. destruct (shards R) as [|g gs] eqn:E.
  - destruct Hs as [R r now d R' Hd|R r idx R' Hr|R idx r now g0 b R' Hn Hg Hok Hb|R u
                 |R idx tk f now resp R' Hn Hok Hc|R now|R gs rss u Hf Hl]; simpl.
    + unfold deny_if_abusive in Hd. apply bind_Some in Hd as (rs & _ & Hd).
      destruct (evaluate rs _ _) as [[] ?]; simplify_eq; simpl; by rewrite E.
    + unfold route_shard in Hr. destruct (header r _); simplify_eq; simpl; by rewrite E.
    + by rewrite E in Hg.
    + by rewrite E.
    + unfold complete_on in Hc. by rewrite E in Hc.
    + by rewrite E.
    + rewrite E in Hf. by apply Forall2_nil_inv_l in Hf as ->.
  - assert (shards R !! 0%nat = Some g) as Hz by (by rewrite E). rewrite <- E.
    by destruct (rstep_shard R ev R' 0 g (fun _ => True) Hs ltac:(by destruct ev) Hz).
Qed.

Lemma rstep_abuse_length R ev R' : rstep R ev R' -> length (abuse R') = length (abuse R).
Proof.
  destruct 1 as [R r now d R' Hd|R r idx R' Hr|R idx r now g0 b R' Hn Hg Hok Hb|R u
                 |R idx tk f now resp R' Hn Hok Hc|R now|R gs rss u Hf Hl]; try done.
  - unfold deny_if_abusive in Hd. apply bind_Some in Hd as (rs & _ & Hd).
    destruct (evaluate rs _ _) as [[] ?]; simplify_eq; simpl; by rewrite length_insert.
  - unfold route_shard in Hr. by destruct (header r _); simplify_eq.
  - rewrite (begin_on_some R idx r now g0 Hg) in Hb. by simplify_eq.
  - unfold complete_on in Hc. apply bind_Some in Hc as (g & _ & Hc).
    destruct (complete_phase g tk f now). by simplify_eq.
Qed.

Lemma rsteps_ok R tr R' : router_ok R -> rsteps R tr R' -> router_ok R' /\ length (shards R') = length (shards R).
Proof.
  intros Hok. induction 1 as [|R tr R1 ev R2 _ IH Hst]; [done|]. destruct (IH Hok) as [[Hs Ha] Hl].
  pose proof (rstep_length R1 ev R2 Hst) as El. pose proof (rstep_abuse_length R1 ev R2 Hst) as Ea.
  split; [|congruence]. split.
  - intros E. rewrite E in El. by destruct (shards R1).
  - intros E. rewrite E in Ea. by destruct (abuse R1).
Qed.

Lemma rsteps_shard R tr R' i g (P : Z -> Prop) :
  rsteps R tr R' -> Forall (r_timed P) tr -> shards R !! i = Some g ->
  length (shards R') = length (shards R) /\
  exists g' gtr, shards R' !! i = Some g' /\ gsteps g gtr g' /\ Forall (g_timed P) gtr.
Proof.
  intros Hs. revert g. induction Hs as [R|R tr R1 ev R2 _ IH Hst]; intros g Hb Hi.
  - split; [done|]. exists g, []. split_and!; [done | constructor | constructor].
  - apply Forall_app in Hb as [Hb Hev]. rewrite Forall_singleton in Hev.
    destruct (IH g Hb Hi) as (Hl1 & g1 & tr1 & Hi1 & Hg1 & F1).
    destruct (rstep_shard R1 ev R2 i g1 P Hst Hev Hi1) as (Hl2 & g2 & tr2 & Hi2 & Hg2 & F2).
    split; [congruence|]. exists g2, (tr1 ++ tr2).
    split_and!; [done | by eapply gsteps_trans | by apply Forall_app].
Qed.

(** The shard of a key, from a phase on it through a history of the router. *)
Lemma shard_evolves R key g g1 tr R2 (P : Z -> Prop) :
  router_ok R -> shards R !! shard_for_key hash R key = Some g ->
  rsteps (set_shards R (<[shard_for_key hash R key := g1]> (shards R))) tr R2 -> Forall (r_timed P) tr ->
  router_ok R2 /\
  exists g2 gtr, shards R2 !! shard_for_key hash R2 key = Some g2 /\ gsteps g1 gtr g2 /\ Forall (g_timed P) gtr.
Proof.
  intros Hok Hg Hs Ht. set (i := shard_for_key hash R key) in *. set (R1 := set_shards R _) in *.
  assert (shards R1 !! i = Some g1) as Hg1 by (apply list_lookup_insert_eq; by eapply lookup_lt_Some).
  assert (router_ok R1) as Hok1 by (split; [by apply insert_nonempty, Hok | apply Hok]).
  split; [by destruct (rsteps_ok R1 tr R2 Hok1 Hs)|].
  destruct (rsteps_shard R1 tr R2 i g1 P Hs Ht Hg1) as (Hlen & g2 & gtr & Hg2 & Hgs & Hgt).
  assert (shard_for_key hash R2 key = i) as ->; [|by eauto].
  unfold i, shard_for_key, len. rewrite Hlen. simpl. by rewrite length_insert.
Qed.

(** C7: sharding keeps exactly-once.  A keyed request is always routed to the
    same, existing shard.  Once a completion on that shard has committed a
    response at time [t], then after any interleaving of the critical sections
    of concurrent requests (on all shards), abuse checks, backend calls, prune
    sweeps and restarts before the expiry of [t], handling a request with that
    key (and a path that is not operational) never panics and does not call the
    backend: it is answered 429 if the abuse stage denies it, and otherwise with
    the stored response if it is the same request and 422 if it is another. *)
Theorem router_exactly_once R key g tok resp t R1 tr R2 r now :
  router_ok R -> shards R !! shard_for_key hash R key = Some g ->
  engine_inv (engine g) -> in_uint 64 t -> admits_outcome (token_key tok) (to_outcome resp) t ->
  resp_status resp < 500 -> token_key tok = MkKey key ->
  (complete (engine g) tok (to_outcome resp) t).1 = Ok tt ->
  complete_on R (shard_for_key hash R key) (MkTicket (Some tok)) (Ok resp) t = Some (tag resp "created", R1) ->
  rsteps R1 tr R2 -> Forall (r_before (expiry t (ttl_ms (engine g)))) tr ->
  header r "idempotency-key" = Some key -> operational_response R2 r = None ->
  now < expiry t (ttl_ms (engine g)) ->
  exists fp l resp' R3,
    records (engine g) !! MkKey key = Some (InProgress (token_fence tok) fp l) /\
    router_handle hash R2 r now = Some (resp', R3) /\ router_upstream R3 = router_upstream R2 /\
    denied_or hash R2 r now
      (if decide (fp = fingerprint_of r (fingerprint_key g))
       then tag (from_outcome (to_outcome resp)) "replayed" else tagged_status 422 "mismatch") resp'.
Proof.
  intros Hok Hg Hinv Ht Hadm Hst Hk Hc Hcomp Hs Hb Hh Hop Hlt.
  rewrite (complete_on_some R _ _ _ t g Hg) in Hcomp. injection Hcomp as _ <-.
  destruct (shard_evolves R key g _ tr R2 _ Hok Hg Hs Hb) as (Hok2 & g2 & gtr & Hg2 & Hgs & Hgb).
  destruct (committed_answer g tok resp t gtr g2 r now) as (fp & l & Hrec & Hp & _ & _); try done.
  { by rewrite Hk. }
  destruct (handle_done hash R2 r key g2 _ now Hok2 Hh Hop Hg2 Hp) as (resp' & R3 & E & Hu & Ha).
  exists fp, l, resp', R3. split_and!; [by rewrite <- Hk | done..].
Qed.

(** One backend call at a time per key.  While a request that was let
    through holds its key (from its time until its lease ends, or its
    time-to-live), then after any interleaving of the critical sections of
    other requests on all shards, abuse checks, backend calls, prune sweeps and
    restarts in that time, handling another request with the key never panics,
    does not call the backend, and answers 409, 422 or the replay of a committed
    outcome (or 429 by the abuse stage). *)
Theorem router_single_flight R key g r0 now0 tk R1 tr R2 r now :
  router_ok R -> shards R !! shard_for_key hash R key = Some g ->
  engine_inv (engine g) -> in_uint 64 now0 -> request_ok g r0 ->
  header r0 "idempotency-key" = Some key -> now0 + ttl_ms (engine g) < 2 ^ 64 ->
  begin_on R (shard_for_key hash R key) r0 now0 = Some (Ok tk, R1) ->
  let W := in_lease now0 (saturating_add 64 now0 (lease_ms (engine g))) (ttl_ms (engine g)) in
  rsteps R1 tr R2 -> Forall (r_timed W) tr ->
  header r "idempotency-key" = Some key -> operational_response R2 r = None -> W now ->
  exists resp R3, router_handle hash R2 r now = Some (resp, R3) /\ router_upstream R3 = router_upstream R2 /\
    ((exists rule action, resp = too_many_requests rule action) \/ refused resp).
Proof.
  intros Hok Hg Hinv Hn0 Hr0 Hk0 Hw Hb W Hs Ht Hk Hop Hn.
  rewrite (begin_on_some R _ r0 now0 g Hg) in Hb. injection Hb as Hp <-.
  destruct (shard_evolves R key g _ tr R2 _ Hok Hg Hs Ht) as (Hok2 & g2 & gtr & Hg2 & Hgs & Hgt).
  destruct (held_answer g r0 key now0 tk gtr g2 r now) as (resp & Hresp & Href); try done.
  { destruct (begin_phase g r0 now0).1; [done | by injection Hp as ->]. }
  destruct (handle_done hash R2 r key g2 _ now Hok2 Hk Hop Hg2 Hresp) as (resp' & R3 & E & Hu & Ha).
  exists resp', R3. split_and!; [done..|]. destruct Ha as [(rule & action & _ & ->) | [_ ->]]; [by left; eauto | by right].
Qed.

(** A router that its constructor accepts never panics on a request, and
    every keyed request goes to one shard, the same for every request with that
    key, whatever the router has done in between. *)
Theorem router_total_and_stable gs rss u R tr R' r now key :
  Router_new gs rss u = Some R -> rsteps R tr R' ->
  is_Some (router_handle hash R' r now) /\
  shard_for_key hash R' key = shard_for_key hash R key /\ (shard_for_key hash R' key < length gs)%nat.
Proof.
  intros Hnew Hs. pose proof (router_new_ok _ _ _ _ Hnew) as Hok.
  destruct (rsteps_ok R tr R' Hok Hs) as [Hok' Hl]. split; [by apply handle_total|].
  assert (shards R = gs) as Egs by (unfold Router_new in Hnew; by destruct gs, rss; simplify_eq).
  assert (shard_for_key hash R' key = shard_for_key hash R key) as E by (unfold shard_for_key, len; by rewrite Hl).
  split; [done|]. rewrite E. destruct Hok as [Hne _]. unfold shard_for_key. rewrite Egs in *.
  apply lookup_lt_is_Some, mod_index, Hne.
Qed.

End router_histories.
