(* ===== verification/RouterTests.v ===== *)
(** * The unit tests of the router

    The single-threaded tests of [router.rs], proved for every hash function:
    where a key or a client lands does not matter.  (The test with threads is an
    instance of the interleavings of [Concurrent].) *)

From S2P Require Import Prelude Machine Str Decimal BTreeMap HashMap Types Store Engine EngineSpec Suite.
From S2P Require Import Hash Codec Abuse Http Gateway GatewayTests Router.

#[local] Open Scope string_scope.
#[local] Open Scope Z_scope.

(** The shards share the backend's counter with the router but never call it:
    the router's own copy counts every call. *)
Definition counting (calls : Z) : CountingUpstream := MkCounting calls 201 (str_bytes "charged").

Definition router_post (key : option string) (ip : string) (body : list byte) : Request :=
  let headers := [("X-Forwarded-For", ip)] in
  let headers := match key with Some key => (headers ++ [("Idempotency-Key", key)])%list | None => headers end in
  MkRequest "POST" "/charge" headers body.

Definition metrics_get : Request := MkRequest "GET" "/metrics" [] [].

Section router_tests.
Context `{!HashOrder string}.
Context (hash : string -> Z).

Definition router (n : nat) (abuse : list RuleSet) : option (Router MemoryStore CountingUpstream) :=
  let shards := replicate n (Gateway_new (new MemoryStore_new 30000) RuleSet_new (counting 0)) in
  Router_new shards abuse (counting 0).

(** [assert_eq!(calls.load(..), n)]. *)
Definition ensure_router_calls (r : Router MemoryStore CountingUpstream) (n : Z) : option unit :=
  ensure (calls (router_upstream r) =? n).

(** The body of the loop of the first test. *)
Definition send_twice (r : Router MemoryStore CountingUpstream) (i : Z)
  : option (Router MemoryStore CountingUpstream) :=
  let key := numbered "k" i in
  '(first, r) ← router_handle hash r (router_post (Some key) "10.0.0.1" (str_bytes "x")) 1000;
  '(second, r) ← router_handle hash r (router_post (Some key) "10.0.0.1" (str_bytes "x")) 1010;
  ensure_status first "created";;
  ensure_status second "replayed";;
  Some r.

(** The source sends 50 keys. *)
Definition exactly_once_holds_across_shards (keys : Z) : option unit :=
  r ← router 8 [RuleSet_new];
  r ← for_each (range 0 keys) r send_twice;
  ensure_router_calls r keys.

(** One request per key, with the statuses of the responses. *)
Fixpoint send_keys (keys : list string) (ip : string) (r : Router MemoryStore CountingUpstream)
  : option (list Z * Router MemoryStore CountingUpstream) :=
  match keys with
  | [] => Some ([], r)
  | key :: keys =>
      '(resp, r) ← router_handle hash r (router_post (Some key) ip (str_bytes "x")) 0;
      '(statuses, r) ← send_keys keys ip r;
      Some (resp_status resp :: statuses, r)
  end.

Definition abuse_limit_is_global_across_shards : option unit :=
  rules ← rule RuleSet_new "strict" 1000 3 Block;
  r ← router 8 [rules];
  '(statuses, r) ← send_keys (map (numbered "k") (range 0 5)) "10.0.0.7" r;
  ensure (bool_decide (statuses = [201; 201; 201; 429; 429]));;
  ensure_router_calls r 3.

Definition metrics_aggregate_across_shards : option unit :=
  rules ← rule RuleSet_new "strict" 1000 2 Block;
  r ← router 4 [rules];
  '(_, r) ← send_keys ["a"; "b"; "c"] "10.0.0.8" r;
  '(resp, r) ← router_handle hash r metrics_get 0;
  ensure (utf8_valid (resp_body resp));;
  ensure (contains (str_bytes "onced_requests_total 2") (resp_body resp));;
  ensure (contains (outcome_text "created" 2) (resp_body resp));;
  ensure (contains (outcome_text "denied" 1) (resp_body resp)).

(** ** The shards of these routers *)

Definition server_key : list byte := replicate 32 x00.

Definition shard (m : gmap IdempotencyKey KeyState) (f : Z) (mt : Metrics) : Gateway MemoryStore CountingUpstream :=
  MkGateway (MkEngine (MkMemoryStore m) 30000 DEFAULT_TTL_MS f) RuleSet_new (counting 0) mt server_key.

Definition response : Response := MkResponse 201 [] (str_bytes "charged").

(** What a new key does to its shard: the two critical sections. *)
Lemma shard_begin m f mt r key now :
  header r "idempotency-key" = Some key -> m !! MkKey key = None ->
  begin_phase (shard m f mt) r now =
  (Forward (MkTicket (Some (MkRunToken (MkKey key) (MkFence f)))),
   shard (<[MkKey key := InProgress (MkFence f) (fingerprint_of r server_key) (saturating_add 64 now 30000)]> m)
     (wrapping_add 64 f 1) (merge mt one_request)).
Proof. intros Hh Hm. unfold begin_phase. rewrite Hh. unfold begin. simpl. unfold MemoryStore_get. simpl. by rewrite Hm. Qed.

Lemma shard_complete m f f' mt fpr l key now :
  m !! MkKey key = Some (InProgress (MkFence f) fpr l) ->
  complete_phase (shard m f' mt) (MkTicket (Some (MkRunToken (MkKey key) (MkFence f)))) (Ok response) now =
  (tag response "created",
   shard (<[MkKey key := Completed fpr (to_outcome response) now]> m) f' (merge mt one_created)).
Proof.
  intros Hm. unfold complete_phase. simpl. unfold complete. simpl. unfold MemoryStore_get. simpl. rewrite Hm.
  by rewrite decide_True.
Qed.

Lemma shard_retry m f mt r key o t now :
  header r "idempotency-key" = Some key -> m !! MkKey key = Some (Completed (fingerprint_of r server_key) o t) ->
  now < expiry t DEFAULT_TTL_MS ->
  begin_phase (shard m f mt) r now =
  (Done (tag (from_outcome o) "replayed"), shard m f (merge (merge mt one_request) one_replayed)).
Proof.
  intros Hh Hm Hlt. unfold begin_phase. rewrite Hh. unfold begin. simpl. unfold MemoryStore_get. simpl. rewrite Hm.
  unfold begin_action. case_cmp; [lia|]. by rewrite decide_True.
Qed.

(** ** Metrics add up *)

Lemma wrapping_add_assoc w a b c :
  0 <= w -> wrapping_add w (wrapping_add w a b) c = wrapping_add w a (wrapping_add w b c).
Proof.
  intros Hw. unfold wrapping_add. rewrite !wrap_mod by done.
  rewrite Zplus_mod_idemp_l, Zplus_mod_idemp_r. f_equal. lia.
Qed.

Lemma merge_assoc a b c : merge (merge a b) c = merge a (merge b c).
Proof. unfold merge. simpl. by rewrite !wrapping_add_assoc. Qed.

Lemma merge_comm a b : merge a b = merge b a.
Proof. unfold merge, wrapping_add. simpl. by f_equal; f_equal; lia. Qed.

(** The counters of all shards. *)
Definition totals (gs : list (Gateway MemoryStore CountingUpstream)) (acc : Metrics) : Metrics :=
  fold_left (fun total g => merge total (metrics g)) gs acc.

Lemma totals_acc gs acc d : totals gs (merge acc d) = merge (totals gs acc) d.
Proof.
  revert acc; induction gs as [|g gs IH]; intros acc; [done|]. unfold totals in *. cbn [fold_left].
  rewrite <- IH. f_equal. rewrite !merge_assoc. f_equal. apply merge_comm.
Qed.

Lemma totals_insert gs i g g' acc d :
  gs !! i = Some g -> metrics g' = merge (metrics g) d -> totals (<[i := g']> gs) acc = merge (totals gs acc) d.
Proof.
  revert i acc; induction gs as [|h gs IH]; intros [|i] acc Hi Hm; try done.
  - injection Hi as ->. change (totals gs (merge acc (metrics g')) = merge (totals gs (merge acc (metrics g))) d).
    rewrite Hm, <- merge_assoc. apply totals_acc.
  - change (totals (<[i := g']> gs) (merge acc (metrics h)) = merge (totals gs (merge acc (metrics h))) d).
    by eapply IH.
Qed.

(** ** The routers of the tests *)

Definition is_shard (P : IdempotencyKey -> Prop) (g : Gateway MemoryStore CountingUpstream) : Prop :=
  exists m f mt, g = shard m f mt /\ forall k st, m !! k = Some st -> P k.

(** [n] shards that hold only keys of [P], one rule set, [c] calls so far. *)
Record router_inv (R : Router MemoryStore CountingUpstream) (n : nat) (P : IdempotencyKey -> Prop) (c : Z)
    (rs : RuleSet) : Prop := {
  ri_length : length (shards R) = n;
  ri_some : (0 < n)%nat;
  ri_shards : Forall (is_shard P) (shards R);
  ri_abuse : abuse R = [rs];
  ri_upstream : router_upstream R = counting c;
}.

Definition key_index (n : nat) (key : string) : nat := Z.to_nat (hash key mod Z.of_nat n).

Lemma key_index_lt n key : (0 < n)%nat -> (key_index n key < n)%nat.
Proof. intros Hn. unfold key_index. pose proof (Z.mod_pos_bound (hash key) (Z.of_nat n)). lia. Qed.

Lemma is_shard_mono (P Q : IdempotencyKey -> Prop) g : (forall k, P k -> Q k) -> is_shard P g -> is_shard Q g.
Proof. intros HPQ (m & f & mt & -> & Hm). exists m, f, mt. split; [done|]. eauto. Qed.

Section requests.
Context (key ip : string) (now : Z).
Let r := router_post (Some key) ip (str_bytes "x").

Lemma post_key : header r "idempotency-key" = Some key.
Proof. reflexivity. Qed.

(** The rules are consulted first, wherever the client's address lands. *)
Lemma post_denial R n P c rs v rs' :
  router_inv R n P c rs -> evaluate rs ip now = (v, rs') ->
  deny_if_abusive hash R r now =
  match v with
  | Verdict_Deny rule action =>
      Some (Some (too_many_requests rule action),
            MkRouter (shards R) [rs'] (counting c) (wrapping_add 64 (router_denied R) 1) (next_shard R))
  | Verdict_Allow => Some (None, MkRouter (shards R) [rs'] (counting c) (router_denied R) (next_shard R))
  end.
Proof.
  intros HR Hev. unfold deny_if_abusive, abuse_for_identity. change (identity_of r) with ip.
  rewrite (ri_abuse _ _ _ _ _ HR). change (len [rs]) with 1. rewrite Z.mod_1_r. change (Z.to_nat 0) with 0%nat.
  change ([rs] !! 0%nat) with (Some rs). rewrite bind_some, Hev. cbn [list_insert insert]. by rewrite (ri_upstream _ _ _ _ _ HR).
Qed.

Lemma request_denied R n P c rs rule action rs' :
  router_inv R n P c rs -> evaluate rs ip now = (Verdict_Deny rule action, rs') ->
  exists R', router_handle hash R r now = Some (too_many_requests rule action, R') /\ router_inv R' n P c rs' /\
    shards R' = shards R /\ router_denied R' = wrapping_add 64 (router_denied R) 1.
Proof.
  intros HR Hev. unfold router_handle. change (operational_response R r) with (@None Response).
  rewrite (post_denial R n P c rs _ rs' HR Hev), bind_some. eexists. split; [done|]. by destruct HR.
Qed.

(** A key that no shard holds is forwarded and created on its shard. *)
Lemma request_created R n P c rs rs' :
  router_inv R n P c rs -> evaluate rs ip now = (Verdict_Allow, rs') -> ~ P (MkKey key) ->
  exists R' m f mt, router_handle hash R r now = Some (tag response "created", R') /\
    router_inv R' n (fun k => P k \/ k = MkKey key) (c + 1) rs' /\
    shards R' !! key_index n key = Some (shard m f mt) /\
    m !! MkKey key = Some (Completed (fingerprint_of r server_key) (to_outcome response) now) /\
    totals (shards R') metrics_default = merge (totals (shards R) metrics_default) (merge one_request one_created) /\
    router_denied R' = router_denied R.
Proof.
  intros HR Hev HP. unfold router_handle. change (operational_response R r) with (@None Response).
  rewrite (post_denial R n P c rs _ rs' HR Hev), bind_some. cbv beta iota.
  destruct HR as [Hlen Hn Hsh _ _]. unfold route_shard. rewrite post_key. unfold shard_for_key. cbn [shards].
  unfold len. rewrite Hlen. fold (key_index n key). pose proof (key_index_lt n key Hn) as Hi.
  set (i := key_index n key) in *. destruct (lookup_lt_is_Some_2 (shards R) i) as [g Hg]; [lia|].
  destruct (Forall_lookup_1 _ _ _ _ Hsh Hg) as (m & f & mt & -> & Hm).
  assert (m !! MkKey key = None) as Hk by (destruct (m !! MkKey key) eqn:E; [by destruct HP; eapply Hm | done]).
  unfold begin_on. cbn [shards set_shards]. rewrite Hg, bind_some, (shard_begin _ _ _ _ key) by done. cbv beta iota zeta.
  rewrite bind_some. cbv beta iota zeta. cbn [router_upstream set_shards]. unfold forward, CountingUpstream_Upstream.
  cbn [counting GatewayTests.status up_body calls]. unfold complete_on, set_router_upstream. cbn [shards set_shards].
  rewrite list_lookup_insert_eq, bind_some by lia. change (MkResponse 201 [] (str_bytes "charged")) with response.
  rewrite (shard_complete _ f _ _ (fingerprint_of r server_key) (saturating_add 64 now 30000)) by apply lookup_insert_eq.
  cbv beta iota zeta. rewrite list_insert_insert_eq. do 4 eexists. split; [done|]. cbn [shards set_shards abuse router_upstream router_denied].
  split_and!; [| by rewrite list_lookup_insert_eq by lia | apply lookup_insert_eq | | done].
  - split; cbn [shards set_shards abuse router_upstream]; [by rewrite length_insert | done | | done | done].
    apply Forall_insert; [eapply Forall_impl; [exact Hsh|]; intros g; by apply is_shard_mono; left|].
    eexists _, _, _. split; [done|]. intros k st. rewrite insert_insert_eq.
    intros [[<- _]|[_ Hk']]%lookup_insert_Some; [by right | left; by eapply Hm].
  - eapply totals_insert; [exact Hg|]. cbn [shard metrics]. apply merge_assoc.
Qed.

(** A retry is replayed from the shard of its key. *)
Lemma request_replayed R n P c rs rs' m f mt t :
  router_inv R n P c rs -> evaluate rs ip now = (Verdict_Allow, rs') ->
  shards R !! key_index n key = Some (shard m f mt) ->
  m !! MkKey key = Some (Completed (fingerprint_of r server_key) (to_outcome response) t) ->
  now < expiry t DEFAULT_TTL_MS ->
  exists R', router_handle hash R r now = Some (tag (from_outcome (to_outcome response)) "replayed", R') /\
    router_inv R' n P c rs'.
Proof.
  intros HR Hev Hg Hk Hlt. unfold router_handle. change (operational_response R r) with (@None Response).
  rewrite (post_denial R n P c rs _ rs' HR Hev), bind_some. cbv beta iota.
  destruct HR as [Hlen Hn Hsh _ _]. unfold route_shard. rewrite post_key. unfold shard_for_key. cbn [shards].
  unfold len. rewrite Hlen. fold (key_index n key). unfold begin_on. cbn [shards]. rewrite Hg, bind_some.
  rewrite (shard_retry _ _ _ _ key _ t) by done. cbv beta iota zeta. rewrite bind_some. cbv beta iota zeta.
  eexists. split; [done|]. split; cbn [shards set_shards abuse router_upstream]; [by rewrite length_insert | done | | done | done].
  apply Forall_insert; [done|]. destruct (Forall_lookup_1 _ _ _ _ Hsh Hg) as (m' & f' & mt' & E & Hm).
  injection E as -> -> ->. by exists m', f', (merge (merge mt' one_request) one_replayed).
Qed.

End requests.

Lemma inv_weaken R n (P Q : IdempotencyKey -> Prop) c rs :
  (forall k, P k -> Q k) -> router_inv R n P c rs -> router_inv R n Q c rs.
Proof.
  intros HPQ [Hl Hn Hs Ha Hu]. split; try done. eapply Forall_impl; [exact Hs|]. intros g. by apply is_shard_mono.
Qed.

(** A new router holds no key and has counted nothing. *)
Lemma router_start n rs :
  (0 < n)%nat -> exists R, router n [rs] = Some R /\ router_inv R n (fun _ => False) 0 rs /\
    totals (shards R) metrics_default = metrics_default /\ router_denied R = 0.
Proof.
  intros Hn. destruct n as [|n]; [lia|]. eexists. split; [reflexivity|]. split_and!; [split| |done]; cbn [shards abuse router_upstream].
  - apply (length_replicate (S n)).
  - lia.
  - change (Forall (is_shard (fun _ => False)) (replicate (S n) (shard ∅ 1 metrics_default))).
    apply Forall_replicate. exists ∅, 1, metrics_default. split; [done|]. intros k st. by rewrite lookup_empty.
  - done.
  - done.
  - change (totals (replicate (S n) (shard ∅ 1 metrics_default)) metrics_default = metrics_default).
    clear Hn. induction (S n) as [|k IH]; [done|]. cbn [replicate]. etrans; [|exact IH].
    unfold totals. cbn [fold_left]. f_equal.
Qed.

(** ** The tests pass *)

Definition sent (i : Z) (k : IdempotencyKey) : Prop := exists j, 0 <= j < i /\ k = MkKey (numbered "k" j).

Lemma send_twice_step R i :
  0 <= i < 2 ^ 31 -> router_inv R 8 (sent i) i RuleSet_new ->
  exists R', send_twice R i = Some R' /\ router_inv R' 8 (sent (i + 1)) (i + 1) RuleSet_new.
Proof.
  intros Hi HR. unfold send_twice.
  destruct (request_created (numbered "k" i) "10.0.0.1" 1000 R 8 (sent i) i RuleSet_new RuleSet_new HR) as
    (R1 & m & f & mt & E1 & HR1 & Hg & Hk & _ & _); [done| |].
  { intros (j & Hj & [=E]). apply numbered_inj in E; unfold in_uint in *; lia. }
  destruct (request_replayed (numbered "k" i) "10.0.0.1" 1010 R1 8 _ _ RuleSet_new RuleSet_new m f mt 1000 HR1) as
    (R2 & E2 & HR2); [done | done | done | done |].
  exists R2. rewrite E1, bind_some. cbv beta iota. rewrite E2, bind_some. cbv beta iota zeta.
  split; [done|]. eapply inv_weaken; [|exact HR2]. intros k [(j & Hj & ->)| ->]; [exists j | exists i]; split; (lia || done).
Qed.

Lemma exactly_once_pass keys : 0 <= keys <= 2 ^ 31 -> exactly_once_holds_across_shards keys = Some tt.
Proof.
  intros Hkeys. unfold exactly_once_holds_across_shards.
  destruct (router_start 8 RuleSet_new) as (R & -> & HR & _ & _); [lia|]. rewrite bind_some.
  assert (exists R', for_each (range 0 keys) R send_twice = Some R' /\ router_inv R' 8 (sent keys) keys RuleSet_new)
    as (R' & -> & HR').
  { apply (for_each_range (fun i R => router_inv R 8 (sent i) i RuleSet_new)); [lia | | intros st i Hi; apply send_twice_step; lia].
    eapply inv_weaken; [|exact HR]. done. }
  rewrite bind_some. apply ensure_true. rewrite (ri_upstream _ _ _ _ _ HR'). cbn [counting calls]. lia.
Qed.

(** The verdicts on [n] requests of one client at time 0. *)
Fixpoint verdicts (n : nat) (ip : string) (rs : RuleSet) : list bool :=
  match n with
  | O => []
  | S n => let (v, rs) := evaluate rs ip 0 in (if v is Verdict_Allow then true else false) :: verdicts n ip rs
  end.

Lemma send_keys_statuses keys ip R n P c rs :
  router_inv R n P c rs -> NoDup keys -> (forall k, k ∈ keys -> ~ P (MkKey k)) ->
  let vs := verdicts (length keys) ip rs in
  exists R' P' rs', send_keys keys ip R = Some (map (fun ok : bool => if ok then 201 else 429) vs, R') /\
    router_inv R' n P' (c + Z.of_nat (length (filter Is_true vs))) rs'.
Proof.
  revert R P c rs. induction keys as [|key keys IH]; intros R P c rs HR Hnd HP; cbn [send_keys length verdicts].
  { exists R, P, rs. split; [done|]. by rewrite Z.add_0_r. }
  apply NoDup_cons in Hnd as [Hnew Hnd]. destruct (evaluate rs ip 0) as [[|rule action] rs'] eqn:Hev.
  - destruct (request_created key ip 0 R n P c rs rs' HR Hev) as (R1 & m & f & mt & -> & HR1 & _); [apply HP; left|].
    rewrite bind_some. cbv beta iota.
    destruct (IH R1 _ _ rs' HR1 Hnd) as (R' & P' & rs'' & -> & HR').
    { intros k Hk [HPk|[= ->]]; [by apply (HP k); [right|] | done]. }
    exists R', P', rs''. split; [done|]. rewrite filter_cons_True by done. cbn [length].
    by replace (c + Z.of_nat (S (length (filter Is_true (verdicts (length keys) ip rs'))))) with
      (c + 1 + Z.of_nat (length (filter Is_true (verdicts (length keys) ip rs')))) by lia.
  - destruct (request_denied key ip 0 R n P c rs rule action rs' HR Hev) as (R1 & -> & HR1 & _).
    rewrite bind_some. cbv beta iota.
    destruct (IH R1 P c rs' HR1 Hnd) as (R' & P' & rs'' & -> & HR'); [intros k Hk; apply HP; by right|].
    exists R', P', rs''. split; [by destruct action|]. by rewrite filter_cons_False by (intros []).
Qed.

Lemma abuse_pass : abuse_limit_is_global_across_shards = Some tt.
Proof.
  unfold abuse_limit_is_global_across_shards. destruct (rule RuleSet_new "strict" 1000 3 Block) as [rs|] eqn:Hrs; [|done].
  rewrite bind_some. destruct (router_start 8 rs) as (R & -> & HR & _ & _); [lia|]. rewrite bind_some.
  destruct (send_keys_statuses (map (numbered "k") (range 0 5)) "10.0.0.7" R _ _ _ _ HR) as (R' & P' & rs' & -> & HR').
  { apply (bool_decide_unpack _). vm_compute. done. }
  { by intros k _ []. }
  injection Hrs as <-. rewrite bind_some. cbv beta iota. rewrite ensure_bind by (vm_compute; reflexivity).
  apply ensure_true. rewrite (ri_upstream _ _ _ _ _ HR'). vm_compute. reflexivity.
Qed.

Lemma metrics_pass : metrics_aggregate_across_shards = Some tt.
Proof.
  unfold metrics_aggregate_across_shards. destruct (rule RuleSet_new "strict" 1000 2 Block) as [rs|] eqn:Hrs; [|done].
  rewrite bind_some. destruct (router_start 4 rs) as (R & -> & HR & Ht & Hd); [lia|]. rewrite bind_some. cbn [send_keys].
  destruct (evaluate rs "10.0.0.8" 0) as [v1 rs1] eqn:H1. destruct (evaluate rs1 "10.0.0.8" 0) as [v2 rs2] eqn:H2.
  destruct (evaluate rs2 "10.0.0.8" 0) as [v3 rs3] eqn:H3.
  assert (v1 = Verdict_Allow /\ v2 = Verdict_Allow /\ v3 = Verdict_Deny "strict" Block) as (-> & -> & ->).
  { injection Hrs as <-. vm_compute in H1. injection H1 as <- <-. vm_compute in H2. injection H2 as <- <-.
    vm_compute in H3. by injection H3 as <- <-. }
  destruct (request_created "a" "10.0.0.8" 0 R 4 _ 0 rs rs1 HR H1) as (R1 & ? & ? & ? & -> & HR1 & _ & _ & Ht1 & Hd1); [by intros []|].
  rewrite bind_some. cbv beta iota.
  destruct (request_created "b" "10.0.0.8" 0 R1 4 _ _ rs1 rs2 HR1 H2) as (R2 & ? & ? & ? & -> & HR2 & _ & _ & Ht2 & Hd2); [by intros [[]|]|].
  rewrite bind_some. cbv beta iota.
  destruct (request_denied "c" "10.0.0.8" 0 R2 4 _ _ rs2 _ _ rs3 HR2 H3) as (R3 & -> & _ & Hs3 & Hd3).
  repeat (rewrite bind_some; cbv beta iota).
  assert (aggregate_metrics R3 = MkMetrics 2 2 0 0 0 1 0 0) as Hagg.
  { unfold aggregate_metrics. fold (totals (shards R3) metrics_default). by rewrite Hs3, Ht2, Ht1, Ht, Hd3, Hd2, Hd1, Hd. }
  assert (router_handle hash R3 metrics_get 0 = Some (metrics_response (MkMetrics 2 2 0 0 0 1 0 0), R3)) as ->.
  { rewrite <- Hagg. reflexivity. }
  rewrite bind_some. cbv beta iota. vm_compute. reflexivity.
Qed.

End router_tests.

(** The single-threaded tests of the router pass for every hash function,
    that is wherever the keys and the clients land: of any number of keys (the
    source sends 50) each sent twice through 8 shards, each is created once and
    then replayed, with one backend call per key; a client over its limit is
    refused whatever shards its keys are on, without a backend call; and
    [/metrics] adds up the shards and the router's own denials. *)
Theorem router_suite_passes `{!HashOrder string} (hash : string -> Z) keys :
  0 <= keys <= 2 ^ 31 ->
  exactly_once_holds_across_shards hash keys = Some tt /\
  abuse_limit_is_global_across_shards hash = Some tt /\
  metrics_aggregate_across_shards hash = Some tt.
Proof. intros Hk. split_and!; [by apply exactly_once_pass | apply abuse_pass | apply metrics_pass]. Qed.

Definition length_hash (s : string) : Z := Z.of_nat (String.length s).

Lemma router_suite_passes_witness :
  @exactly_once_holds_across_shards (default_order string) length_hash 50 = Some tt.
Proof.
  assert (0 <= 50 <= 2 ^ 31) as Hk by lia.
  exact (proj1 (@router_suite_passes (default_order string) length_hash 50 Hk)).
Defined.
