(* ===== verification/Async.v ===== *)
(** * The asynchronous path of the router is the synchronous one

    The transports of [onced-fast] and [onced-uring] run a router whose shards
    have no backend of their own ([NoopUpstream]) and pass the backend call to
    [handle_async]; the server of [onced-gateway] runs a router that owns its
    backend. *)

From S2P Require Import Prelude Machine Str BTreeMap HashMap Types Store Engine Hash Codec Abuse.
From S2P Require Import Http Gateway GatewaySpec Router.

Section detach.
Context {S U : Type} `{Store S} `{!Upstream U} `{!HashOrder string}.
Context (hash : string -> Z).
Implicit Types (g : Gateway S U) (R : Router S U).

(** The same gateway, or router, without its backend. *)
Definition detach_gateway g : Gateway S NoopUpstream :=
  MkGateway (engine g) (rules g) MkNoop (metrics g) (fingerprint_key g).

Definition detach R : Router S NoopUpstream :=
  MkRouter (map detach_gateway (shards R)) (abuse R) MkNoop (router_denied R) (next_shard R).

Lemma begin_detached g r now :
  begin_phase (detach_gateway g) r now = ((begin_phase g r now).1, detach_gateway (begin_phase g r now).2).
Proof.
  unfold begin_phase. destruct (header r "idempotency-key"); [|done]. simpl.
  destruct (begin (engine g) _ _ now) as [b e]. by destruct b.
Qed.

Lemma complete_detached g tk f now :
  complete_phase (detach_gateway g) tk f now =
  ((complete_phase g tk f now).1, detach_gateway (complete_phase g tk f now).2).
Proof.
  unfold complete_phase. destruct (token tk), f; [|done..]. case_match; [done|]. simpl.
  by destruct (complete (engine g) _ _ now).
Qed.

Lemma metrics_detached R : aggregate_metrics (detach R) = aggregate_metrics R.
Proof.
  unfold aggregate_metrics. cbn [detach shards router_denied]. f_equal. generalize metrics_default.
  induction (shards R) as [|g gs IH]; intros m; [done|]. apply IH.
Qed.

Lemma deny_detached R r now :
  deny_if_abusive hash (detach R) r now = prod_map id detach <$> deny_if_abusive hash R r now.
Proof.
  unfold deny_if_abusive, abuse_for_identity. cbn [detach abuse]. destruct (abuse R !! _); [|done]. simpl.
  by destruct (evaluate _ _ _) as [[] ?].
Qed.

Lemma route_detached R r : route_shard hash (detach R) r = prod_map id detach (route_shard hash R r).
Proof.
  unfold route_shard, shard_for_key. cbn [detach shards next_shard]. unfold len. rewrite length_map.
  by destruct (header r _).
Qed.

Lemma begin_on_detached R idx r now : begin_on (detach R) idx r now = prod_map id detach <$> begin_on R idx r now.
Proof.
  unfold begin_on. cbn [detach shards]. rewrite list_lookup_fmap. destruct (shards R !! idx) as [g|]; [|done].
  simpl. rewrite begin_detached. destruct (begin_phase g r now) as [p g']. simpl. unfold set_shards, detach. simpl.
  by rewrite list_fmap_insert.
Qed.

Lemma complete_on_detached R idx tk f now u :
  complete_on (detach R) idx tk f now = prod_map id detach <$> complete_on (set_router_upstream R u) idx tk f now.
Proof.
  unfold complete_on. cbn [detach set_router_upstream shards]. rewrite list_lookup_fmap.
  destruct (shards R !! idx) as [g|]; [|done]. simpl. rewrite complete_detached.
  destruct (complete_phase g tk f now) as [p g']. simpl. unfold set_shards, detach. simpl. by rewrite list_fmap_insert.
Qed.

Lemma begin_on_upstream R idx r now b R' : begin_on R idx r now = Some (b, R') -> router_upstream R' = router_upstream R.
Proof. unfold begin_on. destruct (shards R !! idx); [|done]. simpl. case_match. by intros [= <- <-]. Qed.

Lemma complete_on_upstream R idx tk f now b R' :
  complete_on R idx tk f now = Some (b, R') -> router_upstream R' = router_upstream R.
Proof. unfold complete_on. destruct (shards R !! idx); [|done]. simpl. case_match. by intros [= <- <-]. Qed.

Lemma deny_upstream R r now b R' :
  deny_if_abusive hash R r now = Some (b, R') -> router_upstream R' = router_upstream R.
Proof.
  unfold deny_if_abusive. destruct (abuse R !! _); [|done]. simpl.
  destruct (evaluate _ _ _) as [[] ?]; by intros [= <- <-].
Qed.

Lemma route_upstream R r idx R' : route_shard hash R r = (idx, R') -> router_upstream R' = router_upstream R.
Proof. unfold route_shard. destruct (header r _); by intros [= <- <-]. Qed.

(** The asynchronous handler of the detached router, with the router's backend
    as the caller's world. *)
Lemma async_is_sync R r now :
  router_handle_async hash (detach R) r now (fun u => Some (forward u r)) (router_upstream R) =
  (fun '(resp, R') => (resp, detach R', router_upstream R')) <$> router_handle hash R r now.
Proof.
  unfold router_handle_async, router_handle, operational_response. rewrite metrics_detached.
  destruct (String.eqb (path_of r) "/healthz"); [done|]. destruct (String.eqb (path_of r) "/metrics"); [done|].
  rewrite deny_detached. destruct (deny_if_abusive hash R r now) as [[d R1]|] eqn:Ed; [|done].
  apply deny_upstream in Ed. cbn. destruct d as [resp|]; [by rewrite <- Ed|].
  rewrite route_detached. destruct (route_shard hash R1 r) as [idx R2] eqn:Er. apply route_upstream in Er. simpl.
  rewrite begin_on_detached. destruct (begin_on R2 idx r now) as [[b R3]|] eqn:Eb; [|done].
  apply begin_on_upstream in Eb. cbn. rewrite <- Ed, <- Er, <- Eb. destruct b as [tk|resp]; [|done].
  destruct (forward (router_upstream R3) r) as [f u]. cbn. rewrite (complete_on_detached R3 idx tk f now u).
  destruct (complete_on (set_router_upstream R3 u) idx tk f now) as [[resp R4]|] eqn:Ec; [|done].
  apply complete_on_upstream in Ec. cbn. by rewrite Ec.
Qed.

(** A keyed request that its shard answers at once: the future is not awaited. *)
Lemma async_done {W : Type} (R : Router S U) r key g resp now (fwd : W -> option (result Response unit * W)) w :
  router_ok R -> header r "idempotency-key" = Some key -> operational_response R r = None ->
  shards R !! shard_for_key hash R key = Some g -> (begin_phase g r now).1 = Done resp ->
  exists resp' R', router_handle_async hash R r now fwd w = Some (resp', R', w) /\
    ((exists rule action, resp' = too_many_requests rule action) \/ resp' = resp).
Proof.
  intros Hok Hh Hop Hg Hp. unfold router_handle_async. rewrite Hop.
  destruct (deny_ok hash R r now Hok) as (d & R1 & -> & _ & Hsh & _ & Hd). cbn [mbind option_bind].
  destruct d as [resp'|]; [exists resp', R1; split; [done | left; by apply Hd]|].
  assert (route_shard hash R1 r = (shard_for_key hash R key, R1)) as ->.
  { unfold route_shard. rewrite Hh. unfold shard_for_key. by rewrite Hsh. }
  rewrite (begin_on_some R1 _ r now g) by (by rewrite Hsh). cbn [mbind option_bind]. rewrite Hp.
  do 2 eexists. split; [reflexivity | by right].
Qed.

(** A request without a key is forwarded, and no engine learns of it. *)
Lemma async_keyless {W : Type} (R : Router S U) r now (fwd : W -> option (result Response unit * W)) w :
  router_ok R -> header r "idempotency-key" = None -> operational_response R r = None ->
  abuse_denial hash R r now = None ->
  match fwd w with
  | None => router_handle_async hash R r now fwd w = None
  | Some (res, w') =>
      exists R', router_handle_async hash R r now fwd w =
          Some (match res with Ok response => response | Err _ => bad_gateway end, R', w') /\
        map engine (shards R') = map engine (shards R)
  end.
Proof.
  intros Hok Hh Hop Hden. unfold router_handle_async, abuse_denial in *. rewrite Hop.
  destruct (deny_ok hash R r now Hok) as (d & R1 & Ed & Hok1 & Hsh & _). rewrite Ed in *. subst d. cbn [mbind option_bind].
  destruct (route_shard hash R1 r) as [idx R2] eqn:Er.
  destruct (route_ok hash R1 r idx R2 Hok1 Er) as ([g Hg] & _ & Hsh2 & _).
  rewrite (begin_on_some R2 idx r now g Hg). cbn [mbind option_bind]. unfold begin_phase. rewrite Hh. cbn [fst snd].
  destruct (fwd w) as [[res w']|]; [|done]. cbn [mbind option_bind].
  rewrite (complete_on_some _ idx _ res now (count g one_request))
    by (cbn [set_shards shards]; apply list_lookup_insert_eq; by eapply lookup_lt_Some).
  cbn [mbind option_bind]. eexists. split; [by destruct res as [response|[]]|]. cbn [set_shards shards].
  rewrite list_insert_insert_eq, <- Hsh, <- Hsh2. etransitivity; [apply list_fmap_insert|].
  apply list_insert_id. rewrite list_lookup_fmap, Hg. cbn [fmap option_fmap option_map]. f_equal. by destruct res.
Qed.

(** The handler does not look into the caller's world. *)
Lemma async_world {W W' : Type} (f : W -> W') (R : Router S U) r now fwd fwd' w :
  (forall w, fwd' (f w) = prod_map id f <$> fwd w) ->
  router_handle_async hash R r now fwd' (f w) = prod_map id f <$> router_handle_async hash R r now fwd w.
Proof.
  intros Hf. unfold router_handle_async. destruct (operational_response R r); [done|].
  destruct (deny_if_abusive hash R r now) as [[[d|] R1]|]; [done| |done]. cbn.
  destruct (route_shard hash R1 r) as [idx R2]. destruct (begin_on R2 idx r now) as [[[tk|resp] R3]|]; [|done..]. cbn.
  rewrite Hf. destruct (fwd w) as [[res w']|]; [|done]. cbn. by destruct (complete_on R3 idx tk res now) as [[resp R4]|].
Qed.

(** C28: the asynchronous path gives the synchronous answers.  For every router,
    request and time, [handle_async] on the router without its backends, given
    the backend call as its future, produces the response, the state of every
    shard, the abuse state and the counters of [handle], panics exactly when it
    does, and calls the backend exactly when it does: the transports differ in
    their input and output only. *)
Theorem handle_async_equivalent R r now :
  router_handle_async hash (detach R) r now (fun u => Some (forward u r)) (router_upstream R) =
  (fun '(resp, R') => (resp, detach R', router_upstream R')) <$> router_handle hash R r now.
Proof. apply async_is_sync. Qed.

End detach.
