(* ===== verification/Concurrent.v ===== *)
(** * Concurrent requests on a router

    Requests in flight as tasks, each of which runs the stages of [handle] one
    critical section at a time; tasks interleave freely with each other, with
    prune sweeps and with crashes (which kill all tasks).  The requests that
    reach the backend are recorded.  A task that runs alone computes [handle]. *)

From S2P Require Import Prelude Machine Str BTreeMap HashMap Types Store Engine History EngineSpec Hash Codec Abuse.
From S2P Require Import Http Gateway GatewaySpec Router.

(** Where a request is in [handle]. *)
Inductive Stage :=
| Arrived
| Cleared
| Routed (idx : nat)
| Forwarding (idx : nat) (ticket : ForwardTicket)
| Answered (idx : nat) (ticket : ForwardTicket) (forwarded : result Response unit)
| Finished (response : Response).

Record Task := MkTask { request : Request; arrived_at : Z; stage : Stage }.

Section tasks.
Context {S U : Type} `{Store S} `{!Upstream U} `{!HashOrder string}.
Context (hash : string -> Z).
Implicit Types R : Router S U.

(** The next critical section of a task; [None] is a panic. *)
Definition task_step R (t : Task) : option (Task * Router S U) :=
  let r := request t in
  let now_ms := arrived_at t in
  let to s := MkTask r now_ms s in
  match stage t with
  | Arrived =>
      match operational_response R r with
      | Some response => Some (to (Finished response), R)
      | None =>
          '(d, R) ← deny_if_abusive hash R r now_ms;
          Some (to (match d with Some response => Finished response | None => Cleared end), R)
      end
  | Cleared => let (idx, R) := route_shard hash R r in Some (to (Routed idx), R)
  | Routed idx =>
      '(b, R) ← begin_on R idx r now_ms;
      Some (to (match b with Err response => Finished response | Ok ticket => Forwarding idx ticket end), R)
  | Forwarding idx ticket =>
      let (forwarded, u) := forward (router_upstream R) r in
      Some (to (Answered idx ticket forwarded), set_router_upstream R u)
  | Answered idx ticket forwarded =>
      '(response, R) ← complete_on R idx ticket forwarded now_ms;
      Some (to (Finished response), R)
  | Finished _ => Some (t, R)
  end.

Fixpoint run_task (n : nat) R (t : Task) : option (Task * Router S U) :=
  match n with
  | O => Some (t, R)
  | Datatypes.S n => '(t, R) ← task_step R t; run_task n R t
  end.

(** A task that is not interrupted computes [handle], in five critical sections. *)
Lemma run_task_handle R r now :
  run_task 5 R (MkTask r now Arrived) =
  (fun '(resp, R') => (MkTask r now (Finished resp), R')) <$> router_handle hash R r now.
Proof.
  unfold router_handle. cbn [run_task task_step stage request arrived_at].
  destruct (operational_response R r) as [resp|]; [done|]. cbn.
  destruct (deny_if_abusive hash R r now) as [[[resp|] R1]|]; [done| |done]. cbn.
  destruct (route_shard hash R1 r) as [idx R2]. cbn.
  destruct (begin_on R2 idx r now) as [[[tk|resp] R3]|]; [|done..]. cbn.
  destruct (forward (router_upstream R3) r) as [f u]. cbn.
  by destruct (complete_on (set_router_upstream R3 u) idx tk f now) as [[resp R4]|].
Qed.

End tasks.

(** ** Counting *)

Definition count_if {A} (f : A -> bool) (l : list A) : nat := length (List.filter f l).

Lemma count_if_app {A} (f : A -> bool) l l' : count_if f (l ++ l') = (count_if f l + count_if f l')%nat.
Proof. unfold count_if. by rewrite List.filter_app, length_app. Qed.

Lemma count_if_insert {A} (f : A -> bool) l j x y :
  l !! j = Some x ->
  (count_if f (<[j := y]> l) + (if f x then 1 else 0) = count_if f l + (if f y then 1 else 0))%nat.
Proof.
  intros Hj. rewrite <- (take_drop_middle l j x Hj) at 2.
  rewrite insert_take_drop by (by eapply lookup_lt_Some). rewrite !count_if_app. unfold count_if. simpl.
  destruct (f x), (f y); simpl; lia.
Qed.

(** ** Executions *)

Record Config (S U : Type) := MkConfig { running : Router S U; tasks : list Task; reached : list Request }.
Arguments MkConfig {S U} _ _ _.
Arguments running {S U} _.
Arguments tasks {S U} _.
Arguments reached {S U} _.

(** The backend call of a task's next section, if it is one. *)
Definition called (t : Task) : list Request :=
  match stage t with Forwarding _ _ => [request t] | _ => [] end.

Section executions.
Context {S U : Type} `{DurableLaws S} `{!Upstream U} `{!HashOrder string}.
Context (hash : string -> Z).
Implicit Types (R : Router S U) (c : Config S U).

(** What the store must be able to record for the task's next section. *)
Definition task_admissible R (t : Task) : Prop :=
  Forall (fun g => request_ok g (request t)) (shards R) /\
  forall idx tk f, stage t = Answered idx tk f -> completion_ok (S := S) tk f (arrived_at t).

(** One step; the times read by requests and sweeps satisfy [P]. *)
Inductive cstep (P : Z -> Prop) : Config S U -> Config S U -> Prop :=
| c_arrive R ts cs r now : P now -> in_uint 64 now ->
    cstep P (MkConfig R ts cs) (MkConfig R (ts ++ [MkTask r now Arrived]) cs)
| c_task R ts cs j t t' R' : ts !! j = Some t -> task_admissible R t -> task_step hash R t = Some (t', R') ->
    cstep P (MkConfig R ts cs) (MkConfig R' (<[j := t']> ts) (cs ++ called t))
| c_prune R ts cs now : P now -> cstep P (MkConfig R ts cs) (MkConfig (router_prune_expired R now) ts cs)
| c_crash R ts cs gs rss u :
    Forall2 (fun g g' => gstep g GCrash g') (shards R) gs -> length rss = length (abuse R) ->
    cstep P (MkConfig R ts cs) (MkConfig (MkRouter gs rss u 0 0) [] cs).

Inductive csteps (P : Z -> Prop) : Config S U -> Config S U -> Prop :=
| csteps_nil c : csteps P c c
| csteps_snoc c c1 c2 : csteps P c c1 -> cstep P c1 c2 -> csteps P c c2.

(** A section of a task is at most one step of the router's history, at the
    task's time. *)
Lemma task_rstep R t t' R' :
  task_step hash R t = Some (t', R') -> in_uint 64 (arrived_at t) -> task_admissible R t ->
  R' = R \/ exists ev, rstep hash R ev R' /\ r_timed (fun now => now = arrived_at t) ev.
Proof.
  intros Hs Hn [Hok Hc]. unfold task_step in Hs. destruct (stage t) as [| |idx|idx tk|idx tk f|resp] eqn:Est.
  - destruct (operational_response R _); [by simplify_eq; left|].
    destruct (deny_if_abusive hash R _ _) as [[d R1]|] eqn:Ed; [|done]. simpl in Hs. simplify_eq.
    right. eexists; split; [by eapply rstep_abuse | done].
  - destruct (route_shard hash R _) as [idx R1] eqn:Er. simplify_eq. right. eexists; split; [by eapply rstep_route | done].
  - destruct (begin_on R idx _ _) as [[b R1]|] eqn:Eb; [|done]. simpl in Hs. simplify_eq. right.
    destruct (shards R !! idx) as [g|] eqn:Hg; [|unfold begin_on in Eb; by rewrite Hg in Eb].
    eexists; split; [eapply rstep_begin; [done | done | | done] | done].
    by apply (Forall_lookup_1 _ _ _ _ Hok Hg).
  - destruct (forward (router_upstream R) _) as [f u]. simplify_eq. right. eexists; split; [apply rstep_forward | done].
  - destruct (complete_on R idx tk f _) as [[resp R1]|] eqn:Ec; [|done]. simpl in Hs. simplify_eq. right.
    eexists; split; [eapply rstep_complete; [done | by eapply Hc | done] | done].
  - simplify_eq. by left.
Qed.

(** What a section leaves of its task. *)
Lemma task_step_frame R t t' R' :
  task_step hash R t = Some (t', R') ->
  request t' = request t /\ arrived_at t' = arrived_at t /\
  match stage t' with
  | Routed idx => (route_shard hash R (request t)).1 = idx
  | Forwarding idx tk => stage t = Routed idx /\ begin_on R idx (request t) (arrived_at t) = Some (Ok tk, R')
  | _ => True
  end.
Proof.
  intros Hs. unfold task_step in Hs. destruct (stage t) as [| |idx|idx tk|idx tk f|resp] eqn:Est.
  - destruct (operational_response R _); [by simplify_eq|].
    destruct (deny_if_abusive hash R _ _) as [[d R1]|]; [|done]. simpl in Hs. simplify_eq. by destruct d.
  - destruct (route_shard hash R _) as [idx R1]. by simplify_eq.
  - destruct (begin_on R idx _ _) as [[b R1]|] eqn:Eb; [|done]. simpl in Hs. simplify_eq. by destruct b.
  - destruct (forward (router_upstream R) _) as [f u]. by simplify_eq.
  - destruct (complete_on R idx tk f _) as [[resp R1]|]; [|done]. simpl in Hs. by simplify_eq.
  - simplify_eq. by rewrite Est.
Qed.

End executions.

(** ** One backend call per key *)

Definition bears (key : string) (r : Request) : bool := bool_decide (header r "idempotency-key" = Some key).

(** A task with the key whose next section is the backend call. *)
Definition in_flight (key : string) (t : Task) : bool :=
  bears key (request t) && match stage t with Forwarding _ _ => true | _ => false end.

Lemma called_in_flight key t : count_if (bears key) (called t) = (if in_flight key t then 1 else 0)%nat.
Proof. unfold called, in_flight, count_if. by destruct (stage t); simpl; destruct (bears key (request t)). Qed.

Section single_call.
Context {S U : Type} `{DurableLaws S} `{!Upstream U} `{!HashOrder string}.
Context (hash : string -> Z) (key : string) (t0 lease ttl : Z).
Implicit Types (R : Router S U) (c : Config S U) (g : Gateway S U).
Context (Hw : t0 + ttl < 2 ^ 64).

Let l0 : Z := saturating_add 64 t0 lease.
Let W : Z -> Prop := in_lease t0 l0 ttl.

(** The backend calls for the key, made or about to be made. *)
Definition load c : nat := (count_if (in_flight key) (tasks c) + count_if (bears key) (reached c))%nat.

(** The shard of the key. *)
Definition key_shard R g : Prop :=
  shards R !! shard_for_key hash R key = Some g /\ engine_inv (engine g) /\
  lease_ms (engine g) = lease /\ ttl_ms (engine g) = ttl.

Definition task_ok R (t : Task) : Prop :=
  W (arrived_at t) /\ in_uint 64 (arrived_at t) /\
  forall idx, bears key (request t) = true -> stage t = Routed idx -> idx = shard_for_key hash R key.

(** A call for the key holds it. *)
Definition call_inv c : Prop :=
  router_ok (running c) /\ Forall (task_ok (running c)) (tasks c) /\ (load c <= 1)%nat /\
  exists g, key_shard (running c) g /\ ((0 < load c)%nat -> held (MkKey key) t0 l0 (engine g)).

(** A step of the router keeps the shard and what it holds. *)
Lemma rstep_key_shard R ev R' g :
  rstep hash R ev R' -> r_timed W ev -> router_ok R -> key_shard R g ->
  router_ok R' /\ shard_for_key hash R' key = shard_for_key hash R key /\
  exists g', key_shard R' g' /\ (held (MkKey key) t0 l0 (engine g) -> held (MkKey key) t0 l0 (engine g')).
Proof.
  intros Hs Ht Hok (Hg & Hinv & Hl & Htt).
  destruct (rsteps_ok hash R [ev] R' Hok (rsteps_snoc hash R [] R ev R' (rsteps_nil hash R) Hs)) as [Hok' Hlen].
  assert (shard_for_key hash R' key = shard_for_key hash R key) as Ei by (unfold shard_for_key, len; by rewrite Hlen).
  split_and!; [done..|].
  destruct (rstep_shard hash R ev R' _ g W Hs Ht Hg) as (_ & g' & tr & Hg' & Hgs & Hgt).
  destruct (gsteps_esteps _ _ _ _ Hgs Hgt) as [_ (etr & Hes & Het)]. exists g'. split.
  - unfold key_shard. rewrite Ei, (esteps_lease _ _ _ Hes), (esteps_ttl _ _ _ Hes).
    split_and!; [done | by eapply esteps_inv | done | done].
  - intros Hh. unfold W in Het. rewrite <- Htt in Het, Hw. by apply (held_steps _ _ _ _ _ _ Hinv Hw Hh Hes Het).
Qed.

Lemma task_ok_same R R' t : shard_for_key hash R' key = shard_for_key hash R key -> task_ok R t -> task_ok R' t.
Proof. unfold task_ok. by intros ->. Qed.

(** A step of the router under the same tasks and calls, or fewer. *)
Lemma call_inv_rstep R ts cs ev R' ts' :
  call_inv (MkConfig R ts cs) -> rstep hash R ev R' -> r_timed W ev ->
  (count_if (in_flight key) ts' <= count_if (in_flight key) ts)%nat -> Forall (task_ok R) ts' ->
  call_inv (MkConfig R' ts' cs).
Proof.
  intros (Hok & _ & Hload & g & Hg & Hh) Hs Ht Hle Hts. unfold load in *. simpl in *.
  destruct (rstep_key_shard R ev R' g Hs Ht Hok Hg) as (Hok' & Ei & g' & Hg' & Hh').
  unfold call_inv, load; simpl.
  split_and!; [done | | lia | exists g'; split; [done|]; intros Hp; apply Hh', Hh; lia].
  eapply Forall_impl; [exact Hts|]. intros t. by apply task_ok_same.
Qed.

(** A request that begins while the key is held is not let through. *)
Lemma begin_on_held R g r now tk R' :
  key_shard R g -> held (MkKey key) t0 l0 (engine g) -> bears key r = true -> W now ->
  begin_on R (shard_for_key hash R key) r now = Some (Ok tk, R') -> False.
Proof.
  intros (Hg & [Ho _] & _ & Htt) Hh Hk%bool_decide_eq_true Hn Hb. unfold W in Hn. rewrite <- Htt in Hn, Hw.
  destruct (begin_phase_held g r key t0 l0 now Ho Hw Hh Hk Hn) as (resp & Hp & _).
  rewrite (begin_on_some R _ r now g Hg), Hp in Hb. done.
Qed.

(** One that is let through holds the key. *)
Lemma begin_on_run R g r now tk R' :
  router_ok R -> key_shard R g -> bears key r = true -> W now -> 
  begin_on R (shard_for_key hash R key) r now = Some (Ok tk, R') ->
  exists g', shards R' !! shard_for_key hash R key = Some g' /\ held (MkKey key) t0 l0 (engine g').
Proof.
  intros Hok (Hg & [Ho _] & Hl & _) Hk%bool_decide_eq_true [Hn _] Hb.
  rewrite (begin_on_some R _ r now g Hg) in Hb. injection Hb as Hp <-.
  exists (begin_phase g r now).2. split; [simpl; apply list_lookup_insert_eq; by eapply lookup_lt_Some|].
  destruct (begin_phase_engine g r key now Hk) as [-> Hb].
  destruct (begin (engine g) (MkKey key) (fingerprint_of r (fingerprint_key g)) now).1 as [tok|o| |] eqn:Eb;
    [|rewrite Hb in Hp; discriminate Hp..].
  unfold l0. rewrite <- Hl. by eapply run_held.
Qed.

(** A section of a task, when it is not the backend call's ticket. *)
Lemma task_ok_step R t t' R' :
  task_step hash R t = Some (t', R') -> task_ok R t -> task_ok R t'.
Proof.
  intros Hs (Ht & Hn & _). destruct (task_step_frame hash R t t' R' Hs) as (Er & En & Hst).
  unfold task_ok. rewrite En, Er. split_and!; [done..|]. intros idx Hk Est. rewrite Est in Hst.
  apply bool_decide_eq_true in Hk. unfold route_shard in Hst. by rewrite Hk in Hst.
Qed.

Lemma call_inv_task R ts cs j t t' R' :
  call_inv (MkConfig R ts cs) -> ts !! j = Some t -> task_admissible R t -> task_step hash R t = Some (t', R') ->
  call_inv (MkConfig R' (<[j := t']> ts) (cs ++ called t)).
Proof.
  intros Hc Hj Ha Hs. pose proof Hc as (Hok & Hts & Hload & g & Hg & Hh).
  pose proof (Forall_lookup_1 _ _ _ _ Hts Hj) as Ht. pose proof Ht as (HW & Hn & Hroute).
  pose proof (count_if_insert (in_flight key) ts j t t' Hj) as Hcount.
  assert (load (MkConfig R' (<[j := t']> ts) (cs ++ called t)) =
          load (MkConfig R ts cs) + (if in_flight key t' then 1 else 0))%nat as El.
  { unfold load. simpl. rewrite count_if_app, called_in_flight. lia. }
  assert (Forall (task_ok R) (<[j := t']> ts)) as Hts'.
  { apply Forall_insert; [done | by eapply task_ok_step]. }
  assert (router_ok R' /\ shard_for_key hash R' key = shard_for_key hash R key /\
    exists g', key_shard R' g' /\ (held (MkKey key) t0 l0 (engine g) -> held (MkKey key) t0 l0 (engine g')))
    as (Hok' & Ei & g' & Hg' & Hh').
  { destruct (task_rstep hash R t t' R' Hs Hn Ha) as [->|(ev & Hev & Htev)]; [by eauto|].
    eapply rstep_key_shard; [done | | done | done]. destruct ev; simpl in *; by subst. }
  assert (Forall (task_ok R') (<[j := t']> ts)) as Hts''.
  { eapply Forall_impl; [exact Hts'|]. intros x. by apply task_ok_same. }
  unfold call_inv. rewrite El. simpl. destruct (in_flight key t') eqn:Ef.
  - destruct (task_step_frame hash R t t' R' Hs) as (Er & En & Hst). unfold in_flight in Ef. rewrite Er in Ef.
    apply andb_true_iff in Ef as [Hk Ef]. destruct (stage t') as [| | |idx tk| |]; try done. destruct Hst as [Est Hb].
    rewrite (Hroute idx Hk Est) in Hb.
    assert (load (MkConfig R ts cs) = 0)%nat as E0.
    { destruct (decide (load (MkConfig R ts cs) = 0)%nat); [done|]. exfalso.
      by eapply (begin_on_held R g _ _ tk R' Hg); [apply Hh; lia | ..]. }
    destruct (begin_on_run R g _ _ tk R' Hok Hg Hk HW Hb) as (g2 & Hg2 & Hheld).
    rewrite E0. split_and!; [done | done | lia|]. exists g'. split; [done|]. intros _.
    destruct Hg' as (Hg1 & _). rewrite Ei in Hg1. by simplify_eq.
  - rewrite Nat.add_0_r. split_and!; [done | done | done|]. exists g'. split; [done|]. intros Hp. by apply Hh', Hh.
Qed.

Lemma call_inv_step c c' : call_inv c -> cstep hash W c c' -> call_inv c'.
Proof.
  intros Hc Hs. destruct Hs as [R ts cs r now Hn Hu|R ts cs j t t' R' Hj Ha Hs|R ts cs now Hn|R ts cs gs rss u Hf Hl].
  - destruct Hc as (Hok & Hts & Hload & g & Hg & Hh). unfold call_inv, load in *. simpl in *.
    rewrite count_if_app. change (count_if (in_flight key) [MkTask r now Arrived]) with
      (length (if in_flight key (MkTask r now Arrived) then [MkTask r now Arrived] else [])).
    unfold in_flight at 2 4. simpl. rewrite andb_false_r. simpl. rewrite Nat.add_0_r.
    split_and!; [done | | done | by exists g]. apply Forall_app. split; [done|]. constructor; [|constructor].
    split_and!; [done | done | by intros].
  - by eapply call_inv_task.
  - eapply call_inv_rstep; [done | apply rstep_prune | done | done | by destruct Hc as (_ & ? & _)].
  - eapply call_inv_rstep; [done | by apply rstep_crash | done | unfold count_if; simpl; lia | constructor].
Qed.

End single_call.

Lemma single_call {S U} `{DurableLaws S} `{!Upstream U} `{!HashOrder string}
    (hash : string -> Z) (R : Router S U) key g t0 c :
  router_ok R -> shards R !! shard_for_key hash R key = Some g -> engine_inv (engine g) ->
  t0 + ttl_ms (engine g) < 2 ^ 64 ->
  csteps hash (in_lease t0 (saturating_add 64 t0 (lease_ms (engine g))) (ttl_ms (engine g))) (MkConfig R [] []) c ->
  (count_if (bears key) (reached c) <= 1)%nat.
Proof.
  intros Hok Hg Hinv Hw Hs.
  assert (call_inv hash key t0 (lease_ms (engine g)) (ttl_ms (engine g)) c) as (_ & _ & Hl & _).
  { remember (MkConfig R [] []) as c0 eqn:E. induction Hs as [c|c c1 c2 _ IH Hs]; subst.
    - split_and!; [done | constructor | unfold load, count_if; simpl; lia|]. exists g.
      split; [by split_and! | unfold load, count_if; simpl; lia].
    - eapply call_inv_step; [done | by apply IH | done]. }
  unfold load in Hl. lia.
Qed.

(** C3: at most one backend call per key, under any concurrency.  Start with a
    router whose shard of the key is sound, at a time [t0].  However many
    requests arrive from then on, and however their critical sections
    interleave with each other, with the backend calls, with prune sweeps and
    with crashes and restarts, within one lease (and one time-to-live) of [t0]
    at most one request with the key has reached the backend. *)
Theorem concurrent_single_call {S U} `{DurableLaws S} `{!Upstream U} `{!HashOrder string}
    (hash : string -> Z) (R : Router S U) key g t0 c :
  router_ok R -> shards R !! shard_for_key hash R key = Some g -> engine_inv (engine g) ->
  t0 + ttl_ms (engine g) < 2 ^ 64 ->
  csteps hash (in_lease t0 (saturating_add 64 t0 (lease_ms (engine g))) (ttl_ms (engine g))) (MkConfig R [] []) c ->
  (count_if (bears key) (reached c) <= 1)%nat.
Proof. apply single_call. Qed.
