(* ===== verification/Contention.v ===== *)
(** * The contention test of the router

    [concurrent_same_key_hits_backend_once_under_contention] of [router.rs]: many
    threads send one request at once.  The threads are tasks of [Concurrent], and
    a schedule says which of them runs its next critical section; the test is
    proved for every schedule that lets every thread finish, every number of
    threads and every hash function. *)

From S2P Require Import Prelude Machine Str Decimal BTreeMap HashMap Types Store Engine EngineSpec Suite.
From S2P Require Import Hash Codec Abuse Http Gateway GatewayTests Router RouterTests Concurrent.

#[local] Open Scope string_scope.
#[local] Open Scope Z_scope.

Definition hot : Request := router_post (Some "hot") "10.0.0.1" (str_bytes "x").

Section contention.
Context `{!HashOrder string}.
Context (hash : string -> Z).

(** The thread [j] runs its next critical section. *)
Definition run_thread (st : list Task * Router MemoryStore CountingUpstream) (j : nat)
  : option (list Task * Router MemoryStore CountingUpstream) :=
  let '(tasks, r) := st in
  t ← tasks !! j;
  '(t', r') ← task_step hash r t;
  Some (<[j := t']> tasks, r').

(** [handle.join().unwrap()]. *)
Definition join (t : Task) : option Response :=
  match stage t with Finished response => Some response | _ => None end.

Definition is_status (name : string) (resp : Response) : bool :=
  bool_decide (resp_header resp "Onced-Status" = Some name).

(** The [matches!] of the test. *)
Definition expected_response (resp : Response) : bool :=
  ((resp_status resp =? 201) && is_status "created" resp)
  || ((resp_status resp =? 201) && is_status "replayed" resp)
  || ((resp_status resp =? 409) && is_status "in-progress" resp).

(** One round of the test; the source has 64 threads and 25 rounds. *)
Definition contention_round (threads : nat) (schedule : list nat) : option unit :=
  router ← router 8 [RuleSet_new];
  '(tasks, router) ← for_each schedule (replicate threads (MkTask hot 1000 Arrived), router) run_thread;
  results ← mapM join tasks;
  ensure_router_calls router 1;;
  let created := count_if (is_status "created") results in
  ensure (Nat.eqb created 1);;
  for_all results (fun resp => ensure (expected_response resp)).

Definition concurrent_same_key_hits_backend_once_under_contention (threads : nat) (rounds : list (list nat))
  : option unit :=
  for_all rounds (contention_round threads).

(** ** The key on its shard *)

Definition hot_key : IdempotencyKey := MkKey "hot".
Definition hot_fingerprint : RequestFingerprint := fingerprint_of hot server_key.
Definition ticket (f : Z) : ForwardTicket := MkTicket (Some (MkRunToken hot_key (MkFence f))).
Definition index : nat := key_index hash 8 "hot".

Definition created : Response := tag response "created".
Definition replayed : Response := tag (from_outcome (to_outcome response)) "replayed".
Definition busy : Response := tagged_status 409 "in-progress".

Lemma hot_header : header hot "idempotency-key" = Some "hot".
Proof. reflexivity. Qed.

Lemma shard_busy m f f' mt :
  m !! hot_key = Some (InProgress (MkFence f') hot_fingerprint 31000) ->
  begin_phase (shard m f mt) hot 1000 = (Done busy, shard m f (merge (merge mt one_request) one_in_progress)).
Proof.
  intros Hm. unfold begin_phase. rewrite hot_header. unfold begin. simpl. unfold MemoryStore_get. simpl.
  fold hot_key. rewrite Hm. unfold begin_action. by rewrite decide_True.
Qed.

(** A thread that has not begun on its shard. *)
Definition waiting (s : Stage) : Prop := s = Arrived \/ s = Cleared \/ s = Routed index.

(** Every thread but [j] is at a stage of [Q]. *)
Definition others (Q : Stage -> Prop) (j : nat) (ts : list Task) : Prop :=
  forall k t, k <> j -> ts !! k = Some t -> Q (stage t).

Definition while_held (s : Stage) : Prop := waiting s \/ s = Finished busy.
Definition once_done (s : Stage) : Prop := waiting s \/ s = Finished busy \/ s = Finished replayed.

(** The key is free, held by the thread [j], or completed by it; [m] are the
    records of its shard and [c] the backend calls. *)
Inductive phase (ts : list Task) : gmap IdempotencyKey KeyState -> Z -> Prop :=
| key_free m : m !! hot_key = None -> Forall (fun t => waiting (stage t)) ts -> phase ts m 0
| key_held m c j f t :
    m !! hot_key = Some (InProgress (MkFence f) hot_fingerprint 31000) -> ts !! j = Some t ->
    (stage t = Forwarding index (ticket f) /\ c = 0 \/ stage t = Answered index (ticket f) (Ok response) /\ c = 1) ->
    others while_held j ts -> phase ts m c
| key_done m j t :
    m !! hot_key = Some (Completed hot_fingerprint (to_outcome response) 1000) -> ts !! j = Some t ->
    stage t = Finished created -> others once_done j ts -> phase ts m 1.

Definition is_hot (t : Task) : Prop := request t = hot /\ arrived_at t = 1000.

(** The state of a round. *)
Definition contended (ts : list Task) (R : Router MemoryStore CountingUpstream) : Prop :=
  Forall is_hot ts /\
  exists m f mt c, router_inv R 8 (fun k => k = hot_key) c RuleSet_new /\
    shards R !! index = Some (shard m f mt) /\ phase ts m c.

Lemma others_insert (Q : Stage -> Prop) j k ts t : others Q j ts -> Q (stage t) -> others Q j (<[k := t]> ts).
Proof.
  intros Ho Ht i t' Hi. destruct (decide (i = k)) as [->|Hne].
  - intros E. apply list_lookup_insert_Some in E as [(_ & <- & _)|[? _]]; done.
  - rewrite list_lookup_insert_ne by done. by apply Ho.
Qed.

Lemma others_self (Q : Stage -> Prop) j ts t : others Q j ts -> others Q j (<[j := t]> ts).
Proof. intros Ho i t' Hi. rewrite list_lookup_insert_ne by done. by apply Ho. Qed.

Lemma others_weaken (Q Q' : Stage -> Prop) j ts : (forall s, Q s -> Q' s) -> others Q j ts -> others Q' j ts.
Proof. intros HQ Ho i t Hi Ht. eapply HQ, Ho; eauto. Qed.

(** A thread that does not hold the key moves within the stages that the phase
    allows it. *)
Lemma phase_move ts m c j t t' :
  phase ts m c -> ts !! j = Some t -> waiting (stage t) ->
  (waiting (stage t') \/ (m !! hot_key <> None /\ while_held (stage t')) \/
   (exists fp o at_ms, m !! hot_key = Some (Completed fp o at_ms)) /\ once_done (stage t')) ->
  phase (<[j := t']> ts) m c.
Proof.
  intros Hp Hj Hw Ht'. destruct Hp as [m Hm Hall|m c i f t0 Hm Hi Hst Ho|m i t0 Hm Hi Hst Ho].
  - apply key_free; [done|]. apply Forall_insert; [done|].
    destruct Ht' as [?|[[? _]|[(? & ? & ? & E) _]]]; [done | done | by rewrite Hm in E].
  - assert (i <> j) as Hne by (intros ->; simplify_eq; destruct Hst as [[E _]|[E _]]; rewrite E in Hw; by destruct Hw as [?|[?|?]]).
    apply (key_held _ m c i f t0); [done | by rewrite list_lookup_insert_ne | done|].
    apply others_insert; [done|]. destruct Ht' as [?|[[_ ?]|[(? & ? & ? & E) _]]]; [by left | done | by rewrite Hm in E].
  - assert (i <> j) as Hne by (intros ->; simplify_eq; rewrite Hst in Hw; by destruct Hw as [?|[?|?]]).
    apply (key_done _ m i t0); [done | by rewrite list_lookup_insert_ne | done|].
    apply others_insert; [done|]. unfold once_done, while_held in *. tauto.
Qed.

(** How many critical sections a thread still has. *)
Definition remaining (s : Stage) : nat :=
  match s with
  | Arrived => 5
  | Cleared => 4
  | Routed _ => 3
  | Forwarding _ _ => 2
  | Answered _ _ _ => 1
  | Finished _ => 0
  end.

(** What a critical section of thread [j] has to establish. *)
Definition advances (ts : list Task) (R : Router MemoryStore CountingUpstream) (j : nat) (s : Stage) : Prop :=
  exists s' R', task_step hash R (MkTask hot 1000 s) = Some (MkTask hot 1000 s', R') /\
    contended (<[j := MkTask hot 1000 s']> ts) R' /\ (remaining s' <= remaining s - 1)%nat.

Lemma hot_insert ts j s : Forall is_hot ts -> Forall is_hot (<[j := MkTask hot 1000 s]> ts).
Proof. intros Hh. by apply Forall_insert. Qed.

Lemma arrived_advances ts R j :
  contended ts R -> ts !! j = Some (MkTask hot 1000 Arrived) -> advances ts R j Arrived.
Proof.
  intros (Hh & m & f & mt & c & HR & Hg & Hp) Hj. unfold advances, task_step. cbn [stage request arrived_at].
  change (operational_response R hot) with (@None Response).
  rewrite (post_denial hash "hot" "10.0.0.1" 1000 R 8 _ c RuleSet_new Verdict_Allow RuleSet_new HR eq_refl), bind_some.
  do 2 eexists. split; [done|]. split; [|simpl; lia]. split; [by apply hot_insert|].
  exists m, f, mt, c. split_and!; [by destruct HR; split | done|].
  eapply phase_move; [done | done | by left | left; right; by left].
Qed.

Lemma cleared_advances ts R j :
  contended ts R -> ts !! j = Some (MkTask hot 1000 Cleared) -> advances ts R j Cleared.
Proof.
  intros (Hh & m & f & mt & c & HR & Hg & Hp) Hj. unfold advances, task_step. cbn [stage request arrived_at].
  assert (route_shard hash R hot = (index, R)) as ->.
  { unfold route_shard. rewrite hot_header. unfold shard_for_key, len. by rewrite (ri_length _ _ _ _ _ HR). }
  do 2 eexists. split; [done|]. split; [|simpl; lia]. split; [by apply hot_insert|].
  exists m, f, mt, c. split_and!; [done | done|].
  eapply phase_move; [done | done | right; by left | left; right; by right].
Qed.

(** An update of the shard of the key. *)
Lemma set_hot_shard R c c' m f mt :
  router_inv R 8 (fun k => k = hot_key) c RuleSet_new -> (forall k st, m !! k = Some st -> k = hot_key) ->
  let R' := MkRouter (<[index := shard m f mt]> (shards R)) (abuse R) (counting c') (router_denied R) (next_shard R) in
  router_inv R' 8 (fun k => k = hot_key) c' RuleSet_new /\ shards R' !! index = Some (shard m f mt).
Proof.
  intros [Hl Hn Hs Ha Hu] Hm R'. split.
  - split; cbn [R' shards abuse router_upstream]; [by rewrite length_insert | done | | done | done].
    apply Forall_insert; [done|]. by exists m, f, mt.
  - cbn [R' shards]. apply list_lookup_insert_eq. rewrite Hl. by apply key_index_lt.
Qed.

Lemma hot_only R c m f mt :
  router_inv R 8 (fun k => k = hot_key) c RuleSet_new -> shards R !! index = Some (shard m f mt) ->
  forall k st, m !! k = Some st -> k = hot_key.
Proof.
  intros HR Hg. destruct (Forall_lookup_1 _ _ _ _ (ri_shards _ _ _ _ _ HR) Hg) as (m' & f' & mt' & E & Hm).
  by injection E as -> -> ->.
Qed.

Lemma insert_hot_only (m : gmap IdempotencyKey KeyState) st :
  (forall k st, m !! k = Some st -> k = hot_key) ->
  forall k st', <[hot_key := st]> m !! k = Some st' -> k = hot_key.
Proof. intros Hm k st' [[<- _]|[_ Hk]]%lookup_insert_Some; [done | by eapply Hm]. Qed.

Lemma routed_advances ts R j :
  contended ts R -> ts !! j = Some (MkTask hot 1000 (Routed index)) -> advances ts R j (Routed index).
Proof.
  intros (Hh & m & f & mt & c & HR & Hg & Hp) Hj. unfold advances, task_step. cbn [stage request arrived_at].
  pose proof (hot_only R c m f mt HR Hg) as Hm. pose proof (ri_upstream _ _ _ _ _ HR) as Hu.
  unfold begin_on. rewrite Hg, bind_some. unfold set_shards. rewrite Hu.
  assert (waiting (Routed index)) as Hw by (by right; right).
  destruct (m !! hot_key) as [st|] eqn:Hk; [|].
  2: { rewrite (shard_begin _ _ _ _ "hot" 1000 hot_header Hk). cbv beta iota zeta.
       change (saturating_add 64 1000 30000) with 31000. fold hot_key hot_fingerprint.
       rewrite bind_some. cbv beta iota. do 2 eexists. split; [done|]. split; [|simpl; lia]. split; [by apply hot_insert|].
       destruct (set_hot_shard R c c (<[hot_key := InProgress (MkFence f) hot_fingerprint 31000]> m) (wrapping_add 64 f 1)
         (merge mt one_request) HR) as [HR' Hg']; [by apply insert_hot_only|].
       eexists _, _, _, c. split_and!; [exact HR' | exact Hg' |].
       inversion Hp as [m' _ Hall|m' c' i f' t Hm' _ _ _|m' i t Hm' _ _ _]; subst; [|by rewrite Hk in Hm'..].
       apply (key_held _ _ 0 j f (MkTask hot 1000 (Forwarding index (ticket f)))).
       - apply lookup_insert_eq.
       - apply list_lookup_insert_eq. by eapply lookup_lt_Some.
       - by left.
       - apply others_self. intros k t _ Ht. left. by apply (Forall_lookup_1 _ _ _ _ Hall Ht). }
  inversion Hp as [m' Hm' _|m' c' i f' t Hm' _ _ _|m' i t Hm' _ _ _]; subst; [by rewrite Hk in Hm'|..].
  - rewrite (shard_busy _ _ f' _ Hm'). cbv beta iota zeta. rewrite bind_some. cbv beta iota.
    do 2 eexists. split; [done|]. split; [|simpl; lia]. split; [by apply hot_insert|].
    destruct (set_hot_shard R c c m f (merge (merge mt one_request) one_in_progress) HR Hm) as [HR' Hg'].
    eexists _, _, _, c. split_and!; [exact HR' | exact Hg'|].
    eapply phase_move; [done | done | done | right; left; split; [by rewrite Hk | by right]].
  - rewrite (shard_retry m f mt hot "hot" _ 1000 1000 hot_header Hm') by done.
    cbv beta iota zeta. rewrite bind_some. cbv beta iota.
    do 2 eexists. split; [done|]. split; [|simpl; lia]. split; [by apply hot_insert|].
    destruct (set_hot_shard R 1 1 m f (merge (merge mt one_request) one_replayed) HR Hm) as [HR' Hg'].
    eexists _, _, _, 1. split_and!; [exact HR' | exact Hg'|].
    eapply phase_move; [done | done | done | right; right; split; [by eauto | by right; right]].
Qed.

(** Only the holder of the key is past [begin]. *)
Lemma holder ts m c j t :
  phase ts m c -> ts !! j = Some t -> ~ waiting (stage t) -> (forall resp, stage t <> Finished resp) ->
  exists f, m !! hot_key = Some (InProgress (MkFence f) hot_fingerprint 31000) /\ others while_held j ts /\
    (stage t = Forwarding index (ticket f) /\ c = 0 \/ stage t = Answered index (ticket f) (Ok response) /\ c = 1).
Proof.
  intros Hp Hj Hw Hf. destruct Hp as [m Hm Hall|m c i f t0 Hm Hi Hst Ho|m i t0 Hm Hi Hst Ho].
  - by destruct Hw; apply (Forall_lookup_1 _ _ _ _ Hall Hj).
  - destruct (decide (j = i)) as [->|Hne]; [simplify_eq; by exists f|].
    destruct (Ho j t Hne Hj) as [?|E]; [done | by apply Hf in E].
  - destruct (decide (j = i)) as [->|Hne]; [simplify_eq; by apply Hf in Hst|].
    destruct (Ho j t Hne Hj) as [?|[E|E]]; [done | by apply Hf in E..].
Qed.

Lemma forwarding_advances ts R j idx tk :
  contended ts R -> ts !! j = Some (MkTask hot 1000 (Forwarding idx tk)) -> advances ts R j (Forwarding idx tk).
Proof.
  intros (Hh & m & f & mt & c & HR & Hg & Hp) Hj. unfold advances, task_step. cbn [stage request arrived_at].
  destruct (holder ts m c j _ Hp Hj) as (f' & Hk & Ho & [[E ->]|[E _]]);
    [intros [?|[?|?]]; done | done | cbn [stage] in E; injection E as -> -> | done].
  rewrite (ri_upstream _ _ _ _ _ HR). cbn [forward CountingUpstream_Upstream counting GatewayTests.status up_body calls].
  change (MkResponse 201 [] (str_bytes "charged")) with response. do 2 eexists. split; [done|].
  split; [|simpl; lia]. split; [by apply hot_insert|]. exists m, f, mt, 1. split_and!; [by destruct HR; split | exact Hg|].
  apply (key_held _ m 1 j f' (MkTask hot 1000 (Answered index (ticket f') (Ok response)))); [done | | by right | by apply others_self].
  apply list_lookup_insert_eq. by eapply lookup_lt_Some.
Qed.

Lemma answered_advances ts R j idx tk fwd :
  contended ts R -> ts !! j = Some (MkTask hot 1000 (Answered idx tk fwd)) -> advances ts R j (Answered idx tk fwd).
Proof.
  intros (Hh & m & f & mt & c & HR & Hg & Hp) Hj. unfold advances, task_step. cbn [stage request arrived_at].
  destruct (holder ts m c j _ Hp Hj) as (f' & Hk & Ho & [[E _]|[E ->]]);
    [intros [?|[?|?]]; done | done | done | cbn [stage] in E; injection E as -> -> ->].
  unfold complete_on. rewrite Hg, bind_some. unfold ticket, hot_key.
  rewrite (shard_complete m f' f mt hot_fingerprint 31000 "hot" 1000 Hk). cbv beta iota zeta. rewrite bind_some. cbv beta iota.
  unfold set_shards. rewrite (ri_upstream _ _ _ _ _ HR).
  do 2 eexists. split; [done|]. split; [|simpl; lia]. split; [by apply hot_insert|]. fold hot_key.
  destruct (set_hot_shard R 1 1 (<[hot_key := Completed hot_fingerprint (to_outcome response) 1000]> m) f
    (merge mt one_created) HR) as [HR' Hg']; [by apply insert_hot_only, (hot_only R 1 m f mt)|].
  eexists _, _, _, 1. split_and!; [exact HR' | exact Hg'|].
  apply (key_done _ _ j (MkTask hot 1000 (Finished created))); [apply lookup_insert_eq | | done|].
  - apply list_lookup_insert_eq. by eapply lookup_lt_Some.
  - apply others_self. eapply others_weaken; [|exact Ho]. unfold once_done, while_held. tauto.
Qed.

Lemma finished_advances ts R j resp :
  contended ts R -> ts !! j = Some (MkTask hot 1000 (Finished resp)) -> advances ts R j (Finished resp).
Proof.
  intros Hc Hj. exists (Finished resp), R. split; [done|]. split; [|simpl; lia]. by rewrite list_insert_id.
Qed.
(** Every critical section of every thread succeeds and brings it closer to its
    end. *)
Lemma thread_advances ts R j t :
  contended ts R -> ts !! j = Some t ->
  exists t' R', run_thread (ts, R) j = Some (<[j := t']> ts, R') /\ contended (<[j := t']> ts) R' /\
    (remaining (stage t') <= remaining (stage t) - 1)%nat.
Proof.
  intros Hc Hj. pose proof (Forall_lookup_1 _ _ _ _ (proj1 Hc) Hj) as [Hr Hn]. destruct t as [r now s].
  cbn [request arrived_at] in Hr, Hn. subst. assert (advances ts R j s) as (s' & R' & E & Hc' & Hrem).
  { destruct s as [| |idx|idx tk|idx tk fwd|resp].
    - by apply arrived_advances.
    - by apply cleared_advances.
    - destruct (decide (idx = index)) as [->|Hne]; [by apply routed_advances|]. exfalso.
      destruct Hc as (_ & m & f & mt & c & _ & _ & Hp).
      assert (forall i, i = idx -> ~ waiting (Routed i)) as Hw by (intros i -> [?|[?|E]]; [done | done | by injection E]).
      destruct (holder ts m c j _ Hp Hj) as (? & _ & _ & [[E _]|[E _]]); [by apply Hw | done | done | done].
    - by apply forwarding_advances.
    - by apply answered_advances.
    - by apply finished_advances. }
  exists (MkTask hot 1000 s'), R'. unfold run_thread. by rewrite Hj, bind_some, E, bind_some.
Qed.

(** Under a schedule, every thread comes as far as it is scheduled. *)
Lemma schedule_runs threads schedule ts R :
  contended ts R -> length ts = threads -> Forall (fun j => j < threads)%nat schedule ->
  exists ts' R', for_each schedule (ts, R) run_thread = Some (ts', R') /\ contended ts' R' /\ length ts' = threads /\
    forall j t t', ts !! j = Some t -> ts' !! j = Some t' ->
      (remaining (stage t') <= remaining (stage t) - count_if (Nat.eqb j) schedule)%nat.
Proof.
  revert ts R; induction schedule as [|j schedule IH]; intros ts R Hc Hl Hs.
  - exists ts, R. split_and!; [done..|]. intros j t t' Ht Ht'. simplify_eq. unfold count_if. simpl. lia.
  - apply Forall_cons in Hs as [Hj Hs]. destruct (lookup_lt_is_Some_2 ts j) as [t Ht]; [lia|].
    destruct (thread_advances ts R j t Hc Ht) as (t1 & R1 & E & Hc1 & Hrem). cbn [for_each]. rewrite E, bind_some.
    destruct (IH (<[j := t1]> ts) R1 Hc1) as (ts' & R' & -> & Hc' & Hl' & Hp); [by rewrite length_insert | done|].
    exists ts', R'. split_and!; [done..|]. intros k tk tk' Hk Hk'. unfold count_if. cbn [List.filter].
    destruct (Nat.eqb_spec k j) as [->|Hne]; cbn [length].
    + simplify_eq. specialize (Hp j t1 tk'). unfold count_if in Hp.
      rewrite list_lookup_insert_eq in Hp by (by eapply lookup_lt_Some). specialize (Hp eq_refl Hk'). lia.
    + apply Hp; [by rewrite list_lookup_insert_ne | done].
Qed.

(** ** The verdict *)

Lemma contended_start threads :
  exists R, router 8 [RuleSet_new] = Some R /\ contended (replicate threads (MkTask hot 1000 Arrived)) R.
Proof.
  destruct (router_start 8 RuleSet_new) as (R & -> & HR & _ & _); [lia|]. exists R. split; [done|].
  split; [by apply Forall_replicate|].
  destruct (lookup_lt_is_Some_2 (shards R) index) as [g Hg].
  { rewrite (ri_length _ _ _ _ _ HR). apply key_index_lt. lia. }
  destruct (Forall_lookup_1 _ _ _ _ (ri_shards _ _ _ _ _ HR) Hg) as (m & f & mt & -> & Hm).
  exists m, f, mt, 0. split_and!; [by eapply inv_weaken; [|exact HR] | done|].
  apply key_free; [|apply Forall_replicate; by left].
  destruct (m !! hot_key) eqn:E; [by apply Hm in E | done].
Qed.

Lemma count_if_none {A} (f : A -> bool) l : (forall k x, l !! k = Some x -> f x = false) -> count_if f l = 0%nat.
Proof.
  unfold count_if. induction l as [|x l IH]; intros Hl; [done|]. cbn [List.filter]. rewrite (Hl 0%nat x eq_refl).
  apply IH. intros k y Hy. by apply (Hl (Datatypes.S k)).
Qed.

Lemma count_if_one {A} (f : A -> bool) l j x :
  l !! j = Some x -> f x = true -> (forall k y, k <> j -> l !! k = Some y -> f y = false) -> count_if f l = 1%nat.
Proof.
  revert j; induction l as [|y l IH]; intros j Hj Hf Hl; [done|]. destruct j as [|j].
  - simplify_eq/=. unfold count_if. cbn [List.filter]. rewrite Hf. cbn [length]. f_equal.
    apply (count_if_none f). intros k y Hy. by apply (Hl (Datatypes.S k)).
  - unfold count_if. cbn [List.filter]. rewrite (Hl 0%nat y) by done.
    apply (IH j); [done | done|]. intros k z Hk Hz. apply (Hl (Datatypes.S k)); [lia | done].
Qed.

(** When every thread has ended, one of them created the outcome. *)
Lemma finished_phase ts m c results :
  phase ts m c -> (0 < length ts)%nat -> mapM join ts = Some results ->
  c = 1 /\ exists j, results !! j = Some created /\
    forall k resp, k <> j -> results !! k = Some resp -> resp = busy \/ resp = replayed.
Proof.
  intros Hp Hl Hr%mapM_Some.
  assert (forall k t, ts !! k = Some t -> exists resp, stage t = Finished resp /\ results !! k = Some resp) as Hfin.
  { intros k t Ht. destruct (Forall2_lookup_l _ _ _ _ _ Hr Ht) as (resp & E & Hj). exists resp. split; [|done].
    unfold join in Hj. by destruct (stage t); simplify_eq. }
  destruct Hp as [m Hm Hall|m c i f t0 Hm Hi Hst Ho|m i t0 Hm Hi Hst Ho].
  - exfalso. destruct (lookup_lt_is_Some_2 ts 0 Hl) as [t Ht]. destruct (Hfin 0%nat t Ht) as (resp & E & _).
    assert (waiting (stage t)) as Hw by apply (Forall_lookup_1 _ _ _ _ Hall Ht). rewrite E in Hw. by destruct Hw as [?|[?|?]].
  - exfalso. destruct (Hfin i t0 Hi) as (resp & E & _). rewrite E in Hst. by destruct Hst as [[? _]|[? _]].
  - split; [done|]. exists i. destruct (Hfin i t0 Hi) as (resp & E & Hres). split; [congruence|].
    intros k resp' Hk Hres'. destruct (Forall2_lookup_r _ _ _ _ _ Hr Hres') as (t & Ht & _).
    destruct (Hfin k t Ht) as (r2 & E2 & Hr2). destruct (Ho k t Hk Ht) as [Hw|Hd]; rewrite E2 in *.
    + by destruct Hw as [?|[?|?]].
    + destruct Hd as [[= ->]|[= ->]]; simplify_eq; auto.
Qed.

(** A schedule of the threads that lets each of them run to its end. *)
Definition completes (threads : nat) (schedule : list nat) : Prop :=
  Forall (fun j => j < threads)%nat schedule /\
  forall j, (j < threads)%nat -> (5 <= count_if (Nat.eqb j) schedule)%nat.

Lemma round_passes threads schedule :
  (0 < threads)%nat -> completes threads schedule -> contention_round threads schedule = Some tt.
Proof.
  intros Ht [Hs Hfair]. unfold contention_round. destruct (contended_start threads) as (R & -> & Hc). rewrite bind_some.
  destruct (schedule_runs threads schedule _ R Hc (length_replicate _ _) Hs) as (ts & R' & -> & Hc' & Hl & Hrem).
  rewrite bind_some. cbv beta iota.
  assert (is_Some (mapM join ts)) as [results Hr].
  { apply mapM_is_Some, Forall_lookup. intros k t Hk. pose proof (lookup_lt_Some _ _ _ Hk) as Hlt. rewrite Hl in Hlt.
    specialize (Hrem k (MkTask hot 1000 Arrived) t). rewrite lookup_replicate_2 in Hrem by done.
    specialize (Hrem eq_refl Hk). specialize (Hfair k Hlt). change (is_Some (join t)). unfold join.
    destruct (stage t); simpl in Hrem; first [by eexists | lia]. }
  destruct Hc' as (_ & m & f & mt & c & HR & _ & Hp).
  destruct (finished_phase ts m c results Hp) as (-> & j & Hj & Ho); [lia | done|].
  rewrite Hr, bind_some. unfold ensure_router_calls. rewrite (ri_upstream _ _ _ _ _ HR), ensure_bind by done. cbv zeta.
  rewrite (count_if_one _ results j created Hj); [| reflexivity |].
  2: { intros k resp Hk Hres. by destruct (Ho k resp Hk Hres) as [->| ->]. }
  rewrite ensure_bind by done. apply for_all_Some, Forall_lookup. intros k resp Hk. apply ensure_true.
  destruct (decide (k = j)) as [->|Hne]; [by simplify_eq|]. by destruct (Ho k resp Hne Hk) as [->| ->].
Qed.

(** C5: the contention test passes under every interleaving.  However many
    threads send the same request at once, and in whatever order their critical
    sections run, as long as each of them is scheduled to its end (five sections
    are enough), no thread panics, the backend is called exactly once, exactly
    one thread is answered [created], and every other is answered with the
    replay of that outcome or told that the request is in progress. *)
Theorem contention_exactly_once threads rounds :
  (0 < threads)%nat -> Forall (completes threads) rounds ->
  concurrent_same_key_hits_backend_once_under_contention threads rounds = Some tt.
Proof.
  intros Ht Hr. apply for_all_Some. eapply Forall_impl; [exact Hr|]. intros schedule. by apply round_passes.
Qed.

End contention.

(** Three threads in lock step. *)
Definition lock_step : list nat := [0; 1; 2; 0; 1; 2; 0; 1; 2; 0; 1; 2; 0; 1; 2]%nat.

Lemma contention_exactly_once_witness :
  @concurrent_same_key_hits_backend_once_under_contention (default_order string) length_hash 3 [lock_step] = Some tt.
Proof.
  assert (Forall (completes 3) [lock_step]) as Hr.
  { apply Forall_singleton. split; [by apply (bool_decide_unpack _); vm_compute|].
    intros [|[|[|j]]] Hj; [vm_compute; lia..|lia]. }
  exact (@contention_exactly_once (default_order string) length_hash 3 [lock_step] ltac:(lia) Hr).
Defined.
