(* ===== verification/GatewayWal.v ===== *)
(** * The gateway and the router over the write-ahead log

    Concrete gateways and routers over a strict [WalStore], at which the
    statements of [GatewaySpec] and [Router] are applied, and an end-to-end run
    of the handler. *)

From S2P Require Import Prelude Machine Str Decimal BTreeMap HashMap Types Store Engine History.
From S2P Require Import EngineSpec Hash Codec Disk Wal WalLog WalSpec Durability EngineWal Abuse Http.
From S2P Require Import Gateway GatewaySpec Retry Router Concurrent.

#[local] Instance gw_key_order : HashOrder IdempotencyKey := default_order IdempotencyKey.
#[local] Instance gw_string_order : HashOrder string := default_order string.

(** A backend that counts its calls and answers with the count. *)
Record Counter := MkCounterBackend { calls : Z }.
#[export] Instance Counter_Upstream : Upstream Counter := fun u _ =>
  (Ok (MkResponse 200 [("x-n", "1"); ("a", "2")]%string (display_uint (calls u))),
   MkCounterBackend (calls u + 1)).

Definition charge (body : string) : Request :=
  MkRequest "POST" "/charge" [("Idempotency-Key", "order-1")]%string (str_bytes body).

Definition gw0 : Gateway WalStore Counter := Gateway_new e0 RuleSet_new (MkCounterBackend 0).

(** Handle three requests with one key: a first, a retry, and another request. *)
Example gateway_run :
  let (r1, g1) := handle gw0 (charge "100") 1000 in
  let (r2, g2) := handle g1 (charge "100") 2000 in
  let (r3, g3) := handle g2 (charge "999") 3000 in
  resp_body r1 = str_bytes "0" /\ resp_body r2 = str_bytes "0" /\ resp_status r3 = 422 /\
  calls (upstream g3) = 1 /\ requests_total (metrics g3) = 3.
Proof. vm_compute. repeat split. Qed.

(** A replay gives back status and body, but the headers of the stored outcome
    are a map: duplicate headers of the original response are lost. *)
Example replay_drops_duplicate_headers :
  let resp := MkResponse 200 [("Set-Cookie", "a=1"); ("Set-Cookie", "b=2")]%string [] in
  resp_headers (from_outcome (to_outcome resp)) = [("Set-Cookie", "b=2")]%string.
Proof. reflexivity. Qed.

(** ** Concrete instances *)

Definition gw1 : Gateway WalStore Counter := MkGateway e1 RuleSet_new (MkCounterBackend 1) metrics_default (replicate 32 x00).
Definition sample_response : Response := MkResponse 200 [("x-id", "7")]%string (str_bytes "ok").

Lemma sample_response_admits :
  admits_outcome (S := WalStore) sample_key (to_outcome sample_response) 2000.
Proof. apply wal_admits_outcome; [unfold wf_outcome, wf_headers; by_eval | by_eval..]. Qed.

Lemma gateway_exactly_once_witness :
  let g := (complete_phase gw1 (MkTicket (Some tok1)) (Ok sample_response) 2000).2 in
  upstream (handle g (charge "100") 3000).2 = upstream g.
Proof.
  destruct (gateway_exactly_once gw1 tok1 sample_response 2000
              (complete_phase gw1 (MkTicket (Some tok1)) (Ok sample_response) 2000).2 []
              (complete_phase gw1 (MkTicket (Some tok1)) (Ok sample_response) 2000).2 (charge "100") 3000)
    as (fp & l & stored & _ & _ & Hu & _).
  - exact e1_inv.
  - by_eval.
  - exact sample_response_admits.
  - reflexivity.
  - vm_compute. reflexivity.
  - reflexivity.
  - apply gsteps_nil.
  - apply Forall_nil_2.
  - vm_compute. reflexivity.
  - vm_compute. reflexivity.
  - vm_compute. discriminate.
  - vm_compute. discriminate.
  - exact Hu.
Defined.

(** The first attempt fails; the retry after its lease is answered by the backend. *)
Lemma failed_attempt_retried_witness :
  let g1 := (complete_phase (begin_phase gw0 (charge "100") 1000).2 (MkTicket (Some tok1)) (Err tt) 1500).2 in
  (handle_after_abuse g1 (charge "100") 20000).1 = tagged_status 409 "in-progress" /\
  resp_body (handle_after_abuse g1 (charge "100") 31000).1 = str_bytes "0".
Proof.
  set (g1 := (complete_phase _ _ _ _).2).
  assert (request_ok gw0 (charge "100")) as Hok by (intros key [= <-]; apply wal_admits_request; by_eval).
  split.
  - apply (failed_attempt_retried gw0 (charge "100") "order-1" 1000 (MkTicket (Some tok1)) (Err tt) 1500 g1 g1 20000);
      [exact e0_inv | by_eval | exact Hok | reflexivity | vm_compute; reflexivity | exact I | reflexivity | by left
      | by_eval | vm_compute; reflexivity].
  - destruct (failed_attempt_retried gw0 (charge "100") "order-1" 1000 (MkTicket (Some tok1)) (Err tt) 1500 g1 g1 31000)
      as [_ Hr]; [exact e0_inv | by_eval | exact Hok | reflexivity | vm_compute; reflexivity | exact I | reflexivity
                 | by left | by_eval |].
    destruct (Hr (MkResponse 200 [("x-n", "1"); ("a", "2")]%string (str_bytes "0")) (MkCounterBackend 1)) as [-> _];
      [vm_compute; discriminate | reflexivity | reflexivity | | reflexivity].
    apply wal_admits_outcome; [unfold wf_outcome, wf_headers; by_eval | by_eval..].
Defined.

Lemma fingerprint_binds_request_witness :
  (method (charge "1") = method (charge "1") /\ target (charge "1") = target (charge "1") /\
   req_body (charge "1") = req_body (charge "1")) \/
  (canonical (charge "1") <> canonical (charge "1") /\
   hmac_sha256 [] (canonical (charge "1")) = hmac_sha256 [] (canonical (charge "1"))).
Proof. apply (fingerprint_binds_request (charge "1") (charge "1") []); by_eval || reflexivity. Defined.

Lemma metrics_balance_witness :
  let m := metrics (handle_all gw0 [(charge "100", 1000); (charge "100", 2000)]) in
  requests_total m = answered m /\ 0 <= denied m /\ requests_total m + denied m <= 2.
Proof.
  apply (metrics_balance gw0 [(charge "100", 1000); (charge "100", 2000)]).
  - reflexivity.
  - reflexivity.
Defined.

Definition one_hash (s : string) : Z := 0.

Definition router1 : Router WalStore Counter := MkRouter [gw1] [RuleSet_new] (MkCounterBackend 1) 0 0.
Definition router2 : Router WalStore Counter :=
  set_shards router1 [(complete_phase gw1 (MkTicket (Some tok1)) (Ok sample_response) 2000).2].

Lemma router_exactly_once_witness :
  exists resp R, router_handle one_hash router2 (charge "100") 3000 = Some (resp, R) /\
    router_upstream R = router_upstream router2.
Proof.
  destruct (router_exactly_once one_hash router1 "order-1" gw1 tok1 sample_response 2000 router2 []
              router2 (charge "100") 3000) as (fp & l & resp & R & _ & Hr & Hu & _).
  - split; discriminate.
  - reflexivity.
  - exact e1_inv.
  - by_eval.
  - exact sample_response_admits.
  - reflexivity.
  - reflexivity.
  - vm_compute. reflexivity.
  - vm_compute. reflexivity.
  - apply rsteps_nil.
  - apply Forall_nil_2.
  - vm_compute. reflexivity.
  - vm_compute. reflexivity.
  - vm_compute. reflexivity.
  - exists resp, R. split; [exact Hr | exact Hu].
Defined.

Definition router0 : Router WalStore Counter := MkRouter [gw0] [RuleSet_new] (MkCounterBackend 0) 0 0.
Definition router0' : Router WalStore Counter := set_shards router0 [(begin_phase gw0 (charge "100") 1000).2].

Lemma router_single_flight_witness :
  exists resp R, router_handle one_hash router0' (charge "999") 20000 = Some (resp, R) /\
    router_upstream R = router_upstream router0'.
Proof.
  destruct (router_single_flight one_hash router0 "order-1" gw0 (charge "100") 1000 (MkTicket (Some tok1))
              router0' [] router0' (charge "999") 20000) as (resp & R & Hr & Hu & _).
  - split; discriminate.
  - reflexivity.
  - exact e0_inv.
  - by_eval.
  - intros key [= <-]. apply wal_admits_request; by_eval.
  - reflexivity.
  - vm_compute. reflexivity.
  - vm_compute. reflexivity.
  - apply rsteps_nil.
  - apply Forall_nil_2.
  - reflexivity.
  - vm_compute. reflexivity.
  - split; [vm_compute; discriminate | vm_compute; reflexivity].
  - exists resp, R. split; [exact Hr | exact Hu].
Defined.

(** ** Two concurrent requests with one key *)

#[local] Instance Request_eq_dec : EqDecision Request.
Proof. solve_decision. Defined.

(** Let task [j] run its next critical section. *)
Definition advance (j : nat) (c : Config WalStore Counter) : option (Config WalStore Counter) :=
  t ← tasks c !! j;
  '(t', R) ← task_step one_hash (running c) t;
  Some (MkConfig R (<[j := t']> (tasks c)) (reached c ++ called t)).

(** Such a section of the sample request, short of the completion, is a step. *)
Definition sample_section (j : nat) (c : Config WalStore Counter) : bool :=
  forallb (fun g => bool_decide (fingerprint_key g = replicate 32 x00)) (shards (running c)) &&
  match tasks c !! j with
  | Some t => bool_decide (request t = charge "100") && match stage t with Answered _ _ _ => false | _ => true end
  | None => false
  end.

Fixpoint schedule_run (js : list nat) (c : Config WalStore Counter) : option (Config WalStore Counter) :=
  match js with
  | [] => Some c
  | j :: js => if sample_section j c then c ← advance j c; schedule_run js c else None
  end.

Lemma advance_step P j c c' : sample_section j c = true -> advance j c = Some c' -> cstep one_hash P c c'.
Proof.
  intros Hok Ha. apply andb_true_iff in Hok as [Hkeys Ht]. unfold advance in Ha. destruct c as [R ts cs]. simpl in *.
  destruct (ts !! j) as [t|] eqn:Hj; [|done]. simpl in Ha. apply andb_true_iff in Ht as [Hr%bool_decide_eq_true Hst].
  destruct (task_step one_hash R t) as [[t' R']|] eqn:Es; [|done]. injection Ha as <-.
  apply c_task; [done | | done]. split.
  - apply Forall_forall. intros g Hg key Hk. rewrite Hr in *. injection Hk as <-.
    apply list_elem_of_In in Hg. rewrite forallb_forall in Hkeys. apply Hkeys, bool_decide_eq_true in Hg. rewrite Hg.
    apply wal_admits_request; by_eval.
  - intros idx tk f E. by rewrite E in Hst.
Qed.

Lemma schedule_steps P js c0 c c' :
  csteps one_hash P c0 c -> schedule_run js c = Some c' -> csteps one_hash P c0 c'.
Proof.
  revert c; induction js as [|j js IH]; intros c Hc Hr; simpl in Hr; [by simplify_eq|].
  destruct (sample_section j c) eqn:Hok; [|done]. destruct (advance j c) as [c1|] eqn:Ha; [|done].
  eapply IH; [|exact Hr]. eapply csteps_snoc; [done | by eapply advance_step].
Qed.

Definition two_requests : Config WalStore Counter :=
  MkConfig router0 [MkTask (charge "100") 1000 Arrived; MkTask (charge "100") 1500 Arrived] [].

(** The second request runs its sections around those of the first and is told
    to wait; the first has reached the backend. *)
Lemma concurrent_single_call_witness :
  match schedule_run [0; 1; 0; 0; 1; 1; 0]%nat two_requests with
  | Some c => (count_if (bears "order-1") (reached c) <= 1)%nat /\ reached c = [charge "100"] /\
              map stage (tasks c) !! 1%nat = Some (Finished (tagged_status 409 "in-progress"))
  | None => False
  end.
Proof.
  assert (match schedule_run [0; 1; 0; 0; 1; 1; 0]%nat two_requests with
          | Some c => reached c = [charge "100"] /\
              map stage (tasks c) !! 1%nat = Some (Finished (tagged_status 409 "in-progress"))
          | None => False
          end) as Hc by (vm_compute; split; reflexivity).
  destruct (schedule_run [0; 1; 0; 0; 1; 1; 0]%nat two_requests) as [c|] eqn:E; [|exact Hc]. split; [|exact Hc].
  apply (concurrent_single_call one_hash router0 "order-1" gw0 1000 c).
  - split; discriminate.
  - reflexivity.
  - exact e0_inv.
  - vm_compute. reflexivity.
  - eapply schedule_steps; [|exact E].
    eapply csteps_snoc; [eapply csteps_snoc; [apply csteps_nil|]|];
      [apply (c_arrive _ _ router0 [] [] (charge "100") 1000) | apply (c_arrive _ _ router0 [_] [] (charge "100") 1500)];
      (split; vm_compute; [discriminate | reflexivity]).
Defined.

Lemma router_total_and_stable_witness :
  is_Some (router_handle one_hash router1 (charge "100") 3000).
Proof.
  apply (router_total_and_stable one_hash [gw1] [RuleSet_new] (MkCounterBackend 1) router1 [] router1
           (charge "100") 3000 "order-1").
  - reflexivity.
  - apply rsteps_nil.
Defined.
