(* ===== verification/HttpSpec.v ===== *)
(** * Parsing what was written ([onced-gateway/src/http.rs])

    A well-formed request that is forwarded is parsed by the receiver as the
    same request: same method, target and body, and the same headers up to the
    two that the serializer owns. *)

From S2P Require Import Prelude Machine Str Decimal Codec Http.

(** ** UTF-8 *)

Lemma utf8_valid_app a b : utf8_valid a = true -> utf8_valid (a ++ b) = utf8_valid b.
Proof.
  remember (length a) as n eqn:Hn. assert (length a <= n)%nat as Hle by lia. clear Hn.
  revert a Hle; induction n as [|n IH]; intros a Hle Hv.
  - by destruct a; [|simpl in Hle; lia].
  - destruct a as [|b0 a]; [done|]. cbn [app utf8_valid] in *. simpl in Hle.
    destruct (byte_in 0 127 b0); [apply IH; [lia | done]|].
    destruct a as [|b1 a]; [done|]. cbn [app] in *. simpl in Hle.
    destruct (byte_in 194 223 b0).
    { apply andb_true_iff in Hv as [-> Hv]. apply IH; [lia | done]. }
    destruct a as [|b2 a]; [done|]. cbn [app] in *. simpl in Hle.
    destruct (byte_in 224 239 b0).
    { apply andb_true_iff in Hv as [-> Hv]. apply IH; [lia | done]. }
    destruct a as [|b3 a]; [done|]. cbn [app] in *. simpl in Hle.
    apply andb_true_iff in Hv as [-> Hv]. apply IH; [lia | done].
Qed.

Lemma is_str_app s t : is_str s -> is_str t -> is_str (s +:+ t).
Proof. unfold is_str. intros Hs Ht. by rewrite str_bytes_app, utf8_valid_app. Qed.

(** ** Lines *)

Definition no_crlf (l : list byte) : Prop := (CR ∉ l) /\ (LF ∉ l).

Lemma split_once_app sep x y : (sep ∉ x) -> split_once sep (x ++ sep :: y) = Some (x, y).
Proof.
  induction x as [|b x IH]; intros Hn; cbn [app split_once]; [by rewrite bool_decide_true|].
  apply not_elem_of_cons in Hn as [Hb Hn]. rewrite bool_decide_false by done. by rewrite IH.
Qed.

Lemma split_app sep x y : (sep ∉ x) -> split sep (x ++ sep :: y) = x :: split sep y.
Proof.
  induction x as [|b x IH]; intros Hn; cbn [app split]; [by rewrite bool_decide_true|].
  apply not_elem_of_cons in Hn as [Hb Hn]. rewrite bool_decide_false by done. by rewrite IH.
Qed.

Lemma read_line_crlf l rest :
  no_crlf l -> utf8_valid l = true -> read_line (l ++ CRLF ++ rest) = Ok (l ++ CRLF, rest).
Proof.
  intros [Hc Hl] Hv. unfold read_line.
  replace (l ++ CRLF ++ rest) with ((l ++ [CR]) ++ LF :: rest) by (unfold CRLF; by rewrite <- app_assoc).
  rewrite split_once_app.
  - rewrite <- app_assoc. simpl app. fold CRLF. by rewrite utf8_valid_app.
  - rewrite elem_of_app, list_elem_of_singleton. by intros [?|?].
Qed.

Lemma strip_crlf fuel l : no_crlf l -> strip fuel [[CR]; [LF]] (reverse l) = reverse l.
Proof.
  intros [Hc Hl]. destruct fuel as [|fuel]; [done|]. cbn [strip].
  assert (prefix_len [[CR]; [LF]] (reverse l) = 0%nat) as ->; [|done].
  destruct (reverse l) as [|b l'] eqn:E; [done|].
  assert (b ∈ l) as Hb by (apply elem_of_reverse; rewrite E; left).
  cbn [prefix_len]. change (take (length [CR]) (b :: l')) with [b].
  change (take (length [LF]) (b :: l')) with [b].
  rewrite !bool_decide_false; [done | by intros [= ->] ..].
Qed.

Lemma trim_crlf_line l : no_crlf l -> trim_crlf (l ++ CRLF) = l.
Proof.
  intros Hn. unfold trim_crlf. rewrite reverse_app. change (reverse CRLF) with [LF; CR].
  replace (length (l ++ CRLF)) with (S (S (length l))) by (rewrite length_app; simpl; lia).
  change (strip (S (S (length l))) [[CR]; [LF]] ([LF; CR] ++ reverse l))
    with (strip (length l) [[CR]; [LF]] (reverse l)).
  rewrite strip_crlf by done. apply reverse_involutive.
Qed.

Lemma line_nonempty l rest : l ++ CRLF ++ rest <> [] /\ l ++ CRLF <> [].
Proof. split; by destruct l. Qed.

(** ** Header lines *)

(** The value of a header line starts after the colon and a blank. *)
Lemma trim_blank v : trim (x20 :: v) = trim v.
Proof. reflexivity. Qed.

(** A header that survives the trip: UTF-8, no line break, no surrounding white
    space, and no colon in the name. *)
Definition wf_header (nv : string * string) : Prop :=
  is_str nv.1 /\ is_str nv.2 /\ no_crlf (str_bytes nv.1) /\ no_crlf (str_bytes nv.2) /\
  (x3a ∉ str_bytes nv.1) /\ trim (str_bytes nv.1) = str_bytes nv.1 /\ trim (str_bytes nv.2) = str_bytes nv.2.

#[export] Instance wf_header_dec nv : Decision (wf_header nv).
Proof. unfold wf_header, no_crlf. apply _. Defined.

Lemma no_crlf_app a b : no_crlf a -> no_crlf b -> no_crlf (a ++ b).
Proof. intros [? ?] [? ?]. unfold no_crlf. rewrite !elem_of_app. tauto. Qed.

Lemma header_line_eq nv : header_line nv = (str_bytes nv.1 ++ x3a :: x20 :: str_bytes nv.2) ++ CRLF.
Proof. unfold header_line. by rewrite <- app_assoc. Qed.

Lemma parse_header_line fuel msg nv rest acc :
  wf_header nv ->
  parse_headers (S fuel) msg (header_line nv ++ rest) acc = parse_headers fuel msg rest (acc ++ [nv]).
Proof.
  intros (Hs1 & Hs2 & Hn1 & Hn2 & Hc & Ht1 & Ht2). rewrite header_line_eq, <- app_assoc.
  set (l := str_bytes nv.1 ++ x3a :: x20 :: str_bytes nv.2).
  assert (no_crlf l) as Hl.
  { apply no_crlf_app; [done|]. apply (no_crlf_app [x3a; x20]); [|done].
    split; rewrite !elem_of_cons, elem_of_nil; intros [?|[?|?]]; done. }
  assert (utf8_valid l = true) as Hu by (unfold l; by rewrite utf8_valid_app).
  cbn [parse_headers]. rewrite read_line_crlf by done.
  rewrite bool_decide_false by apply (line_nonempty l []). rewrite trim_crlf_line by done.
  rewrite bool_decide_false by (unfold l; by destruct (str_bytes nv.1)).
  unfold l. rewrite split_once_app by done. rewrite trim_blank, Ht1, Ht2, !str_of_bytes_of_str.
  by destruct nv.
Qed.

Lemma parse_header_lines hs fuel msg rest acc :
  Forall wf_header hs -> (length hs < fuel)%nat ->
  parse_headers fuel msg (mjoin (map header_line hs) ++ CRLF ++ rest) acc = Ok (acc ++ hs, rest).
Proof.
  intros Hhs. revert fuel acc; induction Hhs as [|nv hs Hnv _ IH]; intros fuel acc Hf;
    (destruct fuel as [|fuel]; [simpl in Hf; lia|]).
  - pose proof (read_line_crlf [] rest (conj (not_elem_of_nil _) (not_elem_of_nil _)) eq_refl) as E.
    change (mjoin (map header_line []) ++ CRLF ++ rest) with ([] ++ CRLF ++ rest).
    cbn [parse_headers]. rewrite E. by rewrite app_nil_r.
  - cbn [map]. change (mjoin (header_line nv :: map header_line hs)) with (header_line nv ++ mjoin (map header_line hs)).
    rewrite <- app_assoc, parse_header_line by done. rewrite IH by (simpl in Hf; lia). by rewrite <- app_assoc.
Qed.

(** ** Digits in headers *)

Lemma digit_ascii b : is_digit b = true -> byte_in 0 127 b = true /\ b <> CR /\ b <> LF.
Proof. destruct b; vm_compute; done. Qed.

Lemma digits_utf8 l : Forall (fun b => is_digit b = true) l -> utf8_valid l = true.
Proof.
  induction 1 as [|b l Hb _ IH]; [done|]. cbn [utf8_valid]. by rewrite (proj1 (digit_ascii b Hb)).
Qed.

Lemma digits_no_crlf l : Forall (fun b => is_digit b = true) l -> no_crlf l.
Proof.
  rewrite Forall_forall. intros Hd. split; intros Hin; by destruct (digit_ascii _ (Hd _ Hin)) as (_ & ? & ?).
Qed.

Definition starts_with_none (ws : list (list byte)) (b : byte) : bool :=
  forallb (fun w => match w with [] => false | h :: _ => bool_decide (h <> b) end) ws.

Lemma prefix_len_zero ws b l : starts_with_none ws b = true -> prefix_len ws (b :: l) = 0%nat.
Proof.
  induction ws as [|w ws IH]; intros H; [done|]. cbn [starts_with_none forallb] in H.
  apply andb_true_iff in H as [Hw H]. cbn [prefix_len]. destruct w as [|h w]; [done|].
  rewrite bool_decide_false; [by apply IH|]. cbn [length take]. apply bool_decide_eq_true in Hw. congruence.
Qed.

Lemma digit_not_space b :
  is_digit b = true -> starts_with_none white_space b = true /\ starts_with_none (map reverse white_space) b = true.
Proof. destruct b; vm_compute; done. Qed.

Lemma prefix_len_nil ws : prefix_len ws [] = 0%nat.
Proof.
  induction ws as [|w ws IH]; [done|]. cbn [prefix_len]. case_bool_decide as Hw; [|done].
  rewrite take_nil in Hw. by subst w.
Qed.

Lemma strip_digits fuel ws l :
  (forall b, is_digit b = true -> starts_with_none ws b = true) ->
  Forall (fun b => is_digit b = true) l -> strip fuel ws l = l.
Proof.
  intros Hws Hl. destruct fuel as [|fuel]; [done|]. cbn [strip].
  destruct Hl as [|b l Hb _]; [by rewrite prefix_len_nil | by rewrite prefix_len_zero by auto].
Qed.

Lemma trim_digits l : Forall (fun b => is_digit b = true) l -> trim l = l.
Proof.
  intros Hl. unfold trim, trim_start, trim_end.
  rewrite (strip_digits _ white_space) by (done || apply digit_not_space).
  rewrite strip_digits; [apply reverse_involutive | apply digit_not_space | by apply Forall_reverse].
Qed.

(** ** The headers the serializer owns *)

Definition content_length_header (n : Z) : string * string :=
  ("Content-Length"%string, str_of_bytes (display_uint n)).

Definition connection_close : string * string := ("Connection"%string, "close"%string).

Lemma wf_content_length n : 0 <= n -> wf_header (content_length_header n).
Proof.
  intros Hn. pose proof (display_uint_digits n Hn) as Hd. unfold wf_header, content_length_header, is_str.
  cbn [fst snd]. rewrite str_bytes_of_bytes.
  refine (conj eq_refl (conj (digits_utf8 _ Hd) (conj _ (conj (digits_no_crlf _ Hd)
           (conj _ (conj eq_refl (trim_digits _ Hd))))))).
  - split; by_eval.
  - by_eval.
Qed.

Lemma wf_connection_close : wf_header connection_close.
Proof. by_eval. Qed.

(** The headers that are forwarded as they are. *)
Definition forwarded_headers (hs : list (string * string)) : list (string * string) :=
  List.filter (fun nv => negb (eq_ignore_ascii_case nv.1 "content-length"
                               || eq_ignore_ascii_case nv.1 "connection")) hs.

Lemma forwarded_wf hs : Forall wf_header hs -> Forall wf_header (forwarded_headers hs).
Proof. rewrite !List.Forall_forall. intros H x Hx%filter_In. exact (H x (proj1 Hx)). Qed.

Lemma find_header_app name hs hs' :
  find_header name hs = None -> find_header name (hs ++ hs') = find_header name hs'.
Proof.
  induction hs as [|[k v] hs IH]; intros H; [done|]. cbn [app find_header] in *.
  by destruct (eq_ignore_ascii_case k name); [|apply IH].
Qed.

Lemma find_forwarded name hs :
  name = "content-length"%string \/ name = "connection"%string ->
  find_header name (forwarded_headers hs) = None.
Proof.
  intros Hn. induction hs as [|[k v] hs IH]; [done|]. unfold forwarded_headers in *. cbn [List.filter fst].
  destruct (eq_ignore_ascii_case k "content-length") eqn:E1; [done|].
  destruct (eq_ignore_ascii_case k "connection") eqn:E2; [done|]. cbn [orb negb find_header].
  by destruct Hn as [-> | ->]; rewrite ?E1, ?E2.
Qed.

(** ** The round trip of a request *)

(** A request line word: not empty, UTF-8, and free of blanks and line breaks. *)
Definition wf_word (s : string) : Prop :=
  s <> ""%string /\ is_str s /\ no_crlf (str_bytes s) /\ (x20 ∉ str_bytes s).

Definition wf_request (r : Request) : Prop :=
  wf_word (method r) /\ wf_word (target r) /\ Forall wf_header (req_headers r) /\
  len (req_body r) <= isize_max.

(** What the receiver of a forwarded request parses. *)
Definition received (r : Request) : Request :=
  MkRequest (method r) (target r)
    (forwarded_headers (req_headers r) ++ [content_length_header (len (req_body r)); connection_close])
    (req_body r).

Definition request_line (m t : string) : list byte :=
  str_bytes m ++ x20 :: str_bytes t ++ x20 :: str_bytes "HTTP/1.1".

Lemma write_request_eq r :
  write_request r =
  request_line (method r) (target r) ++ CRLF ++
  mjoin (map header_line (req_headers (received r))) ++ CRLF ++ req_body r.
Proof.
  unfold write_request, write_headers, received, request_line. cbn [req_headers]. fold (forwarded_headers (req_headers r)).
  rewrite map_app, join_app. cbn [map].
  change (mjoin [header_line (content_length_header (len (req_body r))); header_line connection_close])
    with (header_line (content_length_header (len (req_body r))) ++ header_line connection_close ++ []).
  rewrite app_nil_r. change (header_line connection_close) with (str_bytes "Connection: close" ++ CRLF).
  change (str_bytes " HTTP/1.1") with (x20 :: str_bytes "HTTP/1.1").
  generalize (str_bytes "HTTP/1.1"), (str_bytes "Connection: close"). intros v c.
  repeat (rewrite <- !app_assoc; cbn [app]). reflexivity.
Qed.

Lemma str_bytes_nonempty s : s <> ""%string -> str_bytes s <> [].
Proof. by destruct s. Qed.

Lemma received_content_length r :
  len (req_body r) <= isize_max ->
  (v ← find_header "content-length" (req_headers (received r)); parse_usize v) = Some (len (req_body r)).
Proof.
  intros Hl. unfold received. cbn [req_headers]. rewrite find_header_app by (apply find_forwarded; auto).
  change (find_header "content-length" [content_length_header (len (req_body r)); connection_close])
    with (Some (str_of_bytes (display_uint (len (req_body r))))).
  cbn [mbind option_bind]. unfold parse_usize. rewrite str_bytes_of_bytes.
  apply parse_display_uint; [unfold isize_max, uint_max, len in *; lia | reflexivity].
Qed.

Lemma read_body_app body rest :
  len body <= isize_max -> read_body (len body) (body ++ rest) = Ok (body, rest).
Proof.
  intros Hb. unfold read_body, read_exact. rewrite (proj2 (Z.ltb_ge _ _) Hb). unfold len in *.
  destruct body as [|b body]; [done|].
  rewrite (proj2 (Z.ltb_lt _ _)) by (simpl length; lia).
  rewrite (proj2 (Z.leb_le _ _)) by (rewrite length_app; lia).
  by rewrite Nat2Z.id, take_app_length, drop_app_length.
Qed.

Lemma request_line_wf m t :
  wf_word m -> wf_word t ->
  no_crlf (request_line m t) /\ utf8_valid (request_line m t) = true /\
  split x20 (request_line m t) = [str_bytes m; str_bytes t; str_bytes "HTTP/1.1"].
Proof.
  intros (_ & Hm & Hmn & Hms) (_ & Ht & Htn & Hts). unfold request_line. split_and!.
  - do 2 (apply no_crlf_app; [done | apply (no_crlf_app [x20]); [by_eval|]]).
    by_eval.
  - rewrite utf8_valid_app by done. cbn [utf8_valid]. by rewrite utf8_valid_app.
  - by rewrite !split_app by done.
Qed.

Lemma received_headers_wf r : wf_request r -> Forall wf_header (req_headers (received r)).
Proof.
  intros (_ & _ & Hh & _). apply Forall_app; split; [by apply forwarded_wf|].
  constructor; [apply wf_content_length; unfold len; lia|]. constructor; [apply wf_connection_close | constructor].
Qed.

Lemma header_lines_length hs : (length hs <= length (mjoin (map header_line hs)))%nat.
Proof.
  induction hs as [|nv hs IH]; [done|]. cbn [map].
  change (mjoin (header_line nv :: map header_line hs)) with (header_line nv ++ mjoin (map header_line hs)).
  rewrite length_app, header_line_eq, !length_app. simpl. lia.
Qed.

(** ** The round trip of a response *)

Definition wf_response (r : Response) : Prop :=
  in_uint 16 (resp_status r) /\ Forall wf_header (resp_headers r) /\ len (resp_body r) <= isize_max.

(** What the receiver of a response parses. *)
Definition response_received (r : Response) : Response :=
  MkResponse (resp_status r)
    (content_length_header (len (resp_body r))
       :: List.filter (fun nv => negb (eq_ignore_ascii_case nv.1 "content-length")) (resp_headers r))
    (resp_body r).

Definition status_line (status : Z) : list byte :=
  str_bytes "HTTP/1.1" ++ x20 :: display_uint status ++ x20 :: str_bytes (reason_phrase status).

Lemma write_response_eq r :
  write_response r =
  status_line (resp_status r) ++ CRLF ++
  mjoin (map header_line (resp_headers (response_received r))) ++ CRLF ++ resp_body r.
Proof.
  unfold write_response, write_headers, response_received, status_line. cbn [resp_headers map].
  change (str_bytes "HTTP/1.1 ") with (str_bytes "HTTP/1.1" ++ [x20]).
  match goal with |- context [mjoin (header_line ?a :: ?l)] =>
    change (mjoin (header_line a :: l)) with (header_line a ++ mjoin l) end.
  unfold content_length_header. generalize (str_bytes "HTTP/1.1"). intros v.
  repeat (rewrite <- !app_assoc; cbn [app]). reflexivity.
Qed.

Lemma reason_phrase_ok status :
  no_crlf (str_bytes (reason_phrase status)) /\ utf8_valid (str_bytes (reason_phrase status)) = true.
Proof.
  unfold no_crlf, reason_phrase.
  repeat match goal with |- context [if ?b then _ else _] => destruct b end;
    (split; [by_eval | reflexivity]).
Qed.

Lemma digits_no_blank l : Forall (fun b => is_digit b = true) l -> x20 ∉ l.
Proof. rewrite Forall_forall. intros Hd Hin. by specialize (Hd _ Hin). Qed.

Lemma status_line_ok status :
  0 <= status ->
  no_crlf (status_line status) /\ utf8_valid (status_line status) = true /\
  splitn3 x20 (status_line status) = [str_bytes "HTTP/1.1"; display_uint status; str_bytes (reason_phrase status)].
Proof.
  intros Hs. pose proof (display_uint_digits status Hs) as Hd. destruct (reason_phrase_ok status) as [Hn Hu].
  assert (no_crlf [x20]) as Hb by (by_eval).
  split_and!.
  - apply no_crlf_app; [by_eval | apply (no_crlf_app [x20]); [done|]].
    apply no_crlf_app; [by apply digits_no_crlf | by apply (no_crlf_app [x20])].
  - unfold status_line. rewrite utf8_valid_app by done. cbn [utf8_valid]. rewrite utf8_valid_app by (by apply digits_utf8).
    done.
  - unfold splitn3, status_line. rewrite split_once_app by (by_eval).
    by rewrite split_once_app by (by apply digits_no_blank).
Qed.

Lemma response_headers_wf r : wf_response r -> Forall wf_header (resp_headers (response_received r)).
Proof.
  intros (_ & Hh & _). constructor; [apply wf_content_length; unfold len; lia|].
  rewrite !List.Forall_forall in *. intros x Hx%filter_In. exact (Hh x (proj1 Hx)).
Qed.

Lemma response_content_length r :
  len (resp_body r) <= isize_max ->
  (v ← find_header "content-length" (resp_headers (response_received r)); parse_usize v) = Some (len (resp_body r)).
Proof.
  intros Hl. cbn [response_received resp_headers].
  change (find_header "content-length" (content_length_header (len (resp_body r)) :: _))
    with (Some (str_of_bytes (display_uint (len (resp_body r))))).
  cbn [mbind option_bind]. unfold parse_usize. rewrite str_bytes_of_bytes.
  apply parse_display_uint; [unfold isize_max, uint_max, len in *; lia | reflexivity].
Qed.

Lemma parse_written_response r rest :
  wf_response r -> parse_response (write_response r ++ rest) = Ok (response_received r, rest).
Proof.
  intros Hr. pose proof Hr as (Hs & _ & Hb). destruct (status_line_ok (resp_status r)) as (Hn & Hu & Hsp); [apply Hs|].
  unfold parse_response. rewrite write_response_eq, <- !app_assoc, read_line_crlf by done.
  rewrite bool_decide_false by apply (line_nonempty _ []). rewrite trim_crlf_line, Hsp by done.
  cbn [lookup list_lookup mbind option_bind]. unfold parse_u16.
  rewrite parse_display_uint by (unfold in_uint, uint_max in *; simpl in *; lia).
  rewrite parse_header_lines; [| by apply response_headers_wf |].
  - cbn [app]. rewrite response_content_length by done. by rewrite read_body_app.
  - rewrite length_app. pose proof (header_lines_length (resp_headers (response_received r))). lia.
Qed.

(** C26: a response is parsed back.  For a response with a 16-bit status, headers
    without line breaks, surrounding white space or colons in their names, and a
    body a vector can hold, [parse_response] of what [write_response] sends gives
    the same status and body, the actual Content-Length first and then the other
    headers in their order, and consumes exactly the response. *)
Theorem response_roundtrip r rest :
  wf_response r -> parse_response (write_response r ++ rest) = Ok (response_received r, rest).
Proof. apply parse_written_response. Qed.

Definition sample_response : Response :=
  MkResponse 201 [("X-A", "b"); ("CONTENT-LENGTH", "999")]%string (str_bytes "hi").

Lemma response_roundtrip_witness :
  wf_response sample_response /\
  parse_response (write_response sample_response ++ str_bytes "next") =
  Ok (MkResponse 201 [("Content-Length", "2"); ("X-A", "b")]%string (str_bytes "hi"), str_bytes "next").
Proof.
  assert (wf_response sample_response) as H.
  { unfold wf_response. by_eval. }
  split; [exact H|]. exact (response_roundtrip sample_response (str_bytes "next") H).
Defined.

(** ** The round trip theorem of a request *)

(** The declared length of the body. *)
Definition content_length_of (hs : list (string * string)) : Z :=
  default 0 (v ← find_header "content-length" hs; parse_usize v).

(** The request that the body completes. *)
Definition with_body (m t : string) (hs : list (string * string)) (x : list byte)
  : result (option (Request * list byte)) HttpError :=
  match read_body (content_length_of hs) x with
  | Err e => Err e
  | Ok (body, rest) => Ok (Some (MkRequest m t hs body, rest))
  end.

(** A request line, and header lines that the header loop accepts. *)
Lemma parse_request_line m t r hs x :
  wf_word m -> wf_word t ->
  parse_headers (S (length r)) "malformed header line" r [] = Ok (hs, x) ->
  parse_request (request_line m t ++ CRLF ++ r) = with_body m t hs x.
Proof.
  intros Hm Ht Hh. destruct (request_line_wf m t Hm Ht) as (Hn & Hu & Hsp).
  unfold parse_request. rewrite read_line_crlf by done. rewrite bool_decide_false by apply (line_nonempty _ []).
  rewrite trim_crlf_line, Hsp by done. cbn [lookup list_lookup from_option id].
  rewrite !bool_decide_false by (apply str_bytes_nonempty; (apply Hm || apply Ht)). cbn [orb].
  rewrite Hh. unfold with_body, content_length_of. by rewrite !str_of_bytes_of_str.
Qed.

(** The head of a request up to its blank line. *)
Lemma parse_request_head m t hs x :
  wf_word m -> wf_word t -> Forall wf_header hs ->
  parse_request (request_line m t ++ CRLF ++ mjoin (map header_line hs) ++ CRLF ++ x) = with_body m t hs x.
Proof.
  intros Hm Ht Hh. apply parse_request_line; [done..|]. apply parse_header_lines; [done|].
  rewrite length_app. pose proof (header_lines_length hs). lia.
Qed.

(** A head that ends with a header line and has no blank line: the header loop
    takes the end of the input for the end of the head. *)
Lemma parse_request_cut m t hs :
  wf_word m -> wf_word t -> Forall wf_header hs ->
  parse_request (request_line m t ++ CRLF ++ mjoin (map header_line hs)) = with_body m t hs [].
Proof.
  intros Hm Ht Hh. apply parse_request_line; [done..|].
  assert (forall fuel acc, (length hs < fuel)%nat ->
    parse_headers fuel "malformed header line" (mjoin (map header_line hs)) acc = Ok (acc ++ hs, [])) as H.
  { induction Hh as [|nv hs Hnv _ IH]; intros fuel acc Hf; (destruct fuel as [|fuel]; [simpl in Hf; lia|]).
    - by rewrite app_nil_r.
    - cbn [map]. change (mjoin (header_line nv :: map header_line hs)) with (header_line nv ++ mjoin (map header_line hs)).
      rewrite parse_header_line by done. rewrite IH by (simpl in Hf; lia). by rewrite <- app_assoc. }
  apply (H _ []). pose proof (header_lines_length hs). lia.
Qed.

Lemma received_length r : len (req_body r) <= isize_max -> content_length_of (req_headers (received r)) = len (req_body r).
Proof. intros Hb. unfold content_length_of. by rewrite received_content_length. Qed.

Lemma parse_written_request r rest :
  wf_request r -> parse_request (write_request r ++ rest) = Ok (Some (received r, rest)).
Proof.
  intros Hr. pose proof Hr as (Hm & Ht & _ & Hb). rewrite write_request_eq, <- !app_assoc.
  rewrite parse_request_head by (done || by apply received_headers_wf).
  unfold with_body. rewrite received_length by done. by rewrite read_body_app.
Qed.

(** C25: a forwarded request is parsed back by its receiver.  For a request
    whose method and target are non-empty words without blanks or line breaks,
    whose headers have no line break, no surrounding white space and no colon in
    the name, and whose body is no longer than a vector can be, parsing what [write_request]
    sends gives the same method, target and body, the client's headers other
    than Content-Length and Connection in their order, then the actual
    Content-Length and [Connection: close]; exactly the bytes of the request are
    consumed, whatever follows.  So no header value can shift the boundary of
    the body. *)
Theorem request_roundtrip r rest :
  wf_request r -> parse_request (write_request r ++ rest) = Ok (Some (received r, rest)).
Proof. apply parse_written_request. Qed.

Definition sample_forward : Request :=
  MkRequest "POST" "/charge?x=1"
    [("Idempotency-Key", "k-1"); ("content-length", "999"); ("CONNECTION", "keep-alive")]%string
    (str_bytes "hello").

Lemma request_roundtrip_witness :
  wf_request sample_forward /\
  parse_request (write_request sample_forward ++ str_bytes "next") =
  Ok (Some (MkRequest "POST" "/charge?x=1"
              [("Idempotency-Key", "k-1"); ("Content-Length", "5"); ("Connection", "close")]%string
              (str_bytes "hello"), str_bytes "next")).
Proof.
  assert (wf_request sample_forward) as H.
  { unfold wf_request, wf_word, no_crlf. by_eval. }
  split; [exact H|]. exact (request_roundtrip sample_forward (str_bytes "next") H).
Defined.
