(* ===== verification/Fuzz.v ===== *)
(** * The fuzz targets ([fuzz/fuzz_targets])

    What the targets look for by mutation is settled for every input: the record
    decoder stays inside its buffer, and the request parser ends without reading
    past its input; it panics on exactly the requests that declare a body longer
    than a vector can be.  [header_loop] is the header loop of the parsers
    without a bound on its iterations. *)

From S2P Require Import Prelude Machine Str Decimal Types Codec Suite Http HttpSpec.

Definition fuzz_decode_record (data : list byte) : option unit :=
  match decode_record data with
  | Some (consumed, _key, _state, _chain) => ensure (consumed <=? len data)
  | None => Some tt
  end.

Definition fuzz_parse_request (data : list byte) : option unit :=
  match parse_request data with
  | Err CapacityOverflow => None
  | _ => Some tt
  end.

(** ** The header loop *)

Inductive header_loop (message : string)
  : list byte -> list (string * string) -> result (list (string * string) * list byte) HttpError -> Prop :=
| loop_unreadable r hs e : read_line r = Err e -> header_loop message r hs (Err e)
| loop_eof r hs rest : read_line r = Ok ([], rest) -> header_loop message r hs (Ok (hs, rest))
| loop_blank r hs line rest :
    read_line r = Ok (line, rest) -> line <> [] -> trim_crlf line = [] -> header_loop message r hs (Ok (hs, rest))
| loop_malformed r hs line rest :
    read_line r = Ok (line, rest) -> trim_crlf line <> [] -> split_once x3a (trim_crlf line) = None ->
    header_loop message r hs (Err (Invalid message))
| loop_header r hs line rest name value res :
    read_line r = Ok (line, rest) -> trim_crlf line <> [] -> split_once x3a (trim_crlf line) = Some (name, value) ->
    header_loop message rest (hs ++ [(str_of_bytes (trim name), str_of_bytes (trim value))]) res ->
    header_loop message r hs res.

Lemma split_once_Some sep l x y : split_once sep l = Some (x, y) -> l = x ++ sep :: y.
Proof.
  revert x; induction l as [|b l IH]; intros x; [done|]. cbn [split_once]. case_bool_decide as Hb.
  - intros; simplify_eq. done.
  - intros ([x' y'] & E & [= <- <-])%bind_Some. by rewrite (IH x').
Qed.

(** A line is a front part of the input. *)
Lemma read_line_front r line rest : read_line r = Ok (line, rest) -> r = line ++ rest.
Proof.
  unfold read_line. destruct (split_once LF r) as [[x y]|] eqn:E; cbv beta iota; (destruct (utf8_valid _); [|done]);
    intros; simplify_eq.
  - apply split_once_Some in E as ->. by rewrite <- app_assoc.
  - by rewrite app_nil_r.
Qed.

Lemma trim_crlf_nil : trim_crlf [] = [].
Proof. reflexivity. Qed.

(** The fuel that the parsers give is enough: the loop of the source ends, with
    this result. *)
Lemma parse_headers_loop message fuel r hs :
  (length r < fuel)%nat -> header_loop message r hs (parse_headers fuel message r hs).
Proof.
  revert r hs; induction fuel as [|fuel IH]; intros r hs Hf; [lia|]. cbn [parse_headers].
  destruct (read_line r) as [[line rest]|e] eqn:El; [|by constructor].
  pose proof (read_line_front r line rest El) as ->. rewrite length_app in Hf.
  case_bool_decide as Hl; [subst; by apply loop_eof|]. cbv zeta.
  case_bool_decide as Ht; [by eapply loop_blank|].
  destruct (split_once x3a (trim_crlf line)) as [[name value]|] eqn:Es; [|by eapply loop_malformed].
  eapply loop_header; [done..|]. apply IH. destruct line; [done | simpl in *; lia].
Qed.

Lemma header_loop_det message r hs res res' :
  header_loop message r hs res -> header_loop message r hs res' -> res = res'.
Proof.
  pose proof trim_crlf_nil. intros Hl. revert res'. 
  induction Hl; inversion 1; subst;
    repeat match goal with H : ?x = Ok _, H' : ?x = _ |- _ => rewrite H in H' end; simplify_eq; (congruence || eauto).
Qed.

Lemma header_loop_front message r hs hs' rest :
  header_loop message r hs (Ok (hs', rest)) -> exists head, r = head ++ rest.
Proof.
  intros Hl. remember (Ok (hs', rest)) as res eqn:Er. induction Hl; simplify_eq.
  - eexists. by apply read_line_front.
  - eexists. by apply read_line_front.
  - destruct (IHHl eq_refl) as [head ->]. exists (line ++ head). rewrite <- app_assoc. by apply read_line_front.
Qed.

(** ** The parser *)

(** The head of a request: its header lines, and what follows them. *)
Definition request_head (data : list byte) (hs : list (string * string)) (rest : list byte) : Prop :=
  exists line r, read_line data = Ok (line, r) /\ line <> [] /\
    default [] (split x20 (trim_crlf line) !! 0%nat) <> [] /\
    default [] (split x20 (trim_crlf line) !! 1%nat) <> [] /\
    header_loop "malformed header line" r [] (Ok (hs, rest)).

Lemma request_head_front data hs rest : request_head data hs rest -> exists head, data = head ++ rest.
Proof.
  intros (line & r & Hl & _ & _ & _ & Hh). apply header_loop_front in Hh as [head ->].
  exists (line ++ head). rewrite <- app_assoc. by apply read_line_front.
Qed.

(** After a head only the body decides. *)
Lemma parse_with_head data hs rest :
  request_head data hs rest ->
  match read_body (content_length_of hs) rest with
  | Err e => parse_request data = Err e
  | Ok (body, rest') => exists m t, parse_request data = Ok (Some (MkRequest m t hs body, rest'))
  end.
Proof.
  intros (line & r & Hl & Hne & Hm & Ht & Hh). unfold parse_request. rewrite Hl, bool_decide_false by done. cbv zeta.
  rewrite !bool_decide_false by done. cbn [orb].
  rewrite (header_loop_det _ _ _ _ _ (parse_headers_loop "malformed header line" (S (length r)) r [] ltac:(lia)) Hh).
  fold (content_length_of hs). destruct (read_body (content_length_of hs) rest) as [[body rest']|e]; [by eexists _, _ | done].
Qed.

(** Without one there is no request and no panic. *)
Lemma parse_without_head data :
  (exists hs rest, request_head data hs rest) \/ parse_request data = Ok None \/
  exists e, parse_request data = Err e /\ e <> CapacityOverflow.
Proof.
  unfold parse_request. destruct (read_line data) as [[line r]|e] eqn:El.
  2: { right; right. exists e. split; [done|]. unfold read_line in El. intros ->.
       destruct (split_once LF data) as [[]|]; by destruct (utf8_valid _). }
  case_bool_decide as Hne; [by right; left|]. cbv zeta.
  case_bool_decide as Hm; [right; right; by eexists|]. case_bool_decide as Ht; [right; right; by eexists|]. cbn [orb].
  pose proof (parse_headers_loop "malformed header line" (S (length r)) r [] ltac:(lia)) as Hh.
  destruct (parse_headers _ _ _ _) as [[hs rest]|e] eqn:Ep.
  - left. exists hs, rest. by exists line, r.
  - right; right. exists e. split; [done|]. clear -Hh. remember (Err e) as res eqn:Er. induction Hh; simplify_eq; auto.
    unfold read_line in H. intros ->. destruct (split_once LF r) as [[]|]; by destruct (utf8_valid _).
Qed.

Lemma read_body_result n r :
  0 <= n ->
  (read_body n r = Err CapacityOverflow <-> isize_max < n) /\
  (forall body rest, read_body n r = Ok (body, rest) -> len body = n /\ r = body ++ rest).
Proof.
  intros Hn. unfold read_body, read_exact. split.
  - case_cmp; split; intros; (done || lia).
  - intros body rest. case_cmp; intros; simplify_eq.
    + rewrite take_drop. split; [|done]. unfold len in *. rewrite length_take. lia.
    + split; [|done]. unfold len. simpl. lia.
Qed.

Lemma content_length_nonneg hs : 0 <= content_length_of hs.
Proof.
  unfold content_length_of. destruct (v ← find_header _ hs; parse_usize v) as [n|] eqn:E; [|done].
  apply bind_Some in E as (v & _ & E). by apply parse_uint_nonneg in E.
Qed.

Lemma decoded_inside data n k st chain : decode_record data = Some (n, k, st, chain) -> n <= len data.
Proof.
  intros (p & rest & -> & -> & Hs & Hc & _)%decode_record_inv. rewrite len_app, len_frame by done.
  pose proof (len_nonneg rest). lia.
Qed.

Lemma panics_iff data :
  fuzz_parse_request data = None <-> exists hs rest, request_head data hs rest /\ isize_max < content_length_of hs.
Proof.
  unfold fuzz_parse_request. split.
  - intros Hf. destruct (parse_without_head data) as [(hs & rest & Hh)|[E|(e & E & He)]]; [|by rewrite E in Hf|].
    + exists hs, rest. split; [done|]. pose proof (parse_with_head data hs rest Hh) as Hp.
      apply (proj1 (read_body_result (content_length_of hs) rest (content_length_nonneg hs))).
      destruct (read_body _ _) as [[body rest']|e]; [destruct Hp as (m & t & Hp)|]; rewrite Hp in Hf; [done|].
      by destruct e.
    + rewrite E in Hf. by destruct e.
  - intros (hs & rest & Hh & Hlong). pose proof (parse_with_head data hs rest Hh) as Hp.
    destruct (read_body_result (content_length_of hs) rest (content_length_nonneg hs)) as [Hc _].
    rewrite (proj2 Hc Hlong) in Hp. by rewrite Hp.
Qed.

Lemma parsed_inside data req rest :
  parse_request data = Ok (Some (req, rest)) ->
  exists head, data = head ++ req_body req ++ rest /\ len (req_body req) = content_length_of (req_headers req).
Proof.
  intros Hp. destruct (parse_without_head data) as [(hs & rest0 & Hh)|[E|(e & E & _)]]; [|by rewrite Hp in E..].
  pose proof (parse_with_head data hs rest0 Hh) as H0.
  destruct (read_body_result (content_length_of hs) rest0 (content_length_nonneg hs)) as [_ Hb].
  destruct (read_body _ _) as [[body rest']|e]; [|by rewrite Hp in H0]. destruct H0 as (m & t & H0).
  rewrite Hp in H0. injection H0 as -> ->. destruct (Hb body rest' eq_refl) as [Hl ->].
  destruct (request_head_front _ _ _ Hh) as [head ->]. by exists head.
Qed.

(** C27: what the fuzz targets look for never happens, on any input, with one
    exception.  The decoder of log records never claims more bytes than it was
    given.  The header loop of the request parser ends with the result of the
    unbounded loop; the parser never reads past its input: a parsed request ends
    with a body of the declared length, and what follows is left.  It panics on
    exactly the requests whose head declares a body of more than [isize::MAX]
    bytes. *)
Theorem fuzz_targets_hold data :
  fuzz_decode_record data = Some tt /\
  (forall message hs, header_loop message data hs (parse_headers (S (length data)) message data hs)) /\
  (fuzz_parse_request data = None <->
   exists hs rest, request_head data hs rest /\ isize_max < content_length_of hs) /\
  (forall req rest, parse_request data = Ok (Some (req, rest)) ->
   exists head, data = head ++ req_body req ++ rest /\ len (req_body req) = content_length_of (req_headers req)).
Proof.
  split_and!.
  - unfold fuzz_decode_record. destruct (decode_record data) as [[[[n k] st] c]|] eqn:E; [|done].
    apply ensure_true, Z.leb_le. by eapply decoded_inside.
  - intros message hs. apply parse_headers_loop. lia.
  - apply panics_iff.
  - apply parsed_inside.
Qed.
