(* ===== verification/Server.v ===== *)
(** * The socket server ([onced-gateway/src/server.rs])

    One connection carries one request.  The sockets are behind the class
    [Network]: [exchange] opens a connection to an address, writes the bytes and
    gives what the peer sends back until the reply is complete or the peer
    closes; [None] is the failure of any of these.  The peer may have effects,
    so the network is a state.  Whatever answers requests is behind the trait
    [Handle]; [None] is a panic of the handler. *)

From S2P Require Import Prelude Machine Str Decimal BTreeMap HashMap Types Store Engine History EngineSpec.
From S2P Require Import Hash Codec Abuse Http HttpSpec Gateway GatewaySpec Router.

Class Network (N : Type) := exchange : N -> string -> list byte -> option (list byte) * N.

(** ** [HttpUpstream] *)

Record HttpUpstream (N : Type) := MkHttpUpstream { backend : string; network : N }.
Arguments MkHttpUpstream {N} _ _.
Arguments backend {N} _.
Arguments network {N} _.

Section upstream.
Context {N : Type} `{!Network N}.

Definition HttpUpstream_new (n : N) (backend : string) : HttpUpstream N := MkHttpUpstream backend n.

(** Why a forward fails: the sockets, or the reply.  A reply that declares more
    bytes than a vector can hold ([CapacityOverflow]) is not an error but a panic
    of the connection's thread ([forward_panics]). *)
Inductive ForwardError := SocketError | BadReply (e : HttpError).

Definition http_forward (u : HttpUpstream N) (r : Request) : result Response ForwardError * HttpUpstream N :=
  let (reply, n) := exchange (network u) (backend u) (write_request r) in
  (match reply with
   | None => Err SocketError
   | Some bytes =>
       match parse_response bytes with
       | Ok (response, _) => Ok response
       | Err e => Err (BadReply e)
       end
   end, MkHttpUpstream (backend u) n).

(** The gateway does not inspect the error. *)
#[export] Instance HttpUpstream_Upstream : Upstream (HttpUpstream N) := fun u r =>
  let (res, u) := http_forward u r in
  (match res with Ok response => Ok response | Err _ => Err tt end, u).

End upstream.

(** Whether a call of [forward] panics instead of returning. *)
Class ForwardPanics (U : Type) := forward_panics : U -> Request -> bool.

#[export] Instance HttpUpstream_panics {N} `{!Network N} : ForwardPanics (HttpUpstream N) := fun u r =>
  match (http_forward u r).1 with Err (BadReply CapacityOverflow) => true | _ => false end.

(** ** [Handle] *)

Class Handle (H : Type) := handle_request : H -> Request -> Z -> option (Response * H).

Section handlers.
Context {S U : Type} `{Store S} `{!Upstream U} `{!ForwardPanics U} `{!HashOrder string}.

(** Whether handling the request gets to the call of the backend. *)
Definition gateway_forwards (g : Gateway S U) (r : Request) (now_ms : Z) : bool :=
  if String.eqb (path_of r) "/healthz" || String.eqb (path_of r) "/metrics" then false
  else
    match evaluate (rules g) (identity_of r) now_ms with
    | (Verdict_Deny _ _, _) => false
    | (Verdict_Allow, rs) =>
        match (begin_phase (set_rules g rs) r now_ms).1 with Forward _ => true | Done _ => false end
    end.

Definition router_forwards (hash : string -> Z) (R : Router S U) (r : Request) (now_ms : Z) : bool :=
  match operational_response R r with
  | Some _ => false
  | None =>
      match deny_if_abusive hash R r now_ms with
      | Some (None, R) =>
          let (idx, R) := route_shard hash R r in
          match begin_on R idx r now_ms with Some (Ok _, _) => true | _ => false end
      | _ => false
      end
  end.

(** A single gateway behind a lock: requests are serialized. *)
#[export] Instance Gateway_Handle : Handle (Gateway S U) := fun g r now_ms =>
  if gateway_forwards g r now_ms && forward_panics (upstream g) r then None else Some (handle g r now_ms).

(** The sharded router; the hasher is fixed. *)
Definition Router_Handle (hash : string -> Z) : Handle (Router S U) := fun R r now_ms =>
  if router_forwards hash R r now_ms && forward_panics (router_upstream R) r then None
  else router_handle hash R r now_ms.

End handlers.

Inductive ConnectionError := BadRequest (e : HttpError) | HandlerPanicked.

(** The bytes that a connection sends back for the bytes it receives. *)
Definition handle_connection {H : Type} `{!Handle H} (h : H) (input : list byte) (now_ms : Z)
  : result (list byte * H) ConnectionError :=
  match parse_request input with
  | Err e => Err (BadRequest e)
  | Ok None => Ok ([], h)
  | Ok (Some (request, _)) =>
      match handle_request h request now_ms with
      | None => Err HandlerPanicked
      | Some (response, h) => Ok (write_response response, h)
      end
  end.

(** ** A client of the server *)

Section client.
Context {H : Type} `{!Handle H}.

(** A connection on which a well-formed request arrives. *)
Lemma connection_request (h : H) r rest now :
  wf_request r ->
  handle_connection h (write_request r ++ rest) now =
  match handle_request h (received r) now with
  | None => Err HandlerPanicked
  | Some (response, h) => Ok (write_response response, h)
  end.
Proof. intros Hr. unfold handle_connection. by rewrite parse_written_request. Qed.

(** What travels over a connection is faithful in both directions.  For a
    well-formed request, whatever follows it, and a handler whose answer is
    well-formed, the client that parses what the connection sends back gets
    exactly the handler's answer to the received request: status, body and
    headers, with the Content-Length that fits. *)
Theorem connection_roundtrip (h h' : H) r rest now response :
  wf_request r -> handle_request h (received r) now = Some (response, h') -> wf_response response ->
  exists output, handle_connection h (write_request r ++ rest) now = Ok (output, h') /\
    parse_response output = Ok (response_received response, []).
Proof.
  intros Hr Hh Hresp. rewrite connection_request, Hh by done. eexists; split; [done|].
  rewrite <- (app_nil_r (write_response response)). by apply parse_written_response.
Qed.

End client.

(** ** A retry over real connections *)

(** The headers that the serializer owns do not hide others. *)
Lemma find_header_forwarded name hs :
  eq_ignore_ascii_case "content-length" name = false -> eq_ignore_ascii_case "connection" name = false ->
  find_header name (forwarded_headers hs) = find_header name hs.
Proof.
  intros H1 H2. unfold eq_ignore_ascii_case in *. apply bool_decide_eq_false in H1, H2.
  induction hs as [|[k v] hs IH]; [done|]. unfold forwarded_headers in *. cbn [List.filter fst find_header].
  unfold eq_ignore_ascii_case in *.
  destruct (bool_decide (map to_ascii_lowercase (str_bytes k) = map to_ascii_lowercase (str_bytes "content-length"))) eqn:E1.
  { apply bool_decide_eq_true in E1. cbn [orb negb]. rewrite IH, bool_decide_false by congruence. done. }
  destruct (bool_decide (map to_ascii_lowercase (str_bytes k) = map to_ascii_lowercase (str_bytes "connection"))) eqn:E2.
  { apply bool_decide_eq_true in E2. cbn [orb negb]. rewrite IH, bool_decide_false by congruence. done. }
  cbn [orb negb find_header]. unfold eq_ignore_ascii_case. by rewrite IH.
Qed.

Lemma header_received r name :
  eq_ignore_ascii_case "content-length" name = false -> eq_ignore_ascii_case "connection" name = false ->
  header (received r) name = header r name.
Proof.
  intros H1 H2. unfold header, received. cbn [req_headers]. rewrite <- (find_header_forwarded name (req_headers r)) by done.
  generalize (forwarded_headers (req_headers r)). intros hs.
  assert (forall n, find_header name [content_length_header n; connection_close] = None) as Hn.
  { intros n. unfold content_length_header, connection_close. cbn [find_header].
    assert (forall a b, eq_ignore_ascii_case a name = false ->
              map to_ascii_lowercase (str_bytes b) = map to_ascii_lowercase (str_bytes a) ->
              eq_ignore_ascii_case b name = false) as Hcase.
    { unfold eq_ignore_ascii_case. by intros a b Ha ->. }
    by rewrite (Hcase "content-length" "Content-Length"), (Hcase "connection" "Connection") by done. }
  induction hs as [|[k v] hs IH]; [apply Hn|]. cbn [app find_header]. by rewrite IH.
Qed.

Section retry.
Context {S N : Type} `{StoreLaws S} `{!Network N} `{!HashOrder string}.
Implicit Types g : Gateway S (HttpUpstream N).

(** A request that the handler sends to the idempotency stage. *)
Lemma handle_plain g r now :
  rules g = RuleSet_new -> path_of r <> "/healthz"%string -> path_of r <> "/metrics"%string ->
  handle g r now = handle_after_abuse g r now.
Proof.
  intros Hr H1 H2. unfold handle. rewrite (proj2 (String.eqb_neq _ _) H1), (proj2 (String.eqb_neq _ _) H2), Hr.
  change (evaluate RuleSet_new (identity_of r) now) with (Verdict_Allow, RuleSet_new).
  unfold set_rules. rewrite <- Hr. by destruct g.
Qed.

(** A request that is answered by the first phase is not forwarded. *)
Lemma done_not_forwarded g r resp now :
  rules g = RuleSet_new -> (begin_phase g r now).1 = Done resp -> gateway_forwards g r now = false.
Proof.
  intros Hr Hp. unfold gateway_forwards. destruct (_ || _); [done|]. rewrite Hr.
  change (evaluate RuleSet_new (identity_of r) now) with (Verdict_Allow, RuleSet_new).
  cbv beta iota. assert (set_rules g RuleSet_new = g) as -> by (unfold set_rules; rewrite <- Hr; by destruct g). by rewrite Hp.
Qed.

(** A request and its retry, connection by connection. *)
Lemma wire_retry g r key response reply tail n1 now now' rest rest' :
  engine_ok (engine g) -> engine_ranges (engine g) -> in_uint 64 now -> rules g = RuleSet_new ->
  wf_request r -> path_of r <> "/healthz"%string -> path_of r <> "/metrics"%string ->
  header r "idempotency-key" = Some key ->
  let fp := fingerprint_of r (fingerprint_key g) in
  admits_request (MkKey key) fp -> admits_outcome (MkKey key) (to_outcome response) now ->
  available (engine g) (MkKey key) fp now ->
  exchange (network (upstream g)) (backend (upstream g)) (write_request (received r)) = (Some reply, n1) ->
  parse_response reply = Ok (response, tail) -> resp_status response < 500 ->
  now' < expiry now (ttl_ms (engine g)) ->
  exists g1 g2,
    handle_connection g (write_request r ++ rest) now = Ok (write_response (tag response "created"), g1) /\
    network (upstream g1) = n1 /\
    handle_connection g1 (write_request r ++ rest') now' =
      Ok (write_response (tag (from_outcome (to_outcome response)) "replayed"), g2) /\
    upstream g2 = upstream g1.
Proof.
  intros Ho Hr Hn Hrules Hwf H1 H2 Hk fp Hadm Hout Hav Hex Hp Hst Hlt.
  rewrite <- (header_received r "idempotency-key") in Hk by done.
  destruct (run_commit (engine g) (MkKey key) fp now (to_outcome response) now)
    as (tok & e1 & e2 & Eb & Ec & Ho2 & Hrec & Httl); [done..|].
  assert (handle_after_abuse g (received r) now =
    (tag response "created", MkGateway e2 (rules g) (MkHttpUpstream (backend (upstream g)) n1)
       (merge (merge (metrics g) one_request) one_created) (fingerprint_key g))) as E1.
  { unfold handle_after_abuse, begin_phase. rewrite Hk. cbn [count engine fingerprint_key set_engine upstream].
    change (fingerprint_of (received r) (fingerprint_key g)) with fp. rewrite Eb.
    unfold forward, HttpUpstream_Upstream, http_forward. cbn [set_engine count upstream]. rewrite Hex, Hp.
    unfold complete_phase. cbn [token]. rewrite (proj2 (Z.leb_gt _ _) Hst).
    cbn [set_upstream set_engine count engine]. by rewrite Ec. }
  set (g1 := MkGateway e2 _ _ _ _) in *.
  exists g1. rewrite !connection_request by done. unfold handle_request, Gateway_Handle.
  destruct (begin_phase_completed g1 (received r) key fp (to_outcome response) now now') as (Hb & _ & Hu);
    [done.. | by simpl; rewrite Httl |].
  assert (forward_panics (upstream g) (received r) = false) as ->.
  { unfold forward_panics, HttpUpstream_panics, http_forward. by rewrite Hex, Hp. }
  rewrite andb_false_r, (done_not_forwarded g1 (received r) _ now' Hrules Hb), andb_false_l.
  rewrite !handle_plain by done. rewrite E1.
  rewrite decide_True in Hb by done. unfold handle_after_abuse.
  destruct (begin_phase g1 (received r) now') as [p g2]. simpl in Hb, Hu. subst p. exists g2. by split_and!.
Qed.

(** C9: a retry over the wire hits the backend once.  A gateway with no abuse
    rules of its own that receives a well-formed request, not for an operational
    path and with a key that is available, and whose backend answers with a final
    response (a status below 500), sends that response tagged [created]; the same
    bytes on a later connection, before the outcome expires, are answered with the
    stored response tagged [replayed], and nothing is sent to the backend. *)
Theorem retry_over_the_wire g r key response reply tail n1 now now' rest rest' :
  engine_ok (engine g) -> engine_ranges (engine g) -> in_uint 64 now -> rules g = RuleSet_new ->
  wf_request r -> path_of r <> "/healthz"%string -> path_of r <> "/metrics"%string ->
  header r "idempotency-key" = Some key ->
  let fp := fingerprint_of r (fingerprint_key g) in
  admits_request (MkKey key) fp -> admits_outcome (MkKey key) (to_outcome response) now ->
  available (engine g) (MkKey key) fp now ->
  exchange (network (upstream g)) (backend (upstream g)) (write_request (received r)) = (Some reply, n1) ->
  parse_response reply = Ok (response, tail) -> resp_status response < 500 ->
  now' < expiry now (ttl_ms (engine g)) ->
  exists g1 g2,
    handle_connection g (write_request r ++ rest) now = Ok (write_response (tag response "created"), g1) /\
    network (upstream g1) = n1 /\
    handle_connection g1 (write_request r ++ rest') now' =
      Ok (write_response (tag (from_outcome (to_outcome response)) "replayed"), g2) /\
    upstream g2 = upstream g1.
Proof. apply wire_retry. Qed.

End retry.
