(* ===== verification/ServerTests.v ===== *)
(** * The end-to-end test of the server

    The test of [server.rs] over sockets: a backend that answers every connection
    with the same bytes, and a client that sends a request twice.  The server
    reads the clock, so the test is proved for every pair of times at which the
    outcome of the first request has not expired. *)

From S2P Require Import Prelude Machine Str Decimal BTreeMap HashMap Types Store Engine History EngineSpec Suite.
From S2P Require Import Hash Codec Abuse Http HttpSpec Gateway GatewaySpec GatewayTests Router Server.

#[local] Open Scope string_scope.
#[local] Open Scope Z_scope.

Record FakeBackend := MkBackend { hits : Z }.

(** Whatever it reads, the backend counts the connection and answers. *)
Definition fake_reply : list byte :=
  str_bytes ("HTTP/1.1 201 Created" ++ CRLF_str ++ "Content-Length: 7" ++ CRLF_str ++ "Connection: close"
             ++ CRLF_str ++ CRLF_str ++ "charged").

#[export] Instance spawn_fake_backend : Network FakeBackend := fun b _ _ => (Some fake_reply, MkBackend (hits b + 1)).

(** What the client writes. *)
Definition send_idempotent_post (key : string) (body : list byte) : list byte :=
  (str_bytes ("POST /charge HTTP/1.1" ++ CRLF_str ++ "Host: onced" ++ CRLF_str ++ "X-Forwarded-For: 10.0.0.9"
              ++ CRLF_str ++ "Idempotency-Key: " ++ key ++ CRLF_str ++ "Content-Length: " ++ display (len body)
              ++ CRLF_str ++ "Connection: close" ++ CRLF_str ++ CRLF_str) ++ body)%list.

Section server_tests.
Context `{!HashOrder string}.

Definition server_gateway (backend_addr : string) : Gateway MemoryStore (HttpUpstream FakeBackend) :=
  Gateway_new (new MemoryStore_new 30000) RuleSet_new (HttpUpstream_new (MkBackend 0) backend_addr).

(** [t1] and [t2] are the times that the server reads. *)
Definition end_to_end_retry_hits_backend_once_over_real_sockets (backend_addr : string) (t1 t2 : Z) : option unit :=
  let gateway := server_gateway backend_addr in
  '(first, gateway) ← unwrap (handle_connection gateway (send_idempotent_post "k-int" (str_bytes "amount=100")) t1);
  '(second, gateway) ← unwrap (handle_connection gateway (send_idempotent_post "k-int" (str_bytes "amount=100")) t2);
  ensure (utf8_valid first && utf8_valid second);;
  ensure (contains (str_bytes "charged") first);;
  ensure (contains (str_bytes "charged") second);;
  ensure (contains (str_bytes "replayed") second);;
  ensure (hits (network (upstream gateway)) =? 1).

(** The client's bytes are those of a forwarded request. *)
Definition client_request : Request :=
  MkRequest "POST" "/charge"
    [("Host", "onced"); ("X-Forwarded-For", "10.0.0.9"); ("Idempotency-Key", "k-int")] (str_bytes "amount=100").

Lemma client_bytes : send_idempotent_post "k-int" (str_bytes "amount=100") = (write_request client_request ++ [])%list.
Proof. vm_compute. reflexivity. Qed.

Definition charged : Response :=
  MkResponse 201 [("Content-Length", "7"); ("Connection", "close")] (str_bytes "charged").

(** The end-to-end test passes whatever the clock reads before the expiry of the
    first request: both answers carry the body, the second is a replay, and the
    backend is hit once. *)
Theorem end_to_end_passes backend_addr t1 t2 :
  in_uint 64 t1 -> t2 < expiry t1 DEFAULT_TTL_MS ->
  end_to_end_retry_hits_backend_once_over_real_sockets backend_addr t1 t2 = Some tt.
Proof.
  intros Ht1 Ht2. unfold end_to_end_retry_hits_backend_once_over_real_sockets. cbv zeta. rewrite client_bytes.
  set (g := server_gateway backend_addr).
  assert (engine_ok (engine g)) as Ho by done. assert (engine_ranges (engine g)) as Hr by by_eval.
  assert (available (engine g) (MkKey "k-int") (fingerprint_of client_request (fingerprint_key g)) t1) as Hav by exact I.
  assert (wf_request client_request) as Hwf by (unfold wf_request, wf_word, no_crlf; by_eval).
  assert (parse_response fake_reply = Ok (charged, [])) as Hp by (vm_compute; reflexivity).
  assert (exchange (network (upstream g)) (backend (upstream g)) (write_request (received client_request)) =
          (Some fake_reply, MkBackend 1)) as Hex by exact eq_refl.
  assert (admits_request (S := MemoryStore) (MkKey "k-int") (fingerprint_of client_request (fingerprint_key g))) as Hadm by (intros ????; exact I).
  assert (admits_outcome (S := MemoryStore) (MkKey "k-int") (to_outcome charged) t1) as Hout by (intros ????; exact I).
  destruct (wire_retry g client_request "k-int" charged fake_reply [] (MkBackend 1) t1 t2 [] []
    Ho Hr Ht1 eq_refl Hwf ltac:(discriminate) ltac:(discriminate) eq_refl Hadm Hout Hav Hex Hp eq_refl Ht2)
    as (g1 & g2 & E1 & En & E2 & Eu).
  clearbody g. rewrite E1, unwrap_ok, bind_some. cbv beta iota. rewrite E2, unwrap_ok, bind_some. cbv beta iota.
  rewrite Eu, En. vm_compute. reflexivity.
Qed.

End server_tests.

Lemma end_to_end_passes_witness :
  @end_to_end_retry_hits_backend_once_over_real_sockets (default_order string) "127.0.0.1:9000" 1000 1050 = Some tt.
Proof. apply (@end_to_end_passes (default_order string)); [by_eval | reflexivity]. Defined.
