(* ===== verification/Config.v ===== *)
(** * The gateway binary ([onced-gateway/src/main.rs])

    The configuration and the router that [main] builds from it.  The
    environment is a function from variable names to values ([std::env::var],
    [None] for an error), [cpus] is what [available_parallelism] gives, and
    [files] is the file system by path: every shard opens its own log.  The
    listener, the prune thread and the accept loop are in [Service]. *)

From S2P Require Import Prelude Machine Str Decimal BTreeMap HashMap Types Store Engine Hash Codec Disk Wal.
From S2P Require Import Abuse Http HttpSpec Gateway GatewaySpec Router.

Definition LEASE_MS : Z := 30000.

Definition env_or (env : string -> option string) (key dflt : string) : string := default dflt (env key).

Definition env_shards (env : string -> option string) (cpus : option Z) : Z :=
  match (v ← env "ONCED_SHARDS"%string; n ← parse_usize v; if 0 <? n then Some n else None) with
  | Some n => n
  | None => default 1 cpus
  end.

(** ** The fingerprint key *)

Definition hex_nibble (b : byte) : option Z :=
  let z := u8_to_Z b in
  if byte_in 48 57 b then Some (z - 48)
  else if byte_in 97 102 b then Some (z - 97 + 10)
  else if byte_in 65 70 b then Some (z - 65 + 10)
  else None.

(** The loop over [chunks(2)]; the length has been checked to be even. *)
Fixpoint parse_pairs (l : list byte) : option (list byte) :=
  match l with
  | hi :: lo :: l =>
      hi ← hex_nibble hi;
      lo ← hex_nibble lo;
      out ← parse_pairs l;
      Some (u8_of_Z (Z.lor (shl 8 hi 4) lo) :: out)
  | _ => Some []
  end.

Definition parse_hex32 (s : string) : option (list byte) :=
  let s := trim (str_bytes s) in
  if negb (len s =? 64) then None else parse_pairs s.

Definition env_fingerprint_key (env : string -> option string) (wal_prefix : string) : list byte :=
  match env "ONCED_FINGERPRINT_KEY"%string with
  | Some hex => match parse_hex32 hex with
                | Some key => key
                | None => sha256 (str_bytes wal_prefix)
                end
  | None => sha256 (str_bytes wal_prefix)
  end.

(** ** The router *)

(** [format!("{wal_prefix}.{i}.wal")]. *)
Definition wal_path (wal_prefix : string) (i : Z) : string :=
  str_of_bytes (str_bytes wal_prefix ++ str_bytes "." ++ display_uint i ++ str_bytes ".wal").

(** [with_extension] of a path whose file name has an extension, as log paths
    do: what follows the last dot is replaced. *)
Definition with_extension (path ext : string) : string :=
  match split_once x2e (reverse (str_bytes path)) with
  | Some (_, stem) => str_of_bytes (reverse stem ++ str_bytes "." ++ str_bytes ext)
  | None => path
  end.

(** The temp file of a compaction. *)
Definition compact_path (path : string) : string := with_extension path "wal-compact".

Section build.
Context {U : Type} `{!Upstream U} `{!HashOrder IdempotencyKey} `{!HashOrder string}.

(** The loop over the shards; [?] returns the first error. *)
Fixpoint open_shards (files : string -> Disk) (wal_prefix : string) (fingerprint_key : list byte) (upstream : U)
    (slots : list Z) : result (list (Gateway WalStore U)) OpenError :=
  match slots with
  | [] => Ok []
  | i :: slots =>
      match WalStore_open (files (wal_path wal_prefix i)) with
      | Err e => Err e
      | Ok store =>
          let shard := with_fingerprint_key (Gateway_new (Engine.new store LEASE_MS) RuleSet_new upstream)
                         fingerprint_key in
          match open_shards files wal_prefix fingerprint_key upstream slots with
          | Err e => Err e
          | Ok shards => Ok (shard :: shards)
          end
      end
  end.

(** One rule set per shard slot: fifty hits a second per client. *)
Definition abuse_rules : option RuleSet := rule RuleSet_new "per-ip-per-second" 1000 50 Throttle.

(** The shards and the abuse stage that the binaries set up; the inner [None] is
    the panic of a constructor. *)
Definition router_at (wal_prefix : string) (shard_count : Z) (fingerprint_key : list byte) (files : string -> Disk)
    (upstream : U) : result (option (Router WalStore U)) OpenError :=
  let slots := map Z.of_nat (seq 0 (Z.to_nat shard_count)) in
  match open_shards files wal_prefix fingerprint_key upstream slots with
  | Err e => Err e
  | Ok shards =>
      Ok (abuse ← mapM (fun _ => abuse_rules) slots;
          Router_new shards abuse upstream)
  end.

(** The router of [main]. *)
Definition build_router (env : string -> option string) (cpus : option Z) (files : string -> Disk) (upstream : U)
  : result (option (Router WalStore U)) OpenError :=
  let wal_prefix := env_or env "ONCED_WAL" "onced" in
  let shard_count := env_shards env cpus in
  let fingerprint_key := env_fingerprint_key env wal_prefix in
  router_at wal_prefix shard_count fingerprint_key files upstream.

End build.

(** ** The fingerprint key is what the operator wrote *)

Lemma nibble_lower b : hex_nibble (to_ascii_lowercase b) = hex_nibble b.
Proof.
  apply (bool_decide_eq_true_1 _). revert b.
  apply (byte_check (fun b => bool_decide (hex_nibble (to_ascii_lowercase b) = hex_nibble b))). vm_compute. reflexivity.
Qed.

Lemma nibble_digit z : 0 <= z < 16 -> hex_nibble (from_digit z) = Some z.
Proof.
  intros Hz. apply (bool_decide_eq_true_1 _). revert z Hz.
  apply (below_check (fun z => bool_decide (hex_nibble (from_digit z) = Some z)) 16). vm_compute. reflexivity.
Qed.

Lemma nibble_inv b z : hex_nibble b = Some z -> 0 <= z < 16 /\ to_ascii_lowercase b = from_digit z.
Proof.
  set (P := fun b => match hex_nibble b with
                     | Some z => (0 <=? z) && (z <? 16) && bool_decide (to_ascii_lowercase b = from_digit z)
                     | None => true
                     end).
  assert (P b = true) as H by (apply byte_check; vm_compute; reflexivity). intros E. unfold P in H. rewrite E in H.
  apply andb_true_iff in H as [H H2%bool_decide_eq_true]. apply andb_true_iff in H as [H0 H1]. split; [lia | done].
Qed.

(** A byte and its two digits. *)
Lemma byte_digits b : u8_of_Z (Z.lor (shl 8 (Z.shiftr (u8_to_Z b) 4) 4) (Z.land (u8_to_Z b) 15)) = b.
Proof.
  apply (bool_decide_eq_true_1 _). revert b. apply (byte_check (fun b => bool_decide
    (u8_of_Z (Z.lor (shl 8 (Z.shiftr (u8_to_Z b) 4) 4) (Z.land (u8_to_Z b) 15)) = b))). vm_compute. reflexivity.
Qed.

Lemma nibbles_byte hi lo :
  0 <= hi < 16 -> 0 <= lo < 16 ->
  let b := u8_of_Z (Z.lor (shl 8 hi 4) lo) in Z.shiftr (u8_to_Z b) 4 = hi /\ Z.land (u8_to_Z b) 15 = lo.
Proof.
  intros Hhi Hlo b. set (P := fun hi lo => let b := u8_of_Z (Z.lor (shl 8 hi 4) lo) in
    (Z.shiftr (u8_to_Z b) 4 =? hi) && (Z.land (u8_to_Z b) 15 =? lo)).
  assert (forallb (P hi) (below_list 16) = true) as H.
  { apply (below_check (fun hi => forallb (P hi) (below_list 16)) 16); [vm_compute; reflexivity | done]. }
  pose proof (below_check _ 16 H lo Hlo) as Hp. apply andb_true_iff in Hp as [? ?]. subst b. lia.
Qed.

Lemma nibbles_of_byte b : 0 <= Z.shiftr (u8_to_Z b) 4 < 16 /\ 0 <= Z.land (u8_to_Z b) 15 < 16.
Proof.
  pose proof (u8_to_Z_range b) as Hb. unfold in_uint in Hb. change (2 ^ 8) with 256 in Hb. split.
  - rewrite Z.shiftr_div_pow2 by lia. change (2 ^ 4) with 16.
    split; [apply Z.div_pos; lia | apply Z.div_lt_upper_bound; lia].
  - rewrite (Z.land_ones _ 4) by lia. apply Z.mod_pos_bound. lia.
Qed.

Lemma to_hex_cons b l :
  str_bytes (to_hex (b :: l)) =
  from_digit (Z.shiftr (u8_to_Z b) 4) :: from_digit (Z.land (u8_to_Z b) 15) :: str_bytes (to_hex l).
Proof. unfold to_hex. by rewrite !str_bytes_of_bytes. Qed.

Lemma parse_pairs_iff l key :
  Nat.Even (length l) ->
  parse_pairs l = Some key <-> map to_ascii_lowercase l = str_bytes (to_hex key).
Proof.
  intros [n Hn]. revert l key Hn; induction n as [|n IH]; intros l key Hn.
  { destruct l; [|simpl in Hn; lia]. split; [by intros [= <-]|]. destruct key as [|b key]; [done|].
    rewrite to_hex_cons. done. }
  destruct l as [|hi [|lo l]]; [simpl in Hn; lia | simpl in Hn; lia |].
  assert (length l = 2 * n)%nat as Hl by (simpl in Hn; lia). cbn [parse_pairs map]. split.
  - intros E. apply bind_Some in E as (h & Eh & E). apply bind_Some in E as (w & Ew & E).
    apply bind_Some in E as (out & Eo & [= <-]).
    apply nibble_inv in Eh as [Hh ->], Ew as [Hw ->]. apply (IH l out Hl) in Eo.
    rewrite to_hex_cons. destruct (nibbles_byte h w Hh Hw) as [-> ->]. by rewrite Eo.
  - destruct key as [|b key]; [done|]. rewrite to_hex_cons. intros E. injection E as E1 E2 E.
    destruct (nibbles_of_byte b) as [H1 H2].
    rewrite <- (nibble_lower hi), <- (nibble_lower lo), E1, E2, !nibble_digit by done. cbn [mbind option_bind].
    rewrite (proj2 (IH l key Hl) E). cbn [mbind option_bind]. by rewrite byte_digits.
Qed.

(** The configured fingerprint key is exactly the one the operator wrote:
    [parse_hex32] accepts a string just when it is, up to surrounding white space
    and the case of its letters, the hexadecimal rendering of a 32-byte key, and
    gives that key; everything else falls back to the key derived from the WAL
    prefix, so every shard and every restart with the same configuration uses
    one key. *)
Theorem fingerprint_key_configured env prefix s key :
  (parse_hex32 s = Some key <->
   length key = 32%nat /\ map to_ascii_lowercase (trim (str_bytes s)) = str_bytes (to_hex key)) /\
  (env "ONCED_FINGERPRINT_KEY"%string = Some s ->
   env_fingerprint_key env prefix = default (sha256 (str_bytes prefix)) (parse_hex32 s)) /\
  length (env_fingerprint_key env prefix) = 32%nat.
Proof.
  assert (forall s key, parse_hex32 s = Some key <->
   length key = 32%nat /\ map to_ascii_lowercase (trim (str_bytes s)) = str_bytes (to_hex key)) as Hiff.
  { clear. intros s key. assert (length (str_bytes (to_hex key)) = 2 * length key)%nat as Hh.
    { unfold to_hex. rewrite str_bytes_of_bytes. by apply length_mjoin_const. }
    unfold parse_hex32. generalize (trim (str_bytes s)). intros l. unfold len.
    destruct (Z.eqb_spec (Z.of_nat (length l)) 64) as [E|E]; cbn [negb].
    - rewrite parse_pairs_iff by (exists 32%nat; lia). split; [|by intros [_ ?]]. intros El. split; [|done].
      apply (f_equal length) in El. rewrite length_map, Hh in El. lia.
    - split; [done|]. intros [Hk El]. apply (f_equal length) in El. rewrite length_map, Hh, Hk in El. lia. }
  split_and!; [apply Hiff | |].
  - unfold env_fingerprint_key. intros ->. by destruct (parse_hex32 s).
  - unfold env_fingerprint_key. destruct (env _) as [s'|]; [|apply sha256_length].
    destruct (parse_hex32 s') eqn:E; [|apply sha256_length]. by apply Hiff in E as [? _].
Qed.

(** ** Every shard has files of its own *)

Lemma wal_path_bytes p i :
  str_bytes (wal_path p i) = (str_bytes p ++ str_bytes "." ++ display_uint i) ++ str_bytes ".wal".
Proof. unfold wal_path. rewrite str_bytes_of_bytes. by rewrite <- !app_assoc. Qed.

Lemma compact_path_bytes p i :
  str_bytes (compact_path (wal_path p i)) =
  (str_bytes p ++ str_bytes "." ++ display_uint i) ++ str_bytes ".wal-compact".
Proof.
  unfold compact_path, with_extension. rewrite wal_path_bytes, reverse_app.
  change (reverse (str_bytes ".wal")) with (reverse (str_bytes "wal") ++ [x2e]). rewrite <- app_assoc. cbn [app].
  rewrite split_once_app by by_eval. rewrite reverse_involutive, str_bytes_of_bytes. done.
Qed.

Lemma slot_inj p i j suffix :
  in_uint 64 i -> in_uint 64 j ->
  (str_bytes p ++ str_bytes "." ++ display_uint i) ++ suffix =
  (str_bytes p ++ str_bytes "." ++ display_uint j) ++ suffix -> i = j.
Proof. intros Hi Hj E. apply app_inv_tail, app_inv_head, app_inv_head in E. by apply display_uint_inj. Qed.

(** Shards do not share files.  Under one prefix the logs of different
    shards are different files, so are their compaction temp files, and no log
    is the temp file of any shard: a shard owns its part of the disk, as its
    store assumes. *)
Theorem shard_files_disjoint p i j :
  in_uint 64 i -> in_uint 64 j ->
  (wal_path p i = wal_path p j -> i = j) /\
  (compact_path (wal_path p i) = compact_path (wal_path p j) -> i = j) /\
  wal_path p i <> compact_path (wal_path p j).
Proof.
  intros Hi Hj. split_and!.
  - intros E%(f_equal str_bytes). rewrite !wal_path_bytes in E. by eapply slot_inj.
  - intros E%(f_equal str_bytes). rewrite !compact_path_bytes in E. by eapply slot_inj.
  - intros E%(f_equal str_bytes). rewrite wal_path_bytes, compact_path_bytes in E.
    apply (f_equal reverse) in E. rewrite !(reverse_app (_ ++ _ ++ _)) in E. discriminate E.
Qed.

Lemma shard_files_disjoint_witness :
  bool_decide (wal_path "onced" 1 = wal_path "onced" 11) = false /\
  wal_path "onced" 11 = "onced.11.wal"%string /\
  compact_path (wal_path "onced" 11) = "onced.11.wal-compact"%string.
Proof.
  split; [|split; vm_compute; reflexivity]. apply bool_decide_eq_false. intros E.
  apply (proj1 (shard_files_disjoint "onced" 1 11 ltac:(by_eval) ltac:(by_eval))) in E. discriminate E.
Defined.

Lemma fingerprint_key_configured_witness :
  env_fingerprint_key
    (fun v => if String.eqb v "ONCED_FINGERPRINT_KEY"
              then Some "  000102030405060708090A0B0C0D0E0F101112131415161718191a1b1c1d1e1f"%string else None) "onced"
  = map (fun n => u8_of_Z (Z.of_nat n)) (seq 0 32).
Proof.
  set (env := fun v : string => _). set (s := "  000102030405060708090A0B0C0D0E0F101112131415161718191a1b1c1d1e1f"%string).
  destruct (fingerprint_key_configured env "onced" s (map (fun n => u8_of_Z (Z.of_nat n)) (seq 0 32))) as (Hiff & He & _).
  rewrite (He eq_refl). rewrite (proj2 Hiff); [reflexivity|]. split; vm_compute; reflexivity.
Defined.
