(* ===== verification/Restart.v ===== *)
(** * A restart of the whole gateway

    The composition of the binary, the router, the gateways, the engines and
    the logs: after a power loss the router that [main] builds from what the
    crash left of the shards' logs holds the same records, and a retry of a
    request that was answered before is answered with the same outcome without
    touching the backend. *)

From S2P Require Import Prelude Machine Str Decimal BTreeMap HashMap Types Store Engine History EngineSpec.
From S2P Require Import Hash Crc Codec Disk Wal WalLog WalSpec Abuse Http Gateway GatewaySpec Router Config.

Section restart.
Context {U : Type} `{!Upstream U} `{!HashOrder IdempotencyKey} `{!HashOrder string}.
Context (hash : string -> Z).

(** A shard as the binaries build and run it: a sound store in strict mode whose
    log has its directory entry on the device, the default time-to-live, the
    configured key. *)
Definition shard_running (fkey : list byte) (g : Gateway WalStore U) : Prop :=
  wal_ok (store (engine g)) /\ sync_each (store (engine g)) = true /\
  linked (disk (store (engine g))) /\ ttl_ms (engine g) = DEFAULT_TTL_MS /\
  fingerprint_key g = fkey.

(** A router of theirs in operation. *)
Definition shards_running (shard_count : Z) (fkey : list byte) (R : Router WalStore U) : Prop :=
  Forall (shard_running fkey) (shards R) /\ Z.of_nat (length (shards R)) = shard_count /\ shards R <> [].

(** What a power loss leaves in the shards' log files. *)
Definition logs_after_crash (prefix : string) (R : Router WalStore U) (files : string -> Disk) : Prop :=
  forall i g, shards R !! i = Some g -> crash_disk (disk (store (engine g))) (files (wal_path prefix (Z.of_nat i))).

(** The shard that is made of a reopened store. *)
Definition reopened (fkey : list byte) (u : U) (s : WalStore) : Gateway WalStore U :=
  with_fingerprint_key (Gateway_new (Engine.new s Config.LEASE_MS) RuleSet_new u) fkey.

(** The reopened shard holds the records of the old one. *)
Definition reborn (fkey : list byte) (u : U) (g g' : Gateway WalStore U) : Prop :=
  exists s, g' = reopened fkey u s /\ wal_ok s /\ index s = index (store (engine g)).

Lemma shard_reopens fkey g d :
  shard_running fkey g -> crash_disk (disk (store (engine g))) d ->
  exists s, WalStore_open d = Ok s /\ wal_ok s /\ index s = index (store (engine g)).
Proof.
  intros (Hok & Hs & Hd & _) Hc.
  destruct (crash_opens _ d true Hok ltac:(by apply Hok) Hd Hc) as (s & Ho & Hs' & Hi & _). eauto.
Qed.

(** The shards in order, from slot [n] on. *)
Lemma open_shards_ok fkey prefix u files gs n :
  Forall (shard_running fkey) gs ->
  (forall i g, gs !! i = Some g ->
     crash_disk (disk (store (engine g))) (files (wal_path prefix (Z.of_nat (n + i))))) ->
  exists gs', open_shards files prefix fkey u (map Z.of_nat (seq n (length gs))) = Ok gs' /\
    Forall2 (reborn fkey u) gs gs'.
Proof.
  intros Hgs. revert n; induction Hgs as [|g gs Hg _ IH]; intros n Hc; [by exists []|].
  destruct (shard_reopens fkey g _ Hg (Hc 0%nat g eq_refl)) as (s & Ho & Hs & Hi).
  destruct (IH (Datatypes.S n)) as (gs' & E & HF).
  { intros i g' Hi'. rewrite Nat.add_succ_comm. by apply (Hc (Datatypes.S i)). }
  rewrite Nat.add_0_r in Ho. cbn [length seq map open_shards]. rewrite Ho, E. eexists; split; [done|].
  constructor; [|done]. exists s. done.
Qed.

Lemma abuse_rules_built l :
  exists rss, mapM (fun _ : Z => abuse_rules) l = Some rss /\ length rss = length l /\
    Forall (fun rs => abuse_rules = Some rs) rss.
Proof.
  assert (exists rs, abuse_rules = Some rs) as [rs Ers] by (by eexists).
  rewrite Ers. induction l as [|x l (rss & IH & Hl & Hf)]; [by exists []|]. exists (rs :: rss). cbn [mapM].
  simpl. rewrite IH. simpl. rewrite Hl. by split_and!; [..|constructor].
Qed.

Lemma router_rebuilt prefix n fkey R files u :
  shards_running n fkey R -> logs_after_crash prefix R files ->
  exists R', router_at prefix n fkey files u = Ok (Some R') /\ router_ok R' /\ router_upstream R' = u /\
    Forall2 (reborn fkey u) (shards R) (shards R') /\ Forall (fun rs => abuse_rules = Some rs) (abuse R').
Proof.
  intros (Hgs & Hn & Hne) Hc. unfold router_at. rewrite <- Hn, Nat2Z.id.
  destruct (open_shards_ok fkey prefix u files (shards R) 0 Hgs) as (gs' & -> & HF); [by apply Hc|].
  destruct (abuse_rules_built (map Z.of_nat (seq 0 (length (shards R))))) as (rss & -> & Hl & Hrss).
  cbn [mbind option_bind]. pose proof (Forall2_length _ _ _ HF) as Hlen.
  rewrite length_map, length_seq in Hl.
  destruct (shards R) as [|g0 gs0]; [done|]. destruct gs' as [|g0' gs']; [done|]. destruct rss as [|rs rss]; [done|].
  eexists; split; [done|]. split_and!; [|done|done|done]. by split.
Qed.

(** The fresh abuse stage denies no first request. *)
Lemma fresh_abuse_allows (R : Router WalStore U) r now :
  router_ok R -> Forall (fun rs => abuse_rules = Some rs) (abuse R) -> 0 <= now < 2 ^ 64 - 1 ->
  abuse_denial hash R r now = None.
Proof.
  intros [_ Ha] Hf Hn. unfold abuse_denial, deny_if_abusive, abuse_for_identity.
  destruct (mod_index (abuse R) (hash (identity_of r)) Ha) as [rs Hrs]. rewrite Hrs. cbn [mbind option_bind].
  pose proof (Forall_lookup_1 _ _ _ _ Hf Hrs) as Ers. cbv beta in Ers. unfold abuse_rules, rule in Ers.
  destruct (SlidingWindowLimiter_new 1000 50) as [l|] eqn:El; [|done]. injection Ers as <-.
  unfold evaluate. cbn [Abuse.rules RuleSet_new app evaluate_rules limiter].
  pose proof (first_hit_allowed 1000 50 DEFAULT_MAX_KEYS l (identity_of r) now El ltac:(lia) ltac:(lia) Hn) as Hc.
  destruct (check l (identity_of r) now) as [d l']. cbn [fst] in Hc. by subst d.
Qed.

(** The records of the rebuilt shards. *)
Lemma reborn_records fkey u gs gs' :
  Forall2 (reborn fkey u) gs gs' ->
  map (fun g => records (engine g)) gs' = map (fun g => records (engine g)) gs.
Proof. induction 1 as [|g g' gs gs' (s & -> & _ & Hi) _ IH]; [done|]. cbn [map]. rewrite IH. by f_equal. Qed.

(** What the first phase of a rebuilt shard answers for a key that had an
    outcome. *)
Lemma reborn_answers n fkey u R R' r key g fp o t now :
  shards_running n fkey R -> Forall2 (reborn fkey u) (shards R) (shards R') ->
  header r "idempotency-key" = Some key -> shards R !! shard_for_key hash R key = Some g ->
  records (engine g) !! MkKey key = Some (Completed fp o t) -> now < expiry t DEFAULT_TTL_MS ->
  exists g', shards R' !! shard_for_key hash R' key = Some g' /\
    (begin_phase g' r now).1 = Done (if decide (fp = fingerprint_of r (fingerprint_key g))
                                     then tag (from_outcome o) "replayed" else tagged_status 422 "mismatch").
Proof.
  intros (Hgs & _) HF Hh Hg Hk Hlt. unfold shard_for_key, len. rewrite <- (Forall2_length _ _ _ HF).
  destruct (Forall2_lookup_l _ _ _ _ _ HF Hg) as (g' & Hg' & s & -> & Hs & Hi).
  pose proof (Forall_lookup_1 _ _ _ _ Hgs Hg) as (_ & _ & _ & _ & ->). exists (reopened fkey u s). split; [done|].
  destruct (begin_phase_completed (reopened fkey u s) r key fp o t now) as (Hp & _);
    [exact Hs | by unfold records; simpl; rewrite Hi | done | done | exact Hp].
Qed.

(** The configuration of [main]. *)
Definition router_running (env : string -> option string) (cpus : option Z) (R : Router WalStore U) : Prop :=
  shards_running (env_shards env cpus) (env_fingerprint_key env (env_or env "ONCED_WAL" "onced")) R.

Definition power_loss (env : string -> option string) (R : Router WalStore U) (files : string -> Disk) : Prop :=
  logs_after_crash (env_or env "ONCED_WAL" "onced") R files.

(** C8: exactly-once survives a restart of the gateway.  Let a power loss hit a
    router as [main] runs it, with the directory entries of the logs on the device.
    [main] started again with the same configuration builds a router (it neither
    fails nor panics) whose shards hold exactly the records of before; and a first
    request (with a path that is not operational) whose key had an outcome that has
    not expired is answered with it if it is the same request and with 422 if not,
    without calling the backend. *)
Theorem restart_replays env cpus R files u :
  router_running env cpus R -> power_loss env R files ->
  exists R', build_router env cpus files u = Ok (Some R') /\
    map (fun g => records (engine g)) (shards R') = map (fun g => records (engine g)) (shards R) /\
    forall r key g fp o t now,
      header r "idempotency-key" = Some key -> operational_response R' r = None ->
      shards R !! shard_for_key hash R key = Some g ->
      records (engine g) !! MkKey key = Some (Completed fp o t) ->
      0 <= now < 2 ^ 64 - 1 -> now < expiry t DEFAULT_TTL_MS ->
      exists R'', router_upstream R'' = u /\
        router_handle hash R' r now =
          Some (if decide (fp = fingerprint_of r (fingerprint_key g))
                then tag (from_outcome o) "replayed" else tagged_status 422 "mismatch", R'').
Proof.
  intros HR Hc. destruct (router_rebuilt _ _ _ R files u HR Hc) as (R' & E & Hok & Hu & HF & Hab).
  exists R'. split_and!; [exact E | by eapply reborn_records |].
  intros r key g fp o t now Hh Hop Hg Hk Hn Hlt. rewrite <- Hu.
  destruct (reborn_answers _ _ _ R R' r key g fp o t now HR HF Hh Hg Hk Hlt) as (g' & Hg' & Hp).
  destruct (handle_done hash R' r key g' _ now Hok Hh Hop Hg' Hp) as (resp & R'' & Eh & Eu & Hd).
  exists R''. split; [done|]. rewrite Eh. destruct Hd as [(rule & action & Hden & _)|[_ ->]]; [|done].
  by rewrite (fresh_abuse_allows R' r now Hok Hab Hn) in Hden.
Qed.

End restart.
