(* ===== verification/ServerWal.v ===== *)
(** * The server and the restart at concrete values

    A gateway over a strict log whose backend is on the wire, and a one-shard
    router that loses power: the statements of [Server] and [Restart] are
    applied to them. *)

From S2P Require Import Prelude Machine Str Decimal BTreeMap HashMap Types Store Engine History EngineSpec.
From S2P Require Import Hash Codec Disk Wal WalLog WalSpec Durability EngineWal Abuse Http HttpSpec.
From S2P Require Import Gateway GatewaySpec Router GatewayWal Server Config Restart.

#[local] Instance sw_key_order : HashOrder IdempotencyKey := default_order IdempotencyKey.
#[local] Instance sw_string_order : HashOrder string := default_order string.

(** A backend on the wire that counts its connections and answers each with the
    same bytes. *)
Record Wire := MkWire { connections : Z }.

Definition wire_response : Response := MkResponse 201 [("x-id", "7")]%string (str_bytes "done").

#[export] Instance Wire_Network : Network Wire := fun w _ _ =>
  (Some (write_response wire_response), MkWire (connections w + 1)).

Definition gw_wire : Gateway WalStore (HttpUpstream Wire) :=
  Gateway_new e0 RuleSet_new (HttpUpstream_new (MkWire 0) "127.0.0.1:9000").

Lemma charge_wf : wf_request (charge "100").
Proof. unfold wf_request, wf_word, no_crlf. by_eval. Qed.

Lemma connection_roundtrip_witness :
  exists output h', handle_connection gw_wire (write_request (charge "100") ++ str_bytes "next") 1000 = Ok (output, h') /\
    parse_response output =
      Ok (MkResponse 201 [("Content-Length", "4"); ("x-id", "7"); ("Onced-Status", "created")]%string
            (str_bytes "done"), []).
Proof.
  destruct (connection_roundtrip gw_wire (handle gw_wire (received (charge "100")) 1000).2 (charge "100")
              (str_bytes "next") 1000 (handle gw_wire (received (charge "100")) 1000).1) as (output & E1 & E2).
  - exact charge_wf.
  - unfold handle_request, Gateway_Handle. by destruct (handle gw_wire _ 1000).
  - unfold wf_response. by_eval.
  - exists output, (handle gw_wire (received (charge "100")) 1000).2. split; [exact E1|].
    rewrite E2. vm_compute. reflexivity.
Defined.

Lemma retry_over_the_wire_witness :
  exists g1 g2,
    handle_connection gw_wire (write_request (charge "100")) 1000 =
      Ok (write_response (tag (response_received wire_response) "created"), g1) /\
    connections (network (upstream g1)) = 1 /\
    handle_connection g1 (write_request (charge "100") ++ str_bytes "next") 2000 =
      Ok (write_response (tag (from_outcome (to_outcome (response_received wire_response))) "replayed"), g2) /\
    upstream g2 = upstream g1.
Proof.
  destruct (retry_over_the_wire gw_wire (charge "100") "order-1" (response_received wire_response)
              (write_response wire_response) [] (MkWire 1) 1000 2000 [] (str_bytes "next"))
    as (g1 & g2 & E1 & En & E2 & Eu).
  - apply e0_inv.
  - apply e0_inv.
  - by_eval.
  - reflexivity.
  - exact charge_wf.
  - discriminate.
  - discriminate.
  - reflexivity.
  - apply wal_admits_request; by_eval.
  - apply wal_admits_outcome; [unfold wf_outcome, wf_headers; by_eval | by_eval..].
  - exact I.
  - reflexivity.
  - vm_compute. reflexivity.
  - reflexivity.
  - vm_compute. reflexivity.
  - exists g1, g2. rewrite app_nil_r in E1. split; [exact E1|]. split; [by rewrite En|]. split; [exact E2 | exact Eu].
Defined.

(** ** A router that loses power *)

Definition one_shard_env (v : string) : option string :=
  if String.eqb v "ONCED_SHARDS" then Some "1"%string else None.

(** The shard of [e2], which has answered one request, as [main] runs it. *)
Definition shard_before : Gateway WalStore Counter :=
  MkGateway (MkEngine (store e2) Config.LEASE_MS DEFAULT_TTL_MS 2) RuleSet_new (MkCounterBackend 1) metrics_default
    (env_fingerprint_key one_shard_env "onced").
Definition router_before : Router WalStore Counter := MkRouter [shard_before] [RuleSet_new] (MkCounterBackend 1) 0 0.

Lemma router_before_running : router_running one_shard_env None router_before.
Proof.
  split_and!; [|reflexivity|done]. constructor; [|constructor].
  split_and!; [apply e2_inv | vm_compute; reflexivity | vm_compute; reflexivity | reflexivity | reflexivity].
Qed.

Lemma router_before_power_loss : power_loss one_shard_env router_before (fun _ => crashed).
Proof.
  intros [|i] g Hg; [|done]. injection Hg as <-. apply (crash_log (disk (store e2)) _ None). apply crash_contents.
Qed.

Lemma restart_replays_witness :
  exists R' resp R'', build_router one_shard_env None (fun _ => crashed) (MkCounterBackend 0) = Ok (Some R') /\
    router_handle one_hash R' (charge "100") 3000 = Some (resp, R'') /\ router_upstream R'' = MkCounterBackend 0.
Proof.
  destruct (restart_replays one_hash one_shard_env None router_before (fun _ => crashed) (MkCounterBackend 0)
              router_before_running router_before_power_loss) as (R' & E & _ & Hr).
  destruct (Hr (charge "100") "order-1"%string shard_before sample_fp sample_outcome 2000 3000)
    as (R'' & Eu & Eh).
  - reflexivity.
  - reflexivity.
  - reflexivity.
  - vm_compute. reflexivity.
  - lia.
  - vm_compute. reflexivity.
  - match type of Eh with _ = Some (?resp, _) => exists R', resp, R'' end. split; [exact E|]. split; [exact Eh | exact Eu].
Defined.
