(* ===== verification/Uring.v ===== *)
(** * The io_uring transport ([onced-uring/src/main.rs])

    A socket is what its reads give, in order: [Ok] of some bytes (none when the
    peer has closed) or an error; past the end of the list the peer has closed.
    Connecting to the backend and writing to it is behind the class [Sockets].
    A parser that panics ends the task; that is kept apart from the errors that
    the loops inspect.  The runtime, the accept loop and the listening socket
    are not part of the model. *)

From S2P Require Import Prelude Machine Str Decimal BTreeMap HashMap Types Store Engine Hash Codec Abuse.
From S2P Require Import Http HttpSpec Gateway GatewaySpec Router Async.

Definition LEASE_MS : Z := 30000.
Definition MAX_REQUEST : Z := 256 * 1024.

(** ** The router of [main] *)

Definition env_threads (env : string -> option string) (cpus : option Z) : Z :=
  match (v ← env "ONCED_THREADS"%string; n ← parse_usize v; if 0 <? n then Some n else None) with
  | Some n => n
  | None => default 1 cpus
  end.

(** One shard and one rule set per thread; [None] is the panic of the
    constructor. *)
Definition uring_router `{!HashOrder IdempotencyKey} (env : string -> option string) (cpus : option Z)
  : option (Router MemoryStore NoopUpstream) :=
  let threads := Z.to_nat (env_threads env cpus) in
  let shards := replicate threads (Gateway_new (Engine.new MemoryStore_new LEASE_MS) RuleSet_new MkNoop) in
  let abuse := replicate threads RuleSet_new in
  Router_new shards abuse MkNoop.

(** ** Reading a request *)

Definition Reads : Type := list (result (list byte) unit).

Inductive ServeError := ReadFailed | Panicked.

(** The loop of [read_request] with the bytes accumulated so far. *)
Fixpoint read_request (acc : list byte) (reads : Reads) : result (option Request) ServeError :=
  match reads with
  | [] => Ok None
  | Err _ :: _ => Err ReadFailed
  | Ok chunk :: reads =>
      if bool_decide (chunk = []) then Ok None
      else
        let acc := acc ++ chunk in
        match parse_request acc with
        | Ok (Some (request, _)) => Ok (Some request)
        | Ok None => Ok None
        | Err CapacityOverflow => Err Panicked
        | Err _ => if len acc <? MAX_REQUEST then read_request acc reads else Ok None
        end
  end.

(** ** Forwarding *)

(** Connect to an address and write the bytes: [None] if either fails, else the
    reads of the reply. *)
Class Sockets (N : Type) := connect_write : N -> string -> list byte -> option Reads * N.

(** Read until the peer closes. *)
Fixpoint read_all (acc : list byte) (reads : Reads) : result (list byte) unit :=
  match reads with
  | [] => Ok acc
  | Err _ :: _ => Err tt
  | Ok chunk :: reads => if bool_decide (chunk = []) then Ok acc else read_all (acc ++ chunk) reads
  end.

Section transport.
Context {S N : Type} `{Store S} `{!Sockets N} `{!HashOrder string}.
Context (hash : string -> Z).
Implicit Types R : Router S NoopUpstream.

(** [None] is the panic of the parser. *)
Definition uring_forward (backend : string) (request : Request) (n : N) : option (result Response unit * N) :=
  let (sent, n) := connect_write n backend (write_request request) in
  match sent with
  | None => Some (Err tt, n)
  | Some reads =>
      match read_all [] reads with
      | Err _ => Some (Err tt, n)
      | Ok acc =>
          match parse_response acc with
          | Ok (response, _) => Some (Ok response, n)
          | Err CapacityOverflow => None
          | Err _ => Some (Err tt, n)
          end
      end
  end.

(** The bytes sent to the client (none if the connection is just closed), the
    router and the network. *)
Definition serve_connection R (backend : string) (n : N) (reads : Reads) (now_ms : Z)
  : result (list byte * Router S NoopUpstream * N) ServeError :=
  match read_request [] reads with
  | Err e => Err e
  | Ok None => Ok ([], R, n)
  | Ok (Some request) =>
      match router_handle_async hash R request now_ms (uring_forward backend request) n with
      | None => Err Panicked
      | Some (response, R, n) => Ok (write_response response, R, n)
      end
  end.

(** What the connection does with a request that has been read. *)
Definition served R (backend : string) (n : N) (request : Request) (now_ms : Z)
  : result (list byte * Router S NoopUpstream * N) ServeError :=
  match router_handle_async hash R request now_ms (uring_forward backend request) n with
  | None => Err Panicked
  | Some (response, R, n) => Ok (write_response response, R, n)
  end.

Lemma serve_read R backend n reads request now :
  read_request [] reads = Ok (Some request) ->
  serve_connection R backend n reads now = served R backend n request now.
Proof. intros E. unfold serve_connection. by rewrite E. Qed.

(** ** Fragmented bodies *)

(** What [write_request] sends before the body. *)
Definition request_head (r : Request) : list byte :=
  request_line (method r) (target r) ++ CRLF ++ mjoin (map header_line (req_headers (received r))) ++ CRLF.

Lemma write_request_head r : write_request r = request_head r ++ req_body r.
Proof. rewrite write_request_eq. unfold request_head. by rewrite <- !app_assoc. Qed.

Lemma parse_head_body r x :
  wf_request r -> parse_request (request_head r ++ x) = with_body (method r) (target r) (req_headers (received r)) x.
Proof.
  intros Hr. pose proof Hr as (Hm & Ht & _). unfold request_head. rewrite <- !app_assoc.
  apply parse_request_head; [done..|]. by apply received_headers_wf.
Qed.

Lemma parse_partial_body r x y :
  wf_request r -> x ++ y = req_body r -> y <> [] -> parse_request (request_head r ++ x) = Err UnexpectedEof.
Proof.
  intros Hr Hxy Hy. rewrite parse_head_body by done. destruct Hr as (_ & _ & _ & Hb). unfold with_body.
  rewrite received_length, <- Hxy by done. rewrite <- Hxy in Hb. unfold read_body, read_exact, len in *.
  rewrite (proj2 (Z.ltb_ge _ _) Hb). rewrite length_app. destruct y as [|b y]; [done|]. simpl length.
  rewrite (proj2 (Z.ltb_lt _ _)) by lia. by rewrite (proj2 (Z.leb_gt _ _)) by lia.
Qed.

(** One read that ends in the body: the request is complete, or the loop goes on. *)
Lemma read_piece r acc c b y reads :
  wf_request r -> len (write_request r) <= MAX_REQUEST ->
  c <> [] -> acc ++ c = request_head r ++ b -> b ++ y = req_body r ->
  read_request acc (Ok c :: reads) =
  if bool_decide (y = []) then Ok (Some (received r)) else read_request (request_head r ++ b) reads.
Proof.
  intros Hr Hl Hc Hacc Hb. cbn [read_request]. rewrite bool_decide_false, Hacc by done.
  rewrite write_request_head in Hl. case_bool_decide as Hy.
  - subst y. rewrite app_nil_r in Hb. rewrite Hb, <- write_request_head.
    rewrite <- (app_nil_r (write_request r)). by rewrite parse_written_request.
  - rewrite (parse_partial_body r b y) by done. rewrite (proj2 (Z.ltb_lt _ _)); [done|].
    rewrite <- Hb in Hl. unfold len in *. rewrite !length_app in *. destruct y; [done|]. simpl in Hl. lia.
Qed.

Lemma read_fragments r acc c b chunks more :
  wf_request r -> len (write_request r) <= MAX_REQUEST ->
  c <> [] -> acc ++ c = request_head r ++ b -> Forall (fun c => c <> []) chunks -> b ++ mjoin chunks = req_body r ->
  read_request acc (Ok c :: map Ok chunks ++ more) = Ok (Some (received r)).
Proof.
  intros Hr Hl Hc Hacc Hcs. revert acc c b Hc Hacc. induction Hcs as [|c' chunks Hc' Hcs IH]; intros acc c b Hc Hacc Hb;
    rewrite (read_piece r acc c b _ _ Hr Hl Hc Hacc Hb); case_bool_decide as Hy; try done.
  change (mjoin (c' :: chunks)) with (c' ++ mjoin chunks) in Hb. cbn [map app].
  apply (IH _ c' (b ++ c')); [done | by rewrite app_assoc | by rewrite <- app_assoc].
Qed.

(** A body that arrives in pieces is reassembled.  When a well-formed
    request of at most [MAX_REQUEST] bytes arrives with its whole head in the
    first read and its body cut anywhere into further reads, the connection
    serves exactly that request, whatever follows it. *)
Theorem uring_body_fragments R backend n r b chunks more now :
  wf_request r -> len (write_request r) <= MAX_REQUEST ->
  Forall (fun c => c <> []) chunks -> b ++ mjoin chunks = req_body r ->
  serve_connection R backend n (Ok (request_head r ++ b) :: map Ok chunks ++ more) now =
  served R backend n (received r) now.
Proof.
  intros Hr Hl Hc Hb. apply serve_read, (read_fragments r [] _ b); [done | done | | done..].
  unfold request_head, request_line. by destruct (str_bytes (method r)).
Qed.

(** ** Fragmented heads *)

(** C31: a head that arrives in pieces is cut short.  When the first read of a
    well-formed request ends after some header lines, none of them Content-Length,
    the connection does not wait for the rest: it serves at once the request with
    just those headers and no body, whatever is still to come.  If the
    Idempotency-Key is not among them (on a sound router, the path is not
    operational and the abuse stage lets it pass), that request is forwarded to the
    backend, the backend's answer is sent to the client (502 if the call fails;
    nothing if parsing the answer panics), and no engine records anything, so a
    retry reaches the backend again. *)
Theorem uring_head_truncated R backend n r hs hs' more now :
  wf_request r -> req_headers (received r) = hs ++ hs' -> find_header "content-length" hs = None ->
  let chunk := request_line (method r) (target r) ++ CRLF ++ mjoin (map header_line hs) in
  let cut := MkRequest (method r) (target r) hs [] in
  chunk `prefix_of` write_request r /\
  serve_connection R backend n (Ok chunk :: more) now = served R backend n cut now /\
  (find_header "idempotency-key" hs = None -> router_ok R -> operational_response R cut = None ->
   abuse_denial hash R cut now = None ->
   match uring_forward backend cut n with
   | None => serve_connection R backend n (Ok chunk :: more) now = Err Panicked
   | Some (res, n') =>
       exists R', serve_connection R backend n (Ok chunk :: more) now =
           Ok (write_response (match res with Ok response => response | Err _ => bad_gateway end), R', n') /\
         map engine (shards R') = map engine (shards R)
   end).
Proof.
  intros Hr Hhs Hcl chunk cut. pose proof (received_headers_wf r Hr) as Hwf. rewrite Hhs in Hwf.
  apply Forall_app in Hwf as [Hwf _]. pose proof Hr as (Hm & Ht & _).
  assert (serve_connection R backend n (Ok chunk :: more) now = served R backend n cut now) as Es.
  { apply serve_read. cbn [read_request]. rewrite bool_decide_false
      by (unfold chunk, request_line; by destruct (str_bytes (method r))).
    cbn [app]. unfold chunk. rewrite parse_request_cut by done. unfold with_body, content_length_of.
    by rewrite Hcl. }
  split_and!; [|exact Es|].
  - rewrite write_request_eq, Hhs, map_app, join_app. unfold chunk. do 2 apply prefix_app.
    rewrite <- !app_assoc. by apply prefix_app_r.
  - intros Hk Hok Hop Hden. rewrite Es. unfold served.
    pose proof (async_keyless hash R cut now (uring_forward backend cut) n Hok Hk Hop Hden) as Ha.
    destruct (uring_forward backend cut n) as [[res n']|]; [|by rewrite Ha].
    destruct Ha as (R' & -> & He). by exists R'.
Qed.

(** ** Bounds *)

Lemma read_request_stops acc chunks more more' :
  MAX_REQUEST <= len (acc ++ mjoin chunks) -> chunks <> [] ->
  read_request acc (map Ok chunks ++ more) = read_request acc (map Ok chunks ++ more').
Proof.
  revert acc; induction chunks as [|c chunks IH]; intros acc Hl Hne; [done|].
  change (mjoin (c :: chunks)) with (c ++ mjoin chunks) in Hl. rewrite app_assoc in Hl.
  cbn [map app read_request]. case_bool_decide; [done|]. destruct (parse_request (acc ++ c)) as [|e]; [done|].
  destruct (Z.ltb_spec (len (acc ++ c)) MAX_REQUEST) as [H'|H']; [|done].
  assert (chunks <> []) as Hne'.
  { intros ->. rewrite (app_nil_r (acc ++ c) : (acc ++ c) ++ mjoin [] = acc ++ c) in Hl. lia. }
  by rewrite (IH (acc ++ c) Hl Hne').
Qed.

(** A connection buffers a bounded request.  Once [MAX_REQUEST] bytes have
    arrived nothing more is read: what the connection does is decided by those
    reads, so with reads of at most 8192 bytes it holds fewer than
    [MAX_REQUEST + 8192] bytes. *)
Theorem uring_read_bounded R backend n chunks more more' now :
  MAX_REQUEST <= len (mjoin chunks) ->
  serve_connection R backend n (map Ok chunks ++ more) now =
  serve_connection R backend n (map Ok chunks ++ more') now.
Proof.
  intros Hl. unfold serve_connection. rewrite (read_request_stops [] chunks more more'); [done | done|].
  by intros ->.
Qed.

End transport.

(** ** Concrete connections *)

#[local] Instance uring_key_order : HashOrder IdempotencyKey := default_order IdempotencyKey.
#[local] Instance uring_string_order : HashOrder string := default_order string.

(** A backend that counts its connections and answers in two reads. *)
Record Remote := MkRemote { connected : Z }.
#[export] Instance Remote_Sockets : Sockets Remote := fun w _ _ =>
  (Some [Ok (str_bytes "HTTP/1.1 200 OK" ++ CRLF ++ CRLF); Ok (str_bytes "paid")], MkRemote (connected w + 1)).

Definition charge_request : Request :=
  MkRequest "POST" "/charge" [("Host", "a"); ("Idempotency-Key", "order-1")]%string (str_bytes "amount=100").

Definition two_threads (v : string) : option string :=
  if String.eqb v "ONCED_THREADS" then Some "2"%string else None.

Definition uring0 : Router MemoryStore NoopUpstream :=
  match uring_router two_threads None with Some R => R | None => MkRouter [] [] MkNoop 0 0 end.

Lemma charge_request_wf : wf_request charge_request.
Proof. unfold wf_request, wf_word, no_crlf. by_eval. Qed.

Definition backend_calls (res : result (list byte * Router MemoryStore NoopUpstream * Remote) ServeError) : option Z :=
  match res with Ok (_, _, n) => Some (connected n) | Err _ => None end.

Lemma uring_body_fragments_witness :
  serve_connection (fun _ => 7) uring0 "127.0.0.1:9000" (MkRemote 0)
    (Ok (request_head charge_request ++ str_bytes "amo") :: map Ok [str_bytes "unt"; str_bytes "=100"] ++ [Err tt]) 1000 =
  served (fun _ => 7) uring0 "127.0.0.1:9000" (MkRemote 0) (received charge_request) 1000 /\
  backend_calls (served (fun _ => 7) uring0 "127.0.0.1:9000" (MkRemote 0) (received charge_request) 1000) = Some 1.
Proof.
  split; [|vm_compute; reflexivity].
  apply (uring_body_fragments (fun _ => 7) uring0 "127.0.0.1:9000" (MkRemote 0) charge_request (str_bytes "amo")
           [str_bytes "unt"; str_bytes "=100"] [Err tt] 1000).
  - exact charge_request_wf.
  - by_eval.
  - by_eval.
  - reflexivity.
Defined.

(** The request and its retry both reach the backend: the key was in the part
    of the head that had not arrived. *)
Lemma uring_head_truncated_witness :
  let cut := MkRequest "POST" "/charge" [("Host", "a")]%string [] in
  let chunk := str_bytes "POST /charge HTTP/1.1" ++ CRLF ++ str_bytes "Host: a" ++ CRLF in
  serve_connection (fun _ => 7) uring0 "127.0.0.1:9000" (MkRemote 0) [Ok chunk] 1000 =
  served (fun _ => 7) uring0 "127.0.0.1:9000" (MkRemote 0) cut 1000 /\
  (exists R' output n', serve_connection (fun _ => 7) uring0 "127.0.0.1:9000" (MkRemote 0) [Ok chunk] 1000 = Ok (output, R', n') /\
     map engine (shards R') = map engine (shards uring0)) /\
  match serve_connection (fun _ => 7) uring0 "127.0.0.1:9000" (MkRemote 0) [Ok chunk] 1000 with
  | Ok (_, R, n) => backend_calls (serve_connection (fun _ => 7) R "127.0.0.1:9000" n [Ok chunk] 2000) = Some 2
  | Err _ => False
  end.
Proof.
  cbv zeta. apply and_assoc. split; [|vm_compute; reflexivity].
  destruct (uring_head_truncated (fun _ => 7) uring0 "127.0.0.1:9000" (MkRemote 0) charge_request
              [("Host", "a")]%string
              [("Idempotency-Key", "order-1"); ("Content-Length", "10"); ("Connection", "close")]%string [] 1000
              charge_request_wf) as (_ & E & Hfwd).
  - vm_compute. reflexivity.
  - reflexivity.
  - split; [exact E|].
    destruct Hfwd as (R' & Es & He).
    + reflexivity.
    + split; discriminate.
    + vm_compute. reflexivity.
    + vm_compute. reflexivity.
    + match type of Es with _ = Ok (?output, _, ?n) => exists R', output, n end. split; [exact Es | exact He].
Defined.

Lemma uring_read_bounded_witness :
  serve_connection (fun _ => 7) uring0 "127.0.0.1:9000" (MkRemote 0)
    (map Ok (replicate 32 (replicate (Z.to_nat 8192) x41)) ++ [Err tt]) 1000 =
  serve_connection (fun _ => 7) uring0 "127.0.0.1:9000" (MkRemote 0)
    (map Ok (replicate 32 (replicate (Z.to_nat 8192) x41)) ++ []) 1000.
Proof.
  apply (uring_read_bounded (fun _ => 7) uring0 "127.0.0.1:9000" (MkRemote 0)
           (replicate 32 (replicate (Z.to_nat 8192) x41)) [Err tt] [] 1000).
  by_eval.
Defined.
