(* ===== verification/Fast.v ===== *)
(** * The asynchronous proxy ([onced-fast/src/lib.rs])

    The proxy converts between the messages of its HTTP libraries and those of
    the gateway and drives [handle_async].  What it uses of the libraries is
    behind two classes: [Axum] for the front door, [Reqwest] for the pooled
    client, whose state is the backend's world.  Timeouts and pooling
    belong to the libraries; the tasks and the sweep of a running binary are in
    [Service].  The binary ([onced-fast/src/main.rs]) has configuration functions
    of its own, which repeat those of the gateway. *)

From S2P Require Import Prelude Machine Str BTreeMap HashMap Types Store Engine Hash Codec Abuse.
From S2P Require Import Disk Wal WalSpec Http Gateway GatewaySpec Router Async Config Restart.

(** The request head of [axum::http]: the headers in the order of iteration. *)
Record Parts (V : Type) := MkParts {
  parts_method : string;
  path_and_query : option string;
  parts_headers : list (string * V);
}.
Arguments MkParts {V} _ _ _.
Arguments parts_method {V} _.
Arguments path_and_query {V} _.
Arguments parts_headers {V} _.

(** A body is buffered up to a limit ([None] past it, or if it breaks off); a
    header value may not be text; a response is refused by its builder if it is
    not one of HTTP. *)
Class Axum (B V A : Type) := {
  to_bytes : B -> Z -> option (list byte);
  to_str : V -> option string;
  build : Z -> list (string * string) -> list byte -> option A;
}.

(** The documented behaviour of the library that the proxy relies on. *)
Class AxumLaws (B V A : Type) `{!Axum B V A} := {
  to_bytes_limit (b : B) limit l : to_bytes b limit = Some l -> len l <= limit;
  (** a response with a standard status and no headers can always be built *)
  build_plain status l : 200 <= status < 600 -> is_Some (build status [] l);
}.

(** What the client receives: the body may break off. *)
Record Reply (V : Type) := MkReply {
  reply_status : Z;
  reply_headers : list (string * V);
  reply_bytes : option (list byte);
}.
Arguments MkReply {V} _ _ _.
Arguments reply_status {V} _.
Arguments reply_headers {V} _.
Arguments reply_bytes {V} _.

(** [send] runs a request given by its method, URL, headers and body; it fails on
    an invalid header as well. *)
Class Reqwest (C V : Type) := {
  ReqMethod : Type;
  from_bytes : list byte -> option ReqMethod;
  send : C -> ReqMethod -> string -> list (string * string) -> option (list byte) -> option (Reply V) * C;
}.

Definition MAX_BODY : Z := 1024 * 1024.

Record Proxy (S C : Type) := MkProxy {
  router : Router S NoopUpstream;
  client : C;
  base : string;
  max_body : Z;
}.
Arguments MkProxy {S C} _ _ _ _.
Arguments router {S C} _.
Arguments client {S C} _.
Arguments base {S C} _.
Arguments max_body {S C} _.

(** [str::starts_with]. *)
Definition starts_with (s prefix : string) : bool :=
  bool_decide (take (length (str_bytes prefix)) (str_bytes s) = str_bytes prefix).

Definition with_client {S C : Type} (router : Router S NoopUpstream) (backend : string) (client : C) (max_body : Z)
  : Proxy S C :=
  let backend := if negb (starts_with backend "http://") && negb (starts_with backend "https://")
                 then ("http://" +:+ backend)%string else backend in
  MkProxy router client backend max_body.

Definition Proxy_new {S C : Type} (router : Router S NoopUpstream) (backend : string) (client : C) : Proxy S C :=
  with_client router backend client MAX_BODY.

(** The configuration functions of the binary repeat those of the gateway's line
    for line. *)
Definition fast_env_or : (string -> option string) -> string -> string -> string := env_or.
Definition fast_env_shards : (string -> option string) -> option Z -> Z := env_shards.
Definition fast_hex_nibble : byte -> option Z := hex_nibble.
Definition fast_parse_hex32 : string -> option (list byte) := parse_hex32.
Definition fast_env_fingerprint_key (env : string -> option string) (wal_prefix : string) : list byte :=
  match env "ONCED_FINGERPRINT_KEY"%string with
  | Some hex => match fast_parse_hex32 hex with
                | Some key => key
                | None => sha256 (str_bytes wal_prefix)
                end
  | None => sha256 (str_bytes wal_prefix)
  end.

Section proxy.
Context {S C B V A : Type} `{Store S} `{!Axum B V A} `{!Reqwest C V} `{!HashOrder string}.
Context (hash : string -> Z).

(** The proxy of the binary's [main]. *)
Definition build_proxy `{!HashOrder IdempotencyKey} (env : string -> option string) (cpus : option Z)
    (files : string -> Disk) (client : C) : result (option (Proxy WalStore C)) OpenError :=
  let backend := fast_env_or env "ONCED_BACKEND" "127.0.0.1:9000" in
  let wal_prefix := fast_env_or env "ONCED_WAL" "onced-fast" in
  let shard_count := fast_env_shards env cpus in
  let fingerprint_key := fast_env_fingerprint_key env wal_prefix in
  match router_at wal_prefix shard_count fingerprint_key files MkNoop with
  | Err e => Err e
  | Ok None => Ok None
  | Ok (Some router) => Ok (Some (Proxy_new router backend client))
  end.

(** The headers whose values are text. *)
Fixpoint text_headers (headers : list (string * V)) : list (string * string) :=
  match headers with
  | [] => []
  | (name, value) :: headers =>
      match to_str value with
      | Some v => (name, v) :: text_headers headers
      | None => text_headers headers
      end
  end.

(** The client owns the host and the framing. *)
Definition client_headers (headers : list (string * string)) : list (string * string) :=
  List.filter (fun nv => negb (eq_ignore_ascii_case nv.1 "host" || eq_ignore_ascii_case nv.1 "content-length"
                               || eq_ignore_ascii_case nv.1 "connection")) headers.

Definition fast_forward (backend : string) (req : Request) (client : C) : result Response unit * C :=
  let url := (backend +:+ target req)%string in
  match from_bytes (str_bytes (method req)) with
  | None => (Err tt, client)
  | Some m =>
      let body := if bool_decide (req_body req = []) then None else Some (req_body req) in
      let (reply, client) := send client m url (client_headers (req_headers req)) body in
      match reply with
      | None => (Err tt, client)
      | Some resp =>
          match reply_bytes resp with
          | None => (Err tt, client)
          | Some bytes => (Ok (MkResponse (reply_status resp) (text_headers (reply_headers resp)) bytes), client)
          end
      end
  end.

Definition to_onced_request (parts : Parts V) (body : list byte) : Request :=
  MkRequest (parts_method parts) (default "/"%string (path_and_query parts)) (text_headers (parts_headers parts)) body.

(** [None] is the panic of [expect]. *)
Definition text_response (status : Z) (message : string) : option A := build status [] (str_bytes message).

Definition to_axum_response (resp : Response) : option A :=
  match build (resp_status resp) (resp_headers resp) (resp_body resp) with
  | Some a => Some a
  | None => text_response 502 "malformed upstream response"
  end.

(** The response and the proxy after it; [None] is a panic. *)
Definition dispatch (p : Proxy S C) (parts : Parts V) (body : B) (now_ms : Z) : option (A * Proxy S C) :=
  match to_bytes body (max_body p) with
  | None => a ← text_response 413 "request body too large"; Some (a, p)
  | Some bytes =>
      let onced_req := to_onced_request parts bytes in
      '(response, R, c) ← router_handle_async hash (router p) onced_req now_ms
                            (fun c => Some (fast_forward (base p) onced_req c)) (client p);
      a ← to_axum_response response;
      Some (a, MkProxy R c (base p) (max_body p))
  end.

(** ** The proxy as a synchronous gateway *)

(** The backend of the proxy behind the trait of the synchronous one. *)
Record FastUpstream := MkFastUpstream { fast_client : C; fast_base : string }.

#[local] Instance FastUpstream_Upstream : Upstream FastUpstream := fun u r =>
  let (res, c) := fast_forward (fast_base u) r (fast_client u) in (res, MkFastUpstream c (fast_base u)).

(** The proxy of a router that owns its backend. *)
Definition proxy_of (R : Router S FastUpstream) (max_body : Z) : Proxy S C :=
  MkProxy (detach R) (fast_client (router_upstream R)) (fast_base (router_upstream R)) max_body.

Lemma dispatch_sync R max parts body now :
  dispatch (proxy_of R max) parts body now =
  match to_bytes body max with
  | None => a ← text_response 413 "request body too large"; Some (a, proxy_of R max)
  | Some bytes =>
      '(resp, R') ← router_handle hash R (to_onced_request parts bytes) now;
      a ← to_axum_response resp; Some (a, proxy_of R' max)
  end.
Proof.
  unfold dispatch. cbn [proxy_of max_body router client base]. destruct (to_bytes body max) as [bytes|]; [|done].
  set (r := to_onced_request parts bytes). set (b := fast_base (router_upstream R)).
  pose proof (async_is_sync hash R r now) as E.
  replace (router_upstream R) with (MkFastUpstream (fast_client (router_upstream R)) b) in E
    by (subst b; by destruct (router_upstream R)).
  rewrite (async_world hash (fun c => MkFastUpstream c b) (detach R) r now (fun c => Some (fast_forward b r c))) in E.
  2:{ intros c. unfold forward, FastUpstream_Upstream. simpl. by destruct (fast_forward b r c). }
  revert E.
  destruct (router_handle_async hash (detach R) r now _ (fast_client (router_upstream R))) as [[[resp R1] c]|];
    destruct (router_handle hash R r now) as [[resp' R']|]; cbn; try done.
  intros [= -> -> E]. unfold proxy_of. by rewrite <- E.
Qed.

Lemma to_axum_some `{!AxumLaws B V A} resp : is_Some (to_axum_response resp).
Proof. unfold to_axum_response. destruct (build _ _ _); [by eexists|]. by apply build_plain. Qed.

(** C29: the proxy is the synchronous gateway with another transport.  It never
    panics: a body over the limit is answered with 413 and touches nothing (no
    shard, no counter, no backend), and any other request is answered with the
    response of the synchronous router whose backend is the pooled client, with
    the same effect on shards, abuse state and backend. *)
Theorem fast_dispatch_synchronous `{!AxumLaws B V A} R max parts body now :
  router_ok R ->
  exists a p, dispatch (proxy_of R max) parts body now = Some (a, p) /\
    ((to_bytes body max = None /\ text_response 413 "request body too large" = Some a /\ p = proxy_of R max) \/
     exists bytes resp R', to_bytes body max = Some bytes /\ len bytes <= max /\
       router_handle hash R (to_onced_request parts bytes) now = Some (resp, R') /\
       to_axum_response resp = Some a /\ p = proxy_of R' max).
Proof.
  intros Hok. rewrite dispatch_sync. destruct (to_bytes body max) as [bytes|] eqn:Eb.
  - destruct (handle_total hash R (to_onced_request parts bytes) now Hok) as [[resp R'] E]. rewrite E.
    destruct (to_axum_some resp) as [a Ea]. cbn. rewrite Ea. cbn. do 2 eexists. split; [done|]. right.
    exists bytes, resp, R'. split_and!; [done | by eapply to_bytes_limit | done..].
  - destruct (build_plain 413 (str_bytes "request body too large") ltac:(lia)) as [a Ea].
    unfold text_response. rewrite Ea. cbn. do 2 eexists. split; [done|]. by left.
Qed.

End proxy.

(** ** A restart of the proxy *)

Section fast_restart.
Context {C B V A : Type} `{!Axum B V A} `{!Reqwest C V} `{!HashOrder IdempotencyKey} `{!HashOrder string}.
Context (hash : string -> Z).

(** Exactly-once survives a restart of the asynchronous proxy.  When a power
    loss hits the router of a proxy as its [main] runs it, [main] started again
    with the same configuration builds a proxy whose shards hold exactly the
    records of before, and a request whose key had an outcome that has not
    expired is answered with it (or 422 for another request, or 429 by the abuse
    stage) without using the client. *)
Theorem fast_restart_replays env cpus (R : Router WalStore NoopUpstream) files (c : C) :
  let prefix := env_or env "ONCED_WAL" "onced-fast" in
  shards_running (env_shards env cpus) (env_fingerprint_key env prefix) R -> logs_after_crash prefix R files ->
  exists p, build_proxy env cpus files c = Ok (Some p) /\
    map (fun g => records (engine g)) (shards (router p)) = map (fun g => records (engine g)) (shards R) /\
    forall (parts : Parts V) (body : B) bytes key g fp o t now,
      to_bytes body MAX_BODY = Some bytes ->
      let r := to_onced_request parts bytes in
      header r "idempotency-key" = Some key -> operational_response (router p) r = None ->
      shards R !! shard_for_key hash R key = Some g ->
      records (engine g) !! MkKey key = Some (Completed fp o t) -> now < expiry t DEFAULT_TTL_MS ->
      exists resp p', dispatch hash p parts body now = (a ← to_axum_response resp; Some (a, p')) /\ client p' = c /\
        ((exists rule action, resp = too_many_requests rule action) \/
         resp = (if decide (fp = fingerprint_of r (fingerprint_key g))
                 then tag (from_outcome o) "replayed" else tagged_status 422 "mismatch")).
Proof.
  intros prefix HR Hc. destruct (router_rebuilt prefix _ _ R files MkNoop HR Hc) as (R' & E & Hok & _ & HF & _).
  exists (Proxy_new R' (env_or env "ONCED_BACKEND" "127.0.0.1:9000") c). split_and!.
  - unfold build_proxy. change (fast_env_fingerprint_key env) with (env_fingerprint_key env).
    unfold fast_env_or, fast_env_shards. fold prefix. by rewrite E.
  - by eapply reborn_records.
  - intros parts body bytes key g fp o t now Hb r Hh Hop Hg Hk Hlt.
    destruct (reborn_answers hash _ _ _ R R' r key g fp o t now HR HF Hh Hg Hk Hlt) as (g' & Hg' & Hp).
    unfold dispatch. cbn [Proxy_new with_client max_body router client base]. rewrite Hb.
    match goal with |- context [router_handle_async _ _ _ _ ?f ?w] =>
      destruct (async_done hash R' r key g' _ now f w Hok Hh Hop Hg' Hp) as (resp & R'' & Ea & Hresp) end.
    unfold r in Ea. exists resp. eexists. rewrite Ea. split; [reflexivity|]. by split.
Qed.

End fast_restart.
