(* ===== verification/FastWal.v ===== *)
(** * The asynchronous proxy at concrete values

    Instances of the library classes and of the client, at which the statements
    of [Fast] are applied, and a request with its retry through the proxy. *)

From S2P Require Import Prelude Machine Str Decimal BTreeMap HashMap Types Store Engine History Hash Codec Disk Wal.
From S2P Require Import WalSpec Durability EngineWal Abuse Http Gateway GatewaySpec Router Async GatewayWal.
From S2P Require Import Config Restart ServerWal Fast.

#[local] Instance fast_key_order : HashOrder IdempotencyKey := default_order IdempotencyKey.
#[local] Instance fast_string_order : HashOrder string := default_order string.

(** Bodies and header values as bytes, values all text; a response is built
    unless its status is out of range. *)
#[local] Instance bytes_axum : Axum (list byte) (list byte) Response := {|
  to_bytes b limit := if len b <=? limit then Some b else None;
  to_str v := Some (str_of_bytes v);
  build status hs l := if (100 <=? status) && (status <? 1000) then Some (MkResponse status hs l) else None;
|}.

#[local] Instance bytes_axum_laws : AxumLaws (list byte) (list byte) Response.
Proof.
  split.
  - intros b limit l. simpl. destruct (Z.leb_spec (len b) limit); [by intros [= <-] | done].
  - intros status l Hs. simpl. by rewrite (proj2 (Z.leb_le _ _)), (proj2 (Z.ltb_lt _ _)) by lia.
Qed.

(** A client that counts its requests. *)
Record Pool := MkPool { sent : Z }.
#[local] Instance Pool_Reqwest : Reqwest Pool (list byte) := {|
  ReqMethod := list byte;
  from_bytes l := if bool_decide (l = []) then None else Some l;
  send c _ _ _ _ := (Some (MkReply 200 [] (Some (str_bytes "paid"))), MkPool (sent c + 1));
|}.

Definition fast_router : Router MemoryStore (FastUpstream (C := Pool)) :=
  let u := MkFastUpstream (MkPool 0) "http://127.0.0.1:9000" in
  MkRouter [Gateway_new (Engine.new MemoryStore_new 30000) RuleSet_new u] [RuleSet_new] u 0 0.

Definition charge_parts : Parts (list byte) :=
  MkParts "POST" (Some "/charge"%string) [("idempotency-key"%string, str_bytes "order-1")].

Lemma fast_dispatch_synchronous_witness :
  exists a p, dispatch (fun _ => 0) (proxy_of fast_router 8) charge_parts (str_bytes "amount=100") 1000 = Some (a, p) /\
    resp_status a = 413 /\ p = proxy_of fast_router 8.
Proof.
  destruct (fast_dispatch_synchronous (fun _ => 0) fast_router 8 charge_parts (str_bytes "amount=100") 1000)
    as (a & p & E & [(_ & Ea & Ep) | (bytes & resp & R' & Eb & _)]).
  - split; discriminate.
  - exists a, p. split; [exact E|]. split; [|exact Ep]. injection Ea as <-. reflexivity.
  - discriminate Eb.
Defined.

(** A request and its retry through the proxy: one request to the backend. *)
Example fast_retry :
  match dispatch (fun _ => 0) (proxy_of fast_router 64) charge_parts (str_bytes "amount=100") 1000 with
  | Some (a, p) =>
      match dispatch (fun _ => 0) p charge_parts (str_bytes "amount=100") 2000 with
      | Some (a', p') => resp_body a = str_bytes "paid" /\ resp_body a' = resp_body a /\ sent (client p') = 1
      | None => False
      end
  | None => False
  end.
Proof. vm_compute. repeat split. Qed.

(** A router of the proxy that has answered one request and loses power. *)
Definition fast_shard_before : Gateway WalStore NoopUpstream :=
  MkGateway (MkEngine (store e2) Config.LEASE_MS DEFAULT_TTL_MS 2) RuleSet_new MkNoop metrics_default
    (env_fingerprint_key one_shard_env "onced-fast").
Definition fast_router_before : Router WalStore NoopUpstream := MkRouter [fast_shard_before] [RuleSet_new] MkNoop 0 0.

Lemma fast_restart_replays_witness :
  exists p resp p', build_proxy one_shard_env None (fun _ => crashed) (MkPool 0) = Ok (Some p) /\
    dispatch (fun _ => 0) p charge_parts (str_bytes "100") 3000 = (a ← to_axum_response resp; Some (a, p')) /\
    sent (client p') = 0.
Proof.
  destruct (fast_restart_replays (fun _ => 0) one_shard_env None fast_router_before (fun _ => crashed) (MkPool 0))
    as (p & E & _ & Hr).
  - split; [|split; [reflexivity | discriminate]]. apply Forall_cons_2; [|apply Forall_nil_2].
    split; [apply e2_inv|]. split; [vm_compute; reflexivity|]. split; [vm_compute; reflexivity|]. split; reflexivity.
  - intros [|i] g Hg; [|discriminate Hg]. injection Hg as <-. apply (crash_log (disk (store e2)) _ None). apply crash_contents.
  - destruct (Hr charge_parts (str_bytes "100") (str_bytes "100") "order-1"%string fast_shard_before sample_fp
                sample_outcome 2000 3000) as (resp & p' & Ed & Ec & _).
    + reflexivity.
    + reflexivity.
    + reflexivity.
    + reflexivity.
    + vm_compute. reflexivity.
    + vm_compute. reflexivity.
    + exists p, resp, p'. split; [exact E|]. split; [exact Ed|]. by rewrite Ec.
Defined.
