(* ===== verification/FastTests.v ===== *)
(** * The end-to-end tests of the asynchronous transport

    The tests of [onced-fast/tests/exactly_once.rs] and [robustness.rs]: a test
    client talks to the proxy, the proxy to a backend that counts its hits.  The
    libraries on both sides of the sockets are behind the classes of [Fast] and
    [TestClient]; what the tests rely on is their documented behaviour
    ([TestClientLaws]).  The proxy reads the clock, so the tests are proved for
    all times at which the first outcome has not expired. *)

From S2P Require Import Prelude Machine Str BTreeMap HashMap Types Store Engine EngineSpec Suite.
From S2P Require Import Hash Codec Abuse Http Gateway GatewaySpec Router Fast.

#[local] Open Scope string_scope.
#[local] Open Scope Z_scope.

(** The sockets as the tests see them: the head and the body that the proxy's
    library makes of a request of the test client, what the client reads of a
    response, and the hits that the backend has counted. *)
Class TestClient (C B V A : Type) := {
  post : string -> string -> Parts V;  (* path, idempotency key *)
  get_head : string -> Parts V;
  body_of : list byte -> B;
  status_of : A -> Z;
  header_of : A -> string -> option string;
  text_of : A -> list byte;
  backend_hits : C -> Z;
}.

(** Names of letters, digits and hyphens, and values of visible characters and
    spaces, are legal in HTTP. *)
Definition name_byte (b : byte) : bool := byte_in 48 57 b || byte_in 65 90 b || byte_in 97 122 b || bool_decide (b = x2d).
Definition value_byte (b : byte) : bool := byte_in 32 126 b.
Definition legal_header (nv : string * string) : bool :=
  negb (bool_decide (nv.1 = "")) && forallb name_byte (str_bytes nv.1) && forallb value_byte (str_bytes nv.2).

Class TestClientLaws (C B V A : Type) `{!Axum B V A} `{!TestClient C B V A} := {
  post_head path key : legal_header ("idempotency-key", key) = true ->
    parts_method (post path key) = "POST" /\ path_and_query (post path key) = Some path /\
    find_header "idempotency-key" (text_headers (parts_headers (post path key))) = Some key;
  get_target path : path_and_query (get_head path) = Some path;
  body_limit l limit : to_bytes (body_of l) limit = if len l <=? limit then Some l else None;
  built status hs l : 200 <= status < 600 -> Forall (fun nv => legal_header nv = true) hs ->
    exists a, build status hs l = Some a /\ status_of a = status /\ text_of a = l /\
      forall name, header_of a name = find_header name hs;
}.

Section fast_tests.
Context {C B V A : Type} `{!Axum B V A} `{!Reqwest C V} `{!TestClient C B V A} `{!HashOrder string}.
Context (hash : string -> Z).

(** [spawn_onced] of [exactly_once.rs] and of [robustness.rs]; a client that the
    proxy is given comes with the backend's world. *)
Definition spawn_router : option (Router MemoryStore NoopUpstream) :=
  let shards := [Gateway_new (new MemoryStore_new 30000) RuleSet_new MkNoop] in
  Router_new shards [RuleSet_new] MkNoop.

Definition spawn_onced (backend : string) (client : C) : option (Proxy MemoryStore C) :=
  router ← spawn_router; Some (Proxy_new router ("http://" +:+ backend) client).

Definition spawn_onced_with (backend : string) (client : C) (max_body : Z) : option (Proxy MemoryStore C) :=
  router ← spawn_router; Some (with_client router ("http://" +:+ backend) client max_body).

(** One request over the socket: what [send().await.unwrap()] gives the test. *)
Definition exchange_with (p : Proxy MemoryStore C) (parts : Parts V) (body : list byte) (now : Z)
  : option (A * Proxy MemoryStore C) := dispatch hash p parts (body_of body) now.

(** The poll of the health endpoint: up to fifty attempts, 50 ms apart, until one
    is answered. *)
Fixpoint poll_live (n : nat) (p : Proxy MemoryStore C) (now : Z) : Proxy MemoryStore C :=
  match n with
  | 0%nat => p
  | S n =>
      match exchange_with p (get_head "/healthz") [] now with
      | Some (_, p) => p
      | None => poll_live n p (now + 50)
      end
  end.
Definition wait_live (p : Proxy MemoryStore C) (now : Z) : Proxy MemoryStore C := poll_live 50 p now.

Definition retried_request_hits_backend_once_over_async_transport
    (backend : string) (client : C) (t0 t1 t2 t3 : Z) : option unit :=
  p ← spawn_onced backend client;
  let p := wait_live p t0 in
  '(first, p) ← exchange_with p (post "/charge" "k-async") (str_bytes "amount=100") t1;
  ensure (bool_decide (header_of first "onced-status" = Some "created"));;
  ensure (bool_decide (text_of first = str_bytes "charged"));;
  '(second, p) ← exchange_with p (post "/charge" "k-async") (str_bytes "amount=100") t2;
  ensure (bool_decide (header_of second "onced-status" = Some "replayed"));;
  ensure (backend_hits (Fast.client p) =? 1);;
  '(mismatch, p) ← exchange_with p (post "/charge" "k-async") (str_bytes "amount=999") t3;
  ensure (status_of mismatch =? 422);;
  ensure (backend_hits (Fast.client p) =? 1).

Definition oversized_body_is_rejected_with_413_without_touching_backend
    (backend : string) (client : C) (t0 t1 : Z) : option unit :=
  p ← spawn_onced_with backend client 1024;
  let p := wait_live p t0 in
  '(resp, p) ← exchange_with p (post "/charge" "big") (replicate 5000 x78) t1;
  ensure (status_of resp =? 413);;
  ensure (backend_hits (Fast.client p) =? 0).

Definition slow_backend_times_out_to_502_rather_than_hanging
    (backend : string) (client : C) (t0 t1 : Z) : option unit :=
  p ← spawn_onced_with backend client (2 ^ 20);
  let p := wait_live p t0 in
  '(resp, p) ← exchange_with p (post "/charge" "slow") (str_bytes "x") t1;
  ensure (status_of resp =? 502).

(** ** A proxy over one shard *)

Definition lone (g : Gateway MemoryStore NoopUpstream) (c : C) (base : string) (max_body : Z) : Proxy MemoryStore C :=
  MkProxy (MkRouter [g] [RuleSet_new] MkNoop 0 0) c base max_body.


(** Without rules every keyed request reaches the shard. *)
Lemma lone_handle {W : Type} g r key now (fwd : W -> option (result Response unit * W)) w :
  let R g := MkRouter [g] [RuleSet_new] MkNoop 0 0 : Router MemoryStore NoopUpstream in
  header r "idempotency-key" = Some key -> operational_response (R g) r = None ->
  router_handle_async hash (R g) r now fwd w =
  match begin_phase g r now with
  | (Done resp, g) => Some (resp, R g, w)
  | (Forward tk, g) =>
      '(res, w) ← fwd w;
      let (resp, g) := complete_phase g tk res now in Some (resp, R g, w)
  end.
Proof.
  intros R Hh Hop. unfold router_handle_async. rewrite Hop.
  assert (deny_if_abusive hash (R g) r now = Some (None, R g)) as ->.
  { unfold deny_if_abusive, abuse_for_identity, len. cbn [R abuse length Z.of_nat Pos.of_succ_nat]. by rewrite Z.mod_1_r. }
  cbn [mbind option_bind].
  assert (route_shard hash (R g) r = (0%nat, R g)) as ->.
  { unfold route_shard, shard_for_key, len. rewrite Hh. cbn [R shards length Z.of_nat Pos.of_succ_nat]. by rewrite Z.mod_1_r. }
  unfold begin_on. cbn [R shards lookup list_lookup mbind option_bind].
  destruct (begin_phase g r now) as [[resp|tk] g1]; [done|]. cbn [mbind option_bind set_shards insert list_insert shards].
  destruct (fwd w) as [[res w']|]; [|done]. unfold complete_on. cbn [mbind option_bind set_shards shards lookup list_lookup].
  by destruct (complete_phase g1 tk res now).
Qed.

(** The shard with the records of the test. *)
Definition fast_key : list byte := replicate 32 x00.
Definition fast_shard (m : gmap IdempotencyKey KeyState) (f : Z) (mt : Metrics) : Gateway MemoryStore NoopUpstream :=
  MkGateway (MkEngine (MkMemoryStore m) 30000 DEFAULT_TTL_MS f) RuleSet_new MkNoop mt fast_key.

Context `{!TestClientLaws C B V A}.

Section request.
Variables (key : string) (body : list byte).
Hypothesis Hkey : legal_header ("idempotency-key", key) = true.
Let r : Request := to_onced_request (post "/charge" key) body.

Lemma post_request : method r = "POST" /\ target r = "/charge" /\ header r "idempotency-key" = Some key /\ req_body r = body.
Proof.
  destruct (post_head "/charge" key Hkey) as (Hm & Hp & Hh). unfold r, to_onced_request. cbn [method target req_body].
  rewrite Hp. split_and!; [done | done | exact Hh | done].
Qed.

Lemma post_operational (R : Router MemoryStore NoopUpstream) : operational_response R r = None.
Proof. destruct post_request as (_ & Ht & _). unfold operational_response, path_of. rewrite Ht. by vm_compute. Qed.

Definition fingerprint : RequestFingerprint := Gateway.fingerprint_of (MkRequest "POST" "/charge" [] body) fast_key.

Lemma post_fingerprint : Gateway.fingerprint_of r fast_key = fingerprint.
Proof. destruct post_request as (Hm & Ht & _ & Hb). unfold fingerprint, Gateway.fingerprint_of, canonical. by rewrite Hm, Ht, Hb. Qed.

(** A request that is too large. *)
Lemma exchange_large g c base max now :
  max < len body ->
  exists a, exchange_with (lone g c base max) (post "/charge" key) body now = Some (a, lone g c base max) /\ status_of a = 413.
Proof.
  intros Hl. unfold exchange_with, dispatch. cbn [lone max_body]. rewrite body_limit. case_cmp; [lia|].
  destruct (built 413 [] (str_bytes "request body too large")) as (a & E & Hs & _); [lia | constructor|].
  exists a. unfold text_response. rewrite E. by split.
Qed.

Lemma exchange_small g c base max now :
  len body <= max ->
  exchange_with (lone g c base max) (post "/charge" key) body now =
  match begin_phase g r now with
  | (Done resp, g) => a ← to_axum_response resp; Some (a, lone g c base max)
  | (Forward tk, g) =>
      let (res, c) := fast_forward base r c in
      let (resp, g) := complete_phase g tk res now in
      a ← to_axum_response resp; Some (a, lone g c base max)
  end.
Proof.
  intros Hl. unfold exchange_with, dispatch. cbn [lone max_body Fast.router Fast.client Fast.base]. rewrite body_limit. case_cmp; [|lia].
  destruct post_request as (_ & _ & Hh & _). fold r. rewrite (lone_handle g r key now _ c Hh (post_operational _)).
  destruct (begin_phase g r now) as [[resp|tk] g1]; [done|]. destruct (fast_forward base r c) as [res c'].
  cbn [mbind option_bind]. by destruct (complete_phase g1 tk res now).
Qed.

End request.

Lemma tagged_built resp status :
  200 <= resp_status resp < 600 -> Forall (fun nv => legal_header nv = true) (resp_headers resp) ->
  legal_header ("Onced-Status", status) = true -> find_header "onced-status" (resp_headers resp) = None ->
  exists a, to_axum_response (tag resp status) = Some a /\ status_of a = resp_status resp /\
    text_of a = resp_body resp /\ header_of a "onced-status" = Some status.
Proof.
  intros Hs Hl Hg Hn. unfold to_axum_response, tag. cbn [resp_status resp_headers resp_body].
  destruct (built (resp_status resp) (resp_headers resp ++ [("Onced-Status", status)])%list (resp_body resp))
    as (a & -> & Es & Et & Eh); [done | by apply Forall_app; split; [|constructor; [|constructor]]|].
  exists a. split_and!; try done. rewrite Eh. clear - Hn.
  induction (resp_headers resp) as [|[n v] hs IH]; [done|]. simpl in *. case_match; [done|]. by apply IH.
Qed.

Lemma status_built code status :
  200 <= code < 600 -> legal_header ("Onced-Status", status) = true ->
  exists a, to_axum_response (tagged_status code status) = Some a /\ status_of a = code.
Proof.
  intros Hs Hl. unfold to_axum_response, tagged_status. cbn [resp_status resp_headers resp_body].
  destruct (built code [("Onced-Status", status)] []) as (a & -> & Es & _); [done | by constructor; [|constructor]|]. by exists a.
Qed.

Lemma poll_answered n p now a p' :
  exchange_with p (get_head "/healthz") [] now = Some (a, p') -> poll_live (S n) p now = p'.
Proof. intros E. cbn [poll_live]. by rewrite E. Qed.

Lemma live g c base max now :
  0 <= max -> wait_live (lone g c base max) now = lone g c base max.
Proof.
  intros Hm. unfold wait_live.
  assert (exists a, exchange_with (lone g c base max) (get_head "/healthz") [] now = Some (a, lone g c base max)) as [a E];
    [|exact (poll_answered 49 _ _ a _ E)].
  unfold exchange_with, dispatch. cbn [lone max_body Fast.router Fast.client Fast.base].
  rewrite body_limit. change (len []) with 0. case_cmp; [|lia]. unfold router_handle_async.
  assert (forall R : Router MemoryStore NoopUpstream, operational_response R (to_onced_request (get_head "/healthz") []) = Some health_ok) as Hop.
  { intros R. unfold operational_response, path_of, to_onced_request. cbn [target]. rewrite get_target. by vm_compute. }
  rewrite Hop. cbn [mbind option_bind]. unfold to_axum_response, health_ok. cbn [resp_status resp_headers resp_body].
  destruct (built 200 [("Onced-Status", "healthy")] (str_bytes "ok")) as (a & -> & _); [lia | by constructor; [|constructor]|].
  by exists a.
Qed.

(** Every element of a map comes from the list it was collected from. *)
Lemma find_none name hs : find_header name hs = None <-> Forall (fun nv => eq_ignore_ascii_case nv.1 name = false) hs.
Proof.
  induction hs as [|[n v] hs IH]; simpl; [split; [constructor | done]|]. rewrite Forall_cons, <- IH. simpl.
  destruct (eq_ignore_ascii_case n name); (split; [done | by intros []]) || (split; [done | by intros [_ ?]]).
Qed.

Lemma bt_from_list_Forall (P : string * string -> Prop) l : Forall P l -> Forall P (bt_from_list l).
Proof.
  unfold bt_from_list. assert (Forall P []) as H0 by constructor. revert H0. generalize (@nil (string * string)).
  induction l as [|[k v] l IH]; intros m Hm; cbn [fold_left]; [done|]. intros [Hkv Hl]%Forall_cons. apply IH; [|done].
  clear IH. induction Hm as [|[k' v'] m Hk' Hm IH']; cbn [bt_insert]; [by repeat constructor|].
  cbn [fst snd] in *. destruct (String.compare k k'); repeat constructor; done.
Qed.

(** ** The tests pass *)

(** A new key on an empty shard, from its first critical section to its second. *)
Lemma shard_first r key body mt t :
  header r "idempotency-key" = Some key -> Gateway.fingerprint_of r fast_key = fingerprint body ->
  exists tk g, begin_phase (fast_shard ∅ 1 mt) r t = (Forward tk, g) /\
    (forall resp, resp_status resp < 500 -> exists mt',
       complete_phase g tk (Ok resp) t =
       (tag resp "created", fast_shard {[MkKey key := Completed (fingerprint body) (to_outcome resp) t]} 2 mt')) /\
    exists mt', complete_phase g tk (Err tt) t = (bad_gateway, mt').
Proof.
  intros Hh Hf. unfold begin_phase. rewrite Hh. cbn [Gateway.count fingerprint_key fast_shard]. rewrite Hf.
  unfold begin. cbn [engine Gateway.count store get MemoryStore_Store].
  change (MemoryStore_get (MkMemoryStore ∅) (MkKey key)) with (None : option KeyState).
  cbn [begin_action]. rewrite start_eq. do 2 eexists. split; [reflexivity|]. split.
  - intros resp Hs. eexists. unfold complete_phase. cbn [token]. case_cmp; [lia|].
    unfold complete. cbn [set_engine engine store get put MemoryStore_Store token_key token_fence].
    unfold MemoryStore_get, MemoryStore_put. cbn [keys]. rewrite lookup_insert_eq. unfold started. rewrite decide_True by done.
    unfold fast_shard. cbn [set_store store lease_ms ttl_ms next_fence keys Gateway.count metrics fingerprint_key Gateway.rules upstream engine].
    unfold Gateway.count, set_engine. cbn [metrics fingerprint_key Gateway.rules upstream engine]. rewrite insert_insert_eq. reflexivity.
  - eexists. reflexivity.
Qed.

(** A completed key: replayed to its request, 422 to any other. *)
Lemma shard_again r key body m f mt fp o t now :
  header r "idempotency-key" = Some key -> Gateway.fingerprint_of r fast_key = fingerprint body ->
  m !! MkKey key = Some (Completed fp o t) -> now < expiry t DEFAULT_TTL_MS ->
  exists mt', begin_phase (fast_shard m f mt) r now =
    (Done (if decide (fp = fingerprint body) then tag (from_outcome o) "replayed" else tagged_status 422 "mismatch"),
     fast_shard m f mt').
Proof.
  intros Hh Hf Hm Hlt. unfold begin_phase. rewrite Hh. cbn [Gateway.count fingerprint_key fast_shard]. rewrite Hf.
  unfold begin. simpl. unfold MemoryStore_get. simpl. rewrite Hm.
  unfold begin_action. case_cmp; [lia|]. case_decide; by eexists.
Qed.

Section counting.
Variables (reply : Reply V) (c : C).
(** The backend answers a request with 200 and the body [charged], and counts it. *)
Hypothesis Hsend : forall m url hs b, exists c', send c m url hs b = (Some reply, c') /\ backend_hits c' = backend_hits c + 1.
Hypothesis Hstatus : reply_status reply = 200.
Hypothesis Hbytes : reply_bytes reply = Some (str_bytes "charged").
Hypothesis Hlegal : Forall (fun nv => legal_header nv = true) (text_headers (reply_headers reply)).
Hypothesis Huntagged : find_header "onced-status" (text_headers (reply_headers reply)) = None.
(** The client knows the method. *)
Hypothesis Hpost : is_Some (from_bytes (str_bytes "POST")).

Definition charged : Response := MkResponse 200 (text_headers (reply_headers reply)) (str_bytes "charged").

Lemma forwarded r base : method r = "POST" -> exists c', fast_forward base r c = (Ok charged, c') /\ backend_hits c' = backend_hits c + 1.
Proof.
  intros Hm. destruct Hpost as [m Em]. unfold fast_forward. rewrite Hm, Em.
  edestruct (Hsend m) as (c' & -> & Hc). exists c'. rewrite Hbytes. unfold charged. by rewrite Hstatus.
Qed.

Lemma first_exchange key body base max t mt :
  legal_header ("idempotency-key", key) = true -> len body <= max ->
  exists a c' mt', exchange_with (lone (fast_shard ∅ 1 mt) c base max) (post "/charge" key) body t =
      Some (a, lone (fast_shard {[MkKey key := Completed (fingerprint body) (to_outcome charged) t]} 2 mt') c' base max) /\
    header_of a "onced-status" = Some "created" /\ text_of a = str_bytes "charged" /\ backend_hits c' = backend_hits c + 1.
Proof.
  intros Hk Hl. rewrite exchange_small by done. destruct (post_request key body Hk) as (Hm & _ & Hh & _).
  destruct (shard_first _ key body mt t Hh (post_fingerprint key body Hk)) as (tk & g & -> & Hcmp & _).
  destruct (forwarded _ base Hm) as (c' & -> & Hc). destruct (Hcmp charged ltac:(simpl; lia)) as (mt' & ->).
  destruct (tagged_built charged "created") as (a & -> & _ & Et & Eh); [simpl; lia | done..|].
  exists a, c', mt'. by split_and!.
Qed.

Lemma later_exchange key body c' base max fp t now f mt :
  legal_header ("idempotency-key", key) = true -> len body <= max -> now < expiry t DEFAULT_TTL_MS ->
  let m := {[MkKey key := Completed fp (to_outcome charged) t]} in
  exists a mt', exchange_with (lone (fast_shard m f mt) c' base max) (post "/charge" key) body now =
      Some (a, lone (fast_shard m f mt') c' base max) /\
    if decide (fp = fingerprint body) then header_of a "onced-status" = Some "replayed" else status_of a = 422.
Proof.
  intros Hk Hl Hlt m. rewrite exchange_small by done. destruct (post_request key body Hk) as (_ & _ & Hh & _).
  destruct (shard_again _ key body m f mt fp (to_outcome charged) t now Hh (post_fingerprint key body Hk)) as (mt' & ->);
    [apply lookup_singleton_eq | done|]. case_decide.
  - destruct (tagged_built (from_outcome (to_outcome charged)) "replayed") as (a & -> & _ & _ & Eh);
      [simpl; lia | by apply bt_from_list_Forall | done | by apply find_none, bt_from_list_Forall, find_none|]. by exists a, mt'.
  - destruct (status_built 422 "mismatch") as (a & -> & Es); [lia | done|]. by exists a, mt'.
Qed.

Lemma retry_passes backend t0 t1 t2 t3 :
  backend_hits c = 0 -> t2 < expiry t1 DEFAULT_TTL_MS -> t3 < expiry t1 DEFAULT_TTL_MS ->
  retried_request_hits_backend_once_over_async_transport backend c t0 t1 t2 t3 = Some tt.
Proof.
  intros Hc Ht2 Ht3. unfold retried_request_hits_backend_once_over_async_transport, spawn_onced.
  cbn [spawn_router Router_new mbind option_bind]. unfold Proxy_new, with_client.
  match goal with |- context [MkProxy _ c ?b _] => generalize b end. intros base.
  change (MkProxy _ c base MAX_BODY) with (lone (fast_shard ∅ 1 metrics_default) c base MAX_BODY).
  rewrite live by done. cbv zeta.
  destruct (first_exchange "k-async" (str_bytes "amount=100") base MAX_BODY t1 metrics_default)
    as (a1 & c' & mt1 & -> & Eh1 & Et1 & Hh); [done | by_eval|]. rewrite bind_some, Eh1, Et1, !bool_decide_true by done.
  rewrite !ensure_bind by done.
  destruct (later_exchange "k-async" (str_bytes "amount=100") c' base MAX_BODY (fingerprint (str_bytes "amount=100")) t1 t2 2 mt1)
    as (a2 & mt2 & -> & Eh2); [done | by_eval | done|]. rewrite decide_True in Eh2 by done.
  rewrite bind_some, Eh2, bool_decide_true, ensure_bind by done. cbn [lone Fast.client]. rewrite Hh, Hc, ensure_bind by done.
  fold (lone (fast_shard {[MkKey "k-async" := Completed (fingerprint (str_bytes "amount=100")) (to_outcome charged) t1]} 2 mt2) c' base MAX_BODY).
  destruct (later_exchange "k-async" (str_bytes "amount=999") c' base MAX_BODY (fingerprint (str_bytes "amount=100")) t1 t3 2 mt2)
    as (a3 & mt3 & -> & Es); [done | by_eval | done|].
  rewrite decide_False in Es by (intros E; apply (f_equal fp_bytes) in E; vm_compute in E; discriminate).
  rewrite bind_some, Es, ensure_bind by done. cbn [lone Fast.client]. by rewrite Hh, Hc.
Qed.

End counting.

Lemma oversized_passes backend (c : C) t0 t1 :
  backend_hits c = 0 -> oversized_body_is_rejected_with_413_without_touching_backend backend c t0 t1 = Some tt.
Proof.
  intros Hc. unfold oversized_body_is_rejected_with_413_without_touching_backend, spawn_onced_with.
  cbn [spawn_router Router_new mbind option_bind]. unfold with_client. match goal with |- context [MkProxy _ c ?b _] => generalize b end. intros base.
  change (MkProxy _ c base 1024) with (lone (fast_shard ∅ 1 metrics_default) c base 1024).
  rewrite live by done. cbv zeta.
  destruct (exchange_large "big" (replicate 5000 x78) (fast_shard ∅ 1 metrics_default) c base 1024 t1)
    as (a & -> & Es); [by vm_compute|]. rewrite bind_some, Es, ensure_bind by done. cbn [lone Fast.client]. by rewrite Hc.
Qed.

Lemma slow_passes backend (c : C) t0 t1 :
  (forall m url hs b, (send c m url hs b).1 = None) ->
  slow_backend_times_out_to_502_rather_than_hanging backend c t0 t1 = Some tt.
Proof.
  intros Hs. unfold slow_backend_times_out_to_502_rather_than_hanging, spawn_onced_with.
  cbn [spawn_router Router_new mbind option_bind]. unfold with_client. match goal with |- context [MkProxy _ c ?b _] => generalize b end. intros base.
  change (MkProxy _ c base (2 ^ 20)) with (lone (fast_shard ∅ 1 metrics_default) c base (2 ^ 20)).
  rewrite live by done. cbv zeta. rewrite exchange_small by (done || by_eval).
  destruct (post_request "slow" (str_bytes "x") eq_refl) as (Hm & _ & Hh & _).
  destruct (shard_first _ "slow" (str_bytes "x") metrics_default t1 Hh (post_fingerprint "slow" (str_bytes "x") eq_refl))
    as (tk & g & -> & _ & (g' & Hcmp)).
  assert (exists c', fast_forward base (to_onced_request (post "/charge" "slow") (str_bytes "x")) c = (Err tt, c')) as (c' & ->).
  { unfold fast_forward. destruct (from_bytes _) as [m|]; [|by eexists]. match goal with |- context [send c m ?u ?h ?b] =>
      specialize (Hs m u h b); destruct (send c m u h b) as [[]?] end; [done | by eexists]. }
  rewrite Hcmp. destruct (status_built 502 "upstream-error") as (a & Ea & Es); [lia | done|]. unfold bad_gateway.
  rewrite Ea. cbn [mbind option_bind]. by rewrite Es.
Qed.

(** C30: the end-to-end tests of the asynchronous transport pass.  With libraries
    that behave as documented, and a backend that answers 200 [charged] and counts
    its hits: a request, its retry and a reuse of the key for another body are
    answered with [created], [replayed] and 422, and the backend is hit once; a
    body over the limit is answered with 413 before the backend is touched; and a
    backend that does not answer within the client's timeout turns into a 502. *)
Theorem async_transport_tests_pass (reply : Reply V) (client slow_client : C) backend t0 t1 t2 t3 :
  (forall m url hs b, exists c', send client m url hs b = (Some reply, c') /\ backend_hits c' = backend_hits client + 1) ->
  reply_status reply = 200 -> reply_bytes reply = Some (str_bytes "charged") ->
  Forall (fun nv => legal_header nv = true) (text_headers (reply_headers reply)) ->
  find_header "onced-status" (text_headers (reply_headers reply)) = None ->
  is_Some (from_bytes (str_bytes "POST")) -> backend_hits client = 0 ->
  (forall m url hs b, (send slow_client m url hs b).1 = None) ->
  t2 < expiry t1 DEFAULT_TTL_MS -> t3 < expiry t1 DEFAULT_TTL_MS ->
  retried_request_hits_backend_once_over_async_transport backend client t0 t1 t2 t3 = Some tt /\
  oversized_body_is_rejected_with_413_without_touching_backend backend client t0 t1 = Some tt /\
  slow_backend_times_out_to_502_rather_than_hanging backend slow_client t0 t1 = Some tt.
Proof.
  intros Hsend Hst Hb Hl Hn Hp Hh Hslow Ht2 Ht3.
  split_and!; [by apply (retry_passes reply) | by apply oversized_passes | by apply slow_passes].
Qed.

End fast_tests.

(** ** Concrete libraries *)

#[local] Instance e2e_order : HashOrder string := default_order string.

#[local] Instance e2e_axum : Axum (list byte) (list byte) Response := {|
  to_bytes b limit := if len b <=? limit then Some b else None;
  to_str v := Some (str_of_bytes v);
  build status hs l := Some (MkResponse status hs l);
|}.

(** A backend that counts its hits and may be too slow for the client. *)
Record Target := MkTarget { target_hits : Z; too_slow : bool }.

Definition e2e_reply : Reply (list byte) :=
  MkReply 200 [("content-type", str_bytes "text/plain; charset=utf-8"); ("content-length", str_bytes "7")]
    (Some (str_bytes "charged")).

#[local] Instance e2e_reqwest : Reqwest Target (list byte) := {|
  ReqMethod := list byte;
  from_bytes l := if bool_decide (l = []) then None else Some l;
  send c _ _ _ _ := ((if too_slow c then None else Some e2e_reply), MkTarget (target_hits c + 1) (too_slow c));
|}.

#[local] Instance e2e_client : TestClient Target (list byte) (list byte) Response := {|
  post path key := MkParts "POST" (Some path) [("idempotency-key", str_bytes key); ("accept", str_bytes "*/*")];
  get_head path := MkParts "GET" (Some path) [("accept", str_bytes "*/*")];
  body_of l := l;
  status_of := resp_status;
  header_of a name := find_header name (resp_headers a);
  text_of := resp_body;
  backend_hits := target_hits;
|}.

#[local] Instance e2e_laws : TestClientLaws Target (list byte) (list byte) Response.
Proof.
  split; try done.
  - intros path key _. split_and!; [done..|]. simpl. by rewrite str_of_bytes_of_str.
  - intros status hs l _ _. by eexists.
Qed.

Lemma async_transport_tests_pass_witness :
  retried_request_hits_backend_once_over_async_transport (fun _ => 7) "127.0.0.1:9000" (MkTarget 0 false) 900 1000 1050 1100 = Some tt /\
  slow_backend_times_out_to_502_rather_than_hanging (fun _ => 7) "127.0.0.1:9000" (MkTarget 0 true) 900 1000 = Some tt.
Proof.
  destruct (async_transport_tests_pass (fun _ => 7) e2e_reply (MkTarget 0 false) (MkTarget 0 true) "127.0.0.1:9000" 900 1000 1050 1100)
    as (H1 & _ & H3).
  - intros m url hs b. exists (MkTarget 1 false). split; reflexivity.
  - reflexivity.
  - reflexivity.
  - repeat constructor.
  - reflexivity.
  - eexists. reflexivity.
  - reflexivity.
  - intros m url hs b. reflexivity.
  - reflexivity.
  - reflexivity.
  - split; [exact H1 | exact H3].
Defined.
