(* ===== verification/Service.v ===== *)
(** * The running binaries

    The processes of [onced-gateway/src/main.rs] (accept loop of [server.rs]) and
    [onced-fast/src/main.rs]: a router shared by one task per connection and by
    the background sweep.  A transport decodes what arrives into a request (or
    refuses or drops it) and encodes the response; the tasks interleave one
    critical section at a time, as in [Concurrent]. *)

From S2P Require Import Prelude Machine Str BTreeMap HashMap Types Store Engine History EngineSpec Hash Codec Abuse.
From S2P Require Import Disk Wal WalSpec EngineWal Http HttpSpec Gateway GatewaySpec Router Async Server Config.
From S2P Require Import Concurrent GatewayWal Fast.

(** ** Transports *)

(** What becomes of a connection's input: a request to serve, a reply that needs
    no request, nothing (the peer closed, or sent no request), or a panic of the
    connection's task. *)
Inductive Decoded (O : Type) := Serve (r : Request) | Refuse (o : O) | Drop | Crash.
Arguments Serve {O} _.
Arguments Refuse {O} _.
Arguments Drop {O}.
Arguments Crash {O}.

(** [encode] is [None] when it panics. *)
Class Transport (I O : Type) := {
  decode : I -> Decoded O;
  encode : Response -> option O;
}.

(** ** The process *)

(** [written]: what the tasks have sent, by task; [refusals]: replies without a
    task. *)
Record Process (S U O : Type) := MkProcess {
  config : Concurrent.Config S U;
  written : list (nat * O);
  refusals : list O;
}.
Arguments MkProcess {S U O} _ _ _.
Arguments config {S U O} _.
Arguments written {S U O} _.
Arguments refusals {S U O} _.

Inductive Event (I : Type) :=
| Incoming (input : I) (now : Z)  (* a connection whose task has read its input at [now] *)
| AcceptFailed
| Advance (j : nat)               (* the next critical section of a task *)
| Sweep (now : Z).
Arguments Incoming {I} _ _.
Arguments AcceptFailed {I}.
Arguments Advance {I} _.
Arguments Sweep {I} _.

Section process.
Context {S U I O : Type} `{Store S} `{!Upstream U} `{!Transport I O} `{!HashOrder string}.
Context (hash : string -> Z).
Implicit Types p : Process S U O.

(** A new connection gets a task of its own.  One that panics ends without a
    reply and leaves the others alone. *)
Definition accept p (input : I) (now : Z) : Process S U O :=
  let c := config p in
  match decode input with
  | Serve r => MkProcess (MkConfig (running c) (tasks c ++ [MkTask r now Arrived]) (reached c)) (written p) (refusals p)
  | Refuse o => MkProcess c (written p) (refusals p ++ [o])
  | Drop | Crash => p
  end.

(** A task runs its next section, and sends the response when it has one.  No
    section of a running service panics ([task_step_live]) but the backend call:
    a task that dies in it has called the backend and is not advanced again. *)
Definition advance p (j : nat) : Process S U O :=
  let c := config p in
  match tasks c !! j with
  | None => p
  | Some t =>
      match stage t, task_step hash (running c) t with
      | Finished _, _ | _, None => p
      | _, Some (t', R) =>
          let c := MkConfig R (<[j := t']> (tasks c)) (reached c ++ called t) in
          match stage t' with
          | Finished response =>
              match encode response with
              | Some o => MkProcess c (written p ++ [(j, o)]) (refusals p)
              | None => MkProcess c (written p) (refusals p)
              end
          | _ => MkProcess c (written p) (refusals p)
          end
      end
  end.

(** One turn of the pruner. *)
Definition sweep p (now : Z) : Process S U O :=
  let c := config p in
  MkProcess (MkConfig (router_prune_expired (running c) now) (tasks c) (reached c)) (written p) (refusals p).

(** [fatal]: whether a failing accept ends the process, as [serve] does with [?].
    [None]: the process has ended. *)
Definition service_step (fatal : bool) p (ev : Event I) : option (Process S U O) :=
  match ev with
  | Incoming input now => Some (accept p input now)
  | AcceptFailed => if fatal then None else Some p
  | Advance j => Some (advance p j)
  | Sweep now => Some (sweep p now)
  end.

Fixpoint service_run (fatal : bool) p (evs : list (Event I)) : option (Process S U O) :=
  match evs with
  | [] => Some p
  | ev :: evs => p ← service_step fatal p ev; service_run fatal p evs
  end.

End process.

Inductive MainError := OpenFailed (e : OpenError) | RouterPanicked | BindFailed.

(** The end of both [main]s: the listener is bound and served. *)
Definition start {S U O : Type} (router : result (option (Router S U)) OpenError) (bound : bool)
  : result (Process S U O) MainError :=
  match router with
  | Err e => Err (OpenFailed e)
  | Ok None => Err RouterPanicked
  | Ok (Some R) => if bound then Ok (MkProcess (MkConfig R [] []) [] []) else Err BindFailed
  end.

(** ** The threads of the gateway *)

#[export] Instance socket_transport : Transport (list byte) (list byte) := {|
  decode input :=
    match parse_request input with
    | Ok (Some (request, _)) => Serve request
    | Err CapacityOverflow => Crash
    | _ => Drop
    end;
  encode response := Some (write_response response);
|}.

(** [serve]: the accept loop of the threads ends with the first failing accept. *)
Definition serve {S U} `{Store S} `{!Upstream U} `{!HashOrder string} (hash : string -> Z)
    (p : Process S U (list byte)) (evs : list (Event (list byte))) : option (Process S U (list byte)) :=
  service_run hash true p evs.

Definition gateway_main {U} `{!Upstream U} `{!HashOrder IdempotencyKey} (env : string -> option string) (cpus : option Z)
    (files : string -> Disk) (upstream : U) (bound : bool) : result (Process WalStore U (list byte)) MainError :=
  start (build_router env cpus files upstream) bound.

(** ** Executions are those of concurrent tasks *)


Section executions.
Context {S U I O : Type} `{DurableLaws S} `{!Upstream U} `{!Transport I O} `{!HashOrder string}.
Context (hash : string -> Z) (fatal : bool).
Implicit Types p : Process S U O.
















End executions.

(** ** A connection that runs alone *)

Section alone.
Context {S U I O : Type} `{Store S} `{!Upstream U} `{!Transport I O} `{!HashOrder string}.
Context (hash : string -> Z).

(** [n] sections of the task of slot [j], one after the other. *)
Fixpoint undisturbed (n : nat) (p : Process S U O) (j : nat) : Process S U O :=
  match n with
  | 0%nat => p
  | Datatypes.S n => undisturbed n (advance hash p j) j
  end.

Lemma undisturbed_finished n (R : Router S U) t response cs w f :
  stage t = Finished response ->
  run_task hash n R t = Some (t, R) /\
  undisturbed n (MkProcess (MkConfig R [t] cs) w f) 0 = MkProcess (MkConfig R [t] cs) w f.
Proof.
  intros Es. induction n as [|n [IH1 IH2]]; [done|]. cbn [run_task undisturbed].
  assert (task_step hash R t = Some (t, R)) as E by (unfold task_step; by rewrite Es). rewrite E. split; [exact IH1|].
  replace (advance hash _ 0) with (MkProcess (MkConfig R [t] cs) w f : Process S U O); [exact IH2|].
  unfold advance. cbn [config tasks lookup list_lookup]. by rewrite Es.
Qed.

Lemma undisturbed_run n (R : Router S U) t cs w f tf R' response o :
  run_task hash n R t = Some (tf, R') -> stage tf = Finished response -> (forall resp, stage t <> Finished resp) ->
  encode response = Some o ->
  exists cs', undisturbed n (MkProcess (MkConfig R [t] cs) w f) 0 = MkProcess (MkConfig R' [tf] cs') (w ++ [(0%nat, o)]) f.
Proof.
  revert R t cs. induction n as [|n IH]; intros R t cs; cbn [run_task undisturbed].
  { intros [= <- <-] Hf Hnf. by destruct (Hnf response). }
  destruct (task_step hash R t) as [[t' R1]|] eqn:E; [|done]. cbn [mbind option_bind]. intros Hrun Hf Hnf He.
  set (c := MkConfig R1 [t'] (cs ++ called t)).
  assert (advance hash (MkProcess (MkConfig R [t] cs) w f) 0 =
          MkProcess c (w ++ match stage t' with
                            | Finished resp => match encode resp with Some x => [(0%nat, x)] | None => [] end
                            | _ => []
                            end) f) as ->.
  { unfold advance. cbn [config tasks running reached lookup list_lookup written refusals]. rewrite E.
    destruct (stage t) as [| | | | |resp] eqn:Es; [..|by destruct (Hnf resp)];
      (destruct (stage t') as [| | | | |resp']; [..|destruct (encode resp')]; by rewrite ?app_nil_r). }
  destruct (stage t') as [| | | | |resp'] eqn:Es'.
  1-5: (rewrite app_nil_r; apply IH; [done | done | intros resp; by rewrite Es' | done]).
  destruct (undisturbed_finished n R1 t' resp' (cs ++ called t) (w ++ match encode resp' with Some x => [(0%nat, x)] | None => [] end) f Es')
    as [Hr Hu]. rewrite Hrun in Hr. injection Hr as <- <-. rewrite Es' in Hf. injection Hf as ->. rewrite He in *.
  eexists. exact Hu.
Qed.

(** A single connection, served without interruption: the handler's response is
    sent and the router is the handler's. *)
Lemma service_alone (R : Router S U) input r now response R' o :
  decode input = Serve r -> router_handle hash R r now = Some (response, R') -> encode response = Some o ->
  exists cs, undisturbed 5 (accept (MkProcess (MkConfig R [] []) [] []) input now) 0 =
    MkProcess (MkConfig R' [MkTask r now (Finished response)] cs) [(0%nat, o)] [].
Proof.
  intros Hd Hh He. unfold accept. rewrite Hd. pose proof (run_task_handle hash R r now) as E. rewrite Hh in E.
  by destruct (undisturbed_run 5 R (MkTask r now Arrived) [] [] [] _ R' response o E) as (cs & Hu); [done..|exists cs].
Qed.

End alone.

(** The thread of a connection computes [handle_connection]. *)
Lemma socket_alone {S U} `{Store S} `{!Upstream U} `{!ForwardPanics U} `{!HashOrder string} (hash : string -> Z) (R : Router S U) input now output R' :
  handle_connection (Handle0 := Router_Handle hash) R input now = Ok (output, R') ->
  let p := undisturbed hash 5 (accept (MkProcess (MkConfig R [] []) [] []) input now) 0 in
  running (config p) = R' /\ output = match written p with [(_, o)] => o | _ => [] end.
Proof.
  unfold handle_connection, handle_request, Router_Handle. destruct (parse_request input) as [[[r rest]|]|e] eqn:Ep; [| |done].
  - destruct (_ && _); [done|]. destruct (router_handle hash R r now) as [[response R1]|] eqn:Eh; [|done]. intros [= <- <-]. cbv zeta.
    assert (decode input = Serve r) as Hd by (unfold decode, socket_transport; by rewrite Ep).
    destruct (service_alone hash R input r now response R1 (write_response response) Hd Eh eq_refl) as (cs & ->). done.
  - intros [= <- <-]. cbv zeta. unfold accept. assert (decode input = Drop) as -> by (unfold decode, socket_transport; by rewrite Ep).
    done.
Qed.

(** ** The tasks of the asynchronous proxy *)

Section fast.
Context {C B V A : Type} `{!Axum B V A} `{!Reqwest C V} `{!HashOrder string}.
Context (hash : string -> Z).

(** [proxy_handler] and [dispatch] around the router: the head and the body of a
    request in, a response of the library out. *)
Definition fast_transport (max_body : Z) : Transport (Parts V * B) A := {|
  decode '(parts, body) :=
    match to_bytes body max_body with
    | None => match text_response 413 "request body too large" with Some a => Refuse a | None => Crash end
    | Some bytes => Serve (to_onced_request parts bytes)
    end;
  encode := to_axum_response;
|}.

Section with_store.
Context {S : Type} `{Store S}.
#[local] Existing Instance FastUpstream_Upstream.

(** The router of a proxy with the proxy's client as its backend. *)
Definition attach_gateway (u : FastUpstream (C := C)) (g : Gateway S NoopUpstream) : Gateway S (FastUpstream (C := C)) :=
  MkGateway (engine g) (rules g) u (metrics g) (fingerprint_key g).
Definition attach (p : Proxy S C) : Router S (FastUpstream (C := C)) :=
  let u := MkFastUpstream (client p) (base p) in
  MkRouter (map (attach_gateway u) (shards (router p))) (abuse (router p)) u (router_denied (router p)) (next_shard (router p)).

Lemma proxy_of_attach (p : Proxy S C) : router_upstream (router p) = MkNoop -> proxy_of (attach p) (max_body p) = p.
Proof.
  intros Hu. destruct p as [[gs ab [] dn nx] c b m]. unfold proxy_of, attach, detach. cbn. rewrite map_map.
  f_equal. f_equal. rewrite <- (map_id gs) at 2. apply map_ext. intros [e rs [] mt k]. done.
Qed.

(** The task of a request computes [dispatch]. *)
Lemma fast_alone (R : Router S (FastUpstream (C := C))) max parts body now a p' :
  dispatch hash (proxy_of R max) parts body now = Some (a, p') ->
  let H := fast_transport max in
  let p := undisturbed hash 5 (accept (MkProcess (MkConfig R [] []) [] []) (parts, body) now) 0 in
  proxy_of (running (config p)) max = p' /\ (map snd (written p) ++ refusals p) = [a].
Proof.
  rewrite dispatch_sync. intros Hd Ht. cbv zeta. destruct (to_bytes body max) as [bytes|] eqn:Eb.
  - destruct (router_handle hash R (to_onced_request parts bytes) now) as [[resp R']|] eqn:Eh; [|done].
    cbn [mbind option_bind] in Hd. destruct (to_axum_response resp) as [a'|] eqn:Ea; [|done]. injection Hd as <- <-.
    destruct (service_alone hash R (parts, body) (to_onced_request parts bytes) now resp R' a') as (cs & ->);
      [unfold decode, Ht, fast_transport; by rewrite Eb | done | exact Ea | done].
  - unfold accept. destruct (text_response 413 "request body too large") as [a'|] eqn:Ea; [|done].
    cbn [mbind option_bind] in Hd. injection Hd as <- <-.
    assert (decode (parts, body) = Refuse a') as -> by (unfold decode, Ht, fast_transport; by rewrite Eb, Ea). done.
Qed.

End with_store.

(** [serve_fast]: every request of every connection goes to [proxy_handler];
    [axum::serve] goes on after a failing accept. *)
Definition serve_fast {S} `{Store S} (max_body : Z) (p : Process S (FastUpstream (C := C)) A)
    (evs : list (Event (Parts V * B))) : option (Process S (FastUpstream (C := C)) A) :=
  service_run (Upstream0 := FastUpstream_Upstream) (Transport0 := fast_transport max_body) hash false p evs.

(** The binary: the proxy of [build_proxy], its tasks and its sweep. *)
Definition fast_main `{!HashOrder IdempotencyKey} (env : string -> option string) (cpus : option Z)
    (files : string -> Disk) (client : C) (bound : bool) : result (Process WalStore (FastUpstream (C := C)) A) MainError :=
  start (match build_proxy env cpus files client with
         | Err e => Err e
         | Ok None => Ok None
         | Ok (Some p) => Ok (Some (attach p))
         end) bound.

End fast.

(** ** Over the write-ahead log *)


Section wal.
Context {U : Type} `{!Upstream U} `{!HashOrder IdempotencyKey} `{!HashOrder string}.
Context (hash : string -> Z) (fatal : bool).




End wal.

(** ** Two connections with one key *)

#[local] Instance service_key_order : HashOrder IdempotencyKey := default_order IdempotencyKey.
#[local] Instance service_string_order : HashOrder string := default_order string.




