(* ===== verification/Sim.v ===== *)
(** * The deterministic simulator ([onced-sim/src/lib.rs], [main.rs])

    The fault-injecting harness that drives an engine over a write-ahead log: a
    seeded generator chooses begins, completions by workers that may be stale,
    clock jumps, flushes and crashes, and oracles check the answers.  Every
    assertion of the source is an error value here, so a run that returns [Ok]
    is a run in which none of them fired.  A crash drops the process and reopens
    the file it leaves, as the harness does. *)

From S2P Require Import Prelude Machine Str Decimal HashMap Types Store Engine Codec Disk Wal.

Definition KEY_SPACE : Z := 8.
Definition LEASE_MS : Z := 1000.

(** ** The generator: xorshift64 *)

Record Rng := MkRng { rng_state : Z }.

Definition Rng_new (seed : Z) : Rng := MkRng (Z.lxor seed 0x9E3779B97F4A7C15).

Definition next_u64 (r : Rng) : Z * Rng :=
  let x := rng_state r in
  let x := Z.lxor x (shl 64 x 13) in
  let x := Z.lxor x (Z.shiftr x 7) in
  let x := Z.lxor x (shl 64 x 17) in
  (x, MkRng x).

Definition below (r : Rng) (n : Z) : Z * Rng := let (x, r) := next_u64 r in (x mod n, r).

(** ** Counters *)

Record Stats := MkStats {
  steps : Z;
  runs : Z;
  replays : Z;
  in_progress : Z;
  completes_ok : Z;
  stale_fences : Z;
  already_completed : Z;
  crashes : Z;
  takeovers : Z;
  flushes : Z;
  unknown_completes : Z;
  mismatches : Z;
}.

Definition stats_default : Stats := MkStats 0 0 0 0 0 0 0 0 0 0 0 0.

Definition accumulate (s other : Stats) : Stats :=
  let add := wrapping_add 64 in
  MkStats (add (steps s) (steps other)) (add (runs s) (runs other)) (add (replays s) (replays other))
    (add (in_progress s) (in_progress other)) (add (completes_ok s) (completes_ok other))
    (add (stale_fences s) (stale_fences other)) (add (already_completed s) (already_completed other))
    (add (crashes s) (crashes other)) (add (takeovers s) (takeovers other))
    (add (flushes s) (flushes other)) (add (unknown_completes s) (unknown_completes other))
    (add (mismatches s) (mismatches other)).

(** The counters that one event adds to, [+= 1] on the named field. *)
Definition one_step : Stats := MkStats 1 0 0 0 0 0 0 0 0 0 0 0.
Definition one_run : Stats := MkStats 0 1 0 0 0 0 0 0 0 0 0 0.
Definition one_replay : Stats := MkStats 0 0 1 0 0 0 0 0 0 0 0 0.
Definition one_in_progress : Stats := MkStats 0 0 0 1 0 0 0 0 0 0 0 0.
Definition one_complete : Stats := MkStats 0 0 0 0 1 0 0 0 0 0 0 0.
Definition one_stale : Stats := MkStats 0 0 0 0 0 1 0 0 0 0 0 0.
Definition one_already : Stats := MkStats 0 0 0 0 0 0 1 0 0 0 0 0.
Definition one_crash : Stats := MkStats 0 0 0 0 0 0 0 1 0 0 0 0.
Definition one_takeover : Stats := MkStats 0 0 0 0 0 0 0 0 1 0 0 0.
Definition one_flush : Stats := MkStats 0 0 0 0 0 0 0 0 0 1 0 0.
Definition one_unknown : Stats := MkStats 0 0 0 0 0 0 0 0 0 0 1 0.
Definition one_mismatch : Stats := MkStats 0 0 0 0 0 0 0 0 0 0 0 1.

(** ** State *)

Inductive Durability := Strict | GroupCommit.

#[export] Instance Durability_eq_dec : EqDecision Durability.
Proof. solve_decision. Defined.

(** A worker that holds a token, with the outcome it will commit. *)
Record Inflight := MkInflight {
  worker_index : Z;
  worker_token : RunToken;
  worker_outcome : CachedOutcome;
  fp_variant : Z;
}.

(** The WAL path is the disk that the engine's store owns. *)
Record Simulation := MkSim {
  seed : Z;
  mode : Durability;
  rng : Rng;
  engine : Engine WalStore;
  now_ms : Z;
  inflight : list Inflight;
  committed : gmap Z CachedOutcome;
  durable : gmap Z CachedOutcome;
  committed_fp : gmap Z Z;
  successful_completes : gmap Z Z;
  next_body : Z;
  stats : Stats;
}.

(** The assertions and panics of the harness. *)
Inductive Panic :=
| OpenFailed (e : OpenError)
| DurableOutcomeChanged (index : Z)
| ReplayNeverCommitted (index : Z)
| ReplayAcrossFingerprints (index : Z)
| CompletedAgain (index count : Z)
| AlreadyCompletedUncommitted (index : Z)
| UnexpectedUnknown (index : Z)
| WrongOutcomeAfterCrash (index : Z)
| NoReplayAfterCrash (index : Z) (got : string)
| RemoveOutOfRange.

Definition key_of (index : Z) : IdempotencyKey :=
  MkKey (str_of_bytes (str_bytes "key-" ++ display_uint index)).

Definition fingerprint_of (index variant : Z) : RequestFingerprint :=
  MkFingerprint (to_le_bytes 8 index ++ [u8_of_Z variant] ++ replicate 23 x00).

Definition begin_name (b : Begin) : string :=
  match b with
  | Begin_Run _ => "Run"
  | Begin_Replay _ => "Replay"
  | Begin_InProgress => "InProgress"
  | Begin_Mismatch => "Mismatch"
  end.

Definition open_store (d : Disk) (mode : Durability) : result WalStore OpenError :=
  match mode with
  | Strict => WalStore_open d
  | GroupCommit => WalStore_open_buffered d
  end.

(** ** Field updates *)

Definition set_rng (s : Simulation) (r : Rng) : Simulation :=
  MkSim (seed s) (mode s) r (engine s) (now_ms s) (inflight s) (committed s) (durable s)
    (committed_fp s) (successful_completes s) (next_body s) (stats s).
Definition set_engine (s : Simulation) (e : Engine WalStore) : Simulation :=
  MkSim (seed s) (mode s) (rng s) e (now_ms s) (inflight s) (committed s) (durable s)
    (committed_fp s) (successful_completes s) (next_body s) (stats s).
Definition set_now (s : Simulation) (t : Z) : Simulation :=
  MkSim (seed s) (mode s) (rng s) (engine s) t (inflight s) (committed s) (durable s)
    (committed_fp s) (successful_completes s) (next_body s) (stats s).
Definition set_inflight (s : Simulation) (ws : list Inflight) : Simulation :=
  MkSim (seed s) (mode s) (rng s) (engine s) (now_ms s) ws (committed s) (durable s)
    (committed_fp s) (successful_completes s) (next_body s) (stats s).
Definition set_committed (s : Simulation) (c : gmap Z CachedOutcome) : Simulation :=
  MkSim (seed s) (mode s) (rng s) (engine s) (now_ms s) (inflight s) c (durable s)
    (committed_fp s) (successful_completes s) (next_body s) (stats s).
Definition set_durable (s : Simulation) (d : gmap Z CachedOutcome) : Simulation :=
  MkSim (seed s) (mode s) (rng s) (engine s) (now_ms s) (inflight s) (committed s) d
    (committed_fp s) (successful_completes s) (next_body s) (stats s).
Definition set_committed_fp (s : Simulation) (c : gmap Z Z) : Simulation :=
  MkSim (seed s) (mode s) (rng s) (engine s) (now_ms s) (inflight s) (committed s) (durable s)
    c (successful_completes s) (next_body s) (stats s).
Definition set_successful (s : Simulation) (c : gmap Z Z) : Simulation :=
  MkSim (seed s) (mode s) (rng s) (engine s) (now_ms s) (inflight s) (committed s) (durable s)
    (committed_fp s) c (next_body s) (stats s).
Definition set_next_body (s : Simulation) (b : Z) : Simulation :=
  MkSim (seed s) (mode s) (rng s) (engine s) (now_ms s) (inflight s) (committed s) (durable s)
    (committed_fp s) (successful_completes s) b (stats s).
Definition count (s : Simulation) (c : Stats) : Simulation :=
  MkSim (seed s) (mode s) (rng s) (engine s) (now_ms s) (inflight s) (committed s) (durable s)
    (committed_fp s) (successful_completes s) (next_body s) (accumulate (stats s) c).

Definition draw (s : Simulation) (n : Z) : Z * Simulation :=
  let (x, r) := below (rng s) n in (x, set_rng s r).

(** Sequencing of steps that may panic. *)
Notation "'do!' x <- a ; b" := (match a with Ok x => b | Err e => Err e end)
  (at level 10, x pattern, a at level 100, b at level 200).

(** ** Steps *)

Section simulator.
Context `{!HashOrder IdempotencyKey} `{!HashOrder Z}.

(** [dirs]: whether the file system can sync directories. *)
Definition with_mode (dirs : bool) (seed : Z) (mode : Durability) : result Simulation Panic :=
  match open_store (disk_new dirs) mode with
  | Err e => Err (OpenFailed e)
  | Ok store =>
      Ok (MkSim seed mode (Rng_new seed) (Engine.new store LEASE_MS) 1 [] ∅ ∅ ∅ ∅ 0 stats_default)
  end.

Definition mark_durable (s : Simulation) (index : Z) (outcome : CachedOutcome) : result Simulation Panic :=
  match durable s !! index with
  | Some existing =>
      if decide (existing = outcome) then Ok s else Err (DurableOutcomeChanged index)
  | None => Ok (set_durable s (<[index := outcome]> (durable s)))
  end.

(** The loop of [do_flush] over the committed outcomes. *)
Fixpoint mark_all (s : Simulation) (now_durable : list (Z * CachedOutcome)) : result Simulation Panic :=
  match now_durable with
  | [] => Ok s
  | (index, outcome) :: rest => do! s <- mark_durable s index outcome; mark_all s rest
  end.

Definition do_flush (s : Simulation) : result Simulation Panic :=
  let s := count s one_flush in
  let s := set_engine s (Engine.flush (engine s)) in
  mark_all s (hm_iter (committed s)).

Definition make_outcome (s : Simulation) : CachedOutcome * Simulation :=
  let s := set_next_body s (wrapping_add 64 (next_body s) 1) in
  (MkOutcome 200 [] (to_le_bytes 8 (next_body s)), s).

Definition do_begin (s : Simulation) : result Simulation Panic :=
  let (index, s) := draw s KEY_SPACE in
  let key := key_of index in
  let (variant, s) := match mode s with
                      | Strict => draw s 2
                      | GroupCommit => (0, s)
                      end in
  let fingerprint := fingerprint_of index variant in
  let had_inflight := existsb (fun w => worker_index w =? index) (inflight s) in
  let (b, e) := begin (engine s) key fingerprint (now_ms s) in
  let s := set_engine s e in
  match b with
  | Begin_Run token =>
      let s := count s one_run in
      let s := if had_inflight then count s one_takeover else s in
      let (outcome, s) := make_outcome s in
      Ok (set_inflight s (inflight s ++ [MkInflight index token outcome variant]))
  | Begin_Replay outcome =>
      let s := count s one_replay in
      if decide (committed s !! index = Some outcome) then
        if decide (committed_fp s !! index = Some variant) then Ok s
        else Err (ReplayAcrossFingerprints index)
      else Err (ReplayNeverCommitted index)
  | Begin_InProgress => Ok (count s one_in_progress)
  | Begin_Mismatch => Ok (count s one_mismatch)
  end.

(** [Vec::remove]. *)
Definition vec_remove (i : nat) (l : list Inflight) : list Inflight := take i l ++ drop (S i) l.

Definition do_complete (s : Simulation) : result Simulation Panic :=
  if bool_decide (inflight s = []) then Ok s
  else
    let (which, s) := draw s (len (inflight s)) in
    match inflight s !! Z.to_nat which with
    | None => Err RemoveOutOfRange
    | Some worker =>
        let s := set_inflight s (vec_remove (Z.to_nat which) (inflight s)) in
        let index := worker_index worker in
        let (r, e) := complete (engine s) (worker_token worker) (worker_outcome worker) (now_ms s) in
        let s := set_engine s e in
        match r with
        | Ok _ =>
            let s := count s one_complete in
            let s := set_committed s (<[index := worker_outcome worker]> (committed s)) in
            let s := set_committed_fp s (<[index := fp_variant worker]> (committed_fp s)) in
            match mode s with
            | Strict =>
                let c := wrapping_add 64 (default 0 (successful_completes s !! index)) 1 in
                let s := set_successful s (<[index := c]> (successful_completes s)) in
                if c =? 1 then mark_durable s index (worker_outcome worker)
                else Err (CompletedAgain index c)
            | GroupCommit => Ok s
            end
        | Err StaleFence => Ok (count s one_stale)
        | Err AlreadyCompleted =>
            let s := count s one_already in
            if decide (is_Some (committed s !! index)) then Ok s
            else Err (AlreadyCompletedUncommitted index)
        | Err Unknown =>
            match mode s with
            | Strict => Err (UnexpectedUnknown index)
            | GroupCommit => Ok (count s one_unknown)
            end
        end
    end.

Definition do_advance_clock (s : Simulation) : result Simulation Panic :=
  let (half, s) := draw s 2 in
  let (jump, s) := if half =? 0
                   then let (j, s) := draw s (LEASE_MS / 2) in (j + 1, s)
                   else let (j, s) := draw s LEASE_MS in (LEASE_MS + j, s) in
  Ok (set_now s (wrapping_add 64 (now_ms s) jump)).

(** The loop of [do_crash] over what must have survived. *)
Fixpoint check_survivors (s : Simulation) (survivors : list (Z * CachedOutcome)) : result Simulation Panic :=
  match survivors with
  | [] => Ok s
  | (index, expected) :: rest =>
      let variant := default 0 (committed_fp s !! index) in
      let (b, e) := begin (engine s) (key_of index) (fingerprint_of index variant) (now_ms s) in
      let s := set_engine s e in
      match b with
      | Begin_Replay got =>
          if decide (got = expected) then check_survivors s rest else Err (WrongOutcomeAfterCrash index)
      | other => Err (NoReplayAfterCrash index (begin_name other))
      end
  end.

Definition do_crash (s : Simulation) : result Simulation Panic :=
  let s := count s one_crash in
  match open_store (disk (store (engine s))) (mode s) with
  | Err e => Err (OpenFailed e)
  | Ok st =>
      let s := set_engine s (Engine.new st LEASE_MS) in
      let s := match mode s with
               | GroupCommit => set_committed s (durable s)
               | Strict => s
               end in
      check_survivors s (hm_iter (committed s))
  end.

Definition step (s : Simulation) : result Simulation Panic :=
  let (roll, s) := draw s 100 in
  do! s <- match mode s with
           | Strict =>
               if roll <=? 39 then do_begin s
               else if roll <=? 69 then do_complete s
               else if roll <=? 84 then do_advance_clock s
               else do_crash s
           | GroupCommit =>
               if roll <=? 34 then do_begin s
               else if roll <=? 59 then do_complete s
               else if roll <=? 74 then do_flush s
               else if roll <=? 84 then do_advance_clock s
               else do_crash s
           end;
  Ok (count s one_step).

Fixpoint run (n : nat) (s : Simulation) : result Simulation Panic :=
  match n with
  | O => Ok s
  | S n => do! s <- step s; run n s
  end.

(** The campaign of [main]: one fresh simulation per seed. *)
Fixpoint campaign (dirs : bool) (mode : Durability) (seeds : list Z) (n : nat) (total : Stats)
  : result Stats Panic :=
  match seeds with
  | [] => Ok total
  | seed :: seeds =>
      do! s <- with_mode dirs seed mode;
      do! s <- run n s;
      campaign dirs mode seeds n (accumulate total (stats s))
  end.

(** Both disciplines in turn. *)
Definition main (dirs : bool) (seeds n : nat) : result (Stats * Stats) Panic :=
  let seeds := map Z.of_nat (seq 0 seeds) in
  do! strict <- campaign dirs Strict seeds n stats_default;
  do! group <- campaign dirs GroupCommit seeds n stats_default;
  Ok (strict, group).

End simulator.
