(* ===== verification/SimSpec.v ===== *)
(** * No assertion of the simulator ever fires

    The invariant that ties the engine, the log on disk and the oracles of the
    simulator together, preserved by every step of either durability mode, for
    every seed.  The assertions are the load-bearing claims of the program
    (exactly-once effect, durability, replay consistency, mismatch safety), so
    the campaign, which the sources run on some hundred seeds, is proved for all
    of them. *)

From S2P Require Import Prelude Machine Str Decimal HashMap Types Store Engine History EngineSpec Codec.
From S2P Require Import Disk Wal WalLog WalSpec Durability EngineWal Sim.

(** ** What a process leaves on disk when it dies *)

(** The records that reopening the file now would recover. *)
Definition on_disk (s : WalStore) : gmap IdempotencyKey KeyState :=
  match open_with (disk s) true with Ok s' => index s' | Err _ => ∅ end.

Lemma reopen_repr s ps qs m : wal_repr s ps qs -> open_with (disk s) m = Ok (opened (disk s) m ps).
Proof.
  intros Hr. pose proof (repr_valid _ _ _ Hr) as Hv. apply Forall_app in Hv as [Hv _].
  apply open_log; [done|]. rewrite (repr_contents _ _ _ Hr). apply image_nil.
Qed.

Lemma on_disk_repr s ps qs : wal_repr s ps qs -> on_disk s = replayed ∅ ps.
Proof. intros Hr. unfold on_disk. by rewrite (reopen_repr _ _ _ _ Hr). Qed.

(** A restart of the process without loss of power. *)
Lemma reopen_ok s m :
  wal_ok s ->
  exists s', open_with (disk s) m = Ok s' /\ wal_ok s' /\ index s' = on_disk s /\ on_disk s' = on_disk s /\
    sync_each s' = m.
Proof.
  intros ((ps & qs & Hr) & _). exists (opened (disk s) m ps).
  pose proof (repr_valid _ _ _ Hr) as Hv. apply Forall_app in Hv as [Hv _].
  assert (wal_repr (opened (disk s) m ps) ps []) as Hr'.
  { apply opened_repr; [done| |apply Hr]. rewrite (repr_contents _ _ _ Hr). apply image_nil. }
  split; [by eapply reopen_repr|]. rewrite (on_disk_repr _ _ _ Hr), (on_disk_repr _ _ _ Hr').
  split_and!; try done. by split; [eauto|].
Qed.

Lemma flushed_on_disk s : wal_ok s -> pending s = [] -> on_disk s = index s.
Proof.
  intros ((ps & qs & Hr) & _) Hp. pose proof (pending_nil _ _ _ Hr Hp); subst qs.
  by rewrite (on_disk_repr _ _ _ Hr), (repr_index _ _ _ Hr), app_nil_r.
Qed.

Lemma put_on_disk s k st :
  wal_ok s -> encodable k st ->
  on_disk (WalStore_put s k st) = if sync_each s then <[k := st]> (index s) else on_disk s.
Proof.
  intros Hok He. pose proof (put_repr s k st Hok He) as Hok'. destruct (sync_each s) eqn:E.
  - rewrite flushed_on_disk; [apply put_index | done|]. destruct Hok' as (_ & Hp). apply Hp.
    by rewrite put_sync_each.
  - destruct Hok as ((ps & qs & Hr) & _). unfold WalStore_put. simpl. rewrite E.
    by rewrite (on_disk_repr _ _ _ (append_repr _ _ _ _ _ Hr He)), (on_disk_repr _ _ _ Hr).
Qed.

Lemma flush_on_disk s : wal_ok s -> on_disk (flush_pending s) = index s.
Proof.
  intros Hok. destruct (flush_frame s) as (Hi & _ & _ & Hp & _).
  rewrite flushed_on_disk; [done | by apply flush_pending_ok | done].
Qed.

(** ** Keys and requests of the simulator *)

Definition in_space (i : Z) : Prop := 0 <= i < KEY_SPACE.

Lemma in_space_cases i (P : Z -> Prop) :
  in_space i -> P 0 -> P 1 -> P 2 -> P 3 -> P 4 -> P 5 -> P 6 -> P 7 -> P i.
Proof.
  unfold in_space, KEY_SPACE. intros Hi **.
  assert (i = 0 \/ i = 1 \/ i = 2 \/ i = 3 \/ i = 4 \/ i = 5 \/ i = 6 \/ i = 7) as H' by lia.
  by destruct_or! H'; subst.
Qed.

Lemma key_of_inj i j : in_space i -> in_space j -> key_of i = key_of j -> i = j.
Proof.
  unfold in_space, KEY_SPACE. intros Hi Hj E. apply (f_equal (fun k => str_bytes (key_str k))) in E.
  unfold key_of in E. cbn [key_str] in E. rewrite !str_bytes_of_bytes in E.
  apply app_inv_head in E. apply display_uint_inj; unfold in_uint; [lia | lia | done].
Qed.

Lemma key_of_wf i : in_space i -> wf_key (key_of i) /\ len (str_bytes (key_str (key_of i))) <= 5.
Proof.
  intros Hi. pattern i. apply (in_space_cases i); [exact Hi | by_eval ..].
Qed.

Lemma fingerprint_length i v : wf_fingerprint (fingerprint_of i v).
Proof. reflexivity. Qed.

Section admissible.
Context `{!HashOrder IdempotencyKey}.

Lemma sim_admits_request i v : in_space i -> admits_request (S := WalStore) (key_of i) (fingerprint_of i v).
Proof.
  intros Hi. destruct (key_of_wf i Hi) as [Hk Hl].
  apply wal_admits_request; [done | apply fingerprint_length | lia].
Qed.

Lemma sim_admits_outcome i b t :
  in_space i -> in_uint 64 t ->
  admits_outcome (S := WalStore) (key_of i) (MkOutcome 200 [] (to_le_bytes 8 b)) t.
Proof.
  intros Hi Ht. destruct (key_of_wf i Hi) as [_ Hl]. apply wal_admits_outcome; [|done|].
  - split; [done|]. split; [done | constructor].
  - unfold outcome_size. cbn [body headers]. rewrite (len_of (to_le_bytes 8 b) 8) by apply length_to_le_bytes.
    change (len (headers_raw [])) with 0. lia.
Qed.

End admissible.

(** ** The oracles *)

(** The fingerprint variants that a mode presents. *)
Definition variant_ok (md : Durability) (v : Z) : Prop :=
  match md with Strict => 0 <= v < 2 | GroupCommit => v = 0 end.

Lemma fingerprint_of_inj md i v v' :
  variant_ok md v -> variant_ok md v' -> fingerprint_of i v = fingerprint_of i v' -> v = v'.
Proof.
  intros Hv Hv' E. apply (f_equal fp_bytes) in E. unfold fingerprint_of in E. cbn [fp_bytes] in E.
  apply app_inv_head in E. injection E as E. apply (f_equal u8_to_Z) in E. rewrite !u8_to_Z_of_Z in E.
  rewrite !wrap_small in E; [done| |]; destruct md; simpl in *; unfold in_uint; lia.
Qed.

(** An oracle agrees with a set of records: it knows exactly their outcomes and
    the fingerprints they are bound to; no fence is above [bound]. *)
Record oracle_agrees (md : Durability) (now bound : Z) (m : gmap IdempotencyKey KeyState)
    (c : gmap Z CachedOutcome) (cfp : gmap Z Z) : Prop := {
  agree_done i fp o t : in_space i -> m !! key_of i = Some (Completed fp o t) ->
    c !! i = Some o /\ 1 <= t <= now /\
    exists v, cfp !! i = Some v /\ variant_ok md v /\ fp = fingerprint_of i v;
  agree_committed i o : c !! i = Some o ->
    in_space i /\ exists fp t, m !! key_of i = Some (Completed fp o t);
  agree_running i f fp l : in_space i -> m !! key_of i = Some (InProgress f fp l) ->
    exists v, variant_ok md v /\ fp = fingerprint_of i v;
  agree_fence k f fp l : m !! k = Some (InProgress f fp l) -> 0 <= fence_no f <= bound;
}.

Section oracle.
Variables (md : Durability) (now bound : Z) (m : gmap IdempotencyKey KeyState).
Variables (c : gmap Z CachedOutcome) (cfp : gmap Z Z).
Hypothesis Hagree : oracle_agrees md now bound m c cfp.

Lemma agrees_mono now' bound' : now <= now' -> bound <= bound' -> oracle_agrees md now' bound' m c cfp.
Proof.
  intros Hn Hb. destruct Hagree as [H1 H2 H3 H4]. constructor; try done.
  - intros i fp o t Hi Hk. destruct (H1 i fp o t Hi Hk) as (? & ? & ?). split_and!; [done | lia | lia | done].
  - intros k f fp l Hk. specialize (H4 k f fp l Hk). lia.
Qed.

(** The bound on the fences may be taken as their maximum. *)
Lemma agrees_max : oracle_agrees md now (max_fence m) m c cfp /\ 0 <= max_fence m <= Z.max 0 bound.
Proof.
  pose proof Hagree as [H1 H2 H3 H4]. split; [constructor; try done|].
  - intros k f fp l Hk. split; [by apply (H4 k f fp l) | by eapply max_fence_ge].
  - split; [apply max_fence_nonneg|]. apply max_fence_le; [lia|].
    intros k f fp l Hk. specialize (H4 k f fp l Hk). lia.
Qed.

Lemma agrees_uncommitted i :
  in_space i -> (forall fp o t, m !! key_of i <> Some (Completed fp o t)) -> c !! i = None.
Proof.
  intros Hi Hn. destruct (c !! i) as [o|] eqn:E; [|done].
  destruct (agree_committed _ _ _ _ _ _ Hagree i o E) as (_ & fp & t & Hk). by apply Hn in Hk.
Qed.

(** A run of a key that is not completed. *)
Lemma agrees_start i v f l bound' :
  in_space i -> variant_ok md v -> (forall fp o t, m !! key_of i <> Some (Completed fp o t)) ->
  bound <= bound' -> 0 <= fence_no f <= bound' ->
  oracle_agrees md now bound' (<[key_of i := InProgress f (fingerprint_of i v) l]> m) c cfp.
Proof.
  intros Hi Hv Hn Hb Hf. pose proof (agrees_uncommitted i Hi Hn) as Hc.
  destruct (agrees_mono now bound') as [H1 H2 H3 H4]; [lia | lia |]. constructor.
  - intros j fp o t Hj [[_ ?]|[_ Hk]]%lookup_insert_Some; [done | by apply H1 in Hk].
  - intros j o Ho. destruct (H2 j o Ho) as (Hj & fp & t & Hk). split; [done|]. exists fp, t.
    rewrite lookup_insert_ne; [done|]. intros ?%key_of_inj; [|done..]. subst. congruence.
  - intros j f' fp l' Hj [[E ?]|[_ Hk]]%lookup_insert_Some; [|by apply H3 in Hk].
    apply key_of_inj in E; [|done..]. simplify_eq. eauto.
  - intros k f' fp l' [[_ ?]|[_ Hk]]%lookup_insert_Some; [simplify_eq; done | by apply H4 in Hk].
Qed.

(** The completion of a run. *)
Lemma agrees_complete i f fp l v o :
  in_space i -> variant_ok md v -> 1 <= now -> m !! key_of i = Some (InProgress f fp l) ->
  oracle_agrees md now bound (<[key_of i := Completed (fingerprint_of i v) o now]> m)
    (<[i := o]> c) (<[i := v]> cfp).
Proof.
  intros Hi Hv Hnow Hm. destruct Hagree as [H1 H2 H3 H4]. constructor.
  - intros j fp' o' t Hj [[E ?]|[Hne Hk]]%lookup_insert_Some.
    + apply key_of_inj in E; [|done..]. simplify_eq. rewrite !lookup_insert_eq. split_and!; [done | lia | lia | eauto].
    + rewrite !lookup_insert_ne by congruence. by apply H1 in Hk.
  - intros j o' [[<- <-]|[Hne Ho]]%lookup_insert_Some.
    + split; [done|]. eexists _, _. by rewrite lookup_insert_eq.
    + destruct (H2 j o' Ho) as (Hj & fp' & t & Hk). split; [done|]. exists fp', t.
      rewrite lookup_insert_ne; [done|]. by intros ?%key_of_inj.
  - intros j f' fp' l' Hj [[E ?]|[_ Hk]]%lookup_insert_Some; [done | by apply H3 in Hk].
  - intros k f' fp' l' [[_ ?]|[_ Hk]]%lookup_insert_Some; [done | by apply H4 in Hk].
Qed.

(** Remembering the fingerprint of a key the oracle does not know changes nothing. *)
Lemma agrees_fingerprint i v : c !! i = None -> oracle_agrees md now bound m c (<[i := v]> cfp).
Proof.
  intros Hc. destruct Hagree as [H1 H2 H3 H4]. constructor; try done.
  intros j fp o t Hj Hk. destruct (H1 j fp o t Hj Hk) as (Ho & Ht & Hv).
  rewrite lookup_insert_ne by congruence. done.
Qed.

End oracle.

(** ** The invariant *)

(** The campaigns stay below the time-to-live: the clock advances by less than
    two leases per step. *)
Definition HORIZON : Z := 43200.

Definition worker_ok (md : Durability) (m : gmap IdempotencyKey KeyState) (w : Inflight) : Prop :=
  in_space (worker_index w) /\ token_key (worker_token w) = key_of (worker_index w) /\
  variant_ok md (fp_variant w) /\ (exists b, worker_outcome w = MkOutcome 200 [] (to_le_bytes 8 b)) /\
  (md = Strict ->
   match m !! key_of (worker_index w) with
   | None => False
   | Some (InProgress f fp _) =>
       fence_no (token_fence (worker_token w)) <= fence_no f /\
       (f = token_fence (worker_token w) -> fp = fingerprint_of (worker_index w) (fp_variant w))
   | Some (Completed _ _ _) => True
   end).

(** After [n] steps. *)
Record sim_inv (n : nat) (s : Simulation) : Prop := {
  inv_ok : wal_ok (store (engine s));
  inv_mode : sync_each (store (engine s)) = bool_decide (mode s = Strict);
  inv_lease : lease_ms (engine s) = LEASE_MS;
  inv_ttl : ttl_ms (engine s) = DEFAULT_TTL_MS;
  inv_now : 1 <= now_ms s <= 1 + 1999 * Z.of_nat n;
  inv_next : 1 <= next_fence (engine s) <= 1 + Z.of_nat n;
  inv_mem : oracle_agrees (mode s) (now_ms s) (next_fence (engine s) - 1) (index (store (engine s)))
              (committed s) (committed_fp s);
  inv_disk : oracle_agrees (mode s) (now_ms s) (Z.of_nat n) (on_disk (store (engine s)))
               (durable s) (committed_fp s);
  inv_sub : durable s ⊆ committed s;
  inv_success i c : mode s = Strict -> successful_completes s !! i = Some c -> is_Some (committed s !! i);
  inv_workers : Forall (worker_ok (mode s) (index (store (engine s)))) (inflight s);
}.

Lemma inv_mono n s : sim_inv n s -> sim_inv (S n) s.
Proof.
  intros [H1 H2 H3 H4 H5 H6 H7 H8 H9 H10 H11]. constructor; try done; [lia | lia|].
  eapply agrees_mono; [exact H8 | lia | lia].
Qed.

(** The generator, the body counter and the statistics are outside the invariant. *)
Lemma inv_rng n s r : sim_inv n s -> sim_inv n (set_rng s r).
Proof. by intros []; constructor. Qed.
Lemma inv_count n s c : sim_inv n s -> sim_inv n (count s c).
Proof. by intros []; constructor. Qed.
Lemma inv_body n s b : sim_inv n s -> sim_inv n (set_next_body s b).
Proof. by intros []; constructor. Qed.

#[local] Hint Resolve inv_mono inv_rng inv_count inv_body : core.

Lemma draw_spec n s k : sim_inv n s -> 0 < k -> exists x s', draw s k = (x, s') /\ 0 <= x < k /\ sim_inv n s' /\
  mode s' = mode s /\ inflight s' = inflight s.
Proof.
  intros Hs Hk. unfold draw, below. destruct (next_u64 (rng s)) as [x r]. eexists _, _. split; [done|].
  split; [by apply Z.mod_pos_bound|]. split_and!; auto.
Qed.

(** Within the horizon no outcome expires. *)
Lemma not_expired n s t :
  sim_inv n s -> Z.of_nat n <= HORIZON -> 1 <= t -> now_ms s < expiry t (ttl_ms (engine s)).
Proof.
  intros Hs Hn Ht. pose proof (inv_now _ _ Hs). rewrite (inv_ttl _ _ Hs).
  unfold expiry, saturating_add, DEFAULT_TTL_MS, uint_max, HORIZON in *. lia.
Qed.

(** ** Workers *)

(** A worker whose key is started again is superseded. *)
Lemma worker_takeover md m w i f' fp' l' :
  worker_ok md m w -> in_space i ->
  match m !! key_of i with
  | None => True | Some (InProgress f _ _) => fence_no f < fence_no f' | Some (Completed _ _ _) => False
  end ->
  worker_ok md (<[key_of i := InProgress f' fp' l']> m) w.
Proof.
  intros (Hw & Ht & Hv & Ho & Hm) Hi Hk. split_and!; try done. intros Hmd. specialize (Hm Hmd).
  destruct (decide (worker_index w = i)) as [<-|Hne].
  - rewrite lookup_insert_eq. destruct (m !! _) as [[f fp l|]|]; [|done..]. split; [lia|]. intros ->. lia.
  - rewrite lookup_insert_ne; [done|]. by intros ?%key_of_inj.
Qed.

Lemma worker_completed md m w i fp o t :
  worker_ok md m w -> in_space i -> worker_ok md (<[key_of i := Completed fp o t]> m) w.
Proof.
  intros (Hw & Ht & Hv & Ho & Hm) Hi. split_and!; try done. intros Hmd.
  destruct (decide (worker_index w = i)) as [<-|Hne]; [by rewrite lookup_insert_eq|].
  rewrite lookup_insert_ne; [by apply Hm|]. by intros ?%key_of_inj.
Qed.

(** In strict mode everything is on disk. *)
Lemma inv_strict n s :
  sim_inv n s -> mode s = Strict -> on_disk (store (engine s)) = index (store (engine s)).
Proof.
  intros Hs Hm. apply flushed_on_disk; [apply (inv_ok _ _ Hs)|].
  apply (inv_ok _ _ Hs). rewrite (inv_mode _ _ Hs), Hm. done.
Qed.

(** ** Steps *)

Section steps.
Context `{!HashOrder IdempotencyKey} `{!HashOrder Z}.

(** What [begin] decides on a key of the simulator. *)
Lemma sim_begin_cases n s i v :
  sim_inv n s -> Z.of_nat n <= HORIZON -> in_space i ->
  let e := engine s in let k := key_of i in let fp := fingerprint_of i v in
  let b := begin e k fp (now_ms s) in
  (b = start e k fp (now_ms s) /\
   match index (store e) !! k with
   | None => True | Some (InProgress _ fp' _) => fp' = fp | Some (Completed _ _ _) => False
   end) \/
  (exists o t, b = (Begin_Replay o, e) /\ index (store e) !! k = Some (Completed fp o t)) \/
  b = (Begin_InProgress, e) \/ b = (Begin_Mismatch, e).
Proof.
  intros Hs Hn Hi e k fp b. unfold b, begin. change (get (store e) k) with (index (store e) !! k).
  destruct (index (store e) !! k) as [[f fp' l|fp' o t]|] eqn:E; cbn [begin_action].
  - destruct (decide (fp' = fp)) as [->|]; [|auto]. destruct (l <=? now_ms s); auto.
  - destruct (agree_done _ _ _ _ _ _ (inv_mem _ _ Hs) i fp' o t Hi E) as (_ & Ht & _).
    pose proof (not_expired n s t Hs Hn ltac:(lia)) as Hx. fold e in Hx.
    rewrite (proj2 (Z.leb_gt _ _) Hx). destruct (decide (fp' = fp)) as [->|]; [|auto]. right; left; eauto.
  - auto.
Qed.

(** A run: the engine records it, and one more worker holds its token. *)
Lemma start_inv n s i v o b :
  sim_inv n s -> Z.of_nat n <= HORIZON -> in_space i -> variant_ok (mode s) v ->
  match index (store (engine s)) !! key_of i with
  | None => True | Some (InProgress _ fp _) => fp = fingerprint_of i v | Some (Completed _ _ _) => False
  end ->
  o = MkOutcome 200 [] (to_le_bytes 8 b) ->
  let e := engine s in
  let k := key_of i in
  sim_inv (S n)
    (set_inflight (set_engine s (start e k (fingerprint_of i v) (now_ms s)).2)
       (inflight s ++ [MkInflight i (MkRunToken k (MkFence (next_fence e))) o v])).
Proof.
  intros Hs Hn Hi Hv Hk Ho e k. pose proof (inv_strict n s Hs) as Hstrict.
  destruct Hs as [H1 H2 H3 H4 H5 H6 H7 H8 H9 H10 H11]. fold e k in H1, H2, H3, H4, H6, H7, H8, H11, Hk, Hstrict.
  unfold HORIZON in Hn. rewrite start_eq. cbn [snd]. set (st := started e k (fingerprint_of i v) (now_ms s)) in *.
  assert (encodable k st) as Henc.
  { apply (sim_admits_request i v Hi); [unfold in_uint; simpl; lia|].
    apply saturating_add_range; rewrite ?H3; unfold LEASE_MS; lia. }
  assert (forall fp o t, index (store e) !! k <> Some (Completed fp o t)) as Hnc.
  { intros fp' o' t E. by rewrite E in Hk. }
  assert (match index (store e) !! k with
          | None => True | Some (InProgress f _ _) => fence_no f < next_fence e | Some (Completed _ _ _) => False
          end) as Hlt.
  { destruct (index (store e) !! k) as [[f fp l|]|] eqn:E; [|done..].
    pose proof (agree_fence _ _ _ _ _ _ H7 k f fp l E). lia. }
  assert (wrapping_add 64 (next_fence e) 1 = next_fence e + 1) as Enx by (apply wrapping_add_small; lia).
  change (put (store e) k st) with (WalStore_put (store e) k st).
  constructor; cbn [set_inflight set_engine engine mode now_ms committed durable committed_fp successful_completes
    inflight store lease_ms ttl_ms next_fence]; rewrite ?Enx, ?put_index, ?put_sync_each, ?put_on_disk by done;
    try done; [by apply put_repr | lia | lia | | |].
  - eapply agrees_start; [exact H7 | done.. | lia | simpl; lia].
  - rewrite H2. case_bool_decide as Hmd; [|eapply agrees_mono; [exact H8 | lia | lia]].
    rewrite (Hstrict Hmd) in H8. eapply agrees_start; [exact H8 | done.. | lia | simpl; lia].
  - apply Forall_app; split.
    + eapply Forall_impl; [exact H11|]. intros w Hw. by apply worker_takeover.
    + constructor; [|constructor]. split_and!; try done; [eauto|]. intros _. cbn [worker_index].
      rewrite lookup_insert_eq. simpl. split; [lia | done].
Qed.

Lemma do_begin_inv n s :
  sim_inv n s -> Z.of_nat n <= HORIZON -> exists s', do_begin s = Ok s' /\ sim_inv (S n) s'.
Proof.
  intros Hs Hn. unfold do_begin.
  destruct (draw_spec n s KEY_SPACE Hs ltac:(done)) as (i & s1 & -> & Hi & Hs1 & _).
  assert (exists v s2, match mode s1 with Strict => draw s1 2 | GroupCommit => (0, s1) end = (v, s2) /\
            variant_ok (mode s2) v /\ sim_inv n s2) as (v & s2 & -> & Hv & Hs2).
  { destruct (mode s1) eqn:Em; [|exists 0, s1; by rewrite Em].
    destruct (draw_spec n s1 2 Hs1 ltac:(done)) as (v & s2 & -> & Hv & Hs2 & Em2 & _).
    exists v, s2. by rewrite Em2, Em. }
  destruct (sim_begin_cases n s2 i v Hs2 Hn Hi) as [[-> Hk]|[(o & t & -> & Hk)|[->| ->]]].
  - pose proof (start_inv n s2 i v _ (wrapping_add 64 (next_body s2) 1) Hs2 Hn Hi Hv Hk eq_refl) as H'.
    rewrite start_eq in *. cbn [fst snd] in *. eexists. split; [done|].
    destruct (existsb _ _); apply (inv_body _ _ (wrapping_add 64 (next_body s2) 1)) in H'.
    + exact (inv_count _ _ one_takeover (inv_count _ _ one_run H')).
    + exact (inv_count _ _ one_run H').
  - destruct (agree_done _ _ _ _ _ _ (inv_mem _ _ Hs2) i _ o t Hi Hk) as (Ho & _ & v' & Hv' & Hok & E).
    assert (v = v') as <- by (by eapply fingerprint_of_inj).
    cbn [count set_engine committed committed_fp]. rewrite !decide_True by done. eexists; split; [done|].
    apply inv_mono, inv_count. by destruct Hs2; constructor.
  - eexists; split; [done|]. apply inv_mono, inv_count. by destruct Hs2; constructor.
  - eexists; split; [done|]. apply inv_mono, inv_count. by destruct Hs2; constructor.
Qed.

Lemma do_advance_inv n s :
  sim_inv n s -> Z.of_nat n <= HORIZON -> exists s', do_advance_clock s = Ok s' /\ sim_inv (S n) s'.
Proof.
  intros Hs Hn. unfold do_advance_clock.
  destruct (draw_spec n s 2 Hs ltac:(done)) as (h & s1 & -> & _ & Hs1 & _).
  assert (exists j s2, (if h =? 0 then let (j, s) := draw s1 (LEASE_MS / 2) in (j + 1, s)
                        else let (j, s) := draw s1 LEASE_MS in (LEASE_MS + j, s)) = (j, s2) /\
            0 <= j <= 1999 /\ sim_inv n s2) as (j & s2 & -> & Hj & Hs2).
  { destruct (h =? 0).
    - destruct (draw_spec n s1 (LEASE_MS / 2) Hs1 ltac:(done)) as (j & s2 & -> & Hj & Hs2 & _).
      exists (j + 1), s2. change (LEASE_MS / 2) with 500 in Hj. split_and!; [done | lia | lia | done].
    - destruct (draw_spec n s1 LEASE_MS Hs1 ltac:(done)) as (j & s2 & -> & Hj & Hs2 & _).
      exists (LEASE_MS + j), s2. unfold LEASE_MS in *. split_and!; [done | lia | lia | done]. }
  eexists; split; [done|]. destruct Hs2 as [H1 H2 H3 H4 H5 H6 H7 H8 H9 H10 H11]. unfold HORIZON in Hn.
  assert (wrapping_add 64 (now_ms s2) j = now_ms s2 + j) as E by (apply wrapping_add_small; lia).
  constructor; cbn [set_now engine mode now_ms committed durable committed_fp successful_completes inflight];
    rewrite ?E; try done; [lia | lia | |].
  - eapply agrees_mono; [exact H7 | lia | lia].
  - eapply agrees_mono; [exact H8 | lia | lia].
Qed.

(** Recording outcomes as durable that the oracle has committed. *)
Lemma mark_all_spec s l :
  durable s ⊆ committed s -> (forall i o, (i, o) ∈ l -> committed s !! i = Some o) ->
  exists d, mark_all s l = Ok (set_durable s d) /\ d ⊆ committed s /\
    durable s ⊆ d /\ forall i o, (i, o) ∈ l -> d !! i = Some o.
Proof.
  revert s; induction l as [|[i o] l IH]; intros s Hsub Hl.
  { exists (durable s). split; [by destruct s|]. split_and!; try done. by intros ? ? ?%elem_of_nil. }
  cbn [mark_all]. unfold mark_durable. pose proof (Hl i o ltac:(left)) as Ho.
  destruct (durable s !! i) as [o'|] eqn:E.
  - assert (o' = o) as -> by (apply (lookup_weaken _ _ _ _ E) in Hsub; congruence).
    rewrite decide_True by done. destruct (IH s Hsub) as (d & -> & Hd & Hsd & Hin); [set_solver|].
    exists d. split_and!; try done. intros j p [[= -> ->]|Hj]%elem_of_cons; [by eapply lookup_weaken | by apply Hin].
  - destruct (IH (set_durable s (<[i := o]> (durable s)))) as (d & -> & Hd & Hsd & Hin).
    + by apply insert_subseteq_l.
    + cbn [set_durable committed]. set_solver.
    + cbn [set_durable committed durable] in *. exists d. split_and!; try done.
      * etransitivity; [by apply insert_subseteq | exact Hsd].
      * intros j p [[= -> ->]|Hj]%elem_of_cons; [|by apply Hin].
        eapply lookup_weaken; [|exact Hsd]. apply lookup_insert_eq.
Qed.

Lemma do_flush_inv n s : sim_inv n s -> mode s = GroupCommit -> exists s', do_flush s = Ok s' /\ sim_inv (S n) s'.
Proof.
  intros Hs Hm. unfold do_flush. set (s1 := set_engine _ _). set (c := hm_iter (committed s1)).
  destruct (mark_all_spec s1 c) as (d & -> & Hd & _ & Hin); [apply (inv_sub _ _ Hs)| |].
  { intros i o Hio%elem_of_hm_iter. done. }
  assert (d = committed s) as ->.
  { apply (anti_symm (⊆)); [exact Hd|]. apply map_subseteq_spec. intros i o Hio. apply Hin. by apply elem_of_hm_iter. }
  eexists; split; [done|]. destruct Hs as [H1 H2 H3 H4 H5 H6 H7 H8 H9 H10 H11].
  destruct (flush_frame (store (engine s))) as (Ei & Es & _).
  constructor; cbn [s1 set_durable set_engine count engine mode now_ms committed durable committed_fp
    successful_completes inflight Engine.flush set_store store lease_ms ttl_ms next_fence];
    change (Store.flush (store (engine s))) with (flush_pending (store (engine s)));
    rewrite ?Ei, ?Es, ?flush_on_disk by done; try done; [by apply flush_pending_ok | lia | lia |].
  eapply agrees_mono; [exact H7 | lia | lia].
Qed.

(** Every outcome of the oracle is replayed by the engine. *)
Lemma check_survivors_ok n s l :
  sim_inv n s -> Z.of_nat n <= HORIZON -> (forall i o, (i, o) ∈ l -> committed s !! i = Some o) ->
  check_survivors s l = Ok s.
Proof.
  intros Hs Hn. induction l as [|[i o] l IH]; intros Hl; [done|]. cbn [check_survivors].
  destruct (agree_committed _ _ _ _ _ _ (inv_mem _ _ Hs) i o (Hl i o ltac:(left))) as (Hi & fp & t & Hk).
  destruct (agree_done _ _ _ _ _ _ (inv_mem _ _ Hs) i fp o t Hi Hk) as (_ & [Ht _] & v & -> & _ & ->).
  cbn [from_option id]. unfold begin. change (get (store (engine s)) (key_of i)) with (index (store (engine s)) !! key_of i).
  rewrite Hk. cbn [begin_action]. pose proof (not_expired n s t Hs Hn Ht) as Hx.
  rewrite (proj2 (Z.leb_gt _ _) Hx), decide_True by done. rewrite decide_True by done.
  replace (set_engine s (engine s)) with s by (by destruct s). apply IH. set_solver.
Qed.

(** Recovery: the engine that the reopened log gives, and the oracle that falls
    back to what is durable. *)
Lemma restart_inv n s st c :
  sim_inv n s -> Z.of_nat n <= HORIZON -> wal_ok st ->
  index st = on_disk (store (engine s)) -> on_disk st = on_disk (store (engine s)) ->
  sync_each st = bool_decide (mode s = Strict) ->
  c = match mode s with Strict => committed s | GroupCommit => durable s end ->
  sim_inv n (set_committed (set_engine s (Engine.new st LEASE_MS)) c).
Proof.
  intros Hs Hn Hok Hi Hd Hm Hc. pose proof (inv_strict n s Hs) as Hstrict.
  destruct Hs as [H1 H2 H3 H4 H5 H6 H7 H8 H9 H10 H11]. unfold HORIZON in Hn.
  assert (exists b, 0 <= b <= Z.of_nat n /\ oracle_agrees (mode s) (now_ms s) b (on_disk (store (engine s))) c (committed_fp s))
    as (b & Hb & Hag).
  { destruct (mode s) eqn:Em; subst c.
    - exists (next_fence (engine s) - 1). rewrite Hstrict by done. split; [lia | done].
    - exists (Z.of_nat n). split; [lia | done]. }
  destruct (agrees_max _ _ _ _ _ _ Hag) as [Hag' Hmax].
  assert (next_fence (Engine.new st LEASE_MS) = max_fence (on_disk (store (engine s))) + 1) as Enx.
  { cbn [Engine.new with_ttl next_fence]. change (max_in_progress_fence st) with (max_fence (index st)).
    rewrite Hi. apply wrapping_add_small. lia. }
  constructor; cbn [set_committed set_engine engine mode now_ms committed durable committed_fp
    successful_completes inflight]; rewrite ?Enx; try done; cbn [Engine.new with_ttl store]; rewrite ?Hi, ?Hd; try done; [lia | | | |].
  - by replace (max_fence _ + 1 - 1) with (max_fence (on_disk (store (engine s)))) by lia.
  - subst c. by destruct (mode s).
  - intros i x Em Hx. subst c. rewrite Em. by apply (H10 i x).
  - eapply Forall_impl; [exact H11|]. intros w (Hw & Ht & Hv & Ho & Hk). split_and!; try done.
    intros Em. rewrite Hstrict by done. by apply Hk.
Qed.

Lemma do_crash_spec n s :
  sim_inv n s -> Z.of_nat n <= HORIZON ->
  exists st,
    let c := match mode s with Strict => committed s | GroupCommit => durable s end in
    let s' := set_committed (set_engine (count s one_crash) (Engine.new st LEASE_MS)) c in
    index st = on_disk (store (engine s)) /\ on_disk st = on_disk (store (engine s)) /\
    do_crash s = Ok s' /\ sim_inv n s'.
Proof.
  intros Hs Hn. unfold do_crash. set (s0 := count s one_crash).
  assert (sim_inv n s0) as Hs0 by (by apply inv_count).
  destruct (reopen_ok (store (engine s0)) (bool_decide (mode s0 = Strict)) (inv_ok _ _ Hs0))
    as (st & Ho & Hok & Hi & Hd & Hm).
  assert (open_store (disk (store (engine s0))) (mode s0) = Ok st) as ->.
  { rewrite <- Ho. by destruct (mode s0). }
  exists st. cbv zeta. pose proof (restart_inv n s0 st _ Hs0 Hn Hok Hi Hd Hm eq_refl) as Hs'.
  split_and!; [done | done | | exact Hs'].
  set (s1 := match mode (set_engine _ _) with Strict => _ | GroupCommit => _ end).
  assert (s1 = set_committed (set_engine s0 (Engine.new st LEASE_MS))
                 match mode s0 with Strict => committed s0 | GroupCommit => durable s0 end) as ->.
  { unfold s1. cbn [set_engine mode]. by destruct (mode s0). }
  apply (check_survivors_ok n); [done..|]. by intros i o Hio%elem_of_hm_iter.
Qed.

Lemma do_crash_inv n s :
  sim_inv n s -> Z.of_nat n <= HORIZON -> exists s', do_crash s = Ok s' /\ sim_inv (S n) s'.
Proof. intros Hs Hn. destruct (do_crash_spec n s Hs Hn) as (st & _ & _ & E & H'). eauto. Qed.

Lemma vec_remove_Forall (P : Inflight -> Prop) i l : Forall P l -> Forall P (vec_remove i l).
Proof. intros H'. apply Forall_app; split; [by apply Forall_take | by apply Forall_drop]. Qed.

Lemma inv_inflight n s ws :
  sim_inv n s -> Forall (worker_ok (mode s) (index (store (engine s)))) ws -> sim_inv n (set_inflight s ws).
Proof. by intros [] ?; constructor. Qed.

(** A completion: the engine holds the outcome, and the oracles record it, as
    durable at once in strict mode. *)
Lemma completed_inv n s w fp l :
  sim_inv n s -> Z.of_nat n <= HORIZON -> worker_ok (mode s) (index (store (engine s))) w ->
  let i := worker_index w in let o := worker_outcome w in let e := engine s in
  index (store e) !! key_of i = Some (InProgress (token_fence (worker_token w)) fp l) ->
  let e' := set_store e (put (store e) (key_of i) (Completed fp o (now_ms s))) in
  let s1 := set_committed_fp (set_committed (set_engine s e') (<[i := o]> (committed s)))
              (<[i := fp_variant w]> (committed_fp s)) in
  committed s !! i = None /\
  sim_inv n match mode s with
            | Strict => set_durable (set_successful s1 (<[i := 1]> (successful_completes s))) (<[i := o]> (durable s))
            | GroupCommit => s1
            end.
Proof.
  intros Hs Hn (Hi & Ht & Hv & (b & Hb) & Hw) i o e Hk e' s1. pose proof (inv_strict n s Hs) as Hstrict.
  destruct Hs as [H1 H2 H3 H4 H5 H6 H7 H8 H9 H10 H11].
  fold i in Hi, Ht, Hw. fold o in Hb. fold e in H1, H2, H3, H4, H6, H7, H8, H11, Hw, Hstrict.
  assert (fp = fingerprint_of i (fp_variant w)) as ->.
  { destruct (mode s) eqn:Em.
    - specialize (Hw eq_refl). rewrite Hk in Hw. by apply Hw.
    - destruct (agree_running _ _ _ _ _ _ H7 i _ _ _ Hi Hk) as (v & Hv' & ->). simpl in *. congruence. }
  set (st := Completed (fingerprint_of i (fp_variant w)) o (now_ms s)) in *.
  assert (encodable (key_of i) st) as Henc.
  { unfold st. rewrite Hb. eapply (sim_admits_outcome i b); [done| |].
    - unfold in_uint, HORIZON in *. lia.
    - by apply (wal_encodable _ H1 _ _ Hk). }
  assert (committed s !! i = None) as Hc.
  { eapply agrees_uncommitted; [exact H7 | done|]. intros fp' o' t'. rewrite Hk. done. }
  assert (durable s !! i = None) as Hd.
  { destruct (durable s !! i) eqn:E; [|done]. apply (lookup_weaken _ _ _ _ E) in H9. congruence. }
  split; [done|].
  assert (oracle_agrees (mode s) (now_ms s) (next_fence e - 1) (<[key_of i := st]> (index (store e)))
            (<[i := o]> (committed s)) (<[i := fp_variant w]> (committed_fp s))) as Hmem.
  { eapply agrees_complete; [exact H7 | done | done | lia | exact Hk]. }
  assert (Forall (worker_ok (mode s) (<[key_of i := st]> (index (store e)))) (inflight s)) as Hws.
  { eapply Forall_impl; [exact H11|]. intros w' Hw'. by apply worker_completed. }
  change (put (store e) (key_of i) st) with (WalStore_put (store e) (key_of i) st) in e'.
  destruct (mode s) eqn:Em; constructor;
    cbn [s1 e' set_store set_durable set_successful set_committed_fp set_committed set_engine engine mode now_ms committed
      durable committed_fp successful_completes inflight store lease_ms ttl_ms next_fence];
    rewrite ?Em, ?put_index, ?put_sync_each, ?put_on_disk by done; try done.
  - by apply put_repr.
  - rewrite H2. simpl. rewrite Hstrict in H8 by done.
    eapply agrees_complete; [exact H8 | done | done | lia | exact Hk].
  - by apply insert_mono.
  - intros j c _ [[<- _]|[_ Hj]]%lookup_insert_Some; [by rewrite lookup_insert_eq|].
    destruct (decide (i = j)) as [<-|]; [by rewrite lookup_insert_eq|]. rewrite lookup_insert_ne by done. by apply (H10 j c).
  - by apply put_repr.
  - rewrite H2. simpl. by eapply agrees_fingerprint.
  - etransitivity; [exact H9 | by apply insert_subseteq].
Qed.

Lemma do_complete_inv n s :
  sim_inv n s -> Z.of_nat n <= HORIZON -> exists s', do_complete s = Ok s' /\ sim_inv (S n) s'.
Proof.
  intros Hs Hn. unfold do_complete. case_bool_decide as He; [eauto|].
  assert (0 < len (inflight s)) as Hlen by (unfold len; destruct (inflight s); [done | simpl; lia]).
  destruct (draw_spec n s _ Hs Hlen) as (x & s1 & -> & Hx & Hs1 & _ & Ei). rewrite Ei.
  destruct (inflight s !! Z.to_nat x) as [w|] eqn:Ew.
  2: { apply lookup_ge_None in Ew. unfold len in Hx. lia. }
  rewrite <- Ei in *. pose proof (Forall_lookup_1 _ _ _ _ (inv_workers _ _ Hs1) Ew) as Hw.
  set (s2 := set_inflight s1 _).
  assert (sim_inv n s2) as Hs2 by (apply inv_inflight, vec_remove_Forall; [done | apply (inv_workers _ _ Hs1)]).
  change (worker_ok (mode s2) (index (store (engine s2))) w) in Hw. clearbody s2. clear dependent s1 s.
  pose proof Hw as (Hi & Ht & _ & _ & Hst).
  unfold complete. rewrite Ht.
  change (get (store (engine s2)) (key_of (worker_index w))) with (index (store (engine s2)) !! key_of (worker_index w)).
  destruct (index (store (engine s2)) !! key_of (worker_index w)) as [[f fp l|fp o t]|] eqn:Ek.
  - destruct (decide (f = token_fence (worker_token w))) as [->|].
    + destruct (completed_inv n s2 w fp l Hs2 Hn) as [Hc H']; [done..|].
      cbn [count set_committed_fp set_committed set_engine mode successful_completes committed committed_fp].
      destruct (mode s2) eqn:Em; [|eexists; split; [done|]; apply inv_mono; exact (inv_count _ _ one_complete H')].
      assert (successful_completes s2 !! worker_index w = None) as ->.
      { destruct (successful_completes s2 !! worker_index w) as [c|] eqn:E; [|done].
        apply (inv_success _ _ Hs2 _ _ Em) in E. rewrite Hc in E. by destruct E. }
      change (wrapping_add 64 (default 0 None) 1) with 1. cbn [Z.eqb Pos.eqb]. unfold mark_durable.
      cbn [set_successful set_committed_fp set_committed count set_engine durable].
      destruct (durable s2 !! worker_index w) eqn:Ed.
      { pose proof (lookup_weaken _ _ _ _ Ed (inv_sub _ _ Hs2)). congruence. }
      eexists; split; [reflexivity|]. apply inv_mono. exact (inv_count _ _ one_complete H').
    + eexists; split; [done|]. apply inv_mono, inv_count. by destruct Hs2; constructor.
  - destruct (agree_done _ _ _ _ _ _ (inv_mem _ _ Hs2) _ fp o t Hi Ek) as (Hc & _).
    cbn [count set_engine committed]. rewrite decide_True by (by rewrite Hc).
    eexists; split; [done|]. apply inv_mono, inv_count. by destruct Hs2; constructor.
  - cbn [set_engine mode]. destruct (mode s2) eqn:Em; [by destruct (Hst eq_refl)|].
    eexists; split; [done|]. apply inv_mono, inv_count. by destruct Hs2; constructor.
Qed.

Lemma step_inv n s :
  sim_inv n s -> Z.of_nat n <= HORIZON -> exists s', step s = Ok s' /\ sim_inv (S n) s'.
Proof.
  intros Hs Hn. unfold step.
  destruct (draw_spec n s 100 Hs ltac:(done)) as (roll & s1 & -> & _ & Hs1 & _).
  assert (forall r : result Simulation Panic, (exists s', r = Ok s' /\ sim_inv (S n) s') ->
    exists s', match r with Ok s' => Ok (count s' one_step) | Err e => Err e end = Ok s' /\ sim_inv (S n) s') as Hbind.
  { intros r (s' & -> & H'). eexists; split; [done | by apply inv_count]. }
  apply Hbind. destruct (mode s1) eqn:Em;
    repeat match goal with |- context [if ?b then _ else _] => destruct b end;
    eauto using do_begin_inv, do_complete_inv, do_advance_inv, do_crash_inv, do_flush_inv.
Qed.

Lemma run_inv k n s :
  sim_inv n s -> Z.of_nat (n + k) <= HORIZON -> exists s', run k s = Ok s' /\ sim_inv (n + k) s'.
Proof.
  revert n s; induction k as [|k IH]; intros n s Hs Hn; [rewrite Nat.add_0_r in *; by exists s|].
  destruct (step_inv n s Hs ltac:(lia)) as (s1 & E & Hs1). cbn [run]. rewrite E.
  rewrite Nat.add_succ_r in *. by apply (IH (S n)).
Qed.

Lemma with_mode_inv dirs sd md : exists s, with_mode dirs sd md = Ok s /\ sim_inv 0 s /\ mode s = md.
Proof.
  unfold with_mode. pose proof (sample_store_ok (bool_decide (md = Strict)) dirs) as Hok.
  assert (open_store (disk_new dirs) md = Ok (sample_store (bool_decide (md = Strict)) dirs)) as ->.
  { destruct md; apply open_log; (constructor || apply image_nil). }
  set (st := sample_store _ _) in *. eexists; split; [done|]. split; [|done].
  assert (pending st = [] /\ index st = ∅) as [Hp Hi] by done.
  assert (forall b, oracle_agrees md 1 b ∅ ∅ ∅) as Hempty.
  { intros b. constructor; intros *; rewrite lookup_empty; done. }
  constructor; cbn [engine mode now_ms committed durable committed_fp successful_completes inflight Engine.new with_ttl
    store lease_ms ttl_ms next_fence]; rewrite ?flushed_on_disk, ?Hi by done; try done.
Qed.

(** C2: no assertion of the simulator fires.  For every seed and either
    durability discipline, a run of up to [HORIZON] steps (the clock then stays
    below the time-to-live) ends without a panic, whatever interleaving of
    begins, completions by current and stale workers, clock jumps, flushes and
    crashes the generator produces.  The assertions say that a key completes at
    most once in strict mode, that a durable outcome never changes, that replays
    return the committed outcome and only to the request that produced it, and
    that everything durable is replayed after every crash; and at the end the
    oracles still agree with the engine and with the log. *)
Theorem simulation_never_panics dirs sd md k :
  Z.of_nat k <= HORIZON ->
  exists s0 s, with_mode dirs sd md = Ok s0 /\ run k s0 = Ok s /\
    (forall i o, durable s !! i = Some o ->
       exists fp t, on_disk (store (engine s)) !! key_of i = Some (Completed fp o t)) /\
    durable s ⊆ committed s.
Proof.
  intros Hk. destruct (with_mode_inv dirs sd md) as (s0 & E0 & H0 & _).
  destruct (run_inv k 0 s0 H0 Hk) as (s & E & Hs). exists s0, s. split_and!; [done | done | | apply (inv_sub _ _ Hs)].
  intros i o Ho. by destruct (agree_committed _ _ _ _ _ _ (inv_disk _ _ Hs) i o Ho) as (_ & ?).
Qed.

(** The campaign of [main] reports its statistics, for any number of seeds. *)
Lemma campaign_ok dirs md seeds k total :
  Z.of_nat k <= HORIZON -> exists st, campaign dirs md seeds k total = Ok st.
Proof.
  intros Hk. revert total; induction seeds as [|sd seeds IH]; intros total; [by eexists|]. cbn [campaign].
  destruct (with_mode_inv dirs sd md) as (s0 & -> & H0 & _).
  destruct (run_inv k 0 s0 H0 Hk) as (s & -> & _). apply IH.
Qed.

Lemma main_ok dirs seeds k : Z.of_nat k <= HORIZON -> exists st st', main dirs seeds k = Ok (st, st').
Proof.
  intros Hk. unfold main. destruct (campaign_ok dirs Strict (map Z.of_nat (seq 0 seeds)) k stats_default Hk) as [st ->].
  destruct (campaign_ok dirs GroupCommit (map Z.of_nat (seq 0 seeds)) k stats_default Hk) as [st' ->]. by eexists _, _.
Qed.

End steps.

(** A seed at which the generator starts in the zero state, which it never
    leaves: every draw is then 0. *)
Example zero_seed : next_u64 (Rng_new 0x9E3779B97F4A7C15) = (0, Rng_new 0x9E3779B97F4A7C15).
Proof. vm_compute. reflexivity. Qed.

#[local] Instance sim_key_order : HashOrder IdempotencyKey := default_order IdempotencyKey.
#[local] Instance sim_index_order : HashOrder Z := default_order Z.

Lemma simulation_never_panics_witness :
  exists s0 s, with_mode true 7 GroupCommit = Ok s0 /\ run 600 s0 = Ok s /\ durable s ⊆ committed s.
Proof.
  destruct (simulation_never_panics true 7 GroupCommit 600 ltac:(unfold HORIZON; lia)) as (s0 & s & E0 & E & _ & Hsub).
  exists s0, s. split_and!; [exact E0 | exact E | exact Hsub].
Defined.
