(* ===== verification/SimShadow.v ===== *)
(** * The simulator without a log

    A machine that takes the same decisions as the simulator, with the engine
    over a map in memory, the log reduced to the records it would give back, and
    no oracles.  It draws the same numbers and counts the same events as the
    simulator ([simulation_follows]), so what a campaign exercises can be computed
    without encoding, hashing or replaying a single record. *)

From S2P Require Import Prelude Machine Str Decimal HashMap Types Store Engine History EngineSpec Suite Codec.
From S2P Require Import Disk Wal WalLog WalSpec Durability EngineWal WalSuite Sim SimSpec.

(** [sh_disk]: the records that reopening the log would recover. *)
Record Shadow := MkShadow {
  sh_mode : Durability;
  sh_rng : Rng;
  sh_engine : Engine MemoryStore;
  sh_disk : gmap IdempotencyKey KeyState;
  sh_now : Z;
  sh_inflight : list Inflight;
  sh_body : Z;
  sh_stats : Stats;
}.

Definition sh_set_rng (s : Shadow) (r : Rng) : Shadow :=
  MkShadow (sh_mode s) r (sh_engine s) (sh_disk s) (sh_now s) (sh_inflight s) (sh_body s) (sh_stats s).
Definition sh_set_store (s : Shadow) (e : Engine MemoryStore) (d : gmap IdempotencyKey KeyState) : Shadow :=
  MkShadow (sh_mode s) (sh_rng s) e d (sh_now s) (sh_inflight s) (sh_body s) (sh_stats s).
Definition sh_set_now (s : Shadow) (t : Z) : Shadow :=
  MkShadow (sh_mode s) (sh_rng s) (sh_engine s) (sh_disk s) t (sh_inflight s) (sh_body s) (sh_stats s).
Definition sh_set_inflight (s : Shadow) (ws : list Inflight) : Shadow :=
  MkShadow (sh_mode s) (sh_rng s) (sh_engine s) (sh_disk s) (sh_now s) ws (sh_body s) (sh_stats s).
Definition sh_set_body (s : Shadow) (b : Z) : Shadow :=
  MkShadow (sh_mode s) (sh_rng s) (sh_engine s) (sh_disk s) (sh_now s) (sh_inflight s) b (sh_stats s).
Definition sh_count (s : Shadow) (c : Stats) : Shadow :=
  MkShadow (sh_mode s) (sh_rng s) (sh_engine s) (sh_disk s) (sh_now s) (sh_inflight s) (sh_body s)
    (accumulate (sh_stats s) c).

Definition sh_draw (s : Shadow) (n : Z) : Z * Shadow :=
  let (x, r) := below (sh_rng s) n in (x, sh_set_rng s r).

(** What an operation of the engine leaves on disk: in strict mode everything,
    in group-commit mode what the last flush wrote. *)
Definition disk_after (strict : bool) (op : Op) (m d : gmap IdempotencyKey KeyState)
  : gmap IdempotencyKey KeyState :=
  if strict then m else match op with OpFlush => m | _ => d end.

Definition sh_op (s : Shadow) (op : Op) : Reply * Shadow :=
  let (r, e) := run_op (sh_engine s) op in
  (r, sh_set_store s e (disk_after (bool_decide (sh_mode s = Strict)) op (keys (store e)) (sh_disk s))).

Definition shadow_begin (s : Shadow) : Shadow :=
  let (index, s) := sh_draw s KEY_SPACE in
  let (variant, s) := match sh_mode s with
                      | Strict => sh_draw s 2
                      | GroupCommit => (0, s)
                      end in
  let had_inflight := existsb (fun w => worker_index w =? index) (sh_inflight s) in
  let (r, s) := sh_op s (OpBegin (key_of index) (fingerprint_of index variant) (sh_now s)) in
  match r with
  | ReplyBegin (Begin_Run token) =>
      let s := sh_count s one_run in
      let s := if had_inflight then sh_count s one_takeover else s in
      let s := sh_set_body s (wrapping_add 64 (sh_body s) 1) in
      sh_set_inflight s
        (sh_inflight s ++ [MkInflight index token (MkOutcome 200 [] (to_le_bytes 8 (sh_body s))) variant])
  | ReplyBegin (Begin_Replay _) => sh_count s one_replay
  | ReplyBegin Begin_InProgress => sh_count s one_in_progress
  | _ => sh_count s one_mismatch
  end.

Definition shadow_complete (s : Shadow) : Shadow :=
  if bool_decide (sh_inflight s = []) then s
  else
    let (which, s) := sh_draw s (len (sh_inflight s)) in
    match sh_inflight s !! Z.to_nat which with
    | None => s
    | Some worker =>
        let s := sh_set_inflight s (vec_remove (Z.to_nat which) (sh_inflight s)) in
        let (r, s) := sh_op s (OpComplete (worker_token worker) (worker_outcome worker) (sh_now s)) in
        match r with
        | ReplyComplete (Ok _) => sh_count s one_complete
        | ReplyComplete (Err StaleFence) => sh_count s one_stale
        | ReplyComplete (Err AlreadyCompleted) => sh_count s one_already
        | _ => sh_count s one_unknown
        end
    end.

Definition shadow_advance (s : Shadow) : Shadow :=
  let (half, s) := sh_draw s 2 in
  let (jump, s) := if half =? 0
                   then let (j, s) := sh_draw s (LEASE_MS / 2) in (j + 1, s)
                   else let (j, s) := sh_draw s LEASE_MS in (LEASE_MS + j, s) in
  sh_set_now s (wrapping_add 64 (sh_now s) jump).

Definition shadow_flush (s : Shadow) : Shadow := (sh_op (sh_count s one_flush) OpFlush).2.

Definition shadow_crash (s : Shadow) : Shadow :=
  let s := sh_count s one_crash in
  let e := MkEngine (MkMemoryStore (sh_disk s)) LEASE_MS DEFAULT_TTL_MS
             (wrapping_add 64 (max_fence (sh_disk s)) 1) in
  sh_set_store s e (sh_disk s).

Definition shadow_step (s : Shadow) : Shadow :=
  let (roll, s) := sh_draw s 100 in
  let s := match sh_mode s with
           | Strict =>
               if roll <=? 39 then shadow_begin s
               else if roll <=? 69 then shadow_complete s
               else if roll <=? 84 then shadow_advance s
               else shadow_crash s
           | GroupCommit =>
               if roll <=? 34 then shadow_begin s
               else if roll <=? 59 then shadow_complete s
               else if roll <=? 74 then shadow_flush s
               else if roll <=? 84 then shadow_advance s
               else shadow_crash s
           end in
  sh_count s one_step.

Fixpoint shadow_run (n : nat) (s : Shadow) : Shadow :=
  match n with
  | O => s
  | Datatypes.S n => shadow_run n (shadow_step s)
  end.

Definition shadow_new (seed : Z) (mode : Durability) : Shadow :=
  MkShadow mode (Rng_new seed) (Engine.new MemoryStore_new LEASE_MS) ∅ 1 [] 0 stats_default.

(** ** The simulator follows its shadow *)

Section following.
Context `{!HashOrder IdempotencyKey} `{!HashOrder Z}.

Record shadows (s : Simulation) (sh : Shadow) : Prop := {
  same_mode : mode s = sh_mode sh;
  same_rng : rng s = sh_rng sh;
  same_now : now_ms s = sh_now sh;
  same_inflight : inflight s = sh_inflight sh;
  same_body : next_body s = sh_body sh;
  same_stats : stats s = sh_stats sh;
  same_engine : simulates (engine s) (sh_engine sh);
  same_disk : on_disk (store (engine s)) = sh_disk sh;
}.

(** Field updates that the relation follows, and oracles that it ignores. *)
Ltac follow :=
  match goal with H : shadows _ _ |- _ =>
    destruct H; constructor; cbn [mode rng now_ms inflight next_body stats engine set_rng set_engine set_now set_inflight
      set_committed set_durable set_committed_fp set_successful set_next_body Sim.count
      sh_mode sh_rng sh_now sh_inflight sh_body sh_stats sh_engine sh_disk sh_set_rng sh_set_store sh_set_now
      sh_set_inflight sh_set_body sh_count] in *; try done; try congruence
  end.

Lemma ok_inj {A E : Type} (a b : A) : Ok (E := E) a = Ok b -> a = b.
Proof. by intros [= ->]. Qed.

Lemma count_follows s sh c : shadows s sh -> shadows (Sim.count s c) (sh_count sh c).
Proof. intros H'. follow. Qed.

Lemma draw_follows s sh n x s1 :
  shadows s sh -> draw s n = (x, s1) -> exists sh1, sh_draw sh n = (x, sh1) /\ shadows s1 sh1.
Proof.
  intros H'. unfold draw, sh_draw. rewrite <- (same_rng _ _ H'). destruct (below (rng s) n) as [y r].
  intros [= -> <-]. eexists. split; [done|]. follow.
Qed.

(** What is on disk after an operation. *)
Lemma op_on_disk (e : Engine WalStore) op :
  engine_ok e -> engine_ranges e -> op_admissible (S := WalStore) op -> (forall now, op <> OpPrune now) ->
  on_disk (store (run_op e op).2) = disk_after (sync_each (store e)) op (records (run_op e op).2) (on_disk (store e)).
Proof.
  intros Ho Hr Hadm Hnp. unfold disk_after.
  assert (engine_ok (run_op e op).2) as Ho'.
  { set (m := MkEngine (MkMemoryStore (records e)) (lease_ms e) (ttl_ms e) (next_fence e)).
    assert (simulates e m) as Hsim by (by split_and!). by destruct (simulates_op e m op Hsim Hadm) as [_ [? _]]. }
  assert (sync_each (store (run_op e op).2) = sync_each (store e)) as Hs'.
  { apply (run_op_keeps (fun s => sync_each s = sync_each (store e))); [| | | done].
    - intros s k st <-. apply put_sync_each.
    - intros s <-. apply flush_frame.
    - intros s keep <-. apply compact_sync_each. }
  destruct (sync_each (store e)) eqn:Es.
  { rewrite flushed_on_disk; [done | done|]. by apply Ho'. }
  destruct op as [k fp now|tok o now| |now]; cbn [run_op] in *; [| | |by destruct (Hnp now)].
  - destruct Hadm as [Hn Hadm], Hr as (Hf & Hl & _). destruct (begin_cases e k fp now Ho) as [[_ E]|[E _]].
    + rewrite E, start_eq. cbn [snd store]. change (put (S := WalStore)) with WalStore_put.
      rewrite put_on_disk, Es; [done | done|]. apply Hadm; [done|].
      apply saturating_add_range; unfold in_uint in *; lia.
    + destruct (begin e k fp now) as [b e']. simpl in *. by subst.
  - destruct (complete_cases e tok o now Ho) as [(fp & l & Hk & E)|[E _]].
    + rewrite E. cbn [snd store set_store]. change (put (S := WalStore)) with WalStore_put.
      rewrite put_on_disk, Es; [done | done|]. eapply Hadm. by apply (admitted (S := WalStore) (store e)).
    + destruct (complete e tok o now) as [b e']. simpl in *. by subst.
  - cbn [snd]. unfold Engine.flush. cbn [store set_store]. rewrite flush_on_disk by done.
    symmetry. exact (proj1 (flush_frame (store e))).
Qed.

Lemma op_follows n s sh op r e :
  sim_inv n s -> shadows s sh -> op_admissible (S := WalStore) op -> (forall now, op <> OpPrune now) ->
  run_op (engine s) op = (r, e) -> exists sh1, sh_op sh op = (r, sh1) /\ shadows (set_engine s e) sh1.
Proof.
  intros Hs Hsh Hadm Hnp Er. destruct (simulates_op _ _ op (same_engine _ _ Hsh) Hadm) as [E Hsim].
  destruct (same_engine _ _ Hsh) as (Ho & Hr & _). pose proof (op_on_disk _ op Ho Hr Hadm Hnp) as Hd.
  rewrite (inv_mode _ _ Hs), (same_mode _ _ Hsh), (same_disk _ _ Hsh) in Hd. unfold sh_op. rewrite Er in *.
  destruct (run_op (sh_engine sh) op) as [r' m]. cbn [fst snd] in *. subst r'. eexists. split; [done|]. follow.
  destruct Hsim as (_ & _ & <- & _). done.
Qed.

Lemma begin_follows n s sh s' :
  sim_inv n s -> Z.of_nat n <= HORIZON -> shadows s sh -> do_begin s = Ok s' -> shadows s' (shadow_begin sh).
Proof.
  intros Hs Hn Hsh. unfold do_begin, shadow_begin.
  destruct (draw_spec n s KEY_SPACE Hs ltac:(done)) as (i & s1 & E & Hi & Hs1 & _). rewrite E.
  destruct (draw_follows _ _ _ _ _ Hsh E) as (sh1 & -> & Hsh1). clear dependent s sh.
  assert (exists v s2 sh2, match mode s1 with Strict => draw s1 2 | GroupCommit => (0, s1) end = (v, s2) /\
            match sh_mode sh1 with Strict => sh_draw sh1 2 | GroupCommit => (0, sh1) end = (v, sh2) /\
            sim_inv n s2 /\ shadows s2 sh2) as (v & s & sh & -> & -> & Hs & Hsh).
  { rewrite <- (same_mode _ _ Hsh1). destruct (mode s1); [|by exists 0, s1, sh1].
    destruct (draw_spec n s1 2 Hs1 ltac:(done)) as (v & s2 & E & _ & Hs2 & _).
    destruct (draw_follows _ _ _ _ _ Hsh1 E) as (sh2 & E' & Hsh2). by exists v, s2, sh2. }
  clear dependent s1 sh1. rewrite <- (same_inflight _ _ Hsh), <- (same_now _ _ Hsh).
  destruct (begin (engine s) (key_of i) (fingerprint_of i v) (now_ms s)) as [b e] eqn:Eb.
  destruct (op_follows n s sh (OpBegin (key_of i) (fingerprint_of i v) (now_ms s)) (ReplyBegin b) e) as (sh1 & -> & Hsh1);
    [done | done | | done | cbn [run_op]; by rewrite Eb |].
  { split; [|by apply sim_admits_request]. pose proof (inv_now _ _ Hs). unfold in_uint, HORIZON in *. lia. }
  destruct b as [tok|o| |].
  - intros <-%ok_inj. cbn [make_outcome]. destruct (existsb _ _); follow.
  - repeat case_decide; intros [= <-]. follow.
  - intros [= <-]. follow.
  - intros [= <-]. follow.
Qed.

Lemma complete_follows n s sh s' :
  sim_inv n s -> Z.of_nat n <= HORIZON -> shadows s sh -> do_complete s = Ok s' -> shadows s' (shadow_complete sh).
Proof.
  intros Hs Hn Hsh. unfold do_complete, shadow_complete. rewrite <- (same_inflight _ _ Hsh).
  case_bool_decide as He; [by intros [= <-]|].
  assert (0 < len (inflight s)) as Hlen by (unfold len; destruct (inflight s); [done | simpl; lia]).
  destruct (draw_spec n s _ Hs Hlen) as (x & s1 & E & _ & Hs1 & _). rewrite E.
  destruct (draw_follows _ _ _ _ _ Hsh E) as (sh1 & -> & Hsh1). clear dependent s sh.
  rewrite <- (same_inflight _ _ Hsh1). destruct (inflight s1 !! Z.to_nat x) as [w|] eqn:Ew; [|done].
  pose proof (Forall_lookup_1 _ _ _ _ (inv_workers _ _ Hs1) Ew) as (Hi & Ht & _ & (b & Hb) & _).
  set (ws := vec_remove (Z.to_nat x) (inflight s1)). set (s := set_inflight s1 ws). set (sh := sh_set_inflight sh1 ws).
  assert (sim_inv n s) as Hs by (apply inv_inflight, vec_remove_Forall; [done | apply (inv_workers _ _ Hs1)]).
  assert (shadows s sh) as Hsh by follow. clearbody s sh. clear dependent s1 sh1. rewrite <- (same_now _ _ Hsh).
  destruct (complete (engine s) (worker_token w) (worker_outcome w) (now_ms s)) as [r e] eqn:Ec.
  destruct (op_follows n s sh (OpComplete (worker_token w) (worker_outcome w) (now_ms s)) (ReplyComplete r) e)
    as (sh1 & -> & Hsh1); [done | done | | done | cbn [run_op]; by rewrite Ec |].
  { simpl. rewrite Ht, Hb. apply sim_admits_outcome; [done|]. pose proof (inv_now _ _ Hs). unfold in_uint, HORIZON in *. lia. }
  destruct r as [u|[| |]].
  - cbn [Sim.count set_engine set_committed set_committed_fp mode].
    destruct (mode s); [|intros [= <-]; follow]. destruct (_ =? 1); [|done]. unfold mark_durable.
    destruct (durable _ !! _); [case_decide; [|done]|]; intros [= <-]; follow.
  - intros [= <-]. follow.
  - case_decide; intros [= <-]. follow.
  - cbn [set_engine mode]. destruct (mode s); intros [= <-]. follow.
Qed.

Lemma advance_follows s sh s' : shadows s sh -> do_advance_clock s = Ok s' -> shadows s' (shadow_advance sh).
Proof.
  intros Hsh. unfold do_advance_clock, shadow_advance. destruct (draw s 2) as [h s1] eqn:E.
  destruct (draw_follows _ _ _ _ _ Hsh E) as (sh1 & -> & Hsh1).
  destruct (h =? 0); [destruct (draw s1 (LEASE_MS / 2)) as [j s2] eqn:E2 | destruct (draw s1 LEASE_MS) as [j s2] eqn:E2];
    destruct (draw_follows _ _ _ _ _ Hsh1 E2) as (sh2 & -> & Hsh2); clear Hsh Hsh1; intros [= <-]; follow.
Qed.

Lemma mark_all_follows l s sh s' : shadows s sh -> mark_all s l = Ok s' -> shadows s' sh.
Proof.
  revert s. induction l as [|[i o] l IH]; intros s Hsh; cbn [mark_all]; [by intros [= <-]|]. unfold mark_durable.
  destruct (durable s !! i); [case_decide; [|done]|]; apply IH; [done | follow].
Qed.

Lemma flush_follows n s sh s' : sim_inv n s -> shadows s sh -> do_flush s = Ok s' -> shadows s' (shadow_flush sh).
Proof.
  intros Hs Hsh. unfold do_flush, shadow_flush. apply mark_all_follows.
  destruct (op_follows n (Sim.count s one_flush) (sh_count sh one_flush) OpFlush ReplyUnit (Engine.flush (engine s)))
    as (sh1 & -> & Hsh1); [by apply inv_count | by apply count_follows | done..].
Qed.

Lemma crash_follows n s sh s' :
  sim_inv n s -> Z.of_nat n <= HORIZON -> shadows s sh -> do_crash s = Ok s' -> shadows s' (shadow_crash sh).
Proof.
  intros Hs Hn Hsh E. destruct (do_crash_spec n s Hs Hn) as (st & Hi & Hd & E' & Hs'). rewrite E' in E.
  injection E as <-. pose proof (inv_ok _ _ Hs') as Hok. pose proof (inv_next _ _ Hs') as Hf. clear Hs' E'.
  assert (simulates (Engine.new st LEASE_MS)
            (MkEngine (MkMemoryStore (sh_disk sh)) LEASE_MS DEFAULT_TTL_MS (wrapping_add 64 (max_fence (sh_disk sh)) 1))) as Hsim.
  { rewrite <- (same_disk _ _ Hsh), <- Hi. split_and!; try done.
    split_and!; [unfold in_uint, HORIZON in *; simpl in *; lia | done | done]. }
  assert (on_disk st = sh_disk sh) as Hd' by (by rewrite Hd, <- (same_disk _ _ Hsh)).
  unfold shadow_crash. follow.
Qed.

Lemma step_follows n s sh :
  sim_inv n s -> Z.of_nat n <= HORIZON -> shadows s sh ->
  exists s', step s = Ok s' /\ sim_inv (S n) s' /\ shadows s' (shadow_step sh).
Proof.
  intros Hs Hn Hsh. destruct (step_inv n s Hs Hn) as (s' & E & Hs'). exists s'. split_and!; [done | done|].
  revert E. unfold step, shadow_step. destruct (draw_spec n s 100 Hs ltac:(done)) as (roll & s1 & E & _ & Hs1 & _).
  rewrite E. destruct (draw_follows _ _ _ _ _ Hsh E) as (sh1 & -> & Hsh1). clear dependent s sh.
  rewrite <- (same_mode _ _ Hsh1).
  destruct (match mode s1 with Strict => _ | GroupCommit => _ end) as [s2|] eqn:E; [|done].
  intros [= <-]. apply count_follows. revert E.
  destruct (mode s1); repeat match goal with |- context [if ?b then _ else _] => destruct b end; intros E;
    eauto using begin_follows, complete_follows, advance_follows, flush_follows, crash_follows.
Qed.

Lemma run_follows k n s sh :
  sim_inv n s -> Z.of_nat (n + k) <= HORIZON -> shadows s sh ->
  exists s', run k s = Ok s' /\ sim_inv (n + k) s' /\ shadows s' (shadow_run k sh).
Proof.
  revert n s sh; induction k as [|k IH]; intros n s sh Hs Hn Hsh; [rewrite Nat.add_0_r in *; by exists s|].
  destruct (step_follows n s sh Hs ltac:(lia) Hsh) as (s1 & E & Hs1 & Hsh1). cbn [run shadow_run]. rewrite E.
  rewrite Nat.add_succ_r in *. by apply (IH (S n)).
Qed.

(** Fresh simulations are related, so every run of the simulator is one of its shadow. *)
Lemma simulation_follows dirs sd md k :
  Z.of_nat k <= HORIZON ->
  exists s0 s, with_mode dirs sd md = Ok s0 /\ run k s0 = Ok s /\ sim_inv k s /\
    shadows s (shadow_run k (shadow_new sd md)).
Proof.
  intros Hk. destruct (with_mode_inv dirs sd md) as (s0 & E0 & H0 & Em).
  assert (shadows s0 (shadow_new sd md)) as Hsh.
  { revert E0. unfold with_mode. pose proof (inv_ok _ _ H0) as Hok. destruct (open_store (disk_new dirs) md) as [st|] eqn:E; [|done].
    assert (st = sample_store (bool_decide (md = Strict)) dirs) as ->.
    { assert (Ok st = Ok (E := OpenError) (sample_store (bool_decide (md = Strict)) dirs)) as [= ->]; [|done].
      rewrite <- E. destruct md; apply open_log; (constructor || apply image_nil). }
    intros [= <-]. constructor; try done. }
  destruct (run_follows k 0 s0 _ H0 Hk Hsh) as (s & E & Hs & Hs'). by exists s0, s.
Qed.

End following.
