(* ===== verification/SimTests.v ===== *)
(** * The tests and the command line of the simulator

    The two campaigns of [onced-sim/src/lib.rs]'s test module, and the soak that
    [onced-sim/src/main.rs] runs from its environment.  A campaign passes when no
    oracle fires and its counters show that crashes, takeovers, replays and stale
    completions took place.  That no oracle fires is the invariant of [SimSpec];
    the counters are computed on the shadow of [SimShadow] and transported, so
    the campaigns pass whatever order the hash maps iterate in and whether or not
    the file system syncs directories. *)

From S2P Require Import Prelude Machine Str Decimal HashMap Types Store Engine Suite.
From S2P Require Import Wal Sim SimSpec SimShadow.

Definition env_u64 (env : string -> option string) (key : string) (dflt : Z) : Z :=
  default dflt (v ← env key; parse_uint (uint_max 64) (str_bytes v)).

Section tests.
Context `{!HashOrder IdempotencyKey} `{!HashOrder Z}.
Context (dirs : bool).

(** What [main] prints at its end, one total per discipline; the loops run
    [seeds] and [steps] times. *)
Definition soak (env : string -> option string) : result (Stats * Stats) Panic :=
  let seeds := env_u64 env "ONCED_SIM_SEEDS" 200 in
  let steps := env_u64 env "ONCED_SIM_STEPS" 2000 in
  main dirs (Z.to_nat seeds) (Z.to_nat steps).

Definition exactly_once_holds_across_seeds_and_faults : option unit :=
  total ← for_each (range 0 12) stats_default (fun total seed =>
    sim ← unwrap (with_mode dirs seed Strict);
    sim ← unwrap (run 400 sim);
    Some (accumulate total (stats sim)));
  ensure (0 <? completes_ok total);;
  ensure (0 <? crashes total);;
  ensure (0 <? replays total);;
  ensure (0 <? takeovers total);;
  ensure (0 <? stale_fences total);;
  ensure (0 <? mismatches total).

Definition group_commit_holds_durable_exactly_once_across_crashes : option unit :=
  '(total, durable_seen) ← for_each (range 0 16) (stats_default, false) (fun '(total, durable_seen) seed =>
    sim ← unwrap (with_mode dirs seed GroupCommit);
    sim ← unwrap (run 600 sim);
    Some (accumulate total (stats sim), durable_seen || negb (bool_decide (durable sim = ∅))));
  ensure (0 <? flushes total);;
  ensure (0 <? crashes total);;
  ensure (0 <? completes_ok total);;
  ensure durable_seen;;
  ensure (0 <? unknown_completes total).

End tests.

(** ** The campaigns on the shadow *)

Definition shadow_of (md : Durability) (k : nat) (sd : Z) : Shadow := shadow_run k (shadow_new sd md).

(** Some key of the campaign is completed on disk. *)
Definition sh_durable (s : Shadow) : bool :=
  existsb (fun i => match sh_disk s !! key_of i with Some (Completed _ _ _) => true | _ => false end) (range 0 KEY_SPACE).

Definition strict_total : Stats :=
  fold_left (fun total sd => accumulate total (sh_stats (shadow_of Strict 400 sd))) (range 0 12) stats_default.

Definition group_total : Stats * bool :=
  fold_left (fun '(total, seen) sd =>
    let sh := shadow_of GroupCommit 600 sd in (accumulate total (sh_stats sh), seen || sh_durable sh))
    (range 0 16) (stats_default, false).

Lemma strict_exercised :
  (let t := strict_total in
   (0 <? completes_ok t) && (0 <? crashes t) && (0 <? replays t) && (0 <? takeovers t) && (0 <? stale_fences t) &&
   (0 <? mismatches t)) = true.
Proof. vm_compute. reflexivity. Qed.

Lemma group_exercised :
  (let '(t, seen) := group_total in
   (0 <? flushes t) && (0 <? crashes t) && (0 <? completes_ok t) && seen && (0 <? unknown_completes t)) = true.
Proof. vm_compute. reflexivity. Qed.

(** ** The tests pass *)

Section verdicts.
Context `{!HashOrder IdempotencyKey} `{!HashOrder Z}.
Context (dirs : bool).

Lemma in_range i : i ∈ range 0 KEY_SPACE <-> in_space i.
Proof.
  unfold range, in_space, KEY_SPACE. rewrite list_elem_of_fmap. setoid_rewrite elem_of_seq. split.
  - intros (j & -> & Hj). lia.
  - intros Hi. exists (Z.to_nat i). lia.
Qed.

(** The durable oracle is empty just when no key is completed on disk. *)
Lemma durable_shadow n s sh : sim_inv n s -> shadows s sh -> negb (bool_decide (durable s = ∅)) = sh_durable sh.
Proof.
  intros Hs Hsh. unfold sh_durable. rewrite <- (same_disk _ _ Hsh). apply eq_bool_prop_intro.
  rewrite negb_True, bool_decide_spec, existb_True, Exists_exists. split.
  - intros (i & o & Hd)%map_choose. destruct (agree_committed _ _ _ _ _ _ (inv_disk _ _ Hs) i o Hd) as (Hi & fp & t & E).
    exists i. rewrite E. split; [by apply in_range | done].
  - intros (i & Hi%in_range & Hd). destruct (on_disk _ !! key_of i) as [[|fp o t]|] eqn:E; [done| |done].
    destruct (agree_done _ _ _ _ _ _ (inv_disk _ _ Hs) i fp o t Hi E) as (Hc & _). intros E0. by rewrite E0 in Hc.
Qed.

Lemma shadow_result md sd k :
  Z.of_nat k <= HORIZON ->
  exists sim, (sim ← unwrap (with_mode dirs sd md); unwrap (run k sim)) = Some sim /\
    stats sim = sh_stats (shadow_of md k sd) /\
    negb (bool_decide (durable sim = ∅)) = sh_durable (shadow_of md k sd).
Proof.
  intros Hk. destruct (simulation_follows dirs sd md k Hk) as (s0 & s & E0 & E & Hs & Hsh). exists s.
  rewrite E0. cbn [unwrap mbind option_bind]. rewrite E. split_and!; [done | apply Hsh | by eapply durable_shadow].
Qed.

(** The loops of the two tests compute the totals of the shadow. *)
Lemma strict_loop l t :
  for_each l t (fun total seed =>
    sim ← unwrap (with_mode dirs seed Strict); sim ← unwrap (run 400 sim); Some (accumulate total (stats sim))) =
  Some (fold_left (fun total sd => accumulate total (sh_stats (shadow_of Strict 400 sd))) l t).
Proof.
  revert t. induction l as [|sd l IH]; intros t; [done|]. cbn [for_each fold_left].
  destruct (shadow_result Strict sd 400) as (sim & E & Hst & _); [unfold HORIZON; lia|].
  destruct (unwrap (with_mode dirs sd Strict)) as [s0|]; [|done]. cbn [mbind option_bind] in *. rewrite E.
  cbn [mbind option_bind]. by rewrite Hst, IH.
Qed.

Lemma group_loop l t :
  for_each l t (fun '(total, durable_seen) seed =>
    sim ← unwrap (with_mode dirs seed GroupCommit); sim ← unwrap (run 600 sim);
    Some (accumulate total (stats sim), durable_seen || negb (bool_decide (durable sim = ∅)))) =
  Some (fold_left (fun '(total, seen) sd =>
    let sh := shadow_of GroupCommit 600 sd in (accumulate total (sh_stats sh), seen || sh_durable sh)) l t).
Proof.
  revert t. induction l as [|sd l IH]; intros [t b]; [done|]. cbn [for_each fold_left].
  destruct (shadow_result GroupCommit sd 600) as (sim & E & Hst & Hd); [unfold HORIZON; lia|].
  destruct (unwrap (with_mode dirs sd GroupCommit)) as [s0|]; [|done]. cbn [mbind option_bind] in *. rewrite E.
  cbn [mbind option_bind]. by rewrite Hst, Hd, IH.
Qed.

(** Discharges a chain of assertions from the conjunction of what they assert. *)
Ltac ensured H :=
  repeat (apply andb_true_iff in H as [H ?]); cbn [mbind option_bind]; unfold ensure;
  repeat match goal with H' : _ = true |- _ => rewrite H'; clear H'; cbn [mbind option_bind] end; done.

(** C19: the simulator's own tests pass.  The strict campaign (12 seeds of 400
    steps) and the group-commit campaign (16 seeds of 600 steps) end with no
    oracle fired and every counter they assert on positive: keys were committed,
    replayed, taken over from expired leases and refused to stale or mismatched
    callers, processes crashed, and in group commit tokens were orphaned by
    crashes that lost unflushed writes.  This holds for every iteration order of
    the hash maps and on file systems that sync directories or refuse to. *)
Theorem simulator_campaigns_pass :
  exactly_once_holds_across_seeds_and_faults dirs = Some tt /\
  group_commit_holds_durable_exactly_once_across_crashes dirs = Some tt.
Proof.
  split.
  - unfold exactly_once_holds_across_seeds_and_faults. rewrite strict_loop. fold strict_total.
    pose proof strict_exercised as Hx. cbv zeta in Hx. revert Hx. generalize strict_total. intros t Hx. ensured Hx.
  - unfold group_commit_holds_durable_exactly_once_across_crashes. rewrite group_loop. fold group_total.
    pose proof group_exercised as Hx. revert Hx. generalize group_total. intros [t seen] Hx. ensured Hx.
Qed.

(** The soak of the binary reports both totals whatever its environment, as long as
    the number of steps it asks for is within the horizon; the defaults are. *)
Lemma soak_ok env : env_u64 env "ONCED_SIM_STEPS" 2000 <= HORIZON -> exists st st', soak dirs env = Ok (st, st').
Proof. intros Hk. unfold soak. apply main_ok. unfold HORIZON in *. lia. Qed.

End verdicts.
